(* ===== verification/_CoqProject ===== *)
-Q . S2P
Prelude.v
Types.v
Coercions.v
Operators.v
ClassList.v
Heap.v
Gc.v
Alloc.v
Objects.v
ObjectsOk.v
Numbers.v
NumbersOk.v
StringEscaping.v
Values.v
ValuesOk.v
Runtime.v
Inspect.v
NotWasm.v
NotWasmTyping.v
Linking.v
Intern.v
Goto.v
JankySyntax.v
JankyTyping.v
JankyWalk.v
InsertReturns.v
Selection.v
FreeVars.v
BoxAssigns.v
ClosureConvert.v
TypeInf.v
TypeInfOk.v
Rope.v
Anf.v
AnfTyping.v
AnfProgram.v
Wasm.v
Translation.v
WasmConditions.v
TranslationTyping.v
TranslationProgram.v
Compile.v
JsSyntax.v
JsWalk.v
JsDesugar.v
JsScope.v
JsPreserve.v
JsDesugarOk.v
