(* ===== verification/Prelude.v ===== *)
(** * jankscripten: a verification library

    jankscripten compiles JavaScript to WebAssembly and links it with a runtime
    written in Rust.  [libjankscripten] is the compiler, [runtime] the runtime.
    This library models both, proves what each part promises, and composes the
    promises along the pipeline.  Paths below are relative to
    [src/libjankscripten/src/] (the compiler) and to [src/runtime/src/] (the
    runtime, marked RT).

    ** The pipeline and the files

    [javascript_to_wasm] in [lib.rs] runs, in this order:
<<
    javascript/desugar.rs          thirteen passes          JsDesugar.desugar
    jankyscript/from_js.rs         to JankyScript           JsDesugar.from_javascript
    jankyscript/compile.rs:                                 ClosureConvert.compile
      insert_returns.rs                                     InsertReturns.insert_returns
      typeinf.rs                   (asks Z3)                TypeInf.typeinf
      select_method_call.rs                                 Selection.select_method_call
      coercions.rs                                          Selection.reify_coercions
      type_checking.rs                                      JankyTyping.type_check
      fv.rs, collect_assigns.rs                             FreeVars
      box_assigns.rs                                        BoxAssigns.box_assigns
      closure_convert.rs                                    ClosureConvert.closure_convert
      type_checking.rs again                                JankyTyping.type_check
    notwasm/from_jankyscript.rs    A-normalisation          Anf.from_jankyscript
    notwasm/compile.rs:                                     Compile.notwasm_compile
      syntax.rs, Program::merge_in                          NotWasm.W.merge_in
      type_checking.rs                                      NotWasmTyping.type_check
      intern.rs                                             Intern.intern
      translation.rs               to WebAssembly           Translation.translate_parity
>>
    - Prelude: computations that may fail or panic ([comp E A]: a Rust [Result]
      together with panics), loops over lists, machine integers, lists.
    - Types, Coercions, Operators: what the stages share: [shared/id.rs],
      [shared/types.rs], [pos.rs]; [shared/coercions.rs]; [rts_function.rs],
      [jankyscript/operators.rs], [shared/methods.rs],
      [notwasm/rt_bindings.rs].
    - JsSyntax, JsWalk, JsDesugar: the syntax of JavaScript, the visitor that
      inserts statements into enclosing blocks ([javascript/walk.rs]), the
      passes and the conversion.  JsScope, JsPreserve, JsDesugarOk: the subset
      of the language between two passes, and what a visitor preserves.
    - JankySyntax, JankyTyping, JankyWalk: the typed language in the middle, its
      checker with a typing relation ([expr_typed], in a strict and a lax
      version), and its visitor ([jankyscript/walk.rs]).
    - InsertReturns, TypeInf, TypeInfOk, Selection, FreeVars, BoxAssigns,
      ClosureConvert: the passes on it.
    - NotWasm, NotWasmTyping, Linking, Intern: the low-level language, its
      checker, the merge with the library of NotWasm code, string literals.
    - Goto: labels for applications and elimination of gotos
      ([notwasm/label_apps.rs], [notwasm/elim_gotos.rs]), two passes that
      [notwasm/compile.rs] has switched off, with a semantics of NotWasm
      statements ([run]) over an abstract machine.
    - Rope, Anf, AnfTyping, AnfProgram: [rope.rs] and the compiler from
      JankyScript to NotWasm, in continuation-passing style.
    - Wasm, Translation, WasmConditions, TranslationTyping,
      TranslationProgram, Compile: the instructions and their validation, the
      code generator ([notwasm/translation.rs]), and the composed back end.
    - ClassList, Heap, Gc, Alloc: the runtime: hidden classes
      (RT [allocator/class_list.rs]); blocks, tags, floats, the shadow stack and
      the collector (RT [allocator/], [wasm32.rs], [ref.rs], [env.rs],
      [closure.rs]); its correctness; allocation.
    - Objects, ObjectsOk: objects in hidden classes, prototype chains and
      [instanceof] (RT [allocator/object_ptr.rs], [object.rs], parts of
      [coercions.rs] and [ops.rs]), and their correctness.
    - Numbers, NumbersOk: [i32] and [f64] with the conversions, the parsing and
      the printing of Rust 1.51, and what is exact among them.
    - Values, ValuesOk: tagged values, operators and the library (RT
      [any_value.rs], [coercions.rs], [ops.rs], [array.rs], [string.rs],
      [ht.rs], [math.rs], [std_lib.rs]), against the values of ECMAScript.
    - Runtime: what a compiled program does with the heap, as steps.  Inspect:
      the start of the runtime, dumps of the heap and what nothing uses.
    - StringEscaping: the literals of NotWasm programs ([string_escaping.rs]), and
      the printing of JavaScript's ([javascript/pretty_ast.rs]).

    ** State and operations

    A Rust structure is a [Record] with the fields of the source; a method that
    takes [&mut self] returns the new state.  Rust's enums are inductive types
    with the source's constructors.  A panic is the value [Panic msg], so that
    theorems about the absence of panics are about the results of functions; in the
    runtime, reading memory that is not what it is taken for is the panic
    [undefined_behavior].  Visitors are records of functions ([Visitor]) that a
    walk composes with the traversal, as in the source.  [HashMap]s are stdpp's
    [gmap]s; the order of iteration over one is some order.

    Code that is not in the repository is an argument with what is documented of it as a class:
    Rust's global allocator and the sizes of its collections ([Heap.Rust]), the build,
    the sine and the iteration order of hash tables ([Values.Platform]), what
    WebAssembly does for expressions ([Goto.Machine]), Z3
    ([TypeInf.Z3.Sound]: the model of a satisfiable problem satisfies the
    assertions), the table of signatures of the builder of modules
    ([TranslationProgram.SignatureTable]), the parsed library of NotWasm code
    and the types of the runtime's imports.

    ** What is proved

    - Front end ([JsDesugarOk], [JsWalk]): desugaring terminates without a panic on a
      subset of JavaScript given by a decidable predicate, in the subset where the desugared
      constructs are gone and every jump has its label; [apply_patches] inserts
      where it should; programs on which the passes panic or change the meaning.
    - Types ([JankyTyping], [TypeInfOk], [Selection], [InsertReturns]): the
      checker decides the typing relation; what inference reads off a model type
      checks; the passes between inference and the first check keep typing and do
      what they are named after.
    - Closures ([FreeVars], [BoxAssigns], [ClosureConvert]): the computed sets
      are those of a specification by recursion on syntax; after boxing no
      captured variable is assigned; every slot of an environment is
      read at the type at which it is stored; the composition passes the second
      check.
    - Back end ([Rope], [AnfProgram], [NotWasmTyping], [Intern],
      [TranslationProgram], [Compile]): ropes are lists; A-normalised
      programs are well typed; the checker is a decision procedure; string
      literals are found again in the data segment; generated modules validate;
      reading a literal decides their grammar ([StringEscaping]); eliminating
      gotos keeps the behaviour of programs without gotos, and jumps forward in a
      block reach their label, but not those into a branch ([Goto]).
    - Runtime ([ClassList], [Gc], [Alloc], [ObjectsOk], [ValuesOk], [Runtime]): classes keep their layout;
      the collector terminates and frees the blocks that cannot be reached
      and no others; allocation succeeds when there is room and keeps the heap.
      Objects refine maps from names to values: setting a property updates one
      entry of one object, also when it moves or the heap is collected; reading
      follows the chain of prototypes and terminates when it ends;
      [instanceof] decides membership in the chain.  On values, [==] is the abstract equality
      of ECMAScript and the arithmetic of [i32]s is that of its floats, up to
      stated exceptions; arrays are lists and hash tables maps; numbers survive being
      written and read; texts end.  [Runtime.step] is a call of the runtime as a program
      makes it (entering and leaving a function, storing a value in a frame, allocating into a
      slot, writing to arrays, tables and objects, collecting); every state that steps lead to
      is well formed, and memory that cannot be reached can always be had again.
    - The theorems whose names speak of failures, of what is unchecked or of what is lost,
      evaluate the model on programs where the code goes wrong; they mark the
      limits of the hypotheses of the other theorems.

    ** Recursion and bounds

    Recursion is structural where Rust's is.  The other loops have fuel, and a
    theorem that the fuel is enough: [Coercions.new] runs with [new_bound t1 t2],
    and [Coercions.new_total] shows that it never runs out; [Heap.mark_loop] runs
    [S (size of the memory)] rounds, because each round but the last marks a
    block ([Gc.mark_loop_ok]); [Rope.drain] counts the nodes of the rope, one of
    which leaves the stack in each round ([Rope.rope_refines_list]);
    [JsWalk.walk] uses the height of the program, and the visitors never
    grow what is still to be walked ([JsDesugarOk.desugar_total]);
    [TypeInf.walk_typ] uses the depth of the type plus that of the model's types
    ([TypeInfOk.typeinf_correct]).
    [Objects.get] follows a chain of prototypes for at most as many steps as
    there are blocks, which every chain that ends does ([ObjectsOk.chain_bound]).
    Printing a value follows at most [Values.nesting] pointers, which is one more than
    there are blocks ([ValuesOk.display_terminates]); [Values.abstract_eq] calls itself
    at most twice, once per boolean ([ValuesOk.abstract_eq_correct]).
    Integers: class tags and function indices are 16 bits and wrap
    ([ClassList.transition_wraps]), lengths in the data segment are 32 bits little endian,
    sizes of blocks are those of the 32-bit target, and the float
    allocator has 1000 slots ([Alloc.f64_alloc_branches]); the operators on
    [i32]s overflow as in the build ([ValuesOk.arithmetic_correct]), and lengths and
    indices of arrays and strings are converted between 32-bit types.

    ** Not modelled

    - Parsers and printers: [javascript/parser.rs] converts the tree of the swc
      parser, whose definition is not in the repository; [notwasm/parser.rs] is
      generated; [pretty.rs] files print for inspection.
    - The message texts of type errors, traces and names for debuggers.
    - In the runtime: the texts that are logged, logging itself
      ([util.rs]) and the casts of [i64_val.rs], which keep the bits of a value.
    - The command line and the encoding of modules in bytes. *)
From stdpp Require Export base decidable countable option list gmap strings fin_maps.
From Stdlib Require Export ZArith Lia.
From Stdlib Require Import SpecFloat.
#[global] Open Scope Z_scope.
#[export] Set Warnings "-register-all".

(** ** Computations that may fail or panic

    A Rust function that returns [Result<A, E>] and that may also panic
    ([panic!], [unwrap], [expect], a failed [assert!], an index out of range,
    [todo!], [unreachable!]) is modelled by a value of [comp E A].  A function
    that does not return a [Result] uses the empty error type. *)
Inductive comp (E A : Type) : Type :=
  | Ok (a : A)
  | Err (e : E)
  | Panic (msg : string).
Arguments Ok {E A} a.
Arguments Err {E A} e.
Arguments Panic {E A} msg.

Definition never : Type := Empty_set.
#[global] Instance never_eq_dec : EqDecision never.
Proof. intros []. Defined.

#[global] Instance comp_ret E : MRet (comp E) := λ A a, Ok a.
#[global] Instance comp_bind E : MBind (comp E) := λ A B f m,
  match m with Ok a => f a | Err e => Err e | Panic s => Panic s end.
#[global] Instance comp_fmap E : FMap (comp E) := λ A B f m,
  match m with Ok a => Ok (f a) | Err e => Err e | Panic s => Panic s end.

Definition is_ok {E A} (m : comp E A) : bool :=
  match m with Ok _ => true | _ => false end.

(** [o.expect(msg)] and [o.unwrap()]. *)
Definition expect {E A} (msg : string) (o : option A) : comp E A :=
  match o with Some a => Ok a | None => Panic msg end.
(** [o.ok_or(e)]. *)
Definition ok_or {E A} (e : E) (o : option A) : comp E A :=
  match o with Some a => Ok a | None => Err e end.
(** [assert!(b)]. *)
Definition assert {E} (msg : string) (b : bool) : comp E unit :=
  if b then Ok tt else Panic msg.

(** A [for] loop that threads a state through a fallible body. *)
Fixpoint foldM {E A S} (f : S → A → comp E S) (s : S) (l : list A) : comp E S :=
  match l with
  | [] => Ok s
  | x :: l => s' ← f s x; foldM f s' l
  end.

Section comp_lemmas.
Context {E A B : Type}.
Implicit Types (m : comp E A) (f : A → comp E B).

Lemma bind_Ok m f b : (m ≫= f) = Ok b ↔ ∃ a, m = Ok a ∧ f a = Ok b.
Proof.
  destruct m as [a|e|p]; cbn; split; [eauto | |done| |done|].
  - by intros (a' & [= ->] & ?).
  - by intros (a' & ? & ?).
  - by intros (a' & ? & ?).
Qed.
Lemma fmap_Ok m (f : A → B) b : (f <$> m) = Ok b ↔ ∃ a, m = Ok a ∧ b = f a.
Proof.
  destruct m as [a|e|p]; cbn; split.
  - intros [= <-]. eauto.
  - by intros (a' & [= ->] & ->).
  - done.
  - by intros (a' & ? & ?).
  - done.
  - by intros (a' & ? & ?).
Qed.
Lemma expect_Ok msg (o : option A) a : @expect E A msg o = Ok a ↔ o = Some a.
Proof. destruct o; cbn; naive_solver. Qed.
Lemma ok_or_Ok (e : E) (o : option A) a : ok_or e o = Ok a ↔ o = Some a.
Proof. destruct o; cbn; naive_solver. Qed.
Lemma assert_Ok msg b u : @assert E msg b = Ok u ↔ b = true.
Proof. destruct b, u; cbn; naive_solver. Qed.
End comp_lemmas.

Lemma foldM_app {E A S} (f : S → A → comp E S) s l1 l2 :
  foldM f s (l1 ++ l2) = (foldM f s l1 ≫= λ s', foldM f s' l2).
Proof. revert s. induction l1 as [|x l1 IH]; intros s; cbn; [done|]. destruct (f s x); cbn; auto. Qed.

Lemma foldM_inv {E A S} (P : S → Prop) (f : S → A → comp E S) l s s' :
  P s → (∀ s x s', x ∈ l → P s → f s x = Ok s' → P s') →
  foldM f s l = Ok s' → P s'.
Proof.
  revert s. induction l as [|x l IH]; intros s Hs Hf H; cbn in H; [by simplify_eq|].
  apply bind_Ok in H as (s1 & H1 & H2). eapply IH; [| |done].
  - eapply Hf; eauto. by left.
  - intros. eapply Hf; eauto. by right.
Qed.

Lemma mapM_Ok {E A B} (f : A → comp E B) l k :
  mapM f l = Ok k ↔ Forall2 (λ x y, f x = Ok y) l k.
Proof.
  split.
  - revert k. induction l as [|x l IH]; intros k H; cbn in H.
    + inversion H; subst; constructor.
    + apply bind_Ok in H as (y & Hy & H).
      apply bind_Ok in H as (k' & Hk & [= <-]). constructor; auto.
  - induction 1 as [|x y l k Hx _ IH]; cbn; [done|]. rewrite Hx. cbn. rewrite IH. done.
Qed.

Lemma mapM_Ok_elem {E A B} (f : A → comp E B) l k x :
  mapM f l = Ok k → x ∈ l → ∃ y, f x = Ok y ∧ y ∈ k.
Proof.
  rewrite mapM_Ok. induction 1 as [|a b l k Hab _ IH]; intros Hx; [by inversion Hx|].
  apply elem_of_cons in Hx as [->|Hx].
  - exists b. split; [done|by left].
  - destruct IH as (y & ? & ?); [done|]. exists y. split; [done|by right].
Qed.

Lemma mapM_total {E A B} (f : A → comp E B) l :
  Forall (λ x, ∃ y, f x = Ok y) l → ∃ k, mapM f l = Ok k.
Proof.
  induction 1 as [|x l [y Hy] _ [k Hk]]; cbn; [by eexists|].
  rewrite Hy. cbn. rewrite Hk. by eexists.
Qed.

Lemma mapM_ext' {E A B} (f g : A → comp E B) l :
  (∀ x, x ∈ l → f x = g x) → mapM f l = mapM g l.
Proof.
  induction l as [|x l IH]; intros H; cbn; [done|].
  rewrite H by (by left). rewrite IH; [done|]. intros; apply H; by right.
Qed.

Lemma Forall2_replicate_inv {A B} (P : A → B → Prop) n x k :
  Forall2 P (replicate n x) k → Forall (P x) k.
Proof. revert k. induction n; intros k H; inversion H; subst; constructor; auto. Qed.

Lemma Forall_Forall2_mp {A B} (P Q : A → B → Prop) l k :
  Forall (λ x, ∀ y, P x y → Q x y) l → Forall2 P l k → Forall2 Q l k.
Proof. intros Hl Hk. induction Hk; constructor; apply Forall_cons in Hl as [? ?]; auto. Qed.

Lemma filter_ext_in {A} (P Q : A → Prop) `{∀ x, Decision (P x), ∀ x, Decision (Q x)} (l : list A) :
  (∀ x, x ∈ l → P x ↔ Q x) → base.filter P l = base.filter Q l.
Proof.
  induction l as [|x l IH]; intros Hl; [done|].
  rewrite !filter_cons, IH by (intros y Hy; apply Hl; by right).
  pose proof (Hl x ltac:(by left)). by repeat case_decide; try tauto.
Qed.

(** [Forall] by recursion, for use in recursive definitions. *)
Fixpoint all {A} (P : A → Prop) (l : list A) : Prop :=
  match l with [] => True | x :: l => P x ∧ all P l end.
Lemma all_Forall {A} (P : A → Prop) l : all P l ↔ Forall P l.
Proof. induction l as [|x l IH]; cbn; [by split; [constructor|]|]. rewrite IH. by rewrite Forall_cons. Qed.
Lemma all_mono {A} (P Q : A → Prop) l : Forall (λ x, P x → Q x) l → all P l → all Q l.
Proof. induction 1; cbn; [done|]. intros [? ?]. auto. Qed.

(** The sum of a measure over a list. *)
Definition sum_over {A} (f : A → Z) (l : list A) : Z := foldr (λ x n, f x + n) 0 l.
Lemma sum_over_ext {A} (f g : A → Z) l : (∀ x, x ∈ l → f x = g x) → sum_over f l = sum_over g l.
Proof.
  induction l as [|x l IH]; intros Hl; [done|]. unfold sum_over in *. cbn.
  rewrite (Hl x) by (by left). rewrite IH; [done|]. intros; apply Hl; by right.
Qed.
Lemma sum_over_cons {A} (f : A → Z) x l : sum_over f (x :: l) = f x + sum_over f l.
Proof. done. Qed.

(** Invert every successful bind in the context. *)
Ltac comp_inv :=
  repeat match goal with
  | H : Ok _ = Ok _ |- _ => injection H as H; try subst
  | H : Err _ = Ok _ |- _ => discriminate H
  | H : Panic _ = Ok _ |- _ => discriminate H
  | H : mret _ = Ok _ |- _ => unfold mret, comp_ret in H
  | H : (_ ≫= _) = Ok _ |- _ =>
      apply bind_Ok in H; let a := fresh "a" in let Ha := fresh "Ha" in
      destruct H as (a & Ha & H); cbn beta in H
  | H : (_ <$> _) = Ok _ |- _ =>
      apply fmap_Ok in H; let a := fresh "a" in let Ha := fresh "Ha" in
      destruct H as (a & Ha & H)
  | H : expect _ _ = Ok _ |- _ => apply expect_Ok in H
  | H : ok_or _ _ = Ok _ |- _ => apply ok_or_Ok in H
  | H : assert _ _ = Ok _ |- _ => apply assert_Ok in H
  end.

(** ** Machine integers *)
Module Int.
(** Wrap-around of [i32], [u32], [u16] and [usize] (32-bit on Wasm). *)
Definition wrap_u (w z : Z) : Z := z mod 2 ^ w.
Definition wrap_s (w z : Z) : Z :=
  (z + 2 ^ (w - 1)) mod 2 ^ w - 2 ^ (w - 1).
Definition in_i32 (z : Z) : Prop := - 2 ^ 31 <= z < 2 ^ 31.
#[global] Instance in_i32_dec z : Decision (in_i32 z).
Proof. unfold in_i32. apply _. Defined.

Lemma wrap_s_range w z : 0 < w → - 2 ^ (w - 1) <= wrap_s w z < 2 ^ (w - 1).
Proof.
  intros Hw. unfold wrap_s.
  assert (2 ^ w = 2 * 2 ^ (w - 1)) as Heq.
  { rewrite <- Z.pow_succ_r by lia. f_equal. lia. }
  pose proof (Z.mod_pos_bound (z + 2 ^ (w - 1)) (2 ^ w) ltac:(apply Z.pow_pos_nonneg; lia)).
  lia.
Qed.
Lemma wrap_s_id z : in_i32 z → wrap_s 32 z = z.
Proof.
  unfold in_i32, wrap_s. intros H. change (32 - 1) with 31.
  rewrite Z.mod_small; [lia|]. change (2 ^ 32) with (2 * 2 ^ 31). lia.
Qed.
End Int.

(** ** [f64]: IEEE binary64 as in [SpecFloat], one NaN, no payload *)
Abbreviation f64 := spec_float.
#[global] Instance spec_float_eq_dec : EqDecision f64.
Proof. solve_decision. Defined.
