(* ===== verification/Types.v ===== *)
(** Identifiers and types shared by the stages of the compiler
    ([libjankscripten/src/shared/id.rs], [shared/types.rs], [pos.rs] and the
    types of [notwasm/syntax.rs]). *)
From S2P Require Import Prelude.

(** ** Source positions ([pos.rs])

    The file a span belongs to ([SourceMap], [PinnedLexer]) takes no part in
    the equality of positions; a span is a pair of offsets. *)
Inductive Pos : Type :=
  | SWC (lo hi : Z)
  | Grmtools (lo hi : Z)
  | Unknown.
#[global] Instance Pos_eq_dec : EqDecision Pos.
Proof. solve_decision. Defined.

(** ** Identifiers ([shared/id.rs]) *)
Inductive Id : Type :=
  | Named (s : string)
  | Generated (base_name : string) (index : nat)
  | Bogus (s : string).
#[global] Instance Id_eq_dec : EqDecision Id.
Proof. solve_decision. Defined.
#[global] Instance Id_countable : Countable Id.
Proof.
  refine (inj_countable'
    (λ x, match x with Named s => inl s | Generated b i => inr (inl (b, i)) | Bogus s => inr (inr s) end)
    (λ y, match y with inl s => Named s | inr (inl (b, i)) => Generated b i | inr (inr s) => Bogus s end) _).
  by intros [].
Defined.

(** [Id::into_name]. *)
Definition into_name {E} (x : Id) : comp E string :=
  match x with
  | Named s => Ok s
  | _ => Panic "into_name on Id::Generated"
  end.

(** ** The fresh name generator *)
Module NameGen.
(** [next_name] maps a base name to the index handed out last. *)
Abbreviation t := (gmap string nat).

Definition fresh (name : string) (g : t) : Id * t :=
  let i := match g !! name with Some i => S i | None => O end in
  (Generated name i, <[name := i]> g).

(** The identifiers a generator has handed out so far. *)
Definition issued (g : t) (x : Id) : Prop :=
  match x with
  | Generated b i => ∃ n, g !! b = Some n ∧ (i <= n)%nat
  | _ => False
  end.

(** Run a sequence of requests. *)
Fixpoint fresh_list (names : list string) (g : t) : list Id * t :=
  match names with
  | [] => ([], g)
  | n :: names =>
      let '(x, g1) := fresh n g in
      let '(xs, g2) := fresh_list names g1 in
      (x :: xs, g2)
  end.

Lemma fresh_not_issued name g : ¬ issued g (fresh name g).1.
Proof. cbn. destruct (g !! name) eqn:Hg; intros (n' & ? & ?); simplify_eq; lia. Qed.

Lemma fresh_issued name g x :
  issued (fresh name g).2 x ↔ issued g x ∨ x = (fresh name g).1.
Proof.
  destruct x as [s|b i|s]; cbn; [naive_solver| |naive_solver].
  rewrite lookup_insert. case_decide as Hb.
  - subst b. destruct (g !! name) as [m|] eqn:Hg; split.
    + intros (n & [= <-] & Hi). destruct (decide (i = S m)); [right; congruence|left].
      eexists. split; [done|lia].
    + intros [(n & [= <-] & Hi)|[= ->]]; eexists; (split; [done|lia]).
    + intros (n & [= <-] & Hi). right. f_equal. lia.
    + intros [(n & Hn & _)|[= ->]]; [done|]. eexists. split; [done|lia].
  - split; [naive_solver|]. intros [?|?]; [done|congruence].
Qed.

(** C: every identifier of a run of the generator is new: it was not handed
    out before and occurs once in the run. *)
Lemma fresh_list_new names g :
  NoDup (fresh_list names g).1 ∧ Forall (λ x, ¬ issued g x) (fresh_list names g).1.
Proof.
  revert g. induction names as [|n names IH]; intros g; [repeat constructor|].
  cbn [fresh_list]. destruct (fresh n g) as [x g1] eqn:Hf.
  specialize (IH g1). destruct (fresh_list names g1) as [xs g2]. cbn in *.
  destruct IH as [Hnd Hfa]. pose proof (fresh_issued n g) as Hi.
  pose proof (fresh_not_issued n g) as Hni. rewrite Hf in Hi, Hni. cbn in Hi, Hni.
  rewrite Forall_forall in Hfa. split.
  - constructor; [|done]. intros Hin. apply (Hfa _ Hin), Hi. auto.
  - constructor; [done|]. rewrite Forall_forall. intros y Hy Hiy.
    apply (Hfa _ Hy), Hi. auto.
Qed.
End NameGen.

(** ** Types of JankyScript ([shared/types.rs]) *)
Module J.
Inductive typ : Type :=
  | Missing
  | Any
  | Float
  | Int
  | Bool
  | Function (args : list typ) (ret : typ)
  | String
  | Array
  | DynObject
  | Ref (ty : typ)
  | Metavar (n : nat).

Section typ_ind'.
Variable P : typ → Prop.
Hypotheses (HMissing : P Missing) (HAny : P Any) (HFloat : P Float) (HInt : P Int)
  (HBool : P Bool)
  (HFunction : ∀ args ret, Forall P args → P ret → P (Function args ret))
  (HString : P String) (HArray : P Array) (HDynObject : P DynObject)
  (HRef : ∀ t, P t → P (Ref t)) (HMetavar : ∀ n, P (Metavar n)).
Fixpoint typ_ind' (t : typ) : P t :=
  match t with
  | Function args ret =>
      HFunction args ret
        ((fix go l := match l return Forall P l with
                      | [] => Forall_nil_2 P
                      | x :: l => Forall_cons_2 P x l (typ_ind' x) (go l)
                      end) args) (typ_ind' ret)
  | Ref t => HRef t (typ_ind' t)
  | Missing => HMissing | Any => HAny | Float => HFloat | Int => HInt | Bool => HBool
  | String => HString | Array => HArray | DynObject => HDynObject | Metavar n => HMetavar n
  end.
End typ_ind'.

#[global] Instance typ_eq_dec : EqDecision typ.
Proof.
  refine (fix go (x y : typ) {struct x} : Decision (x = y) :=
    match x, y with
    | Missing, Missing | Any, Any | Float, Float | Int, Int | Bool, Bool
    | String, String | Array, Array | DynObject, DynObject => left _
    | Function a1 r1, Function a2 r2 =>
        cast_if_and (@list_eq_dec typ go a1 a2) (go r1 r2)
    | Ref t1, Ref t2 => cast_if (go t1 t2)
    | Metavar n1, Metavar n2 => cast_if (decide (n1 = n2))
    | _, _ => right _
    end); try congruence.
Defined.

(** [Type::is_ground]: a function type is ground when it is
    [(any, ..., any) -> any]. *)
Definition is_Any (t : typ) : bool := match t with Any => true | _ => false end.
Definition is_ground (t : typ) : bool :=
  match t with
  | Function args result_type =>
      match result_type with
      | Any => forallb is_Any args
      | _ => false
      end
  | _ => true
  end.
Definition ground_function (n : nat) : typ := Function (replicate n Any) Any.

(** [Type::unwrap_fun]. *)
Definition unwrap_fun {E} (t : typ) : comp E (list typ * typ) :=
  match t with
  | Function args ret => Ok (args, ret)
  | _ => Panic "unwrap_fun expects a function"
  end.

(** [impl Display for Type]: the names printed for types. *)
Definition display (t : typ) : string :=
  match t with
  | Missing => "_"
  | Float => "i32"
  | Int => "f64"
  | String => "string"
  | Array => "array"
  | Bool => "bool"
  | DynObject => "DynObject"
  | Function _ _ => "fn"
  | Any => "any"
  | Ref _ => "ref"
  | Metavar _ => "metavar"
  end.

Lemma is_Any_true t : is_Any t = true ↔ t = Any.
Proof. destruct t; cbn; naive_solver. Qed.

Lemma is_ground_function args ret :
  is_ground (Function args ret) = true ↔ Function args ret = ground_function (length args).
Proof.
  unfold ground_function. cbn. destruct ret; try (split; intros; congruence).
  rewrite forallb_forall. split.
  - intros H. f_equal. induction args as [|a args IH]; cbn; [done|].
    f_equal; [apply is_Any_true, H; by left|apply IH; intros; apply H; by right].
  - intros [= Ha] x Hx. rewrite Ha in Hx. apply is_Any_true.
    apply list_elem_of_In, elem_of_replicate in Hx. naive_solver.
Qed.
Lemma ground_function_is_ground n : is_ground (ground_function n) = true.
Proof. apply is_ground_function. unfold ground_function. by rewrite length_replicate. Qed.
End J.

(** ** Types of NotWasm ([notwasm/syntax.rs])

    [FnType] is inlined in [Fn] and [Closure]. *)
Module N.
Inductive typ : Type :=
  | Any
  | I32
  | F64
  | Bool
  | String
  | Array
  | DynObject
  | Fn (args : list typ) (result : option typ)
  | HT
  | Closure (args : list typ) (result : option typ)
  | Ref (ty : typ)
  | Env
  | Ptr.

Record FnType := mkFnType { args : list typ; result : option typ }.

Definition to_type (f : FnType) : typ := Fn (args f) (result f).

#[global] Instance typ_eq_dec : EqDecision typ.
Proof.
  refine (fix go (x y : typ) {struct x} : Decision (x = y) :=
    match x, y with
    | Any, Any | I32, I32 | F64, F64 | Bool, Bool | String, String | Array, Array
    | DynObject, DynObject | HT, HT | Env, Env | Ptr, Ptr => left _
    | Fn a1 r1, Fn a2 r2 | Closure a1 r1, Closure a2 r2 =>
        cast_if_and (@list_eq_dec typ go a1 a2) (@option_eq_dec typ go r1 r2)
    | Ref t1, Ref t2 => cast_if (go t1 t2)
    | _, _ => right _
    end); try congruence.
Defined.
#[global] Instance FnType_eq_dec : EqDecision FnType.
Proof. solve_decision. Defined.

(** [Type::unwrap_fun]. *)
Definition unwrap_fun {E} (t : typ) : comp E (list typ * option typ) :=
  match t with
  | Fn args result => Ok (args, result)
  | _ => Panic "unwrap_fun: unexpected type"
  end.

(** [Type::is_gc_root]. *)
Definition is_gc_root (t : typ) : bool :=
  match t with
  | I32 | F64 | Bool | Fn _ _ => false
  | String | HT | Array | DynObject | Closure _ _ | Ref _ | Any | Env | Ptr => true
  end.

(** [impl Display for Type]. *)
Definition display (t : typ) : string :=
  match t with
  | I32 => "i32" | F64 => "f64" | String => "string" | HT => "ht" | Array => "array"
  | Ref _ => "ref" | Bool => "bool" | DynObject => "DynObject" | Fn _ _ => "fn"
  | Closure _ _ => "closure" | Any => "any" | Env => "env" | Ptr => "ptr"
  end.
End N.

(** ** From JankyScript types to NotWasm types ([Type::notwasm_typ]) *)
Fixpoint notwasm_typ {E} (t : J.typ) (allow_closure : bool) {struct t} : comp E N.typ :=
  match t with
  | J.Missing => Panic "received Type::Missing"
  | J.Any => Ok N.Any
  | J.Float => Ok N.F64
  | J.Int => Ok N.I32
  | J.Bool => Ok N.Bool
  | J.Function arg_typs ret_ty =>
      ret ← notwasm_typ ret_ty allow_closure;
      args ← mapM (λ t, notwasm_typ t allow_closure) arg_typs;
      Ok (if allow_closure then N.Closure (N.Env :: args) (Some ret)
          else N.Fn args (Some ret))
  | J.String => Ok N.String
  | J.Array => Ok N.Array
  | J.DynObject => Ok N.DynObject
  | J.Ref ty => ty ← notwasm_typ ty allow_closure; Ok (N.Ref ty)
  | J.Metavar _ => Panic "Metavar received"
  end.

(** A type is resolved when type inference left neither [Missing] nor a
    metavariable in it. *)
Fixpoint resolved (t : J.typ) : bool :=
  match t with
  | J.Missing | J.Metavar _ => false
  | J.Function args ret => forallb resolved args && resolved ret
  | J.Ref t => resolved t
  | _ => true
  end.

(** A NotWasm type is the image of at most one JankyScript type. *)
Fixpoint janky_of (t : N.typ) : option J.typ :=
  match t with
  | N.Any => Some J.Any
  | N.F64 => Some J.Float
  | N.I32 => Some J.Int
  | N.Bool => Some J.Bool
  | N.String => Some J.String
  | N.Array => Some J.Array
  | N.DynObject => Some J.DynObject
  | N.Ref t => J.Ref <$> janky_of t
  | N.Closure (N.Env :: args) (Some ret) =>
      ret ← janky_of ret; args ← mapM janky_of args; Some (J.Function args ret)
  | _ => None
  end.

Lemma mapM_option_Some {A B} (f : A → option B) l k :
  mapM f l = Some k ↔ Forall2 (λ x y, f x = Some y) l k.
Proof. apply mapM_Some. Qed.

(** Compiling a type panics exactly on unresolved types. *)
Lemma notwasm_typ_total {E} t c :
  (∃ n, @notwasm_typ E t c = Ok n) ↔ resolved t = true.
Proof.
  induction t as [| | | | |args ret IHargs IHret| | | |t IH|n] using J.typ_ind'; cbn;
    try (split; [by intros [? [=]]|done]); try (split; eauto; fail).
  - rewrite andb_true_iff, <- IHret. split.
    + intros [n H]. comp_inv. split; [|eauto].
      apply forallb_forall. intros x Hx%list_elem_of_In.
      rewrite Forall_forall in IHargs. apply IHargs; [done|].
      eapply mapM_Ok_elem in Ha0 as (y & ? & _); eauto.
    + intros [Hargs [r Hr]]. rewrite Hr. cbn.
      assert (∃ k, mapM (λ t, @notwasm_typ E t c) args = Ok k) as [k ->]; [|cbn; eauto].
      apply mapM_total. rewrite forallb_forall in Hargs. rewrite Forall_forall in *.
      intros x Hx. apply IHargs; [done|]. by apply Hargs, list_elem_of_In.
  - rewrite <- IH. split; [intros [? ?]; comp_inv; eauto|intros [? ->]; cbn; eauto].
Qed.

(** The closure-converting translation of types is injective: [janky_of]
    inverts it. *)
Lemma notwasm_typ_janky_of {E} t n :
  @notwasm_typ E t true = Ok n → janky_of n = Some t.
Proof.
  revert n. induction t as [| | | | |args ret IHargs IHret| | | |t IH|k] using J.typ_ind';
    intros n H; cbn in H; comp_inv; try done.
  - cbn. erewrite IHret by done. cbn. apply mapM_Ok in Ha0.
    assert (mapM janky_of a0 = Some args) as ->; [|done].
    apply mapM_Some. clear -IHargs Ha0.
    induction Ha0 as [|x y l k Hxy _ IH]; inversion IHargs; subst; constructor; auto.
  - cbn. by erewrite IH.
Qed.
