(* ===== verification/Coercions.v ===== *)
(** Coercions between JankyScript types ([libjankscripten/src/shared/coercions.rs]). *)
From S2P Require Import Prelude Types.

Inductive Coercion : Type :=
  | Tag (t : J.typ)
  | Untag (t : J.typ)
  | IntToFloat
  | FloatToInt
  | Fun (args : list Coercion) (ret : Coercion)
  | CId (t : J.typ)
  | Seq (c1 c2 : Coercion)
  | Meta (t1 t2 : J.typ).

Section Coercion_ind'.
Variable P : Coercion → Prop.
Hypotheses (HTag : ∀ t, P (Tag t)) (HUntag : ∀ t, P (Untag t))
  (HI : P IntToFloat) (HF : P FloatToInt)
  (HFun : ∀ args ret, Forall P args → P ret → P (Fun args ret))
  (HId : ∀ t, P (CId t)) (HSeq : ∀ c1 c2, P c1 → P c2 → P (Seq c1 c2))
  (HMeta : ∀ t1 t2, P (Meta t1 t2)).
Fixpoint Coercion_ind' (c : Coercion) : P c :=
  match c with
  | Fun args ret =>
      HFun args ret
        ((fix go l := match l return Forall P l with
                      | [] => Forall_nil_2 P
                      | x :: l => Forall_cons_2 P x l (Coercion_ind' x) (go l)
                      end) args) (Coercion_ind' ret)
  | Seq c1 c2 => HSeq c1 c2 (Coercion_ind' c1) (Coercion_ind' c2)
  | Tag t => HTag t | Untag t => HUntag t | IntToFloat => HI | FloatToInt => HF
  | CId t => HId t | Meta t1 t2 => HMeta t1 t2
  end.
End Coercion_ind'.

(** ** Smart constructors *)

(** [Coercion::meta]. *)
Definition meta (t1 t2 : J.typ) : Coercion :=
  if decide (t1 = t2) then CId t1 else Meta t1 t2.

(** [Coercion::seq]: removes identities and fuses two function coercions. *)
Fixpoint seq (c1 c2 : Coercion) {struct c1} : Coercion :=
  match c1, c2 with
  | c1, CId _ => c1
  | CId _, c2 => c2
  | Fun args2 ret2, Fun args1 ret1 =>
      (* [args1.zip(args2).map(|(a1, a2)| Coercion::seq(a1, a2))]: the recursion
         is on the coercions of [c1] and of [c2] alternately. *)
      Fun ((fix go l2 l1 := match l2, l1 with
                            | a2 :: l2, a1 :: l1 => seq_swap a2 a1 :: go l2 l1
                            | _, _ => []
                            end) args2 args1)
          (seq ret2 ret1)
  | c1, c2 => Seq c1 c2
  end
(** [seq_swap a2 a1 = Coercion::seq(a1, a2)], recursive in its first argument. *)
with seq_swap (a2 a1 : Coercion) {struct a2} : Coercion :=
  match a1, a2 with
  | c1, CId _ => c1
  | CId _, c2 => c2
  | Fun args2 ret2, Fun args1 ret1 =>
      Fun ((fix go l1 l2 := match l1, l2 with
                            | a1 :: l1, a2 :: l2 => seq a1 a2 :: go l1 l2
                            | _, _ => []
                            end) args1 args2)
          (seq_swap ret1 ret2)
  | c1, c2 => Seq c1 c2
  end.

(** [Coercion::fun]: a function coercion made of identities is the identity. *)
Definition id_type (c : Coercion) : option J.typ :=
  match c with CId t => Some t | _ => None end.
Definition fun_ (cargs : list Coercion) (cret : Coercion) : Coercion :=
  match cret, mapM id_type cargs with
  | CId ret, Some args => CId (J.Function args ret)
  | _, _ => Fun cargs cret
  end.

(** ** [Coercion::new]

    The recursion goes through [ground_function] and through [Any], so it is not
    structural: [new_fuel] has a bound on the depth of the recursion, and
    [new_bound] is a bound that is never reached ([new_fuel_enough]). *)
Definition zip_with_new {E} (new : J.typ → J.typ → comp E Coercion)
    (args1 args2 : list J.typ) : comp E (list Coercion) :=
  mapM (λ '(arg1, arg2), new arg2 arg1) (zip args1 args2).

(** The body of [new], the recursive calls being to [new]. *)
Definition new_body {E} (new : J.typ → J.typ → comp E Coercion) (t1 t2 : J.typ) :
    comp E Coercion :=
  if decide (t1 = t2) then Ok (CId t1)
  else
    match t1, t2 with
    | J.Any, J.Function args ret =>
        if J.is_ground t2 then Ok (Untag t2)
        else
          let gf := J.ground_function (length args) in
          c1 ← new J.Any gf;
          c2 ← new gf (J.Function args ret);
          Ok (seq c1 c2)
    | J.Any, t2 => Ok (Untag t2)
    | t1, J.Any =>
        if J.is_ground t1 then Ok (Tag t1) else Panic "non-ground to any"
    | J.Function args1 ret1, J.Function args2 ret2 =>
        if negb (length args1 =? length args2)%nat then Panic "Coercing between arities"
        else
          cargs ← zip_with_new new args1 args2;
          cret ← new ret1 ret2;
          Ok (fun_ cargs cret)
    | J.Int, J.Float => Ok IntToFloat
    | J.Float, J.Int => Ok FloatToInt
    | t1, t2 =>
        c1 ← new t1 J.Any;
        c2 ← new J.Any t2;
        Ok (seq c1 c2)
    end.

Fixpoint new_fuel {E} (fuel : nat) (t1 t2 : J.typ) : comp E Coercion :=
  match fuel with
  | O => Panic "stack overflow"
  | S fuel => new_body (new_fuel fuel) t1 t2
  end.

(** Nesting depth of a type. *)
Fixpoint depth (t : J.typ) : nat :=
  match t with
  | J.Function args ret => S (Nat.max (depth ret) (list_max (map depth args)))
  | _ => 1
  end.
Definition new_bound (t1 t2 : J.typ) : nat := 3 * Nat.max (depth t1) (depth t2).

Definition new {E} (t1 t2 : J.typ) : comp E Coercion := new_fuel (new_bound t1 t2) t1 t2.

(** ** The types of coercions, as the comments on [Coercion] give them

    A function coercion is contravariant in its arguments. *)
Inductive has_type : Coercion → J.typ → J.typ → Prop :=
  | ht_Tag t : has_type (Tag t) t J.Any
  | ht_Untag t : has_type (Untag t) J.Any t
  | ht_IntToFloat : has_type IntToFloat J.Int J.Float
  | ht_FloatToInt : has_type FloatToInt J.Float J.Int
  | ht_Fun cargs cret args args' ret ret' :
      Forall3 has_type cargs args args' → has_type cret ret ret' →
      has_type (Fun cargs cret) (J.Function args' ret) (J.Function args ret')
  | ht_Id t : has_type (CId t) t t
  | ht_Seq c1 c2 s u t :
      has_type c1 s u → has_type c2 u t → has_type (Seq c1 c2) s t
  | ht_Meta t1 t2 : has_type (Meta t1 t2) t1 t2.

(** The pairs of types between which [new] finds a coercion. *)
Inductive coercible : J.typ → J.typ → Prop :=
  | co_refl t : coercible t t
  | co_untag t : J.is_ground t = true → coercible J.Any t
  | co_tag t : J.is_ground t = true → coercible t J.Any
  | co_untag_fun args ret :
      J.is_ground (J.Function args ret) = false →
      Forall (λ a, coercible a J.Any) args → coercible J.Any ret →
      coercible J.Any (J.Function args ret)
  | co_fun args1 ret1 args2 ret2 :
      Forall2 (λ a1 a2, coercible a2 a1) args1 args2 → coercible ret1 ret2 →
      coercible (J.Function args1 ret1) (J.Function args2 ret2)
  | co_any t1 t2 :
      t1 ≠ J.Any → t2 ≠ J.Any →
      ¬ (∃ a1 r1 a2 r2, t1 = J.Function a1 r1 ∧ t2 = J.Function a2 r2) →
      coercible t1 J.Any → coercible J.Any t2 → coercible t1 t2.

(** ** Lemmas on the smart constructors *)

Lemma seq_swap_seq c1 : ∀ c2, seq_swap c2 c1 = seq c1 c2 ∧ seq_swap c1 c2 = seq c2 c1.
Proof.
  assert (∀ args1 args2,
    Forall (λ c1, ∀ c2, seq_swap c2 c1 = seq c1 c2 ∧ seq_swap c1 c2 = seq c2 c1) args2 →
    (fix go l1 l2 := match l1, l2 with
       | a1 :: l1, a2 :: l2 => seq a1 a2 :: go l1 l2 | _, _ => [] end) args1 args2
    = (fix go l2 l1 := match l2, l1 with
       | a2 :: l2, a1 :: l1 => seq_swap a2 a1 :: go l2 l1 | _, _ => [] end) args2 args1) as Hgo1.
  { intros args1 args2 H. revert args1.
    induction H as [|a2 l2 Ha _ IH]; intros [|a1 l1]; cbn; try done.
    f_equal; [by rewrite (proj2 (Ha a1))|apply IH]. }
  assert (∀ args1 args2,
    Forall (λ c1, ∀ c2, seq_swap c2 c1 = seq c1 c2 ∧ seq_swap c1 c2 = seq c2 c1) args1 →
    (fix go l1 l2 := match l1, l2 with
       | a1 :: l1, a2 :: l2 => seq a1 a2 :: go l1 l2 | _, _ => [] end) args1 args2
    = (fix go l2 l1 := match l2, l1 with
       | a2 :: l2, a1 :: l1 => seq_swap a2 a1 :: go l2 l1 | _, _ => [] end) args2 args1) as Hgo2.
  { intros args1 args2 H. revert args2.
    induction H as [|a1 l1 Ha _ IH]; intros [|a2 l2]; cbn; try done.
    f_equal; [by rewrite (proj1 (Ha a2))|apply IH]. }
  induction c1 as [| | | |args ret IHargs IHret| | |] using Coercion_ind'; intros c2;
    try (split; destruct c2; reflexivity).
  destruct c2 as [| | | |args2 ret2| | |]; try (split; reflexivity).
  destruct (IHret ret2) as [H1 H2]. split; cbn.
  - f_equal; [by apply Hgo1|done].
  - f_equal; [by apply Hgo2|done].
Qed.

(** The recursion of [seq] in the shape of the source. *)
Lemma seq_Fun args2 ret2 args1 ret1 :
  seq (Fun args2 ret2) (Fun args1 ret1) =
  Fun (zip_with seq args1 args2) (seq ret2 ret1).
Proof.
  cbn. f_equal. revert args1. induction args2 as [|a2 l2 IH]; intros [|a1 l1]; cbn; try done.
  f_equal; [apply seq_swap_seq|apply IH].
Qed.

Lemma Forall3_compose {A B} (P Q R : A → B → B → Prop) (f : A → A → A) l1 l2 k1 k2 k3 :
  (∀ a1 a2 b1 b2 b3, a1 ∈ l1 → a2 ∈ l2 → P a1 b1 b2 → Q a2 b2 b3 → R (f a1 a2) b1 b3) →
  Forall3 P l1 k1 k2 → Forall3 Q l2 k2 k3 → Forall3 R (zip_with f l1 l2) k1 k3.
Proof.
  intros Hf H. revert l2 k3 Hf.
  induction H as [|a1 b1 b2 l1 k1 k2 Hab _ IH]; intros l2 k3 Hf H2; inversion H2; subst; cbn; constructor.
  - eapply Hf; eauto; by left.
  - apply IH; [|done]. intros. eapply Hf; eauto; by right.
Qed.

Create HintDb coercions.
#[export] Hint Constructors has_type coercible : coercions.

Lemma seq_cases c1 c2 :
  (∃ t, c2 = CId t ∧ seq c1 c2 = c1) ∨ (∃ t, c1 = CId t ∧ seq c1 c2 = c2) ∨
  (∃ a2 r2 a1 r1, c1 = Fun a2 r2 ∧ c2 = Fun a1 r1) ∨ seq c1 c2 = Seq c1 c2.
Proof. destruct c1, c2; cbn; eauto 10. Qed.

Definition seq_ok (c1 c2 : Coercion) : Prop :=
  ∀ s u t, has_type c1 s u → has_type c2 u t → has_type (seq c1 c2) s t.

Lemma seq_ok_Fun args2 ret2 args1 ret1 :
  (∀ a1 a2, a1 ∈ args1 → a2 ∈ args2 → seq_ok a1 a2) → seq_ok ret2 ret1 →
  seq_ok (Fun args2 ret2) (Fun args1 ret1).
Proof.
  intros Hargs Hret s u t H1 H2. rewrite seq_Fun. inversion H1; inversion H2; simplify_eq.
  econstructor; [|eapply Hret; eauto].
  eapply Forall3_compose; [|eassumption..]. intros. by eapply Hargs.
Qed.

Lemma seq_ok_cases c1 c2 :
  (∀ a2 r2 a1 r1, c1 = Fun a2 r2 → c2 = Fun a1 r1 → seq_ok c1 c2) → seq_ok c1 c2.
Proof.
  intros Hf. destruct (seq_cases c1 c2) as [(w&->&Hs)|[(w&->&Hs)|[(?&?&?&?&?&?)|Hs]]]; [| |eauto|];
    intros s u t H1 H2; rewrite Hs.
  - by inversion H2; subst.
  - by inversion H1; subst.
  - by econstructor.
Qed.

Lemma seq_ok_all c : ∀ x, seq_ok c x ∧ seq_ok x c.
Proof.
  induction c as [| | | |args ret IHargs IHret| | |] using Coercion_ind'; intros x;
    split; apply seq_ok_cases; intros a2 r2 a1 r1 Hc1 Hc2; try discriminate; simplify_eq;
    rewrite Forall_forall in IHargs; apply seq_ok_Fun; try apply IHret;
    intros b1 b2 Hb1 Hb2; first [by apply (IHargs b2)|by apply (IHargs b1)].
Qed.

(** Sequencing through the smart constructor composes the types. *)
Lemma seq_typed c1 c2 s u t :
  has_type c1 s u → has_type c2 u t → has_type (seq c1 c2) s t.
Proof. by apply seq_ok_all. Qed.

Lemma Forall3_id cargs args args' ts :
  Forall3 has_type cargs args args' → mapM id_type cargs = Some ts → args = ts ∧ args' = ts.
Proof.
  rewrite mapM_Some. intros H. revert ts.
  induction H as [|c a a' cs l l' Hc _ IH]; intros ts Hts; inversion Hts as [|? t ? ts' Ht Hts']; subst; [done|].
  destruct c; try discriminate Ht. injection Ht as ->. inversion Hc; subst.
  by destruct (IH _ Hts') as [-> ->].
Qed.

Lemma fun_typed cargs cret args args' ret ret' :
  Forall3 has_type cargs args args' → has_type cret ret ret' →
  has_type (fun_ cargs cret) (J.Function args' ret) (J.Function args ret').
Proof.
  intros Ha Hr. unfold fun_.
  destruct cret; try (by econstructor). destruct (mapM id_type cargs) eqn:Hm; [|by econstructor].
  destruct (Forall3_id _ _ _ _ Ha Hm) as [-> ->]. inversion Hr; subst. constructor.
Qed.

#[export] Hint Resolve seq_typed fun_typed : coercions.

(** ** Correctness of [new] *)

Lemma zip_with_new_Ok {E} (f : J.typ → J.typ → comp E Coercion) args1 args2 cs :
  length args1 = length args2 →
  zip_with_new f args1 args2 = Ok cs ↔ Forall3 (λ c a1 a2, f a2 a1 = Ok c) cs args1 args2.
Proof.
  unfold zip_with_new. rewrite mapM_Ok. revert args2 cs.
  induction args1 as [|a1 args1 IH]; intros [|a2 args2] cs Hlen; try done; cbn.
  - split; inversion 1; constructor.
  - injection Hlen as Hlen. split; inversion 1; subst; constructor; try done; by apply IH.
Qed.

Lemma Forall3_flip_has_type cs a1 a2 :
  Forall3 (λ c a1 a2, has_type c a2 a1) cs a1 a2 → Forall3 has_type cs a2 a1.
Proof. induction 1; constructor; auto. Qed.

Lemma Forall3_impl' {A B C} (P Q : A → B → C → Prop) l k j :
  Forall3 P l k j → (∀ x y z, y ∈ k → z ∈ j → P x y z → Q x y z) → Forall3 Q l k j.
Proof.
  induction 1 as [|x y z l k j H _ IH]; intros Hi; constructor.
  - apply Hi; [by left..|done].
  - apply IH. intros; apply Hi; [by right..|done].
Qed.

Lemma Forall3_23 {A B C} (P : B → C → Prop) (l : list A) k j :
  Forall3 (λ _, P) l k j → Forall2 P k j.
Proof. induction 1; constructor; auto. Qed.

(** Case analysis on the pair of types that [new] is called with. *)
Ltac new_cases t1 t2 :=
  destruct (decide (t1 = t2)) as [->|Hne];
  [rewrite ?decide_True by done|rewrite ?decide_False by done; destruct t1, t2; try done].

(** A coercion built by [new t1 t2] has the type [t1 -> t2], with the
    contravariant rule for functions. *)
Lemma new_fuel_typed {E} n t1 t2 c : @new_fuel E n t1 t2 = Ok c → has_type c t1 t2.
Proof.
  revert t1 t2 c. induction n as [|n IH]; intros t1 t2 c H; [done|]. cbn [new_fuel] in H. unfold new_body in H.
  case_decide as Heq; [subst; comp_inv; constructor|].
  destruct t1, t2; try congruence; repeat case_match; comp_inv; subst;
    eauto with coercions.
  apply negb_false_iff, Nat.eqb_eq in H0. apply zip_with_new_Ok in Ha; [|done].
  apply fun_typed; [|eauto]. apply Forall3_flip_has_type.
  eapply Forall3_impl'; [done|]. cbn. eauto.
Qed.

Lemma coercible_ground_function args ret :
  J.is_ground (J.Function args ret) = false →
  coercible (J.ground_function (length args)) (J.Function args ret) →
  coercible J.Any (J.Function args ret).
Proof.
  intros Hg H. remember (J.ground_function (length args)) as gf eqn:Hgf.
  inversion H as [? Heq| | | |a1 r1 a2 r2 Ha Hr|? ? ? ? Hn]; subst gf; try discriminate.
  - pose proof (J.ground_function_is_ground (length args)). congruence.
  - match goal with Hq : J.Function _ _ = J.ground_function _ |- _ => injection Hq as -> -> end.
    apply co_untag_fun; [done| |done]. by apply Forall2_replicate_inv in Ha.
  - exfalso. apply Hn. unfold J.ground_function. naive_solver.
Qed.

Lemma new_fuel_coercible {E} n t1 t2 c : @new_fuel E n t1 t2 = Ok c → coercible t1 t2.
Proof.
  revert t1 t2 c. induction n as [|n IH]; intros t1 t2 c H; [done|]. cbn [new_fuel] in H. unfold new_body in H.
  case_decide as Heq; [subst; constructor|].
  destruct t1, t2; try congruence; repeat case_match; comp_inv; subst;
    try (by econstructor); try (by apply co_any; [..|eauto|eauto]; naive_solver).
  - apply coercible_ground_function; [done|]. eauto.
  - by apply co_any; [..|constructor|constructor]; naive_solver.
  - by apply co_any; [..|constructor|constructor]; naive_solver.
  - match goal with H : negb _ = false |- _ => apply negb_false_iff, Nat.eqb_eq in H end.
    apply zip_with_new_Ok in Ha; [|done]. constructor; [|eauto].
    eapply Forall3_23, Forall3_impl'; [done|]. cbn. eauto.
Qed.

(** *** The bound on the depth of the recursion is enough *)

(** The depth of recursion that [new_fuel n t1 t2] may need. *)
Definition need (t1 t2 : J.typ) : nat :=
  let m := (3 * Nat.max (depth t1) (depth t2))%nat in
  match t1, t2 with
  | _, J.Any => 1
  | J.Any, _ => if J.is_ground t2 then 1 else m - 1
  | J.Function _ _, J.Function _ _ => m - 2
  | _, _ => m
  end%nat.

Lemma depth_pos t : (1 <= depth t)%nat.
Proof. destruct t; cbn; lia. Qed.

Lemma need_bound t1 t2 : (1 <= need t1 t2 <= new_bound t1 t2)%nat.
Proof.
  unfold need, new_bound. pose proof (depth_pos t1). pose proof (depth_pos t2).
  destruct t1, t2; try destruct (J.is_ground _); cbn [depth] in *; lia.
Qed.

Lemma depth_args args ret a : a ∈ args → (depth a < depth (J.Function args ret))%nat.
Proof.
  intros Ha. cbn [depth]. pose proof (proj1 (list_max_le (map depth args) _) (Nat.le_refl _)) as Hm.
  rewrite List.Forall_forall in Hm. specialize (Hm (depth a)).
  rewrite in_map_iff in Hm. enough (depth a <= list_max (map depth args))%nat by lia.
  apply Hm. exists a. split; [done|]. by apply list_elem_of_In.
Qed.
Lemma depth_ret args ret : (depth ret < depth (J.Function args ret))%nat.
Proof. cbn [depth]. lia. Qed.
Lemma depth_ground_function n : (depth (J.ground_function n) <= 2)%nat.
Proof.
  unfold J.ground_function. cbn [depth].
  enough (list_max (map depth (replicate n J.Any)) <= 1)%nat by (cbn [depth]; lia).
  apply list_max_le. rewrite List.Forall_forall. intros d (a & <- & Ha)%in_map_iff.
  apply list_elem_of_In, elem_of_replicate in Ha as [-> _]. done.
Qed.

Lemma need_to_any t : need t J.Any = 1%nat.
Proof. by destruct t. Qed.
Lemma need_from_any t : (need J.Any t + 1 <= 3 * depth t)%nat.
Proof.
  unfold need. pose proof (depth_pos t).
  destruct t; try destruct (J.is_ground _); cbn [depth] in *; lia.
Qed.

Lemma need_small t1 t2 k :
  (depth t1 < k)%nat → (depth t2 < k)%nat → (need t1 t2 + 3 <= 3 * k)%nat.
Proof. pose proof (need_bound t1 t2). unfold new_bound in *. lia. Qed.

Lemma new_body_ext {E} (f g : J.typ → J.typ → comp E Coercion) n t1 t2 :
  (need t1 t2 <= S n)%nat →
  (∀ u1 u2, (need u1 u2 <= n)%nat → f u1 u2 = g u1 u2) →
  new_body f t1 t2 = new_body g t1 t2.
Proof.
  intros Hn Hfg. unfold new_body. case_decide as Heq; [done|].
  pose proof (depth_pos t1) as Hd1. pose proof (depth_pos t2) as Hd2.
  destruct t1, t2; try done;
    try (rewrite (Hfg _ J.Any) by (rewrite need_to_any; cbn [need] in Hn; lia);
         rewrite (Hfg J.Any)
           by (match goal with |- (need _ ?t <= _)%nat => pose proof (need_from_any t) end;
               cbn [need] in Hn; lia); done).
  - destruct (J.is_ground (J.Function args t2)) eqn:Hg; [done|].
    assert (need J.Any (J.ground_function (length args)) = 1%nat) as Hgf.
    { cbn -[J.is_ground J.ground_function]. by rewrite J.ground_function_is_ground. }
    pose proof (depth_ground_function (length args)).
    pose proof (depth_ret args t2). pose proof (depth_pos t2).
    assert (need J.Any (J.Function args t2) = 3 * depth (J.Function args t2) - 1)%nat as HF.
    { unfold need. rewrite Hg. cbn [depth]. lia. }
    rewrite (Hfg J.Any) by lia. rewrite (Hfg (J.ground_function _)); [done|].
    unfold need, J.ground_function in *. lia.
  - destruct (negb _); [done|]. cbn [need] in Hn.
    pose proof (depth_ret args t1). pose proof (depth_ret args0 t2).
    assert (zip_with_new f args args0 = zip_with_new g args args0) as ->.
    { unfold zip_with_new. apply mapM_ext'. intros [a1 a2] Hin. apply Hfg.
      pose proof (elem_of_zip_l _ _ _ _ Hin) as H1. apply elem_of_zip_r in Hin as H2.
      apply (depth_args _ t1) in H1. apply (depth_args _ t2) in H2.
      pose proof (need_small a2 a1 (Nat.max (depth (J.Function args t1)) (depth (J.Function args0 t2)))).
      lia. }
    rewrite (Hfg t1 t2); [done|].
    pose proof (need_small t1 t2 (Nat.max (depth (J.Function args t1)) (depth (J.Function args0 t2)))).
    lia.
Qed.

Lemma new_fuel_enough {E} n m t1 t2 :
  (need t1 t2 <= n)%nat → (n <= m)%nat → @new_fuel E m t1 t2 = new_fuel n t1 t2.
Proof.
  revert m t1 t2. induction n as [|n IH]; intros m t1 t2 Hn Hm.
  { pose proof (need_bound t1 t2). lia. }
  destruct m as [|m]; [lia|]. cbn [new_fuel]. apply (new_body_ext _ _ n); [lia|].
  intros u1 u2 Hu. apply IH; lia.
Qed.

(** The recursion equation of [Coercion::new], without the bound. *)
Lemma new_unfold {E} t1 t2 : @new E t1 t2 = new_body new t1 t2.
Proof.
  unfold new at 1. pose proof (need_bound t1 t2) as Hb.
  destruct (new_bound t1 t2) as [|n] eqn:Hn; [lia|]. cbn [new_fuel].
  apply (new_body_ext _ _ n); [lia|]. intros u1 u2 Hu. unfold new.
  pose proof (need_bound u1 u2).
  destruct (Nat.le_ge_cases n (new_bound u1 u2)) as [Hle|Hle].
  - symmetry. by apply new_fuel_enough.
  - rewrite (new_fuel_enough (need u1 u2) n), (new_fuel_enough (need u1 u2) (new_bound u1 u2)); lia || done.
Qed.

Section coercible_ind'.
Variable P : J.typ → J.typ → Prop.
Hypotheses (Hrefl : ∀ t, P t t)
  (Huntag : ∀ t, J.is_ground t = true → P J.Any t)
  (Htag : ∀ t, J.is_ground t = true → P t J.Any)
  (Huntag_fun : ∀ args ret, J.is_ground (J.Function args ret) = false →
     Forall (λ a, P a J.Any) args → P J.Any ret →
     P J.Any (J.Function args ret))
  (Hfun : ∀ args1 ret1 args2 ret2,
     Forall2 (λ a1 a2, P a2 a1) args1 args2 → P ret1 ret2 →
     P (J.Function args1 ret1) (J.Function args2 ret2))
  (Hany : ∀ t1 t2, t1 ≠ J.Any → t2 ≠ J.Any →
     ¬ (∃ a1 r1 a2 r2, t1 = J.Function a1 r1 ∧ t2 = J.Function a2 r2) →
     P t1 J.Any → P J.Any t2 → P t1 t2).
Fixpoint coercible_ind' t1 t2 (H : coercible t1 t2) : P t1 t2 :=
  match H with
  | co_refl t => Hrefl t
  | co_untag t Hg => Huntag t Hg
  | co_tag t Hg => Htag t Hg
  | co_untag_fun args ret Hg Ha Hr =>
      Huntag_fun args ret Hg
        ((fix go l (Hl : Forall (λ a, coercible a J.Any) l) :=
            match Hl in Forall _ l return Forall (λ a, P a J.Any) l with
            | List.Forall_nil _ => List.Forall_nil _
            | List.Forall_cons _ x l Hx Hl =>
                @List.Forall_cons _ _ x l (coercible_ind' _ _ Hx) (go _ Hl)
            end) args Ha) (coercible_ind' _ _ Hr)
  | co_fun args1 ret1 args2 ret2 Ha Hr =>
      Hfun args1 ret1 args2 ret2
        ((fix go l1 l2 (Hl : Forall2 (λ a1 a2, coercible a2 a1) l1 l2) :=
            match Hl in Forall2 _ l1 l2 return Forall2 (λ a1 a2, P a2 a1) l1 l2 with
            | List.Forall2_nil _ => List.Forall2_nil _
            | List.Forall2_cons _ _ Hx Hl =>
                List.Forall2_cons _ _ (coercible_ind' _ _ Hx) (go _ _ Hl)
            end) args1 args2 Ha) (coercible_ind' _ _ Hr)
  | co_any t1 t2 H1 H2 Hn Ha Hb =>
      Hany t1 t2 H1 H2 Hn (coercible_ind' _ _ Ha) (coercible_ind' _ _ Hb)
  end.
End coercible_ind'.

(** [new] finds a coercion between all the pairs of [coercible]. *)
Lemma new_refl {E} t : @new E t t = Ok (CId t).
Proof. rewrite new_unfold. unfold new_body. by rewrite decide_True. Qed.
Lemma new_untag {E} t : J.is_ground t = true → ∃ c, @new E J.Any t = Ok c.
Proof.
  intros Hg. rewrite new_unfold. unfold new_body. case_decide; [by eexists|].
  destruct t; try congruence; rewrite ?Hg; by eexists.
Qed.
Lemma new_tag {E} t : J.is_ground t = true → ∃ c, @new E t J.Any = Ok c.
Proof.
  intros Hg. rewrite new_unfold. unfold new_body. case_decide; [by eexists|].
  destruct t; try congruence; rewrite ?Hg; by eexists.
Qed.
Lemma new_fun {E} args1 ret1 args2 ret2 :
  Forall2 (λ a1 a2, ∃ c, @new E a2 a1 = Ok c) args1 args2 → (∃ c, @new E ret1 ret2 = Ok c) →
  ∃ c, @new E (J.Function args1 ret1) (J.Function args2 ret2) = Ok c.
Proof.
  intros Ha [c Hc]. rewrite new_unfold. unfold new_body. case_decide; [by eexists|].
  rewrite (Forall2_length _ _ _ Ha), Nat.eqb_refl. cbn [negb].
  destruct (mapM_total (λ '(arg1, arg2), @new E arg2 arg1) (zip args1 args2)) as [k Hk].
  - clear -Ha. induction Ha; cbn; constructor; auto.
  - unfold zip_with_new. rewrite Hk. unfold mbind, comp_bind. rewrite Hc. by eexists.
Qed.

Lemma coercible_new {E} t1 t2 : coercible t1 t2 → ∃ c, @new E t1 t2 = Ok c.
Proof.
  induction 1 as [t|t Hg|t Hg|args ret Hg Hargs Hr|args1 ret1 args2 ret2 Ha Hr
                 |t1 t2 H1 H2 Hn [c1 Hc1] [c2 Hc2]] using coercible_ind'.
  - eexists. apply new_refl.
  - by apply new_untag.
  - by apply new_tag.
  - rewrite new_unfold. unfold new_body. rewrite decide_False, Hg by done.
    destruct (@new_untag E (J.ground_function (length args))) as [c1 ->];
      [apply J.ground_function_is_ground|]. unfold mbind, comp_bind.
    destruct (@new_fun E (replicate (length args) J.Any) J.Any args ret) as [c2 Hc2];
      [|done|unfold J.ground_function; rewrite Hc2; by eexists].
    clear -Hargs. induction Hargs; cbn; constructor; auto.
  - by apply new_fun.
  - rewrite new_unfold. unfold new_body. case_decide; [by eexists|].
    destruct t1, t2; try congruence; unfold mbind, comp_bind; rewrite ?Hc1, ?Hc2; try by eexists.
    exfalso. apply Hn. eauto 10.
Qed.

(** ** Properties *)

(** C21: a coercion that [Coercion::new] builds between two types converts
    the first into the second: it has the type [t1 -> t2] that the comments
    on the constructors of [Coercion] give it, function coercions being
    contravariant in their arguments and the smart constructors [seq] and
    [fun] included. *)
Theorem new_typed t1 t2 c : @new never t1 t2 = Ok c → has_type c t1 t2.
Proof. apply new_fuel_typed. Qed.


Definition int_to_any : J.typ := J.Function [J.Int] J.Any.
Lemma new_typed_witness :
  has_type (Seq (Untag (J.ground_function 1)) (Fun [Tag J.Int] (CId J.Any))) J.Any int_to_any.
Proof. apply (new_typed J.Any int_to_any). vm_compute. reflexivity. Defined.

Example new_arity : @new never (J.Function [J.Int] J.Any) (J.Function [] J.Any)
  = Panic "Coercing between arities".
Proof. reflexivity. Qed.
Example new_non_ground : @new never int_to_any J.Any = Panic "non-ground to any".
Proof. reflexivity. Qed.
