(* ===== verification/Operators.v ===== *)
(** Operators, runtime functions and methods: [rts_function.rs],
    [jankyscript/operators.rs], [shared/methods.rs], [notwasm/rt_bindings.rs]
    and the operators of [notwasm/syntax.rs] and [javascript/syntax.rs]. *)
From stdpp Require Import pretty.
From S2P Require Import Prelude Types.

(** ** Primitive WebAssembly operators ([notwasm/syntax.rs]) *)
Inductive BinaryOp : Type :=
  | PtrEq | I32Eq | I32Ne | I32Add | I32Sub | I32Mul | I32Div | I32Rem | I32GT | I32LT
  | I32Ge | I32Le | I32And | I32Or | I32Xor | I32Shl | I32Shr | I32ShrU
  | F64Add | F64Sub | F64Mul | F64Div | F64Eq | F64Ne | F64LT | F64Le | F64GT | F64Ge.
#[global] Instance BinaryOp_eq_dec : EqDecision BinaryOp.
Proof. solve_decision. Defined.

Inductive UnaryOp : Type :=
  | Sqrt | F64Neg | I32Neg | I32Not | Eqz | Nop.
#[global] Instance UnaryOp_eq_dec : EqDecision UnaryOp.
Proof. solve_decision. Defined.

(** [BinaryOp::janky_typ] and [UnaryOp::janky_typ]: argument and result. *)
Definition binop_janky_typ (op : BinaryOp) : J.typ * J.typ :=
  match op with
  | PtrEq => (J.Any, J.Bool)
  | I32Eq | I32Ne | I32GT | I32LT | I32Ge | I32Le => (J.Int, J.Bool)
  | F64Eq | F64Ne | F64LT | F64GT | F64Ge | F64Le => (J.Float, J.Bool)
  | I32Add | I32Sub | I32Mul | I32Div | I32Rem | I32And | I32Or | I32Xor | I32Shl
  | I32Shr | I32ShrU => (J.Int, J.Int)
  | F64Add | F64Sub | F64Mul | F64Div => (J.Float, J.Float)
  end.
Definition unop_janky_typ (op : UnaryOp) : J.typ * J.typ :=
  match op with
  | Sqrt => (J.Float, J.Float)
  | F64Neg => (J.Float, J.Float)
  | I32Neg => (J.Int, J.Int)
  | I32Not => (J.Int, J.Int)
  | Eqz => (J.Bool, J.Bool)
  | Nop => (J.Int, J.Int)
  end.

(** [BinaryOp::notwasm_typ] and [UnaryOp::notwasm_typ]. *)
Definition binop_notwasm_typ {E} (op : BinaryOp) (allow_closure : bool) : comp E (N.typ * N.typ) :=
  let '(i, o) := binop_janky_typ op in
  i ← notwasm_typ i allow_closure; o ← notwasm_typ o allow_closure; Ok (i, o).
Definition unop_notwasm_typ {E} (op : UnaryOp) (allow_closure : bool) : comp E (N.typ * N.typ) :=
  let '(i, o) := unop_janky_typ op in
  i ← notwasm_typ i allow_closure; o ← notwasm_typ o allow_closure; Ok (i, o).

(** ** JavaScript operators ([javascript/syntax.rs], [jankyscript/syntax.rs]) *)
Module Js.
Inductive UnaryOp : Type := Minus | Plus | Not | Tilde | TypeOf | Void | Delete.
Inductive BinaryOp : Type :=
  | Equal | NotEqual | StrictEqual | StrictNotEqual | LessThan | GreaterThan
  | LessThanEqual | GreaterThanEqual | LeftShift | RightShift | UnsignedRightShift
  | BPlus | BMinus | Times | Over | Mod | Or | XOr | And | In | InstanceOf | PowerOf.
#[global] Instance UnaryOp_eq_dec : EqDecision UnaryOp.
Proof. solve_decision. Defined.
#[global] Instance BinaryOp_eq_dec : EqDecision BinaryOp.
Proof. solve_decision. Defined.
End Js.

Inductive JsOp : Type :=
  | JBinary (op : Js.BinaryOp)
  | JUnary (op : Js.UnaryOp).
#[global] Instance JsOp_eq_dec : EqDecision JsOp.
Proof. solve_decision. Defined.

(** ** Functions of the runtime system ([rts_function.rs]) *)
Module RTS.
Inductive RTSFunction : Type :=
  | Todo (name : string)
  | Method (name : string) (ty : J.typ)
  | Typeof | Delete | Void | Neg
  | Plus | Minus | Times | Over | Mod | ModF64
  | StrictEqual | Equal | StrictNotEqual | NotEqual | InstanceOf | In
  | BitwiseNot
  | Import (name : string).
#[global] Instance RTSFunction_eq_dec : EqDecision RTSFunction.
Proof. solve_decision. Defined.

Inductive RTSFunctionImpl : Type :=
  | Rust (name : string)
  | NotWasm (name : string).

(** [impl Display for RTSFunction], on methods. *)
Definition method_to_string {E} (name : string) (ty : J.typ) : comp E string :=
  match ty with
  | J.Function (a :: _) _ => Ok (J.display a +:+ "_" +:+ name)
  | J.Function [] _ => Panic "index out of bounds"
  | J.Missing => Ok ("?_" +:+ name)
  | J.Metavar i => Ok ("<" +:+ pretty i +:+ ">_" +:+ name)
  | _ => Panic "invalid method type"
  end%string.

Definition name {E} (f : RTSFunction) : comp E RTSFunctionImpl :=
  match f with
  | Todo _ => Panic "unimplemented operator"
  | Method n ty => s ← method_to_string n ty; Ok (Rust s)
  | Typeof => Ok (Rust "janky_typeof")
  | Delete => Ok (Rust "janky_delete")
  | Void => Ok (Rust "janky_void")
  | Neg => Ok (Rust "janky_neg")
  | Plus => Ok (NotWasm "jnks_plus")
  | Minus => Ok (Rust "janky_minus")
  | Times => Ok (Rust "janky_times")
  | Over => Ok (Rust "janky_over")
  | Mod => Ok (Rust "janky_mod")
  | ModF64 => Ok (Rust "janky_mod_f64")
  | StrictEqual => Ok (Rust "janky_strict_equal")
  | Equal => Ok (Rust "janky_equal")
  | StrictNotEqual => Ok (Rust "janky_strict_not_equal")
  | NotEqual => Ok (Rust "janky_not_equal")
  | InstanceOf => Ok (Rust "instance_of")
  | In => Ok (Rust "janky_in")
  | BitwiseNot => Ok (Rust "janky_not")
  | Import n => Ok (Rust n)
  end.

Definition janky_typ {E} (f : RTSFunction) : comp E J.typ :=
  match f with
  | Todo _ => Panic "unimplemented operator"
  | Method _ ty => Ok ty
  | Typeof => Ok (J.Function [J.Any] J.String)
  | Delete | InstanceOf => Ok (J.Function [J.Any; J.Any] J.Bool)
  | Void => Ok (J.Function [J.Any] J.Any)
  | Neg => Ok (J.Function [J.Any] J.Any)
  | Plus | Minus | Times | Mod => Ok (J.Function [J.Any; J.Any] J.Any)
  | Over => Ok (J.Function [J.Any; J.Any] J.Float)
  | ModF64 => Ok (J.Function [J.Float; J.Float] J.Float)
  | StrictEqual | Equal | StrictNotEqual | NotEqual | In =>
      Ok (J.Function [J.Any; J.Any] J.Bool)
  | BitwiseNot => Ok (J.Function [J.Int] J.Int)
  | Import _ => Panic "unimplemented function"
  end.

(** [RTSFunction::iter()], derived by [EnumIter]: every variant, with default
    fields. *)
Definition iter : list RTSFunction :=
  [Todo ""; Method "" J.Missing; Typeof; Delete; Void; Neg; Plus; Minus; Times; Over; Mod;
   ModF64; StrictEqual; Equal; StrictNotEqual; NotEqual; InstanceOf; In; BitwiseNot; Import ""].
End RTS.

(** ** Methods ([shared/methods.rs]) *)
Definition METHODS_TABLE : list ((string * nat) * list J.typ) :=
  [ (("slice", 3%nat), [J.Function [J.String; J.Int; J.Int] J.String;
                        J.Function [J.Array; J.Int; J.Int] J.Array]);
    (("concat", 2%nat), [J.Function [J.Array; J.Array] J.Array;
                         J.Function [J.String; J.String] J.String]);
    (("push", 2%nat), [J.Function [J.Array; J.Any] J.Int]) ].

Fixpoint assoc {K V} `{EqDecision K} (k : K) (l : list (K * V)) : option V :=
  match l with
  | [] => None
  | (k', v) :: l => if decide (k = k') then Some v else assoc k l
  end.

(** The first parameter of a method type is the receiver. *)
Definition receiver (t : J.typ) : option J.typ :=
  match t with J.Function (a :: _) _ => Some a | _ => None end.

Definition get_type_by_prefix {E} (method : string) (arity : nat) (prefix : J.typ) : comp E J.typ :=
  match prefix with
  | J.DynObject | J.Any => Ok (J.Function (replicate arity J.Any) J.Any)
  | _ =>
      tys ← expect "called unwrap on a None value" (assoc (method, arity) METHODS_TABLE);
      expect "called unwrap on a None value"
        (head (filter (λ t, receiver t = Some prefix) tys))
  end.

(** ** Overloading of JavaScript operators ([jankyscript/operators.rs]) *)
Inductive NotwasmOp : Type :=
  | BinOp (op : BinaryOp)
  | UnOp (op : UnaryOp)
  | RTSOp (f : RTS.RTSFunction)
  | OpMetavar (n : nat)
  | OpMissing.
#[global] Instance NotwasmOp_eq_dec : EqDecision NotwasmOp.
Proof. solve_decision. Defined.

Module Overloads.
Record Overload := mkOverload {
  overloads : list (J.typ * NotwasmOp);
  on_other_args : option (J.typ * NotwasmOp)
}.
Definition default : Overload := mkOverload [] None.

(** The [HashMap<JsOp, Overload>], as an association list. *)
Abbreviation OverloadTable := (list (JsOp * Overload)).

(** [self.table.entry(op).or_insert(default)] and an update of the entry. *)
Fixpoint with_entry (op : JsOp) (f : Overload → Overload) (table : OverloadTable) : OverloadTable :=
  match table with
  | [] => [(op, f default)]
  | (op', o) :: table =>
      if decide (op = op') then (op', f o) :: table else (op', o) :: with_entry op f table
  end.

Definition add (op : JsOp) (typ : J.typ) (notwasm : NotwasmOp) : OverloadTable → OverloadTable :=
  with_entry op (λ o, mkOverload (overloads o ++ [(typ, notwasm)]) (on_other_args o)).
Definition add_coercible (op : JsOp) (typ : J.typ) (notwasm : NotwasmOp) : OverloadTable → OverloadTable :=
  with_entry op (λ o, mkOverload (overloads o) (Some (typ, notwasm))).

(** [OverloadTable::overloads], [OverloadTable::coercible], [OverloadTable::all_ops]. *)
Definition overloads_of {E} (table : OverloadTable) (op : JsOp) : comp E (list (J.typ * NotwasmOp)) :=
  o ← expect "no overloads found" (assoc op table); Ok (overloads o).
Definition coercible_of {E} (table : OverloadTable) (op : JsOp) : comp E (option (J.typ * NotwasmOp)) :=
  o ← expect "called unwrap on a None value" (assoc op table); Ok (on_other_args o).
Definition entries (o : Overload) : list (J.typ * NotwasmOp) :=
  overloads o ++ match on_other_args o with Some e => [e] | None => [] end.
Definition all_ops (table : OverloadTable) : list NotwasmOp :=
  table ≫= λ '(_, o), map snd (entries o).

Definition ty1 (a r : J.typ) : J.typ := J.Function [a] r.
Definition ty2 (a b r : J.typ) : J.typ := J.Function [a; b] r.

Definition OVERLOADS : OverloadTable :=
  let run (fs : list (OverloadTable → OverloadTable)) := foldl (λ t f, f t) [] fs in
  let b := JBinary in let u := JUnary in
  run [
    add (b Js.BPlus) (ty2 J.Int J.Int J.Int) (BinOp I32Add);
    add (b Js.BPlus) (ty2 J.String J.String J.String)
      (RTSOp (RTS.Method "concat" (ty2 J.String J.String J.String)));
    add (b Js.BPlus) (ty2 J.Any J.Any J.Any) (RTSOp RTS.Plus);

    add (b Js.BMinus) (ty2 J.Float J.Float J.Float) (BinOp F64Sub);
    add (b Js.BMinus) (ty2 J.Int J.Int J.Int) (BinOp I32Sub);
    add (b Js.BMinus) (ty2 J.Any J.Any J.Any) (RTSOp RTS.Minus);

    add (b Js.Times) (ty2 J.Float J.Float J.Float) (BinOp F64Mul);
    add (b Js.Times) (ty2 J.Int J.Int J.Int) (BinOp I32Mul);
    add (b Js.Times) (ty2 J.Any J.Any J.Any) (RTSOp RTS.Times);
    add (b Js.Over) (ty2 J.Float J.Float J.Float) (BinOp F64Div);
    add (b Js.Over) (ty2 J.Any J.Any J.Float) (RTSOp RTS.Over);
    add (b Js.Mod) (ty2 J.Int J.Int J.Int) (BinOp I32Rem);
    add (b Js.Mod) (ty2 J.Float J.Float J.Float) (RTSOp RTS.ModF64);
    add (b Js.Mod) (ty2 J.Any J.Any J.Any) (RTSOp RTS.Mod);
    add (b Js.Equal) (ty2 J.Int J.Int J.Bool) (BinOp I32Eq);
    add (b Js.Equal) (ty2 J.Float J.Float J.Bool) (BinOp F64Eq);
    add (b Js.Equal) (ty2 J.Any J.Any J.Bool) (RTSOp RTS.Equal);
    add (b Js.NotEqual) (ty2 J.Int J.Int J.Bool) (BinOp I32Ne);
    add (b Js.NotEqual) (ty2 J.Float J.Float J.Bool) (BinOp F64Ne);
    add (b Js.NotEqual) (ty2 J.Any J.Any J.Bool) (RTSOp RTS.NotEqual);
    add (b Js.StrictEqual) (ty2 J.Int J.Int J.Bool) (BinOp I32Eq);
    add (b Js.StrictEqual) (ty2 J.Float J.Float J.Bool) (BinOp F64Eq);
    add (b Js.StrictEqual) (ty2 J.Any J.Any J.Bool) (RTSOp RTS.StrictEqual);
    add (b Js.StrictNotEqual) (ty2 J.Int J.Int J.Bool) (BinOp I32Ne);
    add (b Js.StrictNotEqual) (ty2 J.Float J.Float J.Bool) (BinOp F64Ne);
    add (b Js.StrictNotEqual) (ty2 J.Any J.Any J.Bool) (RTSOp RTS.StrictNotEqual);
    add (b Js.LessThan) (ty2 J.Int J.Int J.Bool) (BinOp I32LT);
    add_coercible (b Js.LessThan) (ty2 J.Float J.Float J.Bool) (BinOp F64LT);
    add (b Js.LessThanEqual) (ty2 J.Int J.Int J.Bool) (BinOp I32Le);
    add_coercible (b Js.LessThanEqual) (ty2 J.Float J.Float J.Bool) (BinOp F64Le);
    add (b Js.GreaterThan) (ty2 J.Int J.Int J.Bool) (BinOp I32GT);
    add_coercible (b Js.GreaterThan) (ty2 J.Float J.Float J.Bool) (BinOp F64GT);
    add (b Js.GreaterThanEqual) (ty2 J.Int J.Int J.Bool) (BinOp I32Ge);
    add_coercible (b Js.GreaterThanEqual) (ty2 J.Float J.Float J.Bool) (BinOp F64Ge);
    add_coercible (b Js.LeftShift) (ty2 J.Int J.Int J.Int) (BinOp I32Shl);
    add_coercible (b Js.RightShift) (ty2 J.Int J.Int J.Int) (BinOp I32Shr);
    add_coercible (b Js.UnsignedRightShift) (ty2 J.Int J.Int J.Int) (BinOp I32ShrU);
    add_coercible (b Js.Or) (ty2 J.Int J.Int J.Int) (BinOp I32Or);
    add_coercible (b Js.And) (ty2 J.Int J.Int J.Int) (BinOp I32And);
    add_coercible (b Js.XOr) (ty2 J.Int J.Int J.Int) (BinOp I32Xor);
    add_coercible (b Js.InstanceOf) (ty2 J.Any J.Any J.Bool) (RTSOp RTS.InstanceOf);
    add_coercible (b Js.In) (ty2 J.Any J.Any J.Bool) (RTSOp RTS.In);

    add (u Js.Plus) (ty1 J.Int J.Int) (UnOp Nop);
    add_coercible (u Js.Plus) (ty1 J.Float J.Float) (UnOp Nop);
    add (u Js.Minus) (ty1 J.Int J.Int) (UnOp I32Neg);
    add (u Js.Minus) (ty1 J.Float J.Float) (UnOp F64Neg);
    add (u Js.Minus) (ty1 J.Any J.Any) (RTSOp RTS.Neg);
    add (u Js.TypeOf) (ty1 J.Any J.String) (RTSOp RTS.Typeof);
    add (u Js.Void) (ty1 J.Any J.Any) (RTSOp RTS.Void);
    add (u Js.Delete) (ty1 J.Any J.Any) (RTSOp RTS.Delete);

    add_coercible (u Js.Not) (ty1 J.Bool J.Bool) (UnOp Eqz);
    add_coercible (u Js.Tilde) (ty1 J.Int J.Int) (UnOp I32Not) ].
End Overloads.

(** The signature of an operator, as [janky_typ] of its kind gives it. *)
Definition op_signature (op : NotwasmOp) : option J.typ :=
  match op with
  | BinOp op => let '(i, o) := binop_janky_typ op in Some (J.Function [i; i] o)
  | UnOp op => let '(i, o) := unop_janky_typ op in Some (J.Function [i] o)
  | RTSOp f => match @RTS.janky_typ never f with Ok t => Some t | _ => None end
  | OpMetavar _ | OpMissing => None
  end.

(** The entries of the table whose type is not the signature of the operator. *)
Definition mismatches (table : Overloads.OverloadTable) : list (JsOp * (J.typ * NotwasmOp)) :=
  table ≫= λ '(op, o),
    map (pair op) (filter (λ e : J.typ * NotwasmOp, op_signature e.2 ≠ Some e.1) (Overloads.entries o)).

(** Every overload of a JavaScript operator has the type of the NotWasm
    operator it selects, except two: unary plus on floats selects
    [Nop], whose type is [int -> int], and [delete] on one argument
    selects [janky_delete], which takes two and returns a boolean. *)
Theorem overloads_mismatches :
  mismatches Overloads.OVERLOADS =
  [ (JUnary Js.Plus, (J.Function [J.Float] J.Float, UnOp Nop));
    (JUnary Js.Delete, (J.Function [J.Any] J.Any, RTSOp RTS.Delete)) ].
Proof. vm_compute. reflexivity. Qed.

(** ** The runtime functions known to NotWasm ([notwasm/rt_bindings.rs]) *)
Module RtBindings.
Abbreviation BindMap := (gmap string N.typ).

(** [assert!(map.insert(k, t).is_none())]. *)
Definition insert_new {E} (m : BindMap) (k : string) (t : N.typ) : comp E BindMap :=
  match m !! k with None => Ok (<[k := t]> m) | Some _ => Panic "assertion failed" end.

Definition insert_mono {E} (m : BindMap) (name : string) (params_tys : list (N.typ → N.typ))
    (ret_ty : N.typ → N.typ) (provided_tys : list N.typ) : comp E BindMap :=
  foldM (λ m replace_ty,
    insert_new m (name +:+ "_" +:+ N.display replace_ty)%string
      (N.Fn (map (λ f, f replace_ty) params_tys) (Some (ret_ty replace_ty)))) m provided_tys.

Definition insert_rts_fn {E} (m : BindMap) (rts : RTS.RTSFunction) : comp E BindMap :=
  n ← RTS.name rts;
  match n with
  | RTS.Rust name => t ← RTS.janky_typ rts; t ← notwasm_typ t false; insert_new m name t
  | RTS.NotWasm _ => Ok m
  end.

Definition get_rt_bindings {E} : comp E BindMap :=
  let mono t := t in
  let a_fn := N.Fn [] None in
  let a_clos := N.Closure [] None in
  m ← insert_mono ∅ "any_from" [mono] (λ _, N.Any) [N.I32; N.Bool; a_clos; a_fn];
  m ← insert_mono m "any_to" [λ _, N.Any] mono [N.I32; N.Bool; a_clos];
  m ← foldM (λ m rts,
        match rts with
        | RTS.Todo _ | RTS.Import _ | RTS.Method _ _ => Ok m
        | _ => insert_rts_fn m rts
        end) m RTS.iter;
  foldM (λ m '((name, _), typs),
    foldM (λ m typ, insert_rts_fn m (RTS.Method name typ)) m typs) m METHODS_TABLE.

Definition bindings : BindMap :=
  match get_rt_bindings with @Ok _ _ m => m | @Err _ _ e => match (e : never) with end | Panic _ => ∅ end.

(** *** Every binding is a function with a result *)
Definition is_function (t : N.typ) : Prop := ∃ args result, t = N.Fn args (Some result).
Definition functions (m : BindMap) : Prop := map_Forall (λ _, is_function) m.

Lemma insert_new_functions {E} m k t m' :
  functions m → is_function t → @insert_new E m k t = Ok m' → functions m'.
Proof. unfold insert_new. case_match; intros Hm Ht [= <-]. by apply map_Forall_insert_2. Qed.

Lemma insert_mono_functions {E} m n ps r tys m' :
  functions m → @insert_mono E m n ps r tys = Ok m' → functions m'.
Proof.
  intros Hm. apply foldM_inv; [done|]. intros m1 t m2 _ H1. apply insert_new_functions; [done|].
  by do 2 eexists.
Qed.

Lemma insert_rts_fn_functions {E} m f m' :
  (∀ n t, f = RTS.Method n t → ∃ a r, t = J.Function a r) →
  functions m → @insert_rts_fn E m f = Ok m' → functions m'.
Proof.
  intros Hf Hm H. unfold insert_rts_fn in H. comp_inv. destruct a; comp_inv; subst; [|done].
  eapply insert_new_functions; [done| |done].
  assert (∃ args r, a = J.Function args r) as (args & r & ->).
  { destruct f; cbn in *; comp_inv; eauto; naive_solver. }
  cbn in Ha1. comp_inv. subst. by do 2 eexists.
Qed.

Lemma get_rt_bindings_functions {E} m : @get_rt_bindings E = Ok m → functions m.
Proof.
  unfold get_rt_bindings. intros H. comp_inv. revert H.
  apply insert_mono_functions in Ha; [|apply map_Forall_empty].
  apply insert_mono_functions in Ha0; [|done].
  apply foldM_inv.
  - revert Ha1. apply foldM_inv; [done|]. intros m1 f m2 _ H1 H2.
    destruct f; comp_inv; subst; try done; eapply insert_rts_fn_functions; eauto; discriminate.
  - intros m1 [[n k] typs] m2 Hin H1. apply foldM_inv; [done|].
    intros m3 t m4 Ht H3. apply insert_rts_fn_functions; [|done].
    intros ? ? [= <- <-]. clear -Hin Ht.
    repeat first [apply elem_of_cons in Hin as [[= -> -> ->]|Hin] | by apply elem_of_nil in Hin];
      repeat first [apply elem_of_cons in Ht as [->|Ht] | by apply elem_of_nil in Ht]; eauto.
Qed.
End RtBindings.

(** Building the table of runtime functions trips none of its
    assertions, and every entry is a function type with a result, so that
    the panics of [unwrap_fun] in the type checker, of [expect] on the
    result of a primitive and of [translate_parity] on non-function
    bindings cannot occur on these entries. *)
Theorem rt_bindings_functions :
  RtBindings.get_rt_bindings = @Ok never _ RtBindings.bindings ∧
  map_Forall (λ _ t, ∃ args result, t = N.Fn args (Some result)) RtBindings.bindings.
Proof.
  assert (is_ok (@RtBindings.get_rt_bindings never) = true) as H by (vm_compute; reflexivity).
  unfold RtBindings.bindings.
  destruct RtBindings.get_rt_bindings as [m|[]|] eqn:Hm; [|done].
  split; [done|]. by apply RtBindings.get_rt_bindings_functions in Hm.
Qed.
