(* ===== verification/ClassList.v ===== *)
(** Hidden classes ([runtime/src/allocator/class_list.rs]). *)
From S2P Require Import Prelude.

(** Names are compared with [StringPtr]'s [==], which looks at the characters;
    [name] maps a pointer to what is compared. *)
Section class_list.
Context {K V : Type} `{EqDecision V} (name : K → V).

Definition name_eq (x y : K) : bool := bool_decide (name x = name y).

Record Class := mkClass {
  size : Z;
  offsets : list (K * Z);
  transitions : list (K * Z)
}.
(** [Class::new]. *)
Definition new_class : Class := mkClass 0 [] [].

Abbreviation ClassList := (list Class).
(** [ClassList::new]: the class of the empty object. *)
Definition new_class_list : ClassList := [new_class].

Definition as_u16 (z : Z) : Z := Int.wrap_u 16 z.

Definition new_class_type (l : ClassList) (class : Class) : Z * ClassList :=
  (as_u16 (Z.of_nat (length l)), l ++ [class]).

Definition get_class {E} (l : ClassList) (class_tag : Z) : comp E Class :=
  expect "called unwrap on a None value" (l !! Z.to_nat class_tag).
Definition get_class_size {E} (l : ClassList) (class_tag : Z) : comp E Z :=
  c ← get_class l class_tag; Ok (size c).

Fixpoint find (x : K) (l : list (K * Z)) : option Z :=
  match l with
  | [] => None
  | (y, i) :: l => if name_eq y x then Some i else find x l
  end.

(** [Class::lookup]: the cache holds an offset, or -1. *)
Definition lookup (c : Class) (x : K) (cache : Z) : option Z * Z :=
  if negb (cache =? -1) then (Some cache, cache)
  else match find x (offsets c) with
       | Some i => (Some i, i)
       | None => (None, cache)
       end.
Definition keys (c : Class) : list K := map fst (offsets c).
Definition lookup_transition (c : Class) (x : K) : option Z := find x (transitions c).

(** [Class::branch]: the updated class and the new one. *)
Definition branch (c : Class) (x : K) (new_tag : Z) : Class * Class :=
  (mkClass (size c) (offsets c) (transitions c ++ [(x, new_tag)]),
   mkClass (size c + 1) (offsets c ++ [(x, size c)]) []).

Definition transition {E} (l : ClassList) (class_tag : Z) (x : K) : comp E (Z * ClassList) :=
  let new_tag := as_u16 (Z.of_nat (length l)) in
  class ← expect "index out of bounds" (l !! Z.to_nat class_tag);
  match lookup_transition class x with
  | Some tag => Ok (tag, l)
  | None =>
      let '(class', new_class) := branch class x new_tag in
      Ok (new_class_type (<[Z.to_nat class_tag := class']> l) new_class)
  end.

(** ** The invariant of the class list *)

(** [l] maps distinct names to [0, 1, 2, ...] in order. *)
Definition offsets_ok (c : Class) : Prop :=
  size c = Z.of_nat (length (offsets c)) ∧
  map snd (offsets c) = seqZ 0 (Z.of_nat (length (offsets c))) ∧
  NoDup (map name (keys c)).

Definition transition_ok (l : ClassList) (c : Class) (e : K * Z) : Prop :=
  ∃ c', 0 <= e.2 < 2 ^ 16 ∧ l !! Z.to_nat e.2 = Some c' ∧
        size c' = size c + 1 ∧ offsets c' = offsets c ++ [(e.1, size c)].

Definition class_ok (l : ClassList) (c : Class) : Prop :=
  offsets_ok c ∧ Forall (transition_ok l c) (transitions c) ∧
  NoDup (map name (map fst (transitions c))).

Definition wf (l : ClassList) : Prop :=
  (∃ c, l !! O = Some c ∧ size c = 0) ∧ (Z.of_nat (length l) <= 2 ^ 16) ∧ Forall (class_ok l) l.

(** [l'] has all the classes of [l], with the same layout. *)
Definition extends (l l' : ClassList) : Prop :=
  ∀ i c, l !! i = Some c → ∃ c', l' !! i = Some c' ∧ size c' = size c ∧ offsets c' = offsets c.

Lemma extends_refl l : extends l l.
Proof. intros i c H. eauto. Qed.
Lemma extends_trans l1 l2 l3 : extends l1 l2 → extends l2 l3 → extends l1 l3.
Proof.
  intros H1 H2 i c (c2 & Hc2 & Hs & Ho)%H1. apply H2 in Hc2 as (c3 & ? & ? & ?).
  exists c3. split; [done|]. split; congruence.
Qed.

(** ** Lemmas *)

Lemma name_eq_true x y : name_eq x y = true ↔ name x = name y.
Proof. unfold name_eq. by rewrite bool_decide_eq_true. Qed.

Lemma find_None x l : find x l = None ↔ name x ∉ map name (map fst l).
Proof.
  induction l as [|[y i] l IH]; cbn; [split; [intros _ H; by inversion H|done]|].
  rewrite not_elem_of_cons. unfold name_eq. case_bool_decide as Hn.
  - split; [done|]. intros []. congruence.
  - rewrite IH. split; [|naive_solver]. intros ?. split; [congruence|done].
Qed.

Lemma find_Some_elem x l i : find x l = Some i → ∃ y, name y = name x ∧ (y, i) ∈ l.
Proof.
  induction l as [|[y j] l IH]; cbn; [done|]. unfold name_eq. case_bool_decide as Hn.
  - intros [= <-]. exists y. split; [done|by left].
  - intros (z & ? & ?)%IH. exists z. split; [done|by right].
Qed.

Lemma find_app x l1 l2 :
  find x (l1 ++ l2) = match find x l1 with Some i => Some i | None => find x l2 end.
Proof. induction l1 as [|[y j] l1 IH]; cbn; [done|]. by destruct (name_eq y x). Qed.

Lemma find_elem x y i l : NoDup (map name (map fst l)) → (y, i) ∈ l → name y = name x → find x l = Some i.
Proof.
  induction l as [|[z j] l IH]; cbn; [intros _ H; by inversion H|].
  intros [Hz Hnd]%NoDup_cons [[= -> ->]|Hin]%elem_of_cons Hn; unfold name_eq.
  - by rewrite bool_decide_true.
  - case_bool_decide as Hzx; [|by apply IH]. exfalso. apply Hz. rewrite Hzx, <- Hn.
    apply list_elem_of_fmap. exists y. split; [done|]. apply list_elem_of_fmap. by exists (y, i).
Qed.

Lemma find_offset_bound c x i : offsets_ok c → find x (offsets c) = Some i → 0 <= i < size c.
Proof.
  intros (Hs & Hseq & _) (y & _ & Hin)%find_Some_elem. rewrite Hs.
  assert (i ∈ map snd (offsets c)) as Hi by (apply list_elem_of_fmap; by exists (y, i)).
  rewrite Hseq in Hi. apply elem_of_seqZ in Hi. lia.
Qed.

Lemma as_u16_small n : (Z.of_nat n < 2 ^ 16) → as_u16 (Z.of_nat n) = Z.of_nat n.
Proof. intros H. unfold as_u16, Int.wrap_u. apply Z.mod_small. lia. Qed.

Lemma extends_insert_branch l i c x t n :
  l !! i = Some c → extends l (<[i := (branch c x t).1]> l ++ [n]).
Proof.
  intros Hc j cj Hj. rewrite lookup_app_l by (rewrite length_insert; by eapply lookup_lt_Some).
  destruct (decide (i = j)) as [->|Hij].
  - rewrite list_lookup_insert_eq by (by eapply lookup_lt_Some). simplify_eq. by eexists.
  - rewrite list_lookup_insert_ne by done. by eexists.
Qed.

Lemma transition_ok_extends l l' c c' e :
  extends l l' → size c' = size c → offsets c' = offsets c →
  transition_ok l c e → transition_ok l' c' e.
Proof.
  intros Hl Hs Ho (d & He & Hd & Hsd & Hod). apply Hl in Hd as (d' & ? & ? & ?).
  exists d'. repeat split; try lia; try done; congruence.
Qed.

Lemma class_ok_extends l l' c : extends l l' → class_ok l c → class_ok l' c.
Proof.
  intros Hl (Ho & Ht & Hn). split; [done|]. split; [|done].
  eapply Forall_impl; [done|]. intros e. by eapply transition_ok_extends.
Qed.

Lemma offsets_ok_snoc c x :
  offsets_ok c → name x ∉ map name (keys c) → offsets_ok (branch c x 0).2.
Proof.
  intros (Hs & Hseq & Hnd) Hx. unfold offsets_ok, keys in *. cbn.
  rewrite length_app, !map_app, Hseq. cbn. split; [lia|]. split.
  - rewrite Hs, Nat.add_1_r, seqZ_S. done.
  - apply NoDup_app. split; [done|]. split; [|apply NoDup_singleton].
    intros n Hn ->%list_elem_of_singleton. done.
Qed.

Lemma wf_branch l i c x :
  wf l → l !! i = Some c → name x ∉ map name (keys c) →
  find x (transitions c) = None → Z.of_nat (length l) < 2 ^ 16 →
  let t := Z.of_nat (length l) in
  wf (<[i := (branch c x t).1]> l ++ [(branch c x t).2]).
Proof.
  intros ((c0 & Hc0 & Hs0) & Hlen & Hall) Hi Hx Hf Hlt t.
  pose proof (extends_insert_branch l i c x t (branch c x t).2 Hi) as Hext.
  set (l' := <[i := _]> l ++ _) in *.
  assert (l' !! length l = Some (branch c x t).2) as Hnew.
  { unfold l'. rewrite lookup_app_r by (rewrite length_insert; lia).
    by rewrite length_insert, Nat.sub_diag. }
  rewrite Forall_lookup in Hall. pose proof (Hall _ _ Hi) as (Ho & Ht & Hnt).
  split; [|split].
  - apply Hext in Hc0 as (c0' & ? & Hs0' & _). exists c0'. split; [done|]. congruence.
  - unfold l'. rewrite length_app, length_insert. cbn. lia.
  - unfold l'. apply Forall_app. split; [apply Forall_insert|].
    + apply Forall_lookup. intros j cj Hj. eapply class_ok_extends; [done|]. by eapply Hall.
    + split; [done|]. cbn. split.
      * apply Forall_app. split.
        { eapply Forall_impl; [exact Ht|]. intros e. by eapply transition_ok_extends. }
        constructor; [|done]. exists (branch c x t).2. cbn. fold l'.
        unfold t. rewrite Nat2Z.id. repeat split; try lia. done.
      * rewrite !map_app. apply NoDup_app. split; [done|]. split; [|apply NoDup_singleton].
        intros n Hn ->%list_elem_of_singleton. by apply find_None in Hf.
    + constructor; [|done]. split; [by apply offsets_ok_snoc|]. cbn. split; constructor.
Qed.

(** A transition of a class by a new name, in all its effects. *)
Lemma transition_lemma {E} l tag c x :
  wf l → l !! Z.to_nat tag = Some c → name x ∉ map name (keys c) →
  Z.of_nat (length l) < 2 ^ 16 →
  ∃ t l' c' y, transition l tag x = @Ok E _ (t, l') ∧ wf l' ∧ extends l l' ∧ 0 <= t < 2 ^ 16 ∧
    l' !! Z.to_nat t = Some c' ∧ size c' = size c + 1 ∧
    offsets c' = offsets c ++ [(y, size c)] ∧ name y = name x ∧
    transition l' tag x = @Ok E _ (t, l').
Proof.
  intros Hwf Hc Hx Hlt. unfold transition. rewrite Hc. cbn.
  unfold lookup_transition. destruct (find x (transitions c)) as [t|] eqn:Hf.
  - pose proof Hwf as (_ & _ & Hall). rewrite Forall_lookup in Hall.
    destruct (Hall _ _ Hc) as (_ & Ht & _). rewrite Forall_forall in Ht.
    apply find_Some_elem in Hf as Hy. destruct Hy as (y & Hyx & Hin).
    destruct (Ht _ Hin) as (c' & Hb & Hc' & Hs & Ho).
    exists t, l, c', y. split; [done|]. split; [done|]. split; [apply extends_refl|].
    split; [done|]. repeat (split; [done|]). by rewrite Hc; cbn; rewrite Hf.
  - rewrite as_u16_small by done. cbn. unfold new_class_type.
    rewrite length_insert, as_u16_small by done.
    do 4 eexists. split; [done|]. split; [by apply wf_branch|].
    split; [by apply extends_insert_branch|]. split; [lia|].
    rewrite Nat2Z.id, lookup_app_r by (rewrite length_insert; lia).
    rewrite length_insert, Nat.sub_diag. split; [done|]. do 3 (split; [done|]).
    rewrite lookup_app_l by (rewrite length_insert; by eapply lookup_lt_Some).
    rewrite list_lookup_insert_eq by (by eapply lookup_lt_Some). cbn.
    rewrite find_app, Hf. cbn. unfold name_eq. by rewrite bool_decide_true.
Qed.

(** C23: adding a new field to a class keeps the class list well formed,
    keeps the layout of every existing class, and leads to a class with
    the old fields at their offsets and the new one at offset [size];
    asked again for the same field, the class leads to the same class and
    no class is created. *)
Theorem transition_correct l tag c x :
  wf l → l !! Z.to_nat tag = Some c → name x ∉ map name (keys c) →
  Z.of_nat (length l) < 2 ^ 16 →
  ∃ t l' c' y, transition l tag x = @Ok never _ (t, l') ∧ wf l' ∧ extends l l' ∧ 0 <= t < 2 ^ 16 ∧
    l' !! Z.to_nat t = Some c' ∧ size c' = size c + 1 ∧
    offsets c' = offsets c ++ [(y, size c)] ∧ name y = name x ∧
    transition l' tag x = @Ok never _ (t, l').
Proof. apply transition_lemma. Qed.

Lemma lookup_key c k y x :
  offsets_ok c → keys c !! k = Some y → name y = name x →
  lookup c x (-1) = (Some (Z.of_nat k), Z.of_nat k).
Proof.
  intros (Hs & Hseq & Hnd) Hk Hyx. unfold lookup. cbn.
  rewrite (find_elem x y (Z.of_nat k) (offsets c)); [done|done| |done].
  unfold keys in Hk. rewrite list_lookup_fmap in Hk. apply fmap_Some in Hk as ([y' i] & Hk & ->).
  assert (map snd (offsets c) !! k = Some i) as Hi by (by rewrite list_lookup_fmap, Hk).
  rewrite Hseq in Hi. apply lookup_seqZ in Hi as [-> _]. cbn.
  by apply list_elem_of_lookup_2 in Hk.
Qed.

(** Without a cached offset, [lookup] finds the position of the field
    among the fields of the class in the order they were added, and fills
    the cache with it; a missing field leaves the cache empty.  With a
    cached offset, [lookup] answers the cached offset whatever the
    class and the field. *)
Theorem lookup_correct c x :
  offsets_ok c →
  (name x ∉ map name (keys c) → lookup c x (-1) = (None, -1)) ∧
  (∀ k y, keys c !! k = Some y → name y = name x →
     lookup c x (-1) = (Some (Z.of_nat k), Z.of_nat k)) ∧
  (∀ cache, cache ≠ -1 → lookup c x cache = (Some cache, cache)).
Proof.
  intros Hc. split; [|split].
  - intros Hx. unfold lookup. cbn. by apply find_None in Hx as ->.
  - intros k y. by apply lookup_key.
  - intros cache Hn. unfold lookup. by apply Z.eqb_neq in Hn as ->.
Qed.

Lemma wf_replicate n : Z.of_nat n < 2 ^ 16 → wf (replicate (S n) new_class).
Proof.
  intros Hn. split; [|split].
  - exists new_class. done.
  - rewrite length_replicate. lia.
  - apply Forall_replicate. repeat split; constructor.
Qed.

(** With 65536 classes, the tag given to the class of a new field wraps
    around to 0, the class of the empty object: the object that gets the
    field is allocated with no slot for it. *)
Theorem transition_wraps l tag c x :
  wf l → l !! Z.to_nat tag = Some c → 0 < tag → find x (transitions c) = None →
  Z.of_nat (length l) = 2 ^ 16 →
  ∃ l' c0, transition l tag x = @Ok never _ (0, l') ∧
    get_class l' 0 = @Ok never _ c0 ∧ size c0 = 0.
Proof.
  intros ((c0 & Hc0 & Hs0) & _) Hc Htag Hf Hlen. unfold transition.
  rewrite Hc. cbn. unfold lookup_transition. rewrite Hf, Hlen. cbn.
  do 2 eexists. split.
  - unfold new_class_type. rewrite length_insert, Hlen. done.
  - unfold get_class. rewrite lookup_app_l by (rewrite length_insert; lia).
    rewrite list_lookup_insert_ne by lia. change (Z.to_nat 0) with O. by rewrite Hc0.
Qed.
End class_list.
Arguments mkClass {K}.
Arguments new_class {K}.
Arguments new_class_list {K}.

(** The class list after an object got the fields ["x"] and ["y"]. *)
Definition xy_classes : list (Class (K := string)) :=
  [mkClass 0 [] [("x", 1)]; mkClass 1 [("x", 0)] [("y", 2)]; mkClass 2 [("x", 0); ("y", 1)] []]%string.
Example xy_classes_built :
  (p ← transition id new_class_list 0 "x"; transition id p.2 p.1 "y")%string
  = @Ok never _ (2, xy_classes).
Proof. reflexivity. Qed.

Lemma xy_classes_wf : wf id xy_classes.
Proof.
  assert (∀ l : list string, bool_decide (NoDup (map id l)) = true → NoDup (map id l)) as Hnd
    by (intros l; apply bool_decide_eq_true_1).
  split; [by eexists|]. split; [vm_compute; congruence|].
  repeat apply Forall_cons_2; try apply Forall_nil_2;
    (split; [split; [done|split; [done|by apply Hnd]]|]);
    (split; [|by apply Hnd]);
    repeat apply Forall_cons_2; try apply Forall_nil_2;
    eexists; (split; [by split|]); (split; [done|]); done.
Qed.

Lemma transition_correct_witness :
  ∃ t l' c' y, transition id xy_classes 2 "z"%string = @Ok never _ (t, l') ∧ wf id l' ∧
    extends xy_classes l' ∧ 0 <= t < 2 ^ 16 ∧ l' !! Z.to_nat t = Some c' ∧ size c' = 3 ∧
    offsets c' = [("x", 0); ("y", 1); (y, 2)]%string ∧ y = "z"%string ∧
    transition id l' 2 "z"%string = @Ok never _ (t, l').
Proof.
  apply (transition_correct id xy_classes 2 (mkClass 2 [("x", 0); ("y", 1)] [])%string "z"%string).
  - apply xy_classes_wf.
  - reflexivity.
  - apply (bool_decide_eq_true_1 _). vm_compute. reflexivity.
  - vm_compute. reflexivity.
Defined.

Lemma lookup_correct_witness :
  let c := mkClass 2 [("x", 0); ("y", 1)] []%string in
  lookup id c "y"%string (-1) = (Some 1, 1) ∧ lookup id c "z"%string (-1) = (None, -1) ∧
  lookup id c "z"%string 1 = (Some 1, 1).
Proof.
  intros c. destruct (lookup_correct id c "y"%string) as (_ & Hy & _).
  { split; [reflexivity|]. split; [reflexivity|]. apply (bool_decide_eq_true_1 _). reflexivity. }
  destruct (lookup_correct id c "z"%string) as (Hz & _ & Hc).
  { split; [reflexivity|]. split; [reflexivity|]. apply (bool_decide_eq_true_1 _). reflexivity. }
  split; [by apply (Hy 1%nat "y"%string)|]. split; [|by apply Hc].
  apply Hz. apply (bool_decide_eq_true_1 _). reflexivity.
Defined.

Lemma transition_wraps_witness :
  ∃ l' c0, transition id (replicate (S (Z.to_nat 65535)) new_class) 7 "x"%string = @Ok never _ (0, l') ∧
    get_class l' 0 = @Ok never _ c0 ∧ size c0 = 0.
Proof.
  apply (transition_wraps id _ 7 new_class "x"%string).
  - apply wf_replicate. lia.
  - apply lookup_replicate_2. lia.
  - lia.
  - reflexivity.
  - rewrite length_replicate. lia.
Defined.
