(* ===== verification/Heap.v ===== *)
(** The managed heap of the runtime ([runtime/src/allocator/], [wasm32.rs],
    [ref.rs], [env.rs], [closure.rs]): values, blocks, the two allocators, the
    shadow stack and the garbage collector, on the 32-bit Wasm target. *)
From S2P Require Import Prelude ClassList.
From Stdlib Require Import SpecFloat.

(** The runtime's functions do not return [Result]s. *)
Abbreviation rt := (comp never).

(** ** Values *)

(** A [*mut Tag]. *)
Abbreviation loc := Z.
Definition null : loc := 0.

Module TT.
(** [TypeTag]. *)
Inductive TypeTag : Type :=
  | Array | String | HT | ObjectPtrPtr | DynObject | Env | NonPtr32 | Any | MutF64 | Ptr.
#[global] Instance TypeTag_eq_dec : EqDecision TypeTag.
Proof. solve_decision. Defined.
End TT.

Record Tag := mkTag { marked : bool; type_tag : TT.TypeTag; class_tag : Z }.
#[global] Instance Tag_eq_dec : EqDecision Tag.
Proof. solve_decision. Defined.
Definition with_type (t : TT.TypeTag) : Tag := mkTag false t 0.
Definition object_tag (class_tag : Z) : Tag := mkTag false TT.DynObject class_tag.

(** A [*const f64]: one of the two boxes of the float allocator, and a slot. *)
Record f64ptr := mkF64ptr { space : bool; slot : Z }.
#[global] Instance f64ptr_eq_dec : EqDecision f64ptr.
Proof. solve_decision. Defined.

Module Any.
(** [AnyEnum]; a closure is its environment and the index of its function. *)
Inductive AnyEnum : Type :=
  | I32 (i : Z)
  | F64 (p : f64ptr)
  | Bool (b : bool)
  | Ptr (p : loc)
  | Closure (env : loc) (func : Z)
  | Undefined
  | Null.
#[global] Instance AnyEnum_eq_dec : EqDecision AnyEnum.
Proof. solve_decision. Defined.
End Any.
Abbreviation AnyEnum := Any.AnyEnum.
#[global] Instance AnyEnum_inhabited : Inhabited AnyEnum := populate Any.Undefined.

Module View.
(** What follows a tag, as [HeapRefView] shows it.  [A] is the type of the
    values held, so that two heaps can be compared up to the position of
    their floats.  The entries of a hash table are in its iteration order. *)
Inductive HeapRefView (A : Type) : Type :=
  | String (s : string)
  | HT (entries : list (loc * A))
  | Array (elems : list A)
  | Any (v : A)
  | Class (fields : list (option A))
  | ObjectPtrPtr (data : loc)
  | Env (items : list A) (fn_obj : loc)
  | NonPtr32 (i : Z)
  | MutF64 (f : f64)
  | Ptr (p : loc).
Arguments String {A}.
Arguments HT {A}.
Arguments Array {A}.
Arguments Any {A}.
Arguments Class {A}.
Arguments ObjectPtrPtr {A}.
Arguments Env {A}.
Arguments NonPtr32 {A}.
Arguments MutF64 {A}.
Arguments Ptr {A}.
#[global] Instance HeapRefView_eq_dec {A} `{EqDecision A} : EqDecision (HeapRefView A).
Proof. solve_decision. Defined.

(** The tag under which a view is recognised. *)
Definition type_tag {A} (v : HeapRefView A) : TT.TypeTag :=
  match v with
  | String _ => TT.String | HT _ => TT.HT | Array _ => TT.Array | Any _ => TT.Any
  | Class _ => TT.DynObject | ObjectPtrPtr _ => TT.ObjectPtrPtr | Env _ _ => TT.Env
  | NonPtr32 _ => TT.NonPtr32 | MutF64 _ => TT.MutF64 | Ptr _ => TT.Ptr
  end.

(** [HasTag::TYPE_TAG]: the tag with which data is allocated.  A float ref is
    given [TypeTag::Ptr]. *)
Definition has_tag {A} (v : HeapRefView A) : TT.TypeTag :=
  match v with MutF64 _ => TT.Ptr | _ => type_tag v end.

(** The values held, in the order they are visited. *)
Definition slots {A} (v : HeapRefView A) : list (option A) :=
  match v with
  | HT l => map (λ e, Some e.2) l
  | Array l => map Some l
  | Any a => [Some a]
  | Class l => l
  | Env l _ => map Some l
  | _ => []
  end.
Definition write_slot {A} (v : HeapRefView A) (i : nat) (a : A) : HeapRefView A :=
  match v with
  | HT l => HT (alter (λ e, (e.1, a)) i l)
  | Array l => Array (<[i := a]> l)
  | Any _ => Any a
  | Class l => Class (<[i := Some a]> l)
  | Env l o => Env (<[i := a]> l) o
  | v => v
  end.
#[global] Instance fmap : FMap HeapRefView := λ A B f v,
  match v with
  | String s => String s
  | HT l => HT (map (λ e, (e.1, f e.2)) l)
  | Array l => Array (map f l)
  | Any a => Any (f a)
  | Class l => Class (map (option_map f) l)
  | ObjectPtrPtr p => ObjectPtrPtr p
  | Env l o => Env (map f l) o
  | NonPtr32 i => NonPtr32 i
  | MutF64 f => MutF64 f
  | Ptr p => Ptr p
  end.
End View.
Abbreviation HeapRefView := (View.HeapRefView AnyEnum).

(** A tag and the data that follows it, as it was written. *)
Record block := mkBlock { tag : Tag; data : HeapRefView }.

(** Reading data at another type than it was written with. *)
Definition undefined_behavior {A} : rt A := Panic "undefined behavior".

(** [AnyPtr::view]. *)
Definition view (b : block) : rt HeapRefView :=
  if decide (type_tag (tag b) = View.type_tag (data b)) then Ok (data b) else undefined_behavior.

(** ** The float allocator ([f64_allocator.rs]) *)
Module F64.
Definition LEN : Z := 1000.
Record F64Allocator := mkF64Allocator {
  current_space : list f64;
  other_space : list f64;
  current_box : bool;
  next_slot : Z
}.
Definition new : F64Allocator :=
  mkF64Allocator (replicate (Z.to_nat LEN) (S754_zero false)) (replicate (Z.to_nat LEN) (S754_zero false)) false 0.

Definition alloc (value : f64) (a : F64Allocator) : rt (option f64ptr * F64Allocator) :=
  assert "assertion failed: self.next_slot <= LEN" (next_slot a <=? LEN);;
  let index := next_slot a in
  let next := next_slot a + 1 in
  if next =? LEN then Ok (None, mkF64Allocator (current_space a) (other_space a) (current_box a) next)
  else if index <? LEN then
    Ok (Some (mkF64ptr (current_box a) index),
        mkF64Allocator (<[Z.to_nat index := value]> (current_space a)) (other_space a) (current_box a) next)
  else undefined_behavior.

Definition semispace_swap (a : F64Allocator) : F64Allocator :=
  mkF64Allocator (other_space a) (current_space a) (negb (current_box a)) 0.

(** [*p]. *)
Definition read (a : F64Allocator) (p : f64ptr) : option f64 :=
  if bool_decide (0 <= slot p) then
    (if eqb (space p) (current_box a) then current_space a else other_space a) !! Z.to_nat (slot p)
  else None.
End F64.
Abbreviation F64Allocator := F64.F64Allocator.

(** ** The heap *)

Abbreviation Mem := (gmap loc block).

(** What the runtime takes from Rust: the addresses given by the global
    allocator, and the sizes of the standard collections. *)
Class Rust := {
  malloc : Mem → loc;
  malloc_fresh m : m !! malloc m = None;
  malloc_nonnull m : malloc m ≠ null;
  size_of_Vec : Z;
  size_of_HashMap : Z
}.

Record Heap := mkHeap {
  f64_allocator : F64Allocator;
  size : Z;
  used_mem : Z;
  alloc_list : list loc;
  tag_size : Z;
  classes : list (Class (K := loc));
  shadow_stack : list (list (option loc));
  mem : Mem
}.

Definition set_f64_allocator (a : F64Allocator) (h : Heap) : Heap :=
  mkHeap a (size h) (used_mem h) (alloc_list h) (tag_size h) (classes h) (shadow_stack h) (mem h).
Definition set_mem (m : Mem) (h : Heap) : Heap :=
  mkHeap (f64_allocator h) (size h) (used_mem h) (alloc_list h) (tag_size h) (classes h) (shadow_stack h) m.
Definition set_classes (c : list (Class (K := loc))) (h : Heap) : Heap :=
  mkHeap (f64_allocator h) (size h) (used_mem h) (alloc_list h) (tag_size h) c (shadow_stack h) (mem h).
Definition set_shadow_stack (s : list (list (option loc))) (h : Heap) : Heap :=
  mkHeap (f64_allocator h) (size h) (used_mem h) (alloc_list h) (tag_size h) (classes h) s (mem h).
Definition set_allocated (used : Z) (l : list loc) (m : Mem) (h : Heap) : Heap :=
  mkHeap (f64_allocator h) (size h) used l (tag_size h) (classes h) (shadow_stack h) m.

(** [constants.rs] and [layout.rs]. *)
Definition ALIGNMENT : Z := 4.
Definition layout_aligned (size : Z) : Z := (size + ALIGNMENT - 1) / ALIGNMENT * ALIGNMENT.
Definition size_of_Tag : Z := 4.
Definition size_of_AnyEnum : Z := 8.
Definition size_of_ptr : Z := 4.

(** [Heap::new]. *)
Definition new (size : Z) : Heap :=
  mkHeap F64.new size 0 [] (layout_aligned size_of_Tag) new_class_list [] ∅.

Definition deref (h : Heap) (p : loc) : rt block :=
  match mem h !! p with Some b => Ok b | None => undefined_behavior end.
Definition store (p : loc) (b : block) (h : Heap) : Heap := set_mem (<[p := b]> (mem h)) h.

(** [Heap::get_class_size], [Heap::object_data_size]. *)
Definition heap_class_size (h : Heap) (class_tag : Z) : rt Z := get_class_size (classes h) class_tag.
Definition object_data_size (num_elements : Z) : Z := size_of_AnyEnum * num_elements.

Section allocator.
Context `{Rust}.

(** [TypePtr::<T>::size()], for the types [T] of [HasTag]. *)
Definition type_size (v : HeapRefView) : Z :=
  layout_aligned
    match v with
    | View.HT _ => size_of_HashMap
    | View.Array _ => size_of_Vec
    | View.Any _ => size_of_AnyEnum
    | View.MutF64 _ => 8
    | _ => size_of_ptr
    end.

(** [HeapPtr::get_data_size]. *)
Definition view_data_size (h : Heap) (class_tag : Z) (v : HeapRefView) : rt Z :=
  match v with
  | View.String s => Ok (Z.of_nat (String.length s) + 4)
  | View.Class _ => n ← heap_class_size h class_tag; Ok (object_data_size n)
  | View.Env items _ => Ok (size_of_AnyEnum * Z.of_nat (length items) + 4 + size_of_ptr)
  | View.ObjectPtrPtr _ => Ok ALIGNMENT
  | v => Ok (type_size v)
  end.
Definition get_data_size (h : Heap) (p : loc) : rt Z :=
  b ← deref h p; v ← view b; view_data_size h (class_tag (tag b)) v.

(** [Heap::alloc_raw], then the writes that initialise the memory. *)
Definition alloc_raw (h : Heap) (bytes : Z) (b : block) : option loc * Heap :=
  if size h - used_mem h <? bytes then (None, h)
  else let p := malloc (mem h) in
       (Some p, set_allocated (used_mem h + bytes) (p :: alloc_list h) (<[p := b]> (mem h)) h).

(** [Heap::alloc] and [alloc_tag]; the assertion of [TypePtr::new_tag] compares
    a tag with itself. *)
Definition alloc (h : Heap) (value : HeapRefView) : option loc * Heap :=
  alloc_raw h (tag_size h + type_size value) (mkBlock (with_type (View.has_tag value)) value).

Definition alloc_slice (h : Heap) (t : Tag) (sz : Z) (value : HeapRefView) : option loc * Heap :=
  alloc_raw h (tag_size h + sz) (mkBlock t value).

Definition alloc_str (h : Heap) (s : string) : option loc * Heap :=
  alloc_slice h (with_type TT.String) (Z.of_nat (String.length s) + 4) (View.String s).

Definition alloc_object_data (h : Heap) (class_tag : Z) : rt (option loc * Heap) :=
  num_elements ← heap_class_size h class_tag;
  Ok (alloc_slice h (object_tag class_tag) (object_data_size num_elements)
        (View.Class (replicate (Z.to_nat num_elements) None))).

Definition alloc_object (h : Heap) (class_tag : Z) : rt (option loc * Heap) :=
  '(o, h) ← alloc_object_data h class_tag;
  match o with
  | None => Ok (None, h)
  | Some object_data => Ok (alloc h (View.ObjectPtrPtr object_data))
  end.

(** The items of a new environment are not initialised: [items] is what the
    memory happens to hold. *)
Definition alloc_env (h : Heap) (items : list AnyEnum) (fn_obj : loc) : option loc * Heap :=
  alloc_slice h (with_type TT.Env)
    (size_of_AnyEnum * Z.of_nat (length items) + 4 + size_of_ptr) (View.Env items fn_obj).

(** ** The shadow stack *)

Definition push_shadow_frame (h : Heap) (slots : nat) : Heap :=
  set_shadow_stack (shadow_stack h ++ [replicate slots None]) h.
Definition pop_shadow_frame (h : Heap) : Heap :=
  set_shadow_stack (take (length (shadow_stack h) - 1) (shadow_stack h)) h.
Definition set_in_shadow_frame_slot (h : Heap) (frame slot : nat) (p : option loc) : rt Heap :=
  fr ← expect "index out of bounds" (shadow_stack h !! frame);
  if (slot <? length fr)%nat then Ok (set_shadow_stack (<[frame := <[slot := p]> fr]> (shadow_stack h)) h)
  else Panic "index out of bounds".
Definition set_in_current_shadow_frame_slot (h : Heap) (slot : nat) (p : option loc) : rt Heap :=
  match length (shadow_stack h) with
  | O => Panic "called unwrap on a None value"
  | S n => set_in_shadow_frame_slot h n slot p
  end.

(** ** The pointers of a value and of a block ([heap_types.rs]) *)

(** [AnyPtr::get_ptr] looks at the tag it points to. *)
Definition get_ptr (h : Heap) (p : loc) : rt loc := deref h p;; Ok p.

(** [AnyEnum::insert_ptr]; [i] is where the value is stored. *)
Definition insert_ptr (h : Heap) (acc : list loc * list nat) (i : nat) (a : AnyEnum) :
    rt (list loc * list nat) :=
  let '(tags, f64s) := acc in
  match a with
  | Any.Ptr p => p ← get_ptr h p; Ok (tags ++ [p], f64s)
  | Any.Closure env _ => Ok (tags ++ [env], f64s)
  | Any.F64 _ => Ok (tags, f64s ++ [i])
  | _ => Ok (tags, f64s)
  end.
Fixpoint iter_to_ptrs_from (h : Heap) (acc : list loc * list nat) (i : nat) (l : list AnyEnum) :
    rt (list loc * list nat) :=
  match l with
  | [] => Ok acc
  | a :: l => acc ← insert_ptr h acc i a; iter_to_ptrs_from h acc (S i) l
  end.
Definition iter_to_ptrs (h : Heap) (l : list AnyEnum) : rt (list loc * list nat) :=
  iter_to_ptrs_from h ([], []) 0 l.

(** [HeapPtr::get_gc_ptrs]. *)
Definition view_gc_ptrs (h : Heap) (class_tag : Z) (v : HeapRefView) : rt (list loc * list nat) :=
  match v with
  | View.HT l => iter_to_ptrs h (map snd l)
  | View.Array l => iter_to_ptrs h l
  | View.Any a => iter_to_ptrs h [a]
  | View.Class l =>
      '(tags, f64s) ← iter_to_ptrs h (map (default Any.Undefined) l);
      class ← get_class (classes h) class_tag;
      Ok (tags ++ keys class, f64s)
  | View.ObjectPtrPtr data => Ok ([data], [])
  | View.Env items fn_obj =>
      '(tags, f64s) ← iter_to_ptrs h items; Ok (tags ++ [fn_obj], f64s)
  | View.Ptr p => p ← get_ptr h p; Ok ([p], [])
  | _ => Ok ([], [])
  end.
Definition get_gc_ptrs (h : Heap) (p : loc) : rt (list loc * list nat) :=
  b ← deref h p; v ← view b; view_gc_ptrs h (class_tag (tag b)) v.

(** ** Garbage collection *)

Definition set_marked (m : bool) (b : block) : block :=
  mkBlock (mkTag m (type_tag (tag b)) (class_tag (tag b))) (data b).

(** [*ptr = f64_allocator.alloc( **ptr ).unwrap()], for the value number [i] of the
    block [root]. *)
Definition relocate (root : loc) (h : Heap) (i : nat) : rt Heap :=
  b ← deref h root;
  match View.slots (data b) !! i with
  | Some (Some (Any.F64 p)) =>
      match F64.read (f64_allocator h) p with
      | Some x =>
          '(q, a) ← F64.alloc x (f64_allocator h);
          q ← expect "called unwrap on a None value" q;
          Ok (store root (mkBlock (tag b) (View.write_slot (data b) i (Any.F64 q)))
                (set_f64_allocator a h))
      | None => undefined_behavior
      end
  | _ => undefined_behavior
  end.

(** The body of the inner loop of [mark_phase]. *)
Definition mark_root (s : Heap * list loc) (root : loc) : rt (Heap * list loc) :=
  let '(h, new_roots) := s in
  b ← deref h root;
  if marked (tag b) then Ok (h, new_roots)
  else
    let h := store root (set_marked true b) h in
    '(tags, f64s) ← get_gc_ptrs h root;
    h ← foldM (relocate root) h f64s;
    Ok (h, new_roots ++ tags).

(** The outer loop; [fuel] bounds the rounds. *)
Fixpoint mark_loop (fuel : nat) (h : Heap) (current_roots : list loc) : rt Heap :=
  match current_roots with
  | [] => Ok h
  | _ =>
      match fuel with
      | O => Panic "out of fuel"
      | S fuel =>
          '(h, new_roots) ← foldM mark_root (h, []) current_roots;
          mark_loop fuel h new_roots
      end
  end.

(** Every round but the last marks a block. *)
Definition mark_fuel (h : Heap) : nat := S (base.size (mem h)).
Definition mark_phase (h : Heap) (roots : list loc) : rt Heap :=
  let h := set_f64_allocator (F64.semispace_swap (f64_allocator h)) h in
  mark_loop (mark_fuel h) h roots.

(** One item of the allocation list: the items kept so far, in reverse. *)
Definition sweep_item (s : Heap * list loc) (ptr : loc) : rt (Heap * list loc) :=
  let '(h, kept) := s in
  b ← deref h ptr;
  if marked (tag b) then Ok (store ptr (set_marked false b) h, kept ++ [ptr])
  else
    n ← get_data_size h ptr;
    Ok (set_allocated (used_mem h - (tag_size h + n)) (alloc_list h) (delete ptr (mem h)) h, kept).
Definition sweep_phase (h : Heap) : rt Heap :=
  '(h, kept) ← foldM sweep_item (h, []) (alloc_list h);
  Ok (set_allocated (used_mem h) kept (mem h) h).

(** The roots: [shadow_stack.iter().flatten().flatten()]. *)
Definition roots (h : Heap) : list loc := omap id (concat (shadow_stack h)).
Definition gc (h : Heap) : rt Heap :=
  h ← mark_phase h (roots h); sweep_phase h.

(** ** Allocation with a collection when memory is short *)

Definition or_gc {A} (f : Heap → rt (option A * Heap)) (h : Heap) : rt (A * Heap) :=
  '(o, h) ← f h;
  match o with
  | Some p => Ok (p, h)
  | None =>
      h ← gc h;
      '(o, h) ← f h;
      p ← expect "out of memory even after gc" o; Ok (p, h)
  end.

Definition alloc_or_gc (h : Heap) (value : HeapRefView) : rt (loc * Heap) :=
  or_gc (λ h, Ok (alloc h value)) h.
Definition alloc_str_or_gc (h : Heap) (s : string) : rt (loc * Heap) :=
  or_gc (λ h, Ok (alloc_str h s)) h.
Definition alloc_object_or_gc (h : Heap) (class_tag : Z) : rt (loc * Heap) :=
  or_gc (λ h, alloc_object h class_tag) h.
Definition alloc_object_data_or_gc (h : Heap) (class_tag : Z) : rt (loc * Heap) :=
  or_gc (λ h, alloc_object_data h class_tag) h.
Definition alloc_env_or_gc (h : Heap) (items : list AnyEnum) (fn_obj : loc) : rt (loc * Heap) :=
  or_gc (λ h, Ok (alloc_env h items fn_obj)) h.
Definition alloc_f64_or_gc (h : Heap) (x : f64) : rt (f64ptr * Heap) :=
  or_gc (λ h, '(o, a) ← F64.alloc x (f64_allocator h); Ok (o, set_f64_allocator a h)) h.
Definition f64_to_any (h : Heap) (x : f64) : rt (AnyEnum * Heap) :=
  '(p, h) ← alloc_f64_or_gc h x; Ok (Any.F64 p, h).

(** ** The functions exported to compiled programs *)

(** [wasm32.rs]. *)
Definition gc_enter_fn : Heap → nat → Heap := push_shadow_frame.
Definition gc_exit_fn : Heap → Heap := pop_shadow_frame.
Definition any_root (h : Heap) (any : AnyEnum) : rt (option loc) :=
  '(out, _) ← insert_ptr h ([], []) 0 any; Ok (last out).
Definition set_any_in_current_shadow_frame_slot (h : Heap) (any : AnyEnum) (slot : nat) : rt Heap :=
  p ← any_root h any; set_in_current_shadow_frame_slot h slot p.
Definition set_closure_in_current_shadow_frame_slot (h : Heap) (closure : loc * Z) (slot : nat) : rt Heap :=
  set_in_current_shadow_frame_slot h slot (Some closure.1).
Definition set_in_globals_frame (h : Heap) (p : loc) (slot : nat) : rt Heap :=
  set_in_shadow_frame_slot h 0 slot (Some p).
Definition set_any_in_globals_frame (h : Heap) (any : AnyEnum) (slot : nat) : rt Heap :=
  p ← any_root h any; set_in_shadow_frame_slot h 0 slot p.
Definition set_closure_in_globals_frame (h : Heap) (closure : loc * Z) (slot : nat) : rt Heap :=
  set_in_shadow_frame_slot h 0 slot (Some closure.1).

(** [ref.rs]. *)
Definition ref_new_non_ptr_32 (h : Heap) (val : Z) : rt (loc * Heap) := alloc_or_gc h (View.NonPtr32 val).
Definition ref_new_f64 (h : Heap) (val : f64) : rt (loc * Heap) := alloc_or_gc h (View.MutF64 val).
Definition ref_new_any (h : Heap) (val : AnyEnum) : rt (loc * Heap) := alloc_or_gc h (View.Any val).
Definition ref_new_ptr (h : Heap) (val : loc) : rt (loc * Heap) := alloc_or_gc h (View.Ptr val).

(** [env.rs]: [EnvPtr::fn_obj] and [env_init_at]. *)
Definition as_env (h : Heap) (env : loc) : rt (list AnyEnum * loc) :=
  b ← deref h env; match data b with View.Env items fn_obj => Ok (items, fn_obj) | _ => undefined_behavior end.
Definition env_fn_obj (h : Heap) (env : loc) : rt loc := '(_, fn_obj) ← as_env h env; Ok fn_obj.
Definition env_init_at (h : Heap) (env : loc) (index : nat) (item : AnyEnum) : rt Heap :=
  b ← deref h env;
  '(items, fn_obj) ← as_env h env;
  if (index <? length items)%nat
  then Ok (store env (mkBlock (tag b) (View.Env (<[index := item]> items) fn_obj)) h)
  else undefined_behavior.

(** [closure.rs]. *)
Definition closure_new (ptr : loc) (func : Z) : loc * Z := (ptr, as_u16 func).
Definition closure_env (closure : loc * Z) : loc := closure.1.
Definition closure_func (closure : loc * Z) : Z := closure.2.
End allocator.

(** ** An instance of what the runtime takes from Rust *)

Definition next_address (m : Mem) : loc := Z.succ (map_fold (λ p _ top, Z.max p top) 0 m).
Lemma next_address_above m p b : m !! p = Some b → p < next_address m.
Proof.
  unfold next_address. revert p b.
  apply (map_fold_weak_ind (λ top m, ∀ p b, m !! p = Some b → p < Z.succ top)).
  - intros p b Hp. by rewrite lookup_empty in Hp.
  - intros i x m' top Hi IH p b Hp. apply lookup_insert_Some in Hp as [[-> _]|[_ Hp]]; [lia|].
    specialize (IH p b Hp). lia.
Qed.
Lemma next_address_pos m : 0 < next_address m.
Proof.
  unfold next_address. apply (map_fold_weak_ind (λ top _, 0 < Z.succ top)); [lia|]. intros; lia.
Qed.

(** Addresses in increasing order, and the sizes of the collections on wasm32. *)
Definition wasm32 : Rust.
Proof.
  refine {| malloc := next_address; size_of_Vec := 12; size_of_HashMap := 32 |}.
  - intros m. destruct (m !! next_address m) as [b|] eqn:Hb; [|done].
    apply next_address_above in Hb. lia.
  - intros m. pose proof (next_address_pos m). unfold null. lia.
Defined.
