(* ===== verification/Gc.v ===== *)
(** Correctness of the garbage collector of [Heap]: it terminates, keeps the
    reachable blocks with the values they hold, and frees the others. *)
From Stdlib Require Import SpecFloat.
From S2P Require Import Prelude ClassList Heap.

(** ** The shape of a block and the values in it *)

Lemma length_write_slot {A} (v : View.HeapRefView A) i a :
  length (View.slots (View.write_slot v i a)) = length (View.slots v).
Proof. destruct v; cbn; rewrite ?length_map, ?length_alter, ?length_insert; done. Qed.

Lemma slots_write_slot {A} (v : View.HeapRefView A) i a b :
  View.slots v !! i = Some (Some b) →
  View.slots (View.write_slot v i a) = <[i := Some a]> (View.slots v).
Proof.
  destruct v; cbn; intros H; try done.
  - clear H. revert i. induction entries as [|e l IH]; intros [|i]; cbn; try done.
    f_equal. apply IH.
  - rewrite <- list_fmap_insert. done.
  - destruct i; done.
  - rewrite <- list_fmap_insert. done.
Qed.

(** [v] without its values. *)
Definition shape {A} (v : View.HeapRefView A) : View.HeapRefView unit := (λ _, tt) <$> v.

Lemma shape_write_slot {A} (v : View.HeapRefView A) i a b :
  View.slots v !! i = Some (Some b) → shape (View.write_slot v i a) = shape v.
Proof.
  unfold shape. destruct v; cbn; intros H; try done; f_equal.
  - clear H. revert i. induction entries as [|[k e] l IH]; intros [|i]; cbn; try done.
    f_equal. apply IH.
  - clear H. revert i. induction elems as [|e l IH]; intros [|i]; cbn; try done.
    f_equal. apply IH.
  - revert i H. induction fields as [|e l IH]; intros [|i] H; cbn in *; [done|done| |].
    + by simplify_eq.
    + f_equal. by apply IH.
  - clear H. revert i. induction items as [|e l IH]; intros [|i]; cbn; try done.
    f_equal. apply IH.
Qed.

Lemma fmap_shape_slots {A B C} (f : A → C) (g : B → C) (v : View.HeapRefView A) (w : View.HeapRefView B) :
  shape v = shape w →
  Forall2 (λ x y, option_map f x = option_map g y) (View.slots v) (View.slots w) →
  f <$> v = g <$> w.
Proof.
  unfold shape. destruct v, w; intros Hs; cbn in *; try discriminate Hs; intros Hf;
    try (injection Hs; intros; subst; done); f_equal; try congruence.
  - injection Hs as Hs. revert entries0 Hs Hf.
    induction entries as [|[k a] l IH]; intros [|[k' b] l'] Hs Hf; cbn in *; try done.
    injection Hs as -> Hs. apply Forall2_cons in Hf as [Hh Hf]. f_equal; [cbn in Hh |- *; congruence|auto].
  - injection Hs as Hs. revert elems0 Hs Hf.
    induction elems as [|a l IH]; intros [|b l'] Hs Hf; cbn in *; try done.
    injection Hs as Hs. apply Forall2_cons in Hf as [Hh Hf]. f_equal; [cbn in Hh; congruence|auto].
  - apply Forall2_cons in Hf as [Hh _]. cbn in Hh. congruence.
  - clear Hs. induction Hf; cbn; [done|]. by f_equal.
  - injection Hs as Hs _. revert items0 Hs Hf.
    induction items as [|a l IH]; intros [|b l'] Hs Hf; cbn in *; try done.
    injection Hs as Hs. apply Forall2_cons in Hf as [Hh Hf]. f_equal; [cbn in Hh; congruence|auto].
Qed.

(** ** Reachability *)

Definition value_ptrs (a : AnyEnum) : list loc :=
  match a with Any.Ptr p => [p] | Any.Closure env _ => [env] | _ => [] end.
Definition slot_values (v : HeapRefView) : list AnyEnum := map (default Any.Undefined) (View.slots v).
Definition values_ptrs (l : list AnyEnum) : list loc := concat (map value_ptrs l).
(** The pointers of a block that are not in values. *)
Definition other_ptrs (cs : list (Class (K := loc))) (class_tag : Z) (v : HeapRefView) : list loc :=
  match v with
  | View.Class _ => match cs !! Z.to_nat class_tag with Some c => keys c | None => [] end
  | View.ObjectPtrPtr p => [p]
  | View.Env _ fn_obj => [fn_obj]
  | View.Ptr p => [p]
  | _ => []
  end.
Definition block_ptrs (cs : list (Class (K := loc))) (b : block) : list loc :=
  values_ptrs (slot_values (data b)) ++ other_ptrs cs (class_tag (tag b)) (data b).

Inductive reachable (h : Heap) : loc → Prop :=
  | reachable_root p : p ∈ roots h → reachable h p
  | reachable_step p b q : reachable h p → mem h !! p = Some b → q ∈ block_ptrs (classes h) b →
      reachable h q.

(** The positions of the floats among values. *)
Fixpoint f64_indices (i : nat) (l : list AnyEnum) : list nat :=
  match l with
  | [] => []
  | Any.F64 _ :: l => i :: f64_indices (S i) l
  | _ :: l => f64_indices (S i) l
  end.
Definition block_f64s (b : block) : Z := Z.of_nat (length (f64_indices 0 (slot_values (data b)))).

Lemma f64_indices_spec i l j :
  j ∈ f64_indices i l ↔ ∃ k p, j = (i + k)%nat ∧ l !! k = Some (Any.F64 p).
Proof.
  revert i. induction l as [|a l IH]; intros i; cbn.
  - split; [by intros H%elem_of_nil|]. by intros (k & p & _ & ?).
  - assert (j ∈ f64_indices (S i) l ↔ ∃ k p, j = (i + S k)%nat ∧ l !! k = Some (Any.F64 p)) as IH'.
    { rewrite IH. split; intros (k & p & ? & ?); exists k, p; (split; [lia|assumption]). }
    clear IH. assert (∀ P : nat → Prop, (∃ k, P k) ↔ P O ∨ ∃ k, P (S k)) as Hex.
    { intros P. split; [intros [[|k] ?]; eauto|intros [?|[? ?]]; eauto]. }
    rewrite Hex. cbn. destruct a; rewrite ?elem_of_cons, IH'; naive_solver lia.
Qed.

Lemma f64_indices_NoDup i l : NoDup (f64_indices i l).
Proof.
  revert i. induction l as [|a l IH]; intros i; cbn; [constructor|].
  destruct a; try apply IH. constructor; [|apply IH].
  intros (k & q & ? & _)%f64_indices_spec. lia.
Qed.

Lemma slot_values_lookup v i a :
  slot_values v !! i = Some a → a ≠ Any.Undefined → View.slots v !! i = Some (Some a).
Proof.
  unfold slot_values. rewrite list_lookup_fmap. intros (o & Ho & ->)%fmap_Some Ha.
  by destruct o.
Qed.

(** ** [get_gc_ptrs] on a block whose pointers are valid *)

Definition valid (h : Heap) (p : loc) : Prop := is_Some (mem h !! p).

Lemma valid_deref h p : valid h p → get_ptr h p = Ok p.
Proof. intros [b Hb]. unfold get_ptr, deref. by rewrite Hb. Qed.

Lemma iter_to_ptrs_from_valid h t f i l :
  Forall (valid h) (values_ptrs l) →
  iter_to_ptrs_from h (t, f) i l = Ok (t ++ values_ptrs l, f ++ f64_indices i l).
Proof.
  revert t f i. induction l as [|a l IH]; intros t f i; cbn; [by rewrite !app_nil_r|].
  intros [Ha Hl]%Forall_app. change (Forall (valid h) (values_ptrs l)) in Hl.
  destruct a; cbn; rewrite ?(IH _ _ _ Hl), <- ?app_assoc; try done.
  cbn in Ha. apply Forall_cons_1 in Ha as [Ha _]. rewrite valid_deref by done. cbn.
  by rewrite (IH _ _ _ Hl), <- app_assoc.
Qed.

Lemma iter_to_ptrs_valid h l :
  Forall (valid h) (values_ptrs l) → iter_to_ptrs h l = Ok (values_ptrs l, f64_indices 0 l).
Proof. apply (iter_to_ptrs_from_valid h [] [] 0). Qed.

(** The tag tells the type of the data; object data has the size given by
    its class. *)
Definition block_ok (cs : list (Class (K := loc))) (b : block) : Prop :=
  type_tag (tag b) = View.type_tag (data b) ∧
  ∀ l, data b = View.Class l →
    ∃ c, cs !! Z.to_nat (class_tag (tag b)) = Some c ∧ ClassList.size c = Z.of_nat (length l).

Lemma view_ok cs b : block_ok cs b → view b = Ok (data b).
Proof. intros [Ht _]. unfold view. by rewrite decide_True by done. Qed.

Lemma slot_values_HT l : slot_values (View.HT l) = map snd l.
Proof. unfold slot_values. cbn. rewrite map_map. by apply map_ext. Qed.
Lemma slot_values_Some (l : list AnyEnum) : map (default Any.Undefined) (map Some l) = l.
Proof. rewrite map_map. cbn. apply map_id. Qed.

Lemma get_gc_ptrs_valid h p b :
  mem h !! p = Some b → block_ok (classes h) b → Forall (valid h) (block_ptrs (classes h) b) →
  get_gc_ptrs h p = Ok (block_ptrs (classes h) b, f64_indices 0 (slot_values (data b))).
Proof.
  intros Hp Hok Hv. unfold get_gc_ptrs, deref. rewrite Hp. cbn. erewrite view_ok by done. cbn.
  destruct Hok as [_ Hc]. unfold block_ptrs in *. apply Forall_app in Hv as [Hv Ho].
  assert (∀ l, slot_values (data b) = l → iter_to_ptrs h l =
    Ok (values_ptrs (slot_values (data b)), f64_indices 0 (slot_values (data b)))) as Hit
    by (intros l <-; by apply iter_to_ptrs_valid).
  destruct (data b) as [s|l|l|a|l|q|l o|i|f|q] eqn:Hd;
    cbn [view_gc_ptrs other_ptrs] in *; rewrite ?app_nil_r; try done.
  - apply Hit, slot_values_HT.
  - apply Hit, slot_values_Some.
  - by apply Hit.
  - rewrite Hit by done. cbn. destruct (Hc _ eq_refl) as (c & Hcs & _).
    unfold get_class. by rewrite Hcs.
  - rewrite Hit by apply slot_values_Some. done.
  - apply Forall_cons_1 in Ho as [Ho _]. by rewrite valid_deref.
Qed.

(** ** Moving floats *)

Record f64_ok (a : F64Allocator) : Prop := {
  f64_current : length (F64.current_space a) = Z.to_nat F64.LEN;
  f64_other : length (F64.other_space a) = Z.to_nat F64.LEN;
  f64_next : 0 <= F64.next_slot a <= F64.LEN
}.
(** A pointer to a slot of the current space that is in use. *)
Definition in_current (a : F64Allocator) (p : f64ptr) : Prop :=
  space p = F64.current_box a ∧ 0 <= slot p < F64.next_slot a.
(** A pointer to a slot of the other space. *)
Definition in_other (a : F64Allocator) (p : f64ptr) : Prop :=
  space p = negb (F64.current_box a) ∧ 0 <= slot p < F64.LEN.

(** [a'] is [a] after some allocations. *)
Record f64_extends (a a' : F64Allocator) : Prop := {
  ext_other : F64.other_space a' = F64.other_space a;
  ext_box : F64.current_box a' = F64.current_box a;
  ext_next : F64.next_slot a <= F64.next_slot a';
  ext_current i : Z.of_nat i < F64.next_slot a → F64.current_space a' !! i = F64.current_space a !! i
}.

Lemma f64_extends_refl a : f64_extends a a.
Proof. split; done || lia. Qed.
Lemma f64_extends_trans a b c : f64_extends a b → f64_extends b c → f64_extends a c.
Proof.
  intros [H1 H2 H3 H4] [H5 H6 H7 H8]. split; [congruence|congruence|lia|].
  intros i Hi. rewrite H8 by lia. auto.
Qed.

Lemma read_other_extends a a' p : f64_extends a a' → in_other a p → F64.read a' p = F64.read a p.
Proof.
  intros [H1 H2 _ _] [Hs _]. unfold F64.read. rewrite H1, H2, Hs. by destruct (F64.current_box a).
Qed.
Lemma read_current_extends a a' p : f64_extends a a' → in_current a p → F64.read a' p = F64.read a p.
Proof.
  intros [H1 H2 H3 H4] [Hs Hp]. unfold F64.read. rewrite H1, H2, Hs, eqb_reflx, H4; [done|lia].
Qed.
Lemma in_current_extends a a' p : f64_extends a a' → in_current a p → in_current a' p.
Proof. intros [_ H2 H3 _] [Hs Hp]. split; [congruence|lia]. Qed.
Lemma in_other_extends a a' p : f64_extends a a' → in_other a p → in_other a' p.
Proof. intros [_ H2 _ _] [Hs Hp]. split; [by rewrite H2|done]. Qed.

Lemma read_other a p : f64_ok a → in_other a p → is_Some (F64.read a p).
Proof.
  intros [_ Ho _] [Hs Hp]. unfold F64.read. rewrite bool_decide_true by lia.
  assert (eqb (space p) (F64.current_box a) = false) as -> by (rewrite Hs; by destruct (F64.current_box a)).
  apply lookup_lt_is_Some. lia.
Qed.

(** Allocating a float when a slot is left. *)
Lemma f64_alloc_ok x a :
  f64_ok a → F64.next_slot a < F64.LEN - 1 →
  ∃ q a', F64.alloc x a = Ok (Some q, a') ∧ f64_ok a' ∧ f64_extends a a' ∧
    in_current a' q ∧ F64.read a' q = Some x ∧ F64.next_slot a' = F64.next_slot a + 1.
Proof.
  intros [H1 H2 H3] Hlt. unfold F64.alloc.
  assert (F64.next_slot a <=? F64.LEN = true) as -> by lia. cbn.
  assert (F64.next_slot a + 1 =? F64.LEN = false) as -> by lia.
  assert (F64.next_slot a <? F64.LEN = true) as -> by lia.
  do 2 eexists. split; [done|]. split; [|split; [|split; [|split]]].
  - split; cbn; [by rewrite length_insert|done|lia].
  - split; cbn; [done|done|lia|]. intros i Hi. rewrite list_lookup_insert_ne; [done|lia].
  - split; cbn; [done|lia].
  - unfold F64.read. cbn. rewrite bool_decide_true, eqb_reflx by lia.
    apply list_lookup_insert_eq. lia.
  - done.
Qed.

(** A value before and after it was moved. *)
Definition moved (a a' : F64Allocator) (v w : AnyEnum) : Prop :=
  match v with
  | Any.F64 p => ∃ q x, w = Any.F64 q ∧ in_current a' q ∧ F64.read a p = Some x ∧ F64.read a' q = Some x
  | v => w = v
  end.
Definition moved_slot (a a' : F64Allocator) : option AnyEnum → option AnyEnum → Prop :=
  option_Forall2 (moved a a').

Lemma moved_extends a0 a a' v w : f64_extends a a' → moved a0 a v w → moved a0 a' v w.
Proof.
  intros He. destruct v; cbn; try done. intros (q & x & -> & Hq & Hp & Hr). exists q, x.
  split; [done|]. split; [by eapply in_current_extends|]. split; [done|].
  by rewrite (read_current_extends a a').
Qed.

(** Slots and heaps up to the moves. *)
Definition is_f64 (o : option (option AnyEnum)) (P : f64ptr → Prop) : Prop :=
  ∃ p, o = Some (Some (Any.F64 p)) ∧ P p.

Section relocate.
Context `{Rust}.

Lemma relocate_ok root h i b :
  mem h !! root = Some b → f64_ok (f64_allocator h) →
  F64.next_slot (f64_allocator h) < F64.LEN - 1 →
  is_f64 (View.slots (data b) !! i) (in_other (f64_allocator h)) →
  ∃ a' q, relocate root h i =
    Ok (store root (mkBlock (tag b) (View.write_slot (data b) i (Any.F64 q))) (set_f64_allocator a' h)) ∧
    f64_ok a' ∧ f64_extends (f64_allocator h) a' ∧
    F64.next_slot a' = F64.next_slot (f64_allocator h) + 1 ∧
    moved_slot (f64_allocator h) a' (default None (View.slots (data b) !! i)) (Some (Any.F64 q)).
Proof.
  intros Hb Hok Hlt (p & Hp & Hin). unfold relocate, deref. rewrite Hb. cbn. rewrite Hp.
  destruct (read_other _ _ Hok Hin) as [x Hx]. rewrite Hx.
  destruct (f64_alloc_ok x _ Hok Hlt) as (q & a' & Ha & Hok' & Hext & Hq & Hrd & Hn).
  rewrite Ha. cbn. exists a', q. repeat (split; [done|]). cbn. constructor.
  exists q, x. repeat (split; [done|]). done.
Qed.

(** The loop over the floats of a block. *)
Lemma relocate_all ixs h root b :
  NoDup ixs → mem h !! root = Some b → f64_ok (f64_allocator h) →
  F64.next_slot (f64_allocator h) + Z.of_nat (length ixs) < F64.LEN →
  (∀ i, i ∈ ixs → is_f64 (View.slots (data b) !! i) (in_other (f64_allocator h))) →
  ∃ a' v', foldM (relocate root) h ixs =
      Ok (set_mem (<[root := mkBlock (tag b) v']> (mem h)) (set_f64_allocator a' h)) ∧
    f64_ok a' ∧ f64_extends (f64_allocator h) a' ∧
    F64.next_slot a' = F64.next_slot (f64_allocator h) + Z.of_nat (length ixs) ∧
    shape v' = shape (data b) ∧ length (View.slots v') = length (View.slots (data b)) ∧
    (∀ i, i ∉ ixs → View.slots v' !! i = View.slots (data b) !! i) ∧
    (∀ i, i ∈ ixs → ∃ w, View.slots v' !! i = Some w ∧
       moved_slot (f64_allocator h) a' (default None (View.slots (data b) !! i)) w).
Proof.
  revert h b. induction ixs as [|i ixs IH]; intros h b Hnd Hb Hok Hlt His; cbn in Hlt |- *.
  - exists (f64_allocator h), (data b). split.
    { destruct h, b. cbn in *. unfold set_mem, set_f64_allocator. cbn. by rewrite insert_id. }
    split; [done|]. split; [apply f64_extends_refl|]. split; [lia|].
    do 3 (split; [done|]). by intros j Hj%elem_of_nil.
  - apply NoDup_cons in Hnd as [Hi Hnd].
    pose proof (His i ltac:(by left)) as Hfi.
    destruct (relocate_ok root h i b Hb Hok ltac:(lia) Hfi) as (a1 & q & -> & Hok1 & Hext1 & Hn1 & Hm1).
    cbn. set (b1 := mkBlock _ _). set (h1 := store _ _ _).
    destruct Hfi as (p & Hp & Hpo).
    assert (View.slots (data b1) = <[i := Some (Any.F64 q)]> (View.slots (data b))) as Hsl
      by (by eapply slots_write_slot).
    assert (mem h1 !! root = Some b1) as Hb1 by (unfold h1, store; cbn; by rewrite lookup_insert_eq).
    destruct (IH h1 b1 Hnd Hb1 Hok1) as (a' & v' & Hf & Hok' & Hext' & Hn' & Hsh & Hlen & Hout & Hin).
    { unfold h1. cbn. lia. }
    { intros j Hj. destruct (His j ltac:(by right)) as (pj & Hpj & Hoj). exists pj.
      rewrite Hsl, list_lookup_insert_ne by (by intros ->). split; [done|]. by eapply in_other_extends. }
    rewrite Hf. exists a', v'. split.
    { unfold h1, store, set_mem, set_f64_allocator. cbn. by rewrite insert_insert_eq. }
    split; [done|]. split; [by eapply f64_extends_trans|]. split; [unfold h1 in Hn'; cbn in Hn'; lia|].
    split; [rewrite Hsh; by eapply shape_write_slot|].
    split; [rewrite Hlen; apply length_write_slot|].
    split.
    + intros j [Hji Hj]%not_elem_of_cons. rewrite Hout by done.
      by rewrite Hsl, list_lookup_insert_ne by done.
    + intros j [->|Hj]%elem_of_cons.
      * exists (Some (Any.F64 q)). rewrite Hout, Hsl by done.
        rewrite list_lookup_insert_eq by (by eapply lookup_lt_Some). split; [done|].
        rewrite Hp in *. cbn in *. inversion Hm1 as [? ? Hm|]; subst. constructor.
        by eapply moved_extends.
      * destruct (Hin j Hj) as (w & Hw & Hmw). exists w. split; [done|].
        rewrite Hsl, list_lookup_insert_ne in Hmw by (by intros ->).
        destruct (His j ltac:(by right)) as (pj & Hpj & Hoj). rewrite Hpj in *. cbn in *.
        inversion Hmw as [? y Hm|]; subst. constructor. destruct Hm as (q' & x & -> & Hq' & Hr & Hr').
        exists q', x. split; [done|]. split; [done|]. split; [|done].
        by rewrite <- (read_other_extends _ _ pj Hext1).
Qed.
End relocate.

(** ** The mark phase *)

Definition f64s_at (h : Heap) (p : loc) : Z :=
  match mem h !! p with Some b => block_f64s b | None => 0 end.

(** The floats held by reachable blocks fit in a space, each place that
    holds one counting for one. *)
Definition floats_fit (h : Heap) : Prop :=
  ∀ l, NoDup l → Forall (reachable h) l → sum_over (f64s_at h) l < F64.LEN.

Definition block_marked (h : Heap) (p : loc) : Prop :=
  ∃ b, mem h !! p = Some b ∧ marked (tag b) = true.
Definition is_string (b : block) : Prop := ∃ s, data b = View.String s.

(** A block before and after it was marked. *)
Definition marked_block (a a' : F64Allocator) (b b' : block) : Prop :=
  tag b' = mkTag true (type_tag (tag b)) (class_tag (tag b)) ∧ shape (data b') = shape (data b) ∧
  Forall2 (moved_slot a a') (View.slots (data b)) (View.slots (data b')).

Section mark.
Context `{Rust}.
(** The heap at the start, with the spaces swapped. *)
Context (h0 : Heap).
Context (Hf64 : f64_ok (f64_allocator h0)) (Hfit : floats_fit h0).
Context (Hnext : F64.next_slot (f64_allocator h0) = 0).
Context (Hreach : ∀ p, reachable h0 p → ∃ b, mem h0 !! p = Some b ∧ block_ok (classes h0) b ∧
  ∀ i q, View.slots (data b) !! i = Some (Some (Any.F64 q)) → in_other (f64_allocator h0) q).
Context (Hmarked : ∀ p b, mem h0 !! p = Some b → marked (tag b) = true → is_string b).

Definition seen (visited : list loc) (p : loc) : Prop := p ∈ visited ∨ block_marked h0 p.

Record mark_inv (h : Heap) (visited : list loc) : Prop := {
  inv_frame : ∃ a m, h = set_mem m (set_f64_allocator a h0);
  inv_f64 : f64_ok (f64_allocator h);
  inv_extends : f64_extends (f64_allocator h0) (f64_allocator h);
  inv_next : F64.next_slot (f64_allocator h) = sum_over (f64s_at h0) visited;
  inv_nodup : NoDup visited;
  inv_reachable : Forall (reachable h0) visited;
  inv_visited p : p ∈ visited → ∃ b b', mem h0 !! p = Some b ∧ marked (tag b) = false ∧
    mem h !! p = Some b' ∧ marked_block (f64_allocator h0) (f64_allocator h) b b';
  inv_others p : p ∉ visited → mem h !! p = mem h0 !! p
}.

(** The pointers found so far are seen or in the work list. *)
Definition covered (visited work : list loc) : Prop :=
  ∀ q, q ∈ roots h0 ∨ (∃ p b, p ∈ visited ∧ mem h0 !! p = Some b ∧ q ∈ block_ptrs (classes h0) b) →
    seen visited q ∨ q ∈ work.

Lemma mark_inv_start : mark_inv h0 [].
Proof.
  split.
  - exists (f64_allocator h0), (mem h0). by destruct h0.
  - done.
  - apply f64_extends_refl.
  - done.
  - constructor.
  - constructor.
  - by intros p Hp%elem_of_nil.
  - done.
Qed.

Lemma mark_inv_valid h visited p : mark_inv h visited → reachable h0 p → valid h p.
Proof.
  intros Hi Hp. unfold valid. destruct (decide (p ∈ visited)) as [Hv|Hv].
  - destruct (inv_visited _ _ Hi p Hv) as (b & b' & _ & _ & -> & _). by eexists.
  - rewrite (inv_others _ _ Hi p Hv). destruct (Hreach p Hp) as (b & -> & _). by eexists.
Qed.

Lemma marked_block_extends a0 a a' b b' :
  f64_extends a a' → marked_block a0 a b b' → marked_block a0 a' b b'.
Proof.
  intros He (Ht & Hs & Hm). repeat (split; [done|]). eapply Forall2_impl; [done|].
  intros o o' Ho. destruct Ho; constructor. by eapply moved_extends.
Qed.

Lemma block_ptrs_reachable p b :
  reachable h0 p → mem h0 !! p = Some b → Forall (reachable h0) (block_ptrs (classes h0) b).
Proof. intros Hp Hb. apply Forall_forall. intros q Hq. by eapply reachable_step. Qed.

Lemma sum_visited_fit p visited b :
  NoDup (p :: visited) → Forall (reachable h0) (p :: visited) → mem h0 !! p = Some b →
  sum_over (f64s_at h0) visited + block_f64s b < F64.LEN.
Proof.
  intros Hnd Hr Hb. pose proof (Hfit _ Hnd Hr) as Hs. unfold sum_over in *. cbn in Hs. unfold f64s_at at 1 in Hs.
  rewrite Hb in Hs. lia.
Qed.

(** Slots after the loop over the floats of the block. *)
Lemma moved_slots a a' (s s' : list (option AnyEnum)) :
  length s' = length s →
  (∀ i, i ∉ f64_indices 0 (map (default Any.Undefined) s) → s' !! i = s !! i) →
  (∀ i, i ∈ f64_indices 0 (map (default Any.Undefined) s) →
     ∃ w, s' !! i = Some w ∧ moved_slot a a' (default None (s !! i)) w) →
  Forall2 (moved_slot a a') s s'.
Proof.
  intros Hlen Hout Hin. apply Forall2_same_length_lookup. split; [done|].
  intros i x y Hx Hy. destruct (decide (i ∈ f64_indices 0 (map (default Any.Undefined) s))) as [Hi|Hi].
  - destruct (Hin i Hi) as (w & Hw & Hm). rewrite Hx in Hm. cbn in Hm. congruence.
  - rewrite Hout, Hx in Hy by done. injection Hy as <-. destruct x as [v|]; [|constructor].
    constructor. destruct v; try done. exfalso. apply Hi. apply f64_indices_spec.
    exists i, p. split; [done|]. by rewrite list_lookup_fmap, Hx.
Qed.

(** Visiting a block for the first time. *)
Lemma visit h visited root b nr :
  mark_inv h visited → reachable h0 root → root ∉ visited →
  mem h0 !! root = Some b → marked (tag b) = false →
  ∃ h', mark_root (h, nr) root = Ok (h', nr ++ block_ptrs (classes h0) b) ∧
    mark_inv h' (root :: visited).
Proof.
  intros Hi Hr Hv Hb Hm. pose proof Hi as [(a & m & Hh) Hok Hext Hn Hnd Hre Hvis Hoth].
  destruct (Hreach root Hr) as (b0 & Hb0 & Hbok & Hfl). simplify_eq. unfold mark_root, deref.
  rewrite (Hoth root Hv), Hb. cbn [mbind comp_bind]. rewrite Hm.
  set (h := set_mem m _) in *. set (b1 := set_marked true b). set (h1 := store root b1 h).
  assert (mem h1 !! root = Some b1) as Hb1 by (unfold h1, store; cbn; by rewrite lookup_insert_eq).
  rewrite (get_gc_ptrs_valid h1 root b1); [|done| |].
  2:{ destruct Hbok as [? Hc]. split; [done|]. exact Hc. }
  2:{ eapply Forall_impl; [by apply (block_ptrs_reachable root b)|]. intros q Hq.
      destruct (mark_inv_valid h visited q Hi Hq) as [bq Hbq]. unfold valid, h1, store. cbn.
      destruct (decide (root = q)) as [->|?]; [rewrite lookup_insert_eq; by eexists|].
      rewrite lookup_insert_ne by done. by eexists. }
  cbn [mbind comp_bind]. set (ixs := f64_indices 0 _).
  pose proof (sum_visited_fit root visited b ltac:(by constructor) ltac:(by constructor) Hb) as Hsum.
  destruct (relocate_all ixs h1 root b1) as (a' & v' & Hfold & Hok' & Hext' & Hn' & Hsh & Hlen & Hout & Hin).
  { apply f64_indices_NoDup. }
  { done. }
  { done. }
  { change (f64_allocator h1) with (f64_allocator h). rewrite Hn. apply Hsum. }
  { intros i (k & p & -> & Hk)%f64_indices_spec. exists p.
    apply slot_values_lookup in Hk; [|done]. split; [done|].
    eapply in_other_extends; [exact Hext|]. by eapply Hfl. }
  rewrite Hfold. eexists. split; [reflexivity|].
  assert (f64_extends (f64_allocator h0) a') as Hext2 by (by eapply f64_extends_trans).
  split; cbn.
  - by exists a', (<[root := mkBlock (tag b1) v']> (mem h1)).
  - done.
  - done.
  - unfold f64s_at at 1. rewrite Hb, Hn'. change (f64_allocator h1) with (f64_allocator h).
    rewrite Hn. unfold block_f64s, sum_over. unfold ixs. cbn [data b1 set_marked]. lia.
  - by constructor.
  - by constructor.
  - intros p [->|Hp]%elem_of_cons.
    + exists b, (mkBlock (tag b1) v'). rewrite lookup_insert_eq. repeat (split; [done|]).
      apply moved_slots; [done|done|]. intros i Hii. destruct (Hin i Hii) as (w & Hw & Hmw).
      exists w. split; [done|]. apply f64_indices_spec in Hii as (k & p & -> & Hk).
      apply slot_values_lookup in Hk; [|done]. cbn in Hmw |- *. rewrite Hk in *. cbn in *.
      inversion Hmw as [? y Hmv|]; subst. constructor. destruct Hmv as (q & x & -> & Hq & Hrd & Hrd').
      exists q, x. split; [done|]. split; [done|]. split; [|done].
      rewrite <- (read_other_extends _ _ p Hext); [done|]. by eapply Hfl.
    + destruct (Hvis p Hp) as (bp & bp' & ? & ? & Hp' & ?). exists bp, bp'.
      rewrite !lookup_insert_ne by (by intros ->). repeat (split; [done|]).
      eapply marked_block_extends; [exact Hext'|done].
  - intros p [Hpr Hp]%not_elem_of_cons. rewrite !lookup_insert_ne by done. by apply Hoth.
Qed.

(** One step of the inner loop. *)
Lemma mark_root_step h visited root nr :
  mark_inv h visited → reachable h0 root →
  (mark_root (h, nr) root = Ok (h, nr) ∧ seen visited root) ∨
  (∃ h' b, mark_root (h, nr) root = Ok (h', nr ++ block_ptrs (classes h0) b) ∧
    mark_inv h' (root :: visited) ∧ mem h0 !! root = Some b).
Proof.
  intros Hi Hr. destruct (decide (root ∈ visited)) as [Hv|Hv].
  - left. split; [|by left]. destruct (inv_visited _ _ Hi root Hv) as (b & b' & _ & _ & Hb' & Ht & _).
    unfold mark_root, deref. rewrite Hb'. cbn. by rewrite Ht.
  - destruct (Hreach root Hr) as (b & Hb & _). destruct (marked (tag b)) eqn:Hm.
    + left. split; [|right; by exists b].
      unfold mark_root, deref. rewrite (inv_others _ _ Hi root Hv), Hb. cbn. by rewrite Hm.
    + right. destruct (visit h visited root b nr) as (h' & ? & ?); try done. by exists h', b.
Qed.

(** One round: every root of the work list is seen, and what it leads to is
    in the new one. *)
Lemma mark_round work h visited nr :
  mark_inv h visited → Forall (reachable h0) (work ++ nr) → covered visited (work ++ nr) →
  ∃ h' nr' visited', foldM mark_root (h, nr) work = Ok (h', nr') ∧ mark_inv h' visited' ∧
    Forall (reachable h0) nr' ∧ covered visited' nr' ∧
    (length visited <= length visited')%nat ∧ (length visited' = length visited → nr' = nr).
Proof.
  revert h visited nr. induction work as [|root work IH]; intros h visited nr Hi Hr Hc; cbn [foldM].
  - by exists h, nr, visited.
  - apply Forall_cons in Hr as [Hroot Hr].
    destruct (mark_root_step h visited root nr Hi Hroot) as [[-> Hs]|(h1 & b & -> & Hi1 & Hb)].
    + cbn [mbind comp_bind]. destruct (IH h visited nr Hi Hr) as (h' & nr' & v' & ? & ? & ? & ? & ? & ?).
      { intros q Hq. destruct (Hc q Hq) as [?|[->|?]%elem_of_cons]; auto. }
      by exists h', nr', v'.
    + cbn [mbind comp_bind].
      destruct (IH h1 (root :: visited) (nr ++ block_ptrs (classes h0) b) Hi1)
        as (h' & nr' & v' & ? & ? & ? & ? & Hlen & ?).
      { rewrite app_assoc. apply Forall_app. split; [done|]. by eapply block_ptrs_reachable. }
      { intros q Hq. rewrite app_assoc.
        assert (∀ q, seen visited q → seen (root :: visited) q) as Hmono
          by (intros ? [?|?]; [left; by right|by right]).
        destruct Hq as [Hq|(p & bp & [->|Hp]%elem_of_cons & Hbp & Hq)].
        - destruct (Hc q (or_introl Hq)) as [?|[->|?]%elem_of_cons]; [auto|left; left; by left|].
          right. apply elem_of_app. by left.
        - right. simplify_eq. apply elem_of_app. by right.
        - destruct (Hc q) as [?|[->|?]%elem_of_cons]; [by right; exists p, bp|auto|left; left; by left|].
          right. apply elem_of_app. by left. }
      exists h', nr', v'. cbn in Hlen. do 4 (split; [done|]). split; [lia|]. intros; lia.
Qed.

(** Everything reachable was visited, or is a string that was marked before. *)
Lemma covered_all visited q : covered visited [] → reachable h0 q → seen visited q.
Proof.
  intros Hc Hq. induction Hq as [q Hq|p b q Hp IH Hb Hq].
  - destruct (Hc q) as [?|[]%elem_of_nil]; [by left|done].
  - destruct IH as [IH|(b' & Hb' & Hm)].
    + destruct (Hc q) as [?|[]%elem_of_nil]; [right; by exists p, b|done].
    + simplify_eq. destruct (Hmarked p b Hb Hm) as [s Hs].
      unfold block_ptrs, slot_values in Hq. rewrite Hs in Hq. cbn in Hq. by apply elem_of_nil in Hq.
Qed.

Lemma visited_bound h visited : mark_inv h visited → (length visited <= base.size (mem h0))%nat.
Proof.
  intros Hi. rewrite <- size_dom.
  rewrite <- (size_list_to_set (C := gset loc) visited) by apply (inv_nodup _ _ Hi).
  apply subseteq_size. intros p Hp%elem_of_list_to_set.
  apply elem_of_dom. destruct (inv_visited _ _ Hi p Hp) as (b & _ & -> & _). by eexists.
Qed.

(** The loop ends within [mark_fuel] rounds. *)
Lemma mark_loop_ok fuel h visited work :
  mark_inv h visited → Forall (reachable h0) work → covered visited work →
  (base.size (mem h0) < fuel + length visited)%nat →
  ∃ h' visited', mark_loop fuel h work = Ok h' ∧ mark_inv h' visited' ∧ covered visited' [].
Proof.
  revert h visited work. induction fuel as [|fuel IH]; intros h visited work Hi Hr Hc Hf.
  { pose proof (visited_bound h visited Hi). lia. }
  destruct work as [|root work]; [by exists h, visited|]. cbn [mark_loop].
  destruct (mark_round (root :: work) h visited [] Hi) as (h1 & nr & v1 & -> & Hi1 & Hr1 & Hc1 & Hle & Hnil);
    [by rewrite app_nil_r|by rewrite app_nil_r|].
  cbn [mbind comp_bind]. destruct (decide (length v1 = length visited)) as [Hl|Hl].
  - rewrite (Hnil Hl) in *. destruct fuel; by exists h1, v1.
  - apply (IH h1 v1 nr); try done. lia.
Qed.
End mark.

(** ** The sweep phase *)

Section sweep.
Context `{Rust}.

(** The bytes a block counts for in [used_mem]. *)
Definition block_size (h : Heap) (p : loc) : Z :=
  match get_data_size h p with Ok n => tag_size h + n | _ => 0 end.

Definition marked_in (m : Mem) (p : loc) : bool :=
  match m !! p with Some b => marked (tag b) | None => false end.

Lemma get_data_size_ok h p b :
  mem h !! p = Some b → block_ok (classes h) b → ∃ n, get_data_size h p = Ok n.
Proof.
  intros Hp Hok. unfold get_data_size, deref. rewrite Hp. cbn. rewrite (view_ok _ _ Hok). cbn.
  destruct Hok as [_ Hc]. destruct (data b); cbn; try by eexists.
  destruct (Hc _ eq_refl) as (c & Hcs & _). unfold heap_class_size, get_class_size, get_class.
  rewrite Hcs. by eexists.
Qed.

Lemma get_data_size_frame u al h m p :
  m !! p = mem h !! p → get_data_size (set_allocated u al m h) p = get_data_size h p.
Proof. unfold get_data_size, deref. cbn. by intros ->. Qed.

Lemma sweep_item_ok h kept p b :
  mem h !! p = Some b → block_ok (classes h) b →
  sweep_item (h, kept) p =
    Ok (set_allocated (used_mem h - (if marked (tag b) then 0 else block_size h p)) (alloc_list h)
          (if marked (tag b) then <[p := set_marked false b]> (mem h) else delete p (mem h)) h,
        kept ++ (if marked (tag b) then [p] else [])).
Proof.
  intros Hb Hok. unfold sweep_item, deref. rewrite Hb. cbn [mbind comp_bind].
  destruct (marked (tag b)); [by rewrite Z.sub_0_r|].
  destruct (get_data_size_ok _ _ _ Hb Hok) as [n Hn]. unfold block_size. rewrite Hn.
  by rewrite app_nil_r.
Qed.

Lemma sweep_items L h kept :
  NoDup L → (∀ p, p ∈ L → ∃ b, mem h !! p = Some b ∧ block_ok (classes h) b) →
  ∃ m, foldM sweep_item (h, kept) L =
      Ok (set_allocated (used_mem h - sum_over (λ p, if marked_in (mem h) p then 0 else block_size h p) L)
            (alloc_list h) m h, kept ++ base.filter (λ p, marked_in (mem h) p = true) L) ∧
    (∀ p, p ∈ L → m !! p = match mem h !! p with
                            | Some b => if marked (tag b) then Some (set_marked false b) else None
                            | None => None
                            end) ∧
    (∀ p, p ∉ L → m !! p = mem h !! p).
Proof.
  revert h kept. induction L as [|p L IH]; intros h kept Hnd HL.
  { exists (mem h). cbn. rewrite Z.sub_0_r, app_nil_r. split; [by destruct h|].
    split; [by intros p Hp%elem_of_nil|done]. }
  apply NoDup_cons in Hnd as [Hp Hnd]. destruct (HL p ltac:(by left)) as (b & Hb & Hok).
  assert (∃ u m1, foldM sweep_item (h, kept) (p :: L) =
            foldM sweep_item (set_allocated u (alloc_list h) m1 h,
              kept ++ (if marked (tag b) then [p] else [])) L ∧
          u = used_mem h - (if marked (tag b) then 0 else block_size h p) ∧
          m1 !! p = (if marked (tag b) then Some (set_marked false b) else None) ∧
          (∀ q, q ≠ p → m1 !! q = mem h !! q)) as (u & m1 & -> & -> & Hm1p & Hm1).
  { cbn [foldM]. rewrite (sweep_item_ok _ _ _ _ Hb Hok). cbn [mbind comp_bind].
    do 2 eexists. split; [reflexivity|]. split; [done|].
    destruct (marked (tag b)); rewrite ?lookup_insert_eq, ?lookup_delete_eq; (split; [done|]);
      intros q Hq; by rewrite ?lookup_insert_ne, ?lookup_delete_ne by done. }
  set (h1 := set_allocated _ _ _ _).
  assert (∀ q, q ∈ L → mem h1 !! q = mem h !! q) as Hsame by (intros q Hq; apply Hm1; by intros ->).
  destruct (IH h1 (kept ++ (if marked (tag b) then [p] else [])) Hnd) as (m & Hf & Hin & Hout).
  { intros q Hq. rewrite Hsame by done. apply HL. by right. }
  exists m. split; [|split].
  - rewrite Hf. unfold h1. cbn [classes used_mem alloc_list set_allocated mem].
    rewrite (filter_ext_in (λ q, marked_in m1 q = true) (λ q, marked_in (mem h) q = true))
      by (intros q Hq; unfold marked_in; pose proof (Hsame q Hq) as E; cbn in E; by rewrite E).
    rewrite (sum_over_ext _ (λ q, if marked_in (mem h) q then 0 else block_size h q) L).
    2:{ intros q Hq. unfold marked_in, block_size. rewrite get_data_size_frame by (by apply Hsame).
        pose proof (Hsame q Hq) as E. cbn in E. by rewrite E. }
    assert (marked_in (mem h) p = marked (tag b)) as Hmp by (unfold marked_in; by rewrite Hb).
    rewrite sum_over_cons, filter_cons, Hmp, <- app_assoc.
    f_equal. f_equal; [unfold set_allocated; cbn; f_equal; lia|]. f_equal.
    by destruct (marked (tag b)).
  - intros q [->|Hq]%elem_of_cons; [|by rewrite Hin, Hsame].
    rewrite Hout by done. unfold h1. cbn. by rewrite Hm1p, Hb.
  - intros q [Hqp Hq]%not_elem_of_cons. rewrite Hout by done. by apply Hm1.
Qed.
End sweep.

(** ** The collector *)

Section gc.
Context `{Rust}.

(** The heap between two operations of the runtime: the blocks of the
    allocation list are those the runtime allocated, none is marked, what is
    not in the list is a static string, and [used_mem] is the memory they
    take. *)
Record heap_wf (h : Heap) : Prop := {
  wf_f64 : f64_ok (f64_allocator h);
  wf_nodup : NoDup (alloc_list h);
  wf_alloc p : p ∈ alloc_list h → ∃ b, mem h !! p = Some b ∧ marked (tag b) = false;
  wf_static p b : mem h !! p = Some b → p ∉ alloc_list h → is_string b;
  wf_blocks p b : mem h !! p = Some b → block_ok (classes h) b;
  wf_used : used_mem h = sum_over (block_size h) (alloc_list h)
}.

(** No dangling pointer can be reached, and the floats are current. *)
Record closed (h : Heap) : Prop := {
  closed_ptrs p : reachable h p → valid h p;
  closed_f64s p b i q : reachable h p → mem h !! p = Some b →
    View.slots (data b) !! i = Some (Some (Any.F64 q)) → in_current (f64_allocator h) q
}.

(** What a value stands for: its floats are read. *)
Definition resolve (a : F64Allocator) (v : AnyEnum) : AnyEnum + option f64 :=
  match v with Any.F64 p => inr (F64.read a p) | v => inl v end.

(** [h'] is [h] after a collection. *)
Record collected (h h' : Heap) : Prop := {
  col_frame : classes h' = classes h ∧ shadow_stack h' = shadow_stack h ∧ size h' = size h ∧
    tag_size h' = tag_size h;
  col_alloc p : p ∈ alloc_list h' ↔ p ∈ alloc_list h ∧ reachable h p;
  col_kept p b : mem h !! p = Some b → p ∉ alloc_list h ∨ reachable h p →
    ∃ b', mem h' !! p = Some b' ∧ type_tag (tag b') = type_tag (tag b) ∧
      class_tag (tag b') = class_tag (tag b) ∧
      resolve (f64_allocator h') <$> data b' = resolve (f64_allocator h) <$> data b;
  col_freed p : p ∈ alloc_list h → ¬ reachable h p → mem h' !! p = None;
  col_new p : is_Some (mem h' !! p) → is_Some (mem h !! p);
  col_wf : heap_wf h';
  col_closed : closed h';
  col_fit : floats_fit h';
  col_next : ∃ l, NoDup l ∧ Forall (reachable h) l ∧
    F64.next_slot (f64_allocator h') = sum_over (f64s_at h) l
}.

Lemma moved_resolve a a' v w : moved a a' v w → resolve a' w = resolve a v.
Proof. destruct v; cbn; [by intros ->| |by intros ->..]. intros (q & x & -> & _ & Hp & Hq). cbn. congruence. Qed.

Lemma moved_slots_resolve a a' (v v' : HeapRefView) :
  shape v' = shape v → Forall2 (moved_slot a a') (View.slots v) (View.slots v') →
  resolve a' <$> v' = resolve a <$> v.
Proof.
  intros Hs Hm. apply fmap_shape_slots; [done|]. apply Forall2_flip.
  eapply Forall2_impl; [exact Hm|]. intros o o' Ho. destruct Ho; cbn; [|done].
  by erewrite moved_resolve.
Qed.

Lemma moved_slots_values a a' (v v' : HeapRefView) {A} (f : AnyEnum → list A) :
  (∀ x y, moved a a' x y → f y = f x) →
  Forall2 (moved_slot a a') (View.slots v) (View.slots v') →
  map f (slot_values v') = map f (slot_values v).
Proof.
  intros Hf Hm. unfold slot_values. induction Hm as [|o o' l l' Ho _ IH]; [done|]. cbn. f_equal; [|done].
  destruct Ho; cbn; auto.
Qed.

Lemma other_ptrs_shape cs t (v v' : HeapRefView) : shape v' = shape v → other_ptrs cs t v' = other_ptrs cs t v.
Proof. unfold shape. destruct v, v'; intros Hs; cbn in *; try discriminate Hs; congruence. Qed.

Lemma block_ptrs_moved cs a a' b b' :
  class_tag (tag b') = class_tag (tag b) → shape (data b') = shape (data b) →
  Forall2 (moved_slot a a') (View.slots (data b)) (View.slots (data b')) →
  block_ptrs cs b' = block_ptrs cs b.
Proof.
  intros Ht Hs Hm. unfold block_ptrs, values_ptrs. rewrite Ht. f_equal; [|by apply other_ptrs_shape].
  f_equal. apply (moved_slots_values a a'); [|done].
  intros x y. destruct x; cbn; [by intros ->| |by intros ->..]. by intros (q & x & -> & _).
Qed.

Lemma f64_indices_length i l : length (f64_indices i l) =
  length (concat (map (λ a, match a with Any.F64 _ => [tt] | _ => [] end) l)).
Proof. revert i. induction l as [|a l IH]; intros i; cbn; [done|]. destruct a; cbn; auto. Qed.

Lemma block_f64s_moved a a' b b' :
  Forall2 (moved_slot a a') (View.slots (data b)) (View.slots (data b')) → block_f64s b' = block_f64s b.
Proof.
  intros Hm. unfold block_f64s. rewrite !f64_indices_length. do 3 f_equal.
  apply (moved_slots_values a a'); [|done].
  intros x y. destruct x; cbn; [by intros ->| |by intros ->..]. by intros (q & x & -> & _).
Qed.

Lemma shape_type_tag (v v' : HeapRefView) : shape v' = shape v → View.type_tag v' = View.type_tag v.
Proof. unfold shape. destruct v, v'; intros Hs; cbn in *; congruence. Qed.

Lemma block_ok_moved cs b b' :
  type_tag (tag b') = type_tag (tag b) → class_tag (tag b') = class_tag (tag b) →
  shape (data b') = shape (data b) → block_ok cs b → block_ok cs b'.
Proof.
  intros Ht Hc Hs [H1 H2]. split; [rewrite Ht, H1; symmetry; by apply shape_type_tag|].
  intros l Hl. rewrite Hl in Hs. rewrite Hc. unfold shape in Hs. cbn in Hs.
  destruct (data b) as [| | | |l'| | | | |] eqn:Hd; try discriminate Hs.
  destruct (H2 l' eq_refl) as (c & ? & Hsz). exists c. split; [done|]. rewrite Hsz.
  injection Hs as Hs%(f_equal length). rewrite !length_map in Hs. lia.
Qed.

(** The heap right after the spaces are swapped. *)
Definition swapped (h : Heap) : Heap := set_f64_allocator (F64.semispace_swap (f64_allocator h)) h.

Lemma swapped_reachable h p : reachable (swapped h) p ↔ reachable h p.
Proof. split; induction 1; [by apply reachable_root| by eapply reachable_step..| by apply reachable_root|by eapply reachable_step]. Qed.

Lemma read_swap a p : F64.read (F64.semispace_swap a) p = F64.read a p.
Proof. unfold F64.read. cbn. by destruct (space p), (F64.current_box a). Qed.

Lemma moved_swap a a' v w : moved (F64.semispace_swap a) a' v w → moved a a' v w.
Proof. destruct v; cbn; try done. intros (q & x & ?). rewrite read_swap in *. by exists q, x. Qed.

Lemma view_data_size_shape h h' t (v v' : HeapRefView) :
  classes h' = classes h → shape v' = shape v → view_data_size h' t v' = view_data_size h t v.
Proof.
  unfold shape, view_data_size, heap_class_size. intros -> Hs.
  destruct v, v'; cbn in *; try discriminate Hs; try reflexivity; try congruence.
  injection Hs as Hs%(f_equal length) _. rewrite !length_map in Hs. by rewrite Hs.
Qed.

Lemma block_size_moved h h' p b b' :
  mem h !! p = Some b → mem h' !! p = Some b' → block_ok (classes h) b →
  type_tag (tag b') = type_tag (tag b) → class_tag (tag b') = class_tag (tag b) →
  shape (data b') = shape (data b) → classes h' = classes h → tag_size h' = tag_size h →
  block_size h' p = block_size h p.
Proof.
  intros Hb Hb' Hok Ht Hc Hs Hcs Hts. unfold block_size, get_data_size, deref. rewrite Hb, Hb'. cbn.
  rewrite (view_ok _ _ Hok), (view_ok (classes h) b') by (by eapply block_ok_moved). cbn.
  by rewrite Hts, Hc, (view_data_size_shape h h' _ _ _ Hcs Hs).
Qed.

Lemma sum_over_filter {A} (m : A → bool) (f g k : A → Z) l :
  (∀ x, x ∈ l → f x = if m x then k x else g x) →
  sum_over f l - sum_over (λ x, if m x then 0 else g x) l =
  sum_over k (base.filter (λ x, m x = true) l).
Proof.
  induction l as [|x l IH]; intros Hl; [done|]. rewrite filter_cons, !sum_over_cons.
  pose proof (Hl x ltac:(by left)) as Hx. specialize (IH ltac:(intros; apply Hl; by right)).
  destruct (m x); [rewrite decide_True, sum_over_cons by done|rewrite decide_False by done]; lia.
Qed.

Section main.
Context (h : Heap) (Hwf : heap_wf h) (Hclosed : closed h) (Hfit : floats_fit h).

Lemma swapped_f64_ok : f64_ok (f64_allocator (swapped h)).
Proof. destruct (wf_f64 _ Hwf). split; cbn; [done|done|]. unfold F64.LEN. lia. Qed.
Lemma swapped_fit : floats_fit (swapped h).
Proof.
  intros l Hl Hr. apply Hfit; [done|]. eapply Forall_impl; [done|]. intros p. by rewrite swapped_reachable.
Qed.
Lemma swapped_reach p : reachable (swapped h) p →
  ∃ b, mem (swapped h) !! p = Some b ∧ block_ok (classes (swapped h)) b ∧
    ∀ i q, View.slots (data b) !! i = Some (Some (Any.F64 q)) → in_other (f64_allocator (swapped h)) q.
Proof.
  rewrite swapped_reachable. intros Hp. destruct (closed_ptrs _ Hclosed p Hp) as [b Hb].
  exists b. split; [done|]. split; [by apply (wf_blocks _ Hwf p)|]. intros i q Hq.
  destruct (closed_f64s _ Hclosed p b i q Hp Hb Hq) as [Hs Hr].
  pose proof (f64_next _ (wf_f64 _ Hwf)). split; cbn; [|lia].
  rewrite Hs. by destruct (F64.current_box (f64_allocator h)).
Qed.
Lemma alloc_unmarked p b : p ∈ alloc_list h → mem h !! p = Some b → marked (tag b) = false.
Proof. intros Hp Hb. destruct (wf_alloc _ Hwf p Hp) as (b' & ? & ?). congruence. Qed.
Lemma swapped_marked p b : mem (swapped h) !! p = Some b → marked (tag b) = true → is_string b.
Proof.
  intros Hb Hm. destruct (decide (p ∈ alloc_list h)) as [Hp|Hp].
  - pose proof (alloc_unmarked p b Hp Hb). congruence.
  - by eapply wf_static.
Qed.

(** The marked heap. *)
Lemma mark_phase_ok : ∃ h1 visited, mark_phase h (roots h) = Ok h1 ∧
  mark_inv (swapped h) h1 visited ∧ (∀ p, p ∈ alloc_list h → p ∈ visited ↔ reachable h p) ∧
  (∀ p, p ∈ visited → reachable h p).
Proof.
  destruct (mark_loop_ok (swapped h) swapped_fit swapped_reach (mark_fuel h) (swapped h) [] (roots h))
    as (h1 & visited & Hm & Hi & Hc).
  - apply mark_inv_start; eauto using swapped_f64_ok, swapped_fit, swapped_reach, swapped_marked.
  - apply Forall_forall. intros p Hp. apply swapped_reachable. by apply reachable_root.
  - intros q [Hq|(p & b & []%elem_of_nil & _)]. by right.
  - unfold mark_fuel. cbn. lia.
  - exists h1, visited. split; [done|]. split; [done|].
    assert (∀ p, p ∈ visited → reachable h p) as Hvr.
    { intros p Hv. apply swapped_reachable. pose proof (inv_reachable _ _ _ Hi) as Hf.
      rewrite Forall_forall in Hf. by apply Hf. }
    split; [|done]. intros p Hp. split; [apply Hvr|]. intros Hr.
    destruct (covered_all (swapped h) swapped_marked visited p Hc) as [?|(b & Hb & Hmk)]; [by apply swapped_reachable|done|].
    pose proof (alloc_unmarked p b Hp Hb). congruence.
Qed.

(** The block [p] of the marked heap. *)
Lemma marked_heap_block h1 visited p b :
  mark_inv (swapped h) h1 visited → mem h !! p = Some b →
  ∃ b1, mem h1 !! p = Some b1 ∧ type_tag (tag b1) = type_tag (tag b) ∧
    class_tag (tag b1) = class_tag (tag b) ∧ shape (data b1) = shape (data b) ∧
    (p ∈ visited → marked (tag b1) = true ∧
       Forall2 (moved_slot (f64_allocator h) (f64_allocator h1)) (View.slots (data b)) (View.slots (data b1))) ∧
    (p ∉ visited → b1 = b).
Proof.
  intros Hi Hb. destruct (decide (p ∈ visited)) as [Hv|Hv].
  - destruct (inv_visited _ _ _ Hi p Hv) as (b0 & b1 & Hb0 & _ & Hb1 & Ht & Hs & Hm).
    cbn in Hb0. simplify_eq. exists b1. rewrite Ht. repeat (split; [done|]). split; [|done].
    intros _. split; [done|]. eapply Forall2_impl; [exact Hm|].
    intros o o' Ho. destruct Ho; constructor. by apply moved_swap.
  - exists b. rewrite (inv_others _ _ _ Hi p Hv). by repeat (split; [done|]).
Qed.

Lemma marked_heap_domain h1 visited p :
  mark_inv (swapped h) h1 visited → is_Some (mem h1 !! p) → is_Some (mem h !! p).
Proof.
  intros Hi [b1 Hb1]. destruct (decide (p ∈ visited)) as [Hv|Hv].
  - destruct (inv_visited _ _ _ Hi p Hv) as (b & _ & Hb & _). by exists b.
  - rewrite (inv_others _ _ _ Hi p Hv) in Hb1. by exists b1.
Qed.

(** The heap after the sweep, block by block. *)
Definition kept_block (h' : Heap) (p : loc) (b b' : block) : Prop :=
  type_tag (tag b') = type_tag (tag b) ∧ class_tag (tag b') = class_tag (tag b) ∧
  shape (data b') = shape (data b) ∧
  Forall2 (moved_slot (f64_allocator h) (f64_allocator h')) (View.slots (data b)) (View.slots (data b')) ∧
  (p ∈ alloc_list h → marked (tag b') = false).

Record gc_result (h' : Heap) : Prop := {
  res_frame : classes h' = classes h ∧ shadow_stack h' = shadow_stack h ∧ size h' = size h ∧
    tag_size h' = tag_size h;
  res_f64 : f64_ok (f64_allocator h');
  res_next : ∃ l, NoDup l ∧ Forall (reachable h) l ∧
    F64.next_slot (f64_allocator h') = sum_over (f64s_at h) l;
  res_alloc p : p ∈ alloc_list h' ↔ p ∈ alloc_list h ∧ reachable h p;
  res_nodup : NoDup (alloc_list h');
  res_kept p b : mem h !! p = Some b → p ∉ alloc_list h ∨ reachable h p →
    ∃ b', mem h' !! p = Some b' ∧ kept_block h' p b b';
  res_freed p : p ∈ alloc_list h → ¬ reachable h p → mem h' !! p = None;
  res_new p : is_Some (mem h' !! p) → is_Some (mem h !! p);
  res_used : used_mem h' = sum_over (block_size h') (alloc_list h')
}.

Lemma gc_blocks : ∃ h', gc h = Ok h' ∧ gc_result h'.
Proof.
  destruct mark_phase_ok as (h1 & visited & Hmark & Hi & Hvis & Hvr).
  pose proof (inv_frame _ _ _ Hi) as (a & m1 & Hh1).
  assert (∀ p, p ∈ alloc_list h → marked_in (mem h1) p = true ↔ reachable h p) as Hmk.
  { intros p Hp. rewrite <- Hvis by done. destruct (wf_alloc _ Hwf p Hp) as (b & Hb & Hm).
    destruct (marked_heap_block h1 visited p b Hi Hb) as (b1 & Hb1 & _ & _ & _ & Hy & Hn).
    unfold marked_in. rewrite Hb1. destruct (decide (p ∈ visited)) as [Hv|Hv].
    - by destruct (Hy Hv) as [-> _].
    - rewrite (Hn Hv), Hm. split; [done|]. by intros ?. }
  destruct (sweep_items (alloc_list h) h1 [] (wf_nodup _ Hwf)) as (m & Hsweep & Hin & Hout).
  { intros p Hp. destruct (wf_alloc _ Hwf p Hp) as (b & Hb & _).
    destruct (marked_heap_block h1 visited p b Hi Hb) as (b1 & Hb1 & ? & ? & ? & _).
    exists b1. split; [done|]. rewrite Hh1. cbn. eapply block_ok_moved; try done. by eapply wf_blocks. }
  set (kept := base.filter (λ p, marked_in (mem h1) p = true) (alloc_list h)) in *.
  assert (alloc_list h1 = alloc_list h) as Hal by (by rewrite Hh1).
  eexists. split.
  { unfold gc. rewrite Hmark. cbn [mbind comp_bind]. unfold sweep_phase. rewrite Hal, Hsweep. reflexivity. }
  match goal with |- gc_result ?x => set (h' := x) end.
  assert (∀ p b, mem h !! p = Some b → p ∉ alloc_list h ∨ reachable h p →
    ∃ b', mem h' !! p = Some b' ∧ kept_block h' p b b') as Hkept.
  { intros p b Hb Hpr. destruct (marked_heap_block h1 visited p b Hi Hb) as (b1 & Hb1 & Ht & Hc & Hs & Hy & Hn).
    destruct (decide (p ∈ alloc_list h)) as [Hp|Hp].
    - destruct Hpr as [?|Hr]; [done|]. apply Hvis in Hr; [|done]. destruct (Hy Hr) as [Hm1 Hmv].
      exists (set_marked false b1). cbn. rewrite Hin, Hb1, Hm1 by done. split; [done|].
      by repeat (split; [done|]).
    - exists b1. cbn. rewrite Hout by done. split; [done|]. repeat (split; [done|]). split; [|done].
      destruct (decide (p ∈ visited)) as [Hv|Hv]; [by destruct (Hy Hv)|]. rewrite (Hn Hv).
      destruct (wf_static _ Hwf p b Hb Hp) as [s ->]. cbn. constructor. }
  assert (∀ p, p ∈ kept ↔ p ∈ alloc_list h ∧ reachable h p) as Hk.
  { intros p. unfold kept. rewrite list_elem_of_filter. split; intros [? ?]; (split; [|try done]);
      try (by apply Hmk); done. }
  split; cbn; try done.
  - by rewrite Hh1.
  - apply (inv_f64 _ _ _ Hi).
  - exists visited. split; [apply (inv_nodup _ _ _ Hi)|]. split; [|apply (inv_next _ _ _ Hi)].
    apply Forall_forall, Hvr.
  - apply NoDup_filter, (wf_nodup _ Hwf).
  - intros p Hp Hr. rewrite Hin by done. destruct (wf_alloc _ Hwf p Hp) as (b & Hb & _).
    rewrite <- Hmk in Hr by done. unfold marked_in in Hr. destruct (mem h1 !! p) as [b1|]; [|done].
    by destruct (marked (tag b1)).
  - intros p Hp. destruct (decide (p ∈ alloc_list h)) as [Ha|Ha].
    + destruct (wf_alloc _ Hwf p Ha) as (b & -> & _). by exists b.
    + rewrite Hout in Hp by done. by eapply marked_heap_domain.
  - rewrite Hh1 at 1. cbn. rewrite (wf_used _ Hwf). apply sum_over_filter. intros p Hp.
    destruct (wf_alloc _ Hwf p Hp) as (b & Hb & _). pose proof (wf_blocks _ Hwf p b Hb) as Hbok.
    pose proof (Hmk p Hp) as Hm. symmetry. destruct (marked_in (mem h1) p).
    + destruct (Hkept p b Hb (or_intror (proj1 Hm eq_refl))) as (b' & Hb' & ? & ? & ? & _).
      eapply block_size_moved; try done; cbn; by rewrite Hh1.
    + destruct (marked_heap_block h1 visited p b Hi Hb) as (b1 & Hb1 & ? & ? & ? & _).
      eapply block_size_moved; try done; cbn; by rewrite Hh1.
Qed.

Lemma res_roots h' : gc_result h' → roots h' = roots h.
Proof. intros Hr. unfold roots. by destruct (res_frame _ Hr) as (_ & -> & _). Qed.

(** A reachable block and what became of it. *)
Lemma res_reachable h' p : gc_result h' → reachable h p →
  ∃ b b', mem h !! p = Some b ∧ mem h' !! p = Some b' ∧ kept_block h' p b b'.
Proof.
  intros Hr Hp. destruct (closed_ptrs _ Hclosed p Hp) as [b Hb].
  destruct (res_kept _ Hr p b Hb (or_intror Hp)) as (b' & Hb' & Hk). by exists b, b'.
Qed.

Lemma kept_block_ptrs h' p b b' :
  gc_result h' → kept_block h' p b b' → block_ptrs (classes h') b' = block_ptrs (classes h) b.
Proof.
  intros Hr (_ & Hc & Hs & Hm & _). destruct (res_frame _ Hr) as (-> & _).
  by eapply block_ptrs_moved.
Qed.

Lemma gc_reachable h' p : gc_result h' → reachable h' p ↔ reachable h p.
Proof.
  intros Hr. split.
  - induction 1 as [p Hp|p b' q Hp IH Hb' Hq].
    + apply reachable_root. by rewrite <- (res_roots h').
    + destruct (res_reachable h' p Hr IH) as (b & b0 & Hb & Hb0 & Hk). simplify_eq.
      eapply reachable_step; [done|done|]. by rewrite <- (kept_block_ptrs h' p b b').
  - induction 1 as [p Hp|p b q Hp IH Hb Hq].
    + apply reachable_root. by rewrite (res_roots h').
    + destruct (res_reachable h' p Hr Hp) as (b0 & b' & Hb0 & Hb' & Hk). simplify_eq.
      eapply reachable_step; [done|done|]. by rewrite (kept_block_ptrs h' p b b').
Qed.

Lemma gc_kept_cases h' p b' :
  gc_result h' → mem h' !! p = Some b' → ∃ b, mem h !! p = Some b ∧ kept_block h' p b b'.
Proof.
  intros Hr Hb'. destruct (res_new _ Hr p ltac:(by exists b')) as [b Hb]. exists b. split; [done|].
  assert (p ∉ alloc_list h ∨ reachable h p) as Hp.
  { destruct (decide (p ∈ alloc_list h)) as [Ha|]; [right|by left].
    destruct (decide (p ∈ alloc_list h')) as [Ha'|Ha']; [by apply (res_alloc _ Hr) in Ha' as [_ ?]|].
    (* it is in memory, hence was not freed *)
    destruct (mark_phase_ok) as (h1 & visited & _ & _ & Hv & _).
    destruct (decide (p ∈ visited)) as [?|Hn]; [by apply Hv|].
    exfalso. rewrite (res_freed _ Hr p Ha) in Hb'; [done|]. by rewrite <- Hv. }
  destruct (res_kept _ Hr p b Hb Hp) as (b0 & Hb0 & Hk). by simplify_eq.
Qed.

Lemma gc_wf h' : gc_result h' → heap_wf h'.
Proof.
  intros Hr. split.
  - apply (res_f64 _ Hr).
  - apply (res_nodup _ Hr).
  - intros p [Ha Hp]%(res_alloc _ Hr). destruct (res_reachable h' p Hr Hp) as (b & b' & _ & Hb' & Hk).
    exists b'. split; [done|]. by apply Hk.
  - intros p b' Hb' Ha. destruct (gc_kept_cases h' p b' Hr Hb') as (b & Hb & _ & _ & Hs & _).
    destruct (wf_static _ Hwf p b Hb) as [s Hd].
    { intros Hp. apply Ha, (res_alloc _ Hr). split; [done|].
      destruct mark_phase_ok as (h1 & visited & _ & _ & Hv & _).
      destruct (decide (p ∈ visited)) as [?|Hn]; [by apply Hv|].
      rewrite (res_freed _ Hr p Hp) in Hb'; [done|]. by rewrite <- Hv. }
    rewrite Hd in Hs. unfold is_string. unfold shape in Hs. destruct (data b'); try discriminate Hs. by eexists.
  - intros p b' Hb'. destruct (gc_kept_cases h' p b' Hr Hb') as (b & Hb & ? & ? & ? & _).
    destruct (res_frame _ Hr) as (-> & _). eapply block_ok_moved; try done. by eapply wf_blocks.
  - apply (res_used _ Hr).
Qed.

Lemma gc_closed h' : gc_result h' → closed h'.
Proof.
  intros Hr. split.
  - intros p Hp%(gc_reachable h' p Hr). destruct (res_reachable h' p Hr Hp) as (? & b' & _ & Hb' & _).
    by exists b'.
  - intros p b' i q Hp%(gc_reachable h' p Hr) Hb' Hq.
    destruct (res_reachable h' p Hr Hp) as (b & b0 & Hb & Hb0 & _ & _ & _ & Hm & _). simplify_eq.
    destruct (Forall2_lookup_r _ _ _ _ _ Hm Hq) as (o & Ho & Hmv).
    inversion Hmv as [v w Hvw|]; subst. destruct v; cbn in Hvw; try discriminate Hvw.
    destruct Hvw as (q' & x & [= <-] & ? & _). done.
Qed.

Lemma gc_fit h' : gc_result h' → floats_fit h'.
Proof.
  intros Hr l Hl Hf. rewrite (sum_over_ext _ (f64s_at h)).
  - apply Hfit; [done|]. eapply Forall_impl; [done|]. intros p. by apply gc_reachable.
  - intros p Hp. rewrite Forall_forall in Hf. apply Hf, (gc_reachable h' p Hr) in Hp.
    destruct (res_reachable h' p Hr Hp) as (b & b' & Hb & Hb' & _ & _ & _ & Hm & _).
    unfold f64s_at. rewrite Hb, Hb'. by eapply block_f64s_moved.
Qed.

Lemma gc_result_collected h' : gc_result h' → collected h h'.
Proof.
  intros Hr. split; try apply Hr.
  - intros p b Hb Hp. destruct (res_kept _ Hr p b Hb Hp) as (b' & Hb' & ? & ? & ? & ? & _).
    exists b'. repeat (split; [done|]). by apply moved_slots_resolve.
  - by apply gc_wf.
  - by apply gc_closed.
  - by apply gc_fit.
Qed.

Lemma gc_collected : ∃ h', gc h = Ok h' ∧ collected h h'.
Proof.
  destruct gc_blocks as (h' & ? & ?). exists h'. split; [done|]. by apply gc_result_collected.
Qed.
End main.
End gc.

(** C1: on a well-formed heap whose reachable pointers are valid and whose
    reachable floats fit in a space, the collector terminates without a
    panic; it removes from the allocation list exactly the blocks that
    cannot be reached from the shadow stack, and frees them; every other
    block keeps its tag and its contents, floats included (they moved to the
    other space, and read the same); marks are cleared, the memory accounting
    is exact, and the new heap can be collected again. *)
Theorem gc_correct `{Rust} (h : Heap) :
  heap_wf h → closed h → floats_fit h → ∃ h', gc h = Ok h' ∧ collected h h'.
Proof. apply gc_collected. Qed.

(** ** Checking the hypotheses on a concrete heap *)

Definition is_stringb (b : block) : bool := match data b with View.String _ => true | _ => false end.
Definition block_okb (cs : list (Class (K := loc))) (b : block) : bool :=
  bool_decide (type_tag (tag b) = View.type_tag (data b)) &&
  match data b with
  | View.Class l =>
      match cs !! Z.to_nat (class_tag (tag b)) with
      | Some c => ClassList.size c =? Z.of_nat (length l)
      | None => false
      end
  | _ => true
  end.
Definition slot_okb (a : F64Allocator) (o : option AnyEnum) : bool :=
  match o with
  | Some (Any.F64 p) => eqb (space p) (F64.current_box a) && (0 <=? slot p) && (slot p <? F64.next_slot a)
  | _ => true
  end.

Section check.
Context `{Rust}.

Definition wf_check (h : Heap) : bool :=
  let a := f64_allocator h in
  (Z.of_nat (length (F64.current_space a)) =? F64.LEN) && (Z.of_nat (length (F64.other_space a)) =? F64.LEN) &&
  (0 <=? F64.next_slot a) && (F64.next_slot a <=? F64.LEN) &&
  bool_decide (NoDup (alloc_list h)) &&
  forallb (λ p, match mem h !! p with Some b => negb (marked (tag b)) | None => false end) (alloc_list h) &&
  forallb (λ e, (bool_decide (e.1 ∈ alloc_list h) || is_stringb e.2) && block_okb (classes h) e.2)
    (map_to_list (mem h)) &&
  (used_mem h =? sum_over (block_size h) (alloc_list h)).

(** [live] contains the roots and is closed under pointers. *)
Definition closed_check (h : Heap) (live : list loc) : bool :=
  forallb (λ p, bool_decide (p ∈ live)) (roots h) &&
  forallb (λ p, match mem h !! p with
                | Some b => forallb (λ q, bool_decide (q ∈ live)) (block_ptrs (classes h) b) &&
                            forallb (slot_okb (f64_allocator h)) (View.slots (data b))
                | None => false
                end) live.

Lemma block_okb_spec cs b : block_okb cs b = true → block_ok cs b.
Proof.
  unfold block_okb. intros [Ht Hd]%andb_true_iff. apply bool_decide_eq_true in Ht. split; [done|].
  intros l Hl. rewrite Hl in Hd. destruct (cs !! _) as [c|]; [|done]. exists c. split; [done|]. lia.
Qed.

Lemma wf_check_sound h : wf_check h = true → heap_wf h.
Proof.
  unfold wf_check. rewrite !andb_true_iff, !Z.eqb_eq, !Z.leb_le, bool_decide_eq_true.
  intros [[[[[[[H1 H2] H3] H4] Hnd] Hal] Hm] Hu]. rewrite forallb_forall in Hal, Hm.
  split; try done.
  - split; lia.
  - intros p Hp. specialize (Hal p (proj1 (list_elem_of_In _ _) Hp)).
    destruct (mem h !! p) as [b|]; [|done]. exists b. split; [done|]. by apply negb_true_iff.
  - intros p b Hb Hp. specialize (Hm (p, b)). rewrite <- list_elem_of_In, elem_of_map_to_list in Hm.
    apply Hm, andb_true_iff in Hb as [[Hb|Hb]%orb_true_iff _].
    + by apply bool_decide_eq_true in Hb.
    + unfold is_stringb, is_string in *. cbn in Hb. destruct (data b); try done. by eexists.
  - intros p b Hb. specialize (Hm (p, b)). rewrite <- list_elem_of_In, elem_of_map_to_list in Hm.
    apply Hm, andb_true_iff in Hb as [_ Hb]. by apply block_okb_spec.
Qed.

Lemma closed_check_reachable h live p : closed_check h live = true → reachable h p → p ∈ live.
Proof.
  unfold closed_check. rewrite andb_true_iff, !forallb_forall. intros [Hr Hl].
  induction 1 as [p Hp|p b q Hp IH Hb Hq].
  - apply (bool_decide_eq_true_1 _). by apply Hr, list_elem_of_In.
  - apply list_elem_of_In, Hl in IH. rewrite Hb in IH. apply andb_true_iff in IH as [IH _].
    rewrite forallb_forall in IH. apply (bool_decide_eq_true_1 _). by apply IH, list_elem_of_In.
Qed.

Lemma closed_check_sound h live : closed_check h live = true → closed h.
Proof.
  intros Hc. pose proof Hc as Hc'. unfold closed_check in Hc'.
  rewrite andb_true_iff, !forallb_forall in Hc'. destruct Hc' as [_ Hl].
  assert (∀ p, reachable h p → ∃ b, mem h !! p = Some b ∧ ∀ o, o ∈ View.slots (data b) →
            slot_okb (f64_allocator h) o = true) as Hp.
  { intros p Hp. apply (closed_check_reachable h live p Hc), list_elem_of_In, Hl in Hp.
    destruct (mem h !! p) as [b|]; [|done]. exists b. split; [done|].
    apply andb_true_iff in Hp as [_ Hp]. rewrite forallb_forall in Hp. intros o Ho.
    by apply Hp, list_elem_of_In. }
  split.
  - intros p Hr. destruct (Hp p Hr) as (b & Hb & _). by exists b.
  - intros p b i q Hr Hb Hq. destruct (Hp p Hr) as (b' & Hb' & Ho). simplify_eq.
    apply list_elem_of_lookup_2, Ho in Hq. cbn in Hq. rewrite !andb_true_iff in Hq.
    destruct Hq as [[Hs ?] ?]. apply eqb_prop in Hs. split; [done|]. lia.
Qed.

Lemma sum_over_incl {A} (f : A → Z) (l k : list A) :
  (∀ x, 0 <= f x) → NoDup l → l ⊆ k → sum_over f l <= sum_over f k.
Proof.
  intros Hf. revert k. induction l as [|x l IH]; intros k Hnd Hin.
  - clear Hin. induction k as [|y k IHk]; [done|]. rewrite sum_over_cons. specialize (Hf y). cbn in *. lia.
  - apply NoDup_cons in Hnd as [Hx Hnd].
    destruct (list_elem_of_split k x) as (k1 & k2 & ->); [apply Hin; by left|].
    assert (sum_over f (k1 ++ x :: k2) = f x + sum_over f (k1 ++ k2)) as ->.
    { clear. induction k1 as [|y k1 IH]; [done|]. cbn [app]. rewrite !sum_over_cons, IH. lia. }
    rewrite sum_over_cons. enough (sum_over f l <= sum_over f (k1 ++ k2)) by lia.
    apply IH; [done|]. intros y Hy. specialize (Hin y ltac:(by right)).
    rewrite elem_of_app, elem_of_cons in Hin. rewrite elem_of_app.
    destruct Hin as [?|[->|?]]; [by left|done|by right].
Qed.

Lemma fit_check_sound h live :
  closed_check h live = true → sum_over (f64s_at h) live < F64.LEN → floats_fit h.
Proof.
  intros Hc Hs l Hnd Hl. eapply Z.le_lt_trans; [apply (sum_over_incl _ l live)|done]; [|done|].
  - intros p. unfold f64s_at, block_f64s. destruct (mem h !! p); lia.
  - intros p Hp. rewrite Forall_forall in Hl. by eapply closed_check_reachable, Hl.
Qed.
End check.

(** A heap with an array that holds a string, an object and a float, a
    string that cannot be reached, and the array in a frame of the shadow
    stack. *)
Definition sample_heap : rt Heap :=
  let _ := wasm32 in
  let h := push_shadow_frame (new 60) 2 in
  '(f, h) ← f64_to_any h (S754_finite false 3 (-1));
  '(s, h) ← alloc_str_or_gc h "hello";
  '(_, h) ← alloc_str_or_gc h "garbage";
  '(o, h) ← alloc_object_or_gc h 0;
  '(a, h) ← alloc_or_gc h (View.Array [Any.Ptr s; f; Any.Ptr o; Any.I32 7; f]);
  set_any_in_current_shadow_frame_slot h (Any.Ptr a) 1.
Definition sample : Heap := match sample_heap with Ok h => h | _ => new 0 end.

Lemma gc_correct_witness : ∃ h', @gc wasm32 sample = Ok h' ∧ @collected wasm32 sample h'.
Proof.
  apply (@gc_correct wasm32 sample).
  - apply wf_check_sound. vm_compute. reflexivity.
  - apply (closed_check_sound sample [1; 3; 4; 5]). vm_compute. reflexivity.
  - apply (fit_check_sound sample [1; 3; 4; 5]); vm_compute; reflexivity.
Defined.
