(* ===== verification/Alloc.v ===== *)
(** Allocation: the invariant of the heap, what allocating with a collection
    guarantees, and where the collector goes wrong. *)
From Stdlib Require Import SpecFloat.
From S2P Require Import Prelude ClassList Heap Gc.

(** [h'] has what could be reached in [h], with the same contents, and
    nothing else can be reached. *)
Record preserves (h h' : Heap) : Prop := {
  pres_frame : classes h' = classes h ∧ shadow_stack h' = shadow_stack h ∧ size h' = size h ∧
    tag_size h' = tag_size h;
  pres_reachable p : reachable h' p ↔ reachable h p;
  pres_block p b : reachable h p → mem h !! p = Some b →
    ∃ b', mem h' !! p = Some b' ∧ type_tag (tag b') = type_tag (tag b) ∧
      class_tag (tag b') = class_tag (tag b) ∧
      resolve (f64_allocator h') <$> data b' = resolve (f64_allocator h) <$> data b;
  pres_static p b : mem h !! p = Some b → p ∉ alloc_list h →
    ∃ b', mem h' !! p = Some b' ∧ data b' = data b ∧ p ∉ alloc_list h'
}.

#[global] Instance preserves_refl : Reflexive preserves.
Proof. intros h. split; [done|done| |]; intros p b ? ?; exists b; done. Qed.
#[global] Instance preserves_trans : Transitive preserves.
Proof.
  intros h1 h2 h3 H1 H2. split.
  - destruct (pres_frame _ _ H1) as (? & ? & ? & ?), (pres_frame _ _ H2) as (? & ? & ? & ?).
    repeat split; congruence.
  - intros p. by rewrite (pres_reachable _ _ H2), (pres_reachable _ _ H1).
  - intros p b Hp Hb. destruct (pres_block _ _ H1 p b Hp Hb) as (b2 & Hb2 & ? & ? & ?).
    destruct (pres_block _ _ H2 p b2) as (b3 & ? & ? & ? & ?); [by apply (pres_reachable _ _ H1)|done|].
    exists b3. split; [done|]. split; [congruence|]. split; congruence.
  - intros p b Hb Hp. destruct (pres_static _ _ H1 p b Hb Hp) as (b2 & Hb2 & ? & ?).
    destruct (pres_static _ _ H2 p b2) as (b3 & ? & ? & ?); [done|done|].
    exists b3. split; [done|]. split; [congruence|done].
Qed.

Lemma resolve_shape a a' (v v' : HeapRefView) : resolve a' <$> v' = resolve a <$> v → shape v' = shape v.
Proof.
  unfold shape. intros Hr.
  assert (∀ a (v : HeapRefView), (λ _, tt) <$> v = (λ _, tt) <$> (resolve a <$> v)) as He.
  { clear. intros a [s|l|l|x|l|q|l o|i|f|q]; cbn; try done; f_equal; rewrite ?map_map; try done.
    apply map_ext. by intros [x|]. }
  rewrite (He a v), (He a' v'). by rewrite Hr.
Qed.

Lemma resolve_string a a' (v v' : HeapRefView) s :
  resolve a' <$> v' = resolve a <$> v → v = View.String s → v' = v.
Proof. intros Hr ->. by destruct v'; try discriminate Hr; cbn in Hr; simplify_eq. Qed.

Section alloc.
Context `{Rust}.

Lemma collected_preserves h h' : heap_wf h → closed h → collected h h' → preserves h h'.
Proof.
  intros Hwf Hcl Hc. pose proof (col_frame _ _ Hc) as (Hcs & Hss & _ & _).
  assert (∀ p b, reachable h p → mem h !! p = Some b → ∃ b', mem h' !! p = Some b' ∧
            block_ptrs (classes h') b' = block_ptrs (classes h) b) as Hptrs.
  { intros p b Hp Hb. destruct (col_kept _ _ Hc p b Hb (or_intror Hp)) as (b' & Hb' & _ & Ht & Hr).
    exists b'. split; [done|]. rewrite Hcs. unfold block_ptrs. rewrite Ht.
    rewrite (other_ptrs_shape _ _ (data b)) by (by eapply resolve_shape). f_equal.
    unfold values_ptrs, slot_values. clear -Hr. f_equal.
    assert (∀ a v, map (value_ptrs ∘ default Any.Undefined) (View.slots v) =
      map (λ o, match o with Some (inl x) => value_ptrs x | _ => [] end) (View.slots (resolve a <$> v))) as He.
    { clear. intros a [s|l|l|x|l|q|l o|i|f|q]; cbn; try done; rewrite ?map_map.
      1,2,5: apply map_ext; intros; by destruct_and?; match goal with |- context [resolve _ ?x] => destruct x end.
      - by destruct x.
      - apply map_ext. intros [x|]; [by destruct x|done]. }
    rewrite !map_map. etrans; [apply (He (f64_allocator h'))|]. rewrite Hr. symmetry. apply He. }
  split.
  - apply Hc.
  - intros p. split.
    + induction 1 as [p Hp|p b' q Hp IH Hb' Hq].
      * apply reachable_root. unfold roots in *. by rewrite <- Hss.
      * destruct (closed_ptrs _ Hcl p IH) as [b Hb]. destruct (Hptrs p b IH Hb) as (b0 & ? & He). simplify_eq.
        eapply reachable_step; [done|done|]. by rewrite <- He.
    + induction 1 as [p Hp|p b q Hp IH Hb Hq].
      * apply reachable_root. unfold roots in *. by rewrite Hss.
      * destruct (Hptrs p b Hp Hb) as (b' & ? & He). eapply reachable_step; [done|done|]. by rewrite He.
  - intros p b Hp Hb. by apply (col_kept _ _ Hc p b Hb (or_intror Hp)).
  - intros p b Hb Hp. destruct (col_kept _ _ Hc p b Hb (or_introl Hp)) as (b' & Hb' & _ & _ & Hr).
    destruct (wf_static _ Hwf p b Hb Hp) as [s Hs]. exists b'. split; [done|].
    split; [by eapply resolve_string|]. by intros [? _]%(col_alloc _ _ Hc).
Qed.

(** *** Adding a block *)

Definition add_block (h : Heap) (p : loc) (n : Z) (b : block) : Heap :=
  set_allocated (used_mem h + n) (p :: alloc_list h) (<[p := b]> (mem h)) h.

Section add_block.
Context (h : Heap) (Hwf : heap_wf h) (Hcl : closed h) (p : loc) (Hp : mem h !! p = None).
Context (b : block) (Hok : block_ok (classes h) b) (Hm : marked (tag b) = false) (n : Z).

Lemma add_block_reachable q : reachable (add_block h p n b) q ↔ reachable h q.
Proof.
  split.
  - induction 1 as [q Hq|q bq r Hq IH Hbq Hr]; [by apply reachable_root|].
    cbn in Hbq. destruct (closed_ptrs _ Hcl q IH) as [b0 Hb0].
    rewrite lookup_insert_ne in Hbq by congruence. by apply (reachable_step h q bq r).
  - induction 1 as [q Hq|q bq r Hq IH Hbq Hr]; [by apply reachable_root|].
    apply (reachable_step _ q bq r); [done| |done]. cbn. rewrite lookup_insert_ne by congruence. done.
Qed.

Lemma add_block_preserves : preserves h (add_block h p n b).
Proof.
  split; [done|apply add_block_reachable| |].
  - intros q bq _ Hbq. exists bq. cbn. rewrite lookup_insert_ne by congruence. done.
  - intros q bq Hbq Hq. exists bq. cbn. rewrite lookup_insert_ne by congruence.
    split; [done|]. split; [done|]. intros [->|?]%elem_of_cons; [congruence|done].
Qed.

Lemma add_block_closed : closed (add_block h p n b).
Proof.
  split.
  - intros q Hq%add_block_reachable. destruct (closed_ptrs _ Hcl q Hq) as [bq Hbq]. exists bq.
    cbn. by rewrite lookup_insert_ne by congruence.
  - intros q bq i x Hq%add_block_reachable Hbq. destruct (closed_ptrs _ Hcl q Hq) as [b0 Hb0].
    cbn in Hbq. rewrite lookup_insert_ne in Hbq by congruence. by apply (closed_f64s _ Hcl q).
Qed.

Lemma add_block_fit : floats_fit h → floats_fit (add_block h p n b).
Proof.
  intros Hf l Hnd Hl. rewrite Forall_forall in Hl. rewrite (sum_over_ext _ (f64s_at h)).
  - apply Hf; [done|]. apply Forall_forall. intros q Hq. by apply add_block_reachable, Hl.
  - intros q Hq. apply Hl, add_block_reachable in Hq. destruct (closed_ptrs _ Hcl q Hq) as [b0 Hb0].
    unfold f64s_at. cbn. by rewrite lookup_insert_ne by congruence.
Qed.

Lemma add_block_size : block_size (add_block h p n b) p = n → heap_wf (add_block h p n b).
Proof.
  intros Hn. assert (p ∉ alloc_list h) as Hpa.
  { intros Ha. destruct (wf_alloc _ Hwf p Ha) as (? & ? & _). congruence. }
  split; cbn.
  - apply Hwf.
  - constructor; [done|apply Hwf].
  - intros q [->|Hq]%elem_of_cons.
    + exists b. by rewrite lookup_insert_eq.
    + destruct (wf_alloc _ Hwf q Hq) as (bq & Hbq & ?). exists bq. by rewrite lookup_insert_ne by congruence.
  - intros q bq Hbq [Hqp Hq]%not_elem_of_cons. rewrite lookup_insert_ne in Hbq by done. by eapply wf_static.
  - intros q bq. destruct (decide (p = q)) as [->|Hne].
    + rewrite lookup_insert_eq. by intros [= <-].
    + rewrite lookup_insert_ne by done. apply Hwf.
  - change (used_mem h + n = sum_over (block_size (add_block h p n b)) (p :: alloc_list h)).
    rewrite sum_over_cons, Hn. rewrite (sum_over_ext _ (block_size h)).
    { rewrite (wf_used _ Hwf). lia. }
    intros q Hq. unfold block_size, add_block. rewrite get_data_size_frame; [done|].
    rewrite lookup_insert_ne; [done|]. by intros ->.
Qed.
End add_block.

(** *** Allocating, with a collection if needed *)

(** The heap as it is between two calls of the runtime. *)
Record heap_ok (h : Heap) : Prop := {
  ok_wf : heap_wf h;
  ok_closed : closed h;
  ok_fit : floats_fit h;
  ok_next : F64.next_slot (f64_allocator h) < F64.LEN
}.

Lemma gc_heap_ok h : heap_wf h → closed h → floats_fit h →
  ∃ h', gc h = Ok h' ∧ collected h h' ∧ heap_ok h' ∧ preserves h h'.
Proof.
  intros Hwf Hcl Hfit. destruct (gc_collected h Hwf Hcl Hfit) as (h' & Hgc & Hc). exists h'.
  split; [done|]. split; [done|]. split; [|by apply collected_preserves]. split; try apply Hc.
  destruct (col_next _ _ Hc) as (l & ? & ? & ->). by apply Hfit.
Qed.

(** [b] is a valid new block that takes [bytes] bytes. *)
Record request (h : Heap) (bytes : Z) (b : block) : Prop := {
  req_ok : block_ok (classes h) b;
  req_unmarked : marked (tag b) = false;
  req_size : view_data_size h (class_tag (tag b)) (data b) = Ok (bytes - tag_size h)
}.

(** The blocks that can be reached leave room for [bytes] bytes. *)
Definition live_fits (h : Heap) (bytes : Z) : Prop :=
  ∀ l, NoDup l → (∀ p, p ∈ l → p ∈ alloc_list h ∧ reachable h p) →
    sum_over (block_size h) l + bytes <= size h.

Lemma add_block_ok h bytes b :
  heap_ok h → request h bytes b → heap_ok (add_block h (malloc (mem h)) bytes b).
Proof.
  intros [Hwf Hcl Hfit Hn] [Hok Hm Hs]. pose proof (malloc_fresh (mem h)) as Hp. split.
  - apply add_block_size; try done. unfold block_size, get_data_size, deref, add_block. cbn.
    rewrite lookup_insert_eq. cbn. rewrite (view_ok (classes h)) by done. cbn.
    replace (view_data_size _ _ _) with (view_data_size h (class_tag (tag b)) (data b)) by done.
    rewrite Hs. lia.
  - by apply add_block_closed.
  - by apply add_block_fit.
  - done.
Qed.

Lemma alloc_raw_room h bytes b :
  used_mem h + bytes <= size h →
  alloc_raw h bytes b = (Some (malloc (mem h)), add_block h (malloc (mem h)) bytes b).
Proof. intros Hr. unfold alloc_raw. by assert (size h - used_mem h <? bytes = false) as -> by lia. Qed.

(** After a collection, the memory in use is that of the reachable blocks. *)
Lemma collected_room h h' bytes :
  heap_wf h → closed h → collected h h' → live_fits h bytes → used_mem h' + bytes <= size h'.
Proof.
  intros Hwf Hcl Hc Hl. pose proof (col_frame _ _ Hc) as (Hcs & _ & -> & Hts).
  rewrite (wf_used _ (col_wf _ _ Hc)). rewrite (sum_over_ext _ (block_size h)).
  - apply Hl; [apply (wf_nodup _ (col_wf _ _ Hc))|]. intros p. apply (col_alloc _ _ Hc).
  - intros p [Ha Hp]%(col_alloc _ _ Hc). destruct (closed_ptrs _ Hcl p Hp) as [b Hb].
    destruct (col_kept _ _ Hc p b Hb (or_intror Hp)) as (b' & Hb' & ? & ? & Hr).
    eapply block_size_moved; try done; [by eapply wf_blocks|by eapply resolve_shape].
Qed.

Lemma request_frame h h' bytes b :
  classes h' = classes h → tag_size h' = tag_size h → request h bytes b → request h' bytes b.
Proof.
  intros Hc Ht [Hok Hm Hs]. split; [by rewrite Hc|done|].
  by rewrite (view_data_size_shape h h' _ _ _ Hc eq_refl), Hs, Ht.
Qed.

(** What an allocation promises. *)
Record allocated (h : Heap) (b : block) (p : loc) (h' : Heap) : Prop := {
  alloc_ok : heap_ok h';
  alloc_preserves : preserves h h';
  alloc_block : mem h' !! p = Some b;
  alloc_fresh : ¬ reachable h p;
  alloc_nonnull : p ≠ null
}.

Lemma add_block_allocated h h1 bytes b :
  heap_ok h1 → preserves h h1 → request h1 bytes b →
  allocated h b (malloc (mem h1)) (add_block h1 (malloc (mem h1)) bytes b).
Proof.
  intros Hok Hpres Hreq. pose proof (malloc_fresh (mem h1)) as Hp. split.
  - by apply add_block_ok.
  - etrans; [done|]. apply add_block_preserves; [apply Hok|done].
  - cbn. by rewrite lookup_insert_eq.
  - rewrite <- (pres_reachable _ _ Hpres). intros Hr.
    destruct (closed_ptrs _ (ok_closed _ Hok) _ Hr) as [? ?]. congruence.
  - apply malloc_nonnull.
Qed.

Lemma or_gc_allocated (f : Heap → rt (option loc * Heap)) h bytes b :
  (∀ h1, classes h1 = classes h → tag_size h1 = tag_size h → f h1 = Ok (alloc_raw h1 bytes b)) →
  heap_ok h → request h bytes b → live_fits h bytes →
  ∃ p h', or_gc f h = Ok (p, h') ∧ allocated h b p h'.
Proof.
  intros Hf Hok Hreq Hlive. unfold or_gc. rewrite Hf by done. cbn [mbind comp_bind].
  destruct (decide (used_mem h + bytes <= size h)) as [Hr|Hr].
  { rewrite alloc_raw_room by done. do 2 eexists. split; [done|]. by apply add_block_allocated. }
  unfold alloc_raw at 1. assert (size h - used_mem h <? bytes = true) as -> by lia.
  destruct (gc_heap_ok h) as (h1 & -> & Hc & Hok1 & Hpres); try apply Hok. cbn [mbind comp_bind].
  pose proof (pres_frame _ _ Hpres) as (Hcs & _ & _ & Hts).
  rewrite Hf, alloc_raw_room by (try done; by apply (collected_room h); try apply Hok).
  cbn. do 2 eexists. split; [done|]. apply add_block_allocated; [done|done|].
  by apply (request_frame h).
Qed.

(** The data that [Heap::alloc] is used for, but the float refs. *)
Definition boxed (v : HeapRefView) : bool :=
  match v with
  | View.HT _ | View.Array _ | View.Any _ | View.ObjectPtrPtr _ | View.NonPtr32 _ | View.Ptr _ => true
  | _ => false
  end.

Lemma alloc_request h v :
  boxed v = true → request h (tag_size h + type_size v) (mkBlock (with_type (View.has_tag v)) v).
Proof.
  intros Hv. split.
  - destruct v; try done; (split; [done|]); by intros ?.
  - done.
  - rewrite Z.add_simpl_l. by destruct v.
Qed.

Lemma alloc_str_request h s :
  request h (tag_size h + (Z.of_nat (String.length s) + 4)) (mkBlock (with_type TT.String) (View.String s)).
Proof. split; [split; [done|by intros ?]|done|]. cbn. f_equal. lia. Qed.

Lemma alloc_env_request h items fn_obj :
  request h (tag_size h + (size_of_AnyEnum * Z.of_nat (length items) + 4 + size_of_ptr))
    (mkBlock (with_type TT.Env) (View.Env items fn_obj)).
Proof. split; [split; [done|by intros ?]|done|]. cbn. f_equal. lia. Qed.

Lemma alloc_object_data_request h t c :
  classes h !! Z.to_nat t = Some c → 0 <= ClassList.size c →
  request h (tag_size h + object_data_size (ClassList.size c))
    (mkBlock (object_tag t) (View.Class (replicate (Z.to_nat (ClassList.size c)) None))).
Proof.
  intros Hc Hs. split; [split; [done|]|done|].
  - intros l [= <-]. exists c. split; [done|]. rewrite length_replicate. lia.
  - cbn. unfold heap_class_size, get_class_size, get_class. rewrite Hc. cbn. f_equal. lia.
Qed.

(** A heap with another float allocator that extends the one it has. *)
Lemma set_f64_reachable a h p : reachable (set_f64_allocator a h) p ↔ reachable h p.
Proof.
  split; (induction 1 as [p Hp|p b q Hp IH Hb Hq]; [by apply reachable_root|]).
  - by apply (reachable_step h p b q).
  - by apply (reachable_step _ p b q).
Qed.

Lemma set_f64_wf a h : f64_ok a → heap_wf h → heap_wf (set_f64_allocator a h).
Proof. intros Ha Hwf. split; try apply Hwf. done. Qed.

Lemma set_f64_closed a h : f64_extends (f64_allocator h) a → closed h → closed (set_f64_allocator a h).
Proof.
  intros He Hcl. split.
  - intros p Hp%set_f64_reachable. by apply Hcl.
  - intros p b i q Hp%set_f64_reachable Hb Hq. cbn. eapply in_current_extends; [done|].
    by apply (closed_f64s _ Hcl p b i q).
Qed.

Lemma set_f64_fit a h : floats_fit h → floats_fit (set_f64_allocator a h).
Proof.
  intros Hf l Hnd Hl. apply Hf; [done|]. eapply Forall_impl; [done|]. intros p. apply set_f64_reachable.
Qed.

Lemma resolve_extends a a' (v : HeapRefView) :
  f64_extends a a' → (∀ i q, View.slots v !! i = Some (Some (Any.F64 q)) → in_current a q) →
  resolve a' <$> v = resolve a <$> v.
Proof.
  intros He Hc. apply fmap_shape_slots; [done|]. apply Forall2_same_length_lookup. split; [done|].
  intros i x y Hx Hy. rewrite Hx in Hy. injection Hy as <-. destruct x as [[]|]; cbn; try done.
  by rewrite (read_current_extends a a') by eauto.
Qed.

Lemma set_f64_preserves a h :
  f64_extends (f64_allocator h) a → closed h → preserves h (set_f64_allocator a h).
Proof.
  intros He Hcl. split; [done|apply set_f64_reachable| |].
  - intros p b Hp Hb. exists b. split; [done|]. split; [done|]. split; [done|]. cbn.
    apply resolve_extends; [done|]. intros i q. by apply (closed_f64s _ Hcl p b i q).
  - intros p b Hb Hp. by exists b.
Qed.

(** What a float allocation promises. *)
Record f64_allocated (h : Heap) (x : f64) (p : f64ptr) (h' : Heap) : Prop := {
  falloc_ok : heap_ok h';
  falloc_preserves : preserves h h';
  falloc_current : in_current (f64_allocator h') p;
  falloc_value : F64.read (f64_allocator h') p = Some x
}.

Lemma alloc_f64_room h h1 x :
  heap_ok h1 → preserves h h1 → F64.next_slot (f64_allocator h1) < F64.LEN - 1 →
  ∃ p a, F64.alloc x (f64_allocator h1) = Ok (Some p, a) ∧ f64_allocated h x p (set_f64_allocator a h1).
Proof.
  intros Hok Hpres Hlt. destruct (f64_alloc_ok x (f64_allocator h1)) as (p & a & Ha & Hok' & He & Hp & Hr & Hn).
  { apply Hok. } { done. }
  exists p, a. split; [done|]. split; try done.
  - split; [by apply set_f64_wf, Hok|by apply set_f64_closed, Hok|by apply set_f64_fit, Hok|cbn; lia].
  - etrans; [done|]. by apply set_f64_preserves, Hok.
Qed.

(** The float that does not fit: only the counter changes. *)
Lemma alloc_f64_full a x :
  F64.next_slot a = F64.LEN - 1 →
  F64.alloc x a = Ok (None, F64.mkF64Allocator (F64.current_space a) (F64.other_space a) (F64.current_box a) F64.LEN).
Proof. intros Hn. unfold F64.alloc. rewrite Hn. done. Qed.

(** One more float than [floats_fit] asks for. *)
Definition floats_fit_one_more (h : Heap) : Prop :=
  ∀ l, NoDup l → Forall (reachable h) l → sum_over (f64s_at h) l < F64.LEN - 1.

(** C4: allocating a string, an environment or a boxed value, with a collection
    if memory is short, succeeds as soon as the reachable blocks leave room
    for it: a block that was not reachable now holds the value, the heap is
    well formed, and everything that could be reached is still there with
    the same contents. *)
Theorem alloc_or_gc_correct h :
  heap_ok h →
  (∀ v, boxed v = true → live_fits h (tag_size h + type_size v) →
     ∃ p h', alloc_or_gc h v = Ok (p, h') ∧ allocated h (mkBlock (with_type (View.type_tag v)) v) p h') ∧
  (∀ s, live_fits h (tag_size h + (Z.of_nat (String.length s) + 4)) →
     ∃ p h', alloc_str_or_gc h s = Ok (p, h') ∧
       allocated h (mkBlock (with_type TT.String) (View.String s)) p h') ∧
  (∀ items fn_obj,
     live_fits h (tag_size h + (size_of_AnyEnum * Z.of_nat (length items) + 4 + size_of_ptr)) →
     ∃ p h', alloc_env_or_gc h items fn_obj = Ok (p, h') ∧
       allocated h (mkBlock (with_type TT.Env) (View.Env items fn_obj)) p h').
Proof.
  intros Hok. split; [|split].
  - intros v Hv Hl. replace (View.type_tag v) with (View.has_tag v) by (by destruct v).
    apply (or_gc_allocated _ h (tag_size h + type_size v)); try done; [|by apply alloc_request].
    intros h1 _ Ht. unfold alloc. by rewrite Ht.
  - intros s Hl. apply (or_gc_allocated _ h (tag_size h + (Z.of_nat (String.length s) + 4)));
      try done; [|apply alloc_str_request].
    intros h1 _ Ht. unfold alloc_str, alloc_slice. by rewrite Ht.
  - intros items fn_obj Hl. eapply or_gc_allocated; try done; [|apply alloc_env_request].
    intros h1 _ Ht. unfold alloc_env, alloc_slice. by rewrite Ht.
Qed.

(** C5: allocating a float, with a collection when the space is full,
    succeeds when the reachable blocks hold less than 999 floats: the pointer
    reads the float, and everything that could be reached is still there with
    the same contents. *)
Theorem alloc_f64_or_gc_correct h x :
  heap_ok h → floats_fit_one_more h →
  ∃ p h', alloc_f64_or_gc h x = Ok (p, h') ∧ f64_allocated h x p h'.
Proof.
  intros Hok Hfit. unfold alloc_f64_or_gc, or_gc.
  destruct (decide (F64.next_slot (f64_allocator h) < F64.LEN - 1)) as [Hlt|Hge].
  { destruct (alloc_f64_room h h x Hok) as (p & a & -> & ?); [reflexivity|done|]. by do 2 eexists. }
  pose proof (ok_next _ Hok). rewrite alloc_f64_full by lia. cbn [mbind comp_bind].
  set (h1 := set_f64_allocator _ h). pose proof (f64_next _ (wf_f64 _ (ok_wf _ Hok))).
  assert (f64_extends (f64_allocator h) (f64_allocator h1)) as He by (split; cbn; done || lia).
  assert (f64_ok (f64_allocator h1)) as Hf.
  { destruct (wf_f64 _ (ok_wf _ Hok)). split; cbn; [done|done|]. unfold F64.LEN in *. lia. }
  pose proof (set_f64_preserves _ _ He (ok_closed _ Hok)) as Hp1.
  destruct (gc_heap_ok h1) as (h2 & -> & Hc & Hok2 & Hp2).
  { by apply set_f64_wf, Hok. } { by apply set_f64_closed, Hok. } { by apply set_f64_fit, Hok. }
  cbn [mbind comp_bind].
  destruct (alloc_f64_room h h2 x Hok2) as (p & a & -> & ?); [by etrans| |by do 2 eexists].
  destruct (col_next _ _ Hc) as (l & Hnd & Hl & ->). apply (Hfit l Hnd).
  eapply Forall_impl; [exact Hl|]. intros q. by apply set_f64_reachable.
Qed.
End alloc.

Lemma live_fits_check `{Rust} h live bytes :
  closed_check h live = true →
  sum_over (λ p, Z.max 0 (block_size h p)) (filter (λ p, p ∈ alloc_list h) live) + bytes <= size h →
  live_fits h bytes.
Proof.
  intros Hc Hs l Hnd Hl.
  assert (sum_over (block_size h) l <= sum_over (λ p, Z.max 0 (block_size h p)) l) as H1.
  { clear. induction l as [|p l IH]; [done|]. rewrite !sum_over_cons. lia. }
  pose proof (sum_over_incl (λ p, Z.max 0 (block_size h p)) l (filter (λ p, p ∈ alloc_list h) live) ltac:(intros; lia) Hnd) as H2.
  enough (l ⊆ filter (λ p, p ∈ alloc_list h) live) by (specialize (H2 ltac:(done)); lia).
  intros p Hp. destruct (Hl p Hp) as [Ha Hr]. apply list_elem_of_filter. split; [done|]. by eapply closed_check_reachable.
Qed.

Lemma sample_ok : @heap_ok wasm32 sample.
Proof.
  split.
  - apply wf_check_sound. vm_compute. reflexivity.
  - apply (closed_check_sound sample [1; 3; 4; 5]). vm_compute. reflexivity.
  - apply (fit_check_sound sample [1; 3; 4; 5]); vm_compute; reflexivity.
  - vm_compute. reflexivity.
Qed.

Lemma alloc_or_gc_correct_witness :
  ∃ p h', @alloc_str_or_gc wasm32 sample "world" = Ok (p, h') ∧
    @allocated wasm32 sample (mkBlock (with_type TT.String) (View.String "world")) p h'.
Proof.
  destruct (@alloc_or_gc_correct wasm32 sample sample_ok) as (_ & Hstr & _).
  apply Hstr. apply (live_fits_check sample [1; 3; 4; 5]); vm_compute; [reflexivity|discriminate].
Defined.

Lemma alloc_f64_or_gc_correct_witness :
  ∃ p h', @alloc_f64_or_gc wasm32 sample (S754_finite true 5 0) = Ok (p, h') ∧
    @f64_allocated wasm32 sample (S754_finite true 5 0) p h'.
Proof.
  apply (@alloc_f64_or_gc_correct wasm32 sample _ sample_ok).
  intros l Hnd Hl. eapply Z.le_lt_trans; [apply (sum_over_incl _ l [1; 3; 4; 5])|]; [|done| |].
  - intros p. unfold f64s_at, block_f64s. destruct (mem sample !! p); lia.
  - intros p Hp. rewrite Forall_forall in Hl. eapply (closed_check_reachable sample); [|by apply Hl].
    vm_compute. reflexivity.
  - vm_compute. reflexivity.
Defined.

(** The collection was needed for the string, and freed the garbage. *)
Example sample_collects :
  used_mem sample = 56 ∧ alloc_list sample = [5; 4; 3; 2; 1] ∧
  (λ r : loc * Heap, (r.1, used_mem r.2, alloc_list r.2)) <$> @alloc_str_or_gc wasm32 sample "world"
  = Ok (6, 54, [6; 5; 4; 3; 1]).
Proof. vm_compute. done. Qed.

(** C6: the float allocator, on every branch.  While less than 999 slots are
    used, the new float is at a new slot and the other floats are unchanged;
    with 999 slots used it answers [None], one slot before the end of the
    space; asked once more without a collection in between, it writes past
    the end of the space. *)
Theorem f64_alloc_branches a x :
  f64_ok a →
  (F64.next_slot a < F64.LEN - 1 →
     ∃ q a', F64.alloc x a = Ok (Some q, a') ∧ f64_ok a' ∧ f64_extends a a' ∧
       ¬ in_current a q ∧ in_current a' q ∧ F64.read a' q = Some x) ∧
  (F64.next_slot a = F64.LEN - 1 →
     ∃ a', F64.alloc x a = Ok (None, a') ∧ f64_extends a a' ∧
       ∀ y, F64.alloc y a' = undefined_behavior).
Proof.
  intros Hok. split; intros Hn.
  - destruct (f64_alloc_ok x a Hok Hn) as (q & a' & Ha & ? & ? & Hq & ? & ?). exists q, a'.
    repeat (split; [done|]). split; [|done]. unfold F64.alloc in Ha. repeat case_match; comp_inv; simplify_eq.
    intros [_ ?]. cbn in *. lia.
  - rewrite alloc_f64_full by done. eexists. split; [done|]. split; [split; cbn; done || lia|].
    intros y. done.
Qed.

Lemma f64_alloc_branches_witness :
  (∃ q a', F64.alloc (S754_zero true) F64.new = Ok (Some q, a') ∧ f64_ok a' ∧ f64_extends F64.new a' ∧
     ¬ in_current F64.new q ∧ in_current a' q ∧ F64.read a' q = Some (S754_zero true)) ∧
  (let a := F64.mkF64Allocator (F64.current_space F64.new) (F64.other_space F64.new) false 999 in
   ∃ a', F64.alloc (S754_zero true) a = Ok (None, a') ∧ f64_extends a a' ∧
     ∀ y, F64.alloc y a' = undefined_behavior).
Proof.
  split.
  - destruct (f64_alloc_branches F64.new (S754_zero true)) as [Hs _].
    { split; [reflexivity|reflexivity|split; vm_compute; discriminate]. }
    apply Hs. vm_compute. reflexivity.
  - destruct (f64_alloc_branches (F64.mkF64Allocator (F64.current_space F64.new) (F64.other_space F64.new) false 999)
      (S754_zero true)) as [_ Hf].
    { split; [reflexivity|reflexivity|split; vm_compute; discriminate]. }
    apply Hf. reflexivity.
Defined.

(** ** Heaps on which a collection goes wrong *)

(** A program that roots one value and collects. *)
Definition root_and_gc (v : AnyEnum) (h : Heap) : rt Heap :=
  let _ := wasm32 in
  h ← set_any_in_current_shadow_frame_slot (gc_enter_fn h 1) v 0; gc h.

