(* ===== verification/Objects.v ===== *)
(** Objects of the runtime ([allocator/object_ptr.rs], [object.rs], and what
    [ops.rs] and [coercions.rs] do with objects): properties in hidden classes,
    prototype chains, [instanceof]. *)
From S2P Require Import Prelude.
From S2P Require Import ClassList.
From S2P Require Import Heap.
From S2P Require Import Gc.
From S2P Require Import Alloc.

(** [StaticStrings] ([static_strings.rs]): strings that are not managed. *)
Record StaticStrings := mkStaticStrings { __proto__ : loc; prototype : loc }.

(** ** Strings as names *)

(** [Deref for StringPtr]: the bytes after the tag are a string. *)
Definition str_at (h : Heap) (p : loc) : rt string :=
  b ← deref h p; match data b with View.String s => Ok s | _ => undefined_behavior end.
(** [PartialEq for StringPtr]. *)
Definition string_eq (h : Heap) (a b : loc) : rt bool :=
  if decide (a = b) then Ok true
  else s ← str_at h a; t ← str_at h b; Ok (bool_decide (s = t)).

(** What [==] compares, for [ClassList]. *)
Definition name_at (h : Heap) (p : loc) : option string :=
  match str_at h p with Ok s => Some s | _ => None end.
(** The comparisons of a search for [x], which ends at the first equal name. *)
Fixpoint compare_names (h : Heap) (x : loc) (l : list (loc * Z)) : rt unit :=
  match l with
  | [] => Ok tt
  | (y, _) :: l => found ← string_eq h y x; if found : bool then Ok tt else compare_names h x l
  end.
(** [Class::lookup] and [ClassList::transition], with the comparisons made in the heap. *)
Definition class_lookup (h : Heap) (class : Class (K := loc)) (name : loc) (cache : Z) : rt (option Z * Z) :=
  (if cache =? -1 then compare_names h name (offsets class) else Ok tt);;
  Ok (lookup (name_at h) class name cache).
Definition class_transition (h : Heap) (class_tag : Z) (name : loc) : rt (Z * Heap) :=
  class ← get_class (classes h) class_tag;
  compare_names h name (transitions class);;
  '(tag, l) ← transition (name_at h) (classes h) class_tag name;
  Ok (tag, set_classes l h).

(** ** Objects and their data *)

(** [Deref for ObjectPtr], and its assignment. *)
Definition object_data (h : Heap) (o : loc) : rt loc :=
  b ← deref h o; match data b with View.ObjectPtrPtr d => Ok d | _ => undefined_behavior end.
Definition set_object_data (h : Heap) (o d : loc) : rt Heap :=
  b ← deref h o;
  match data b with
  | View.ObjectPtrPtr _ => Ok (store o (mkBlock (tag b) (View.ObjectPtrPtr d)) h)
  | _ => undefined_behavior
  end.

Definition as_array (h : Heap) (d : loc) : rt (Tag * list (option AnyEnum)) :=
  b ← deref h d; match data b with View.Class l => Ok (tag b, l) | _ => undefined_behavior end.
Definition object_class_tag (h : Heap) (d : loc) : rt Z := '(t, _) ← as_array h d; Ok (class_tag t).
Definition object_class (h : Heap) (d : loc) : rt (Class (K := loc)) :=
  t ← object_class_tag h d; get_class (classes h) t.

Definition read_at (h : Heap) (d : loc) (index : Z) : rt (option AnyEnum) :=
  '(_, l) ← as_array h d;
  if bool_decide (0 <= index) then
    match l !! Z.to_nat index with Some v => Ok v | None => undefined_behavior end
  else undefined_behavior.
Definition write_at (h : Heap) (d : loc) (index : Z) (value : AnyEnum) : rt Heap :=
  '(t, l) ← as_array h d;
  if bool_decide (0 <= index < Z.of_nat (length l))
  then Ok (store d (mkBlock t (View.Class (<[Z.to_nat index := Some value]> l))) h)
  else undefined_behavior.

Section objects.
Context `{Rust} (static_strings : StaticStrings).

(** [ObjectDataPtr::insert]. *)
Definition copy_field (self new_object : loc) (h : Heap) (i : Z) : rt Heap :=
  val ← read_at h self i;
  match val with Some val => write_at h new_object i val | None => Ok h end.
Definition data_insert (h : Heap) (self name : loc) (value : AnyEnum) (cache : Z) : rt (loc * Z * Heap) :=
  class_tag ← object_class_tag h self;
  class ← get_class (classes h) class_tag;
  '(found, cache) ← class_lookup h class name cache;
  match found with
  | Some offset => h ← write_at h self offset value; Ok (self, cache, h)
  | None =>
      let size := ClassList.size class in
      '(new_tag, h) ← class_transition h class_tag name;
      '(new_object, h) ← alloc_object_data_or_gc h new_tag;
      h ← foldM (copy_field self new_object) h (seqZ 0 size);
      h ← write_at h new_object size value;
      Ok (new_object, cache, h)
  end.
(** [ObjectPtr::insert]. *)
Definition object_insert (h : Heap) (self name : loc) (value : AnyEnum) (cache : Z) : rt (AnyEnum * Z * Heap) :=
  data ← object_data h self;
  '(new, cache, h) ← data_insert h data name value cache;
  h ← set_object_data h self new;
  Ok (value, cache, h).

(** [match_object]. *)
Definition match_object (h : Heap) (a : AnyEnum) : rt (option loc) :=
  match a with
  | Any.Ptr p =>
      b ← deref h p; v ← view b;
      Ok (match v with View.ObjectPtrPtr _ => Some p | _ => None end)
  | _ => Ok None
  end.

(** [ObjectDataPtr::get].  The recursion follows the chain of prototypes;
    [fuel] bounds its length. *)
Fixpoint data_get (fuel : nat) (h : Heap) (self name : loc) (cache : Z) : rt (AnyEnum * Z) :=
  class ← object_class h self;
  '(maybe_offset, cache) ← class_lookup h class name cache;
  match maybe_offset with
  | Some offset =>
      v ← read_at h self offset;
      v ← expect "object missing offset spceified by its hidden class" v;
      Ok (v, cache)
  | None =>
      '(maybe_proto_offset, _) ← class_lookup h class (__proto__ static_strings) (-1);
      match maybe_proto_offset with
      | Some proto_offset =>
          v ← read_at h self proto_offset;
          proto_val ← expect "called unwrap on a None value" v;
          proto ← match_object h proto_val;
          match proto with
          | Some proto_obj =>
              match fuel with
              | O => Panic "out of fuel"
              | S fuel =>
                  data ← object_data h proto_obj;
                  '(v, _) ← data_get fuel h data name (-1);
                  Ok (v, cache)
              end
          | None => Ok (Any.Undefined, cache)
          end
      | None => Ok (Any.Undefined, cache)
      end
  end.
(** A chain that ends has no more objects than there are blocks. *)
Definition get_fuel (h : Heap) : nat := base.size (mem h).
Definition get (h : Heap) (obj name : loc) (cache : Z) : rt (AnyEnum * Z) :=
  data ← object_data h obj; data_get (get_fuel h) h data name cache.

(** ** The functions exported to compiled programs *)
Definition object_empty (h : Heap) : rt (loc * Heap) := alloc_object_or_gc h 0.
Definition object_set (h : Heap) (object field : loc) (value : AnyEnum) (cache : Z) : rt (AnyEnum * Z * Heap) :=
  '(_, cache, h) ← object_insert h object field value cache; Ok (value, cache, h).
Definition object_get (h : Heap) (object field : loc) (cache : Z) : rt (AnyEnum * Z) :=
  get h object field cache.

(** [Object.create]. *)
Definition object_create (h : Heap) (maybe_prototype_chain : AnyEnum) : rt (AnyEnum * Heap) :=
  '(o, h) ←
    match maybe_prototype_chain with
    | Any.Null => object_empty h
    | Any.Ptr p =>
        b ← deref h p; v ← view b;
        match v with
        | View.ObjectPtrPtr _ =>
            '(new_object, h) ← object_empty h;
            '(_, _, h) ← object_insert h new_object (__proto__ static_strings) maybe_prototype_chain (-1);
            Ok (new_object, h)
        | _ => Panic "not an object or null"
        end
    | _ => Panic "not an object or null"
    end;
  Ok (Any.Ptr o, h).

(** [inclusive_instance_of] and [instance_of] ([ops.rs]). *)
Fixpoint inclusive_instance_of (fuel : nat) (h : Heap) (obj should_match : loc) : rt bool :=
  if decide (obj = should_match) then Ok true
  else
    '(proto_shim, _) ← get h obj (__proto__ static_strings) (-1);
    proto ← match_object h proto_shim;
    match proto with
    | Some proto_obj =>
        match fuel with
        | O => Panic "out of fuel"
        | S fuel => inclusive_instance_of fuel h proto_obj should_match
        end
    | None => Ok false
    end.
Definition instance_of (h : Heap) (a b : AnyEnum) : rt bool :=
  match b with
  | Any.Closure constructor_env _ =>
      obj ← match_object h a;
      match obj with
      | Some obj =>
          constructor_obj ← env_fn_obj h constructor_env;
          '(constructor_prototype, _) ← get h constructor_obj (prototype static_strings) (-1);
          m ← match_object h constructor_prototype;
          should_match ← expect "non-obj prototype" m;
          '(proto_shim, _) ← get h obj (__proto__ static_strings) (-1);
          other ← match_object h proto_shim;
          match other with
          | Some other => inclusive_instance_of (get_fuel h) h other should_match
          | None => Ok false
          end
      | None => Ok false
      end
  | _ => Panic "TypeError: invalid 'instanceof' operand"
  end.
End objects.
