(* ===== verification/ObjectsOk.v ===== *)
(** Objects are maps from names to values with a chain of prototypes: setting a
    property updates one map, and reading one follows the chain. *)
From S2P Require Import Prelude.
From S2P Require Import ClassList.
From S2P Require Import Heap.
From S2P Require Import Gc.
From S2P Require Import Alloc.
From S2P Require Import Objects.
From Stdlib Require Import SpecFloat.

(** ** The specification *)

(** A string that is not managed: the names of fields are interned, and those
    that the runtime uses itself are leaked. *)
Definition static (h : Heap) (x : loc) : Prop :=
  (x ∉ alloc_list h) ∧ ∃ b s, mem h !! x = Some b ∧ data b = View.String s.

(** The data [d] of an object as a map: the position of a name among the keys
    of its class is the position of its value. *)
Definition class_at (h : Heap) (t : Tag) : option (Class (K := loc)) := classes h !! Z.to_nat (class_tag t).
Definition position (h : Heap) (c : Class) (s : string) : option nat :=
  fst <$> list_find (λ x, name_at h x = Some s) (keys c).
Definition own (h : Heap) (d : loc) (s : string) : option AnyEnum :=
  b ← (mem h !! d);
  match data b with
  | View.Class l => c ← class_at h (tag b); i ← position h c s; mjoin (l !! i)
  | _ => None
  end.
(** The offset of a name in the class of [d]; -1 if there is none. *)
Definition offset (h : Heap) (d : loc) (s : string) : Z :=
  default (-1) (Z.of_nat <$> (b ← mem h !! d; c ← class_at h (tag b); position h c s)).
(** The number of fields of [d]. *)
Definition num_fields (h : Heap) (d : loc) : Z :=
  match mem h !! d with Some b => Z.of_nat (length (View.slots (data b))) | None => 0 end.
(** A property of an object, with its float read. *)
Definition property (h : Heap) (d : loc) (s : string) : option (AnyEnum + option f64) :=
  resolve (f64_allocator h) <$> own h d s.

(** What the runtime keeps true of classes and objects. *)
Record objects_ok (h : Heap) : Prop := {
  obj_classes : ClassList.wf (name_at h) (classes h);
  obj_names c x : c ∈ classes h → x ∈ keys c ++ map fst (transitions c) → static h x;
  obj_data o b d : reachable h o → mem h !! o = Some b → data b = View.ObjectPtrPtr d →
    ∃ bd l, mem h !! d = Some bd ∧ data bd = View.Class l;
  obj_full d b l : reachable h d → mem h !! d = Some b → data b = View.Class l → Forall is_Some l
}.

(** ** Names *)
Lemma static_name h x : static h x → ∃ s, name_at h x = Some s ∧ str_at h x = Ok s.
Proof.
  intros (_ & b & s & Hb & Hs). exists s. unfold name_at, str_at, deref. by rewrite Hb; cbn; rewrite Hs.
Qed.

Lemma string_eq_static h a b : static h a → static h b →
  string_eq h a b = Ok (bool_decide (name_at h a = name_at h b)).
Proof.
  intros (s & Hs & Hs')%static_name (t & Ht & Ht')%static_name. unfold string_eq. case_decide as Hab.
  - subst. by rewrite bool_decide_true.
  - rewrite Hs', Ht'. cbn. rewrite Hs, Ht. f_equal. apply bool_decide_ext. naive_solver.
Qed.

Lemma compare_names_static h x l : static h x → Forall (static h) (map fst l) → compare_names h x l = Ok tt.
Proof.
  intros Hx. induction l as [|[y i] l IH]; intros Hl; [done|]. apply Forall_cons in Hl as [Hy Hl]. cbn.
  rewrite string_eq_static by done. cbn. destruct (bool_decide _); [done|]. by apply IH.
Qed.

Section names.
Context (h : Heap) (Hobj : objects_ok h).

Lemma class_names c : c ∈ classes h → Forall (static h) (map fst (offsets c)) ∧ Forall (static h) (map fst (transitions c)).
Proof.
  intros Hc. split; apply Forall_forall; intros x Hx; apply (obj_names _ Hobj c x Hc), elem_of_app; [by left|by right].
Qed.

Lemma class_ok_in c : c ∈ classes h → class_ok (name_at h) (classes h) c.
Proof. intros Hc. destruct (obj_classes _ Hobj) as (_ & _ & Hall). rewrite Forall_forall in Hall. auto. Qed.

(** A name that is not cached is looked up by its characters. *)
Lemma class_lookup_static c x s :
  c ∈ classes h → static h x → name_at h x = Some s →
  class_lookup h c x (-1) =
    Ok match position h c s with Some i => (Some (Z.of_nat i), Z.of_nat i) | None => (None, -1) end.
Proof.
  intros Hc Hx Hs. unfold class_lookup. cbn [Z.eqb].
  rewrite compare_names_static by (try done; by apply class_names).
  transitivity (@Ok never _ (lookup (name_at h) c x (-1))); [done|]. f_equal.
  destruct (class_ok_in c Hc) as (Ho & _). unfold position.
  destruct (list_find _ (keys c)) as [[i y]|] eqn:Hf; cbn [fmap option_fmap option_map fst].
  - apply list_find_Some in Hf as (Hi & Hy & _). apply (lookup_key _ c i y); [done|done|congruence].
  - assert (find (name_at h) x (offsets c) = None) as Hn.
    { apply find_None. intros (y & Hy & Hin)%list_elem_of_fmap. apply list_find_None in Hf.
      rewrite Forall_forall in Hf. apply (Hf y Hin). congruence. }
    unfold lookup. cbn. by rewrite Hn.
Qed.

Lemma class_lookup_cached c x cache : cache ≠ -1 → class_lookup h c x cache = Ok (Some cache, cache).
Proof. intros Hn. unfold class_lookup, lookup. apply Z.eqb_neq in Hn. by rewrite Hn. Qed.
End names.

(** The position of a name in a class. *)
Lemma position_bound h c s i : position h c s = Some i → (i < length (keys c))%nat.
Proof.
  intros Hp. unfold position in Hp. destruct (list_find _ _) as [[j y]|] eqn:Hf; [|done].
  injection Hp as ->. apply list_find_Some in Hf as (Hi & _). by eapply lookup_lt_Some.
Qed.

Lemma size_keys (name : loc → option string) c : offsets_ok name c → ClassList.size c = Z.of_nat (length (keys c)).
Proof. intros (-> & _). unfold keys. by rewrite length_map. Qed.

(** Names that keep their characters keep their positions. *)
Lemma position_ext h h' c c' s :
  keys c' = keys c → (∀ x, x ∈ keys c → name_at h' x = name_at h x) → position h' c' s = position h c s.
Proof.
  intros Hk Hn. unfold position. rewrite Hk. revert Hn. clear Hk. induction (keys c) as [|x l IH]; intros Hn; [done|]. cbn.
  rewrite (Hn x) by left. destruct (decide (name_at h x = Some s)); [done|].
  specialize (IH ltac:(intros; apply Hn; by right)).
  destruct (list_find (λ x, name_at h' x = Some s) l) as [[]|], (list_find (λ x, name_at h x = Some s) l) as [[]|]; cbn in *; congruence.
Qed.

Lemma position_snoc h c c' y s :
  keys c' = keys c ++ [y] →
  position h c' s = match position h c s with
                    | Some i => Some i
                    | None => if decide (name_at h y = Some s) then Some (length (keys c)) else None
                    end.
Proof.
  intros Hk. unfold position. rewrite Hk. destruct (list_find _ (keys c)) as [[i z]|] eqn:Hf; cbn.
  - by rewrite (list_find_app_l _ _ _ i z).
  - rewrite list_find_app_r by done. cbn. by destruct (decide _).
Qed.

Lemma position_None h c s : position h c s = None ↔ ∀ x, x ∈ keys c → name_at h x ≠ Some s.
Proof.
  unfold position. rewrite fmap_None, list_find_None, Forall_forall. done.
Qed.

Lemma wf_ext {K V} `{EqDecision V} (f g : K → V) (l : list Class) :
  (∀ c x, c ∈ l → x ∈ keys c ++ map fst (transitions c) → g x = f x) → ClassList.wf f l → ClassList.wf g l.
Proof.
  intros Hfg (H0 & Hlen & Hall). split; [done|]. split; [done|]. rewrite Forall_forall in *. intros c Hc.
  destruct (Hall c Hc) as ((Hs & Hseq & Hnd) & Ht & Hnt). split; [split; [done|split; [done|]]|split; [done|]].
  - erewrite map_ext_in; [exact Hnd|]. intros x Hx%list_elem_of_In. apply (Hfg c); [done|]. apply elem_of_app. by left.
  - erewrite map_ext_in; [exact Hnt|]. intros x Hx%list_elem_of_In. apply (Hfg c); [done|]. apply elem_of_app. by right.
Qed.

(** The names of the classes after a transition. *)
Lemma transition_names {K V E} `{EqDecision V} (f : K → V) l t x t' l' :
  transition f l t x = @Ok E _ (t', l') →
  ∀ c' y, c' ∈ l' → y ∈ keys c' ++ map fst (transitions c') → y = x ∨ ∃ c, c ∈ l ∧ y ∈ keys c ++ map fst (transitions c).
Proof.
  unfold transition. destruct (l !! Z.to_nat t) as [c|] eqn:Hc; [|done]. cbn.
  destruct (lookup_transition f c x) as [tag|]; intros [= <- <-] c' y Hc' Hy; [eauto|].
  apply list_elem_of_lookup_2 in Hc as Hin.
  apply elem_of_app in Hc' as [Hc'| ->%list_elem_of_singleton].
  - apply list_elem_of_lookup in Hc' as [i Hi]. apply list_lookup_insert_Some in Hi as [(_ & <- & _)|(_ & Hi)].
    + cbn in Hy. rewrite map_app in Hy. rewrite !elem_of_app in Hy. cbn in Hy. rewrite list_elem_of_singleton in Hy.
      destruct Hy as [Hy|[Hy|Hy]]; [right; exists c; split; [done|]; apply elem_of_app; by left| |by left].
      right. exists c. split; [done|]. apply elem_of_app. by right.
    + right. exists c'. split; [|done]. by eapply list_elem_of_lookup_2.
  - unfold keys in Hy. cbn in Hy. rewrite app_nil_r, map_app in Hy. cbn in Hy. rewrite elem_of_app, list_elem_of_singleton in Hy.
    destruct Hy as [Hy|Hy]; [|by left]. right. exists c. split; [done|]. apply elem_of_app. by left.
Qed.

(** ** Heaps that satisfy the invariants *)
Lemma name_ext h h' x b b' :
  mem h !! x = Some b → mem h' !! x = Some b' → data b' = data b → name_at h' x = name_at h x.
Proof. intros Hb Hb' Hd. unfold name_at, str_at, deref. by rewrite Hb, Hb'; cbn; rewrite Hd. Qed.

Lemma static_ptrs cs h q b : static h q → mem h !! q = Some b →
  block_ptrs cs b = [] ∧ (∀ i, View.slots (data b) !! i = None) ∧ f64s_at h q = 0.
Proof.
  intros (_ & b' & s & Hb' & Hs) Hb. rewrite Hb' in Hb. injection Hb as ->.
  unfold f64s_at, block_f64s, block_ptrs, slot_values. rewrite Hb', Hs. done.
Qed.

Lemma sum_over_nonzero {A} (f : A → Z) l : sum_over f l = sum_over f (filter (λ x, f x ≠ 0) l).
Proof.
  induction l as [|x l IH]; [done|]. rewrite filter_cons. case_decide as Hx; rewrite ?sum_over_cons; [lia|].
  lia.
Qed.

Section heap.
Context `{Rust}.

(** What can be reached stays within [S]. *)
Lemma heap_ok_within h (S : loc → Prop) :
  heap_wf h → F64.next_slot (f64_allocator h) < F64.LEN → (∀ p, p ∈ roots h → S p) →
  (∀ p, S p → ∃ b, mem h !! p = Some b ∧ (∀ q, q ∈ block_ptrs (classes h) b → S q) ∧
     ∀ i q, View.slots (data b) !! i = Some (Some (Any.F64 q)) → in_current (f64_allocator h) q) →
  (∀ l, NoDup l → Forall S l → sum_over (f64s_at h) l < F64.LEN) →
  heap_ok h ∧ ∀ p, reachable h p → S p.
Proof.
  intros Hwf Hn Hr Hs Hf.
  assert (∀ p, reachable h p → S p) as Hreach.
  { induction 1 as [p Hp|p b q Hp IH Hb Hq]; [auto|]. destruct (Hs p IH) as (b' & Hb' & Hptrs & _). simplify_eq. auto. }
  split; [|done]. split; [done| | |done].
  - split.
    + intros p (b & Hb & _)%Hreach%Hs. by exists b.
    + intros p b i q Hp Hb Hq. apply Hreach, Hs in Hp as (b' & Hb' & _ & Hc). simplify_eq. eauto.
  - intros l Hnd Hl. apply Hf; [done|]. eapply Forall_impl; [done|]. auto.
Qed.

Lemma store_wf h p b b' :
  heap_wf h → mem h !! p = Some b → tag b' = tag b → ¬ is_string b → block_ok (classes h) b' →
  view_data_size h (class_tag (tag b)) (data b') = view_data_size h (class_tag (tag b)) (data b) →
  heap_wf (store p b' h).
Proof.
  intros Hwf Hb Ht Hns Hok Hsz. pose proof (wf_blocks _ Hwf _ _ Hb) as Hokb. split; cbn; try apply Hwf.
  - intros q Hq. destruct (wf_alloc _ Hwf q Hq) as (bq & Hbq & Hm). destruct (decide (p = q)) as [<-|Hne].
    + exists b'. rewrite lookup_insert_eq, Ht. simplify_eq. done.
    + exists bq. by rewrite lookup_insert_ne.
  - intros q bq Hbq Hq. destruct (decide (p = q)) as [<-|Hne].
    + destruct Hns. by eapply wf_static.
    + rewrite lookup_insert_ne in Hbq by done. by eapply wf_static.
  - intros q bq. destruct (decide (p = q)) as [<-|Hne].
    + rewrite lookup_insert_eq. by intros [= <-].
    + rewrite lookup_insert_ne by done. apply Hwf.
  - rewrite (wf_used _ Hwf). apply sum_over_ext. intros q _. unfold block_size, get_data_size, deref. cbn.
    destruct (decide (p = q)) as [<-|Hne].
    + rewrite lookup_insert_eq, Hb. cbn. rewrite (view_ok _ _ Hokb), (view_ok _ _ Hok). cbn.
      rewrite Ht. change (view_data_size (store p b' h)) with (view_data_size h). by rewrite Hsz.
    + by rewrite lookup_insert_ne.
Qed.

(** *** New classes *)
Lemma block_ptrs_classes cs cs' b :
  extends cs cs' → block_ok cs b → block_ptrs cs' b = block_ptrs cs b ∧ block_ok cs' b.
Proof.
  intros He [Ht Hc]. split.
  - unfold block_ptrs. f_equal. unfold other_ptrs. destruct (data b) as [| | | |l| | | | |] eqn:Hd; try done.
    destruct (Hc l eq_refl) as (c & Hcc & _). destruct (He _ _ Hcc) as (c' & Hc' & _ & Ho).
    rewrite Hcc, Hc'. unfold keys. by rewrite Ho.
  - split; [done|]. intros l Hl. destruct (Hc l Hl) as (c & Hcc & Hs).
    destruct (He _ _ Hcc) as (c' & Hc' & Hs' & _). exists c'. split; [done|]. congruence.
Qed.

Section set_classes.
Context (h : Heap) (cs : list (Class (K := loc))) (Hext : extends (classes h) cs).

Lemma set_classes_reachable p : heap_wf h → reachable (set_classes cs h) p ↔ reachable h p.
Proof.
  intros Hwf. split; (induction 1 as [p Hp|p b q Hp IH Hb Hq]; [by apply reachable_root|]);
    destruct (block_ptrs_classes _ _ b Hext) as [He _]; try (by eapply wf_blocks).
  - apply (reachable_step h p b q); [done|done|]. by rewrite <- He.
  - apply (reachable_step _ p b q); [done|done|]. cbn. by rewrite He.
Qed.

Lemma set_classes_size p b : heap_wf h → mem h !! p = Some b → block_size (set_classes cs h) p = block_size h p.
Proof.
  intros Hwf Hb. pose proof (wf_blocks _ Hwf _ _ Hb) as Hok. pose proof (block_ptrs_classes _ _ b Hext Hok) as [_ Hok'].
  unfold block_size, get_data_size, deref. cbn. rewrite Hb. cbn. rewrite (view_ok _ _ Hok). cbn.
  destruct (data b) as [| | | |l| | | | |] eqn:Hd; try done. cbn.
  destruct Hok as [_ Hok], Hok' as [_ Hok']. destruct (Hok l Hd) as (c & Hc & Hs), (Hok' l Hd) as (c' & Hc' & Hs').
  unfold heap_class_size, get_class_size, get_class. cbn. rewrite Hc, Hc'. cbn. congruence.
Qed.

Lemma set_classes_ok : heap_ok h → heap_ok (set_classes cs h).
Proof.
  intros [Hwf Hcl Hfit Hn]. split; [| | |done].
  - split; cbn; try apply Hwf.
    + intros p b Hb. apply (block_ptrs_classes (classes h)); [done|]. by eapply wf_blocks.
    + rewrite (wf_used _ Hwf). apply sum_over_ext. intros p Hp. destruct (wf_alloc _ Hwf p Hp) as (b & Hb & _).
      symmetry. by eapply set_classes_size.
  - split.
    + intros p Hp%set_classes_reachable; [|done]. by apply Hcl.
    + intros p b i q Hp%set_classes_reachable; [|done]. by apply Hcl.
  - intros l Hnd Hl. apply Hfit; [done|]. eapply Forall_impl; [done|]. intros p. by apply set_classes_reachable.
Qed.

Lemma set_classes_objects :
  heap_wf h → objects_ok h → ClassList.wf (name_at h) cs →
  (∀ c x, c ∈ cs → x ∈ keys c ++ map fst (transitions c) → static h x) → objects_ok (set_classes cs h).
Proof.
  intros Hwf [_ _ Hd Hf] Hwfc Hn. split; [done|done| |].
  - intros o b d Ho%set_classes_reachable; [|done]. by apply Hd.
  - intros d b l Ho%set_classes_reachable; [|done]. by apply Hf.
Qed.

Lemma set_classes_fits n : heap_ok h → live_fits h n → live_fits (set_classes cs h) n.
Proof.
  intros Hok Hl l Hnd Hin. rewrite (sum_over_ext _ (block_size h)).
  - apply Hl; [done|]. intros p [? ?%set_classes_reachable]%Hin; [done|]. apply Hok.
  - intros p [_ Hp]%Hin. apply set_classes_reachable in Hp; [|apply Hok].
    destruct (closed_ptrs _ (ok_closed _ Hok) p Hp) as [b Hb]. eapply set_classes_size; [apply Hok|done].
Qed.
End set_classes.

(** *** A collection *)
Lemma resolve_objects a a' (v v' : HeapRefView) d :
  resolve a' <$> v' = resolve a <$> v → v' = View.ObjectPtrPtr d → v = View.ObjectPtrPtr d.
Proof. intros Hr ->. by destruct v; try discriminate Hr; cbn in Hr; simplify_eq. Qed.
Lemma resolve_class a a' (v v' : HeapRefView) l' :
  resolve a' <$> v' = resolve a <$> v → v' = View.Class l' →
  ∃ l, v = View.Class l ∧ map (option_map (resolve a')) l' = map (option_map (resolve a)) l.
Proof. intros Hr ->. destruct v as [| | | |l| | | | |]; try discriminate Hr. exists l. split; [done|]. by injection Hr. Qed.

Lemma preserves_static h h' x : preserves h h' → static h x → static h' x ∧ name_at h' x = name_at h x.
Proof.
  intros Hp (Hx & b & s & Hb & Hs). destruct (pres_static _ _ Hp x b Hb Hx) as (b' & Hb' & Hd & Hx').
  split; [|by eapply name_ext]. split; [done|]. exists b', s. split; [done|congruence].
Qed.

Lemma preserves_objects h h' : closed h → preserves h h' → objects_ok h → objects_ok h'.
Proof.
  intros Hcl Hp [Hc Hn Hd Hf]. destruct (pres_frame _ _ Hp) as (Hcs & _).
  assert (∀ p b', reachable h' p → mem h' !! p = Some b' → ∃ b, reachable h p ∧ mem h !! p = Some b ∧
            resolve (f64_allocator h') <$> data b' = resolve (f64_allocator h) <$> data b) as Hback.
  { intros p b' Hr%(pres_reachable _ _ Hp) Hb'. destruct (closed_ptrs _ Hcl p Hr) as [b Hb]. exists b.
    destruct (pres_block _ _ Hp p b Hr Hb) as (b0 & Hb0 & _ & _ & Hres). simplify_eq. done. }
  split.
  - rewrite Hcs. eapply wf_ext; [|exact Hc]. intros c x Hin Hx. eapply preserves_static; eauto.
  - rewrite Hcs. intros c x Hin Hx. eapply preserves_static; eauto.
  - intros o b' d Ho Hb' Hdata. destruct (Hback o b' Ho Hb') as (b & Hr & Hb & Hres).
    pose proof (resolve_objects _ _ _ _ _ Hres Hdata) as Hdb. destruct (Hd o b d Hr Hb Hdb) as (bd & l & Hbd & Hl).
    assert (reachable h d) as Hrd.
    { eapply reachable_step; [exact Hr|exact Hb|]. unfold block_ptrs. rewrite Hdb. by left. }
    destruct (pres_block _ _ Hp d bd Hrd Hbd) as (bd' & Hbd' & _ & _ & Hres').
    symmetry in Hres'. destruct (resolve_class _ _ _ _ _ Hres' Hl) as (l' & Hl' & _). by exists bd', l'.
  - intros d b' l' Hrd Hb' Hl'. destruct (Hback d b' Hrd Hb') as (b & Hr & Hb & Hres).
    destruct (resolve_class _ _ _ _ _ Hres Hl') as (l & Hl & Hmap). specialize (Hf d b l Hr Hb Hl).
    apply Forall_forall. intros o Ho%list_elem_of_lookup. destruct Ho as [i Hi].
    assert (map (option_map (resolve (f64_allocator h'))) l' !! i = Some (option_map (resolve (f64_allocator h')) o)) as Hm
      by (by rewrite list_lookup_fmap, Hi).
    rewrite Hmap, list_lookup_fmap in Hm. destruct (l !! i) as [o0|] eqn:Hi0; [|done].
    rewrite Forall_lookup in Hf. destruct (Hf i o0 Hi0) as [x ->]. by destruct o.
Qed.

(** *** An object gets new data *)
Definition relink (h : Heap) (o : loc) (bo : block) (d : loc) (bd : block) : Heap :=
  store o (mkBlock (tag bo) (View.ObjectPtrPtr d)) (store d bd h).

(** There is room for [n] more floats. *)
Definition floats_room (h : Heap) (n : Z) : Prop :=
  ∀ l, NoDup l → Forall (reachable h) l → sum_over (f64s_at h) l + n < F64.LEN.

Section relink.
Context (h : Heap) (Hok : heap_ok h) (Hobj : objects_ok h).
Context (o d0 d : loc) (bo : block) (t : Tag) (l0 l : list (option AnyEnum)).
Context (Ho : reachable h o) (Hbo : mem h !! o = Some bo) (Hdo : data bo = View.ObjectPtrPtr d0).
Context (Hd : mem h !! d = Some (mkBlock t (View.Class l0))).
Context (Hlen : length l = length l0) (Hfull : Forall is_Some l).
Context (Hptrs : ∀ q, q ∈ values_ptrs (map (default Any.Undefined) l) → reachable h q ∨ static h q).
Context (Hcur : ∀ i q, l !! i = Some (Some (Any.F64 q)) → in_current (f64_allocator h) q).
Let bd := mkBlock t (View.Class l).
Context (Hfit : floats_room h (block_f64s bd)).
Let h' := relink h o bo d bd.

Lemma relink_other q : q ≠ o → q ≠ d → mem h' !! q = mem h !! q.
Proof. intros ??. cbn. by rewrite !lookup_insert_ne. Qed.
Lemma relink_object : mem h' !! o = Some (mkBlock (tag bo) (View.ObjectPtrPtr d)).
Proof. cbn. by rewrite lookup_insert_eq. Qed.
Lemma relink_distinct : o ≠ d.
Proof. intros Heq. rewrite Heq, Hd in Hbo. injection Hbo as Hb. by rewrite <- Hb in Hdo. Qed.
Lemma relink_data : mem h' !! d = Some bd.
Proof. cbn. pose proof relink_distinct. by rewrite lookup_insert_ne, lookup_insert_eq. Qed.

Lemma relink_static x : static h x → static h' x ∧ name_at h' x = name_at h x.
Proof.
  intros (Hx & b & s & Hb & Hs).
  assert (mem h' !! x = Some b) as Hb'.
  { rewrite relink_other; [done| |]; intros ->; simplify_eq; congruence. }
  split; [|by eapply name_ext]. split; [done|]. by exists b, s.
Qed.

Lemma relink_wf : heap_wf h'.
Proof.
  pose proof (wf_blocks _ (ok_wf _ Hok) _ _ Hd) as [Ht Hc]. pose proof (wf_blocks _ (ok_wf _ Hok) _ _ Hbo) as [Hto _].
  unfold h', relink. eapply (store_wf _ o bo).
  - apply (store_wf _ d (mkBlock t (View.Class l0))); try done; [apply Hok|by intros []|].
    split; [done|]. intros l' [= <-]. destruct (Hc l0 eq_refl) as (c & ? & ?). exists c. by rewrite Hlen.
  - cbn. rewrite lookup_insert_ne; [done|]. intros Heq. by apply relink_distinct.
  - done.
  - intros [s Hs]. congruence.
  - split; [by rewrite Hdo in Hto|done].
  - by rewrite Hdo.
Qed.

(** What may be reached afterwards. *)
Definition scope (q : loc) : Prop := reachable h q ∨ static h q ∨ q = d.

Lemma scope_block p : scope p → ∃ b, mem h' !! p = Some b ∧ (∀ q, q ∈ block_ptrs (classes h') b → scope q) ∧
     ∀ i q, View.slots (data b) !! i = Some (Some (Any.F64 q)) → in_current (f64_allocator h') q.
Proof.
  intros Hp. destruct (decide (p = d)) as [->|Hnd].
  { exists bd. split; [apply relink_data|]. split; [|done]. intros q [Hq|Hq]%elem_of_app.
    - destruct (Hptrs q Hq); [by left|right; by left].
    - right. left. cbn in Hq. destruct (classes h !! _) as [c|] eqn:Hc; [|by apply elem_of_nil in Hq].
      apply (obj_names _ Hobj c); [by eapply list_elem_of_lookup_2|]. apply elem_of_app. by left. }
  destruct (decide (p = o)) as [->|Hno].
  { eexists. split; [apply relink_object|]. split; [|done]. intros q ->%list_elem_of_singleton. right. by right. }
  rewrite relink_other by done. destruct Hp as [Hp|[Hp|Hp]]; [| |done].
  - destruct (closed_ptrs _ (ok_closed _ Hok) p Hp) as [b Hb]. exists b. split; [done|]. split.
    + intros q Hq. left. by eapply reachable_step.
    + intros i q. by apply (closed_f64s _ (ok_closed _ Hok) p).
  - pose proof Hp as (_ & b & s & Hb & _). exists b. split; [done|].
    destruct (static_ptrs (classes h) h p b Hp Hb) as (Hnil & Hslot & _). split.
    + intros q Hq. change (classes h') with (classes h) in Hq. rewrite Hnil in Hq. by apply elem_of_nil in Hq.
    + intros i q Hi. by rewrite Hslot in Hi.
Qed.

Lemma relink_f64s q : q ≠ d → f64s_at h' q = f64s_at h q.
Proof.
  intros Hq. destruct (decide (q = o)) as [->|Hno].
  - unfold f64s_at. rewrite relink_object, Hbo. unfold block_f64s, slot_values. by rewrite Hdo.
  - unfold f64s_at. by rewrite relink_other.
Qed.

Lemma relink_fit k : NoDup k → Forall scope k → sum_over (f64s_at h') k < F64.LEN.
Proof.
  intros Hnd Hk. rewrite Forall_forall in Hk. rewrite sum_over_nonzero.
  set (k1 := filter (λ q, f64s_at h' q ≠ 0 ∧ q ≠ d) k).
  assert (∀ q, 0 <= f64s_at h' q) as Hpos by (intros q; unfold f64s_at, block_f64s; destruct (mem h' !! q); lia).
  eapply Z.le_lt_trans; [apply (sum_over_incl (f64s_at h') _ (d :: k1)); [done|by apply NoDup_filter|]|].
  { intros q [Hq Hin]%list_elem_of_filter. destruct (decide (q = d)) as [->|Hne]; [by left|right].
    by apply list_elem_of_filter. }
  rewrite sum_over_cons. unfold f64s_at at 1. rewrite relink_data.
  rewrite (sum_over_ext _ (f64s_at h)).
  - pose proof (Hfit k1) as Hf. rewrite Z.add_comm. apply Hf; [by apply NoDup_filter|].
    apply Forall_forall. intros q [[Hq Hne] Hin]%list_elem_of_filter. rewrite relink_f64s in Hq by done.
    destruct (Hk q Hin) as [?|[Hs|?]]; [done| |done]. pose proof Hs as (_ & b & s & Hb & _).
    by destruct (static_ptrs (classes h) h q b Hs Hb) as (_ & _ & ?).
  - intros q [[_ Hne] _]%list_elem_of_filter. by apply relink_f64s.
Qed.

Lemma relink_ok : heap_ok h' ∧ ∀ p, reachable h' p → scope p.
Proof.
  apply heap_ok_within.
  - apply relink_wf.
  - apply (ok_next _ Hok).
  - intros p Hp. left. by apply reachable_root.
  - apply scope_block.
  - apply relink_fit.
Qed.

Lemma relink_objects : objects_ok h'.
Proof.
  destruct relink_ok as [_ Hscope]. pose proof Hobj as [Hc Hn Hdt Hf]. split.
  - eapply wf_ext; [|exact Hc]. intros c x Hin Hx. eapply relink_static; eauto.
  - intros c x Hin Hx. eapply relink_static; eauto.
  - intros o' b d' Ho' Hb Hdata. destruct (decide (o' = o)) as [->|Hno].
    { rewrite relink_object in Hb. injection Hb as <-. injection Hdata as <-. exists bd, l. split; [apply relink_data|done]. }
    destruct (decide (o' = d)) as [->|Hnd]. { rewrite relink_data in Hb. by injection Hb as <-. }
    rewrite relink_other in Hb by done. destruct (Hscope o' Ho') as [Hr|[(_ & b' & s & Hb' & Hs)|?]]; [|simplify_eq; congruence|done].
    destruct (Hdt o' b d' Hr Hb Hdata) as (b1 & l1 & Hb1 & Hl1). destruct (decide (d' = d)) as [->|Hnd'].
    { exists bd, l. split; [apply relink_data|done]. }
    exists b1, l1. split; [|done]. rewrite relink_other; [done| |done]. intros ->. simplify_eq. congruence.
  - intros d' b l' Hd' Hb Hl'. destruct (decide (d' = d)) as [->|Hnd]. { rewrite relink_data in Hb. injection Hb as <-. by injection Hl' as <-. }
    destruct (decide (d' = o)) as [->|Hno]. { rewrite relink_object in Hb. by injection Hb as <-. }
    rewrite relink_other in Hb by done. destruct (Hscope d' Hd') as [Hr|[(_ & b' & s & Hb' & Hs)|?]]; [eauto|simplify_eq; congruence|done].
Qed.
End relink.

Lemma values_ptrs_elem q l : q ∈ values_ptrs l ↔ ∃ a, a ∈ l ∧ q ∈ value_ptrs a.
Proof.
  unfold values_ptrs. induction l as [|a l IH]; cbn.
  - split; [by intros ?%elem_of_nil|]. by intros (a & ?%elem_of_nil & _).
  - rewrite elem_of_app, IH. split.
    + intros [Hq|(b & Hb & Hq)]; [exists a; split; [left|done]|exists b; split; [by right|done]].
    + intros (b & [->|Hb]%elem_of_cons & Hq); [by left|right; eauto].
Qed.
(** The pointers of the values of an object. *)
Lemma slots_ptrs_elem q (l : list (option AnyEnum)) : q ∈ values_ptrs (map (default Any.Undefined) l) ↔
  ∃ a, Some a ∈ l ∧ q ∈ value_ptrs a.
Proof.
  rewrite values_ptrs_elem. split.
  - intros (a & ([b|] & -> & Hb)%list_elem_of_fmap & Hq); [by exists b|]. by apply elem_of_nil in Hq.
  - intros (a & Ha & Hq). exists a. split; [|done]. apply list_elem_of_fmap. by exists (Some a).
Qed.

(** *** Reading the map of an object *)
Lemma own_lookup h d t l c s :
  mem h !! d = Some (mkBlock t (View.Class l)) → class_at h t = Some c →
  own h d s = (i ← position h c s; mjoin (l !! i)).
Proof. intros Hd Hc. unfold own. rewrite Hd. cbn. by rewrite Hc. Qed.

Lemma slots_fmap {A B} (f : A → B) (v : View.HeapRefView A) : View.slots (f <$> v) = map (option_map f) (View.slots v).
Proof. destruct v; cbn; rewrite ?map_map; done. Qed.

Lemma block_f64s_resolve a a' b b' : resolve a' <$> data b' = resolve a <$> data b → block_f64s b' = block_f64s b.
Proof.
  intros Hr%(f_equal View.slots). rewrite !slots_fmap in Hr. unfold block_f64s, slot_values. rewrite !f64_indices_length.
  assert (∀ a ss, concat (map (λ x, match x with Any.F64 _ => [tt] | _ => [] end) (map (default Any.Undefined) ss)) =
    concat (map (λ x : option (AnyEnum + option f64), match x with Some (inr _) => [tt] | _ => [] end) (map (option_map (resolve a)) ss))) as He.
  { clear. intros a ss. induction ss as [|[[]|] ss IH]; cbn; congruence. }
  by rewrite (He a'), (He a), Hr.
Qed.

(** The same data, under the same names, is the same map. *)
Lemma property_ext h h' d b b' s :
  mem h !! d = Some b → mem h' !! d = Some b' → class_tag (tag b') = class_tag (tag b) →
  resolve (f64_allocator h') <$> data b' = resolve (f64_allocator h) <$> data b →
  extends (classes h) (classes h') → block_ok (classes h) b → objects_ok h →
  (∀ x, static h x → name_at h' x = name_at h x) → property h' d s = property h d s.
Proof.
  intros Hb Hb' Ht Hr He [_ Hok] Hobj Hn. unfold property, own, class_at. rewrite Hb, Hb'. cbn. rewrite Ht.
  destruct (data b) as [?|?|?|?|l|q|? ?|?|?|?] eqn:Hd, (data b') as [?|?|?|?|l'|q'|? ?|?|?|?] eqn:Hd'; try discriminate Hr; try done.
  destruct (Hok l eq_refl) as (c & Hc & _). destruct (He _ _ Hc) as (c' & Hc' & _ & Hoff). rewrite Hc, Hc'. cbn.
  rewrite (position_ext h h' c c'); [|unfold keys; by rewrite Hoff|].
  - destruct (position h c s) as [i|]; [|done]. cbn. injection Hr as Hr.
    assert (map (option_map (resolve (f64_allocator h'))) l' !! i = map (option_map (resolve (f64_allocator h))) l !! i) as Hi by by rewrite Hr.
    rewrite !list_lookup_fmap in Hi. destruct (l' !! i) as [[]|], (l !! i) as [[]|]; cbn in *; congruence.
  - intros x Hx. apply Hn, (obj_names _ Hobj c); [by eapply list_elem_of_lookup_2|]. apply elem_of_app. by left.
Qed.

(** What setting the property [s] of the object [o] with data [d] does. *)
Record updated (h : Heap) (o d : loc) (s : string) (v : AnyEnum) (h' : Heap) : Prop := {
  upd_ok : heap_ok h';
  upd_objects : objects_ok h';
  upd_frame : shadow_stack h' = shadow_stack h ∧ Heap.size h' = Heap.size h ∧ tag_size h' = tag_size h;
  upd_static x : static h x → static h' x ∧ name_at h' x = name_at h x;
  upd_object : ∃ d', object_data h' o = Ok d' ∧ own h' d' s = Some v ∧
    ∀ s', s' ≠ s → property h' d' s' = property h d s';
  upd_others p b : reachable h p → p ≠ o → p ≠ d → mem h !! p = Some b →
    ∃ b', mem h' !! p = Some b' ∧ type_tag (tag b') = type_tag (tag b) ∧
      resolve (f64_allocator h') <$> data b' = resolve (f64_allocator h) <$> data b ∧
      ∀ s', property h' p s' = property h p s'
}.

(** *** A new object *)
Definition object_data_block (tg : Z) (c : Class (K := loc)) : block :=
  mkBlock (object_tag tg) (View.Class (replicate (Z.to_nat (ClassList.size c)) None)).

Lemma alloc_object_data_ok h tg c :
  let bytes := tag_size h + object_data_size (ClassList.size c) in
  classes h !! Z.to_nat tg = Some c → 0 <= ClassList.size c → heap_ok h → live_fits h bytes →
  ∃ p h', alloc_object_data_or_gc h tg = Ok (p, h') ∧ allocated h (object_data_block tg c) p h' ∧
    (used_mem h + bytes <= Heap.size h → f64_allocator h' = f64_allocator h).
Proof.
  intros bytes Hc Hs Hok Hl.
  assert (∀ h1, classes h1 = classes h → tag_size h1 = tag_size h →
    alloc_object_data h1 tg = Ok (alloc_raw h1 bytes (object_data_block tg c))) as Hf.
  { intros h1 Hcs Ht. unfold alloc_object_data, heap_class_size, get_class_size, get_class. rewrite Hcs, Hc. cbn.
    unfold alloc_slice. by rewrite Ht. }
  destruct (or_gc_allocated (λ h, alloc_object_data h tg) h bytes (object_data_block tg c)) as (p & h' & Hp & Ha);
    [done|done|by apply alloc_object_data_request|done|].
  exists p, h'. split; [done|]. split; [done|]. intros Hr. unfold or_gc in Hp. rewrite Hf, alloc_raw_room in Hp by done.
  cbn in Hp. by injection Hp as <- <-.
Qed.

(** The loop that copies the fields. *)
Lemma store_store p b b' h : store p b (store p b' h) = store p b h.
Proof. unfold store, set_mem. cbn. by rewrite insert_insert_eq. Qed.

Lemma store_id p b h : mem h !! p = Some b → store p b h = h.
Proof. intros Hb. unfold store, set_mem. destruct h. cbn in *. by rewrite insert_id. Qed.

Lemma read_at_ok h d t l i e :
  mem h !! d = Some (mkBlock t (View.Class l)) → l !! i = Some e → read_at h d (Z.of_nat i) = Ok e.
Proof.
  intros Hd Hi. unfold read_at, as_array, deref. rewrite Hd. cbn. rewrite bool_decide_true by lia. by rewrite Nat2Z.id, Hi.
Qed.
Lemma write_at_ok h d t l i a :
  mem h !! d = Some (mkBlock t (View.Class l)) → (i < length l)%nat →
  write_at h d (Z.of_nat i) a = Ok (store d (mkBlock t (View.Class (<[i := Some a]> l))) h).
Proof.
  intros Hd Hi. unfold write_at, as_array, deref. rewrite Hd. cbn. rewrite bool_decide_true by lia. by rewrite Nat2Z.id.
Qed.
Lemma mem_store p b h q : mem (store p b h) !! q = if decide (p = q) then Some b else mem h !! q.
Proof. unfold store, set_mem. cbn. case_decide as Hq; [subst; apply lookup_insert_eq|by apply lookup_insert_ne]. Qed.

Lemma copy_fields h d t p tp pre l r :
  mem h !! d = Some (mkBlock t (View.Class (pre ++ l))) → d ≠ p → Forall is_Some l → (length r = length l)%nat →
  foldM (copy_field d p) (store p (mkBlock tp (View.Class (pre ++ r ++ [None]))) h)
    (seqZ (Z.of_nat (length pre)) (Z.of_nat (length l))) =
  Ok (store p (mkBlock tp (View.Class (pre ++ l ++ [None]))) h).
Proof.
  intros Hd Hne. revert pre r Hd. induction l as [|e0 l IH]; intros pre [|e r] Hd Hl Hr; try discriminate Hr; [done|].
  apply Forall_cons in Hl as [[a ->] Hl]. cbn [length]. rewrite Nat2Z.inj_succ, seqZ_cons by lia. cbn [foldM].
  unfold copy_field at 2. rewrite (read_at_ok _ d t (pre ++ Some a :: l) _ (Some a)); [|by rewrite mem_store, decide_False|by apply list_lookup_middle].
  cbn [mbind comp_bind]. rewrite (write_at_ok _ p tp (pre ++ (e :: r) ++ [None])); [|by rewrite mem_store, decide_True|rewrite length_app; cbn; lia].
  rewrite store_store, insert_app_r_alt, Nat.sub_diag by done. cbn [mbind comp_bind].
  specialize (IH (pre ++ [Some a]) r). rewrite <- !app_assoc in IH. rewrite length_app in IH.
  replace (Z.of_nat (length pre + length [Some a])) with (Z.succ (Z.of_nat (length pre))) in IH by (cbn; lia).
  rewrite Z.pred_succ. apply IH; [done|done|]. by injection Hr.
Qed.

(** The class of data that can be reached. *)
Lemma class_layout h : heap_ok h → objects_ok h → ∀ d t l, reachable h d → mem h !! d = Some (mkBlock t (View.Class l)) →
  ∃ c, classes h !! Z.to_nat (class_tag t) = Some c ∧ ClassList.size c = Z.of_nat (length l) ∧
    length (keys c) = length l ∧ Forall is_Some l ∧ c ∈ classes h.
Proof.
  intros Hok Hobj d t l Hr Hbd. destruct (wf_blocks _ (ok_wf _ Hok) _ _ Hbd) as [_ Hc].
  destruct (Hc l eq_refl) as (c & Hcc & Hs). cbn in Hcc.
  exists c. apply list_elem_of_lookup_2 in Hcc as Hin. destruct (class_ok_in h Hobj c Hin) as (Hoff & _).
  pose proof (size_keys _ _ Hoff) as Hk. split_and!; try done; [lia|]. by apply (obj_full _ Hobj d _ l Hr Hbd).
Qed.

(** The data of an object, before it is changed. *)
Section object.
Context (h : Heap) (Hok : heap_ok h) (Hobj : objects_ok h).
Context (o d : loc) (bo : block) (Ho : reachable h o) (Hbo : mem h !! o = Some bo) (Hdo : data bo = View.ObjectPtrPtr d).

Lemma object_reachable : reachable h d.
Proof. eapply reachable_step; [exact Ho|exact Hbo|]. unfold block_ptrs. rewrite Hdo. by left. Qed.

Lemma object_layout : ∃ t l c, mem h !! d = Some (mkBlock t (View.Class l)) ∧ classes h !! Z.to_nat (class_tag t) = Some c ∧
  ClassList.size c = Z.of_nat (length l) ∧ length (keys c) = length l ∧ Forall is_Some l ∧ c ∈ classes h.
Proof.
  destruct (obj_data _ Hobj o bo d Ho Hbo Hdo) as (bd & l & Hbd & Hl). destruct bd as [t w]. cbn in Hl. subst w.
  exists t, l. destruct (class_layout h Hok Hobj d t l object_reachable Hbd) as (c & ?). by exists c.
Qed.

Lemma class_of_object t l c : mem h !! d = Some (mkBlock t (View.Class l)) → classes h !! Z.to_nat (class_tag t) = Some c →
  object_class_tag h d = Ok (class_tag t) ∧ get_class (classes h) (class_tag t) = @Ok never _ c.
Proof.
  intros Hd Hc. unfold object_class_tag, as_array, deref, get_class. rewrite Hd, Hc. done.
Qed.

Context (x : loc) (s : string) (v : AnyEnum) (Hx : static h x) (Hxs : name_at h x = Some s).
Context (Hv : ∀ q, q ∈ value_ptrs v → reachable h q).

(** Where values may point after something was stored. *)
Lemma data_values t l q : mem h !! d = Some (mkBlock t (View.Class l)) →
  q ∈ values_ptrs (map (default Any.Undefined) l) → reachable h q.
Proof.
  intros Hd Hq. eapply reachable_step; [apply object_reachable|exact Hd|]. apply elem_of_app. by left.
Qed.

(** *** The property is there: it is written in place *)
Section present.
Context (t : Tag) (l : list (option AnyEnum)) (c : Class (K := loc)) (i : nat).
Context (Hd : mem h !! d = Some (mkBlock t (View.Class l))) (Hc : classes h !! Z.to_nat (class_tag t) = Some c).
Context (Hi : position h c s = Some i) (Hil : (i < length l)%nat) (Hfull : Forall is_Some l).
Context (Hcur : ∀ q, v = Any.F64 q → in_current (f64_allocator h) q) (Hroom : floats_room h (f64s_at h d + 1)).
Let l' := <[i := Some v]> l.
Let h' := relink h o bo d (mkBlock t (View.Class l')).

Lemma write_present : ∃ h1, write_at h d (Z.of_nat i) v = Ok h1 ∧ set_object_data h1 o d = Ok h'.
Proof.
  unfold write_at, as_array, deref. rewrite Hd. cbn. rewrite bool_decide_true by lia. rewrite Nat2Z.id.
  eexists. split; [done|]. unfold set_object_data, deref. cbn.
  assert (d ≠ o) as Hne by (intros ->; rewrite Hd in Hbo; by injection Hbo as <-).
  rewrite lookup_insert_ne by done. rewrite Hbo. cbn. by rewrite Hdo.
Qed.

Lemma block_f64s_insert : block_f64s (mkBlock t (View.Class l')) <= f64s_at h d + 1.
Proof.
  unfold f64s_at. rewrite Hd. unfold block_f64s, slot_values. cbn [data View.slots]. rewrite !f64_indices_length.
  unfold l'. clear -Hil. revert i Hil. induction l as [|e m IH]; intros [|i] Hi; cbn in *; [lia|lia| |].
  - rewrite length_app. destruct v, e as [[]|]; cbn; lia.
  - rewrite !length_app. specialize (IH i ltac:(lia)). rewrite !Nat2Z.inj_add. etrans; [apply Zplus_le_compat_l, IH|]. lia.
Qed.

Lemma present_relink : heap_ok h' ∧ objects_ok h'.
Proof.
  assert (length l' = length l) as Hlen by apply length_insert.
  assert (Forall is_Some l') as Hf by (apply Forall_insert; [done|by eexists]).
  assert (∀ q, q ∈ values_ptrs (map (default Any.Undefined) l') → reachable h q ∨ static h q) as Hp.
  { intros q (a & Ha & Hq)%slots_ptrs_elem. left. apply list_elem_of_lookup in Ha as [j Hj].
    apply list_lookup_insert_Some in Hj as [(_ & [= <-] & _)|(_ & Hj)]; [by apply Hv|].
    eapply data_values; [exact Hd|]. apply slots_ptrs_elem. exists a. split; [by eapply list_elem_of_lookup_2|done]. }
  assert (∀ j q, l' !! j = Some (Some (Any.F64 q)) → in_current (f64_allocator h) q) as Hcu.
  { intros j q [(_ & Heq & _)|(_ & Hj)]%list_lookup_insert_Some; [injection Heq; auto|].
    by apply (closed_f64s _ (ok_closed _ Hok) d _ j q object_reachable Hd). }
  assert (floats_room h (block_f64s (mkBlock t (View.Class l')))) as Hr.
  { intros k Hnd Hk. pose proof (Hroom k Hnd Hk). pose proof block_f64s_insert. lia. }
  split; [by eapply relink_ok|by eapply relink_objects].
Qed.

Lemma names_static y : y ∈ keys c → static h y.
Proof.
  intros Hy. apply (obj_names _ Hobj c); [by eapply list_elem_of_lookup_2|]. apply elem_of_app. by left.
Qed.

Lemma present_static y : static h y → static h' y ∧ name_at h' y = name_at h y.
Proof. by eapply relink_static. Qed.

Lemma present_position s' : position h' c s' = position h c s'.
Proof. apply position_ext; [done|]. intros y Hy. by apply present_static, names_static. Qed.

Lemma present_updated : updated h o d s v h'.
Proof.
  destruct present_relink as [Hok' Hobj']. split; [done|done|done|apply present_static| |].
  - assert (mem h' !! d = Some (mkBlock t (View.Class l'))) as Hd' by (by eapply relink_data).
    assert (mem h' !! o = Some (mkBlock (tag bo) (View.ObjectPtrPtr d))) as Ho' by (by eapply relink_object).
    exists d. split; [unfold object_data, deref; by rewrite Ho'|].
    split.
    + rewrite (own_lookup h' d t l' c) by done. rewrite present_position, Hi. cbn. unfold l'. by rewrite list_lookup_insert_eq.
    + intros s' Hne. unfold property. rewrite (own_lookup h' d t l' c), (own_lookup h d t l c), present_position by done.
      destruct (position h c s') as [j|] eqn:Hj; [|done]. cbn. unfold l'. rewrite list_lookup_insert_ne; [done|].
      intros ->. apply Hne. unfold position in Hi, Hj. destruct (list_find _ _) as [[k y]|] eqn:Hf in Hi; [|done].
      destruct (list_find _ _) as [[k' y']|] eqn:Hf' in Hj; [|done]. injection Hi as ->. injection Hj as ->.
      apply list_find_Some in Hf as (Hk & Hy & _), Hf' as (Hk' & Hy' & _). congruence.
  - intros p b Hp Hpo Hpd Hb. exists b. assert (mem h' !! p = Some b) as Hb' by (by rewrite <- Hb; eapply relink_other).
    split_and!; try done. intros s'. eapply property_ext; try done; [apply extends_refl|by eapply wf_blocks, Hb; apply Hok|].
    intros y Hy. by apply present_static.
Qed.
End present.

(** *** The property is not there: the object moves to another class *)
Section missing.
Context (t : Tag) (l : list (option AnyEnum)) (c : Class (K := loc)).
Context (Hd : mem h !! d = Some (mkBlock t (View.Class l))) (Hc : classes h !! Z.to_nat (class_tag t) = Some c).
Context (Hsz : ClassList.size c = Z.of_nat (length l)) (Hkeys : length (keys c) = length l) (Hfull : Forall is_Some l).
Context (Hs : position h c s = None) (Hcs : Z.of_nat (length (classes h)) < 2 ^ 16).
Let bytes := tag_size h + object_data_size (Z.of_nat (length l) + 1).
Context (Hlive : live_fits h bytes) (Hroom : floats_room h (f64s_at h d + 1)).
Context (Hfl : ∀ q, v = Any.F64 q → in_current (f64_allocator h) q ∧ used_mem h + bytes <= Heap.size h).

Lemma missing_class : ∃ tg cs c' y,
  class_transition h (class_tag t) x = Ok (tg, set_classes cs h) ∧ extends (classes h) cs ∧ 0 <= tg < 2 ^ 16 ∧
  cs !! Z.to_nat tg = Some c' ∧ ClassList.size c' = Z.of_nat (length l) + 1 ∧ keys c' = keys c ++ [y] ∧
  name_at h y = Some s ∧ objects_ok (set_classes cs h).
Proof.
  apply list_elem_of_lookup_2 in Hc as Hin. destruct (class_names h Hobj c Hin) as [_ Htr].
  destruct (@transition_lemma _ _ _ (name_at h) never (classes h) (class_tag t) c x) as
    (tg & cs & c' & y & Ht & Hwf & He & Htg & Hc' & Hsz' & Hoff & Hy & _).
  - apply Hobj.
  - done.
  - rewrite Hxs. intros (z & Hz & Hzin)%list_elem_of_fmap. by apply (proj1 (position_None h c s) Hs z).
  - done.
  - assert (∀ c0 z, c0 ∈ cs → z ∈ keys c0 ++ map fst (transitions c0) → static h z) as Hst.
    { intros c0 z Hc0 Hz. destruct (transition_names _ _ _ _ _ _ Ht c0 z Hc0 Hz) as [->|(c1 & ? & ?)]; [done|].
      by apply (obj_names _ Hobj c1). }
    exists tg, cs, c', y. split_and!; try done; try lia.
    + unfold class_transition, get_class. rewrite Hc. cbn [expect mbind comp_bind].
      rewrite compare_names_static by done. cbn [mbind comp_bind]. by rewrite Ht.
    + unfold keys. by rewrite Hoff, map_app.
    + congruence.
    + apply set_classes_objects; [done|apply Hok|done|done|done].
Qed.

(** After the allocation: [h2] is the heap, [n] the new data. *)
Section allocated.
Context (cs : list (Class (K := loc))) (tg : Z) (c' : Class (K := loc)) (y n : loc) (h2 : Heap).
Context (Hext : extends (classes h) cs) (Hobj1 : objects_ok (set_classes cs h)).
Context (Hc' : cs !! Z.to_nat tg = Some c') (Hsz' : ClassList.size c' = Z.of_nat (length l) + 1).
Context (Hk' : keys c' = keys c ++ [y]) (Hy : name_at h y = Some s).
Context (Ha : allocated (set_classes cs h) (object_data_block tg c') n h2).
Context (Hfa : used_mem h + bytes <= Heap.size h → f64_allocator h2 = f64_allocator h).

Lemma allocated_classes : classes h2 = cs ∧ shadow_stack h2 = shadow_stack h ∧ Heap.size h2 = Heap.size h ∧ tag_size h2 = tag_size h.
Proof. destruct (pres_frame _ _ (alloc_preserves _ _ _ _ Ha)) as (? & ? & ? & ?). done. Qed.

Lemma allocated_objects : objects_ok h2.
Proof. eapply preserves_objects; [|apply Ha|done]. apply (set_classes_ok h cs Hext Hok). Qed.

Lemma allocated_reachable p : reachable h2 p ↔ reachable h p.
Proof. rewrite (pres_reachable _ _ (alloc_preserves _ _ _ _ Ha)). apply set_classes_reachable; [done|apply Hok]. Qed.

Lemma allocated_static z : static h z → static h2 z ∧ name_at h2 z = name_at h z.
Proof. intros Hz. by apply (preserves_static (set_classes cs h)); [apply Ha|]. Qed.

Lemma allocated_kept p b : reachable h p → mem h !! p = Some b →
  ∃ b', mem h2 !! p = Some b' ∧ type_tag (tag b') = type_tag (tag b) ∧ class_tag (tag b') = class_tag (tag b) ∧
    resolve (f64_allocator h2) <$> data b' = resolve (f64_allocator h) <$> data b.
Proof.
  intros Hp Hb. apply (pres_block _ _ (alloc_preserves _ _ _ _ Ha) p b); [|done].
  apply set_classes_reachable; [done|apply Hok|done].
Qed.

Lemma allocated_room : floats_room h2 (f64s_at h d + 1).
Proof.
  intros k Hnd Hk. rewrite (sum_over_ext _ (f64s_at h)).
  - apply Hroom; [done|]. eapply Forall_impl; [exact Hk|]. intros p. apply allocated_reachable.
  - intros p Hp. rewrite Forall_forall in Hk. apply Hk, allocated_reachable in Hp.
    destruct (closed_ptrs _ (ok_closed _ Hok) p Hp) as [b Hb]. destruct (allocated_kept p b Hp Hb) as (b' & Hb' & _ & _ & Hr).
    unfold f64s_at. rewrite Hb, Hb'. by eapply block_f64s_resolve.
Qed.

(** The object and its data in [h2]. *)
Lemma allocated_object : ∃ bo2 t2 l2, mem h2 !! o = Some bo2 ∧ data bo2 = View.ObjectPtrPtr d ∧
  mem h2 !! d = Some (mkBlock t2 (View.Class l2)) ∧ class_tag t2 = class_tag t ∧
  map (option_map (resolve (f64_allocator h2))) l2 = map (option_map (resolve (f64_allocator h))) l ∧
  length l2 = length l ∧ Forall is_Some l2.
Proof.
  destruct (allocated_kept o bo Ho Hbo) as (bo2 & Hbo2 & _ & _ & Hro). symmetry in Hro.
  pose proof (resolve_objects _ _ _ _ _ Hro Hdo) as Hdo2. pose proof object_reachable as Hrd.
  destruct (allocated_kept d _ Hrd Hd) as ([t2 w] & Hd2 & _ & Ht2 & Hr). symmetry in Hr.
  destruct (resolve_class _ _ _ _ _ Hr eq_refl) as (l2 & Hl2 & Hmap). cbn in Hl2. subst w.
  exists bo2, t2, l2. split_and!; try done.
  - by apply (f_equal length) in Hmap; rewrite !length_map in Hmap.
  - apply (obj_full _ allocated_objects d _ l2 (proj2 (allocated_reachable d) Hrd) Hd2 eq_refl).
Qed.

Section moved.
Context (bo2 : block) (t2 : Tag) (l2 : list (option AnyEnum)).
Context (Hbo2 : mem h2 !! o = Some bo2) (Hdo2 : data bo2 = View.ObjectPtrPtr d).
Context (Hd2 : mem h2 !! d = Some (mkBlock t2 (View.Class l2))) (Ht2 : class_tag t2 = class_tag t).
Context (Hmap : map (option_map (resolve (f64_allocator h2))) l2 = map (option_map (resolve (f64_allocator h))) l).
Context (Hl2 : length l2 = length l) (Hfull2 : Forall is_Some l2).
Let l' := l2 ++ [Some v].
Let bn := mkBlock (object_tag tg) (View.Class l').
Let h' := relink h2 o bo2 n bn.

Lemma new_block : mem h2 !! n = Some (mkBlock (object_tag tg) (View.Class (replicate (length l) None ++ [None]))).
Proof.
  rewrite (alloc_block _ _ _ _ Ha). unfold object_data_block. rewrite Hsz'.
  replace (Z.to_nat (Z.of_nat (length l) + 1)) with (length l + 1)%nat by lia. by rewrite replicate_add.
Qed.
Lemma new_distinct : d ≠ n.
Proof.
  pose proof object_reachable as Hr. intros Heq. apply (alloc_fresh _ _ _ _ Ha).
  apply set_classes_reachable; [done|apply Hok|]. by rewrite <- Heq.
Qed.

Lemma copy_and_write :
  (h3 ← foldM (copy_field d n) h2 (seqZ 0 (ClassList.size c));
   h4 ← write_at h3 n (ClassList.size c) v; set_object_data h4 o n) = Ok h'.
Proof.
  assert (h2 = store n (mkBlock (object_tag tg) (View.Class ([] ++ replicate (length l) None ++ [None]))) h2) as He.
  { symmetry. apply store_id, new_block. }
  rewrite He at 1. rewrite Hsz, <- Hl2. rewrite (copy_fields h2 d t2 n _ [] l2) by first [done|exact new_distinct|by rewrite length_replicate].
  cbn [mbind comp_bind app]. rewrite (write_at_ok _ n (object_tag tg) (l2 ++ [None])); [|by rewrite mem_store, decide_True|rewrite length_app; cbn; lia].
  rewrite store_store, insert_app_r_alt, Nat.sub_diag by done. cbn [mbind comp_bind].
  unfold set_object_data, deref. rewrite mem_store, decide_False, Hbo2.
  - cbn [mbind comp_bind]. by rewrite Hdo2.
  - intros Heq. pose proof new_block as Hn. rewrite Heq, Hbo2 in Hn. injection Hn as Hn. by rewrite Hn in Hdo2.
Qed.

Lemma moved_f64s : block_f64s bn <= f64s_at h d + 1.
Proof.
  assert (block_f64s (mkBlock t2 (View.Class l2)) = f64s_at h d) as <-.
  { unfold f64s_at. rewrite Hd. apply (block_f64s_resolve (f64_allocator h) (f64_allocator h2)). cbn. by rewrite Hmap. }
  unfold block_f64s, slot_values. cbn [data bn View.slots]. rewrite !f64_indices_length. unfold l'.
  rewrite !map_app, concat_app, length_app. cbn. destruct v; cbn; lia.
Qed.

Lemma moved_conditions :
  Forall is_Some l' ∧ (∀ q, q ∈ values_ptrs (map (default Any.Undefined) l') → reachable h2 q ∨ static h2 q) ∧
  (∀ i q, l' !! i = Some (Some (Any.F64 q)) → in_current (f64_allocator h2) q) ∧ floats_room h2 (block_f64s bn).
Proof.
  split_and!.
  - apply Forall_app. split; [done|]. by constructor.
  - intros q (a & Ha' & Hq)%slots_ptrs_elem. left. apply elem_of_app in Ha' as [Ha'|Ha'%list_elem_of_singleton].
    + eapply reachable_step; [apply allocated_reachable, object_reachable|exact Hd2|]. apply elem_of_app. left.
      apply slots_ptrs_elem. by exists a.
    + injection Ha' as ->. by apply allocated_reachable, Hv.
  - intros i q [Hi|[_ Hi]]%lookup_app_Some.
    + eapply (closed_f64s _ (ok_closed _ (alloc_ok _ _ _ _ Ha)) d); [apply allocated_reachable, object_reachable|exact Hd2|exact Hi].
    + apply list_lookup_singleton_Some in Hi as [_ [= Hi]]. destruct (Hfl q Hi) as [Hq Hr]. by rewrite Hfa.
  - intros k Hnd Hk. pose proof (allocated_room k Hnd Hk). pose proof moved_f64s. lia.
Qed.

Lemma moved_ok : heap_ok h' ∧ objects_ok h'.
Proof.
  destruct moved_conditions as (Hf & Hp & Hcu & Hr).
  assert (length l' = length (replicate (length l) (@None AnyEnum) ++ [None])) as Hlen.
  { unfold l'. by rewrite !length_app, length_replicate, Hl2. }
  pose proof new_block. assert (reachable h2 o) by by apply allocated_reachable. split.
  - eapply relink_ok; try done; [apply Ha|apply allocated_objects].
  - eapply relink_objects; try done; [apply Ha|apply allocated_objects].
Qed.

Lemma moved_static z : static h z → static h' z ∧ name_at h' z = name_at h z.
Proof.
  intros [Hz Hn]%allocated_static. pose proof new_block as Hb.
  assert (static h' z ∧ name_at h' z = name_at h2 z) as [? ?] by (by eapply relink_static).
  split; [done|congruence].
Qed.

Lemma moved_positions s' :
  position h' c' s' = match position h c s' with Some i => Some i | None => if decide (s = s') then Some (length l) else None end.
Proof.
  rewrite (position_snoc h' c c' y) by done. rewrite (position_ext h h' c c).
  - destruct (moved_static y) as [_ ->].
    { apply (obj_names _ Hobj1 c'); [by eapply list_elem_of_lookup_2|]. rewrite Hk', elem_of_app. left. apply elem_of_app. right. by left. }
    rewrite Hy, Hkeys. destruct (position h c s'); [done|]. do 2 case_decide; congruence.
  - done.
  - intros z Hz. apply moved_static, (obj_names _ Hobj c); [by eapply list_elem_of_lookup_2|]. apply elem_of_app. by left.
Qed.

Lemma moved_object : ∃ d', object_data h' o = Ok d' ∧ own h' d' s = Some v ∧ ∀ s', s' ≠ s → property h' d' s' = property h d s'.
Proof.
  assert (mem h' !! o = Some (mkBlock (tag bo2) (View.ObjectPtrPtr n))) as Ho' by apply relink_object.
  assert (mem h' !! n = Some bn) as Hn' by (eapply relink_data; [exact Hbo2|exact Hdo2|exact new_block]).
  assert (class_at h' (object_tag tg) = Some c') as Hcn.
  { unfold class_at. change (classes h') with (classes h2). destruct allocated_classes as (-> & _). done. }
  exists n. split; [unfold object_data, deref; by rewrite Ho'|]. split.
  - rewrite (own_lookup h' n (object_tag tg) l' c'), moved_positions, Hs, decide_True by done. cbn [mbind option_bind].
    unfold l'. by rewrite <- Hl2, list_lookup_middle.
  - intros s' Hne. unfold property. rewrite (own_lookup h' n (object_tag tg) l' c'), (own_lookup h d t l c), moved_positions by done.
    destruct (position h c s') as [i|] eqn:Hi; [|by rewrite decide_False by congruence]. cbn [mbind option_bind].
    assert (i < length l2)%nat as Hil.
    { rewrite Hl2, <- Hkeys. by eapply position_bound. }
    unfold l'. rewrite lookup_app_l by done. apply (f_equal (λ m, m !! i)) in Hmap. rewrite !list_lookup_fmap in Hmap.
    change (f64_allocator h') with (f64_allocator h2). destruct (l2 !! i) as [[]|], (l !! i) as [[]|]; cbn in *; congruence.
Qed.

Lemma moved_updated : updated h o d s v h'.
Proof.
  destruct moved_ok as [Hok' Hobj']. destruct allocated_classes as (Hcs2 & ? & ? & ?).
  split; [done|done|done|apply moved_static|apply moved_object|].
  intros p b Hp Hpo Hpd Hb. destruct (allocated_kept p b Hp Hb) as (b' & Hb' & Htt & Hct & Hr). exists b'.
  assert (p ≠ n) as Hpn.
  { intros Heq. apply (alloc_fresh _ _ _ _ Ha), set_classes_reachable; [done|apply Hok|]. by rewrite <- Heq. }
  assert (mem h' !! p = Some b') as Hb1 by (rewrite <- Hb'; by apply relink_other).
  split_and!; try done. intros s'. apply (property_ext h h' p b b'); try done.
  - change (classes h') with (classes h2). by rewrite Hcs2.
  - by eapply wf_blocks, Hb; apply Hok.
  - intros z Hz. by apply moved_static.
Qed.
End moved.
End allocated.
End missing.

(** *** Setting a property *)
Context (Hcur : ∀ q, v = Any.F64 q → in_current (f64_allocator h) q).
Context (Hcs : Z.of_nat (length (classes h)) < 2 ^ 16) (Hroom : floats_room h (f64s_at h d + 1)).
Let bytes := tag_size h + object_data_size (num_fields h d + 1).
Context (Hlive : own h d s = None → live_fits h bytes ∧ ∀ q, v = Any.F64 q → used_mem h + bytes <= Heap.size h).

Lemma insert_missing t l c :
  mem h !! d = Some (mkBlock t (View.Class l)) → classes h !! Z.to_nat (class_tag t) = Some c →
  ClassList.size c = Z.of_nat (length l) → length (keys c) = length l → position h c s = None →
  ∃ h', data_insert h d x v (-1) ≫= (λ '(new, cache, h), h ← set_object_data h o new; Ok (v, cache, h)) = Ok (v, -1, h') ∧
    updated h o d s v h'.
Proof.
  intros Hd Hc Hsz Hk Hs. apply list_elem_of_lookup_2 in Hc as Hin.
  assert (bytes = tag_size h + object_data_size (Z.of_nat (length l) + 1)) as Hbytes by (unfold bytes, num_fields; by rewrite Hd).
  assert (own h d s = None) as Hown by (rewrite (own_lookup h d t l c) by done; by rewrite Hs).
  destruct (Hlive Hown) as [Hl Hfl]. rewrite Hbytes in Hl, Hfl.
  destruct (missing_class t l c) as (tg & cs & c' & y & Hct & He & _ & Hc' & Hsz' & Hk' & Hy & Hobj1); [assumption..|].
  destruct (alloc_object_data_ok (set_classes cs h) tg c') as (n & h2 & Halloc & Ha & Hfa); [done|lia|by apply set_classes_ok| |].
  { rewrite Hsz'. by apply set_classes_fits. }
  assert (∀ q, v = Any.F64 q → in_current (f64_allocator h) q ∧ used_mem h + (tag_size h + object_data_size (Z.of_nat (length l) + 1)) <= Heap.size h) as Hfl2 by (intros q Hq; split; [by apply Hcur|by apply (Hfl q)]).
  rewrite Hsz' in Hfa. cbn [tag_size used_mem Heap.size set_classes f64_allocator] in Hfa.
  destruct (allocated_object t l Hd cs tg c' n h2 He Hobj1 Ha) as (bo2 & t2 & l2 & Hbo2 & Hdo2 & Hd2 & Ht2 & Hmap & Hl2 & Hf2).
  exists (relink h2 o bo2 n (mkBlock (object_tag tg) (View.Class (l2 ++ [Some v])))). split.
  - unfold data_insert. destruct (class_of_object t l c Hd Hc) as [-> Hg]. cbn [mbind comp_bind]. rewrite Hg. cbn [mbind comp_bind].
    rewrite (class_lookup_static h Hobj c x s), Hs by done. cbn [mbind comp_bind].
    rewrite Hct. cbn [mbind comp_bind]. rewrite Halloc. cbn [mbind comp_bind].
    pose proof (copy_and_write l c Hsz Hk cs tg c' n h2 He Hsz' Ha bo2 t2 l2 Hbo2 Hdo2 Hd2 Hl2 Hf2) as Hcopy.
    destruct (foldM _ _ _) as [h3| |]; cbn [mbind comp_bind] in Hcopy |- *; [|discriminate Hcopy..].
    destruct (write_at _ _ _ _) as [h4| |]; cbn [mbind comp_bind] in Hcopy |- *; [|discriminate Hcopy..].
    by rewrite Hcopy.
  - by eapply moved_updated.
Qed.

Lemma insert_present t l c i :
  mem h !! d = Some (mkBlock t (View.Class l)) → classes h !! Z.to_nat (class_tag t) = Some c →
  length (keys c) = length l → Forall is_Some l → position h c s = Some i →
  ∃ h', data_insert h d x v (-1) ≫= (λ '(new, cache, h), h ← set_object_data h o new; Ok (v, cache, h)) = Ok (v, Z.of_nat i, h') ∧
    updated h o d s v h'.
Proof.
  intros Hd Hc Hk Hf Hi. apply list_elem_of_lookup_2 in Hc as Hin.
  assert (i < length l)%nat as Hil.
  { rewrite <- Hk. by eapply position_bound. }
  destruct (write_present t l i Hd Hil Hroom) as (h1 & Hw & Hso).
  exists (relink h o bo d (mkBlock t (View.Class (<[i := Some v]> l)))). split.
  - unfold data_insert. destruct (class_of_object t l c Hd Hc) as [-> Hg]. cbn [mbind comp_bind]. rewrite Hg. cbn [mbind comp_bind].
    rewrite (class_lookup_static h Hobj c x s), Hi by done. cbn [mbind comp_bind]. rewrite Hw. cbn [mbind comp_bind]. by rewrite Hso.
  - by apply (present_updated t l c i).
Qed.

Lemma set_updated : ∃ cache h',
  object_set h o x v (-1) = Ok (v, cache, h') ∧ cache = offset h d s ∧ updated h o d s v h'.
Proof.
  destruct object_layout as (t & l & c & Hd & Hc & Hsz & Hk & Hf & Hin).
  assert (offset h d s = default (-1) (Z.of_nat <$> position h c s)) as Ho'.
  { unfold offset. rewrite Hd. cbn. unfold class_at. by rewrite Hc. }
  assert (object_data h o = Ok d) as Hod by (unfold object_data, deref; rewrite Hbo; cbn; by rewrite Hdo).
  rewrite Ho'. unfold object_set, object_insert. rewrite Hod. cbn [mbind comp_bind].
  destruct (position h c s) as [i|] eqn:Hi.
  - destruct (insert_present t l c i Hd Hc Hk Hf Hi) as (h' & He & Hu). exists (Z.of_nat i), h'. by rewrite He.
  - destruct (insert_missing t l c Hd Hc Hsz Hk Hi) as (h' & He & Hu). exists (-1), h'. by rewrite He.
Qed.
End object.
End heap.

(** ** Setting a property

    Context: [o] is an object that can be reached, its data is [d]; [x] is the
    interned string [s]; the value can be stored. *)
Record settable `{Rust} (h : Heap) (o d x : loc) (s : string) (v : AnyEnum) : Prop := {
  set_heap : heap_ok h;
  set_objects : objects_ok h;
  set_reachable : reachable h o;
  set_data : object_data h o = Ok d;
  set_name : static h x ∧ name_at h x = Some s;
  set_value : ∀ q, q ∈ value_ptrs v → reachable h q;
  set_float q : v = Any.F64 q → in_current (f64_allocator h) q
}.
(** There is room for the object with one more field: a tag is left for a new
    class, its floats can be copied, and its data can be allocated, without a
    collection if the value is a float. *)
Record has_room `{Rust} (h : Heap) (d : loc) (s : string) (v : AnyEnum) : Prop := {
  room_classes : Z.of_nat (length (classes h)) < 2 ^ 16;
  room_floats : floats_room h (f64s_at h d + 1);
  room_memory : let bytes := tag_size h + object_data_size (num_fields h d + 1) in
    own h d s = None → live_fits h bytes ∧ ∀ q, v = Any.F64 q → used_mem h + bytes <= Heap.size h
}.

(** C8: Setting a property of an object, without a cached offset, succeeds when
    there is room, also when it collects; the invariants of the heap and of the
    objects are preserved.  Afterwards the property has the new value, every other property
    of the object has the value it had, and so have all properties of the
    other objects and the contents of the other blocks that can be reached. The
    cache is the offset of the property if the object had it. *)
Theorem object_set_correct `{Rust} h o d x s v :
  settable h o d x s v → has_room h d s v →
  ∃ cache h', object_set h o x v (-1) = Ok (v, cache, h') ∧ cache = offset h d s ∧ updated h o d s v h'.
Proof.
  intros [Hok Hobj Ho Hd [Hx Hxs] Hv Hcur] [Hcs Hfl Hm].
  unfold object_data, deref in Hd. destruct (mem h !! o) as [bo|] eqn:Hbo; [|done]. cbn in Hd.
  destruct (data bo) as [?|?|?|?|?|d'|? ?|?|?|?] eqn:Hdo; try discriminate Hd. injection Hd as ->.
  by eapply set_updated.
Qed.

(** ** Reading a property *)

(** The data of the prototype of an object. *)
Definition proto_of (h : Heap) (d : loc) : option loc :=
  match own h d "__proto__" with
  | Some (Any.Ptr p) => b ← mem h !! p; match data b with View.ObjectPtrPtr d' => Some d' | _ => None end
  | _ => None
  end.
(** The value of the property [s], found after [n] prototypes. *)
Inductive reads (h : Heap) (s : string) : nat → loc → AnyEnum → Prop :=
  | reads_own d v : own h d s = Some v → reads h s 0 d v
  | reads_none d : own h d s = None → proto_of h d = None → reads h s 0 d Any.Undefined
  | reads_proto n d d' v : own h d s = None → proto_of h d = Some d' → reads h s n d' v → reads h s (S n) d v.

Lemma reads_det h s n m d v w : reads h s n d v → reads h s m d w → n = m ∧ v = w.
Proof.
  intros H1. revert m w. induction H1 as [d v Hv|d Hv Hp|n d d' v Hv Hp H1 IH]; intros m w H2; inversion H2; simplify_eq; try done.
  edestruct IH as [-> ->]; [eassumption|]. done.
Qed.

(** A chain that ends has different objects, so it is not longer than the memory. *)
Section chain.
Context (h : Heap) (live : loc → Prop) (R : nat → loc → Prop).
Context (Hdet : ∀ n m d, R n d → R m d → n = m).
Context (Hnext : ∀ n d, R (S n) d → live d → ∃ d', live d' ∧ R n d').
Context (Hmem : ∀ d, live d → is_Some (mem h !! d)).

Lemma chain_distinct n d : R n d → live d →
  ∃ l, length l = S n ∧ NoDup l ∧ ∀ x, x ∈ l → live x ∧ ∃ k, (k ≤ n)%nat ∧ R k x.
Proof.
  revert d. induction n as [|n IH]; intros d Hr Hd.
  - exists [d]. split; [done|]. split; [apply NoDup_singleton|]. intros x ->%list_elem_of_singleton. eauto.
  - destruct (Hnext n d Hr Hd) as (d' & Hd' & Hr'). destruct (IH d' Hr' Hd') as (l & Hl & Hnd & Hin).
    exists (d :: l). split; [cbn; by rewrite Hl|]. split.
    + constructor; [|done]. intros (_ & k & Hk & Hkr)%Hin. specialize (Hdet _ _ _ Hkr Hr). lia.
    + intros x [->|Hx]%elem_of_cons; [eauto|]. destruct (Hin x Hx) as (? & k & ? & ?). split; [done|]. exists k. split; [lia|done].
Qed.

Lemma chain_bound n d : R n d → live d → (n < get_fuel h)%nat.
Proof.
  intros Hr Hd. destruct (chain_distinct n d Hr Hd) as (l & Hl & Hnd & Hin).
  assert (length l ≤ base.size (mem h))%nat; [|unfold get_fuel; lia].
  rewrite <- (size_dom (D := gset loc)). rewrite <- (size_list_to_set (C := gset loc)) by done.
  apply subseteq_size. intros x [Hx _]%elem_of_list_to_set%Hin. by apply elem_of_dom, Hmem.
Qed.
End chain.

Section reads.
Context `{Rust} (h : Heap) (Hok : heap_ok h) (Hobj : objects_ok h).

(** Data of objects that can be reached. *)
Definition live_data (d : loc) : Prop := reachable h d ∧ ∃ t l, mem h !! d = Some (mkBlock t (View.Class l)).

Lemma own_slot d s v : own h d s = Some v → ∃ t l i, mem h !! d = Some (mkBlock t (View.Class l)) ∧ l !! i = Some (Some v).
Proof.
  unfold own. destruct (mem h !! d) as [[t w]|]; [|done]. cbn. destruct w as [?|?|?|?|l|?|? ?|?|?|?]; try done.
  destruct (class_at h t) as [c|]; [|done]. cbn. destruct (position h c s) as [i|]; [|done]. cbn.
  destruct (l !! i) as [[a|]|] eqn:Hi; try done. intros [= ->]. by exists t, l, i.
Qed.

Lemma own_reachable d s p : reachable h d → own h d s = Some (Any.Ptr p) → reachable h p.
Proof.
  intros Hr (t & l & i & Hd & Hi)%own_slot. eapply reachable_step; [exact Hr|exact Hd|]. apply elem_of_app. left.
  apply slots_ptrs_elem. exists (Any.Ptr p). split; [by eapply list_elem_of_lookup_2|by left].
Qed.

Lemma object_live o b d : reachable h o → mem h !! o = Some b → data b = View.ObjectPtrPtr d → live_data d.
Proof.
  intros Hr Hb Hd. split; [by eapply object_reachable|].
  destruct (obj_data _ Hobj o b d Hr Hb Hd) as ([t w] & l & Hbd & Hl). cbn in Hl. subst. by exists t, l.
Qed.

Lemma proto_live d d' : live_data d → proto_of h d = Some d' → live_data d'.
Proof.
  intros [Hr _]. unfold proto_of. destruct (own h d _) as [[]|] eqn:Ho; try done.
  destruct (mem h !! p) as [b|] eqn:Hb; [|done]. cbn. destruct (data b) as [?|?|?|?|?|d1|? ?|?|?|?] eqn:Hd; try done.
  intros [= ->]. eapply object_live; [by eapply own_reachable|done|done].
Qed.

Lemma reads_bound s n d v : reads h s n d v → live_data d → (n < get_fuel h)%nat.
Proof.
  intros Hr. apply (chain_bound h live_data (λ n d, ∃ v, reads h s n d v)); [| | |by exists v].
  - intros k m d' [w Hw] [w' Hw']. by apply (reads_det _ _ _ _ _ _ _ Hw Hw').
  - intros k d1 [w Hw] Hd1. inversion Hw; subst. eexists. split; [by eapply proto_live|]. by eexists.
  - intros d' (_ & t & l & Hd'). by eexists.
Qed.

Context (ss : StaticStrings) (Hproto : static h (__proto__ ss) ∧ name_at h (__proto__ ss) = Some "__proto__").
Context (x : loc) (s : string) (Hx : static h x) (Hxs : name_at h x = Some s).

Lemma match_object_value v : (∀ p, v = Any.Ptr p → reachable h p) →
  ∃ m, match_object h v = Ok m ∧
    match m with
    | Some p => ∃ d, v = Any.Ptr p ∧ object_data h p = Ok d ∧ (b ← mem h !! p; match data b with View.ObjectPtrPtr d' => Some d' | _ => None end) = Some d
    | None => match v with Any.Ptr p => (b ← mem h !! p; match data b with View.ObjectPtrPtr d' => Some d' | _ => None end) = None | _ => True end
    end.
Proof.
  intros Hv. destruct v as [| | |p| | |]; try (exists None; done).
  destruct (closed_ptrs _ (ok_closed _ Hok) p (Hv p eq_refl)) as [b Hb].
  unfold match_object, object_data, deref. rewrite Hb. cbn.
  rewrite (view_ok (classes h)) by (by eapply wf_blocks, Hb; apply Hok). cbn.
  destruct (data b) as [?|?|?|?|?|d|? ?|?|?|?] eqn:Hd; try (exists None; split; [done|]; rewrite ?Hb; cbn; by rewrite ?Hd).
  exists (Some p). split; [done|]. exists d. rewrite Hb. cbn. by rewrite Hd.
Qed.

(** Where the property of a name is. *)
Lemma own_position d t l c s' : live_data d → mem h !! d = Some (mkBlock t (View.Class l)) → classes h !! Z.to_nat (class_tag t) = Some c →
  match position h c s' with Some i => ∃ v, l !! i = Some (Some v) ∧ own h d s' = Some v | None => own h d s' = None end.
Proof.
  intros [Hr _] Hd Hc. destruct (class_layout h Hok Hobj d t l Hr Hd) as (c0 & Hc0 & _ & Hk & Hf & _). simplify_eq.
  rewrite (own_lookup h d t l c) by done. destruct (position h c s') as [i|] eqn:Hi; [|done].
  assert (i < length l)%nat as Hil.
  { rewrite <- Hk. by eapply position_bound. }
  destruct (lookup_lt_is_Some_2 l i Hil) as [e He]. rewrite Forall_lookup in Hf. destruct (Hf i e He) as [v ->].
  exists v. cbn. by rewrite He.
Qed.

Lemma own_None_offset d s' : live_data d → own h d s' = None → offset h d s' = -1.
Proof.
  intros Hl Ho. pose proof Hl as [Hr (t & l & Hd)]. destruct (class_layout h Hok Hobj d t l Hr Hd) as (c & Hc & _).
  pose proof (own_position d t l c s' Hl Hd Hc) as Hp. unfold offset. rewrite Hd. cbn. unfold class_at. rewrite Hc. cbn.
  destruct (position h c s') as [i|]; [|done]. destruct Hp as (v & _ & ?). congruence.
Qed.

(** One object of the chain. *)
Lemma data_get_step fuel d cache : live_data d → cache = -1 ∨ cache = offset h d s →
  data_get ss fuel h d x cache =
    match own h d s, proto_of h d, fuel with
    | Some v, _, _ => Ok (v, offset h d s)
    | None, None, _ => Ok (Any.Undefined, -1)
    | None, Some d', O => Panic "out of fuel"
    | None, Some d', S fuel => '(v, _) ← data_get ss fuel h d' x (-1); Ok (v, -1)
    end.
Proof.
  intros Hl Hcache. pose proof Hl as [Hr (t & l & Hd)]. destruct (class_layout h Hok Hobj d t l Hr Hd) as (c & Hc & _ & Hk & Hf & Hin).
  pose proof (λ s', own_position d t l c s' Hl Hd Hc) as Hown.
  assert (offset h d s = default (-1) (Z.of_nat <$> position h c s)) as Ho.
  { unfold offset. rewrite Hd. cbn. unfold class_at. by rewrite Hc. }
  assert (class_lookup h c x cache = Ok match position h c s with Some i => (Some (Z.of_nat i), Z.of_nat i) | None => (None, -1) end) as Hlook.
  { destruct (decide (cache = -1)) as [->|Hne]; [by apply class_lookup_static|].
    rewrite class_lookup_cached by done. destruct Hcache as [?|Hcache]; [done|]. rewrite Hcache, Ho in *.
    destruct (position h c s) as [i|]; [done|]. cbn in Hne. congruence. }
  destruct (class_of_object h d t l c Hd Hc) as [Htag Hcls].
  pose proof (Hown s) as Hs. pose proof (Hown "__proto__") as Hp.
  assert (class_lookup h c (__proto__ ss) (-1) = Ok match position h c "__proto__" with Some i => (Some (Z.of_nat i), Z.of_nat i) | None => (None, -1) end) as Hplook
    by (apply class_lookup_static; [done|done|apply Hproto|apply Hproto]).
  destruct fuel as [|fuel]; cbn [data_get]; unfold object_class; rewrite Htag; cbn [mbind comp_bind]; rewrite Hcls; cbn [mbind comp_bind];
    rewrite Hlook; (destruct (position h c s) as [i|]; cbn [mbind comp_bind];
    [destruct Hs as (v & Hi & ->); rewrite (read_at_ok h d t l i (Some v)) by done; cbn; by rewrite Ho|rewrite Hs]);
    rewrite Hplook; (destruct (position h c "__proto__") as [i|]; cbn [mbind comp_bind];
    [|unfold proto_of; by rewrite Hp]); destruct Hp as (v & Hi & Hv);
    rewrite (read_at_ok h d t l i (Some v)) by done; cbn [mbind comp_bind expect];
    (destruct (match_object_value v) as ([p|] & -> & Hm); [intros p ->; by eapply own_reachable| |]);
    cbn [mbind comp_bind]; unfold proto_of; rewrite Hv.
  - destruct Hm as (d' & -> & Hod & Hdd). by rewrite Hdd.
  - destruct v; try done. by rewrite Hm.
  - destruct Hm as (d' & -> & Hod & Hdd). rewrite Hdd, Hod. cbn [mbind comp_bind].
    by destruct (data_get _ _ _ _ _ _) as [[]| |].
  - destruct v; try done. by rewrite Hm.
Qed.

Lemma data_get_reads n d v : reads h s n d v → live_data d → ∀ fuel cache, (n <= fuel)%nat → cache = -1 ∨ cache = offset h d s →
  data_get ss fuel h d x cache = Ok (v, offset h d s).
Proof.
  induction 1 as [d v Hv|d Hv Hp|n d d' v Hv Hp Hr IH]; intros Hd fuel cache Hf Hc; rewrite data_get_step by done; rewrite Hv.
  - done.
  - rewrite Hp. f_equal. f_equal. symmetry. by apply own_None_offset.
  - rewrite Hp. destruct fuel as [|fuel]; [lia|]. rewrite IH; [|by eapply proto_live|lia|by left]. cbn.
    f_equal. f_equal. symmetry. by apply own_None_offset.
Qed.

Lemma data_get_diverges d : live_data d → (∀ n v, ¬ reads h s n d v) → ∀ fuel, data_get ss fuel h d x (-1) = Panic "out of fuel".
Proof.
  intros Hd Hn fuel. revert d Hd Hn. induction fuel as [|fuel IH]; intros d Hd Hn; (rewrite data_get_step; [|done|by left]);
    (destruct (own h d s) as [v|] eqn:Ho; [exfalso; apply (Hn 0%nat v); by constructor|]);
    (destruct (proto_of h d) as [d'|] eqn:Hp; [|exfalso; apply (Hn 0%nat Any.Undefined); by constructor]); [done|].
  rewrite IH; [done|by eapply proto_live|]. intros n v Hr. apply (Hn (S n) v). by eapply reads_proto.
Qed.
End reads.

Record readable `{Rust} (ss : StaticStrings) (h : Heap) (o d x : loc) (s : string) : Prop := {
  read_heap : heap_ok h;
  read_objects : objects_ok h;
  read_reachable : reachable h o;
  read_data : object_data h o = Ok d;
  read_name : static h x ∧ name_at h x = Some s;
  read_proto : static h (__proto__ ss) ∧ name_at h (__proto__ ss) = Some "__proto__"
}.

(** C9: Reading a property finds the value on the object or on the first of its prototypes
    that has it, and [undefined] if the chain of prototypes ends before; as the cache of a read it takes
    and leaves the offset of the property in the object itself, or -1.  When the
    chain ends, the read terminates: the objects on it are different blocks.  When it
    does not, as on a cycle of prototypes, no number of recursive calls is enough. *)
Theorem object_get_correct `{Rust} ss h o d x s :
  readable ss h o d x s →
  (∀ n v cache, reads h s n d v → cache = -1 ∨ cache = offset h d s →
     object_get ss h o x cache = Ok (v, offset h d s)) ∧
  ((∀ n v, ¬ reads h s n d v) → ∀ fuel, data_get ss fuel h d x (-1) = Panic "out of fuel").
Proof.
  intros [Hok Hobj Ho Hd [Hx Hxs] Hp].
  assert (live_data h d) as Hlive.
  { unfold object_data, deref in Hd. destruct (mem h !! o) as [bo|] eqn:Hbo; [|done]. cbn in Hd.
    destruct (data bo) as [?|?|?|?|?|d'|? ?|?|?|?] eqn:Hdo; try discriminate Hd. injection Hd as ->. by eapply object_live. }
  split.
  - intros n v cache Hr Hc. unfold object_get, get. rewrite Hd. cbn [mbind comp_bind].
    apply (data_get_reads h Hok Hobj ss Hp x s Hx Hxs n d v Hr Hlive); [|done].
    pose proof (reads_bound h Hobj s n d v Hr Hlive). lia.
  - intros Hn. by apply (data_get_diverges h Hok Hobj ss Hp x s Hx Hxs).
Qed.

(** ** [instanceof] *)

(** The prototype of an object. *)
Definition proto_object (h : Heap) (o : loc) : option loc :=
  b ← mem h !! o;
  match data b with
  | View.ObjectPtrPtr d =>
      match own h d "__proto__" with
      | Some (Any.Ptr p) => b ← mem h !! p; match data b with View.ObjectPtrPtr _ => Some p | _ => None end
      | _ => None
      end
  | _ => None
  end.
(** [q] is, or is not, among the object [o] and its prototypes. *)
Inductive chain_has (h : Heap) (q : loc) : nat → loc → bool → Prop :=
  | has_here : chain_has h q 0 q true
  | has_none o : o ≠ q → proto_object h o = None → chain_has h q 0 o false
  | has_proto n o p b : o ≠ q → proto_object h o = Some p → chain_has h q n p b → chain_has h q (S n) o b.

Lemma chain_has_det h q n m o b c : chain_has h q n o b → chain_has h q m o c → n = m ∧ b = c.
Proof.
  intros H1. revert m c. induction H1 as [|o Ho Hp|n o p b Ho Hp H1 IH]; intros m c H2; inversion H2; simplify_eq; try done.
  edestruct IH as [-> ->]; [eassumption|]. done.
Qed.

Section instance_of.
Context `{Rust} (h : Heap) (Hok : heap_ok h) (Hobj : objects_ok h).
Context (ss : StaticStrings) (Hproto : static h (__proto__ ss) ∧ name_at h (__proto__ ss) = Some "__proto__").

(** Objects that can be reached. *)
Definition live_object (o : loc) : Prop := reachable h o ∧ ∃ b d, mem h !! o = Some b ∧ data b = View.ObjectPtrPtr d.

Lemma proto_object_live o p : live_object o → proto_object h o = Some p → live_object p.
Proof.
  intros (Hr & b & d & Hb & Hd). unfold proto_object. rewrite Hb. cbn. rewrite Hd.
  destruct (own h d _) as [[]|] eqn:Ho; try done. destruct (mem h !! p0) as [bp|] eqn:Hbp; [|done]. cbn.
  destruct (data bp) as [?|?|?|?|?|d'|? ?|?|?|?] eqn:Hdp; try done. intros [= ->].
  split; [eapply own_reachable; [|exact Ho]; by eapply object_reachable|]. by exists bp, d'.
Qed.

Lemma get_proto o : live_object o → ∃ v c, get ss h o (__proto__ ss) (-1) = Ok (v, c) ∧ match_object h v = Ok (proto_object h o).
Proof.
  intros (Hr & b & d & Hb & Hd). pose proof (object_live h Hobj o b d Hr Hb Hd) as Hlive.
  assert (object_data h o = Ok d) as Hod by (unfold object_data, deref; rewrite Hb; cbn; by rewrite Hd).
  assert (proto_object h o = match own h d "__proto__" with
    | Some (Any.Ptr p) => b ← mem h !! p; match data b with View.ObjectPtrPtr _ => Some p | _ => None end | _ => None end) as Hpo.
  { unfold proto_object. rewrite Hb. cbn. by rewrite Hd. }
  assert (∃ n, reads h "__proto__" n d (default Any.Undefined (own h d "__proto__"))) as [n Hn].
  { destruct (own h d "__proto__") as [v|] eqn:Ho; exists 0%nat; [by constructor|]. constructor; [done|].
    unfold proto_of. by rewrite Ho. }
  destruct Hproto as [Hs Hn']. unfold get. rewrite Hod. cbn [mbind comp_bind].
  rewrite (data_get_reads h Hok Hobj ss Hproto _ _ Hs Hn' n d _ Hn Hlive) by
    first [by left|pose proof (reads_bound h Hobj _ n d _ Hn Hlive); lia].
  do 2 eexists. split; [done|]. destruct (match_object_value h Hok (default Any.Undefined (own h d "__proto__"))) as (m & -> & Hm).
  { intros p Hp. apply (own_reachable h d "__proto__" p); [apply Hlive|]. destruct (own h d "__proto__"); [|done]. cbn in Hp. congruence. }
  rewrite Hpo. f_equal. destruct m as [p|].
  - destruct Hm as (d' & Hv & Hd' & _). destruct (own h d "__proto__"); [|done]. cbn in Hv. rewrite Hv.
    unfold object_data, deref in Hd'. destruct (mem h !! p) as [bp|]; [|done]. cbn in *. by destruct (data bp).
  - destruct (own h d "__proto__") as [[| | |p| | |]|]; try done. cbn in Hm. destruct (mem h !! p) as [bp|]; [|done]. cbn in *. by destruct (data bp).
Qed.

Lemma inclusive_step fuel o q : live_object o →
  inclusive_instance_of ss fuel h o q =
    if decide (o = q) then Ok true
    else match proto_object h o, fuel with
         | None, _ => Ok false
         | Some _, O => Panic "out of fuel"
         | Some p, S fuel => inclusive_instance_of ss fuel h p q
         end.
Proof.
  intros Ho. destruct (get_proto o Ho) as (v & c & Hg & Hm).
  destruct fuel; cbn [inclusive_instance_of]; (case_decide; [done|]); rewrite Hg; cbn [mbind comp_bind]; rewrite Hm; cbn [mbind comp_bind];
    by destruct (proto_object h o).
Qed.

Lemma inclusive_ok n o q b : chain_has h q n o b → live_object o → ∀ fuel, (n <= fuel)%nat → inclusive_instance_of ss fuel h o q = Ok b.
Proof.
  induction 1 as [|o Ho Hp|n o p b Ho Hp Hc IH]; intros Hl fuel Hf; rewrite inclusive_step by done.
  - by rewrite decide_True.
  - by rewrite decide_False, Hp.
  - rewrite decide_False, Hp by done. destruct fuel as [|fuel]; [lia|]. apply IH; [by eapply proto_object_live|lia].
Qed.

Lemma chain_has_bound n o q b : chain_has h q n o b → live_object o → (n < get_fuel h)%nat.
Proof.
  intros Hc. apply (chain_bound h live_object (λ n o, ∃ b, chain_has h q n o b)); [| | |by exists b].
  - intros k m o' [w Hw] [w' Hw']. by apply (chain_has_det _ _ _ _ _ _ _ Hw Hw').
  - intros k o1 [w Hw] Ho1. inversion Hw; subst. eexists. split; [by eapply proto_object_live|]. by eexists.
  - intros o' (_ & b' & d & Hb & _). by exists b'.
Qed.
End instance_of.

(** The constructor with environment [env] has the object [q] as its [prototype]. *)
Record constructor `{Rust} (ss : StaticStrings) (h : Heap) (env q : loc) : Prop := {
  con_heap : heap_ok h;
  con_objects : objects_ok h;
  con_proto : static h (__proto__ ss) ∧ name_at h (__proto__ ss) = Some "__proto__";
  con_prototype : static h (prototype ss) ∧ name_at h (prototype ss) = Some "prototype";
  con_reads : ∃ be items c bc dc n, mem h !! env = Some be ∧ data be = View.Env items c ∧
    reachable h c ∧ mem h !! c = Some bc ∧ data bc = View.ObjectPtrPtr dc ∧ reads h "prototype" n dc (Any.Ptr q);
  con_object : live_object h q
}.

(** C10: [a instanceof f] for an object [a] and a function whose [prototype] is the object
    [q] answers whether [q] is a prototype of [a], directly or along the chain, and
    terminates when the chain ends or has [q]; the object itself does not count. *)
Theorem instance_of_correct `{Rust} ss h o env f q :
  constructor ss h env q → live_object h o →
  (∀ n p b, proto_object h o = Some p → chain_has h q n p b → instance_of ss h (Any.Ptr o) (Any.Closure env f) = Ok b) ∧
  (proto_object h o = None → instance_of ss h (Any.Ptr o) (Any.Closure env f) = Ok false).
Proof.
  intros [Hok Hobj Hp [Hps Hpn] (be & items & c & bc & dc & m & Hbe & Hde & Hrc & Hbc & Hdc & Hreads) Hq] Ho.
  assert (∀ x, live_object h x → match_object h (Any.Ptr x) = Ok (Some x)) as Hmatch.
  { intros x (Hr & b & d & Hb & Hd). unfold match_object, deref. rewrite Hb. cbn.
    rewrite (view_ok (classes h)) by (by eapply wf_blocks, Hb; apply Hok). cbn. by rewrite Hd. }
  assert (env_fn_obj h env = Ok c) as Henv by (unfold env_fn_obj, as_env, deref; rewrite Hbe; cbn; by rewrite Hde).
  assert (get ss h c (prototype ss) (-1) = Ok (Any.Ptr q, offset h dc "prototype")) as Hget.
  { pose proof (object_live h Hobj c bc dc Hrc Hbc Hdc) as Hlive.
    unfold get, object_data, deref. rewrite Hbc. cbn [mbind comp_bind]. rewrite Hdc. cbn [mbind comp_bind].
    apply (data_get_reads h Hok Hobj ss Hp _ _ Hps Hpn m dc _ Hreads Hlive); [|by left].
    pose proof (reads_bound h Hobj _ m dc _ Hreads Hlive). lia. }
  destruct (get_proto h Hok Hobj ss Hp o Ho) as (v & cache & Hgo & Hmo).
  unfold instance_of. rewrite (Hmatch o Ho). cbn [mbind comp_bind]. rewrite Henv. cbn [mbind comp_bind].
  rewrite Hget. cbn [mbind comp_bind]. rewrite (Hmatch q Hq). cbn [mbind comp_bind expect]. rewrite Hgo. cbn [mbind comp_bind].
  rewrite Hmo. cbn [mbind comp_bind]. split.
  - intros n p b Hpo Hc. rewrite Hpo. pose proof (proto_object_live h o p Ho Hpo) as Hpl.
    apply (inclusive_ok h Hok Hobj ss Hp n p q b Hc Hpl). pose proof (chain_has_bound h n p q b Hc Hpl). lia.
  - by intros ->.
Qed.

(** ** A heap with two objects *)
Definition class_check {K V} `{EqDecision K, EqDecision V} (f : K → V) (l : list (Class (K := K))) (c : Class) : bool :=
  (ClassList.size c =? Z.of_nat (length (offsets c))) &&
  bool_decide (map snd (offsets c) = seqZ 0 (Z.of_nat (length (offsets c)))) && bool_decide (NoDup (map f (keys c))) &&
  forallb (λ e, (0 <=? e.2) && (e.2 <? 2 ^ 16) &&
     match l !! Z.to_nat e.2 with
     | Some c' => (ClassList.size c' =? ClassList.size c + 1) && bool_decide (offsets c' = offsets c ++ [(e.1, ClassList.size c)])
     | None => false
     end) (transitions c) &&
  bool_decide (NoDup (map f (map fst (transitions c)))).
Definition classes_check {K V} `{EqDecision K, EqDecision V} (f : K → V) (l : list (Class (K := K))) : bool :=
  match l with c :: _ => ClassList.size c =? 0 | [] => false end && (Z.of_nat (length l) <=? 2 ^ 16) && forallb (class_check f l) l.

Lemma classes_check_sound {K V} `{EqDecision K, EqDecision V} (f : K → V) l : classes_check f l = true → ClassList.wf f l.
Proof.
  unfold classes_check. intros [[H0 Hl]%andb_true_iff Hc]%andb_true_iff. split; [|split; [lia|]].
  - destruct l as [|c l']; [done|]. exists c. split; [done|lia].
  - apply Forall_forall. intros c Hin. rewrite forallb_forall in Hc. apply list_elem_of_In, Hc in Hin. unfold class_check in Hin.
    rewrite !andb_true_iff, forallb_forall in Hin. destruct Hin as [[[[Hs Hseq] Hnd] Ht] Hnt].
    split; [split; [lia|split; [by apply bool_decide_eq_true_1 in Hseq|by apply bool_decide_eq_true_1 in Hnd]]|].
    split; [|by apply bool_decide_eq_true_1 in Hnt]. apply Forall_forall. intros e He%list_elem_of_In%Ht.
    rewrite !andb_true_iff in He. destruct He as [[? ?] He]. destruct (l !! Z.to_nat e.2) as [c'|] eqn:Hc'; [|done].
    apply andb_true_iff in He as [? Ho]. exists c'. split; [lia|]. split; [done|]. split; [lia|]. by apply bool_decide_eq_true_1 in Ho.
Qed.

Definition static_check (h : Heap) (x : loc) : bool :=
  bool_decide (x ∉ alloc_list h) && match mem h !! x with Some b => is_stringb b | None => false end.
Lemma static_check_sound h x : static_check h x = true → static h x.
Proof.
  unfold static_check. intros [Hx Hb]%andb_true_iff. apply bool_decide_eq_true_1 in Hx. split; [done|].
  destruct (mem h !! x) as [[t w]|]; [|done]. destruct w as [s|?|?|?|?|?|? ?|?|?|?]; try done. by exists (mkBlock t (View.String s)), s.
Qed.
Definition object_check (h : Heap) (p : loc) : bool :=
  match data <$> mem h !! p with
  | Some (View.ObjectPtrPtr d) => match data <$> mem h !! d with Some (View.Class _) => true | _ => false end
  | Some (View.Class l) => forallb (λ o, bool_decide (is_Some o)) l
  | _ => true
  end.
Definition objects_check (h : Heap) (live : list loc) : bool :=
  classes_check (name_at h) (classes h) &&
  forallb (λ c, forallb (static_check h) (keys c ++ map fst (transitions c))) (classes h) && forallb (object_check h) live.
Lemma objects_check_sound h live : closed_check h live = true → objects_check h live = true → objects_ok h.
Proof.
  intros Hcl. unfold objects_check. rewrite !andb_true_iff, !forallb_forall. intros [[Hc Hn] Hl].
  assert (∀ p, reachable h p → object_check h p = true) as Hp.
  { intros p Hp. apply Hl, list_elem_of_In. by eapply closed_check_reachable. }
  split.
  - by apply classes_check_sound.
  - intros c x Hin Hx. apply static_check_sound. apply list_elem_of_In, Hn in Hin. rewrite forallb_forall in Hin. by apply Hin, list_elem_of_In.
  - intros o b d Ho%Hp Hb Hd. unfold object_check in Ho. rewrite Hb in Ho. cbn in Ho. rewrite Hd in Ho.
    destruct (mem h !! d) as [bd|]; [|done]. cbn in Ho. destruct (data bd) as [?|?|?|?|l|?|? ?|?|?|?] eqn:Hbd; try done. by exists bd, l.
  - intros d b l Ho%Hp Hb Hd. unfold object_check in Ho. rewrite Hb in Ho. cbn in Ho. rewrite Hd, forallb_forall in Ho.
    apply Forall_forall. intros e He%list_elem_of_In%Ho. by apply bool_decide_eq_true_1 in He.
Qed.

(** Strings that are not managed at the addresses 1 to 4, and a frame. *)
Definition intern_at (h : Heap) (s : string) : Heap :=
  store (next_address (mem h)) (mkBlock (with_type TT.String) (View.String s)) h.
Definition strings : StaticStrings := mkStaticStrings 1 2.
Definition interned (size : Z) : Heap :=
  foldl intern_at (push_shadow_frame (new size) 3) ["__proto__"; "prototype"; "x"; "y"]%string.
Definition rooted_object (slot : nat) (h : Heap) : rt (loc * Heap) :=
  let _ := wasm32 in
  '(p, h) ← object_empty h; h ← set_in_current_shadow_frame_slot h slot (Some p); Ok (p, h).
(** The object 6 has an x; the object 9 has it as its prototype and is its own property y. *)
Definition two_objects (size : Z) : rt Heap :=
  let _ := wasm32 in
  '(p, h) ← rooted_object 0 (interned size);
  '(_, _, h) ← object_set h p 3 (Any.I32 7) (-1);
  '(o, h) ← rooted_object 1 h;
  '(_, _, h) ← object_set h o 1 (Any.Ptr p) (-1);
  '(_, _, h) ← object_set h o 4 (Any.Ptr o) (-1);
  Ok h.
Definition pair : Heap := match two_objects 90 with Ok h => h | _ => new 0 end.
(** A function with environment 15 whose prototype is the object 6. *)
Definition with_constructor : Heap :=
  let _ := wasm32 in
  match
    h ← two_objects 200;
    '(c, h) ← rooted_object 2 h;
    '(_, _, h) ← object_set h c 2 (Any.Ptr 6) (-1);
    '(env, h) ← alloc_env_or_gc h [] c;
    set_in_current_shadow_frame_slot h 2 (Some env)
  with Ok h => h | _ => new 0 end.

Lemma pair_ok : @heap_ok wasm32 pair ∧ objects_ok pair.
Proof.
  assert (closed_check pair [9; 11; 6; 7; 1; 4; 3] = true) as Hc by (vm_compute; reflexivity). split; [split|].
  - apply wf_check_sound. vm_compute. reflexivity.
  - by eapply closed_check_sound.
  - eapply fit_check_sound; [exact Hc|vm_compute; reflexivity].
  - vm_compute. reflexivity.
  - eapply objects_check_sound; [exact Hc|vm_compute; reflexivity].
Qed.
Lemma pair_name x s : static_check pair x = true → bool_decide (name_at pair x = Some s) = true → static pair x ∧ name_at pair x = Some s.
Proof. intros Hx Hs%bool_decide_eq_true_1. split; [by apply static_check_sound|done]. Qed.
Lemma pair_root p : p ∈ [6; 9] → reachable pair p.
Proof. intros Hp. apply reachable_root. by replace (roots pair) with [6; 9] by (vm_compute; reflexivity). Qed.

(** The object 9 gets an x; there is room for it after a collection. *)
Lemma object_set_correct_witness : ∃ cache h',
  @object_set wasm32 pair 9 3 (Any.Ptr 6) (-1) = Ok (Any.Ptr 6, cache, h') ∧ cache = offset pair 11 "x" ∧
  @updated wasm32 pair 9 11 "x" (Any.Ptr 6) h'.
Proof.
  apply (@object_set_correct wasm32); split.
  - apply pair_ok.
  - apply pair_ok.
  - apply pair_root. right. left.
  - vm_compute. reflexivity.
  - apply pair_name; vm_compute; reflexivity.
  - intros q Hq. apply pair_root. cbn in Hq. apply list_elem_of_singleton in Hq as ->. left.
  - discriminate.
  - vm_compute. reflexivity.
  - intros l Hnd Hl. rewrite Forall_forall in Hl.
    eapply Z.le_lt_trans; [apply Z.add_le_mono_r, (sum_over_incl _ l [9; 11; 6; 7; 1; 4; 3])|]; [|done| |].
    + intros p. unfold f64s_at, block_f64s. destruct (mem pair !! p); lia.
    + intros p Hp. eapply (closed_check_reachable pair); [|by apply Hl]. vm_compute. reflexivity.
    + vm_compute. reflexivity.
  - intros bytes _. subst bytes. split; [|intros q Hq; discriminate Hq].
    apply (live_fits_check pair [9; 11; 6; 7; 1; 4; 3]); vm_compute; [reflexivity|discriminate].
Defined.

(** The object 9 finds the x of its prototype, and nothing under the name prototype. *)
Lemma object_get_correct_witness :
  object_get strings pair 9 3 (-1) = Ok (Any.I32 7, -1) ∧
  object_get strings pair 9 2 (-1) = Ok (Any.Undefined, -1).
Proof.
  assert (∀ x s, static_check pair x = true → bool_decide (name_at pair x = Some s) = true → readable (H := wasm32) strings pair 9 11 x s) as Hr.
  { intros x s Hx Hs. split; [apply pair_ok|apply pair_ok|apply pair_root; right; left|vm_compute; reflexivity|by apply pair_name|].
    apply pair_name; vm_compute; reflexivity. }
  split.
  - destruct (@object_get_correct wasm32 strings pair 9 11 3 "x") as [Hget _]; [apply Hr; vm_compute; reflexivity|].
    apply (Hget 1%nat); [|by left]. apply (reads_proto _ _ 0 11 7); [vm_compute; reflexivity..|].
    constructor. vm_compute. reflexivity.
  - destruct (@object_get_correct wasm32 strings pair 9 11 2 "prototype") as [Hget _]; [apply Hr; vm_compute; reflexivity|].
    apply (Hget 1%nat); [|by left]. apply (reads_proto _ _ 0 11 7); [vm_compute; reflexivity..|].
    constructor; vm_compute; reflexivity.
Defined.

(** The object 9 is an instance, and the object 6 is not. *)
Lemma instance_of_correct_witness :
  instance_of strings with_constructor (Any.Ptr 9) (Any.Closure 15 0) = Ok true ∧
  instance_of strings with_constructor (Any.Ptr 6) (Any.Closure 15 0) = Ok false.
Proof.
  assert (closed_check with_constructor [6; 9; 15; 13; 14; 11; 7; 1; 2; 3; 4] = true) as Hc by (vm_compute; reflexivity).
  assert (∀ p, p ∈ [6; 9; 15] → reachable with_constructor p) as Hroot.
  { intros p Hp. apply reachable_root. by replace (roots with_constructor) with [6; 9; 15] by (vm_compute; reflexivity). }
  assert (∀ x s, static_check with_constructor x = true → bool_decide (name_at with_constructor x = Some s) = true →
    static with_constructor x ∧ name_at with_constructor x = Some s) as Hname.
  { intros x s Hx Hs%bool_decide_eq_true_1. split; [by apply static_check_sound|done]. }
  assert (live_object with_constructor 6) as H6.
  { split; [apply Hroot; left|]. do 2 eexists. split; vm_compute; reflexivity. }
  assert (live_object with_constructor 9) as H9.
  { split; [apply Hroot; right; left|]. do 2 eexists. split; vm_compute; reflexivity. }
  assert (constructor (H := wasm32) strings with_constructor 15 6) as Hcon.
  { split; [split| | | | |done].
    - apply wf_check_sound. vm_compute. reflexivity.
    - by eapply closed_check_sound.
    - eapply fit_check_sound; [exact Hc|vm_compute; reflexivity].
    - vm_compute. reflexivity.
    - eapply objects_check_sound; [exact Hc|vm_compute; reflexivity].
    - apply Hname; vm_compute; reflexivity.
    - apply Hname; vm_compute; reflexivity.
    - do 6 eexists. split; [vm_compute; reflexivity|]. split; [reflexivity|]. split.
      + apply (reachable_step with_constructor 15 (mkBlock (with_type TT.Env) (View.Env [] 13)) 13).
        * apply Hroot. right. right. left.
        * vm_compute. reflexivity.
        * left.
      + split; [vm_compute; reflexivity|]. split; [reflexivity|]. apply (reads_own _ _ 14). vm_compute. reflexivity. }
  split.
  - destruct (@instance_of_correct wasm32 strings with_constructor 9 15 0 6 Hcon H9) as [Hi _].
    apply (Hi 0%nat 6); [vm_compute; reflexivity|]. apply has_here.
  - destruct (@instance_of_correct wasm32 strings with_constructor 6 15 0 6 Hcon H6) as [_ Hi].
    apply Hi. vm_compute. reflexivity.
Defined.

(** ** Where objects go wrong *)

