(* ===== verification/Numbers.v ===== *)
(** The numbers of the runtime: [i32] and [f64] with Rust's conversions between
    them, and the decimal texts that [parse] reads and [Display] writes
    (Rust 1.51, which the README asks for). *)
From S2P Require Import Prelude.
From Stdlib Require Import SpecFloat.
From Stdlib Require Import Ascii.

Definition prec : Z := 53.
Definition emax : Z := 1024.

(** ** Conversions *)

(** [i as f64]. *)
Definition of_Z (z : Z) : f64 := binary_normalize prec emax z 0 false.

(** The number [± m * 2 ^ e], without its fraction. *)
Definition truncate (s : bool) (m : positive) (e : Z) : Z :=
  cond_Zopp s (if e <? 0 then Z.shiftr (Zpos m) (- e) else Z.shiftl (Zpos m) e).
Definition i32_min : Z := - 2 ^ 31.
Definition i32_max : Z := 2 ^ 31 - 1.
Definition clamp (lo hi z : Z) : Z := Z.max lo (Z.min hi z).
(** [f as i32]: rounds toward zero and saturates. *)
Definition to_i32 (f : f64) : Z :=
  match f with
  | S754_nan => 0
  | S754_zero _ => 0
  | S754_infinity s => if s then i32_min else i32_max
  | S754_finite s m e => clamp i32_min i32_max (truncate s m e)
  end.

(** ** Arithmetic *)

Definition f64_add : f64 → f64 → f64 := SFadd prec emax.
Definition f64_sub : f64 → f64 → f64 := SFsub prec emax.
Definition f64_mul : f64 → f64 → f64 := SFmul prec emax.
Definition f64_div : f64 → f64 → f64 := SFdiv prec emax.
Definition f64_sqrt : f64 → f64 := SFsqrt prec emax.
Definition is_nan (f : f64) : bool := match f with S754_nan => true | _ => false end.

(** [x % y]: the remainder of the division that rounds toward zero. *)
Definition f64_rem (x y : f64) : f64 :=
  match x, y with
  | S754_nan, _ | _, S754_nan | S754_infinity _, _ | _, S754_zero _ => S754_nan
  | S754_zero _, _ | _, S754_infinity _ => x
  | S754_finite sx mx ex, S754_finite _ my ey =>
      let e := Z.min ex ey in
      let r := Z.rem (Z.shiftl (Zpos mx) (ex - e)) (Z.shiftl (Zpos my) (ey - e)) in
      binary_normalize prec emax (cond_Zopp sx r) e sx
  end.

(** The number of JavaScript that two floats are: zeros are equal. *)
Definition f64_eq : f64 → f64 → bool := SFeqb.
Definition f64_lt : f64 → f64 → bool := SFltb.

(** ** Texts of integers *)

Definition digit (d : Z) : ascii := ascii_of_N (48 + Z.to_N d).
(** The value of a digit in a radix of at most 36. *)
Definition to_digit (radix : Z) (c : ascii) : option Z :=
  let n := Z.of_N (N_of_ascii c) in
  let d := if (48 <=? n) && (n <=? 57) then n - 48
           else if (97 <=? n) && (n <=? 122) then n - 87
           else if (65 <=? n) && (n <=? 90) then n - 55 else radix in
  if d <? radix then Some d else None.

Fixpoint digits_value (radix acc : Z) (s : string) : option Z :=
  match s with
  | EmptyString => Some acc
  | String c s => d ← to_digit radix c; digits_value radix (acc * radix + d) s
  end.
(** [extract_sign] ([core::num]). *)
Definition extract_sign (s : string) : bool * string :=
  match s with
  | String "-" s => (true, s)
  | String "+" s => (false, s)
  | _ => (false, s)
  end.
(** [i32::from_str_radix]. *)
Definition i32_from_str_radix (s : string) (radix : Z) : comp never (option Z) :=
  assert "from_str_radix_int: must lie in the range `[2, 36]`" ((2 <=? radix) && (radix <=? 36));;
  let '(neg, digits) := extract_sign s in
  Ok match digits with
     | EmptyString => None
     | _ =>
         z ← digits_value radix 0 digits;
         let z := if neg : bool then - z else z in
         if bool_decide (Int.in_i32 z) then Some z else None
     end.
(** [s.parse::<i32>()]. *)
Definition parse_i32 (s : string) : comp never (option Z) := i32_from_str_radix s 10.

Fixpoint digits_of (fuel : nat) (n : Z) (acc : string) : string :=
  match fuel with
  | O => acc
  | S fuel =>
      let acc := String (digit (n mod 10)) acc in
      if n <? 10 then acc else digits_of fuel (n / 10) acc
  end.
(** The decimal digits of a natural number, which has no more of them than bits. *)
Definition decimal (n : Z) : string := digits_of (S (Z.to_nat (Z.log2 n))) n "".
(** [Display for i32]. *)
Definition display_i32 (i : Z) : string :=
  if i <? 0 then String "-" (decimal (- i)) else decimal i.

(** ** Texts of floats *)

(** The float nearest to [± m * 10 ^ e]. *)
Definition of_decimal (s : bool) (m e : Z) : f64 :=
  match m with
  | Zpos _ =>
      if 0 <=? e then binary_normalize prec emax (cond_Zopp s (m * 10 ^ e)) 0 s
      else let '(mz, ez, lz) := SFdiv_core_binary prec emax m 0 (10 ^ (- e)) 0 in
           binary_round_aux prec emax s mz ez lz
  | _ => S754_zero s
  end.

(** [eat_digits] ([core::num::dec2flt::parse]). *)
Fixpoint eat_digits (s : string) : string * string :=
  match s with
  | String c s' =>
      match to_digit 10 c with
      | Some _ => let '(l, r) := eat_digits s' in (String c l, r)
      | None => (EmptyString, s)
      end
  | EmptyString => (EmptyString, s)
  end.
Definition nat_value (s : string) : Z := default 0 (digits_value 10 0 s).
Definition decimal_value (sign : bool) (integral fractional : string) (e : Z) : f64 :=
  of_decimal sign (nat_value (integral +:+ fractional)) (e - Z.of_nat (String.length fractional)).
(** [parse_exp]. *)
Definition parse_exp (sign : bool) (integral fractional rest : string) : option f64 :=
  let '(neg, rest) := extract_sign rest in
  let '(number, trailing) := eat_digits rest in
  match number, trailing with
  | String _ _, EmptyString =>
      let e := nat_value number in
      Some (decimal_value sign integral fractional (if neg : bool then - e else e))
  | _, _ => None
  end.
(** [parse_decimal]. *)
Definition parse_decimal (sign : bool) (s : string) : option f64 :=
  let '(integral, rest) := eat_digits s in
  match rest with
  | EmptyString => match integral with EmptyString => None | _ => Some (decimal_value sign integral "" 0) end
  | String "e" rest | String "E" rest =>
      match integral with EmptyString => None | _ => parse_exp sign integral "" rest end
  | String "." rest =>
      let '(fractional, rest) := eat_digits rest in
      match integral, fractional with
      | EmptyString, EmptyString => None
      | _, _ =>
          match rest with
          | EmptyString => Some (decimal_value sign integral fractional 0)
          | String "e" rest | String "E" rest => parse_exp sign integral fractional rest
          | _ => None
          end
      end
  | _ => None
  end.
(** [s.parse::<f64>()]. *)
Definition parse_f64 (s : string) : option f64 :=
  let '(sign, s) := extract_sign s in
  match parse_decimal sign s with
  | Some f => Some f
  | None =>
      if bool_decide (s = "inf") then Some (S754_infinity sign)
      else if bool_decide (s = "NaN") then Some S754_nan
      else None
  end.

(** [m * 2 ^ e] scaled by a power of ten and rounded down. *)
Definition scaled_floor (m : positive) (e k : Z) : Z :=
  let num := Z.shiftl (Zpos m) (Z.max e 0) * 10 ^ Z.max k 0 in
  let den := Z.shiftl 1 (Z.max (- e) 0) * 10 ^ Z.max (- k) 0 in
  num / den.
(** Which of [d] and [d + 1] is closer to [m * 2 ^ e * 10 ^ k]; a tie goes to the
    even one. *)
Definition scaled_near (m : positive) (e k d : Z) : Z :=
  let num := Z.shiftl (Zpos m) (Z.max e 0) * 10 ^ Z.max k 0 in
  let den := Z.shiftl 1 (Z.max (- e) 0) * 10 ^ Z.max (- k) 0 in
  match 2 * (num - d * den) ?= den with
  | Lt => d
  | Gt => d + 1
  | Eq => if Z.even d then d else d + 1
  end.
(** The number of digits before the point: [10 ^ (k - 1) <= m * 2 ^ e < 10 ^ k]. *)
Definition decimal_point (m : positive) (e : Z) : Z :=
  let guess := (Z.log2 (Zpos m) + e) * 30103 / 100000 in
  let too_small k := bool_decide (1 <= scaled_floor m e (- k)) in
  if too_small (guess + 1) then guess + 2 else if too_small guess then guess + 1 else guess.
(** The shortest digits that are read back as the same float, and among them the
    closest; [None] of them has 18 digits. *)
Fixpoint shortest (fuel : nat) (n : Z) (m : positive) (e : Z) (point : Z) : Z * Z :=
  let k := n - point in
  let d := scaled_floor m e k in
  let near := scaled_near m e k d in
  let far := if near =? d then d + 1 else d in
  let reads x := bool_decide (of_decimal false x (- k) = S754_finite false m e) in
  if reads near then (near, - k)
  else if reads far then (far, - k)
  else match fuel with O => (near, - k) | S fuel => shortest fuel (n + 1) m e point end.
Fixpoint strip_zeros (fuel : nat) (d k : Z) : Z * Z :=
  match fuel with
  | O => (d, k)
  | S fuel => if d mod 10 =? 0 then strip_zeros fuel (d / 10) (k + 1) else (d, k)
  end.
Fixpoint zeros (n : nat) : string := match n with O => "" | S n => String "0" (zeros n) end.
(** [digits_to_dec_str]: the digits [d * 10 ^ k] without an exponent. *)
Definition digits_to_dec_str (d k : Z) : string :=
  let s := decimal d in
  let len := Z.of_nat (String.length s) in
  if 0 <=? k then s +:+ zeros (Z.to_nat k)
  else if len + k <=? 0 then "0." +:+ zeros (Z.to_nat (- (len + k))) +:+ s
  else String.substring 0 (Z.to_nat (len + k)) s +:+ "." +:+ String.substring (Z.to_nat (len + k)) (Z.to_nat (- k)) s.
(** [Display for f64]; a negative zero has no sign. *)
Definition display_f64 (f : f64) : string :=
  match f with
  | S754_nan => "NaN"
  | S754_infinity s => if s then "-inf" else "inf"
  | S754_zero _ => "0"
  | S754_finite s m e =>
      let '(d, k) := shortest 16 1 m e (decimal_point m e) in
      let '(d, k) := strip_zeros 17 d k in
      let text := digits_to_dec_str d k in
      if s then String "-" text else text
  end.
