(* ===== verification/NumbersOk.v ===== *)
(** The conversions of numbers: [i32]s are represented exactly by floats, the
    arithmetic of both agrees as long as nothing overflows, and numbers that are
    written are read back. *)
From S2P Require Import Prelude.
From S2P Require Import Numbers.
From Stdlib Require Import SpecFloat.

(** ** Rounding exact numbers *)

Abbreviation digits m := (Zpos (digits2_pos m)).
(** [m * 2 ^ k]. *)
Definition shl (m : positive) (k : nat) : positive := Nat.iter k xO m.

Lemma shl_value m k : Zpos (shl m k) = Zpos m * 2 ^ Z.of_nat k.
Proof.
  induction k as [|k IH]; [cbn; lia|]. rewrite Nat2Z.inj_succ, Z.pow_succ_r by lia.
  change (shl m (S k)) with (xO (shl m k)). lia.
Qed.
Lemma shl_shl m j k : shl (shl m j) k = shl m (j + k).
Proof. apply (inj Zpos). rewrite !shl_value, Nat2Z.inj_add, Z.pow_add_r by lia. ring. Qed.
Lemma iter_shl m p : Pos.iter xO m p = shl m (Pos.to_nat p).
Proof. apply Pos2Nat.inj_iter. Qed.
Lemma digits_shl m k : digits (shl m k) = digits m + Z.of_nat k.
Proof.
  induction k as [|k IH]; [cbn; lia|]. change (digits (shl m (S k))) with (Zpos (Pos.succ (digits2_pos (shl m k)))).
  lia.
Qed.
Lemma digits_log2 m : digits m = Z.log2 (Zpos m) + 1.
Proof.
  assert (digits2_pos m = Pos.size m) as -> by (induction m; cbn; congruence).
  destruct m; cbn; lia.
Qed.
Lemma digits_le m p : 0 < p → Zpos m < 2 ^ p → digits m <= p.
Proof. intros Hp Hm. rewrite digits_log2. pose proof (proj1 (Z.log2_lt_pow2 (Zpos m) p ltac:(lia)) Hm). lia. Qed.

Lemma iter_pos_iter {A} (f : A → A) n x : iter_pos f n x = Nat.iter (Pos.to_nat n) f x.
Proof.
  revert x. induction n as [n IH|n IH|]; intros x; cbn [iter_pos]; rewrite ?IH; [| |done].
  - rewrite Pos2Nat.inj_xI, <- Nat.iter_succ_r, <- Nat.iter_add. f_equal. lia.
  - rewrite Pos2Nat.inj_xO, <- Nat.iter_add. f_equal. lia.
Qed.
Lemma shr_exact m k : Nat.iter k shr_1 (Build_shr_record (Zpos (shl m k)) false false) =
  Build_shr_record (Zpos m) false false.
Proof. induction k as [|k IH]; [done|]. rewrite Nat.iter_succ_r. done. Qed.
Lemma shr_fexp_exact m k e : digits m = 53 → - 1074 <= e + Z.of_nat k →
  shr_fexp prec emax (Zpos (shl m k)) e loc_Exact = (Build_shr_record (Zpos m) false false, e + Z.of_nat k).
Proof.
  intros Hm He. unfold shr_fexp. cbn [Zdigits2 shr_record_of_loc]. rewrite digits_shl, Hm.
  unfold fexp, emin, prec, emax.
  replace (Z.max (53 + Z.of_nat k + e - 53) (3 - 1024 - 53) - e) with (Z.of_nat k) by lia.
  destruct k as [|k]; [by cbn; rewrite Z.add_0_r|]. unfold shr. change (Z.of_nat (S k)) with (Zpos (Pos.of_succ_nat k)). cbn iota.
  by rewrite iter_pos_iter, SuccNat2Pos.id_succ, shr_exact.
Qed.
Lemma round_aux_exact s m k e : digits m = 53 → - 1074 <= e + Z.of_nat k <= 971 →
  binary_round_aux prec emax s (Zpos (shl m k)) e loc_Exact = S754_finite s m (e + Z.of_nat k).
Proof.
  intros Hm He. unfold binary_round_aux. rewrite shr_fexp_exact by lia. cbn [shr_m loc_of_shr_record round_nearest_even].
  pose proof (shr_fexp_exact m 0 (e + Z.of_nat k) Hm ltac:(lia)) as Hs. change (shl m 0) with m in Hs. rewrite Hs. cbn [shr_m].
  rewrite (proj2 (Z.leb_le _ _)) by (unfold prec, emax; lia). f_equal. lia.
Qed.

(** The mantissa of [m] with all its bits. *)
Definition norm (m : positive) : positive := shl m (Z.to_nat (53 - digits m)).
Lemma digits_norm m : digits m <= 53 → digits (norm m) = 53.
Proof. intros. unfold norm. rewrite digits_shl. lia. Qed.
Lemma round_aux_shifted s m k : digits m <= 53 → 53 - digits m <= Z.of_nat k <= 1000 →
  binary_round_aux prec emax s (Zpos (shl m k)) (- Z.of_nat k) loc_Exact = S754_finite s (norm m) (digits m - 53).
Proof.
  intros Hm Hk. set (j := Z.to_nat (53 - digits m)).
  replace (shl m k) with (shl (norm m) (k - j)) by (unfold norm; rewrite shl_shl; f_equal; lia).
  rewrite round_aux_exact by (rewrite ?digits_norm by done; lia). f_equal. lia.
Qed.
Lemma round_shifted s m k : digits m <= 53 → Z.of_nat k <= 1000 →
  binary_round prec emax s (shl m k) (- Z.of_nat k) = S754_finite s (norm m) (digits m - 53).
Proof.
  intros Hm Hk. unfold binary_round, shl_align. rewrite digits_shl.
  unfold fexp, emin. replace (digits m + Z.of_nat k + - Z.of_nat k - prec) with (digits m - 53) by (unfold prec; lia).
  rewrite Z.max_l by (unfold prec, emax; lia).
  destruct (digits m - 53 - - Z.of_nat k) as [|p|p] eqn:Hd; [by rewrite round_aux_shifted by lia..|].
  rewrite iter_shl, shl_shl. replace (digits m - 53) with (- Z.of_nat (k + Pos.to_nat p)) at 1 by lia.
  by rewrite round_aux_shifted by lia.
Qed.

(** ** Integers as floats *)

Definition exact (z : Z) : Prop := - 2 ^ 53 < z < 2 ^ 53.
Lemma in_i32_exact z : Int.in_i32 z → exact z.
Proof. unfold Int.in_i32, exact. lia. Qed.

Definition float_of (z : Z) : f64 :=
  match z with
  | Z0 => S754_zero false
  | Zpos m => S754_finite false (norm m) (digits m - 53)
  | Zneg m => S754_finite true (norm m) (digits m - 53)
  end.
Lemma exact_digits z : exact z →
  match z with Z0 => True | Zpos m | Zneg m => digits m <= 53 end.
Proof. unfold exact. destruct z as [|m|m]; intros Hz; [done|apply digits_le; lia..]. Qed.

(** Rounding an integer that is scaled by a power of two gives the integer. *)
Lemma normalize_shifted z k : exact z → Z.of_nat k <= 1000 →
  binary_normalize prec emax (z * 2 ^ Z.of_nat k) (- Z.of_nat k) false = float_of z.
Proof.
  intros Hz Hk. apply exact_digits in Hz. destruct z as [|m|m]; [done| |].
  - rewrite <- shl_value. by apply round_shifted.
  - replace (Zneg m * 2 ^ Z.of_nat k) with (Zneg (shl m k)) by (pose proof (shl_value m k); lia).
    by apply round_shifted.
Qed.
Lemma of_Z_exact z : exact z → of_Z z = float_of z.
Proof. intros Hz. pose proof (normalize_shifted z 0 Hz ltac:(lia)) as H. by rewrite Z.mul_1_r in H. Qed.

Lemma align_norm m e : digits m <= 53 → e <= digits m - 53 →
  Zpos (fst (shl_align (norm m) (digits m - 53) e)) = Zpos m * 2 ^ (- e).
Proof.
  intros Hm He. unfold shl_align, norm.
  assert (∀ k, Z.of_nat (Z.to_nat (53 - digits m) + k) = - e →
            Zpos (shl m (Z.to_nat (53 - digits m) + k)) = Zpos m * 2 ^ (- e)) as Hs.
  { intros k Hk. rewrite shl_value. by rewrite Hk. }
  destruct (e - (digits m - 53)) as [|p|p] eqn:Hd; cbn [fst]; [|lia|].
  - rewrite <- (Nat.add_0_r (Z.to_nat _)). apply Hs. lia.
  - rewrite iter_shl, shl_shl. apply Hs. lia.
Qed.

(** Addition and subtraction of aligned mantissas. *)
Lemma sum_exact (f : Z → Z → Z) x y e : (∀ a b c, f (a * c) (b * c) = f a b * c) →
  exact (f x y) → - 1000 <= e <= 0 →
  binary_normalize prec emax (f (x * 2 ^ (- e)) (y * 2 ^ (- e))) e false = float_of (f x y).
Proof.
  intros Hf Hz He. rewrite Hf. pose proof (normalize_shifted _ (Z.to_nat (- e)) Hz ltac:(lia)) as H.
  rewrite Z2Nat.id, Z.opp_involutive in H by lia. exact H.
Qed.
Lemma digits_pos m : 1 <= digits m.
Proof. lia. Qed.

Lemma f64_add_exact a b : exact a → exact b → exact (a + b) → f64_add (of_Z a) (of_Z b) = of_Z (a + b).
Proof.
  intros Ha Hb Hab. rewrite !of_Z_exact by done. pose proof (exact_digits a Ha). pose proof (exact_digits b Hb).
  assert (∀ a b c, a * c + b * c = (a + b) * c) as Hd by lia.
  destruct a as [|m|m], b as [|n|n]; try done; cbn [f64_add SFadd float_of cond_Zopp];
    rewrite !align_norm by lia; set (e := Z.min _ _);
    rewrite <- ?Z.mul_opp_l; apply (sum_exact Z.add); try done; lia.
Qed.
Lemma f64_sub_exact a b : exact a → exact b → exact (a - b) → f64_sub (of_Z a) (of_Z b) = of_Z (a - b).
Proof.
  intros Ha Hb Hab. rewrite !of_Z_exact by done. pose proof (exact_digits a Ha). pose proof (exact_digits b Hb).
  assert (∀ a b c, a * c - b * c = (a - b) * c) as Hd by lia.
  destruct a as [|m|m], b as [|n|n]; try done; cbn [f64_sub SFsub float_of cond_Zopp];
    rewrite !align_norm by lia; set (e := Z.min _ _);
    rewrite <- ?Z.mul_opp_l; apply (sum_exact Z.sub); try done; lia.
Qed.

(** Equality of JavaScript numbers: zeros are equal. *)
Lemma f64_eq_refl x : is_nan x = false → f64_eq x x = true.
Proof.
  unfold f64_eq, SFeqb. destruct x as [s|s| |s m e]; cbn; try done; [by destruct s|].
  rewrite Z.compare_refl. change (Pos.compare_cont Eq m m) with (Pos.compare m m). rewrite Pos.compare_refl. by destruct s.
Qed.
Lemma float_of_number z : is_nan (float_of z) = false.
Proof. by destruct z. Qed.

Lemma norm_mul m n : digits m <= 53 → digits n <= 53 →
  Pos.mul (norm m) (norm n) = shl (m * n) (Z.to_nat (106 - digits m - digits n)).
Proof.
  intros. apply (inj Zpos). rewrite Pos2Z.inj_mul. unfold norm. rewrite !shl_value, Pos2Z.inj_mul, !Z2Nat.id by lia.
  replace (106 - digits m - digits n) with ((53 - digits m) + (53 - digits n)) by lia.
  rewrite Z.pow_add_r by lia. ring.
Qed.
Lemma digits_mul m n : digits m + digits n - 1 <= digits (m * n).
Proof. rewrite !digits_log2, Pos2Z.inj_mul. pose proof (Z.log2_mul_below (Zpos m) (Zpos n) ltac:(lia) ltac:(lia)). lia. Qed.
Lemma round_aux_mul s m n : digits m <= 53 → digits n <= 53 → digits (m * n) <= 53 →
  binary_round_aux prec emax s (Zpos (norm m * norm n)) (digits m - 53 + (digits n - 53)) loc_Exact =
  S754_finite s (norm (m * n)) (digits (m * n) - 53).
Proof.
  intros Hm Hn Hmn. pose proof (digits_mul m n). rewrite norm_mul by done.
  replace (digits m - 53 + (digits n - 53)) with (- Z.of_nat (Z.to_nat (106 - digits m - digits n))) by lia.
  apply round_aux_shifted; lia.
Qed.
Lemma f64_mul_exact a b : exact a → exact b → exact (a * b) →
  f64_eq (f64_mul (of_Z a) (of_Z b)) (of_Z (a * b)) = true.
Proof.
  intros Ha Hb Hab. rewrite !of_Z_exact by done.
  pose proof (exact_digits a Ha). pose proof (exact_digits b Hb). pose proof (exact_digits _ Hab).
  destruct a as [|m|m], b as [|n|n]; try done; cbn [f64_mul SFmul float_of Z.mul];
    rewrite round_aux_mul by done; apply f64_eq_refl; done.
Qed.

Lemma shift_norm m e : digits m <= 53 → e <= digits m - 53 →
  Z.shiftl (Zpos (norm m)) (digits m - 53 - e) = Zpos m * 2 ^ (- e).
Proof.
  intros Hm He. rewrite Z.shiftl_mul_pow2 by lia. unfold norm. rewrite shl_value, Z2Nat.id by lia.
  rewrite <- Z.mul_assoc, <- Z.pow_add_r by lia. do 2 f_equal. lia.
Qed.
Lemma normalize_sign z k s : exact z → Z.of_nat k <= 1000 →
  f64_eq (binary_normalize prec emax (z * 2 ^ Z.of_nat k) (- Z.of_nat k) s) (float_of z) = true.
Proof.
  intros Hz Hk. destruct (decide (z = 0)) as [->|Hnz]; [done|].
  replace (binary_normalize prec emax (z * 2 ^ Z.of_nat k) (- Z.of_nat k) s)
    with (float_of z); [apply f64_eq_refl, float_of_number|].
  rewrite <- (normalize_shifted z k) by done.
  assert (z * 2 ^ Z.of_nat k ≠ 0) by nia. by destruct (z * 2 ^ Z.of_nat k).
Qed.
Lemma rem_abs s m n t : cond_Zopp s (Z.rem (Zpos m) (Zpos n)) = Z.rem (cond_Zopp s (Zpos m)) (cond_Zopp t (Zpos n)).
Proof. destruct s, t; cbn [cond_Zopp]; rewrite ?Z.rem_opp_l, ?Z.rem_opp_r by lia; done. Qed.
Lemma f64_rem_finite s t m n : digits m <= 53 → digits n <= 53 →
  f64_eq (f64_rem (S754_finite s (norm m) (digits m - 53)) (S754_finite t (norm n) (digits n - 53)))
    (float_of (Z.rem (cond_Zopp s (Zpos m)) (cond_Zopp t (Zpos n)))) = true.
Proof.
  intros Hm Hn. cbn [f64_rem]. set (e := Z.min _ _). rewrite !shift_norm by lia.
  rewrite Z.mul_rem_distr_r by (try apply Z.pow_nonzero; lia). rewrite <- rem_abs.
  assert (∀ z c, cond_Zopp s (z * c) = cond_Zopp s z * c) as -> by (intros; destruct s; cbn; lia).
  set (z := cond_Zopp s _). pose proof (normalize_sign z (Z.to_nat (- e)) s) as Hz.
  rewrite Z2Nat.id, Z.opp_involutive in Hz by lia. apply Hz; [|lia].
  pose proof (Z.rem_bound_pos (Zpos m) (Zpos n) ltac:(lia) ltac:(lia)) as Hr.
  assert (Zpos n < 2 ^ 53).
  { rewrite digits_log2 in Hn. apply Z.log2_lt_pow2; lia. }
  subst z. unfold exact. destruct s; cbn [cond_Zopp]; lia.
Qed.
Lemma f64_rem_exact a b : exact a → exact b → b ≠ 0 → f64_eq (f64_rem (of_Z a) (of_Z b)) (of_Z (Z.rem a b)) = true.
Proof.
  intros Ha Hb Hnz. pose proof (exact_digits a Ha). pose proof (exact_digits b Hb).
  assert (exact (Z.rem a b)).
  { unfold exact in *. pose proof (Z.rem_bound_abs a b Hnz). lia. }
  rewrite !of_Z_exact by done. destruct b as [|n|n]; [done|..]; (destruct a as [|m|m]; [done|..]); cbn [float_of].
  - by apply (f64_rem_finite false false).
  - by apply (f64_rem_finite true false).
  - by apply (f64_rem_finite false true).
  - by apply (f64_rem_finite true true).
Qed.

(** The order of floats is that of the integers. *)
Lemma compare_norm m n : digits m <= 53 → digits n <= 53 →
  match digits m - 53 ?= digits n - 53 with Lt => Lt | Gt => Gt | Eq => Pos.compare (norm m) (norm n) end =
  (Zpos m ?= Zpos n).
Proof.
  intros Hm Hn.
  assert (∀ p q, digits p < digits q → Zpos p < Zpos q) as Hlt.
  { intros p q Hd. rewrite !digits_log2 in Hd. apply Z.log2_lt_cancel. lia. }
  destruct (Z.compare_spec (digits m - 53) (digits n - 53)) as [Heq|Hd|Hd].
  - change (Pos.compare (norm m) (norm n)) with (Zpos (norm m) ?= Zpos (norm n)). unfold norm. rewrite !shl_value.
    replace (digits n) with (digits m) by lia. symmetry. apply Zmult_compare_compat_r. lia.
  - symmetry. apply Z.compare_lt_iff, Hlt. lia.
  - symmetry. apply Z.compare_gt_iff, Hlt. lia.
Qed.
Lemma compare_of_Z a b : exact a → exact b → SFcompare (of_Z a) (of_Z b) = Some (a ?= b).
Proof.
  intros Ha Hb. rewrite !of_Z_exact by done. pose proof (exact_digits a Ha). pose proof (exact_digits b Hb).
  destruct a as [|m|m], b as [|n|n]; try done; cbn [float_of SFcompare].
  - rewrite <- compare_norm by done. done.
  - change (Zneg m ?= Zneg n) with (CompOpp (Zpos m ?= Zpos n)). rewrite <- compare_norm by done.
    by destruct (digits m - 53 ?= digits n - 53).
Qed.
Lemma f64_eq_of_Z a b : exact a → exact b → f64_eq (of_Z a) (of_Z b) = (a =? b).
Proof. intros. unfold f64_eq, SFeqb. rewrite compare_of_Z, Z.eqb_compare by done. by destruct (a ?= b). Qed.
Lemma f64_lt_of_Z a b : exact a → exact b → f64_lt (of_Z a) (of_Z b) = (a <? b).
Proof. intros. unfold f64_lt, SFltb. rewrite compare_of_Z by done. unfold Z.ltb. by destruct (a ?= b). Qed.

Lemma to_i32_of_Z z : Int.in_i32 z → to_i32 (of_Z z) = z.
Proof.
  intros Hz. pose proof (in_i32_exact z Hz) as Hx. rewrite of_Z_exact by done.
  assert (∀ s m, z = cond_Zopp s (Zpos m) → clamp i32_min i32_max (truncate s (norm m) (digits m - 53)) = z) as Hm.
  { intros s m Hzm. assert (digits m <= 52) as Hd.
    { apply digits_le; [lia|]. unfold Int.in_i32 in Hz. destruct s; cbn in Hzm; lia. }
    unfold truncate. rewrite (proj2 (Z.ltb_lt _ _)) by lia.
    replace (- (digits m - 53)) with (53 - digits m) by lia.
    unfold norm. rewrite shl_value, Z2Nat.id, Z.shiftr_div_pow2, Z.div_mul by (try apply Z.pow_nonzero; lia).
    rewrite <- Hzm. unfold clamp, i32_min, i32_max. unfold Int.in_i32 in Hz. lia. }
  destruct z as [|m|m]; [done|by apply (Hm false)|by apply (Hm true)].
Qed.

(** ** Numbers that are written and read *)

Lemma to_digit_digit d : 0 <= d < 10 → to_digit 10 (digit d) = Some d.
Proof.
  intros Hd. assert (d ∈ seqZ 0 10) as Hin by (apply elem_of_seqZ; lia).
  repeat (apply elem_of_cons in Hin as [->|Hin]; [done|]). by apply elem_of_nil in Hin.
Qed.
Lemma digits_value_of fuel n acc : 0 <= n < 2 ^ Z.of_nat (S fuel) →
  digits_value 10 0 (digits_of (S fuel) n acc) = digits_value 10 n acc.
Proof.
  revert n acc. induction fuel as [|fuel IH]; intros n acc Hn.
  - assert (n = 0 ∨ n = 1) as [-> | ->] by (cbn in Hn; lia); done.
  - rewrite Nat2Z.inj_succ, Z.pow_succ_r in Hn by lia.
    pose proof (Z.div_mod n 10 ltac:(lia)). pose proof (Z.mod_pos_bound n 10 ltac:(lia)).
    assert (n / 10 < 2 ^ Z.of_nat (S fuel)) by (apply Z.div_lt_upper_bound; lia).
    assert (0 <= n / 10) by (apply Z.div_pos; lia).
    change (digits_of (S (S fuel)) n acc) with
      (if n <? 10 then String (digit (n mod 10)) acc else digits_of (S fuel) (n / 10) (String (digit (n mod 10)) acc)).
    destruct (Z.ltb_spec n 10).
    + cbn [digits_value]. rewrite to_digit_digit by lia. cbn. f_equal. rewrite Z.mod_small; lia.
    + rewrite IH by done. cbn [digits_value]. rewrite to_digit_digit by lia. cbn. f_equal. lia.
Qed.
Lemma decimal_digits n : 0 <= n → digits_value 10 0 (decimal n) = Some n.
Proof.
  intros Hn. unfold decimal. rewrite digits_value_of; [done|]. split; [done|].
  destruct (decide (n = 0)) as [->|]; [done|]. rewrite Nat2Z.inj_succ, Z2Nat.id by apply Z.log2_nonneg.
  apply Z.log2_spec. lia.
Qed.

Lemma digits_value_first v s x : digits_value 10 v s = Some x → extract_sign s = (false, s).
Proof.
  destruct s as [|c s]; [done|]. cbn [digits_value]. intros Hs.
  destruct c as [[] [] [] [] [] [] [] []]; try discriminate Hs; done.
Qed.
Lemma digits_value_eat v s x : digits_value 10 v s = Some x → eat_digits s = (s, "").
Proof.
  revert v. induction s as [|c s IH]; intros v Hs; [done|]. cbn [digits_value eat_digits] in *.
  destruct (to_digit 10 c) as [d|]; [|done]. by rewrite (IH _ Hs).
Qed.
Lemma decimal_nonempty n : decimal n ≠ "".
Proof.
  unfold decimal. assert (∀ k m acc, acc ≠ "" ∨ k ≠ O → digits_of k m acc ≠ "") as Hd; [|by apply Hd; right].
  intros k. induction k as [|k IH]; intros m acc Hk; [by destruct Hk|]. cbn.
  case_match; [done|]. apply IH. by left.
Qed.

Lemma parse_digits (neg : bool) n : 0 <= n →
  match decimal n with
  | "" => None
  | _ => z ← digits_value 10 0 (decimal n);
         let z := if neg then - z else z in if bool_decide (Int.in_i32 z) then Some z else None
  end = let z := if neg then - n else n in if bool_decide (Int.in_i32 z) then Some z else None.
Proof. intros Hn. rewrite decimal_digits by done. pose proof (decimal_nonempty n). by destruct (decimal n). Qed.
Lemma parse_display_i32 z : Int.in_i32 z → parse_i32 (display_i32 z) = Ok (Some z).
Proof.
  intros Hz. unfold parse_i32, i32_from_str_radix, display_i32.
  change (assert _ _) with (@Ok never unit tt). cbn [mbind comp_bind].
  destruct (Z.ltb_spec z 0) as [Hneg|Hpos].
  - cbn [extract_sign]. rewrite (parse_digits true) by lia. cbv zeta. rewrite Z.opp_involutive. by rewrite bool_decide_true.
  - rewrite (digits_value_first 0 _ z) by (by apply decimal_digits).
    rewrite (parse_digits false) by lia. cbv zeta. by rewrite bool_decide_true.
Qed.

Lemma of_decimal_integer s n : 0 <= n → exact n → of_decimal s n 0 = if s then SFopp (of_Z n) else of_Z n.
Proof.
  intros Hn Hx. rewrite of_Z_exact by done. destruct n as [|m|m]; [by destruct s| |lia].
  cbn [of_decimal Z.leb Z.compare]. rewrite Z.mul_1_r. pose proof (exact_digits _ Hx).
  destruct s; cbn [cond_Zopp binary_normalize Z.opp]; exact (round_shifted _ m 0 ltac:(done) ltac:(lia)).
Qed.
Lemma app_empty (s : string) : s +:+ "" = s.
Proof. induction s as [|c s IH]; [done|]. change (String c (s +:+ "") = String c s). by rewrite IH. Qed.
Lemma parse_decimal_integer s n : 0 <= n → parse_decimal s (decimal n) = Some (of_decimal s n 0).
Proof.
  intros Hn. unfold parse_decimal. rewrite (digits_value_eat 0 _ n) by by apply decimal_digits.
  pose proof (decimal_nonempty n). unfold decimal_value, nat_value.
  rewrite app_empty.
  rewrite decimal_digits by done. destruct (decimal n); done.
Qed.
Lemma parse_f64_display_i32 z : exact z → parse_f64 (display_i32 z) = Some (of_Z z).
Proof.
  intros Hz. unfold parse_f64, display_i32. destruct (Z.ltb_spec z 0) as [Hneg|Hpos].
  - cbn [extract_sign]. rewrite parse_decimal_integer by lia.
    assert (exact (- z)) by (unfold exact in *; lia). rewrite of_decimal_integer by (done || lia).
    rewrite !of_Z_exact by done. by destruct z as [|m|m].
  - rewrite (digits_value_first 0 _ z) by by apply decimal_digits.
    rewrite parse_decimal_integer by lia. by rewrite of_decimal_integer.
Qed.
