(* ===== verification/StringEscaping.v ===== *)
(** String literals: the characters that a literal stands for
    ([string_escaping.rs], for the texts of NotWasm programs), and how the
    printer of JavaScript writes them ([javascript/pretty_ast.rs]). *)
From S2P Require Import Prelude.
From S2P Require Import Numbers.
From Stdlib Require Import Ascii.

(** A [char]: a Unicode scalar value. *)
Abbreviation char := Z.
Definition is_char (n : Z) : Prop := 0 <= n < 55296 ∨ 57344 <= n < 1114112.
#[global] Instance is_char_dec n : Decision (is_char n).
Proof. unfold is_char. apply _. Defined.
(** [std::char::from_u32]. *)
Definition char_from_u32 (n : Z) : option char := if bool_decide (is_char n) then Some n else None.
Fixpoint chars (s : string) : list char :=
  match s with EmptyString => [] | String c s => Z.of_N (N_of_ascii c) :: chars s end.
Definition of_ascii (c : ascii) : char := Z.of_N (N_of_ascii c).

Record UnescapingError := err { original : list char; offset : Z; message : list char }.
Abbreviation unescaping := (comp UnescapingError).

Definition quote : char := 34.
Definition apostrophe : char := 39.
Definition backslash : char := 92.
Definition is_quote (c : char) : bool := (c =? quote) || (c =? apostrophe).

Definition hex_digit (c : char) : option Z :=
  if (48 <=? c) && (c <=? 57) then Some (c - 48)
  else if (97 <=? c) && (c <=? 102) then Some (c - 87)
  else if (65 <=? c) && (c <=? 70) then Some (c - 55)
  else None.
(** [from_str_radix], with enough bits for the digits: a sign may come first. *)
Fixpoint radix_value (radix acc : Z) (s : list char) : option Z :=
  match s with
  | [] => Some acc
  | c :: s => d ← hex_digit c; if d <? radix then radix_value radix (acc * radix + d) s else None
  end.
Definition from_str_radix (radix : Z) (s : list char) : option Z :=
  match s with
  | [] => None
  | [43] => None
  | 43 :: s => radix_value radix 0 s
  | s => radix_value radix 0 s
  end.

(** The characters after a backslash that stand for one character. *)
Definition simple_escape (c : char) : option char :=
  if bool_decide (c ∈ [apostrophe; quote; backslash]) then Some c
  else if c =? of_ascii "n" then Some 10
  else if c =? of_ascii "r" then Some 13
  else if c =? of_ascii "t" then Some 9
  else if c =? of_ascii "f" then Some 12
  else if c =? of_ascii "b" then Some 8
  else if c =? of_ascii "v" then Some 11
  else None.
Definition is_octal (c : char) : bool := (48 <=? c) && (c <=? 55).

(** The loop of [unescape_string]: the rest of the iterator, the offset and the
    buffer. *)
Fixpoint unescape_rest (s : list char) (iter : list char) (offset : Z) (buf : list char) :
    unescaping (list char) :=
  match iter with
  | [] => Err (err s offset (chars "missing closing quote"))
  | ch :: iter =>
      let offset := offset + 1 in
      if is_quote ch then
        match iter with
        | [] => Ok buf
        | _ => Err (err s offset (chars "extra characters after the quote"))
        end
      else if negb (ch =? backslash) then unescape_rest s iter offset (buf ++ [ch])
      else
        match iter with
        | [] => Err (err s offset (chars "character after backslash"))
        | ch :: iter =>
            let offset := offset + 1 in
            match simple_escape ch with
            | Some c => unescape_rest s iter offset (buf ++ [c])
            | None =>
                if ch =? of_ascii "x" then
                  match iter with
                  | [] => Err (err s offset (chars "first hex digit after \x"))
                  | [_] => Err (err s offset (chars "second hex digit after \x"))
                  | a :: b :: iter =>
                      match from_str_radix 16 [a; b] with
                      | None => Err (err s offset (chars "invalid escape \x" ++ s))
                      | Some n => unescape_rest s iter offset (buf ++ [n])
                      end
                  end
                else if ch =? of_ascii "u" then
                  match iter with
                  | [] => Err (err s offset (chars "first hex digit after \x"))
                  | [_] => Err (err s offset (chars "second hex digit after \x"))
                  | [_; _] => Err (err s offset (chars "third hex digit after \x"))
                  | [_; _; _] => Err (err s offset (chars "fourth hex digit after \x"))
                  | a :: b :: c :: d :: iter =>
                      match from_str_radix 16 [a; b; c; d] with
                      | None => Err (err s offset (chars "invalid unicode escape " ++ s))
                      | Some n =>
                          match char_from_u32 n with
                          | None => Err (err s offset (chars "invalid Unicode character " ++ chars (display_i32 n)))
                          | Some n => unescape_rest s iter offset (buf ++ [n])
                          end
                      end
                  end
                else if (ch <? 48) || (57 <? ch) then unescape_rest s iter offset (buf ++ [ch])
                else
                  let finish octal_str rest :=
                    match from_str_radix 8 octal_str with
                    | None => Err (err s offset (chars "invalid octal escape \u" ++ octal_str))
                    | Some n =>
                        match char_from_u32 n with
                        | None => Panic "called unwrap on a None value"
                        | Some n => rest n
                        end
                    end in
                  match iter with
                  | d :: iter' =>
                      if is_octal d
                      then finish [ch; d] (λ n, unescape_rest s iter' offset (buf ++ [n]))
                      else finish [ch] (λ n, unescape_rest s iter offset (buf ++ [n]))
                  | [] => finish [ch] (λ n, unescape_rest s iter offset (buf ++ [n]))
                  end
            end
        end
  end.
(** [unescape_string]. *)
Definition unescape_string (s : list char) : unescaping (list char) :=
  match s with
  | [] => Err (err s 0 (chars "no characters in string"))
  | c :: iter =>
      if is_quote c then unescape_rest s iter 0 []
      else Err (err s 0 (chars "string does not begin with " ++ [quote] ++ chars " or '"))
  end.

(** [text.replace(c, by)]. *)
Definition replace (c : char) (by_ : list char) (text : list char) : list char :=
  concat (map (λ d, if d =? c then by_ else [d]) text).
Definition newline : char := 10.
(** [Lit::to_doc] of a string. *)
Definition string_to_doc (text : list char) : list char :=
  let unescaped :=
    replace quote [backslash; quote]
      (replace backslash [backslash; backslash]
        (replace newline [backslash; of_ascii "n"] text)) in
  [quote] ++ unescaped ++ [quote].

(** ** The grammar of literals *)

Definition octal_value (c : char) : Z := c - 48.
(** ES 5.1, 7.8.4, table 4, and the quotes and the backslash. *)
Definition escapes : list (char * char) :=
  [(39, 39); (34, 34); (92, 92); (110, 10); (114, 13); (116, 9); (102, 12); (98, 8); (118, 11)].
(** The texts after the first quote, with the closing one, and their values. *)
Inductive body : list char → list char → Prop :=
  | body_end q : is_quote q = true → body [q] []
  | body_plain c s v : is_quote c = false → c ≠ backslash → body s v → body (c :: s) (c :: v)
  | body_simple c x s v : (c, x) ∈ escapes → body s v → body (backslash :: c :: s) (x :: v)
  | body_hex a b n s v : from_str_radix 16 [a; b] = Some n → body s v →
      body (backslash :: of_ascii "x" :: a :: b :: s) (n :: v)
  | body_unicode a b c d n s v : from_str_radix 16 [a; b; c; d] = Some n → is_char n → body s v →
      body (backslash :: of_ascii "u" :: a :: b :: c :: d :: s) (n :: v)
  | body_octal1 a s v : is_octal a = true → (∀ b s', s = b :: s' → is_octal b = false) → body s v →
      body (backslash :: a :: s) (octal_value a :: v)
  | body_octal2 a b s v : is_octal a = true → is_octal b = true → body s v →
      body (backslash :: a :: b :: s) (8 * octal_value a + octal_value b :: v)
  | body_other c s v : c ∉ escapes.*1 → c ≠ of_ascii "x" → c ≠ of_ascii "u" → (c < 48 ∨ 57 < c) →
      body s v → body (backslash :: c :: s) (c :: v).
Definition literal (s v : list char) : Prop := ∃ q t, s = q :: t ∧ is_quote q = true ∧ body t v.

Lemma simple_escape_table c x : (c, x) ∈ escapes ↔ simple_escape c = Some x.
Proof.
  unfold simple_escape, escapes. split.
  - intros Hin. repeat (apply elem_of_cons in Hin as [[= -> ->]|Hin]; [done|]). by apply elem_of_nil in Hin.
  - case_bool_decide as Hc; [|repeat (case_match eqn:He; [apply Z.eqb_eq in He as ->; intros [= <-]; repeat first [by left|right]|clear He]); done].
    intros [= <-]. repeat (apply elem_of_cons in Hc as [->|Hc]; [repeat first [by left|right]|]). by apply elem_of_nil in Hc.
Qed.
Lemma simple_escape_none c : c ∉ escapes.*1 ↔ simple_escape c = None.
Proof.
  split.
  - intros Hc. destruct (simple_escape c) as [x|] eqn:Hx; [|done]. destruct Hc.
    apply simple_escape_table in Hx. apply list_elem_of_fmap. by exists (c, x).
  - intros Hn ((c' & x) & -> & Hx)%list_elem_of_fmap. apply simple_escape_table in Hx. cbn in Hn. congruence.
Qed.
Lemma simple_escape_digit c : 48 <= c <= 57 → simple_escape c = None.
Proof.
  intros Hc. assert (c ∈ seqZ 48 10) as Hin by (apply elem_of_seqZ; lia).
  repeat (apply elem_of_cons in Hin as [->|Hin]; [done|]). by apply elem_of_nil in Hin.
Qed.
Lemma hex_digit_octal c : is_octal c = true → hex_digit c = Some (octal_value c) ∧ octal_value c < 8 ∧ 0 <= octal_value c.
Proof. unfold is_octal, hex_digit, octal_value. intros Hc. assert (48 <= c <= 55) by lia.
  assert ((48 <=? c) && (c <=? 57) = true) as -> by lia. split; [done|lia]. Qed.
Lemma octal1 a : is_octal a = true → from_str_radix 8 [a] = Some (octal_value a).
Proof.
  intros Ha. destruct (hex_digit_octal a Ha) as (Hd & Hlt & _). unfold from_str_radix.
  assert (a ≠ 43) by (unfold is_octal in Ha; lia).
  transitivity (radix_value 8 0 [a]); [repeat case_match; try done; congruence|].
  cbn. rewrite Hd. cbn. by rewrite (proj2 (Z.ltb_lt _ _)).
Qed.
Lemma octal2 a b : is_octal a = true → is_octal b = true →
  from_str_radix 8 [a; b] = Some (8 * octal_value a + octal_value b).
Proof.
  intros Ha Hb. destruct (hex_digit_octal a Ha) as (Hd & Hlt & _). destruct (hex_digit_octal b Hb) as (He & Hlt' & _).
  unfold from_str_radix. assert (a ≠ 43) by (unfold is_octal in Ha; lia).
  transitivity (radix_value 8 0 [a; b]); [repeat case_match; try done; congruence|].
  cbn. rewrite Hd. cbn. rewrite (proj2 (Z.ltb_lt _ _)) by done. cbn. rewrite He. cbn.
  rewrite (proj2 (Z.ltb_lt _ _)) by done. f_equal. lia.
Qed.

(** ** The function and the grammar *)

#[local] Arguments simple_escape : simpl never.
#[local] Arguments from_str_radix : simpl never.
#[local] Arguments is_quote : simpl never.
#[local] Arguments char_from_u32 : simpl never.

#[local] Arguments of_ascii : simpl never.
(** Go past a backslash. *)
Ltac escape := cbn; change (is_quote backslash) with false; cbn.

(** One step after a backslash with a digit. *)
Lemma unescape_digit s c iter offset buf : 48 <= c <= 57 →
  unescape_rest s (backslash :: c :: iter) offset buf =
  let finish octal_str rest :=
    match from_str_radix 8 octal_str with
    | None => Err (err s (offset + 1 + 1) (chars "invalid octal escape \u" ++ octal_str))
    | Some n => match char_from_u32 n with None => Panic "called unwrap on a None value" | Some n => rest n end
    end in
  match iter with
  | d :: iter' =>
      if is_octal d then finish [c; d] (λ n, unescape_rest s iter' (offset + 1 + 1) (buf ++ [n]))
      else finish [c] (λ n, unescape_rest s iter (offset + 1 + 1) (buf ++ [n]))
  | [] => finish [c] (λ n, unescape_rest s iter (offset + 1 + 1) (buf ++ [n]))
  end.
Proof.
  intros Hc. cbn [unescape_rest]. change (is_quote backslash) with false. change (negb (backslash =? backslash)) with false.
  cbv iota. rewrite simple_escape_digit by done.
  assert (c =? of_ascii "x" = false) as -> by (apply Z.eqb_neq; vm_compute (of_ascii _); lia).
  assert (c =? of_ascii "u" = false) as -> by (apply Z.eqb_neq; vm_compute (of_ascii _); lia).
  assert ((c <? 48) || (57 <? c) = false) as -> by lia. done.
Qed.
Lemma octal_char n : 0 <= n < 64 → char_from_u32 n = Some n.
Proof. intros. unfold char_from_u32. rewrite bool_decide_true; [done|]. unfold is_char. lia. Qed.
Lemma octal_bounds c : is_octal c = true → 48 <= c <= 57 ∧ 0 <= octal_value c < 8.
Proof. unfold is_octal, octal_value. lia. Qed.

Lemma unescape_complete s iter v : body iter v → ∀ offset buf, unescape_rest s iter offset buf = Ok (buf ++ v).
Proof.
  induction 1 as [q Hq|c t v Hq Hc _ IH|c x t v Hx _ IH|a b n t v Hn _ IH|a b c d n t v Hn Hch _ IH
    |a t v Ha Ht _ IH|a b t v Ha Hb _ IH|c t v Hs Hx Hu Hc _ IH]; intros offset buf.
  - cbn. rewrite Hq. by rewrite app_nil_r.
  - cbn. rewrite Hq, (proj2 (Z.eqb_neq _ _) Hc). cbn. by rewrite IH, <- app_assoc.
  - apply simple_escape_table in Hx. escape. rewrite Hx. by rewrite IH, <- app_assoc.
  - escape. change (simple_escape (of_ascii "x")) with (@None char).
    change (of_ascii "x" =? of_ascii "x") with true. cbv iota. by rewrite Hn, IH, <- app_assoc.
  - escape. change (simple_escape (of_ascii "u")) with (@None char).
    change (of_ascii "u" =? of_ascii "x") with false. change (of_ascii "u" =? of_ascii "u") with true. cbv iota. rewrite Hn. unfold char_from_u32. rewrite bool_decide_true by done.
    by rewrite IH, <- app_assoc.
  - destruct (octal_bounds a Ha). rewrite unescape_digit by done. cbv zeta.
    destruct t as [|b t]; [|rewrite (Ht b t) by done];
      by rewrite octal1, octal_char, IH, <- app_assoc by (done || lia).
  - destruct (octal_bounds a Ha), (octal_bounds b Hb). rewrite unescape_digit by done. cbv zeta. rewrite Hb.
    by rewrite octal2, octal_char, IH, <- app_assoc by (done || lia).
  - apply simple_escape_none in Hs. escape. rewrite Hs, (proj2 (Z.eqb_neq _ _) Hx), (proj2 (Z.eqb_neq _ _) Hu). cbn.
    assert ((c <? 48) || (57 <? c) = true) as -> by lia. by rewrite IH, <- app_assoc.
Qed.

Lemma octal_digit_only c l n : 48 <= c <= 57 → from_str_radix 8 (c :: l) = Some n → is_octal c = true.
Proof.
  intros Hc Hn. destruct (is_octal c) eqn:Ho; [done|]. unfold is_octal in Ho.
  assert (c = 56 ∨ c = 57) as [-> | ->] by lia; unfold from_str_radix in Hn; by destruct l.
Qed.
Lemma unescape_sound s n iter offset buf : (length iter ≤ n)%nat →
  match unescape_rest s iter offset buf with
  | Ok r => ∃ v, r = buf ++ v ∧ body iter v
  | Err _ => True
  | Panic _ => False
  end.
Proof.
  revert iter offset buf. induction n as [|n IH]; intros iter offset buf Hn.
  { by destruct iter; [|cbn in Hn; lia]. }
  (* what follows a character [x] of the value *)
  assert (∀ iter' offset' x, (length iter' ≤ n)%nat → (∀ v, body iter' v → body iter (x :: v)) →
    match unescape_rest s iter' offset' (buf ++ [x]) with
    | Ok r => ∃ v, r = buf ++ v ∧ body iter v | Err _ => True | Panic _ => False end) as Hstep.
  { intros iter' offset' x Hl Hb. specialize (IH iter' offset' (buf ++ [x]) Hl).
    destruct (unescape_rest s iter' offset' (buf ++ [x])); [|done|done].
    destruct IH as (v & -> & Hv). exists (x :: v). split; [by rewrite <- app_assoc|auto]. }
  destruct iter as [|c iter]; [done|]. cbn in Hn.
  destruct (is_quote c) eqn:Hq.
  { cbn. rewrite Hq. destruct iter; [|done]. exists []. split; [by rewrite app_nil_r|by constructor]. }
  destruct (Z.eqb_spec c backslash) as [->|Hc].
  2: { cbn. rewrite Hq, (proj2 (Z.eqb_neq _ _) Hc). cbn. apply Hstep; [lia|]. intros. by constructor. }
  destruct iter as [|c iter]; [done|]. cbn in Hn.
  destruct (decide (48 <= c <= 57)) as [Hd|Hd].
  - rewrite unescape_digit by done. cbv zeta. destruct iter as [|d iter].
    + destruct (from_str_radix 8 [c]) eqn:Hr; [|done]. pose proof (octal_digit_only _ _ _ Hd Hr) as Ho.
      rewrite octal1 in Hr by done. simplify_eq. destruct (octal_bounds c Ho). rewrite octal_char by lia.
      apply Hstep; [cbn; lia|]. intros v Hv. by constructor.
    + destruct (is_octal d) eqn:Hod.
      * destruct (from_str_radix 8 [c; d]) eqn:Hr; [|done]. pose proof (octal_digit_only _ _ _ Hd Hr) as Ho.
        rewrite octal2 in Hr by done. simplify_eq. destruct (octal_bounds c Ho), (octal_bounds d Hod).
        rewrite octal_char by lia. apply Hstep; [cbn in Hn; lia|]. intros v Hv. by constructor.
      * destruct (from_str_radix 8 [c]) eqn:Hr; [|done]. pose proof (octal_digit_only _ _ _ Hd Hr) as Ho.
        rewrite octal1 in Hr by done. simplify_eq. destruct (octal_bounds c Ho). rewrite octal_char by lia.
        apply Hstep; [cbn in *; lia|]. intros v Hv. constructor; [done| |done]. by intros ? ? [= <- _].
  - escape. destruct (simple_escape c) as [x|] eqn:Hs; [apply Hstep; [lia|]; intros; apply body_simple; [by apply simple_escape_table|done]|].
    destruct (Z.eqb_spec c (of_ascii "x")) as [->|Hx].
    { destruct iter as [|a [|b iter]]; try done. destruct (from_str_radix 16 [a; b]) eqn:Hr; [|done].
      apply Hstep; [cbn in Hn; lia|]. intros. by constructor. }
    destruct (Z.eqb_spec c (of_ascii "u")) as [->|Hu].
    { destruct iter as [|a [|b [|e [|f iter]]]]; try done. destruct (from_str_radix 16 [a; b; e; f]) eqn:Hr; [|done].
      unfold char_from_u32. case_bool_decide; [|done]. apply Hstep; [cbn in Hn; lia|]. intros. by constructor. }
    assert ((c <? 48) || (57 <? c) = true) as -> by lia. apply Hstep; [lia|]. intros. apply body_other; try done; [by apply simple_escape_none|lia].
Qed.

(** ** Printing and reading *)

Lemma replace_cons c by_ d text : replace c by_ (d :: text) = (if d =? c then by_ else [d]) ++ replace c by_ text.
Proof. done. Qed.
Lemma replace_app c by_ l k : replace c by_ (l ++ k) = replace c by_ l ++ replace c by_ k.
Proof. unfold replace. by rewrite map_app, concat_app. Qed.
Lemma replace_absent c by_ text : c ∉ text → replace c by_ text = text.
Proof.
  induction text as [|d text IH]; intros Hc; [done|]. apply not_elem_of_cons in Hc as [Hd Hc].
  rewrite replace_cons, (proj2 (Z.eqb_neq d c)) by congruence. by rewrite IH.
Qed.
Lemma printed_body text : newline ∉ text →
  body (replace quote [backslash; quote] (replace backslash [backslash; backslash] text) ++ [quote])
    text ∨ apostrophe ∈ text.
Proof.
  induction text as [|c text IH]; intros Hn; [left; by constructor|]. apply not_elem_of_cons in Hn as [Hc Hn].
  destruct (IH Hn) as [Hb|Ha]; [|right; by right].
  destruct (decide (c = apostrophe)) as [->|Ha]; [right; by left|]. left.
  rewrite replace_cons. destruct (Z.eqb_spec c backslash) as [->|Hbs].
  { cbn. apply body_simple; [by apply simple_escape_table|done]. }
  cbn [app]. rewrite replace_cons. destruct (Z.eqb_spec c quote) as [->|Hq]; cbn [app].
  - apply body_simple; [by apply simple_escape_table|done].
  - apply body_plain; [|done|done]. unfold is_quote. by rewrite !(proj2 (Z.eqb_neq _ _)).
Qed.

(** C19: [unescape_string] decides the grammar of literals and computes their
    values, and its [unwrap] never panics.  What the printer of JavaScript
    writes for a string is read back as that string when it contains neither
    newlines nor apostrophes: an apostrophe is not escaped and ends the
    literal, and a newline is read back as a backslash and an n, because
    the backslash of its escape is escaped again. *)
Theorem unescape_string_correct :
  (∀ s v, unescape_string s = Ok v ↔ literal s v) ∧
  (∀ s msg, unescape_string s ≠ Panic msg) ∧
  (∀ text, newline ∉ text → apostrophe ∉ text → unescape_string (string_to_doc text) = Ok text) ∧
  unescape_string (string_to_doc [newline]) = Ok [backslash; of_ascii "n"] ∧
  is_ok (unescape_string (string_to_doc [apostrophe])) = false.
Proof.
  assert (∀ s v, literal s v → unescape_string s = Ok v) as Hcomplete.
  { intros s v (q & t & -> & Hq & Hb). cbn. rewrite Hq. by rewrite (unescape_complete _ _ _ Hb). }
  assert (∀ s, match unescape_string s with Ok v => literal s v | Err _ => True | Panic _ => False end) as Hsound.
  { intros [|c s]; cbn; [done|]. destruct (is_quote c) eqn:Hq; [|done].
    pose proof (unescape_sound (c :: s) (length s) s 0 [] ltac:(done)) as H.
    destruct (unescape_rest _ s 0 []); try done. destruct H as (v & -> & Hv). by exists c, s. }
  split; [|split; [|split; [|split; [vm_compute; reflexivity|vm_compute; reflexivity]]]].
  - intros s v. split; [|apply Hcomplete]. intros Hs. specialize (Hsound s). by rewrite Hs in Hsound.
  - intros s msg Hs. specialize (Hsound s). by rewrite Hs in Hsound.
  - intros text Hn Ha. apply Hcomplete. unfold string_to_doc. rewrite (replace_absent newline) by done.
    destruct (printed_body text Hn) as [Hb|]; [|done]. by eexists quote, _.
Qed.
