(* ===== verification/Values.v ===== *)
(** The values of the runtime ([any_value.rs]), the operators on them
    ([ops.rs], [coercions.rs]) and the library of arrays, strings, hash tables
    and numbers ([array.rs], [string.rs], [ht.rs], [math.rs], [std_lib.rs]). *)
From S2P Require Import Prelude.
From S2P Require Import ClassList.
From S2P Require Import Heap.
From S2P Require Import Objects.
From S2P Require Import Numbers.
From Stdlib Require Import SpecFloat.

(** How the runtime is built and what it finds outside of the sources.
    [overflow_checks] is set in a debug build.  [f64_address] is where a slot
    of the float allocator is in memory; [rehash] is the order in which a hash
    table is iterated after a new entry. *)
Class Platform := {
  overflow_checks : bool;
  f64_address : f64ptr → Z;
  libm_sin : f64 → f64;
  rehash : list (loc * AnyEnum) → list (loc * AnyEnum);
  rehash_permutation l : rehash l ≡ₚ l
}.

Section values.
Context `{Rust} `{Platform}.

(** ** Machine arithmetic *)

(** The result of an operation on [i32]s: an overflow panics in a debug build. *)
Definition i32_result (msg : string) (z : Z) : rt Z :=
  if bool_decide (Int.in_i32 z) then Ok z
  else if overflow_checks then Panic msg else Ok (Int.wrap_s 32 z).
Definition i32_add (a b : Z) : rt Z := i32_result "attempt to add with overflow" (a + b).
Definition i32_sub (a b : Z) : rt Z := i32_result "attempt to subtract with overflow" (a - b).
Definition i32_mul (a b : Z) : rt Z := i32_result "attempt to multiply with overflow" (a * b).
Definition i32_neg (a : Z) : rt Z := i32_result "attempt to negate with overflow" (- a).
(** The remainder panics in every build. *)
Definition i32_rem (a b : Z) : rt Z :=
  if b =? 0 then Panic "attempt to calculate the remainder with a divisor of zero"
  else if (a =? i32_min) && (b =? -1) then Panic "attempt to calculate the remainder with overflow"
  else Ok (Z.rem a b).

(** [unsafe { *f }]. *)
Definition read_f64 (h : Heap) (p : f64ptr) : rt f64 :=
  match F64.read (f64_allocator h) p with Some x => Ok x | None => undefined_behavior end.
(** [ptr.view()]. *)
Definition view_at (h : Heap) (p : loc) : rt HeapRefView := b ← deref h p; view b.

(** ** Conversions from and to values ([any_value.rs]) *)

Definition any_to_i32 (h : Heap) (any : AnyEnum) : rt Z :=
  match any with
  | Any.I32 i => Ok i
  | Any.F64 f => x ← read_f64 h f; Ok (to_i32 x)
  | Any.Bool b => Ok (Z.b2z b)
  | Any.Ptr p =>
      v ← view_at h p;
      match v with
      | View.NonPtr32 _ => Panic "ref is not a value"
      | View.String s => i ← parse_i32 s; expect "failed string->i32: what to do?" i
      | _ => Panic "failed to unwrap as i32"
      end
  | Any.Closure _ _ | Any.Undefined => Panic "failed to unwrap as i32"
  | Any.Null => Ok 0
  end.
Definition any_from_i32 (x : Z) : AnyEnum := Any.I32 x.
Definition any_to_f64 (h : Heap) (any : AnyEnum) : rt f64 :=
  match any with
  | Any.I32 i => Ok (of_Z i)
  | Any.F64 f => read_f64 h f
  | Any.Bool b => Ok (of_Z (Z.b2z b))
  | Any.Ptr p =>
      v ← view_at h p;
      match v with
      | View.NonPtr32 _ => Panic "ref is not a value"
      | View.String s => Ok (default S754_nan (parse_f64 s))
      | _ => Ok S754_nan
      end
  | Any.Closure _ _ => Ok S754_nan
  | Any.Undefined => Ok S754_nan
  | Any.Null => Ok (S754_zero false)
  end.
Definition any_from_closure (val : loc * Z) : AnyEnum := Any.Closure val.1 val.2.
Definition any_to_closure (val : AnyEnum) : rt (loc * Z) :=
  match val with Any.Closure env func => Ok (env, func) | _ => Panic "unwrap incorrect type Fn" end.
Definition any_from_fn (val : Z) : AnyEnum := Any.Closure null (as_u16 val).
Definition any_to_ptr (h : Heap) (val : AnyEnum) : rt loc :=
  match val with
  | Any.Ptr p => Ok p
  | Any.Closure env _ => env_fn_obj h env
  | _ => Panic "cannot unwrap as Ptr"
  end.
Definition any_from_ptr (val : loc) : AnyEnum := Any.Ptr val.
Definition any_to_bool (h : Heap) (val : AnyEnum) : rt bool :=
  match val with
  | Any.I32 i => Ok (negb (i =? 0))
  | Any.F64 p => f ← read_f64 h p; Ok (negb (is_nan f) && negb (f64_eq f (S754_zero false)))
  | Any.Bool b => Ok b
  | Any.Ptr p =>
      v ← view_at h p;
      match v with
      | View.NonPtr32 _ => Panic "ref is not a value"
      | View.String s => Ok (negb (bool_decide (s = "")))
      | View.Array _ => Ok true
      | View.ObjectPtrPtr _ => Ok true
      | _ => Panic "TODO: any_to_bool"
      end
  | Any.Closure _ _ => Ok true
  | Any.Undefined => Ok false
  | Any.Null => Ok false
  end.
Definition any_from_bool (val : bool) : AnyEnum := Any.Bool val.
Definition get_undefined : AnyEnum := Any.Undefined.
Definition get_null : AnyEnum := Any.Null.
Definition any_is_object (h : Heap) (val : AnyEnum) : rt bool :=
  match val with
  | Any.Ptr p => v ← view_at h p; Ok (match v with View.ObjectPtrPtr _ => true | _ => false end)
  | _ => Ok false
  end.

(** [Display for HeapRefView], given the texts of the values in it. *)
Definition display_view (display : AnyEnum → rt string) (v : HeapRefView) : rt string :=
  match v with
  | View.String s => Ok s
  | View.Any a => display a
  | View.Array l => texts ← mapM display l; Ok ("[" +:+ String.concat "" (map (λ s, s +:+ ", ") texts) +:+ "]")
  | View.Class _ => Panic "shouldn't have object data as value"
  | View.ObjectPtrPtr _ => Panic "TODO(luna): toString"
  | View.NonPtr32 _ | View.MutF64 _ | View.Ptr _ => Panic "ref inside any"
  | View.Env _ _ => Panic "not a value"
  | View.HT _ => Panic "Display trait not implemented"
  end.
(** [Display for AnyEnum].  The recursion goes through the heap; [fuel] bounds
    its depth. *)
Fixpoint display_any (fuel : nat) (h : Heap) (a : AnyEnum) : rt string :=
  match a with
  | Any.I32 n => Ok (display_i32 n)
  | Any.F64 p => x ← read_f64 h p; Ok (display_f64 x)
  | Any.Bool b => Ok (if b then "true" else "false")
  | Any.Closure _ _ => Panic "Display not implemented for Closures"
  | Any.Ptr p =>
      match fuel with
      | O => Panic "stack overflow"
      | S fuel => v ← view_at h p; display_view (display_any fuel h) v
      end
  | Any.Undefined => Ok "undefined"
  | Any.Null => Ok "null"
  end.
(** A value that is nested deeper than there are blocks contains itself. *)
Definition nesting (h : Heap) : nat := S (base.size (mem h)).
Definition any_to_string (h : Heap) (val : AnyEnum) : rt (loc * Heap) :=
  s ← display_any (nesting h) h val; alloc_str_or_gc h s.

(** ** Operations on two numbers ([coercions.rs]) *)

Definition i32s_or_as_f64s {T} (h : Heap) (a b : AnyEnum) (floats : f64 → f64 → rt T) (ints : Z → Z → rt T) :
    rt (option T) :=
  match a, b with
  | Any.F64 a, Any.F64 b => x ← read_f64 h a; y ← read_f64 h b; Some <$> floats x y
  | Any.I32 a, Any.F64 b => y ← read_f64 h b; Some <$> floats (of_Z a) y
  | Any.F64 a, Any.I32 b => x ← read_f64 h a; Some <$> floats x (of_Z b)
  | Any.I32 a, Any.I32 b => Some <$> ints a b
  | _, _ => Ok None
  end.
Definition i32s_or_as_f64s_any (h : Heap) (a b : AnyEnum) (floats : f64 → f64 → f64) (ints : Z → Z → rt Z) :
    rt (option (AnyEnum * Heap)) :=
  i32s_or_as_f64s h a b (λ x y, f64_to_any h (floats x y)) (λ x y, z ← ints x y; Ok (any_from_i32 z, h)).

(** [even_abstract_eq], given [abstract_eq] for its last rule. *)
Definition even_abstract_eq (abstract_eq : AnyEnum → AnyEnum → rt bool) (h : Heap) (a b : AnyEnum) :
    rt (option bool) :=
  match a, b with
  | Any.Null, Any.Undefined => Ok (Some true)
  | Any.Null, _ => Ok None
  | Any.Undefined, _ => Ok None
  | a, Any.Ptr p =>
      v ← view_at h p;
      match v with
      | View.String s =>
          match a with
          | Any.I32 i => Ok (Some (f64_eq (of_Z i) (default S754_nan (parse_f64 s))))
          | Any.F64 f => x ← read_f64 h f; Ok (Some (f64_eq x (default S754_nan (parse_f64 s))))
          | _ => Ok None
          end
      | View.NonPtr32 _ => Panic "ref is not a value"
      | _ => Panic "javascript spec ToPrimitive / DefaultValue"
      end
  | Any.Bool to_num, b => Some <$> abstract_eq (Any.I32 (Z.b2z to_num)) b
  | _, _ => Ok None
  end.
(** The comparison of values of one type, which is the first rule. *)
Definition same_type_eq (h : Heap) (a b : AnyEnum) : rt (option bool) :=
  res ← i32s_or_as_f64s h a b (λ x y, Ok (f64_eq x y)) (λ x y, Ok (x =? y));
  match res with
  | Some res => Ok (Some res)
  | None =>
      match a, b with
      | Any.Bool a, Any.Bool b => Ok (Some (eqb a b))
      | Any.Ptr p, Any.Ptr q =>
          v ← view_at h p; w ← view_at h q;
          match v, w with
          | View.String _, View.String _ => Some <$> string_eq h p q
          | View.NonPtr32 _, _ | _, View.NonPtr32 _ => Panic "ref is not a value"
          | _, _ => Panic "not yet implemented"
          end
      | Any.Closure _ _, Any.Closure _ _ => Ok (Some (bool_decide (a = b)))
      | Any.Undefined, Any.Undefined => Ok (Some true)
      | Any.Null, Any.Null => Ok (Some true)
      | _, _ => Ok None
      end
  end.
(** [abstract_eq]: every recursive call has a boolean less. *)
Fixpoint abstract_eq_rec (fuel : nat) (h : Heap) (a b : AnyEnum) : rt bool :=
  match fuel with
  | O => Panic "out of fuel"
  | S fuel =>
      same ← same_type_eq h a b;
      match same with
      | Some res => Ok res
      | None =>
          even ← even_abstract_eq (abstract_eq_rec fuel h) h a b;
          match even with
          | Some res => Ok res
          | None => odd ← even_abstract_eq (abstract_eq_rec fuel h) h b a; Ok (default false odd)
          end
      end
  end.
Definition abstract_eq : Heap → AnyEnum → AnyEnum → rt bool := abstract_eq_rec 3.

(** ** The operators ([ops.rs]) *)

(** [+] on values that are not objects. *)
Definition janky_primitive_plus (h : Heap) (a b : AnyEnum) : rt (AnyEnum * Heap) :=
  match a, b with
  | Any.Ptr _, _ | _, Any.Ptr _ =>
      '(a_string, h) ← any_to_string h a;
      '(b_string, h) ← any_to_string h b;
      s ← str_at h a_string;
      t ← str_at h b_string;
      '(combined, h) ← alloc_str_or_gc h (s +:+ t);
      Ok (Any.Ptr combined, h)
  | _, _ =>
      res ← i32s_or_as_f64s_any h a b f64_add i32_add;
      expect "unsupported for +" res
  end.
Definition janky_minus (h : Heap) (a b : AnyEnum) : rt (AnyEnum * Heap) :=
  res ← i32s_or_as_f64s_any h a b f64_sub i32_sub; expect "unsupported for -" res.
Definition janky_neg (h : Heap) (a : AnyEnum) : rt (AnyEnum * Heap) :=
  match a with
  | Any.I32 i => z ← i32_neg i; Ok (any_from_i32 z, h)
  | Any.F64 f => x ← read_f64 h f; f64_to_any h (SFopp x)
  | _ => x ← any_to_f64 h a; f64_to_any h (SFopp x)
  end.
Definition janky_times (h : Heap) (a b : AnyEnum) : rt (AnyEnum * Heap) :=
  res ← i32s_or_as_f64s_any h a b f64_mul i32_mul; expect "unsupported for *" res.
Definition janky_over (h : Heap) (a b : AnyEnum) : rt f64 :=
  res ← i32s_or_as_f64s h a b (λ x y, Ok (f64_div x y)) (λ x y, Ok (f64_div (of_Z x) (of_Z y)));
  expect "unsupported for /" res.
Definition janky_mod (h : Heap) (a b : AnyEnum) : rt (AnyEnum * Heap) :=
  res ← i32s_or_as_f64s_any h a b f64_rem i32_rem; expect "unsupported for %" res.
Definition janky_mod_f64 (a b : f64) : f64 := f64_rem a b.
(** The derived [PartialEq] of [AnyEnum] compares the pointers to floats. *)
Definition janky_strict_equal (a b : AnyEnum) : bool := bool_decide (a = b).
Definition janky_equal (h : Heap) (a b : AnyEnum) : rt bool := abstract_eq h a b.
Definition janky_strict_not_equal (a b : AnyEnum) : bool := negb (janky_strict_equal a b).
Definition janky_not_equal (h : Heap) (a b : AnyEnum) : rt bool := negb <$> abstract_eq h a b.
Fixpoint typeof_as_str (fuel : nat) (h : Heap) (a : AnyEnum) : rt string :=
  match a with
  | Any.I32 _ | Any.F64 _ => Ok "number"
  | Any.Bool _ => Ok "boolean"
  | Any.Ptr p =>
      match fuel with
      | O => Panic "stack overflow"
      | S fuel =>
          v ← view_at h p;
          match v with
          | View.String _ => Ok "string"
          | View.HT _ | View.Array _ | View.ObjectPtrPtr _ => Ok "object"
          | View.Any what => typeof_as_str fuel h what
          | View.Class _ => Panic "shouldn't be able to typeof non-value object data"
          | View.MutF64 _ => Ok "number"
          | View.NonPtr32 _ | View.Ptr _ | View.Env _ _ => Panic "not a value"
          end
      end
  | Any.Closure _ _ => Ok "function"
  | Any.Undefined => Ok "undefined"
  | Any.Null => Ok "object"
  end.
Definition janky_typeof (h : Heap) (a : AnyEnum) : rt (loc * Heap) :=
  s ← typeof_as_str (nesting h) h a; alloc_str_or_gc h s.
Definition janky_delete (_ _ : AnyEnum) : rt bool := Panic "not yet implemented".
Definition janky_in (_ _ : AnyEnum) : rt bool := Panic "TODO(luna): janky_in".
Definition janky_void (_ : AnyEnum) : AnyEnum := Any.Undefined.
Definition janky_not (a : Z) : Z := Z.lnot a.

(** ** Arrays ([array.rs]) *)

(** [Deref] and [DerefMut] for [ArrayPtr]. *)
Definition array_at (h : Heap) (p : loc) : rt (Tag * list AnyEnum) :=
  b ← deref h p; match data b with View.Array l => Ok (tag b, l) | _ => undefined_behavior end.
(** [index as usize]. *)
Definition as_usize (i : Z) : nat := Z.to_nat (Int.wrap_u 32 i).
(** [n as i32], for a length. *)
Definition length_as_i32 (n : nat) : Z := Int.wrap_s 32 (Z.of_nat n).
Definition array_new (h : Heap) : rt (loc * Heap) := alloc_or_gc h (View.Array []).
Definition array_index (h : Heap) (array : loc) (index : Z) : rt AnyEnum :=
  '(_, l) ← array_at h array; expect "index out of bounds" (l !! as_usize index).
Definition array_set (h : Heap) (array : loc) (index : Z) (val : AnyEnum) : rt (AnyEnum * Heap) :=
  '(t, l) ← array_at h array;
  if (as_usize index <? length l)%nat
  then Ok (val, store array (mkBlock t (View.Array (<[as_usize index := val]> l))) h)
  else Panic "index out of bounds".
Definition array_length (h : Heap) (array : loc) : rt Z :=
  '(_, l) ← array_at h array; Ok (length_as_i32 (length l)).
Definition array_slice (h : Heap) (array : loc) (a b : Z) : rt (loc * Heap) :=
  if a <? 0 then Panic "not yet implemented"
  else if b <? 0 then Panic "not yet implemented"
  else
    '(_, l) ← array_at h array;
    if b <? a then Panic "slice index starts after it ends"
    else if Z.of_nat (length l) <? b then Panic "range end index out of range"
    else alloc_or_gc h (View.Array (take (Z.to_nat (b - a)) (drop (Z.to_nat a) l))).
Definition array_push (h : Heap) (array : loc) (value : AnyEnum) : rt (Z * Heap) :=
  '(t, l) ← array_at h array;
  let l := l ++ [value] in
  Ok (length_as_i32 (length l), store array (mkBlock t (View.Array l)) h).
Definition array_concat (h : Heap) (a b : loc) : rt (loc * Heap) :=
  '(_, la) ← array_at h a; '(_, lb) ← array_at h b; alloc_or_gc h (View.Array (la ++ lb)).

(** ** Strings ([string.rs], [allocator/string.rs]) *)

Definition string_length (h : Heap) (s : loc) : rt Z :=
  t ← str_at h s; Ok (length_as_i32 (String.length t)).
Definition string_concat (h : Heap) (a b : loc) : rt (loc * Heap) :=
  s ← str_at h a; t ← str_at h b; alloc_str_or_gc h (s +:+ t).
(** [StringPtr::slice]; the indices are those of bytes. *)
Definition slice_bounds (len a b : Z) : Z * Z :=
  let a := if len <? a then len else a in
  let b := if len <? b then len else if b <? a then a else b in
  (a, b).
Definition string_slice (h : Heap) (s : loc) (a b : Z) : rt (loc * Heap) :=
  if a <? 0 then Panic "not yet implemented"
  else if b <? 0 then Panic "not yet implemented"
  else
    t ← str_at h s;
    let '(a, b) := slice_bounds (Z.of_nat (String.length t)) a b in
    alloc_str_or_gc h (String.substring (Z.to_nat a) (Z.to_nat (b - a)) t).

(** ** Hash tables ([ht.rs]) *)

Definition ht_at (h : Heap) (p : loc) : rt (Tag * list (loc * AnyEnum)) :=
  b ← deref h p; match data b with View.HT l => Ok (tag b, l) | _ => undefined_behavior end.
(** The position of the entry whose key is the string [field]. *)
Fixpoint ht_find (h : Heap) (field : loc) (i : nat) (l : list (loc * AnyEnum)) : rt (option nat) :=
  match l with
  | [] => Ok None
  | (key, _) :: l =>
      found ← string_eq h key field;
      if found : bool then Ok (Some i) else ht_find h field (S i) l
  end.
Definition ht_new (h : Heap) : rt (loc * Heap) := alloc_or_gc h (View.HT []).
Definition ht_get (h : Heap) (ht field : loc) : rt AnyEnum :=
  '(_, l) ← ht_at h ht;
  i ← ht_find h field 0 l;
  e ← expect "called unwrap on a None value" (i ≫= λ i, l !! i);
  Ok e.2.
(** A key that is there is kept, and its value replaced. *)
Definition ht_set (h : Heap) (ht field : loc) (value : AnyEnum) : rt (AnyEnum * Heap) :=
  '(t, l) ← ht_at h ht;
  i ← ht_find h field 0 l;
  let l := match i with
           | Some i => alter (λ e, (e.1, value)) i l
           | None => rehash ((field, value) :: l)
           end in
  Ok (value, store ht (mkBlock t (View.HT l)) h).

(** ** Mathematics ([math.rs]) *)

Definition math_plus (h : Heap) (a b : AnyEnum) : rt (AnyEnum * Heap) :=
  res ← i32s_or_as_f64s_any h a b f64_add i32_add; expect "unsupported for +" res.
Definition math_sqrt (h : Heap) (a : AnyEnum) : rt (AnyEnum * Heap) :=
  x ← any_to_f64 h a; f64_to_any h (f64_sqrt x).
Definition math_sin (h : Heap) (a : AnyEnum) : rt (AnyEnum * Heap) :=
  x ← any_to_f64 h a; f64_to_any h (libm_sin x).
Definition math_abs (h : Heap) (a : AnyEnum) : rt (AnyEnum * Heap) :=
  x ← any_to_f64 h a; f64_to_any h (SFabs x).
Definition math_min (h : Heap) (a b : AnyEnum) : rt (AnyEnum * Heap) :=
  res ← i32s_or_as_f64s_any h a b (λ x y, if f64_lt x y then x else y) (λ x y, Ok (Z.min x y));
  expect "called unwrap on a None value" res.
Definition math_max (h : Heap) (a b : AnyEnum) : rt (AnyEnum * Heap) :=
  res ← i32s_or_as_f64s_any h a b (λ x y, if f64_lt y x then x else y) (λ x y, Ok (Z.max x y));
  expect "called unwrap on a None value" res.

(** ** The standard library ([std_lib.rs]) *)

(** The cast of [F64(f)] is that of the pointer to an integer. *)
Fixpoint parse_int_rec (fuel : nat) (h : Heap) (radix : Z) (a : AnyEnum) : rt (AnyEnum * Heap) :=
  match a with
  | Any.I32 i => Ok (Any.I32 i, h)
  | Any.F64 f => Ok (Any.I32 (Int.wrap_s 32 (f64_address f)), h)
  | Any.Bool _ | Any.Closure _ _ | Any.Undefined | Any.Null => f64_to_any h S754_nan
  | Any.Ptr p =>
      v ← view_at h p;
      match v with
      | View.String s =>
          i ← i32_from_str_radix s (Int.wrap_u 32 radix);
          o ← expect "support partial parse" i;
          Ok (Any.I32 o, h)
      | View.HT _ | View.ObjectPtrPtr _ => f64_to_any h S754_nan
      | View.Array l =>
          a ← expect "index out of bounds" (l !! O);
          match fuel with O => Panic "stack overflow" | S fuel => parse_int_rec fuel h radix a end
      | View.Any what =>
          match fuel with O => Panic "stack overflow" | S fuel => parse_int_rec fuel h radix what end
      | View.Class _ | View.NonPtr32 _ | View.MutF64 _ | View.Ptr _ | View.Env _ _ => Panic "not a value"
      end
  end.
(** [parse_int]; every recursive call converts [radix_any] again, to the same number. *)
Definition parse_int (h : Heap) (a radix_any : AnyEnum) : rt (AnyEnum * Heap) :=
  radix ← any_to_i32 h radix_any; parse_int_rec (nesting h) h radix a.
(** [console_log]: what is printed, and [undefined]. *)
Definition console_log (h : Heap) (a : AnyEnum) : rt (string * AnyEnum) :=
  s ← display_any (nesting h) h a; Ok (s, Any.Undefined).
End values.
