(* ===== verification/ValuesOk.v ===== *)
(** The operators and the library on values, against the JavaScript values they
    stand for: equality is that of ECMAScript on a decidable part of the values,
    arithmetic on [i32]s is that of floats as long as it does not overflow,
    numbers survive being written and read, arrays are lists, hash tables are
    maps; and the programs on which they fail. *)
From Stdlib Require Import SpecFloat.
From S2P Require Import Prelude.
From S2P Require Import ClassList.
From S2P Require Import Heap.
From S2P Require Import Gc.
From S2P Require Import Alloc.
From S2P Require Import Objects.
From S2P Require Import Numbers.
From S2P Require Import NumbersOk.
From S2P Require Import Values.

(** ** JavaScript values *)

Module Es.
(** The language types of ECMAScript; functions and other objects are
    compared by identity. *)
Inductive value : Type :=
  | Undefined
  | Null
  | Boolean (b : bool)
  | String (s : string)
  | Number (f : f64)
  | Function (env : loc) (func : Z)
  | Object (p : loc).

(** [ToNumber] on strings is what the runtime's is. *)
Definition string_to_number (s : string) : f64 := default S754_nan (parse_f64 s).
(** ES 5.1, 11.9.3, rules 6 and 7: booleans are compared as numbers. *)
Definition unboolean (v : value) : value :=
  match v with Boolean b => Number (of_Z (Z.b2z b)) | v => v end.
(** The other rules; [None] where an object is converted to a primitive, which
    runs the program's own [valueOf]. *)
Definition rules (v w : value) : option bool :=
  match v, w with
  | Undefined, Undefined | Null, Null | Undefined, Null | Null, Undefined => Some true
  | Undefined, _ | Null, _ | _, Undefined | _, Null => Some false
  | Number x, Number y => Some (f64_eq x y)
  | String s, String t => Some (bool_decide (s = t))
  | Number x, String s => Some (f64_eq x (string_to_number s))
  | String s, Number x => Some (f64_eq (string_to_number s) x)
  | Function e f, Function e' f' => Some (bool_decide (e = e' ∧ f = f'))
  | Object p, Object q => Some (bool_decide (p = q))
  | Function _ _, Object _ | Object _, Function _ _ => Some false
  | _, _ => None
  end.
Definition equal (v w : value) : option bool :=
  match v, w with
  | Boolean a, Boolean b => Some (eqb a b)
  | v, w => rules (unboolean v) (unboolean w)
  end.
End Es.

Section values.
Context `{Rust} `{Platform}.

(** The JavaScript value that a tagged value is. *)
Definition value_of (h : Heap) (a : AnyEnum) : option Es.value :=
  match a with
  | Any.I32 i => if bool_decide (Int.in_i32 i) then Some (Es.Number (of_Z i)) else None
  | Any.F64 p => Es.Number <$> F64.read (f64_allocator h) p
  | Any.Bool b => Some (Es.Boolean b)
  | Any.Ptr p =>
      match view_at h p with
      | Ok (View.String s) => Some (Es.String s)
      | Ok (View.ObjectPtrPtr _ | View.Array _ | View.HT _) => Some (Es.Object p)
      | _ => None
      end
  | Any.Closure env func => Some (Es.Function env func)
  | Any.Undefined => Some Es.Undefined
  | Any.Null => Some Es.Null
  end.

Definition panics {A} (m : rt A) : Prop := ∃ msg, m = Panic msg.
Lemma panics_Panic {A} msg : panics (Panic msg : rt A).
Proof. by exists msg. Qed.

(** ** Equality *)

Definition is_object (v : Es.value) : bool := match v with Es.Object _ => true | _ => false end.
Definition nullish (v : Es.value) : bool := match v with Es.Undefined | Es.Null => true | _ => false end.
(** The comparisons that do not panic. *)
Definition comparable (v w : Es.value) : bool :=
  (negb (is_object v) || nullish w) && (negb (is_object w) || nullish v).
Definition boolean_and_string (v w : Es.value) : bool :=
  match v, w with Es.Boolean _, Es.String _ | Es.String _, Es.Boolean _ => true | _, _ => false end.

(** What [abstract_eq] answers on two values. *)
Definition answer (v w : Es.value) : bool :=
  if boolean_and_string v w then false else default false (Es.equal v w).

(** The shapes of a value of the heap. *)
Inductive is_value (h : Heap) : AnyEnum → Es.value → Prop :=
  | is_i32 i : Int.in_i32 i → is_value h (Any.I32 i) (Es.Number (of_Z i))
  | is_f64 p x : F64.read (f64_allocator h) p = Some x → is_value h (Any.F64 p) (Es.Number x)
  | is_bool b : is_value h (Any.Bool b) (Es.Boolean b)
  | is_string p s : view_at h p = Ok (View.String s) → is_value h (Any.Ptr p) (Es.String s)
  | is_obj p v : view_at h p = Ok v →
      match v with View.ObjectPtrPtr _ | View.Array _ | View.HT _ => True | _ => False end →
      is_value h (Any.Ptr p) (Es.Object p)
  | is_closure env func : is_value h (Any.Closure env func) (Es.Function env func)
  | is_undefined : is_value h Any.Undefined Es.Undefined
  | is_null : is_value h Any.Null Es.Null.
Lemma value_of_shape h a v : value_of h a = Some v → is_value h a v.
Proof.
  unfold value_of. intros Hv. repeat case_match; simplify_eq; try (by constructor).
  - constructor. by case_bool_decide.
  - destruct (F64.read (f64_allocator h) p) eqn:?; simplify_eq/=. by constructor.
  - by eapply is_obj.
  - by eapply is_obj.
  - by eapply is_obj.
Qed.

Lemma view_at_string h p s : view_at h p = Ok (View.String s) → str_at h p = Ok s.
Proof.
  unfold view_at, str_at, view. intros Hv. comp_inv. case_decide; [|done]. comp_inv.
  rewrite Ha. cbn. by rewrite Hv.
Qed.
Lemma string_eq_view h p q s t :
  view_at h p = Ok (View.String s) → view_at h q = Ok (View.String t) → string_eq h p q = Ok (bool_decide (s = t)).
Proof.
  intros Hp Hq. unfold string_eq. case_decide as Hpq.
  - subst q. rewrite Hp in Hq. simplify_eq. by rewrite bool_decide_true.
  - by rewrite (view_at_string _ _ _ Hp), (view_at_string _ _ _ Hq).
Qed.
Lemma read_f64_ok h p x : F64.read (f64_allocator h) p = Some x → read_f64 h p = Ok x.
Proof. unfold read_f64. by intros ->. Qed.

Lemma f64_eq_sym x y : f64_eq x y = f64_eq y x.
Proof.
  unfold f64_eq, SFeqb. destruct x as [[]|[]| |[] m e], y as [[]|[]| |[] n g]; cbn; try done;
    rewrite (Z.compare_antisym e g); destruct (e ?= g); cbn; try done;
    change (Pos.compare_cont Eq m n) with (Pos.compare m n); change (Pos.compare_cont Eq n m) with (Pos.compare n m);
    rewrite (Pos.compare_antisym m n); by destruct (Pos.compare m n).
Qed.
Lemma eq_numbers i j : Int.in_i32 i → Int.in_i32 j → (i =? j) = f64_eq (of_Z i) (of_Z j).
Proof. intros. by rewrite f64_eq_of_Z by by apply in_i32_exact. Qed.
Lemma of_bool_exact b : exact (Z.b2z b).
Proof. by destruct b. Qed.

#[local] Arguments view_at : simpl never.
#[local] Arguments read_f64 : simpl never.
#[local] Arguments string_eq : simpl never.
#[local] Arguments parse_f64 : simpl never.
#[local] Arguments parse_i32 : simpl never.
#[local] Arguments i32_from_str_radix : simpl never.
#[local] Arguments display_i32 : simpl never.
#[local] Arguments display_f64 : simpl never.
#[local] Arguments of_Z : simpl never.
#[local] Arguments f64_to_any : simpl never.
(** Evaluate a function on values whose shapes are in the context. *)
Ltac run := repeat (cbn; first
  [ done
  | erewrite read_f64_ok by eassumption
  | match goal with H : view_at ?h ?p = Ok _ |- context [view_at ?h ?p] => rewrite H end
  | erewrite string_eq_view by eassumption
  | rewrite eq_numbers by (done || by destruct (_ : bool)) ]); cbn.


(** ** Arithmetic *)

Inductive arith : Type := Add | Sub | Mul | Rem.
Definition run_arith (op : arith) : Heap → AnyEnum → AnyEnum → rt (AnyEnum * Heap) :=
  match op with
  | Add => janky_primitive_plus | Sub => janky_minus | Mul => janky_times | Rem => janky_mod
  end.
(** What ECMAScript computes, and the operation on integers. *)
Definition f64_arith (op : arith) : f64 → f64 → f64 :=
  match op with Add => f64_add | Sub => f64_sub | Mul => f64_mul | Rem => f64_rem end.
Definition Z_arith (op : arith) (i j : Z) : Z :=
  match op with Add => i + j | Sub => i - j | Mul => i * j | Rem => Z.rem i j end.
(** The remainder by zero, and that of the least integer by [-1], are not
    operations of the machine. *)
Definition no_remainder (op : arith) (i j : Z) : bool :=
  match op with Rem => (j =? 0) || ((i =? i32_min) && (j =? -1)) | _ => false end.

Lemma f64_arith_exact op i j : exact i → exact j → exact (Z_arith op i j) → no_remainder op i j = false →
  f64_eq (f64_arith op (of_Z i) (of_Z j)) (of_Z (Z_arith op i j)) = true.
Proof.
  intros Hi Hj Hij Hr. destruct op; cbn in *.
  - rewrite f64_add_exact by done. apply f64_eq_refl. by rewrite of_Z_exact, float_of_number.
  - rewrite f64_sub_exact by done. apply f64_eq_refl. by rewrite of_Z_exact, float_of_number.
  - by apply f64_mul_exact.
  - apply f64_rem_exact; [done|done|]. lia.
Qed.
Lemma f64_eq_trans x y z : f64_eq x y = true → f64_eq x z = true → f64_eq y z = true.
Proof.
  unfold f64_eq, SFeqb. destruct x as [[]|[]| |[] m e], y as [[]|[]| |[] n g], z as [[]|[]| |[] k l]; cbn; try done;
    change (Pos.compare_cont Eq m n) with (Pos.compare m n); change (Pos.compare_cont Eq m k) with (Pos.compare m k);
    change (Pos.compare_cont Eq n k) with (Pos.compare n k);
    destruct (Z.compare_spec e g); try done; destruct (Pos.compare_spec m n); try done;
    destruct (Z.compare_spec e l); try done; destruct (Pos.compare_spec m k); try done; subst;
    by rewrite Z.compare_refl, Pos.compare_refl.
Qed.

(** The operation of the machine on two integers. *)
Definition i32_arith (op : arith) : Z → Z → rt Z :=
  match op with Add => i32_add | Sub => i32_sub | Mul => i32_mul | Rem => i32_rem end.
Lemma run_arith_ints op h i j :
  run_arith op h (Any.I32 i) (Any.I32 j) = (z ← i32_arith op i j; Ok (Any.I32 z, h)).
Proof. destruct op; cbn; [destruct (i32_add i j)|destruct (i32_sub i j)|destruct (i32_mul i j)|destruct (i32_rem i j)]; done. Qed.
Lemma i32_arith_cases op i j : Int.in_i32 i → Int.in_i32 j →
  if no_remainder op i j then panics (i32_arith op i j)
  else if bool_decide (Int.in_i32 (Z_arith op i j)) then i32_arith op i j = Ok (Z_arith op i j)
  else if overflow_checks then panics (i32_arith op i j)
  else i32_arith op i j = Ok (Int.wrap_s 32 (Z_arith op i j)).
Proof.
  intros Hi Hj. destruct op; cbn; unfold i32_add, i32_sub, i32_mul, i32_rem, i32_result;
    try (case_bool_decide; [done|]; destruct overflow_checks; done || apply panics_Panic).
  destruct (Z.eqb_spec j 0) as [->|Hj0]; cbn; [apply panics_Panic|].
  destruct ((i =? i32_min) && (j =? -1)) eqn:Hm; [apply panics_Panic|].
  rewrite bool_decide_true; [done|]. unfold Int.in_i32, i32_min in *.
  assert (j = -1 ∨ j = 1 ∨ 2 <= Z.abs j) as [-> | [-> |Hab]] by lia.
  - change (-1) with (- (1)). rewrite Z.rem_opp_r, Z.rem_1_r by lia. lia.
  - rewrite Z.rem_1_r. lia.
  - pose proof (Z.rem_bound_abs i j Hj0). lia.
Qed.

Ltac float_arith op :=
  destruct op; unfold run_arith, janky_primitive_plus, janky_minus, janky_times, janky_mod, i32s_or_as_f64s_any; run;
  match goal with |- context [f64_to_any ?h ?x] => destruct (f64_to_any h x) end.


(** ** Numbers written and read *)

Definition string_bytes (h : Heap) (s : string) : Z := tag_size h + (Z.of_nat (String.length s) + 4).
(** A new string: its text, and the heap it leaves. *)
Definition new_string (h : Heap) (s : string) (r : rt (loc * Heap)) : Prop :=
  ∃ p h', r = Ok (p, h') ∧ view_at h' p = Ok (View.String s) ∧ heap_ok h' ∧ preserves h h' ∧ ¬ reachable h p.

Lemma alloc_new_string h s : heap_ok h → live_fits h (string_bytes h s) → new_string h s (alloc_str_or_gc h s).
Proof.
  intros Hok Hl.
  destruct (or_gc_allocated (λ h, Ok (alloc_str h s)) h (string_bytes h s)
    (mkBlock (with_type TT.String) (View.String s))) as (p & h' & Hr & Ha); try done; [|apply alloc_str_request|].
  { intros h1 _ Ht. unfold alloc_str, alloc_slice, string_bytes. by rewrite Ht. }
  exists p, h'. split; [exact Hr|]. destruct Ha. split; [|done].
  unfold view_at, deref. by rewrite alloc_block.
Qed.

(** C14: a number that is converted to a string is read back from it: as an
    [i32], as a float, by [parse_int] in radix 10, and by [==]. *)
Theorem number_text_roundtrip h z :
  Int.in_i32 z → heap_ok h → live_fits h (string_bytes h (display_i32 z)) →
  ∃ p h', any_to_string h (Any.I32 z) = Ok (p, h') ∧ heap_ok h' ∧ preserves h h' ∧
    any_to_i32 h' (Any.Ptr p) = Ok z ∧
    any_to_f64 h' (Any.Ptr p) = Ok (of_Z z) ∧ to_i32 (of_Z z) = z ∧
    parse_int h' (Any.Ptr p) (Any.I32 10) = Ok (Any.I32 z, h') ∧
    abstract_eq h' (Any.I32 z) (Any.Ptr p) = Ok true.
Proof.
  intros Hz Hok Hl. destruct (alloc_new_string h _ Hok Hl) as (p & h' & Hr & Hv & Hok' & Hp & _).
  pose proof (in_i32_exact z Hz) as Hx.
  exists p, h'. unfold any_to_i32, any_to_f64, parse_int, abstract_eq.
  split; [done|]. split; [done|]. split; [done|]. split; [|split; [|split; [|split]]].
  - rewrite Hv. cbn. by rewrite parse_display_i32.
  - rewrite Hv. cbn. by rewrite parse_f64_display_i32.
  - by apply to_i32_of_Z.
  - cbn. rewrite Hv. cbn. change (Int.wrap_u 32 10) with 10. pose proof (parse_display_i32 z Hz) as Hpd. unfold parse_i32 in Hpd. by rewrite Hpd.
  - run. rewrite parse_f64_display_i32 by done. cbn.
    rewrite f64_eq_of_Z by done. by rewrite Z.eqb_refl.
Qed.

(** ** Texts end *)

(** The values that a value of the heap is printed with. *)
Definition inner (v : HeapRefView) : list AnyEnum :=
  match v with View.Array l => l | View.Any a => [a] | _ => [] end.
(** No value contains itself. *)
Definition acyclic (h : Heap) : Prop :=
  ∃ rank : loc → nat, ∀ p v q, view_at h p = Ok v → Any.Ptr q ∈ inner v → (rank q < rank p)%nat.

(** [n] pointers can be followed from a value. *)
Inductive nested (h : Heap) : nat → AnyEnum → Prop :=
  | nested_0 a : nested h 0 a
  | nested_S n p v a : view_at h p = Ok v → a ∈ inner v → nested h n a → nested h (S n) (Any.Ptr p).

Lemma view_at_mem h p v : view_at h p = Ok v → p ∈ dom (mem h).
Proof.
  unfold view_at, deref. intros Hv. apply elem_of_dom. destruct (mem h !! p) as [b|]; [by eexists|done].
Qed.
Lemma nested_path h n a (rank : loc → nat) :
  (∀ p v q, view_at h p = Ok v → Any.Ptr q ∈ inner v → (rank q < rank p)%nat) →
  nested h n a → ∃ l : list loc, length l = n ∧ NoDup l ∧ Forall (λ p, p ∈ dom (mem h)) l ∧
    match a with Any.Ptr p => Forall (λ q, (rank q ≤ rank p)%nat) l | _ => l = [] end.
Proof.
  intros Hrank. induction 1 as [a|n p v a Hv Ha _ (l & Hl & Hnd & Hm & IH)].
  - exists []. repeat split; try constructor. by destruct a; try constructor.
  - exists (p :: l). cbn. split; [by rewrite Hl|].
    assert (Forall (λ q, (rank q < rank p)%nat) l) as Hlt.
    { destruct a as [| | |q| | |]; try (subst; by constructor).
      eapply Forall_impl; [exact IH|]. intros r Hr. cbn in Hr. pose proof (Hrank p v q Hv Ha). lia. }
    split; [|split].
    + constructor; [|done]. intros Hp. rewrite Forall_forall in Hlt. specialize (Hlt p Hp). lia.
    + constructor; [by eapply view_at_mem|done].
    + constructor; [done|]. eapply Forall_impl; [exact Hlt|]. intros; cbn in *; lia.
Qed.
Lemma acyclic_bound h a : acyclic h → ¬ nested h (nesting h) a.
Proof.
  intros [rank Hr] (l & Hl & Hnd & Hm & _)%(nested_path _ _ _ rank Hr).
  assert (length l ≤ base.size (mem h))%nat; [|unfold nesting in Hl; lia].
  rewrite <- (size_dom (D := gset loc)), <- (size_list_to_set (C := gset loc)) by done.
  rewrite Forall_forall in Hm. apply subseteq_size. intros p Hp%elem_of_list_to_set. by apply Hm.
Qed.

Definition overflows {A} (m : rt A) : Prop := m = Panic "stack overflow".
Lemma mapM_Panic {A B} (f : A → rt B) l msg : mapM f l = Panic msg → ∃ x, x ∈ l ∧ f x = Panic msg.
Proof.
  induction l as [|x l IH]; [done|]. cbn. destruct (f x) as [y|[]|m] eqn:Hx; cbn.
  - destruct (mapM f l) as [k|[]|m]; cbn; try done. intros [= ->]. destruct IH as (z & ? & ?); [done|].
    exists z. split; [by right|done].
  - intros [= ->]. exists x. split; [by left|done].
Qed.
Lemma display_view_ext (f g : AnyEnum → rt string) v :
  (∀ a, a ∈ inner v → f a = g a ∧ ¬ overflows (g a)) →
  display_view f v = display_view g v ∧ ¬ overflows (display_view g v).
Proof.
  unfold overflows. intros Hf. destruct v as [s|l|l|a|l|p|l o|i|x|p]; cbn; try done.
  - cbn in Hf. rewrite (mapM_ext' f g) by (intros a Ha; by apply Hf). split; [done|].
    destruct (mapM g l) as [k|[]|m] eqn:Hk; cbn; [done|]. intros [= ->].
    apply mapM_Panic in Hk as (x & Hx & Hg). by apply (Hf x Hx).
  - apply Hf. by left.
Qed.

Lemma read_f64_no_overflow h p : ¬ overflows (read_f64 h p).
Proof. unfold overflows, read_f64. by destruct (F64.read _ p). Qed.
Lemma view_at_no_overflow h p : ¬ overflows (view_at h p).
Proof.
  unfold overflows, view_at, deref. destruct (mem h !! p) as [b|]; [|done]. cbn. unfold view. by case_decide.
Qed.
Lemma bind_overflows {A B} (m : rt A) (f : A → rt B) :
  ¬ overflows m → overflows (m ≫= f) → ∃ a, m = Ok a ∧ overflows (f a).
Proof. unfold overflows. destruct m as [a|[]|msg]; cbn; [intros _ ?; by exists a|by intros ? [= ->]]. Qed.

Lemma display_enough h n a k : ¬ nested h n a →
  display_any (n + k) h a = display_any n h a ∧ ¬ overflows (display_any n h a).
Proof.
  revert a. induction n as [|n IH]; intros a Hn; [by destruct Hn; constructor|].
  destruct a as [i|p|b|p|e f| |]; try (by split; [|discriminate]).
  - split; [done|]. cbn. intros (x & _ & [=])%bind_overflows. apply read_f64_no_overflow.
  - cbn. pose proof (view_at_no_overflow h p). destruct (view_at h p) as [v|[]|msg] eqn:Hv; cbn.
    + apply display_view_ext. intros a Ha. apply IH. intros Hc. apply Hn. by eapply nested_S.
    + split; [done|]. intros [= ->]. by apply H1.
Qed.

(** C18: the text of a value, its type and its conversion to an integer do not
    depend on the bound on their recursion, which is the number of blocks,
    in a heap where no value contains itself: the recursion ends. *)
Theorem display_terminates h a k :
  acyclic h →
  display_any (nesting h + k) h a = display_any (nesting h) h a ∧ ¬ overflows (display_any (nesting h) h a) ∧
  typeof_as_str (nesting h + k) h a = typeof_as_str (nesting h) h a ∧ ¬ overflows (typeof_as_str (nesting h) h a).
Proof.
  intros Hac. pose proof (acyclic_bound h a Hac) as Hn.
  destruct (display_enough h _ a k Hn) as [H1 H2]. split; [done|]. split; [done|]. clear H1 H2.
  generalize (nesting h) as n, a, Hn. clear a Hn.
  intros n. induction n as [|n IH]; intros a Hn; [by destruct Hn; constructor|].
  destruct a as [i|p|b|p|e f| |]; try (by split; [|discriminate]).
  cbn. pose proof (view_at_no_overflow h p). destruct (view_at h p) as [v|[]|msg] eqn:Hv; cbn.
  - destruct v; try (by split; [|discriminate]). apply IH. intros Hc. apply Hn.
    eapply nested_S; [done| |done]. by left.
  - split; [done|]. intros [= ->]. by apply H1.
Qed.

(** ** Arrays *)

(** The elements of the array at [p]. *)
Definition array_is (h : Heap) (p : loc) (t : Tag) (l : list AnyEnum) : Prop :=
  mem h !! p = Some (mkBlock t (View.Array l)) ∧ Z.of_nat (length l) < 2 ^ 31.
Definition array_bytes (h : Heap) : Z := tag_size h + layout_aligned size_of_Vec.

Lemma array_at_is h p t l : array_is h p t l → array_at h p = Ok (t, l).
Proof. intros [Hp _]. unfold array_at, deref. by rewrite Hp. Qed.
Lemma as_usize_lookup (l : list AnyEnum) i : Z.of_nat (length l) < 2 ^ 31 → Int.in_i32 i →
  l !! as_usize i = if bool_decide (0 <= i < Z.of_nat (length l)) then l !! Z.to_nat i else None.
Proof.
  unfold Int.in_i32. intros Hl Hi. unfold as_usize, Int.wrap_u. case_bool_decide as Hb.
  - by rewrite Z.mod_small by lia.
  - apply lookup_ge_None_2. destruct (decide (0 <= i)); [rewrite Z.mod_small; lia|].
    rewrite <- (Z.mod_add i 1) by done. rewrite Z.mod_small; lia.
Qed.
Lemma length_as_i32_small n : Z.of_nat n < 2 ^ 31 → length_as_i32 n = Z.of_nat n.
Proof. intros. apply Int.wrap_s_id. unfold Int.in_i32. lia. Qed.

Lemma alloc_array h l : heap_ok h → live_fits h (array_bytes h) →
  ∃ q h', alloc_or_gc h (View.Array l) = Ok (q, h') ∧ array_at h' q = Ok (with_type TT.Array, l) ∧
    allocated h (mkBlock (with_type TT.Array) (View.Array l)) q h'.
Proof.
  intros Hok Hl.
  destruct (or_gc_allocated (λ h, Ok (alloc h (View.Array l))) h (array_bytes h)
    (mkBlock (with_type TT.Array) (View.Array l))) as (q & h' & Hr & Ha); try done.
  { intros h1 _ Ht. unfold alloc, array_bytes. by rewrite Ht. }
  { by apply (alloc_request h (View.Array l)). }
  exists q, h'. split; [exact Hr|]. split; [|done]. destruct Ha. unfold array_at, deref. by rewrite alloc_block.
Qed.

(** C16: the operations on arrays are those of lists.  Reading and writing are
    defined exactly on the indices below the length, and panic on the
    others, the negative ones included; [push] appends; [slice] and [concat]
    make a new array with the elements, when the bounds are in order, and
    keep the heap. *)
Theorem arrays_are_lists h p t l :
  array_is h p t l →
  array_length h p = Ok (Z.of_nat (length l)) ∧
  (∀ i, Int.in_i32 i →
     if bool_decide (0 <= i < Z.of_nat (length l))
     then (∃ v, l !! Z.to_nat i = Some v ∧ array_index h p i = Ok v) ∧
       ∀ v, array_set h p i v = Ok (v, store p (mkBlock t (View.Array (<[Z.to_nat i := v]> l))) h)
     else panics (array_index h p i) ∧ ∀ v, panics (array_set h p i v)) ∧
  (∀ v, Z.of_nat (length l) < 2 ^ 31 - 1 →
     array_push h p v = Ok (Z.of_nat (length l) + 1, store p (mkBlock t (View.Array (l ++ [v]))) h)) ∧
  (∀ a b, heap_ok h → live_fits h (array_bytes h) →
     if bool_decide (0 <= a <= b ∧ b <= Z.of_nat (length l))
     then ∃ q h', array_slice h p a b = Ok (q, h') ∧
       array_at h' q = Ok (with_type TT.Array, take (Z.to_nat (b - a)) (drop (Z.to_nat a) l)) ∧
       heap_ok h' ∧ preserves h h' ∧ ¬ reachable h q
     else panics (array_slice h p a b)) ∧
  (∀ q u k, array_is h q u k → heap_ok h → live_fits h (array_bytes h) →
     ∃ r h', array_concat h p q = Ok (r, h') ∧ array_at h' r = Ok (with_type TT.Array, l ++ k) ∧
       heap_ok h' ∧ preserves h h' ∧ ¬ reachable h r).
Proof.
  intros Hp. pose proof (array_at_is _ _ _ _ Hp) as Ha. destruct Hp as [Hp Hlen].
  unfold array_length, array_index, array_set, array_push, array_slice, array_concat. rewrite Ha. cbn [mbind comp_bind].
  split; [by rewrite length_as_i32_small|]. split; [|split; [|split]].
  - intros i Hi. pose proof (as_usize_lookup l i Hlen Hi) as Hl. case_bool_decide as Hb.
    + assert (as_usize i = Z.to_nat i) as Hu.
      { unfold Int.in_i32 in Hi. unfold as_usize, Int.wrap_u. by rewrite Z.mod_small by lia. }
      rewrite Hl, Hu. split.
      * destruct (lookup_lt_is_Some_2 l (Z.to_nat i) ltac:(lia)) as [v Hv]. exists v. by rewrite Hv.
      * intros v. by rewrite (proj2 (Nat.ltb_lt _ _)) by lia.
    + rewrite Hl. split; [apply panics_Panic|]. intros v. apply lookup_ge_None_1 in Hl.
      rewrite (proj2 (Nat.ltb_ge _ _)) by done. apply panics_Panic.
  - intros v Hl. rewrite length_as_i32_small by (rewrite length_app; cbn; lia). rewrite length_app. cbn. do 3 f_equal. lia.
  - intros a b Hok Hl. case_bool_decide as Hb.
    + rewrite !(proj2 (Z.ltb_ge _ _)) by lia.
      destruct (alloc_array h (take (Z.to_nat (b - a)) (drop (Z.to_nat a) l)) Hok Hl) as (q & h' & Hr & Hat & Hal).
      exists q, h'. split; [exact Hr|]. split; [done|]. by destruct Hal.
    + repeat (case_match; try apply panics_Panic). lia.
  - intros q u k Hq Hok Hl. rewrite (array_at_is _ _ _ _ Hq). cbn [mbind comp_bind].
    destruct (alloc_array h (l ++ k) Hok Hl) as (r & h' & Hr & Hat & Hal).
    exists r, h'. split; [exact Hr|]. split; [done|]. by destruct Hal.
Qed.

(** ** Strings *)

Lemma slice_bounds_ok len a b : 0 <= len → 0 <= a → 0 <= b →
  let '(a', b') := slice_bounds len a b in
  0 <= a' <= b' ∧ b' <= len ∧ a' = Z.min a len ∧ b' = Z.max a' (Z.min b len).
Proof. intros. unfold slice_bounds. repeat case_match; lia. Qed.
Lemma substring_length n m s : (n + m ≤ String.length s)%nat → String.length (String.substring n m s) = m.
Proof.
  revert n m. induction s as [|c s IH]; intros n m Hn; cbn in Hn.
  - by destruct n, m; try lia.
  - destruct n as [|n]; [destruct m as [|m]; [done|]|]; cbn; [f_equal; apply (IH 0%nat); lia|apply IH; lia].
Qed.

(** C17: [slice] takes the bytes from [a] to [b]: every pair of indices that are
    not negative is moved into the string, so that no byte outside of it is
    read, and the result has the expected length; a negative index panics.
    [length] and [concat] are those of the strings. *)
Theorem strings_are_bytes h p s :
  view_at h p = Ok (View.String s) → Z.of_nat (String.length s) < 2 ^ 31 →
  string_length h p = Ok (Z.of_nat (String.length s)) ∧
  (∀ a b, a < 0 ∨ b < 0 → panics (string_slice h p a b)) ∧
  (∀ a b, 0 <= a → 0 <= b → heap_ok h →
     let len := Z.of_nat (String.length s) in
     let a' := Z.min a len in
     let b' := Z.max a' (Z.min b len) in
     let r := String.substring (Z.to_nat a') (Z.to_nat (b' - a')) s in
     live_fits h (string_bytes h r) →
     new_string h r (string_slice h p a b) ∧ Z.of_nat (String.length r) = b' - a') ∧
  (∀ q t, view_at h q = Ok (View.String t) → heap_ok h → live_fits h (string_bytes h (s +:+ t)) →
     new_string h (s +:+ t) (string_concat h p q)).
Proof.
  intros Hp Hlen. apply view_at_string in Hp. unfold string_length, string_slice, string_concat. rewrite Hp.
  cbn [mbind comp_bind]. split; [by rewrite length_as_i32_small|]. split; [|split].
  - intros a b Hab. repeat (case_match; try apply panics_Panic). lia.
  - intros a b Ha Hb Hok Hl. set (len := Z.of_nat (String.length s)) in *. rewrite !(proj2 (Z.ltb_ge _ _)) by lia.
    pose proof (slice_bounds_ok len a b ltac:(lia) Ha Hb) as Hs.
    destruct (slice_bounds len a b) as [a' b']. destruct Hs as (? & ? & -> & ->). split; [by apply alloc_new_string|].
    rewrite substring_length by lia. lia.
  - intros q t Hq Hok Hl. rewrite (view_at_string _ _ _ Hq). cbn. by apply alloc_new_string.
Qed.

(** ** Hash tables *)

(** The entries of a table, by the text of the key. *)
Definition entry (h : Heap) (e : loc * AnyEnum) : string * AnyEnum := (default "" (name_at h e.1), e.2).
(** The table at [p] is the map [m]. *)
Definition table_is (h : Heap) (p : loc) (m : gmap string AnyEnum) : Prop :=
  ∃ t l, mem h !! p = Some (mkBlock t (View.HT l)) ∧ Forall (λ e, is_Some (name_at h e.1)) l ∧
    NoDup (entry h <$> l).*1 ∧ m = list_to_map (entry h <$> l).

Lemma name_at_str h p s : name_at h p = Some s ↔ str_at h p = Ok s.
Proof. unfold name_at. destruct (str_at h p); naive_solver. Qed.
Lemma ht_find_ok h x s i l :
  Forall (λ e, is_Some (name_at h e.1)) l → name_at h x = Some s →
  match ht_find h x i l with
  | Ok (Some k) => ∃ j, k = (i + j)%nat ∧ (entry h <$> l).*1 !! j = Some s
  | Ok None => s ∉ (entry h <$> l).*1
  | _ => False
  end.
Proof.
  intros Hl Hx. revert i. induction l as [|[k v] l IH]; intros i; cbn [ht_find]; [by intros ?%elem_of_nil|].
  apply Forall_cons in Hl as [[r Hr] Hl]. cbn in Hr.
  assert (string_eq h k x = Ok (bool_decide (r = s))) as ->.
  { unfold string_eq. case_decide as Hk; [subst; rewrite Hx in Hr; simplify_eq; by rewrite bool_decide_true|].
    apply name_at_str in Hr as ->. apply name_at_str in Hx as ->. done. }
  cbn. case_bool_decide as Hrs.
  - subst. exists O. split; [lia|]. cbn. by rewrite Hr.
  - specialize (IH Hl (S i)). destruct (ht_find h x (S i) l) as [[k'|]|[]|msg]; try done.
    + destruct IH as (j & -> & Hj). exists (S j). split; [lia|done].
    + rewrite Hr. cbn. by intros [?|?]%elem_of_cons.
Qed.

Lemma alter_entry (kvs : list (string * AnyEnum)) j s v :
  NoDup kvs.*1 → kvs.*1 !! j = Some s →
  (alter (λ e, (e.1, v)) j kvs).*1 = kvs.*1 ∧
  (list_to_map (alter (λ e, (e.1, v)) j kvs) : gmap string AnyEnum) = <[s := v]> (list_to_map kvs).
Proof.
  revert j. induction kvs as [|[k w] kvs IH]; intros j Hnd Hj; [done|].
  apply NoDup_cons in Hnd as [Hk Hnd]. destruct j as [|j]; cbn in Hj |- *.
  - simplify_eq. by rewrite insert_insert_eq.
  - destruct (IH j Hnd Hj) as [-> ->]. split; [done|]. apply insert_insert_ne.
    intros ->. apply Hk. by eapply list_elem_of_lookup_2.
Qed.

Lemma name_at_store h p t l b x : mem h !! p = Some (mkBlock t (View.HT l)) → is_Some (name_at h x) →
  name_at (store p b h) x = name_at h x.
Proof.
  intros Hp [s Hx]. assert (x ≠ p) as Hne.
  { intros ->. apply name_at_str in Hx. unfold str_at, deref in Hx. rewrite Hp in Hx. by cbn in Hx. }
  unfold name_at, str_at, deref. cbn. by rewrite lookup_insert_ne.
Qed.
Lemma map_entry_store h p t l b k : mem h !! p = Some (mkBlock t (View.HT l)) →
  Forall (λ e, is_Some (name_at h e.1)) k → entry (store p b h) <$> k = entry h <$> k.
Proof.
  intros Hp Hk. apply list_fmap_ext. intros i e He%list_elem_of_lookup_2. rewrite Forall_forall in Hk.
  unfold entry. by rewrite (name_at_store _ _ _ _ _ _ Hp (Hk e He)).
Qed.
Lemma table_store h p t l t' k :
  mem h !! p = Some (mkBlock t (View.HT l)) → Forall (λ e, is_Some (name_at h e.1)) k →
  NoDup (entry h <$> k).*1 →
  table_is (store p (mkBlock t' (View.HT k)) h) p (list_to_map (entry h <$> k)).
Proof.
  intros Hp Hk Hnd. exists t', k. pose proof (map_entry_store h p t l (mkBlock t' (View.HT k)) k Hp Hk) as He.
  split; [cbn; by rewrite lookup_insert_eq|]. rewrite He. split; [|done].
  eapply Forall_impl; [exact Hk|]. intros e Hs. cbn. by rewrite (name_at_store _ _ _ _ _ _ Hp Hs).
Qed.

(** C15: a hash table refines a map from texts to values: it is empty when it
    is new, reading answers what the map has under the text of the key and
    panics where it has nothing, and writing updates that entry and no other
    block, whether or not the key was there and in whatever order the table
    is iterated afterwards. *)
Theorem tables_are_maps h :
  (heap_ok h → live_fits h (tag_size h + layout_aligned size_of_HashMap) →
     ∃ p h', ht_new h = Ok (p, h') ∧ table_is h' p ∅ ∧ heap_ok h' ∧ preserves h h') ∧
  (∀ p m x s, table_is h p m → name_at h x = Some s →
     match m !! s with Some v => ht_get h p x = Ok v | None => panics (ht_get h p x) end ∧
     ∀ v, ∃ h', ht_set h p x v = Ok (v, h') ∧ table_is h' p (<[s := v]> m) ∧
       ∀ q, q ≠ p → mem h' !! q = mem h !! q).
Proof.
  split.
  - intros Hok Hl.
    destruct (or_gc_allocated (λ h, Ok (alloc h (View.HT []))) h (tag_size h + layout_aligned size_of_HashMap)
      (mkBlock (with_type TT.HT) (View.HT []))) as (p & h' & Hr & Ha); try done.
    { intros h1 _ Ht. unfold alloc. by rewrite Ht. }
    { by apply (alloc_request h (View.HT [])). }
    destruct Ha. exists p, h'. split; [exact Hr|]. split; [|done].
    exists (with_type TT.HT), []. repeat split; [done|constructor..].
  - intros p m x s (t & l & Hp & Hl & Hnd & ->) Hx. pose proof (ht_find_ok h x s 0 l Hl Hx) as Hf.
    unfold ht_get, ht_set, ht_at, deref. rewrite Hp. cbn [data tag mbind comp_bind].
    destruct (ht_find h x 0 l) as [[j|]|[]|msg]; try done; cbn [mbind comp_bind option_bind].
    + destruct Hf as (j' & -> & Hj). cbn [Nat.add].
      rewrite !list_lookup_fmap in Hj. destruct (l !! j') as [e|] eqn:He; [|done]. cbn in Hj.
      assert ((entry h <$> l).*1 !! j' = Some s) as Hj' by (by rewrite !list_lookup_fmap, He).
      assert ((list_to_map (entry h <$> l) : gmap string AnyEnum) !! s = Some e.2) as ->.
      { apply elem_of_list_to_map_1; [done|]. apply (list_elem_of_lookup_2 _ j').
        rewrite list_lookup_fmap, He. cbn. unfold entry in *. by simplify_eq/=. }
      split; [done|]. intros v. eexists. split; [done|]. split; [|by intros q Hq; cbn; rewrite lookup_insert_ne].
      set (k := alter _ j' l).
      assert (entry h <$> k = alter (λ e, (e.1, v)) j' (entry h <$> l)) as Hk.
      { unfold k. apply list_fmap_alter. by apply Forall_true. }
      destruct (alter_entry _ j' s v Hnd Hj') as [Hkeys Hmap]. rewrite <- Hmap, <- Hk.
      apply (table_store h p t l); [done| |by rewrite Hk, Hkeys].
      unfold k. apply Forall_alter; [done|]. intros e' He' Hs. exact Hs.
    + rewrite (not_elem_of_list_to_map_1 _ _ Hf). split; [apply panics_Panic|].
      intros v. eexists. split; [done|]. split; [|by intros q Hq; cbn; rewrite lookup_insert_ne].
      pose proof (rehash_permutation ((x, v) :: l)) as Hperm. set (k := rehash _) in *.
      assert (entry h <$> k ≡ₚ (s, v) :: (entry h <$> l)) as Hk.
      { rewrite Hperm. cbn. unfold entry at 1. cbn. by rewrite Hx. }
      assert (NoDup (entry h <$> k).*1) as Hnd' by (rewrite Hk; cbn; by constructor).
      replace (<[s := v]> (list_to_map (entry h <$> l))) with (list_to_map (entry h <$> k) : gmap string AnyEnum)
        by (by rewrite (list_to_map_proper _ _ Hnd' Hk)).
      apply (table_store h p t l); [done| |done]. rewrite Hperm. constructor; [by eexists|done].
Qed.
End values.

(** ** Two builds, and the programs that go wrong *)

Definition build (checks : bool) : Platform.
Proof.
  refine {| overflow_checks := checks; f64_address p := 4096 + 8 * slot p; libm_sin x := x; rehash l := l |}.
  reflexivity.
Defined.
Module Bad.
#[local] Existing Instance wasm32.
#[local] Instance debug : Platform := build true.

Definition text (s : string) (h : Heap) : rt (AnyEnum * Heap) := '(p, h) ← alloc_str_or_gc h s; Ok (Any.Ptr p, h).
Definition rooted (slot : nat) (r : rt (AnyEnum * Heap)) : rt (AnyEnum * Heap) :=
  '(v, h) ← r; h ← set_any_in_current_shadow_frame_slot h v slot; Ok (v, h).
Definition array (l : list AnyEnum) (h : Heap) : rt (AnyEnum * Heap) :=
  '(p, h) ← alloc_or_gc h (View.Array l); Ok (Any.Ptr p, h).
Definition frame (size : Z) : Heap := gc_enter_fn (new size) 3.
Definition show (r : rt (AnyEnum * Heap)) : rt string := '(v, h) ← r; display_any (nesting h) h v.

(** [true == "1"]. *)
Definition true_equals_one : rt bool := '(s, h) ← text "1" (frame 1000); janky_equal h (Any.Bool true) s.
(** [o == o] for an array [o]. *)
Definition same_array : rt bool := '(o, h) ← array [] (frame 1000); janky_equal h o o.
(** [0.5 === 0.5], and [1 === 1.0]. *)
Definition strict_floats : rt (bool * bool) :=
  '(x, h) ← f64_to_any (frame 1000) (of_decimal false 5 (-1));
  '(y, h) ← f64_to_any h (of_decimal false 5 (-1));
  '(z, h) ← f64_to_any h (of_Z 1);
  Ok (janky_strict_equal x y, janky_strict_equal (Any.I32 1) z).
(** The sum of two strings that live, in a memory that is short. *)
Definition long : string := "aaaaaaaaaaaaaaaaaaaaaaaaaaaaaaaaaaaaaaaa".
Definition sum_of_strings (size : Z) : rt string :=
  '(a, h) ← rooted 0 (text long (frame size));
  '(b, h) ← rooted 1 (text "bbbb" h);
  show (janky_primitive_plus h a b).
(** [a.concat(a)] collects; the result is used after the next collection. *)
Definition concat_floats (size : Z) : rt string :=
  '(_, h) ← array [] (frame size);
  '(x, h) ← f64_to_any h (of_Z 1);
  '(_, h) ← rooted 0 (array [x; x] h);
  '(a, h) ← rooted 1 ('(y, h) ← f64_to_any h (of_Z 2); array [y] h);
  '(p, h) ← match a with Any.Ptr p => array_concat h p p | _ => Panic "" end;
  '(b, h) ← rooted 1 (Ok (Any.Ptr p, h));
  h ← gc h;
  show (Ok (b, h)).
(** [parse_int] of [0.5]. *)
Definition int_of_float : rt (AnyEnum * Heap) :=
  '(x, h) ← f64_to_any (frame 1000) (of_decimal false 5 (-1)); parse_int h x (Any.I32 10).
(** An array that contains itself. *)
Definition cyclic (fuel : nat) : rt string :=
  '(a, h) ← array [] (frame 1000);
  match a with
  | Any.Ptr p => '(_, h) ← array_push h p a; display_any fuel h a
  | _ => Panic ""
  end.
(** A table whose key is only held by the table, read after a collection. *)
Definition freed_key (collect : bool) : rt AnyEnum :=
  '(t, h) ← ht_new (frame 1000);
  h ← set_in_current_shadow_frame_slot h 0 (Some t);
  '(k, h) ← alloc_str_or_gc h "k";
  '(_, h) ← ht_set h t k (Any.I32 1);
  '(_, h) ← rooted 1 (array [] h);
  h ← (if collect then gc h else Ok h);
  '(k, h) ← alloc_str_or_gc h "k";
  ht_get h t k.
End Bad.


(** ** The theorems on a heap *)

(** A decision for heaps given with a rank. *)
Definition acyclic_check (h : Heap) (rank : loc → nat) : bool :=
  forallb (λ pb : loc * block,
    forallb (λ a, match a with Any.Ptr q => (rank q <? rank pb.1)%nat | _ => true end) (inner (data pb.2)))
    (map_to_list (mem h)).
Lemma acyclic_check_sound h rank : acyclic_check h rank = true → acyclic h.
Proof.
  intros Hc. exists rank. intros p v q Hv Hq. unfold view_at, deref in Hv.
  destruct (mem h !! p) as [b|] eqn:Hb; [|done]. cbn in Hv. unfold view in Hv. case_decide; [|done]. simplify_eq.
  unfold acyclic_check in Hc. rewrite forallb_forall in Hc.
  specialize (Hc (p, b) ltac:(by apply list_elem_of_In, elem_of_map_to_list)). cbn in Hc.
  rewrite forallb_forall in Hc. specialize (Hc (Any.Ptr q) ltac:(by apply list_elem_of_In)).
  by apply Nat.ltb_lt in Hc.
Qed.

(** A string at 1, an array with it at 2 and a table with it as a key at 3. *)
Definition shelf_heap : rt Heap :=
  let _ := wasm32 in let _ := build true in
  '(s, h) ← Bad.rooted 0 (Bad.text "seven" (Bad.frame 400));
  '(_, h) ← Bad.rooted 1 (Bad.array [Any.I32 5; s] h);
  '(p, h) ← ht_new h;
  h ← set_in_current_shadow_frame_slot h 2 (Some p);
  '(_, h) ← ht_set h p 1 (Any.I32 7);
  Ok h.
Definition shelf : Heap := match shelf_heap with Ok h => h | _ => new 0 end.
Lemma shelf_ok : @heap_ok wasm32 shelf.
Proof.
  split.
  - apply wf_check_sound. vm_compute. reflexivity.
  - apply (closed_check_sound shelf [3; 1; 2]). vm_compute. reflexivity.
  - apply (fit_check_sound shelf [3; 1; 2]); vm_compute; reflexivity.
  - vm_compute. reflexivity.
Qed.
Lemma shelf_room bytes : bytes <= 200 → @live_fits wasm32 shelf bytes.
Proof.
  intros Hb. apply (live_fits_check shelf [3; 1; 2]); [vm_compute; reflexivity|].
  set (n := sum_over _ _). assert (n = 65) as -> by (vm_compute; reflexivity).
  change (size shelf) with 400. lia.
Qed.



Lemma number_text_roundtrip_witness :
  let _ := wasm32 in let _ := build true in
  ∃ p h', any_to_string shelf (Any.I32 (-2147483648)) = Ok (p, h') ∧ any_to_i32 h' (Any.Ptr p) = Ok (-2147483648).
Proof.
  destruct (@number_text_roundtrip wasm32 (build true) shelf (-2147483648)) as (p & h' & Hr & _ & _ & Hz & _).
  - split; vm_compute; [discriminate|reflexivity].
  - exact shelf_ok.
  - apply shelf_room. vm_compute. discriminate.
  - exists p, h'. split; [exact Hr|exact Hz].
Defined.

Lemma display_terminates_witness :
  display_any (nesting shelf) shelf (Any.Ptr 2) = Ok "[5, seven, ]" ∧
  display_any (nesting shelf + 1000) shelf (Any.Ptr 2) = display_any (nesting shelf) shelf (Any.Ptr 2).
Proof.
  split; [vm_compute; reflexivity|].
  apply (display_terminates shelf (Any.Ptr 2) 1000).
  apply (acyclic_check_sound shelf (λ p, if p =? 2 then 1%nat else O)). vm_compute. reflexivity.
Defined.

Lemma arrays_are_lists_witness :
  let _ := wasm32 in
  array_index shelf 2 0 = Ok (Any.I32 5) ∧ panics (array_index shelf 2 (-1)) ∧
  ∃ q h', array_slice shelf 2 0 1 = Ok (q, h') ∧ array_at h' q = Ok (with_type TT.Array, [Any.I32 5]).
Proof.
  destruct (@arrays_are_lists wasm32 shelf 2 (with_type TT.Array) [Any.I32 5; Any.Ptr 1])
    as (_ & Hi & _ & Hs & _).
  { split; [vm_compute; reflexivity|reflexivity]. }
  split; [|split].
  - destruct (Hi 0 ltac:(split; vm_compute; [discriminate|reflexivity])) as [(v & [= <-] & Hr) _]. exact Hr.
  - apply (Hi (-1) ltac:(split; vm_compute; [discriminate|reflexivity])).
  - destruct (Hs 0 1 shelf_ok) as (q & h' & Hr & Hq & _).
    { apply shelf_room. vm_compute. discriminate. }
    exists q, h'. split; [exact Hr|exact Hq].
Defined.

Lemma strings_are_bytes_witness :
  let _ := wasm32 in
  new_string shelf "ven" (string_slice shelf 1 2 100) ∧ panics (string_slice shelf 1 (-1) 2).
Proof.
  destruct (@strings_are_bytes wasm32 shelf 1 "seven") as (_ & Hn & Hs & _); [vm_compute; reflexivity|reflexivity|].
  split; [|apply Hn; left; reflexivity].
  apply (Hs 2 100 ltac:(discriminate) ltac:(discriminate) shelf_ok). apply shelf_room. vm_compute. discriminate.
Defined.

Lemma tables_are_maps_witness :
  let _ := wasm32 in let _ := build true in
  ht_get shelf 3 1 = Ok (Any.I32 7) ∧
  ∃ h', ht_set shelf 3 1 Any.Null = Ok (Any.Null, h') ∧ table_is h' 3 {["seven" := Any.Null]}.
Proof.
  destruct (proj2 (@tables_are_maps wasm32 (build true) shelf) 3 {["seven" := Any.I32 7]} 1 "seven") as [Hg Hs].
  - exists (with_type TT.HT), [(1, Any.I32 7)]. split; [vm_compute; reflexivity|].
    split; [constructor; [by eexists|constructor]|]. split; [|reflexivity].
    apply (bool_decide_unpack _). vm_compute. exact I.
  - vm_compute. reflexivity.
  - split; [exact Hg|]. destruct (Hs Any.Null) as (h' & Hr & Ht & _). exists h'. split; [exact Hr|exact Ht].
Defined.
