(* ===== verification/Runtime.v ===== *)
(** The runtime as a program uses it: the calls a compiled program makes, as
    steps between heaps, keep the invariants of the heap and of the objects,
    and memory that is not used any more can always be had again. *)
From S2P Require Import Prelude.
From S2P Require Import ClassList.
From S2P Require Import Heap.
From S2P Require Import Gc.
From S2P Require Import Alloc.
From S2P Require Import Objects.
From S2P Require Import ObjectsOk.
From S2P Require Import Values.
From S2P Require Import ValuesOk.
From Stdlib Require Import SpecFloat.

(** ** What a program does with the heap *)

Section runtime.
Context `{Rust} `{Platform}.

(** What a program may store in a frame: what it can reach, and its string
    constants. *)
Definition held (h : Heap) (p : loc) : Prop := reachable h p ∨ static h p.

(** A value at hand, and the heap once it is: one that is not a float, one
    that was read from a block, or a float that was just allocated. *)
Inductive operand (h : Heap) : AnyEnum → Heap → Prop :=
  | operand_value v : (∀ q, v ≠ Any.F64 q) → (∀ q, q ∈ value_ptrs v → reachable h q) → operand h v h
  | operand_read p b i v : reachable h p → mem h !! p = Some b →
      View.slots (data b) !! i = Some (Some v) → operand h v h
  | operand_f64 x v h1 : f64_to_any h x = Ok (v, h1) → operand h v h1.

(** Data without floats, that points to what can be reached. *)
Definition plain (h : Heap) (b : block) : Prop :=
  block_f64s b = 0 ∧ ∀ q, q ∈ block_ptrs (classes h) b → reachable h q.
(** Data that is neither an object nor its fields. *)
Definition simple (v : HeapRefView) : Prop :=
  match v with View.ObjectPtrPtr _ | View.Class _ => False | _ => True end.

(** The initialisation of the slots of a new environment. *)
Definition env_init (env : loc) (h : Heap) (items : list AnyEnum) : rt Heap :=
  foldM (λ h iv, env_init_at h env iv.1 iv.2) h (zip (seq 0 (length items)) items).

Inductive step : Heap → Heap → Prop :=
  | step_enter h n : step h (gc_enter_fn h n)
  | step_exit h : step h (gc_exit_fn h)
  | step_set_slot h v slot h' :
      (∀ q, q ∈ value_ptrs v → held h q) →
      set_any_in_current_shadow_frame_slot h v slot = Ok h' → step h h'
  | step_set_global h v slot h' :
      (∀ q, q ∈ value_ptrs v → held h q) →
      set_any_in_globals_frame h v slot = Ok h' → step h h'
  | step_gc h h' : gc h = Ok h' → step h h'
  | step_string h s p h1 slot h' :
      alloc_str_or_gc h s = Ok (p, h1) →
      set_any_in_current_shadow_frame_slot h1 (Any.Ptr p) slot = Ok h' → step h h'
  | step_alloc h v p h1 slot h' :
      boxed v = true → simple v → plain h (mkBlock (with_type (View.type_tag v)) v) →
      alloc_or_gc h v = Ok (p, h1) →
      set_any_in_current_shadow_frame_slot h1 (Any.Ptr p) slot = Ok h' → step h h'
  | step_object h p h1 slot h' :
      object_empty h = Ok (p, h1) →
      set_any_in_current_shadow_frame_slot h1 (Any.Ptr p) slot = Ok h' → step h h'
  | step_closure h garbage items fn_obj func env h1 h2 slot h' :
      length garbage = length items → plain h (mkBlock (with_type TT.Env) (View.Env items fn_obj)) →
      alloc_env_or_gc h garbage fn_obj = Ok (env, h1) → env_init env h1 items = Ok h2 →
      set_closure_in_current_shadow_frame_slot h2 (closure_new env func) slot = Ok h' → step h h'
  | step_array_set h p i v h1 w h' :
      reachable h p → operand h v h1 → floats_room h1 1 →
      array_set h1 p i v = Ok (w, h') → step h h'
  | step_array_push h p v h1 n h' :
      reachable h p → operand h v h1 → floats_room h1 1 →
      array_push h1 p v = Ok (n, h') → step h h'
  | step_ht_set h p x v h1 w h' :
      reachable h p → operand h v h1 → floats_room h1 1 →
      ht_set h1 p x v = Ok (w, h') → step h h'
  | step_object_set h o d x s v h1 w cache h' :
      reachable h o → operand h v h1 → object_data h1 o = Ok d → static h1 x → name_at h1 x = Some s →
      has_room h1 d s v → object_set h1 o x v (-1) = Ok (w, cache, h') → step h h'.

(** The heap when a program starts: its string constants are in memory. *)
Definition start (size : Z) (constants : gmap loc string) : Heap :=
  set_mem ((λ s, mkBlock (with_type TT.String) (View.String s)) <$> constants) (new size).
Definition reached (h : Heap) : Prop := ∃ size constants, rtc step (start size constants) h.

Record sound (h : Heap) : Prop := { snd_heap : heap_ok h; snd_objects : objects_ok h }.

(** ** Changes to the heap that keep the invariants *)

(** The conditions of [objects_ok] on one block. *)
Definition object_block (h : Heap) (b : block) : Prop :=
  (∀ d, data b = View.ObjectPtrPtr d → ∃ bd l, mem h !! d = Some bd ∧ data bd = View.Class l) ∧
  (∀ l, data b = View.Class l → Forall is_Some l).
Lemma object_block_simple h b : simple (data b) → object_block h b.
Proof. split; [intros d Hd|intros l Hl]; by rewrite ?Hd, ?Hl in *. Qed.

(** The blocks [ps] change, or become reachable. *)
Section advance.
Context (h h' : Heap) (ps : list loc) (Hsound : sound h) (Hwf : heap_wf h').
Context (Hclasses : classes h' = classes h) (Hf64 : f64_allocator h' = f64_allocator h) (Halloc : alloc_list h' = alloc_list h).
Let scope (q : loc) : Prop := held h q ∨ q ∈ ps.
Context (Hsame : ∀ q, q ∉ ps → mem h' !! q = mem h !! q) (Hstatic : ∀ q, static h q → mem h' !! q = mem h !! q).
Context (Hroots : ∀ q, q ∈ roots h' → scope q).
Context (Hblocks : ∀ p, p ∈ ps → ∃ b, mem h' !! p = Some b ∧ (∀ q, q ∈ block_ptrs (classes h) b → scope q) ∧
  (∀ i q, View.slots (data b) !! i = Some (Some (Any.F64 q)) → in_current (f64_allocator h) q) ∧ object_block h' b).
Context (Hclass : ∀ p b l, p ∈ ps → mem h !! p = Some b → data b = View.Class l →
  ∃ b' l', mem h' !! p = Some b' ∧ data b' = View.Class l').
Context (Hzero : ∀ q, q ∈ ps → reachable h q ∨ f64s_at h' q = 0).
Context (Hfit : ∀ l, NoDup l → Forall (reachable h) l → sum_over (f64s_at h') l < F64.LEN).

Lemma advance_static q : static h q → static h' q ∧ name_at h' q = name_at h q.
Proof.
  intros Hq. pose proof Hq as (Hl & b & s & Hb & Hs). pose proof (Hstatic q Hq) as Hq'. rewrite Hb in Hq'.
  split; [|by eapply name_ext]. split; [by rewrite Halloc|]. by exists b, s.
Qed.

Lemma advance_block p : scope p → ∃ b, mem h' !! p = Some b ∧ (∀ q, q ∈ block_ptrs (classes h') b → scope q) ∧
  (∀ i q, View.slots (data b) !! i = Some (Some (Any.F64 q)) → in_current (f64_allocator h') q) ∧ object_block h' b.
Proof.
  intros Hp. rewrite Hclasses, Hf64. destruct (decide (p ∈ ps)) as [Hin|Hin]; [by apply Hblocks|].
  rewrite Hsame by done. destruct Hsound as [Hok Hobj]. destruct Hp as [[Hp|Hp]|?]; [| |done].
  - destruct (closed_ptrs _ (ok_closed _ Hok) p Hp) as [b Hb]. exists b. split; [done|]. split; [|split; [|split]].
    + intros q Hq. left. left. by eapply reachable_step.
    + intros i q. by apply (closed_f64s _ (ok_closed _ Hok) p).
    + intros d Hd. destruct (obj_data _ Hobj p b d Hp Hb Hd) as (bd & l & Hbd & Hl).
      destruct (decide (d ∈ ps)) as [Hdp|Hdp]; [by eapply Hclass|]. exists bd, l. by rewrite Hsame.
    + intros l Hl. by eapply obj_full.
  - pose proof Hp as (_ & b & s & Hb & Hs). exists b. split; [done|].
    destruct (static_ptrs (classes h) h p b Hp Hb) as (-> & Hslot & _). split; [by intros q ?%elem_of_nil|].
    split; [intros i q Hi; by rewrite Hslot in Hi|]. apply object_block_simple. by rewrite Hs.
Qed.

Lemma advance_ok : heap_ok h' ∧ ∀ p, reachable h' p → scope p.
Proof.
  destruct Hsound as [Hok _]. apply heap_ok_within; [done|rewrite Hf64; apply Hok|done| |].
  - intros p (b & ? & ? & ? & _)%advance_block. by exists b.
  - intros l Hnd Hl. rewrite sum_over_nonzero. apply Hfit; [by apply NoDup_filter|].
    apply Forall_forall. intros q [Hq Hin]%list_elem_of_filter. rewrite Forall_forall in Hl.
    destruct (Hl q Hin) as [[?|Hs]|Hp]; [done| |by destruct (Hzero q Hp)].
    pose proof Hs as (_ & b & s & Hb & _). destruct Hq. unfold f64s_at. rewrite (Hstatic q Hs).
    apply (static_ptrs (classes h) h q b Hs Hb).
Qed.

Lemma advance_sound : sound h'.
Proof.
  destruct advance_ok as [Hok Hscope]. split; [done|]. destruct Hsound as [_ [Hc Hn _ _]]. split; rewrite ?Hclasses.
  - eapply wf_ext; [|exact Hc]. intros c x Hin Hx. eapply advance_static; eauto.
  - intros c x Hin Hx. eapply advance_static; eauto.
  - intros o b d Ho Hb Hd. destruct (advance_block o (Hscope o Ho)) as (b' & Hb' & _ & _ & [Hob _]). simplify_eq. auto.
  - intros d b l Hd Hb Hl. destruct (advance_block d (Hscope d Hd)) as (b' & Hb' & _ & _ & [_ Hob]). simplify_eq. auto.
Qed.
End advance.

(** *** Frames *)
Lemma f64s_zero b i q : block_f64s b = 0 → View.slots (data b) !! i ≠ Some (Some (Any.F64 q)).
Proof.
  unfold block_f64s. intros Hz Hi. assert (i ∈ f64_indices 0 (slot_values (data b))) as Hin.
  { apply f64_indices_spec. exists i, q. split; [done|]. unfold slot_values. by rewrite list_lookup_fmap, Hi. }
  destruct (f64_indices 0 _); [by apply elem_of_nil in Hin|]. cbn in Hz. lia.
Qed.

Lemma reroot_sound h ss (ps : list loc) : sound h →
  (∀ q, q ∈ roots (set_shadow_stack ss h) → held h q ∨ q ∈ ps) →
  (∀ p, p ∈ ps → ∃ b, mem h !! p = Some b ∧ (∀ q, q ∈ block_ptrs (classes h) b → held h q ∨ q ∈ ps) ∧
     block_f64s b = 0 ∧ object_block h b) →
  sound (set_shadow_stack ss h).
Proof.
  intros Hs Hr Hb. apply (advance_sound h _ ps); try done.
  - destruct Hs as [[Hwf _ _ _] _]. split; apply Hwf.
  - intros p (b & Hp & Hq & Hz & Ho)%Hb. exists b. split; [done|]. split; [done|]. split; [|done].
    intros i q Hi. by apply f64s_zero in Hi.
  - intros p b l _ Hp Hl. by exists b, l.
  - intros p (b & Hp & _ & Hz & _)%Hb. right. unfold f64s_at. cbn. by rewrite Hp.
  - apply Hs.
Qed.

Lemma roots_spec h q : q ∈ roots h ↔ ∃ fr, fr ∈ shadow_stack h ∧ Some q ∈ fr.
Proof.
  unfold roots. rewrite list_elem_of_omap. split.
  - intros ([p|] & Hr & Hq); [|done]. cbn in Hq. injection Hq as ->. apply list_elem_of_In, in_concat in Hr as (fr & ? & ?).
    exists fr. by rewrite !list_elem_of_In.
  - intros (fr & Hf & Hq). exists (Some q). split; [|done]. apply list_elem_of_In, in_concat. exists fr.
    by rewrite <- !list_elem_of_In.
Qed.

Lemma set_slot h frame slot o h' : set_in_shadow_frame_slot h frame slot o = Ok h' →
  ∃ ss, h' = set_shadow_stack ss h ∧ ∀ q, q ∈ roots h' → q ∈ roots h ∨ o = Some q.
Proof.
  unfold set_in_shadow_frame_slot. destruct (shadow_stack h !! frame) as [fr|] eqn:Hfr; [|done].
  cbn [expect mbind comp_bind]. destruct (slot <? length fr)%nat eqn:Hs; [|done]. intros [= <-].
  eexists. split; [done|]. intros q. rewrite !roots_spec. intros (l & Hl & Hq). cbn in Hl.
  apply list_elem_of_lookup in Hl as [i Hi]. apply list_lookup_insert_Some in Hi as [(_ & <- & _)|(_ & Hi)].
  - apply list_elem_of_lookup in Hq as [j Hj]. apply list_lookup_insert_Some in Hj as [(_ & <- & _)|(_ & Hj)]; [by right|].
    left. exists fr. split; by eapply list_elem_of_lookup_2.
  - left. exists l. split; [by eapply list_elem_of_lookup_2|done].
Qed.
Lemma set_current_slot h slot o h' : set_in_current_shadow_frame_slot h slot o = Ok h' →
  ∃ ss, h' = set_shadow_stack ss h ∧ ∀ q, q ∈ roots h' → q ∈ roots h ∨ o = Some q.
Proof. unfold set_in_current_shadow_frame_slot. destruct (length (shadow_stack h)); [done|]. apply set_slot. Qed.
Lemma any_root_value h v o : any_root h v = Ok o → ∀ q, o = Some q → q ∈ value_ptrs v.
Proof.
  unfold any_root. destruct v; cbn; try (intros [= <-] q Hq; done).
  - unfold get_ptr. destruct (deref h p) as [b| |]; cbn; [|done..]. intros [= <-] q [= ->]. by left.
  - intros [= <-] q [= ->]. by left.
Qed.
Lemma set_any_slot h v slot h' : set_any_in_current_shadow_frame_slot h v slot = Ok h' →
  ∃ ss, h' = set_shadow_stack ss h ∧ ∀ q, q ∈ roots h' → q ∈ roots h ∨ q ∈ value_ptrs v.
Proof.
  unfold set_any_in_current_shadow_frame_slot. destruct (any_root h v) as [o| |] eqn:Ho; [|done..]. cbn.
  intros (ss & -> & Hr)%set_current_slot. exists ss. split; [done|]. intros q [?|Hq]%Hr; [by left|right].
  by eapply any_root_value.
Qed.
Lemma set_any_global h v slot h' : set_any_in_globals_frame h v slot = Ok h' →
  ∃ ss, h' = set_shadow_stack ss h ∧ ∀ q, q ∈ roots h' → q ∈ roots h ∨ q ∈ value_ptrs v.
Proof.
  unfold set_any_in_globals_frame. destruct (any_root h v) as [o| |] eqn:Ho; [|done..]. cbn.
  intros (ss & -> & Hr)%set_slot. exists ss. split; [done|]. intros q [?|Hq]%Hr; [by left|right].
  by eapply any_root_value.
Qed.

Lemma held_root h q : q ∈ roots h → held h q.
Proof. left. by apply reachable_root. Qed.

(** Frames that hold what was held, and new data [ps]. *)
Lemma rooted_sound h h' (ps : list loc) : sound h →
  (∃ ss, h' = set_shadow_stack ss h ∧ ∀ q, q ∈ roots h' → q ∈ roots h ∨ held h q ∨ q ∈ ps) →
  (∀ p, p ∈ ps → ∃ b, mem h !! p = Some b ∧ (∀ q, q ∈ block_ptrs (classes h) b → held h q ∨ q ∈ ps) ∧
     block_f64s b = 0 ∧ object_block h b) →
  sound h'.
Proof.
  intros Hs (ss & -> & Hr) Hb. apply (reroot_sound h ss ps); [done| |done].
  intros q [?|?]%Hr; [left; by apply held_root|done].
Qed.
Lemma pop_roots h q : q ∈ roots (gc_exit_fn h) → q ∈ roots h.
Proof.
  rewrite !roots_spec. intros (fr & Hf & Hq). exists fr. split; [|done]. eapply subseteq_take. exact Hf.
Qed.
Lemma push_roots h n q : q ∈ roots (gc_enter_fn h n) → q ∈ roots h.
Proof.
  rewrite !roots_spec. intros (fr & [Hf| ->%list_elem_of_singleton]%elem_of_app & Hq); [by exists fr|].
  by apply elem_of_replicate in Hq as [? _].
Qed.
Lemma frames_sound h n : sound h → sound (gc_enter_fn h n) ∧ sound (gc_exit_fn h).
Proof.
  intros Hs. split; (apply (rooted_sound h _ []); [done| |by intros p ?%elem_of_nil]).
  - eexists. split; [done|]. intros q Hq. left. by eapply push_roots.
  - eexists. split; [done|]. intros q Hq. left. by apply pop_roots.
Qed.

(** *** Allocations that succeed *)
Lemma preserves_sound h h' : sound h → heap_ok h' → preserves h h' → sound h'.
Proof. intros [Hok Hobj] Hok' Hp. split; [done|]. eapply preserves_objects; [apply Hok|done|done]. Qed.

Lemma gc_sound h h' : sound h → gc h = Ok h' → sound h' ∧ preserves h h'.
Proof.
  intros Hs Hgc. pose proof Hs as [[Hwf Hcl Hfit _] _]. destruct (gc_heap_ok h Hwf Hcl Hfit) as (h1 & Hgc1 & _ & Hok1 & Hp1).
  rewrite Hgc1 in Hgc. injection Hgc as <-. split; [by apply (preserves_sound h)|done].
Qed.

Lemma or_gc_done (f : Heap → rt (option loc * Heap)) h bytes b p h' :
  (∀ h1, classes h1 = classes h → tag_size h1 = tag_size h → f h1 = Ok (alloc_raw h1 bytes b)) →
  sound h → request h bytes b → or_gc f h = Ok (p, h') → allocated h b p h' ∧ sound h'.
Proof.
  intros Hf Hs Hreq. assert (∀ p h', allocated h b p h' → allocated h b p h' ∧ sound h') as Hd.
  { intros p1 h1 Ha. split; [done|]. apply (preserves_sound h); [done|apply Ha|apply Ha]. }
  unfold or_gc. rewrite Hf by done. cbn [mbind comp_bind]. unfold alloc_raw at 1.
  destruct (size h - used_mem h <? bytes).
  - destruct (gc h) as [h1| |] eqn:Hgc; cbn [mbind comp_bind]; [|done..].
    destruct (gc_sound h h1 Hs Hgc) as [[Hok1 _] Hp1]. pose proof (pres_frame _ _ Hp1) as (Hcs & _ & _ & Hts).
    rewrite Hf by done. cbn [mbind comp_bind]. unfold alloc_raw. destruct (size h1 - used_mem h1 <? bytes); [done|].
    intros [= <- <-]. apply Hd, add_block_allocated; [done|done|by apply (request_frame h)].
  - intros [= <- <-]. apply Hd, add_block_allocated; [apply Hs|done|done].
Qed.

Lemma alloc_done h v p h' : sound h → boxed v = true → alloc_or_gc h v = Ok (p, h') →
  allocated h (mkBlock (with_type (View.type_tag v)) v) p h' ∧ sound h'.
Proof.
  intros Hs Hv. replace (View.type_tag v) with (View.has_tag v) by (by destruct v).
  apply (or_gc_done _ h (tag_size h + type_size v)); [|done|by apply alloc_request].
  intros h1 _ Ht. unfold alloc. by rewrite Ht.
Qed.
Lemma alloc_str_done h s p h' : sound h → alloc_str_or_gc h s = Ok (p, h') →
  allocated h (mkBlock (with_type TT.String) (View.String s)) p h' ∧ sound h'.
Proof.
  intros Hs. apply (or_gc_done _ h (tag_size h + (Z.of_nat (String.length s) + 4))); [|done|apply alloc_str_request].
  intros h1 _ Ht. unfold alloc_str, alloc_slice. by rewrite Ht.
Qed.
Lemma alloc_env_done h items fn_obj p h' : sound h → alloc_env_or_gc h items fn_obj = Ok (p, h') →
  allocated h (mkBlock (with_type TT.Env) (View.Env items fn_obj)) p h' ∧ sound h'.
Proof.
  intros Hs. eapply or_gc_done; [|done|apply alloc_env_request].
  intros h1 _ Ht. unfold alloc_env, alloc_slice. by rewrite Ht.
Qed.

Lemma alloc_f64_done h x p h' : sound h → alloc_f64_or_gc h x = Ok (p, h') → f64_allocated h x p h' ∧ sound h'.
Proof.
  intros Hs. assert (∀ p h', f64_allocated h x p h' → f64_allocated h x p h' ∧ sound h') as Hd.
  { intros p1 h1 Ha. split; [done|]. apply (preserves_sound h); [done|apply Ha|apply Ha]. }
  pose proof (snd_heap _ Hs) as Hok. unfold alloc_f64_or_gc, or_gc.
  destruct (decide (F64.next_slot (f64_allocator h) < F64.LEN - 1)) as [Hlt|Hge].
  { destruct (alloc_f64_room h h x Hok) as (p1 & a & -> & Ha); [reflexivity|done|]. intros [= <- <-]. by apply Hd. }
  pose proof (ok_next _ Hok). rewrite alloc_f64_full by lia. cbn [mbind comp_bind].
  set (h1 := set_f64_allocator _ h). pose proof (f64_next _ (wf_f64 _ (ok_wf _ Hok))).
  assert (f64_extends (f64_allocator h) (f64_allocator h1)) as He by (split; cbn; done || lia).
  assert (f64_ok (f64_allocator h1)) as Hf.
  { destruct (wf_f64 _ (ok_wf _ Hok)). split; cbn; [done|done|]. unfold F64.LEN in *. lia. }
  pose proof (set_f64_preserves _ _ He (ok_closed _ Hok)) as Hp1.
  destruct (gc_heap_ok h1) as (h2 & -> & Hc & Hok2 & Hp2).
  { by apply set_f64_wf, Hok. } { by apply set_f64_closed, Hok. } { by apply set_f64_fit, Hok. }
  cbn [mbind comp_bind].
  destruct (decide (F64.next_slot (f64_allocator h2) < F64.LEN - 1)) as [Hlt|Hge2].
  - destruct (alloc_f64_room h h2 x Hok2) as (p1 & a & -> & Ha); [by etrans|done|]. intros [= <- <-]. by apply Hd.
  - pose proof (ok_next _ Hok2). rewrite alloc_f64_full by lia. done.
Qed.

Lemma operand_ok h v h1 : sound h → operand h v h1 →
  sound h1 ∧ preserves h h1 ∧ (∀ q, q ∈ value_ptrs v → reachable h1 q) ∧ ∀ q, v = Any.F64 q → in_current (f64_allocator h1) q.
Proof.
  intros Hs [v' Hv Hp|p b i v' Hp Hb Hi|x v' h2 Hx].
  - split_and!; try done. intros q ->. by destruct (Hv q).
  - split_and!; try done.
    + intros q Hq. eapply reachable_step; [exact Hp|exact Hb|]. apply elem_of_app. left.
      apply slots_ptrs_elem. exists v'. split; [by eapply list_elem_of_lookup_2|done].
    + intros q ->. by apply (closed_f64s _ (ok_closed _ (snd_heap _ Hs)) p b i q).
  - unfold f64_to_any in Hx. destruct (alloc_f64_or_gc h x) as [[p h3]| |] eqn:Ha; [|done..]. cbn in Hx.
    injection Hx as <- <-. apply alloc_f64_done in Ha as [[]]; [|done]. split_and!; try done.
    + by intros q ?%elem_of_nil.
    + by intros q [= <-].
Qed.

(** *** Writes to the data of a block *)
Definition count_f64s (l : list AnyEnum) : nat := length (concat (map (λ a, match a with Any.F64 _ => [tt] | _ => [] end) l)).
Lemma block_f64s_count b : block_f64s b = Z.of_nat (count_f64s (slot_values (data b))).
Proof. unfold block_f64s. by rewrite f64_indices_length. Qed.
Lemma count_f64s_insert l i v : (count_f64s (<[i := v]> l) ≤ S (count_f64s l))%nat.
Proof.
  revert i. unfold count_f64s. induction l as [|a l IH]; intros [|i]; cbn; rewrite ?length_app; [lia..| |].
  - destruct v; cbn; lia.
  - rewrite <- Nat.add_succ_r. apply Nat.add_le_mono_l, IH.
Qed.
Lemma count_f64s_alter i v l : (count_f64s (alter (λ _, v) i l) ≤ S (count_f64s l))%nat.
Proof.
  destruct (decide (i < length l)%nat) as [Hi|Hi].
  - assert (alter (λ _, v) i l = <[i := v]> l) as ->; [|apply count_f64s_insert].
    revert i Hi. induction l as [|a l IH]; intros [|i] Hi; cbn in *; [lia..|done|]. f_equal. apply IH. lia.
  - assert (alter (λ _, v) i l = l) as ->; [|lia]. revert i Hi.
    induction l as [|a l IH]; intros [|i] Hi; cbn in *; [done..|lia|]. f_equal. apply IH. lia.
Qed.
#[local] Instance count_f64s_Permutation : Proper ((≡ₚ) ==> (=)) count_f64s.
Proof. intros l k Hlk. unfold count_f64s. by rewrite Hlk. Qed.
Lemma count_f64s_cons v l : (count_f64s (v :: l) ≤ S (count_f64s l))%nat.
Proof. unfold count_f64s. cbn. rewrite length_app. destruct v; cbn; lia. Qed.

Lemma sum_over_bump (f g : loc → Z) p l :
  NoDup l → (∀ x, x ≠ p → f x = g x) → f p <= g p + 1 → sum_over f l <= sum_over g l + 1.
Proof.
  intros Hnd Hfg Hp. induction Hnd as [|x l Hx Hnd IH]; [done|]. rewrite !sum_over_cons.
  destruct (decide (x = p)) as [->|Hne]; [|rewrite (Hfg x) by done; lia].
  rewrite (sum_over_ext f g); [lia|]. intros y Hy. apply Hfg. by intros ->.
Qed.

Section edit.
Context (h : Heap) (p : loc) (t : Tag) (v w : HeapRefView) (Hs : sound h) (Hp : mem h !! p = Some (mkBlock t v)).
Context (Hr : reachable h p) (Hv : simple v) (Hw : simple w) (Hns : ∀ s, v ≠ View.String s).
Context (Htag : View.type_tag w = View.type_tag v).
Context (Hsize : view_data_size h (class_tag t) w = view_data_size h (class_tag t) v).
Context (Hptrs : ∀ q, q ∈ block_ptrs (classes h) (mkBlock t w) → reachable h q).
Context (Hcur : ∀ i q, View.slots w !! i = Some (Some (Any.F64 q)) → in_current (f64_allocator h) q).
Context (Hroom : floats_room h 1) (Hmore : (count_f64s (slot_values w) ≤ S (count_f64s (slot_values v)))%nat).
Let h' := store p (mkBlock t w) h.

Lemma edit_sound : sound h'.
Proof.
  pose proof (wf_blocks _ (ok_wf _ (snd_heap _ Hs)) _ _ Hp) as [Ht _]. cbn in Ht.
  assert (mem h' !! p = Some (mkBlock t w)) as Hp' by (cbn; apply lookup_insert_eq).
  assert (∀ q, q ≠ p → mem h' !! q = mem h !! q) as Hne by (intros q Hq; cbn; by apply lookup_insert_ne).
  apply (advance_sound h h' [p]); try done.
  - apply (store_wf _ p (mkBlock t v)); try done; [apply Hs|intros [s Hd]; by apply (Hns s)|].
    split; [cbn; congruence|]. intros l Hl. cbn in Hl. by rewrite Hl in Hw.
  - intros q Hq. apply Hne. intros ->. apply Hq. by left.
  - intros q (_ & b & s & Hb & Hd). apply Hne. intros ->. rewrite Hp in Hb. injection Hb as <-. by apply (Hns s).
  - intros q Hq. left. by apply held_root.
  - intros q ->%list_elem_of_singleton. exists (mkBlock t w). split; [done|]. split; [|split; [done|by apply object_block_simple]].
    intros q Hq. left. left. by apply Hptrs.
  - intros q b l ->%list_elem_of_singleton Hb Hd. rewrite Hp in Hb. injection Hb as <-. cbn in Hd. by rewrite Hd in Hv.
  - intros q ->%list_elem_of_singleton. by left.
  - intros l Hnd Hl. eapply Z.le_lt_trans; [|by apply (Hroom l)]. apply (sum_over_bump _ _ p); [done| |].
    + intros q Hq. unfold f64s_at. by rewrite Hne.
    + unfold f64s_at. rewrite Hp, Hp', !block_f64s_count. cbn. lia.
Qed.
End edit.

(** A value is written to an array or to a hash table. *)
Definition containers (v w : HeapRefView) : Prop :=
  match v, w with View.Array _, View.Array _ | View.HT _, View.HT _ => True | _, _ => False end.

Lemma container_sound h p t v w a :
  sound h → mem h !! p = Some (mkBlock t v) → reachable h p → containers v w →
  (∀ b, Some b ∈ View.slots w → b = a ∨ Some b ∈ View.slots v) →
  (∀ q, q ∈ value_ptrs a → reachable h q) → (∀ q, a = Any.F64 q → in_current (f64_allocator h) q) →
  floats_room h 1 → (count_f64s (slot_values w) ≤ S (count_f64s (slot_values v)))%nat →
  sound (store p (mkBlock t w) h).
Proof.
  intros Hs Hp Hr Hc Hin Hap Haf Hroom Hn. apply (edit_sound h p t v w); try done; try by destruct v, w.
  - intros q [(b & [->|Hb]%Hin & Hq)%slots_ptrs_elem|Hq]%elem_of_app; [by apply Hap| |].
    + eapply reachable_step; [exact Hr|exact Hp|]. apply elem_of_app. left. apply slots_ptrs_elem. by exists b.
    + cbn in Hq. by destruct v, w; try done; apply elem_of_nil in Hq.
  - intros i q Hi. apply list_elem_of_lookup_2, Hin in Hi as Hb. destruct Hb as [Hb|Hb]; [by apply Haf|].
    apply list_elem_of_lookup in Hb as [j Hj]. by apply (closed_f64s _ (ok_closed _ (snd_heap _ Hs)) p _ j q Hr Hp).
Qed.

Lemma array_at_inv h p t l : array_at h p = Ok (t, l) → mem h !! p = Some (mkBlock t (View.Array l)).
Proof.
  unfold array_at, deref. destruct (mem h !! p) as [[t' v]|]; [|done]. cbn. destruct v; try done. by intros [= -> ->].
Qed.
Lemma ht_at_inv h p t l : ht_at h p = Ok (t, l) → mem h !! p = Some (mkBlock t (View.HT l)).
Proof.
  unfold ht_at, deref. destruct (mem h !! p) as [[t' v]|]; [|done]. cbn. destruct v; try done. by intros [= -> ->].
Qed.
Lemma slot_values_array l : slot_values (View.Array l) = l.
Proof. apply slot_values_Some. Qed.

Section writes.
Context (h : Heap) (p : loc) (v : AnyEnum) (Hs : sound h) (Hr : reachable h p) (Hroom : floats_room h 1).
Context (Hp : ∀ q, q ∈ value_ptrs v → reachable h q) (Hf : ∀ q, v = Any.F64 q → in_current (f64_allocator h) q).

Lemma array_set_sound i w h' : array_set h p i v = Ok (w, h') → sound h'.
Proof.
  unfold array_set. destruct (array_at h p) as [[t l]| |] eqn:Ha; [|done..]. cbn [mbind comp_bind].
  destruct (_ <? _)%nat; [|done]. intros [= _ <-]. apply array_at_inv in Ha.
  apply (container_sound h p t (View.Array l) _ v); try done.
  - intros b Hb. apply list_elem_of_fmap in Hb as (b' & [= <-] & Hb). apply list_elem_of_lookup in Hb as [j Hj].
    apply list_lookup_insert_Some in Hj as [(_ & -> & _)|(_ & Hj)]; [by left|right].
    apply list_elem_of_fmap. exists b. split; [done|]. by eapply list_elem_of_lookup_2.
  - rewrite !slot_values_array. apply count_f64s_insert.
Qed.

Lemma array_push_sound n h' : array_push h p v = Ok (n, h') → sound h'.
Proof.
  unfold array_push. destruct (array_at h p) as [[t l]| |] eqn:Ha; [|done..]. cbn [mbind comp_bind].
  intros [= _ <-]. apply array_at_inv in Ha. apply (container_sound h p t (View.Array l) _ v); try done.
  - intros b Hb. apply list_elem_of_fmap in Hb as (b' & [= <-] & [Hb| ->%list_elem_of_singleton]%elem_of_app); [right|by left].
    apply list_elem_of_fmap. by exists b.
  - rewrite !slot_values_array, (Permutation_app_comm l [v]). apply count_f64s_cons.
Qed.

Lemma ht_set_sound x w h' : ht_set h p x v = Ok (w, h') → sound h'.
Proof.
  unfold ht_set. destruct (ht_at h p) as [[t l]| |] eqn:Ha; [|done..]. cbn [mbind comp_bind].
  destruct (ht_find h x 0 l) as [o| |]; [|done..]. cbn [mbind comp_bind].
  intros [= _ <-]. apply ht_at_inv in Ha. destruct o as [i|].
  - assert (map snd (alter (λ e : loc * AnyEnum, (e.1, v)) i l) = alter (λ _, v) i (map snd l)) as Hm.
    { apply list_fmap_alter. by apply Forall_true. }
    apply (container_sound h p t (View.HT l) _ v); try done.
    + intros b Hb. apply list_elem_of_fmap in Hb as (e & [= ->] & He). apply list_elem_of_lookup in He as [j Hj].
      destruct (decide (i = j)) as [<-|Hij].
      * rewrite list_lookup_alter_eq in Hj. destruct (l !! i) as [e'|]; [|done]. injection Hj as <-. by left.
      * rewrite list_lookup_alter_ne in Hj by done. right. apply list_elem_of_fmap. exists e.
        split; [done|]. by eapply list_elem_of_lookup_2.
    + rewrite !slot_values_HT, Hm. apply count_f64s_alter.
  - apply (container_sound h p t (View.HT l) _ v); try done.
    + intros b Hb. apply list_elem_of_fmap in Hb as (e & [= ->] & He). rewrite (rehash_permutation _) in He.
      apply elem_of_cons in He as [->|He]; [by left|right]. apply list_elem_of_fmap. by exists e.
    + rewrite !slot_values_HT. rewrite (rehash_permutation ((x, v) :: l)). apply count_f64s_cons.
Qed.
End writes.

(** *** New objects *)
Lemma raw_done h bytes b o h' : sound h → request h bytes b → alloc_raw h bytes b = (o, h') →
  match o with
  | Some p => allocated h b p h' ∧ sound h' ∧ (∀ q c, mem h !! q = Some c → mem h' !! q = Some c)
  | None => h' = h
  end.
Proof.
  intros Hs Hreq. unfold alloc_raw. destruct (_ <? _); intros [= <- <-]; [done|].
  assert (allocated h b (malloc (mem h)) (add_block h (malloc (mem h)) bytes b)) as Ha
    by (apply add_block_allocated; [apply Hs|reflexivity|done]).
  split; [exact Ha|]. split; [apply (preserves_sound h); [done|apply Ha|apply Ha]|].
  intros q c Hq. cbn. rewrite lookup_insert_ne; [done|]. intros <-. by rewrite malloc_fresh in Hq.
Qed.

(** An object without properties. *)
Definition new_object (h : Heap) (p d : loc) : Prop :=
  mem h !! p = Some (mkBlock (with_type TT.ObjectPtrPtr) (View.ObjectPtrPtr d)) ∧
  mem h !! d = Some (mkBlock (object_tag 0) (View.Class [])).

Lemma alloc_object_done h o h' : sound h → alloc_object h 0 = Ok (o, h') →
  sound h' ∧ preserves h h' ∧ match o with Some p => ∃ d, new_object h' p d | None => True end.
Proof.
  intros Hs. pose proof (obj_classes _ (snd_objects _ Hs)) as ((c & Hc & Hsz) & _).
  assert (request h (tag_size h + object_data_size 0) (mkBlock (object_tag 0) (View.Class (replicate (Z.to_nat 0) None)))) as Hreq.
  { pose proof (alloc_object_data_request h 0 c Hc ltac:(lia)) as Hreq. by rewrite Hsz in Hreq. }
  unfold alloc_object, alloc_object_data, heap_class_size, get_class_size, get_class.
  change (classes h !! Z.to_nat 0) with (classes h !! O). rewrite Hc. cbn [expect mbind comp_bind]. rewrite Hsz. unfold alloc_slice. destruct (alloc_raw _ _ _) as [[d|] h1] eqn:Hd.
  - apply raw_done in Hd as (Ha & Hs1 & Hm); [|done..].
    cbn [mbind comp_bind]. unfold alloc. destruct (alloc_raw h1 _ _) as [[p|] h2] eqn:Hp; intros [= <- <-].
    + apply raw_done in Hp as (Ha2 & Hs2 & Hm2); [|done|by apply (alloc_request h1 (View.ObjectPtrPtr d))].
      split; [done|]. split; [etrans; [apply Ha|apply Ha2]|]. exists d. split; [apply Ha2|]. apply Hm2, Ha.
    + apply raw_done in Hp as ->; [|done|by apply (alloc_request h1 (View.ObjectPtrPtr d))]. split; [done|]. split; [apply Ha|done].
  - apply raw_done in Hd as ->; [|done..].
    intros [= <- <-]. split; [done|]. by split.
Qed.

Lemma object_empty_done h p h' : sound h → object_empty h = Ok (p, h') →
  sound h' ∧ preserves h h' ∧ ∃ d, new_object h' p d.
Proof.
  intros Hs. unfold object_empty, alloc_object_or_gc, or_gc.
  destruct (alloc_object h 0) as [[[q|] h1]| |] eqn:Ha; cbn [mbind comp_bind]; [| |done..].
  - intros [= <- <-]. by apply (alloc_object_done h (Some q)) in Ha.
  - apply alloc_object_done in Ha as (Hs1 & Hp1 & _); [|done].
    destruct (gc h1) as [h2| |] eqn:Hgc; cbn [mbind comp_bind]; [|done..].
    destruct (gc_sound h1 h2 Hs1 Hgc) as [Hs2 Hp2].
    destruct (alloc_object h2 0) as [[[q|] h3]| |] eqn:Ha; cbn [mbind comp_bind expect]; [|done..].
    intros [= <- <-]. apply alloc_object_done in Ha as (Hs3 & Hp3 & Hn); [|done].
    split; [done|]. split; [|done]. by do 2 (etrans; [eassumption|]).
Qed.

Lemma object_sound h p h1 slot h' : sound h → object_empty h = Ok (p, h1) →
  set_any_in_current_shadow_frame_slot h1 (Any.Ptr p) slot = Ok h' → sound h'.
Proof.
  intros Hs (Hs1 & _ & d & Hp & Hd)%object_empty_done (ss & -> & Hr)%set_any_slot; [|done].
  pose proof (obj_classes _ (snd_objects _ Hs1)) as ((c & Hc & Hsz) & _).
  assert (keys c = []) as Hk.
  { destruct (class_ok_in h1 (snd_objects _ Hs1) c) as (Hoff & _); [by eapply list_elem_of_lookup_2|].
    apply nil_length_inv. pose proof (size_keys _ _ Hoff). lia. }
  assert (block_ptrs (classes h1) (mkBlock (object_tag 0) (View.Class [])) = []) as Hnil.
  { transitivity (match classes h1 !! O with Some c => keys c | None => [] end); [done|]. by rewrite Hc. }
  apply (rooted_sound h1 _ [p; d]); [done| |].
  - eexists. split; [done|]. intros q [?|Hq]%Hr; [by left|right; right]. cbn in Hq. apply list_elem_of_singleton in Hq as ->. by left.
  - intros q [->| ->%list_elem_of_singleton]%elem_of_cons; eexists; (split; [eassumption|]).
    + split; [intros q ->%list_elem_of_singleton; right; right; by left|]. split; [done|]. split; [|done].
      intros d' [= <-]. by eexists _, _.
    + split; [|split; [done|]].
      * intros q Hq. rewrite Hnil in Hq. by apply elem_of_nil in Hq.
      * split; [done|]. by intros l [= <-].
Qed.

(** *** New closures *)
Lemma env_init_done env t fn_obj items h garbage h' :
  mem h !! env = Some (mkBlock t (View.Env garbage fn_obj)) → length garbage = length items →
  env_init env h items = Ok h' → h' = store env (mkBlock t (View.Env items fn_obj)) h.
Proof.
  assert (∀ pre items rest h, mem h !! env = Some (mkBlock t (View.Env (pre ++ rest) fn_obj)) → length rest = length items →
    foldM (λ h iv, env_init_at h env iv.1 iv.2) h (zip (seq (length pre) (length items)) items) =
    Ok (store env (mkBlock t (View.Env (pre ++ items) fn_obj)) h)) as Hgen.
  { clear. intros pre items. revert pre. induction items as [|v items IH]; intros pre [|r rest] h He Hl; try discriminate Hl.
    - cbn. by rewrite (store_id _ _ _ He).
    - cbn [length seq zip zip_with foldM fst snd]. unfold env_init_at at 2, as_env, deref. rewrite He. cbn [mbind comp_bind data].
      assert ((length pre <? length (pre ++ r :: rest))%nat = true) as -> by (apply Nat.ltb_lt; rewrite length_app; cbn; lia).
      rewrite insert_app_r_alt, Nat.sub_diag by done. cbn [mbind comp_bind].
      specialize (IH (pre ++ [v]) rest (store env (mkBlock t (View.Env (pre ++ v :: rest) fn_obj)) h)).
      rewrite length_app, Nat.add_1_r, <- !app_assoc, store_store in IH. apply IH; [|by injection Hl].
      rewrite mem_store, decide_True by done. done. }
  intros He Hl Hi. unfold env_init in Hi. rewrite (Hgen [] items garbage) in Hi by done. by injection Hi as <-.
Qed.

Lemma closure_sound h garbage items fn_obj func env h1 h2 slot h' :
  sound h → length garbage = length items → plain h (mkBlock (with_type TT.Env) (View.Env items fn_obj)) →
  alloc_env_or_gc h garbage fn_obj = Ok (env, h1) → env_init env h1 items = Ok h2 →
  set_closure_in_current_shadow_frame_slot h2 (closure_new env func) slot = Ok h' → sound h'.
Proof.
  intros Hs Hl [Hz Hp] [[Hok1 Hpr Henv Hfresh _] Hs1]%alloc_env_done; [|done].
  intros ->%(env_init_done _ _ _ _ _ _ _ Henv Hl) (ss & -> & Hr)%set_current_slot.
  set (b := mkBlock _ _) in *. assert (¬ reachable h1 env) as Hfresh1 by (by rewrite (pres_reachable _ _ Hpr)).
  assert (mem (set_shadow_stack ss (store env b h1)) !! env = Some b) as Hb by (cbn; apply lookup_insert_eq).
  assert (∀ q, q ≠ env → mem (set_shadow_stack ss (store env b h1)) !! q = mem h1 !! q) as Hne
    by (intros q Hq; cbn; by apply lookup_insert_ne).
  apply (advance_sound h1 _ [env]); try done.
  - assert (heap_wf (store env b h1)) as Hwf; [|split; apply Hwf].
    eapply store_wf; [apply Hok1|exact Henv|done|by intros [s ?]|by split|]. cbn. by rewrite Hl.
  - intros q Hq. apply Hne. intros ->. apply Hq. by left.
  - intros q (_ & c & s & Hc & Hd). apply Hne. intros ->. rewrite Henv in Hc. by injection Hc as <-.
  - intros q [Hq|[= ->]]%Hr; [left; by apply held_root|right; by left].
  - intros q ->%list_elem_of_singleton. exists b. split; [done|]. split; [|split; [|by apply object_block_simple]].
    + intros q Hq. left. left. apply (pres_reachable _ _ Hpr), Hp.
      destruct (pres_frame _ _ Hpr) as (<- & _). done.
    + intros i q Hi. by apply f64s_zero in Hi.
  - intros q c l ->%list_elem_of_singleton Hc Hd. rewrite Henv in Hc. by injection Hc as <-.
  - intros q ->%list_elem_of_singleton. right. unfold f64s_at. by rewrite Hb.
  - intros l Hnd Hall. rewrite (sum_over_ext _ (f64s_at h1)); [by apply Hok1|]. intros q Hq. rewrite Forall_forall in Hall.
    unfold f64s_at. rewrite Hne; [done|]. intros ->. by apply Hfresh1, Hall.
Qed.

(** *** Other new data, and strings *)
Lemma data_sound h b p h1 slot h' : sound h1 → allocated h b p h1 → simple (data b) → plain h b →
  set_any_in_current_shadow_frame_slot h1 (Any.Ptr p) slot = Ok h' → sound h'.
Proof.
  intros Hs [_ Hpr Hb _ _] Hsimple [Hz Hp] (ss & -> & Hr)%set_any_slot. apply (rooted_sound h1 _ [p]); [done| |].
  - eexists. split; [done|]. intros q [?|Hq]%Hr; [by left|right; by right].
  - intros q ->%list_elem_of_singleton. exists b. split; [done|]. split; [|split; [done|by apply object_block_simple]].
    intros q Hq. left. left. apply (pres_reachable _ _ Hpr), Hp. destruct (pres_frame _ _ Hpr) as (<- & _). done.
Qed.

(** *** Properties *)
Lemma object_set_sound h o d x s v w cache h' :
  sound h → reachable h o → object_data h o = Ok d → static h x → name_at h x = Some s →
  (∀ q, q ∈ value_ptrs v → reachable h q) → (∀ q, v = Any.F64 q → in_current (f64_allocator h) q) →
  has_room h d s v → object_set h o x v (-1) = Ok (w, cache, h') → sound h'.
Proof.
  intros [Hok Hobj] Ho Hd Hx Hxs Hv Hcur [Hcs Hfl Hm] Hset. unfold object_data, deref in Hd.
  destruct (mem h !! o) as [bo|] eqn:Hbo; [|done]. cbn in Hd.
  destruct (data bo) as [?|?|?|?|?|d'|? ?|?|?|?] eqn:Hdo; try discriminate Hd. injection Hd as ->.
  edestruct (set_updated h Hok Hobj o d bo Ho Hbo Hdo x s v) as (cache' & h1 & Hset' & _ & []); try eassumption.
  rewrite Hset in Hset'. injection Hset' as -> -> ->. by split.
Qed.

(** *** The start *)
Lemma start_sound size constants : sound (start size constants).
Proof.
  assert (∀ p, ¬ reachable (start size constants) p) as Hnone.
  { intros p. induction 1 as [p Hp|]; [|done]. by apply elem_of_nil in Hp. }
  assert (∀ p b, mem (start size constants) !! p = Some b → ∃ s, b = mkBlock (with_type TT.String) (View.String s)) as Hmem.
  { intros p b Hb. cbn in Hb. rewrite lookup_fmap in Hb. destruct (constants !! p) as [s|]; [|done].
    injection Hb as <-. by exists s. }
  split; [split; [split| | |]|split]; cbn [start set_mem new f64_allocator alloc_list classes used_mem]; try done.
  - constructor.
  - by intros p ?%elem_of_nil.
  - intros p b (s & ->)%Hmem _. by exists s.
  - intros p b (s & ->)%Hmem. by split.
  - split; [by intros p ?%Hnone|by intros p b i q ?%Hnone].
  - intros [|p l] _ Hl; [done|]. apply Forall_cons in Hl as [?%Hnone _]. done.
  - split; [by exists new_class|]. split; [done|]. constructor; [|constructor].
    split; [|split; constructor]. split; [done|]. split; [done|constructor].
  - intros c x ->%list_elem_of_singleton Hx. by apply elem_of_nil in Hx.
  - by intros o b d ?%Hnone.
  - by intros o b d ?%Hnone.
Qed.

Lemma step_sound h h' : step h h' → sound h → sound h'.
Proof.
  destruct 1 as [h n|h|h v slot h' Hv Hset|h v slot h' Hv Hset|h h' Hgc|h s p h1 slot h' Ha Hset
    |h v p h1 slot h' Hb Hsimple Hp Ha Hset|h p h1 slot h' Ha Hset|h garbage items fn_obj func env h1 h2 slot h' Hl Hp Ha Hi Hset
    |h p i v h1 w h' Hr Ho Hroom Hset|h p v h1 n h' Hr Ho Hroom Hset|h p x v h1 w h' Hr Ho Hroom Hset
    |h o d x s v h1 w cache h' Hr Ho Hd Hx Hxs Hroom Hset]; intros Hs.
  - by apply frames_sound.
  - by apply (frames_sound h 0).
  - apply (rooted_sound h h' []); [done| |by intros p ?%elem_of_nil]. apply set_any_slot in Hset as (ss & ? & Hr).
    exists ss. split; [done|]. intros q [?|?]%Hr; [by left|right; left; by apply Hv].
  - apply (rooted_sound h h' []); [done| |by intros p ?%elem_of_nil]. apply set_any_global in Hset as (ss & ? & Hr).
    exists ss. split; [done|]. intros q [?|?]%Hr; [by left|right; left; by apply Hv].
  - by eapply gc_sound.
  - apply alloc_str_done in Ha as [Ha Hs1]; [|done]. apply (data_sound h _ p h1 slot h' Hs1 Ha); [done| |done].
    split; [done|by intros q ?%elem_of_nil].
  - apply alloc_done in Ha as [Ha Hs1]; [|done|done]. by apply (data_sound h _ p h1 slot h' Hs1 Ha).
  - by eapply object_sound.
  - by eapply closure_sound.
  - destruct (operand_ok _ _ _ Hs Ho) as (Hs1 & Hpr & Hv & Hf). eapply array_set_sound; try done. by apply (pres_reachable _ _ Hpr).
  - destruct (operand_ok _ _ _ Hs Ho) as (Hs1 & Hpr & Hv & Hf). eapply array_push_sound; try done. by apply (pres_reachable _ _ Hpr).
  - destruct (operand_ok _ _ _ Hs Ho) as (Hs1 & Hpr & Hv & Hf). eapply ht_set_sound; try done. by apply (pres_reachable _ _ Hpr).
  - destruct (operand_ok _ _ _ Hs Ho) as (Hs1 & Hpr & Hv & Hf). eapply object_set_sound; try done. by apply (pres_reachable _ _ Hpr).
Qed.

Lemma reached_sound h : reached h → sound h.
Proof.
  intros (size & constants & Hsteps). pose proof (start_sound size constants) as Hs.
  induction Hsteps as [|h1 h2 h3 Hstep _ IH]; [done|]. by apply IH, (step_sound h1).
Qed.

Lemma read_current a p : f64_ok a → in_current a p → is_Some (F64.read a p).
Proof.
  intros [Hc _ Hn] [Hs Hr]. unfold F64.read. rewrite bool_decide_true, Hs, eqb_reflx by lia.
  apply lookup_lt_is_Some_2. unfold F64.LEN in *. lia.
Qed.

(** ** Nothing is lost *)

(** C2: a program that makes the runtime's calls with values it can reach, and
    that leaves room for its floats and properties, never breaks the heap: in
    every state it can get to, from a memory with its string constants and
    through calls and returns, collections, allocations, writes to arrays and
    tables and new properties, the invariants of the heap and of the objects
    hold; what can be reached is there, at the type of its tag, points to
    what is there, and its floats can be read. *)
Theorem runtime_safe h : reached h →
  heap_ok h ∧ objects_ok h ∧
  ∀ p, reachable h p → ∃ b, mem h !! p = Some b ∧ view_at h p = Ok (data b) ∧
    (∀ q, q ∈ block_ptrs (classes h) b → is_Some (mem h !! q)) ∧
    ∀ i q, View.slots (data b) !! i = Some (Some (Any.F64 q)) → ∃ x, read_f64 h q = Ok x.
Proof.
  intros [Hok Hobj]%reached_sound. split; [done|]. split; [done|]. intros p Hp.
  destruct (closed_ptrs _ (ok_closed _ Hok) p Hp) as [b Hb]. exists b. split; [done|]. split; [|split].
  - unfold view_at, deref. rewrite Hb. cbn [mbind comp_bind]. eapply view_ok, wf_blocks, Hb. apply Hok.
  - intros q Hq. apply (closed_ptrs _ (ok_closed _ Hok)). by eapply reachable_step.
  - intros i q Hi. apply (closed_f64s _ (ok_closed _ Hok) p b i q Hp Hb) in Hi.
    destruct (read_current _ _ (wf_f64 _ (ok_wf _ Hok)) Hi) as [x Hx]. exists x. unfold read_f64. by rewrite Hx.
Qed.

(** ** The program can always go on *)

(** The blocks that could be reached are there, with the same contents. *)
Definition keeps (h h' : Heap) : Prop :=
  ∀ q b, reachable h q → mem h !! q = Some b → ∃ b', mem h' !! q = Some b' ∧
    resolve (f64_allocator h') <$> data b' = resolve (f64_allocator h) <$> data b.
Lemma preserves_keeps h h' : preserves h h' → keeps h h'.
Proof. intros Hp q b Hq Hb. destruct (pres_block _ _ Hp q b Hq Hb) as (b' & ? & _ & _ & ?). by exists b'. Qed.

(** The current frame has the slot. *)
Definition has_slot (h : Heap) (slot : nat) : Prop := ∃ fr, last (shadow_stack h) = Some fr ∧ (slot < length fr)%nat.
Lemma set_any_ok h p slot : has_slot h slot → is_Some (mem h !! p) →
  ∃ ss, set_any_in_current_shadow_frame_slot h (Any.Ptr p) slot = Ok (set_shadow_stack ss h) ∧
    reachable (set_shadow_stack ss h) p.
Proof.
  intros (fr & Hfr & Hs) [b Hb]. unfold set_any_in_current_shadow_frame_slot, any_root, insert_ptr, get_ptr, deref.
  rewrite Hb. cbn [mbind comp_bind app last]. unfold set_in_current_shadow_frame_slot, set_in_shadow_frame_slot.
  rewrite last_lookup in Hfr. destruct (shadow_stack h) as [|f l] eqn:Hst; [done|]. cbn [length Nat.pred] in *.
  rewrite Hfr. cbn [expect mbind comp_bind]. apply Nat.ltb_lt in Hs as Hs'. rewrite Hs'. eexists. split; [done|].
  apply reachable_root, roots_spec. exists (<[slot := Some p]> fr). split; eapply list_elem_of_lookup_2.
  - apply list_lookup_insert_eq. by eapply lookup_lt_Some.
  - by apply list_lookup_insert_eq.
Qed.
Lemma preserves_slot h h' slot : preserves h h' → has_slot h slot → has_slot h' slot.
Proof. intros Hp. destruct (pres_frame _ _ Hp) as (_ & Hs & _). unfold has_slot. by rewrite Hs. Qed.

Lemma live_fits_preserves h h1 n : sound h → sound h1 → preserves h h1 →
  (∀ p, p ∈ alloc_list h1 → reachable h p → p ∈ alloc_list h) → live_fits h n → live_fits h1 n.
Proof.
  intros [Hok _] [Hok1 _] Hp Hin Hl l Hnd Hall. pose proof (pres_frame _ _ Hp) as (Hcs & _ & -> & Hts).
  assert (∀ p, p ∈ l → p ∈ alloc_list h ∧ reachable h p) as Hall'.
  { intros p [Ha Hr%(pres_reachable _ _ Hp)]%Hall. auto. }
  rewrite (sum_over_ext _ (block_size h)); [by apply Hl|]. intros p [_ Hr]%Hall'.
  destruct (closed_ptrs _ (ok_closed _ Hok) p Hr) as [b Hb].
  destruct (pres_block _ _ Hp p b Hr Hb) as (b' & Hb' & ? & ? & Hres).
  eapply block_size_moved; try done; [by eapply wf_blocks; [apply Hok|]|by eapply resolve_shape].
Qed.

(** Memory for the data of an empty object, and for the object. *)
Definition object_data_bytes (h : Heap) : Z := tag_size h + object_data_size 0.
Definition object_bytes (h : Heap) : Z := object_data_bytes h + (tag_size h + type_size (View.ObjectPtrPtr null)).
Definition object_fits (h : Heap) : Prop := live_fits h (object_data_bytes h) ∧ live_fits h (object_bytes h).

Lemma alloc_object_eq h : sound h →
  alloc_object h 0 = Ok (match alloc_raw h (object_data_bytes h) (mkBlock (object_tag 0) (View.Class [])) with
                         | (None, h) => (None, h)
                         | (Some d, h) => alloc h (View.ObjectPtrPtr d)
                         end).
Proof.
  intros Hs. pose proof (obj_classes _ (snd_objects _ Hs)) as ((c & Hc & Hsz) & _).
  unfold alloc_object, alloc_object_data, heap_class_size, get_class_size, get_class.
  change (classes h !! Z.to_nat 0) with (classes h !! O). rewrite Hc. cbn [expect mbind comp_bind]. rewrite Hsz.
  unfold alloc_slice. change (replicate (Z.to_nat 0) (@None AnyEnum)) with (@nil (option AnyEnum)).
  fold (object_data_bytes h). by destruct (alloc_raw h _ _) as [[d|] h1].
Qed.

Lemma alloc_object_room h : sound h → used_mem h + object_data_bytes h <= size h → used_mem h + object_bytes h <= size h →
  ∃ p h', alloc_object h 0 = Ok (Some p, h').
Proof.
  intros Hs H1 H2. rewrite alloc_object_eq, alloc_raw_room by done. unfold alloc. rewrite alloc_raw_room; [by eexists _, _|].
  unfold object_bytes in H2. cbn [used_mem add_block set_allocated tag_size size].
  change (type_size (View.ObjectPtrPtr (malloc (mem h)))) with (type_size (View.ObjectPtrPtr null)). lia.
Qed.

Lemma object_empty_succeeds h : sound h → object_fits h → ∃ p h', object_empty h = Ok (p, h').
Proof.
  intros Hs [Hl1 Hl2]. unfold object_empty, alloc_object_or_gc, or_gc.
  destruct (alloc_object h 0) as [[o h1]|e|msg] eqn:Ha; cbn [mbind comp_bind]; [|by rewrite alloc_object_eq in Ha..].
  destruct o as [p|]; [by eexists _, _|]. pose proof (alloc_object_done h None h1 Hs Ha) as (Hs1 & Hp1 & _).
  assert (∀ p, p ∈ alloc_list h1 → reachable h p → p ∈ alloc_list h) as Hin.
  { rewrite alloc_object_eq in Ha by done. unfold alloc, alloc_raw at 1 in Ha. destruct (_ <? _); [by injection Ha as <-|].
    unfold alloc_raw in Ha. destruct (_ <? _); [|done]. injection Ha as <-. intros p [->|?]%elem_of_cons Hr; [|done].
    destruct (closed_ptrs _ (ok_closed _ (snd_heap _ Hs)) _ Hr) as [b Hb]. by rewrite malloc_fresh in Hb. }
  pose proof (pres_frame _ _ Hp1) as (_ & _ & _ & Ht1).
  assert (∀ n, live_fits h n → live_fits h1 n) as Hlf by (intros n; by apply live_fits_preserves).
  destruct Hs1 as [[Hwf1 Hcl1 Hfit1 ?] Hobj1]. destruct (gc_heap_ok h1 Hwf1 Hcl1 Hfit1) as (h2 & Hgc & Hc & Hok2 & Hp2).
  rewrite Hgc. cbn [mbind comp_bind]. pose proof (pres_frame _ _ Hp2) as (_ & _ & _ & Ht2).
  assert (sound h2) as Hs2 by (apply (gc_sound h1); [by split|done]).
  destruct (alloc_object_room h2) as (p & h3 & ->); [done|..|by eexists _, _];
    apply (collected_room h1 h2); try done; unfold object_data_bytes, object_bytes in *; unfold object_data_bytes;
    rewrite Ht2, Ht1; by apply Hlf.
Qed.

(** C3: memory that is not used any more can always be had again.  In every
    state a program can get to, a collection is possible, and leaves of the
    allocated blocks exactly those that can be reached; and for every slot of
    the current frame, a string, an array or an object for which what can be
    reached leaves room, however full the memory is of blocks that cannot,
    can be allocated into the slot, while the contents of what could be
    reached are kept. *)
Theorem runtime_live h : reached h →
  (∃ h', gc h = Ok h' ∧ step h h' ∧ keeps h h' ∧ ∀ p, p ∈ alloc_list h' ↔ p ∈ alloc_list h ∧ reachable h p) ∧
  ∀ slot, has_slot h slot →
    (∀ s, live_fits h (string_bytes h s) →
       ∃ p h', step h h' ∧ keeps h h' ∧ reachable h' p ∧ str_at h' p = Ok s) ∧
    (live_fits h (array_bytes h) →
       ∃ p t h', step h h' ∧ keeps h h' ∧ reachable h' p ∧ array_at h' p = Ok (t, [])) ∧
    (object_fits h →
       ∃ p d h', step h h' ∧ keeps h h' ∧ reachable h' p ∧ object_data h' p = Ok d ∧ ∀ s, own h' d s = None).
Proof.
  intros Hs%reached_sound. pose proof (snd_heap _ Hs) as Hok. split; [|intros slot Hslot; split; [|split]].
  - destruct (gc_heap_ok h (ok_wf _ Hok) (ok_closed _ Hok) (ok_fit _ Hok)) as (h' & Hgc & Hc & _ & Hp). exists h'.
    split; [done|]. split; [by apply step_gc|]. split; [by apply preserves_keeps|apply Hc].
  - intros s Hl. destruct (alloc_new_string h s Hok Hl) as (p & h1 & Ha & Hstr%view_at_string & _ & Hp & _).
    destruct (set_any_ok h1 p slot) as (ss & Hset & Hr); [by apply (preserves_slot h)|..].
    { unfold str_at, deref in Hstr. by destruct (mem h1 !! p). }
    exists p, (set_shadow_stack ss h1). split; [by eapply step_string|]. split; [by apply (preserves_keeps h h1)|]. by split.
  - intros Hl. destruct (alloc_array h [] Hok Hl) as (p & h1 & Ha & Hat & [_ Hp Hb _ _]).
    destruct (set_any_ok h1 p slot) as (ss & Hset & Hr); [by apply (preserves_slot h)|done|].
    exists p, (with_type TT.Array), (set_shadow_stack ss h1). split; [|split; [by apply (preserves_keeps h h1)|split; [done|exact Hat]]].
    apply (step_alloc h (View.Array []) p h1 slot); try done. split; [done|by intros q ?%elem_of_nil].
  - intros Hl. destruct (object_empty_succeeds h Hs Hl) as (p & h1 & Ha).
    destruct (object_empty_done h p h1 Hs Ha) as (Hs1 & Hp & d & Hb & Hd).
    destruct (set_any_ok h1 p slot) as (ss & Hset & Hr); [by apply (preserves_slot h)|done|].
    exists p, d, (set_shadow_stack ss h1). split; [by eapply step_object|]. split; [by apply (preserves_keeps h h1)|]. split; [done|]. split.
    + unfold object_data, deref. cbn. by rewrite Hb.
    + intros s. unfold own. cbn. rewrite Hd. cbn. destruct (class_at _ _) as [c|]; [|done]. cbn.
      by destruct (position _ c s).
Qed.
End runtime.

Lemma floats_room_check `{Rust} h live n :
  closed_check h live = true → sum_over (f64s_at h) live + n < F64.LEN → floats_room h n.
Proof.
  intros Hc Hs l Hnd Hl. eapply Z.le_lt_trans; [apply Z.add_le_mono_r, (sum_over_incl _ l live)|done]; [|done|].
  - intros p. unfold f64s_at, block_f64s. destruct (mem h !! p); lia.
  - intros p Hp. rewrite Forall_forall in Hl. by eapply closed_check_reachable, Hl.
Qed.

(** ** A program *)
Module Demo.
#[local] Existing Instance wasm32.
#[local] Instance debug : Platform := build true.
Definition heap_of {A} (r : rt (A * Heap)) : Heap := match r with Ok (_, h) => h | _ => new 0 end.
Definition rooted (slot : nat) (r : rt (loc * Heap)) : Heap :=
  heap_of ('(p, h) ← r; h ← set_any_in_current_shadow_frame_slot h (Any.Ptr p) slot; Ok (p, h)).

(** An array in slot 0 with a float and an object, which is in slot 1 and has
    its property "x" (a constant, at 100) set to 7, and the memory full of
    arrays that were in slot 2. *)
Definition h0 : Heap := start 100 {[100 := "x"%string]}.
Definition h1 : Heap := gc_enter_fn h0 3.
Definition h2 : Heap := rooted 0 (array_new h1).
Definition h3 : Heap := heap_of (f64_to_any h2 (S754_finite false 3 0)).
Definition h4 : Heap := heap_of (array_push h3 101 (Any.F64 (mkF64ptr false 0))).
Definition h5 : Heap := rooted 1 (object_empty h4).
Definition h6 : Heap := heap_of (object_set h5 103 100 (Any.I32 7) (-1)).
Definition h7 : Heap := heap_of (array_push h6 101 (Any.Ptr 103)).
Definition h8 : Heap := rooted 2 (array_new h7).
Definition h9 : Heap := rooted 2 (array_new h8).

Lemma array_step h slot h' : ('(p, h) ← array_new h; set_any_in_current_shadow_frame_slot h (Any.Ptr p) slot) = Ok h' → step h h'.
Proof.
  destruct (array_new h) as [[p h1]| |] eqn:Ha; intros Hset; [|done..].
  apply (step_alloc h (View.Array []) p h1 slot); try done. split; [done|by intros q ?%elem_of_nil].
Qed.
Lemma object_step h slot h' : ('(p, h) ← object_empty h; set_any_in_current_shadow_frame_slot h (Any.Ptr p) slot) = Ok h' → step h h'.
Proof. destruct (object_empty h) as [[p h1]| |] eqn:Ha; intros Hset; [|done..]. by apply (step_object h p h1 slot). Qed.

Lemma steps : rtc step h0 h9.
Proof.
  apply (rtc_l _ _ h1); [apply step_enter|].
  apply (rtc_l _ _ h2); [apply (array_step _ 0); vm_compute; reflexivity|].
  apply (rtc_l _ _ h4).
  { apply (step_array_push h2 101 (Any.F64 (mkF64ptr false 0)) h3 1).
    - apply reachable_root. apply (bool_decide_unpack _). vm_compute. exact I.
    - apply (operand_f64 _ (S754_finite false 3 0)). vm_compute. reflexivity.
    - apply (floats_room_check h3 [101]); vm_compute; reflexivity.
    - vm_compute. reflexivity. }
  apply (rtc_l _ _ h5); [apply (object_step _ 1); vm_compute; reflexivity|].
  apply (rtc_l _ _ h6).
  { apply (step_object_set h5 103 102 100 "x" (Any.I32 7) h5 (Any.I32 7) (-1)).
    - apply reachable_root. apply (bool_decide_unpack _). vm_compute. exact I.
    - apply operand_value; [done|by intros q ?%elem_of_nil].
    - vm_compute. reflexivity.
    - split; [apply (bool_decide_unpack _); vm_compute; exact I|]. eexists _, "x"%string. split; vm_compute; reflexivity.
    - vm_compute. reflexivity.
    - split; [vm_compute; reflexivity|apply (floats_room_check h5 [101; 103; 102]); vm_compute; reflexivity|].
      intros bytes _. split; [|done]. apply (live_fits_check h5 [101; 103; 102]); vm_compute; [reflexivity|discriminate].
    - vm_compute. reflexivity. }
  apply (rtc_l _ _ h7).
  { apply (step_array_push h6 101 (Any.Ptr 103) h6 2).
    - apply reachable_root. apply (bool_decide_unpack _). vm_compute. exact I.
    - apply operand_value; [done|]. intros q ->%list_elem_of_singleton. apply reachable_root.
      apply (bool_decide_unpack _). vm_compute. exact I.
    - apply (floats_room_check h6 [101; 103; 104; 100]); vm_compute; reflexivity.
    - vm_compute. reflexivity. }
  apply (rtc_l _ _ h8); [apply (array_step _ 2); vm_compute; reflexivity|].
  apply (rtc_l _ _ h9); [apply (array_step _ 2); vm_compute; reflexivity|apply rtc_refl].
Qed.
Lemma demo : reached h9.
Proof. exists 100, {[100 := "x"%string]}. exact steps. Qed.
End Demo.

Lemma runtime_safe_witness :
  let _ := wasm32 in let _ := build true in
  reached Demo.h9 ∧ ∃ x, read_f64 Demo.h9 (mkF64ptr false 0) = Ok x.
Proof.
  split; [exact Demo.demo|].
  destruct (@runtime_safe wasm32 (build true) Demo.h9 Demo.demo) as (_ & _ & Hsafe).
  destruct (Hsafe 101) as (b & Hb & _ & _ & Hf).
  - apply reachable_root. apply (bool_decide_unpack _). vm_compute. exact I.
  - apply (Hf 0%nat (mkF64ptr false 0)).
    assert (data b = View.Array [Any.F64 (mkF64ptr false 0); Any.Ptr 103]) as ->; [|reflexivity].
    vm_compute in Hb. injection Hb as <-. reflexivity.
Defined.

(** The memory is full but for 28 bytes, and 40 are asked for. *)
Lemma runtime_live_witness :
  let _ := wasm32 in let _ := build true in
  used_mem Demo.h9 = 72 ∧
  ∃ p h', step Demo.h9 h' ∧ keeps Demo.h9 h' ∧ reachable h' p ∧ str_at h' p = Ok "a string that needs a collection"%string.
Proof.
  split; [vm_compute; reflexivity|].
  destruct (@runtime_live wasm32 (build true) Demo.h9 Demo.demo) as [_ Hslot].
  destruct (Hslot 2%nat) as [Hstr _].
  - exists [Some 101; Some 103; Some 106]. split; [vm_compute; reflexivity|cbn; lia].
  - apply Hstr. apply (live_fits_check Demo.h9 [101; 103; 106; 104; 100]); vm_compute; [reflexivity|discriminate].
Defined.
