(* ===== verification/Inspect.v ===== *)
(** What the runtime offers beside the calls of compiled code: its start
    ([wasm32.rs], [static_strings.rs]), collections on demand, dumps and
    histograms of the heap ([allocator/mod.rs]), and closures with an arity
    ([closure.rs]), which nothing uses. *)
From S2P Require Import Prelude.
From S2P Require Import ClassList.
From S2P Require Import Heap.
From S2P Require Import Gc.
From S2P Require Import Alloc.
From S2P Require Import Objects.
From S2P Require Import ObjectsOk.
From S2P Require Import Values.
From S2P Require Import Runtime.

Section inspect.
Context `{Rust} `{Platform}.

(** [mkstr32]: a string that is leaked. *)
Definition mkstr32 (h : Heap) (s : string) : loc * Heap :=
  let p := malloc (mem h) in (p, store p (mkBlock (with_type TT.String) (View.String s)) h).
(** [init], and that of [static_strings.rs]. *)
Definition static_strings_init (h : Heap) : StaticStrings * Heap :=
  let '(p, h) := mkstr32 h "__proto__" in
  let '(q, h) := mkstr32 h "prototype" in
  (mkStaticStrings p q, h).
Definition init : StaticStrings * Heap := static_strings_init (new 536870912).

(** [run_gc], called by programs. *)
Definition run_gc (h : Heap) (env : loc) (this : AnyEnum) : rt (AnyEnum * Heap) :=
  h ← gc h; Ok (Any.Undefined, h).

(** [heap_dump]: a collection that logs the blocks it marks. *)
Abbreviation dump := (list (loc * HeapRefView)).
Definition dump_root (s : (Heap * list loc) * dump) (root : loc) : rt ((Heap * list loc) * dump) :=
  let '((h, new_roots), log) := s in
  b ← deref h root;
  if marked (tag b) then Ok ((h, new_roots), log)
  else
    let h := store root (set_marked true b) h in
    v ← view_at h root;
    '(tags, f64s) ← get_gc_ptrs h root;
    h ← foldM (relocate root) h f64s;
    Ok ((h, new_roots ++ tags), log ++ [(root, v)]).
Fixpoint dump_loop (fuel : nat) (h : Heap) (current_roots : list loc) (log : dump) : rt (Heap * dump) :=
  match current_roots with
  | [] => Ok (h, log)
  | _ =>
      match fuel with
      | O => Panic "out of fuel"
      | S fuel =>
          '((h, new_roots), log) ← foldM dump_root ((h, []), log) current_roots;
          dump_loop fuel h new_roots log
      end
  end.
Definition heap_dump (h : Heap) : rt (dump * Heap) :=
  let h := set_f64_allocator (F64.semispace_swap (f64_allocator h)) h in
  '(h, log) ← dump_loop (mark_fuel h) h (roots h) [];
  h ← sweep_phase h; Ok (log, h).

(** [AllocList::histogram]: how many blocks there are of each size. *)
Definition count_size (h : Heap) (m : gmap Z nat) (p : loc) : rt (gmap Z nat) :=
  n ← get_data_size h p; Ok (<[n := S (default O (m !! n))]> m).
Definition histogram (h : Heap) : rt (gmap Z nat) := foldM (count_size h) ∅ (alloc_list h).
Definition mem_info (h : Heap) : rt AnyEnum := histogram h;; Ok Any.Undefined.

(** [AnyClosure]. *)
Record AnyClosure := mkAnyClosure { any_closure_ptr : loc; any_closure_func : Z; any_closure_arity : Z }.
Definition any_closure_new (ptr : loc) (func arity : Z) : AnyClosure := mkAnyClosure ptr func arity.

(** ** The start *)

(** A program starts in a heap of [Runtime.start], with the names that the
    runtime uses itself. *)
Theorem init_correct :
  reached init.2 ∧
  (static init.2 (__proto__ init.1) ∧ name_at init.2 (__proto__ init.1) = Some "__proto__") ∧
  (static init.2 (prototype init.1) ∧ name_at init.2 (prototype init.1) = Some "prototype").
Proof.
  set (p := malloc (∅ : Mem)). set (b s := mkBlock (with_type TT.String) (View.String s)).
  set (q := malloc (<[p := b "__proto__"]> (∅ : Mem))).
  assert (q ≠ p) as Hqp.
  { intros Hq. pose proof (malloc_fresh (<[p := b "__proto__"]> (∅ : Mem))) as Hf. fold q in Hf.
    by rewrite Hq, lookup_insert_eq in Hf. }
  assert (init = (mkStaticStrings p q, start 536870912 (<[q := "prototype"]> {[p := "__proto__"]}))) as ->.
  { unfold init, static_strings_init, mkstr32, start, store, set_mem. cbn. fold (b "__proto__") (b "prototype") p. fold q.
    by rewrite fmap_insert, map_fmap_singleton. }
  cbn [fst snd __proto__ prototype]. set (h := start _ _).
  assert (mem h !! p = Some (b "__proto__") ∧ mem h !! q = Some (b "prototype")) as [Hp Hq].
  { unfold h. cbn. rewrite !lookup_fmap, lookup_insert_eq, lookup_insert_ne, lookup_singleton_eq by done. done. }
  split; [by exists 536870912, (<[q := "prototype"]> {[p := "__proto__"]})|].
  assert (∀ x s, mem h !! x = Some (b s) → static h x ∧ name_at h x = Some s) as Hstatic; [|by split; apply Hstatic].
  intros x s Hx. split; [split; [by intros ?%elem_of_nil|]; by exists (b s), s|].
  unfold name_at, str_at, deref. by rewrite Hx.
Qed.

(** ** Dumps *)
Lemma marked_store m p b q : marked_in (<[p := b]> m) q = if decide (p = q) then marked (tag b) else marked_in m q.
Proof. unfold marked_in. rewrite lookup_insert. by destruct (decide (p = q)). Qed.

Lemma relocate_marks root ixs h h' : foldM (relocate root) h ixs = Ok h' → ∀ p, marked_in (mem h') p = marked_in (mem h) p.
Proof.
  revert h. induction ixs as [|i ixs IH]; intros h; cbn; [by intros [= <-]|].
  destruct (relocate root h i) as [h1| |] eqn:Hr; cbn; [|done..]. intros H1 p. rewrite (IH h1 H1).
  unfold relocate, deref in Hr. destruct (mem h !! root) as [b|] eqn:Hb; [|done]. cbn in Hr.
  destruct (View.slots (data b) !! i) as [[[]|]|]; try done. destruct (F64.read _ _); [|done].
  destruct (F64.alloc _ _) as [[[r|] a]| |]; cbn in Hr; try done. injection Hr as <-. cbn. rewrite marked_store.
  case_decide as Hp; [subst; unfold marked_in; by rewrite Hb|done].
Qed.

(** What was marked, and what was logged. *)
Definition logged (m0 : Mem) (m : Mem) (log : dump) : Prop :=
  NoDup log.*1 ∧ (∀ p, p ∈ log.*1 → marked_in m0 p = false) ∧
  ∀ p, marked_in m p = true ↔ marked_in m0 p = true ∨ p ∈ log.*1.

(** A step of the dump is a step of the collector. *)
Lemma dump_root_step m0 h nr log root s' :
  logged m0 (mem h) log → mark_root (h, nr) root = Ok s' →
  ∃ log', dump_root ((h, nr), log) root = Ok (s', log') ∧ logged m0 (mem s'.1) log'.
Proof.
  intros Hl. unfold mark_root, dump_root. destruct (deref h root) as [b| |] eqn:Hb; cbn [mbind comp_bind]; [|done..].
  unfold deref in Hb. destruct (mem h !! root) as [b'|] eqn:Hm; [|done]. injection Hb as ->.
  destruct (marked (tag b)) eqn:Hmk; [intros [= <-]; by exists log|].
  set (h1 := store root _ h). destruct (get_gc_ptrs h1 root) as [[tags f64s]| |] eqn:Hg; cbn [mbind comp_bind]; [|done..].
  assert (∃ v, view_at h1 root = Ok v) as [v Hv].
  { unfold get_gc_ptrs in Hg. unfold view_at. destruct (deref h1 root) as [c| |]; cbn [mbind comp_bind] in *; [|done..].
    destruct (view c) as [v| |]; [by exists v|done..]. }
  rewrite Hv. cbn [mbind comp_bind]. 
  destruct (foldM (relocate root) h1 f64s) as [h2| |] eqn:Hr; cbn [mbind comp_bind]; [|done..]. intros [= <-].
  eexists. split; [done|]. cbn [fst]. destruct Hl as (Hnd & Hun & Hmarks).
  assert (marked_in (mem h) root = false) as Hroot by (unfold marked_in; by rewrite Hm).
  assert (¬ (marked_in m0 root = true ∨ root ∈ log.*1)) as Hnot by (rewrite <- Hmarks, Hroot; done).
  unfold logged. rewrite fmap_app. cbn [fmap list_fmap fst]. split; [|split].
  - apply NoDup_app. split; [done|]. split; [|apply NoDup_singleton]. intros p Hp ->%list_elem_of_singleton. apply Hnot. by right.
  - intros p [Hp| ->%list_elem_of_singleton]%elem_of_app; [auto|]. destruct (marked_in m0 root); [|done]. destruct Hnot. by left.
  - intros p. rewrite (relocate_marks _ _ _ _ Hr). unfold h1. cbn [mem store set_mem]. rewrite marked_store, elem_of_app, list_elem_of_singleton.
    case_decide as Hp; [subst; cbn; naive_solver|]. rewrite Hmarks. naive_solver.
Qed.
Lemma dump_round m0 work h nr log s' :
  logged m0 (mem h) log → foldM mark_root (h, nr) work = Ok s' →
  ∃ log', foldM dump_root ((h, nr), log) work = Ok (s', log') ∧ logged m0 (mem s'.1) log'.
Proof.
  revert h nr log. induction work as [|root work IH]; intros h nr log Hl; cbn [foldM].
  - intros [= <-]. by exists log.
  - destruct (mark_root (h, nr) root) as [[h1 nr1]| |] eqn:Hm; cbn [mbind comp_bind]; [|done..]. intros Hf.
    destruct (dump_root_step m0 h nr log root (h1, nr1) Hl Hm) as (log1 & -> & Hl1). cbn [mbind comp_bind]. by apply IH.
Qed.
Lemma dump_loop_ok m0 fuel h work log h' :
  logged m0 (mem h) log → mark_loop fuel h work = Ok h' → ∃ log', dump_loop fuel h work log = Ok (h', log') ∧ logged m0 (mem h') log'.
Proof.
  revert h work log. induction fuel as [|fuel IH]; intros h [|p work] log Hl; cbn [mark_loop dump_loop];
    [intros [= <-]; by exists log|done|intros [= <-]; by exists log|].
  destruct (foldM mark_root (h, []) (p :: work)) as [[h1 nr1]| |] eqn:Hm; cbn [mbind comp_bind]; [|done..]. intros Hf.
  destruct (dump_round m0 (p :: work) h [] log (h1, nr1) Hl Hm) as (log1 & -> & Hl1). cbn [mbind comp_bind]. by apply IH.
Qed.

(** In a heap that a program can get to, a dump is a collection, and its log
    has every allocated block that can be reached, once, and no other. *)
Theorem heap_dump_correct h : reached h → ∃ log h', heap_dump h = Ok (log, h') ∧ gc h = Ok h' ∧
  NoDup log.*1 ∧ ∀ p, p ∈ alloc_list h → p ∈ log.*1 ↔ reachable h p.
Proof.
  intros [Hok _]%reached_sound. pose proof Hok as [Hwf Hcl Hfit _].
  destruct (mark_phase_ok h Hwf Hcl Hfit) as (h1 & visited & Hmark & Hi & Hvis & _).
  destruct (gc_heap_ok h Hwf Hcl Hfit) as (h' & Hgc & _). pose proof Hgc as Hgc'. unfold gc in Hgc'. rewrite Hmark in Hgc'. cbn in Hgc'.
  assert (logged (mem (swapped h)) (mem (swapped h)) []) as Hl0.
  { split; [constructor|]. split; [by intros p ?%elem_of_nil|]. intros p. split; [by left|]. intros [?|?%elem_of_nil]; done. }
  destruct (dump_loop_ok _ _ _ _ [] h1 Hl0 Hmark) as (log & Hd & Hnd & Hun & Hmarks). exists log, h'.
  split.
  { change (dump_loop (mark_fuel (swapped h)) (swapped h) (roots h) [] = Ok (h1, log)) in Hd.
    transitivity ('(h, log) ← dump_loop (mark_fuel (swapped h)) (swapped h) (roots h) []; h ← sweep_phase h; Ok (log, h)); [done|].
    rewrite Hd. cbn [mbind comp_bind]. by rewrite Hgc'. }
  split; [done|]. split; [done|]. intros p Hp. rewrite <- Hvis by done.
  destruct (wf_alloc _ Hwf p Hp) as (b & Hb & Hm).
  destruct (marked_heap_block h h1 visited p b Hi Hb) as (b1 & Hb1 & _ & _ & _ & Hv & Hnv).
  assert (marked_in (mem (swapped h)) p = false) as Hm0 by (unfold marked_in; cbn; by rewrite Hb).
  assert (p ∈ log.*1 ↔ marked_in (mem h1) p = true) as -> by (rewrite Hmarks, Hm0; naive_solver).
  unfold marked_in. rewrite Hb1. destruct (decide (p ∈ visited)) as [Hin|Hin].
  - by destruct (Hv Hin) as [-> _].
  - rewrite (Hnv Hin), Hm. split; [done|]. by intros ?.
Qed.
End inspect.
