(* ===== verification/NotWasm.v ===== *)
(** The abstract syntax of NotWasm ([notwasm/syntax.rs]), its constructors
    ([notwasm/constructors.rs]) and the traversal of programs
    ([notwasm/walk.rs]). *)
From S2P Require Import Prelude Types Operators.

Module W.
Inductive Label : Type :=
  | Named (s : string)
  | App (n : Z).
#[global] Instance Label_eq_dec : EqDecision Label.
Proof. solve_decision. Defined.

Inductive Lit : Type :=
  | LBool (b : bool)
  | LI32 (i : Z)
  | LF64 (f : f64)
  | LString (s : string)
  | LInterned (s : string) (pos : Z)
  | LUndefined
  | LNull.
#[global] Instance Lit_eq_dec : EqDecision Lit.
Proof. solve_decision. Defined.

(** [Lit::notwasm_typ]. *)
Definition lit_typ (l : Lit) : N.typ :=
  match l with
  | LBool _ => N.Bool
  | LI32 _ => N.I32
  | LF64 _ => N.F64
  | LString _ => N.String
  | LInterned _ _ => N.String
  | LUndefined => N.Any
  | LNull => N.Any
  end.

(** [Atom]; the record [ToAny] is unfolded. *)
Inductive Atom : Type :=
  | ALit (l : Lit) (s : Pos)
  | PrimApp (prim : Id) (args : list Atom) (s : Pos)
  | ToAny (atom : Atom) (ty : option N.typ) (s : Pos)
  | FromAny (a : Atom) (ty : N.typ) (s : Pos)
  | FloatToInt (a : Atom) (s : Pos)
  | IntToFloat (a : Atom) (s : Pos)
  | ObjectGet (obj field : Atom) (s : Pos)
  | AnyLength (obj : Id) (length : Lit) (s : Pos)
  | AId (x : Id) (s : Pos)
  | GetPrimFunc (x : Id) (s : Pos)
  | Unary (op : UnaryOp) (a : Atom) (s : Pos)
  | Binary (op : BinaryOp) (l r : Atom) (s : Pos)
  | Deref (a : Atom) (ty : N.typ) (s : Pos)
  | EnvGet (index : Z) (ty : N.typ) (s : Pos).

Inductive Expr : Type :=
  | ArraySet (arr idx val : Atom) (s : Pos)
  | Call (f : Id) (args : list Id) (s : Pos)
  | ClosureCall (f : Id) (args : list Id) (s : Pos)
  | AnyMethodCall (obj : Id) (method : Lit) (args : list Id) (tys : list N.typ) (s : Pos)
  | PrimCall (prim : RTS.RTSFunction) (args : list Id) (s : Pos)
  | ObjectEmpty
  | ObjectSet (obj field val : Atom) (s : Pos)
  | NewRef (a : Atom) (ty : N.typ) (s : Pos)
  | EAtom (a : Atom) (s : Pos)
  | Closure (f : Id) (env : list (Atom * N.typ)) (s : Pos).

Record VarStmt := mkVarStmt { var_id : Id; var_named : Expr; var_ty : option N.typ }.

Inductive Stmt : Type :=
  | Empty
  | Var (v : VarStmt) (s : Pos)
  | Expression (e : Expr) (s : Pos)
  | Assign (x : Id) (e : Expr) (s : Pos)
  | Store (x : Id) (e : Expr) (s : Pos)
  | If (c : Atom) (t e : Stmt) (s : Pos)
  | Loop (body : Stmt) (s : Pos)
  | Lbl (l : Label) (body : Stmt) (s : Pos)
  | Break (l : Label) (s : Pos)
  | Return (a : Atom) (s : Pos)
  | Block (ss : list Stmt) (s : Pos)
  | Trap
  | Goto (l : Label) (s : Pos).

Record Global := mkGlobal { is_mut : bool; global_ty : N.typ; global_atom : option Atom }.
Record Function := mkFunction {
  fn_body : Stmt; fn_type : N.FnType; fn_params : list Id; fn_span : Pos }.
(** The hash tables of a program, in their order of iteration. *)
Record Program := mkProgram {
  rts_fn_imports : list (string * N.typ);
  functions : list (Id * Function);
  globals : list (Id * Global);
  prog_data : list Z
}.

(** [ToAny::new] and [ToAny::set_ty]: setting the type twice panics. *)
Definition to_any_new (a : Atom) (s : Pos) : Atom := ToAny a None s.
Definition to_any_set_ty {E} (old : option N.typ) (ty : N.typ) : comp E (option N.typ) :=
  match old with
  | None => Ok (Some ty)
  | Some _ => Panic "called set_typ twice on ToAny"
  end.
(** [VarStmt::new], [VarStmt::set_ty] and [VarStmt::ty]. *)
Definition var_new (x : Id) (e : Expr) : VarStmt := mkVarStmt x e None.
Definition var_set_ty {E} (v : VarStmt) (ty : N.typ) : comp E VarStmt :=
  match var_ty v with
  | None => Ok (mkVarStmt (var_id v) (var_named v) (Some ty))
  | Some existing_ty =>
      if decide (existing_ty = ty) then Ok v
      else Panic "Calculated type of variable does not match type annotation"
  end.

(** [Atom::pos]. *)
Definition atom_pos (a : Atom) : Pos :=
  match a with
  | ALit _ p | PrimApp _ _ p | ToAny _ _ p | FromAny _ _ p | FloatToInt _ p | IntToFloat _ p
  | ObjectGet _ _ p | AnyLength _ _ p | AId _ p | GetPrimFunc _ p | Unary _ _ p | Binary _ _ _ p
  | Deref _ _ p | EnvGet _ _ p => p
  end.

(** [HashMap::extend], on tables in order of iteration. *)
Definition extend {K V} `{EqDecision K} (m other : list (K * V)) : list (K * V) :=
  base.filter (λ e, e.1 ∉ other.*1) m ++ other.

(** [Program::merge_in]. *)
Definition merge_in {E} (p other : Program) : comp E Program :=
  assert "can't merge data segments" (bool_decide (prog_data other = []));;
  Ok (mkProgram (extend (rts_fn_imports p) (rts_fn_imports other))
        (extend (functions p) (functions other)) (extend (globals p) (globals other)) (prog_data p)).

(** ** Induction on atoms and statements *)

Section Atom_ind'.
Context (P : Atom → Prop)
  (HLit : ∀ l s, P (ALit l s))
  (HPrimApp : ∀ prim args s, Forall P args → P (PrimApp prim args s))
  (HToAny : ∀ a ty s, P a → P (ToAny a ty s))
  (HFromAny : ∀ a ty s, P a → P (FromAny a ty s))
  (HFloatToInt : ∀ a s, P a → P (FloatToInt a s))
  (HIntToFloat : ∀ a s, P a → P (IntToFloat a s))
  (HObjectGet : ∀ o f s, P o → P f → P (ObjectGet o f s))
  (HAnyLength : ∀ o l s, P (AnyLength o l s))
  (HId : ∀ x s, P (AId x s))
  (HGetPrimFunc : ∀ x s, P (GetPrimFunc x s))
  (HUnary : ∀ op a s, P a → P (Unary op a s))
  (HBinary : ∀ op l r s, P l → P r → P (Binary op l r s))
  (HDeref : ∀ a ty s, P a → P (Deref a ty s))
  (HEnvGet : ∀ i ty s, P (EnvGet i ty s)).
Fixpoint Atom_ind' (a : Atom) : P a :=
  match a with
  | ALit l s => HLit l s
  | PrimApp prim args s => HPrimApp prim args s
      ((fix go l := match l return Forall P l with
                    | [] => Forall_nil_2 P
                    | a :: l => Forall_cons_2 P a l (Atom_ind' a) (go l)
                    end) args)
  | ToAny a ty s => HToAny a ty s (Atom_ind' a)
  | FromAny a ty s => HFromAny a ty s (Atom_ind' a)
  | FloatToInt a s => HFloatToInt a s (Atom_ind' a)
  | IntToFloat a s => HIntToFloat a s (Atom_ind' a)
  | ObjectGet o f s => HObjectGet o f s (Atom_ind' o) (Atom_ind' f)
  | AnyLength o l s => HAnyLength o l s
  | AId x s => HId x s
  | GetPrimFunc x s => HGetPrimFunc x s
  | Unary op a s => HUnary op a s (Atom_ind' a)
  | Binary op l r s => HBinary op l r s (Atom_ind' l) (Atom_ind' r)
  | Deref a ty s => HDeref a ty s (Atom_ind' a)
  | EnvGet i ty s => HEnvGet i ty s
  end.
End Atom_ind'.

Section Stmt_ind'.
Context (P : Stmt → Prop)
  (HEmpty : P Empty)
  (HVar : ∀ v s, P (Var v s))
  (HExpression : ∀ e s, P (Expression e s))
  (HAssign : ∀ x e s, P (Assign x e s))
  (HStore : ∀ x e s, P (Store x e s))
  (HIf : ∀ c t e s, P t → P e → P (If c t e s))
  (HLoop : ∀ b s, P b → P (Loop b s))
  (HLbl : ∀ l b s, P b → P (Lbl l b s))
  (HBreak : ∀ l s, P (Break l s))
  (HReturn : ∀ a s, P (Return a s))
  (HBlock : ∀ ss s, Forall P ss → P (Block ss s))
  (HTrap : P Trap)
  (HGoto : ∀ l s, P (Goto l s)).
Fixpoint Stmt_ind' (st : Stmt) : P st :=
  match st with
  | Empty => HEmpty
  | Var v s => HVar v s
  | Expression e s => HExpression e s
  | Assign x e s => HAssign x e s
  | Store x e s => HStore x e s
  | If c t e s => HIf c t e s (Stmt_ind' t) (Stmt_ind' e)
  | Loop b s => HLoop b s (Stmt_ind' b)
  | Lbl l b s => HLbl l b s (Stmt_ind' b)
  | Break l s => HBreak l s
  | Return a s => HReturn a s
  | Block ss s => HBlock ss s
      ((fix go l := match l return Forall P l with
                    | [] => Forall_nil_2 P
                    | a :: l => Forall_cons_2 P a l (Stmt_ind' a) (go l)
                    end) ss)
  | Trap => HTrap
  | Goto l s => HGoto l s
  end.
End Stmt_ind'.
End W.
