(* ===== verification/NotWasmTyping.v ===== *)
(** The type checker of NotWasm ([notwasm/type_checking.rs]), and the typing
    relation it decides. *)
From S2P Require Import Prelude Types Operators NotWasm.

(** ** The checker *)

Record Env := mkEnv { env : gmap Id N.typ; imports : gmap Id N.typ }.

(** The texts of the errors are left out. *)
Inductive TypeCheckingError : Type :=
  | NoSuchVariable (x : Id) (s : Pos)
  | TypeMismatch (expected got : N.typ) (s : Pos)
  | ExpectedFunction (x : Id) (got : N.typ) (s : Pos)
  | ExpectedHT (got : N.typ) (s : Pos)
  | ExpectedArray (got : N.typ) (s : Pos)
  | ExpectedRef (got : N.typ) (s : Pos)
  | UnexpectedReturn (got : N.typ) (s : Pos)
  | ArityMismatch (x : Id) (expected got : nat) (s : Pos)
  | MultiplyDefined (x : Id) (s : Pos)
  | InvalidInContext (got : N.typ) (s : Pos)
  | Other (s : Pos).
Abbreviation tc := (comp TypeCheckingError).

(** [Env::new]: the runtime functions. *)
Definition rt_env : gmap Id N.typ := kmap Types.Named RtBindings.bindings.
Definition env_new : Env := mkEnv rt_env rt_env.
Definition env_get (Γ : Env) (x : Id) : option N.typ := env Γ !! x.
Definition env_insert (Γ : Env) (x : Id) (t : N.typ) : Env := mkEnv (<[x := t]> (env Γ)) (imports Γ).

Definition lookup_id (Γ : Env) (x : Id) (s : Pos) : tc N.typ :=
  match env_get Γ x with Some t => Ok t | None => Err (NoSuchVariable x s) end.

Definition ensure (expected got : N.typ) (s : Pos) : tc N.typ :=
  if decide (expected = got) then Ok got else Err (TypeMismatch expected got s).

Definition ensure_ref (got : N.typ) (s : Pos) : tc N.typ :=
  match got with N.Ref ty => Ok ty | _ => Err (ExpectedRef got s) end.

Definition assert_variant_of_any (ty : N.typ) (s : Pos) : tc unit :=
  match ty with
  | N.Any => Err (InvalidInContext ty s)
  | N.I32 | N.F64 | N.Bool | N.String => Ok tt
  | N.Fn args _ => match args with N.Env :: _ => Ok tt | _ => Err (Other s) end
  | N.Closure _ _ => Ok tt
  | N.HT | N.Array | N.DynObject => Ok tt
  | N.Ref _ => Err (InvalidInContext ty s)
  | N.Env => Err (InvalidInContext ty s)
  | N.Ptr => Ok tt
  end.

(** The checker returns the type and the atom with its annotations. *)
Fixpoint type_check_atom (Γ : Env) (a : W.Atom) : tc (N.typ * W.Atom) :=
  match a with
  | W.Deref a ty s =>
      '(t, a) ← type_check_atom Γ a;
      t ← ensure_ref t s;
      t ← ensure ty t s;
      Ok (t, W.Deref a ty s)
  | W.ALit l s => Ok (W.lit_typ l, a)
  | W.PrimApp prim args s =>
      ty ← lookup_id Γ prim s;
      '(expected_arg_ts, ret_t) ← N.unwrap_fun ty;
      ret_t ← expect "primtive function that returns a value" ret_t;
      r ← mapM (type_check_atom Γ) args;
      if decide (length (r.*1) ≠ length expected_arg_ts) then Err (Other s)
      else if decide (r.*1 ≠ expected_arg_ts) then Err (Other s)
      else Ok (ret_t, W.PrimApp prim (r.*2) s)
  | W.ToAny atom oty s =>
      '(ty, atom) ← type_check_atom Γ atom;
      assert_variant_of_any ty s;;
      oty ← W.to_any_set_ty oty ty;
      Ok (N.Any, W.ToAny atom oty s)
  | W.FromAny a ty s =>
      '(got, a) ← type_check_atom Γ a;
      ensure N.Any got s;;
      Ok (ty, W.FromAny a ty s)
  | W.FloatToInt a s =>
      '(got, a) ← type_check_atom Γ a; ensure N.F64 got s;; Ok (N.I32, W.FloatToInt a s)
  | W.IntToFloat a s =>
      '(got, a) ← type_check_atom Γ a; ensure N.I32 got s;; Ok (N.F64, W.IntToFloat a s)
  | W.AId x s => t ← lookup_id Γ x s; Ok (t, a)
  | W.GetPrimFunc x s => t ← lookup_id Γ x s; Ok (t, a)
  | W.ObjectGet obj field s =>
      '(got_obj, obj) ← type_check_atom Γ obj;
      '(got_field, field) ← type_check_atom Γ field;
      ensure N.String got_field s;;
      ensure N.DynObject got_obj s;;
      Ok (N.Any, W.ObjectGet obj field s)
  | W.AnyLength obj l s =>
      got_obj ← lookup_id Γ obj s;
      ensure N.Any got_obj s;;
      Ok (N.Any, a)
  | W.Unary op a s =>
      '(ty_in, ty_out) ← unop_notwasm_typ op true;
      '(got, a) ← type_check_atom Γ a;
      ensure ty_in got s;;
      Ok (ty_out, W.Unary op a s)
  | W.Binary PtrEq l r s =>
      '(got_l, l) ← type_check_atom Γ l;
      '(got_r, r) ← type_check_atom Γ r;
      ensure got_l got_r s;;
      Ok (N.Bool, W.Binary PtrEq l r s)
  | W.Binary op l r s =>
      '(ty_in, ty_out) ← binop_notwasm_typ op true;
      '(got_l, l) ← type_check_atom Γ l;
      '(got_r, r) ← type_check_atom Γ r;
      ensure ty_in got_l s;;
      ensure ty_in got_r s;;
      Ok (ty_out, W.Binary op l r s)
  | W.EnvGet _ ty _ => Ok (ty, a)
  end.

(** The loop of [type_check_call] over formals and actuals. *)
Fixpoint check_args (Γ : Env) (actuals : list Id) (formals : list N.typ) (s : Pos) : tc unit :=
  match actuals, formals with
  | x :: actuals, t :: formals =>
      got ← lookup_id Γ x s; ensure t got s;; check_args Γ actuals formals s
  | _, _ => Ok tt
  end.

Definition type_check_call (Γ : Env) (f : Id) (actuals : list Id) (args : list N.typ)
    (result : option N.typ) (implicit_arg : bool) (s : Pos) : tc N.typ :=
  let actuals_len := (length actuals + if implicit_arg then 1 else 0)%nat in
  if decide (actuals_len ≠ length args) then Err (ArityMismatch f actuals_len (length args) s)
  else
    formals ←
      (if implicit_arg then
         match args with
         | N.Env :: rest => Ok rest
         | got :: _ => Err (TypeMismatch N.Env got s)
         | [] => Panic "unreachable"
         end
       else Ok args);
    check_args Γ actuals formals s;;
    Ok (default N.Any result).

(** A call to a runtime function that is not an import. *)
Definition type_check_prim_call (Γ : Env) (prim : RTS.RTSFunction) (args : list Id) (s : Pos) : tc N.typ :=
  ty ← RTS.janky_typ prim;
  ty ← notwasm_typ ty false;
  match ty with
  | N.Fn fn_args fn_result =>
      arg_tys ← mapM (λ a, lookup_id Γ a s) args;
      if decide (length arg_tys ≠ length fn_args) then Err (Other s)
      else if decide (arg_tys ≠ fn_args) then Err (Other s)
      else Ok (default N.Any fn_result)
  | _ => Err (Other s)
  end.

Definition type_check_expr (Γ : Env) (e : W.Expr) : tc (N.typ * W.Expr) :=
  match e with
  | W.ObjectEmpty => Ok (N.DynObject, e)
  | W.ArraySet arr idx val s =>
      '(got_arr, arr) ← type_check_atom Γ arr;
      '(got_idx, idx) ← type_check_atom Γ idx;
      '(got_val, val) ← type_check_atom Γ val;
      ensure N.I32 got_idx s;;
      (* the results of the other two checks are dropped *)
      let _ := ensure N.Array got_arr s in
      let _ := ensure N.Any got_val s in
      Ok (N.Any, W.ArraySet arr idx val s)
  | W.ObjectSet obj field val s =>
      '(got_obj, obj) ← type_check_atom Γ obj;
      '(got_field, field) ← type_check_atom Γ field;
      '(got_val, val) ← type_check_atom Γ val;
      ensure N.DynObject got_obj s;;
      ensure N.String got_field s;;
      ensure N.Any got_val s;;
      Ok (N.Any, W.ObjectSet obj field val s)
  | W.PrimCall (RTS.Import name) args s =>
      ty ← ok_or (Other s) (imports Γ !! Types.Named name);
      '(arg_tys, opt_ret_ty) ← N.unwrap_fun ty;
      ret_ty ← ok_or (Other s) opt_ret_ty;
      if decide (length arg_tys ≠ length args) then Err (Other s)
      else
        foldM (λ _ p, got_ty ← lookup_id Γ p.2 s;
                      if decide (p.1 ≠ got_ty) then Err (Other s) else Ok tt) tt (zip arg_tys args);;
        Ok (ret_ty, e)
  | W.PrimCall prim args s => t ← type_check_prim_call Γ prim args s; Ok (t, e)
  | W.Call f actuals s =>
      got_f ← lookup_id Γ f s;
      match got_f with
      | N.Fn args result => t ← type_check_call Γ f actuals args result false s; Ok (t, e)
      | _ => Err (ExpectedFunction f got_f s)
      end
  | W.AnyMethodCall obj _ actuals _ s =>
      t ← lookup_id Γ obj s;
      ensure N.Any t s;;
      foldM (λ _ a, t ← lookup_id Γ a s; ensure N.Any t s;; Ok tt) tt actuals;;
      Ok (N.Any, e)
  | W.ClosureCall f actuals s =>
      got_f ← lookup_id Γ f s;
      match got_f with
      | N.Closure args result => t ← type_check_call Γ f actuals args result true s; Ok (t, e)
      | _ => Err (ExpectedFunction f got_f s)
      end
  | W.NewRef a ty s =>
      '(actual, a) ← type_check_atom Γ a;
      ensure ty actual s;;
      Ok (N.Ref ty, W.NewRef a ty s)
  | W.EAtom a s => '(t, a) ← type_check_atom Γ a; Ok (t, W.EAtom a s)
  | W.Closure f _ s =>
      t ← lookup_id Γ f s;
      match t with
      | N.Fn args result => Ok (N.Closure args result, e)
      | got => Err (ExpectedFunction f got s)
      end
  end.

(** The pattern for a declaration without a value. *)
Definition is_undefined (e : W.Expr) : bool :=
  match e with W.EAtom (W.ALit W.LUndefined _) _ => true | _ => false end.

Definition type_check_var (Γ : Env) (v : W.VarStmt) : tc (Env * W.VarStmt) :=
  '(ty, named) ← type_check_expr Γ (W.var_named v);
  let v := W.mkVarStmt (W.var_id v) named (W.var_ty v) in
  v ← (if is_undefined named && bool_decide (is_Some (W.var_ty v)) then Ok v
       else
         assert "assertion failed" (bool_decide (W.var_ty v = None) || bool_decide (W.var_ty v = Some ty));;
         W.var_set_ty v ty);
  if decide (W.var_id v = Types.Named "_") then Ok (Γ, v)
  else
    ty ← expect "called unwrap on a None value" (W.var_ty v);
    Ok (env_insert Γ (W.var_id v) ty, v).

Fixpoint type_check_stmt (Γ : Env) (st : W.Stmt) (ret_ty : option N.typ) : tc (Env * W.Stmt) :=
  match st with
  | W.Empty => Ok (Γ, st)
  | W.Var v s => '(Γ, v) ← type_check_var Γ v; Ok (Γ, W.Var v s)
  | W.Expression e s => '(_, e) ← type_check_expr Γ e; Ok (Γ, W.Expression e s)
  | W.Store x e s =>
      got_id ← lookup_id Γ x s;
      '(got_expr, e) ← type_check_expr Γ e;
      type_pointed_to ← ensure_ref got_id s;
      ensure type_pointed_to got_expr s;;
      Ok (Γ, W.Store x e s)
  | W.Assign x e s =>
      got_id ← lookup_id Γ x s;
      '(got_expr, e) ← type_check_expr Γ e;
      ensure got_id got_expr s;;
      Ok (Γ, W.Assign x e s)
  | W.If c s_then s_else s =>
      '(got, c) ← type_check_atom Γ c;
      ensure N.Bool got s;;
      '(_, s_then) ← type_check_stmt Γ s_then ret_ty;
      '(_, s_else) ← type_check_stmt Γ s_else ret_ty;
      Ok (Γ, W.If c s_then s_else s)
  | W.Loop body s => '(_, body) ← type_check_stmt Γ body ret_ty; Ok (Γ, W.Loop body s)
  | W.Lbl l body s => '(_, body) ← type_check_stmt Γ body ret_ty; Ok (Γ, W.Lbl l body s)
  | W.Break _ _ => Ok (Γ, st)
  | W.Return a s =>
      '(got, a) ← type_check_atom Γ a;
      match ret_ty with
      | None => Err (UnexpectedReturn got s)
      | Some ret_ty => ensure ret_ty got s;; Ok (Γ, W.Return a s)
      end
  | W.Block ss s =>
      '(_, ss) ← (fix go Γ ss := match ss with
                   | [] => Ok (Γ, [])
                   | st :: ss =>
                       '(Γ, st) ← type_check_stmt Γ st ret_ty;
                       '(Γ, ss) ← go Γ ss; Ok (Γ, st :: ss)
                   end) Γ ss;
      Ok (Γ, W.Block ss s)
  | W.Trap => Ok (Γ, st)
  | W.Goto _ _ => Panic "not implemented"
  end.

Definition insert_params (Γ : Env) (ps : list (Id * N.typ)) : Env :=
  foldl (λ Γ p, env_insert Γ p.1 p.2) Γ ps.

Definition type_check_function (Γ : Env) (x : Id) (f : W.Function) : tc W.Function :=
  let args := N.args (W.fn_type f) in
  if decide (length args ≠ length (W.fn_params f))
  then Err (ArityMismatch x (length (W.fn_params f)) (length args) Unknown)
  else
    '(_, body) ← type_check_stmt (insert_params Γ (zip (W.fn_params f) args)) (W.fn_body f)
                   (N.result (W.fn_type f));
    Ok (W.mkFunction body (W.fn_type f) (W.fn_params f) (W.fn_span f)).

(** The phases of [type_check]. *)
Definition add_import (Γ : Env) (i : string * N.typ) : Env :=
  mkEnv (<[Types.Named i.1 := i.2]> (env Γ)) (<[Types.Named i.1 := i.2]> (imports Γ)).
Definition insert_new (Γ : Env) (x : Id) (t : N.typ) : tc Env :=
  match env_get Γ x with
  | Some _ => Err (MultiplyDefined x Unknown)
  | None => Ok (env_insert Γ x t)
  end.
Definition add_function (Γ : Env) (f : Id * W.Function) : tc Env :=
  insert_new Γ f.1 (N.to_type (W.fn_type f.2)).
Definition add_global (s : Env * list (Id * W.Global)) (g : Id * W.Global) :
    tc (Env * list (Id * W.Global)) :=
  let '(Γ, done) := s in
  let '(x, g) := g in
  atom ← match W.global_atom g with
         | Some a => '(got, a) ← type_check_atom Γ a; ensure (W.global_ty g) got Unknown;; Ok (Some a)
         | None => Ok None
         end;
  Γ ← insert_new Γ x (W.global_ty g);
  Ok (Γ, done ++ [(x, W.mkGlobal (W.is_mut g) (W.global_ty g) atom)]).

Definition type_check (p : W.Program) : tc W.Program :=
  let Γ := foldl add_import env_new (W.rts_fn_imports p) in
  Γ ← foldM add_function Γ (W.functions p);
  '(Γ, globals) ← foldM add_global (Γ, []) (W.globals p);
  functions ← mapM (λ f, f' ← type_check_function Γ f.1 f.2; Ok (f.1, f')) (W.functions p);
  Ok (W.mkProgram (W.rts_fn_imports p) functions globals (W.prog_data p)).

(** ** Typing, on annotated programs *)

(** A type whose values an [Any] can hold. *)
Definition variant_of_any (t : N.typ) : bool :=
  match t with
  | N.Any | N.Ref _ | N.Env => false
  | N.Fn args _ => match args with N.Env :: _ => true | _ => false end
  | _ => true
  end.

Section typing.
(** With [strict], an array is needed to set an element of an array, and the
    element is an [Any]; the checker does not ask for that. *)
Context (strict : bool).

Inductive atom_typed (Γ : Env) : W.Atom → N.typ → Prop :=
  | T_Lit l s : atom_typed Γ (W.ALit l s) (W.lit_typ l)
  | T_Id x s t : env_get Γ x = Some t → atom_typed Γ (W.AId x s) t
  | T_GetPrimFunc x s t : env_get Γ x = Some t → atom_typed Γ (W.GetPrimFunc x s) t
  | T_PrimApp prim args s ts t :
      env_get Γ prim = Some (N.Fn ts (Some t)) → Forall2 (atom_typed Γ) args ts →
      atom_typed Γ (W.PrimApp prim args s) t
  | T_ToAny a t s :
      atom_typed Γ a t → variant_of_any t = true → atom_typed Γ (W.ToAny a (Some t) s) N.Any
  | T_FromAny a t s : atom_typed Γ a N.Any → atom_typed Γ (W.FromAny a t s) t
  | T_FloatToInt a s : atom_typed Γ a N.F64 → atom_typed Γ (W.FloatToInt a s) N.I32
  | T_IntToFloat a s : atom_typed Γ a N.I32 → atom_typed Γ (W.IntToFloat a s) N.F64
  | T_ObjectGet o f s :
      atom_typed Γ o N.DynObject → atom_typed Γ f N.String → atom_typed Γ (W.ObjectGet o f s) N.Any
  | T_AnyLength o l s : env_get Γ o = Some N.Any → atom_typed Γ (W.AnyLength o l s) N.Any
  | T_Unary op a s i o :
      unop_notwasm_typ (E := TypeCheckingError) op true = Ok (i, o) → atom_typed Γ a i →
      atom_typed Γ (W.Unary op a s) o
  | T_PtrEq l r s t :
      atom_typed Γ l t → atom_typed Γ r t → atom_typed Γ (W.Binary PtrEq l r s) N.Bool
  | T_Binary op l r s i o :
      op ≠ PtrEq → binop_notwasm_typ (E := TypeCheckingError) op true = Ok (i, o) →
      atom_typed Γ l i → atom_typed Γ r i → atom_typed Γ (W.Binary op l r s) o
  | T_Deref a t s : atom_typed Γ a (N.Ref t) → atom_typed Γ (W.Deref a t s) t
  | T_EnvGet i t s : atom_typed Γ (W.EnvGet i t s) t.

Definition ids_typed (Γ : Env) : list Id → list N.typ → Prop := Forall2 (λ x t, env_get Γ x = Some t).

Inductive expr_typed (Γ : Env) : W.Expr → N.typ → Prop :=
  | T_ArraySet arr idx val s ta tv :
      atom_typed Γ arr ta → atom_typed Γ idx N.I32 → atom_typed Γ val tv →
      (strict = true → ta = N.Array ∧ tv = N.Any) →
      expr_typed Γ (W.ArraySet arr idx val s) N.Any
  | T_Call f args s ts r :
      env_get Γ f = Some (N.Fn ts r) → ids_typed Γ args ts →
      expr_typed Γ (W.Call f args s) (default N.Any r)
  | T_ClosureCall f args s ts r :
      env_get Γ f = Some (N.Closure (N.Env :: ts) r) → ids_typed Γ args ts →
      expr_typed Γ (W.ClosureCall f args s) (default N.Any r)
  | T_AnyMethodCall obj m args tys s :
      env_get Γ obj = Some N.Any → Forall (λ x, env_get Γ x = Some N.Any) args →
      expr_typed Γ (W.AnyMethodCall obj m args tys s) N.Any
  | T_Import name args s ts t :
      imports Γ !! Types.Named name = Some (N.Fn ts (Some t)) → ids_typed Γ args ts →
      expr_typed Γ (W.PrimCall (RTS.Import name) args s) t
  | T_PrimCall prim args s jt ts r :
      (∀ name, prim ≠ RTS.Import name) → RTS.janky_typ (E := TypeCheckingError) prim = Ok jt →
      notwasm_typ (E := TypeCheckingError) jt false = Ok (N.Fn ts r) → ids_typed Γ args ts →
      expr_typed Γ (W.PrimCall prim args s) (default N.Any r)
  | T_ObjectEmpty : expr_typed Γ W.ObjectEmpty N.DynObject
  | T_ObjectSet o f v s :
      atom_typed Γ o N.DynObject → atom_typed Γ f N.String → atom_typed Γ v N.Any →
      expr_typed Γ (W.ObjectSet o f v s) N.Any
  | T_NewRef a t s : atom_typed Γ a t → expr_typed Γ (W.NewRef a t s) (N.Ref t)
  | T_EAtom a s t : atom_typed Γ a t → expr_typed Γ (W.EAtom a s) t
  | T_Closure f atoms s ts r :
      env_get Γ f = Some (N.Fn ts r) → expr_typed Γ (W.Closure f atoms s) (N.Closure ts r).

(** A variable declared without a value may have any type. *)
Definition var_typed (Γ : Env) (v : W.VarStmt) (Γ' : Env) : Prop :=
  ∃ t t', expr_typed Γ (W.var_named v) t ∧ W.var_ty v = Some t' ∧
    (is_undefined (W.var_named v) = false → t' = t) ∧
    Γ' = if decide (W.var_id v = Types.Named "_") then Γ else env_insert Γ (W.var_id v) t'.

(** [ret] is the type of the result of the function. *)
Inductive stmt_typed (ret : option N.typ) : Env → W.Stmt → Env → Prop :=
  | T_Empty Γ : stmt_typed ret Γ W.Empty Γ
  | T_Var Γ v s Γ' : var_typed Γ v Γ' → stmt_typed ret Γ (W.Var v s) Γ'
  | T_Expression Γ e s t : expr_typed Γ e t → stmt_typed ret Γ (W.Expression e s) Γ
  | T_Assign Γ x e s t : env_get Γ x = Some t → expr_typed Γ e t → stmt_typed ret Γ (W.Assign x e s) Γ
  | T_Store Γ x e s t :
      env_get Γ x = Some (N.Ref t) → expr_typed Γ e t → stmt_typed ret Γ (W.Store x e s) Γ
  | T_If Γ c t e s Γ1 Γ2 :
      atom_typed Γ c N.Bool → stmt_typed ret Γ t Γ1 → stmt_typed ret Γ e Γ2 →
      stmt_typed ret Γ (W.If c t e s) Γ
  | T_Loop Γ b s Γ' : stmt_typed ret Γ b Γ' → stmt_typed ret Γ (W.Loop b s) Γ
  | T_Lbl Γ l b s Γ' : stmt_typed ret Γ b Γ' → stmt_typed ret Γ (W.Lbl l b s) Γ
  | T_Break Γ l s : stmt_typed ret Γ (W.Break l s) Γ
  | T_Return Γ a s t : ret = Some t → atom_typed Γ a t → stmt_typed ret Γ (W.Return a s) Γ
  | T_Block Γ ss s Γ' : stmts_typed ret Γ ss Γ' → stmt_typed ret Γ (W.Block ss s) Γ
  | T_Trap Γ : stmt_typed ret Γ W.Trap Γ
with stmts_typed (ret : option N.typ) : Env → list W.Stmt → Env → Prop :=
  | T_nil Γ : stmts_typed ret Γ [] Γ
  | T_cons Γ1 st Γ2 ss Γ3 :
      stmt_typed ret Γ1 st Γ2 → stmts_typed ret Γ2 ss Γ3 → stmts_typed ret Γ1 (st :: ss) Γ3.
End typing.

(** ** Annotations *)

(** Forget the annotations of the checker. *)
Fixpoint strip_atom (a : W.Atom) : W.Atom :=
  match a with
  | W.ToAny a _ s => W.ToAny (strip_atom a) None s
  | W.PrimApp p args s => W.PrimApp p (map strip_atom args) s
  | W.FromAny a t s => W.FromAny (strip_atom a) t s
  | W.FloatToInt a s => W.FloatToInt (strip_atom a) s
  | W.IntToFloat a s => W.IntToFloat (strip_atom a) s
  | W.ObjectGet o f s => W.ObjectGet (strip_atom o) (strip_atom f) s
  | W.Unary op a s => W.Unary op (strip_atom a) s
  | W.Binary op l r s => W.Binary op (strip_atom l) (strip_atom r) s
  | W.Deref a t s => W.Deref (strip_atom a) t s
  | W.ALit _ _ | W.AnyLength _ _ _ | W.AId _ _ | W.GetPrimFunc _ _ | W.EnvGet _ _ _ => a
  end.
(** The atoms of a closure's environment are not visited. *)
Definition strip_expr (e : W.Expr) : W.Expr :=
  match e with
  | W.ArraySet a i v s => W.ArraySet (strip_atom a) (strip_atom i) (strip_atom v) s
  | W.ObjectSet o f v s => W.ObjectSet (strip_atom o) (strip_atom f) (strip_atom v) s
  | W.NewRef a t s => W.NewRef (strip_atom a) t s
  | W.EAtom a s => W.EAtom (strip_atom a) s
  | e => e
  end.

(** [v'] is [v] with annotations filled in. *)
Definition annotates_var (v v' : W.VarStmt) : Prop :=
  W.var_id v = W.var_id v' ∧ W.var_named v = strip_expr (W.var_named v') ∧
  (W.var_ty v = W.var_ty v' ∨
   W.var_ty v = None ∧ (is_undefined (W.var_named v') = true → W.var_ty v' = Some N.Any)).
Inductive annotates : W.Stmt → W.Stmt → Prop :=
  | A_Empty : annotates W.Empty W.Empty
  | A_Var v v' s : annotates_var v v' → annotates (W.Var v s) (W.Var v' s)
  | A_Expression e s : annotates (W.Expression (strip_expr e) s) (W.Expression e s)
  | A_Assign x e s : annotates (W.Assign x (strip_expr e) s) (W.Assign x e s)
  | A_Store x e s : annotates (W.Store x (strip_expr e) s) (W.Store x e s)
  | A_If c t t' e e' s : annotates t t' → annotates e e' →
      annotates (W.If (strip_atom c) t e s) (W.If c t' e' s)
  | A_Loop b b' s : annotates b b' → annotates (W.Loop b s) (W.Loop b' s)
  | A_Lbl l b b' s : annotates b b' → annotates (W.Lbl l b s) (W.Lbl l b' s)
  | A_Break l s : annotates (W.Break l s) (W.Break l s)
  | A_Return a s : annotates (W.Return (strip_atom a) s) (W.Return a s)
  | A_Block ss ss' s : Forall2 annotates ss ss' → annotates (W.Block ss s) (W.Block ss' s)
  | A_Trap : annotates W.Trap W.Trap.

(** ** The checker decides typing *)

Lemma ensure_Ok a b s t : ensure a b s = Ok t ↔ a = b ∧ t = b.
Proof. unfold ensure. case_decide; naive_solver. Qed.
Lemma lookup_id_Ok Γ x s t : lookup_id Γ x s = Ok t ↔ env_get Γ x = Some t.
Proof. unfold lookup_id. destruct (env_get Γ x); naive_solver. Qed.
Lemma ensure_ref_Ok t s u : ensure_ref t s = Ok u ↔ t = N.Ref u.
Proof. destruct t; cbn; naive_solver. Qed.
Lemma variant_of_any_Ok t s u : assert_variant_of_any t s = Ok u ↔ variant_of_any t = true.
Proof.
  destruct u, t as [| | | | | | |args r| |args r| | |]; cbn; try (split; [congruence|done] || done).
  all: try (destruct args as [|[] ?]; cbn; naive_solver).
Qed.
Lemma to_any_set_ty_Ok {E} o t u : @W.to_any_set_ty E o t = Ok u ↔ o = None ∧ u = Some t.
Proof. destruct o; cbn; naive_solver. Qed.

Ltac tc_inv :=
  repeat first
    [ progress comp_inv
    | match goal with
      | H : ensure _ _ _ = Ok _ |- _ => apply ensure_Ok in H; destruct H; try subst
      | H : lookup_id _ _ _ = Ok _ |- _ => apply lookup_id_Ok in H
      | H : ensure_ref _ _ = Ok _ |- _ => apply ensure_ref_Ok in H; try subst
      | H : assert_variant_of_any _ _ = Ok _ |- _ => apply variant_of_any_Ok in H
      | H : W.to_any_set_ty _ _ = Ok _ |- _ => apply to_any_set_ty_Ok in H; destruct H; try subst
      | H : (match ?p with (_, _) => _ end) = Ok _ |- _ => destruct p; cbn beta iota in H
      end ].

Lemma atoms_sound (f : W.Atom → tc (N.typ * W.Atom)) (P : W.Atom → N.typ → Prop) args r :
  Forall (λ a, ∀ t a', f a = Ok (t, a') → P a' t ∧ strip_atom a' = a) args →
  mapM f args = Ok r → Forall2 P r.*2 r.*1 ∧ map strip_atom r.*2 = args.
Proof.
  intros Hargs Hr%mapM_Ok. induction Hr as [|a [t a'] args r Ha _ IH]; cbn; [by split|].
  apply Forall_cons in Hargs as [Ha' Hargs]. destruct (Ha' t a' Ha), (IH Hargs).
  split; [by constructor|]. by f_equal.
Qed.

Lemma type_check_atom_sound Γ a t a' :
  type_check_atom Γ a = Ok (t, a') → atom_typed Γ a' t ∧ strip_atom a' = a.
Proof.
  revert t a'. induction a using W.Atom_ind'; intros t a' Ht; cbn in Ht.
  2:{ tc_inv. destruct a; tc_inv; try discriminate. destruct (atoms_sound _ _ _ _ H Ha2) as [Hf <-].
      repeat case_decide; tc_inv; simplify_eq. cbn. split; [|done].
      cbn in Ha0. simplify_eq. by econstructor. }
  11:{ destruct op; tc_inv; simplify_eq; cbn in *;
         repeat match goal with
         | IH : ∀ t a', type_check_atom ?G ?a = _ → _, H : type_check_atom ?G ?a = Ok _ |- _ =>
             destruct (IH _ _ H) as [? <-]; clear IH
         end; (split; [|done]);
         first [by eapply T_PtrEq | by eapply T_Binary]. }
  all: tc_inv; simplify_eq; cbn;
    repeat match goal with
    | IH : ∀ t a', type_check_atom ?G ?a = _ → _, H : type_check_atom ?G ?a = Ok _ |- _ =>
        destruct (IH _ _ H) as [? <-]; clear IH
    end; (split; [|done]); try by econstructor.
Qed.

Lemma ensure_refl t s : ensure t t s = Ok t.
Proof. by apply ensure_Ok. Qed.
Lemma lookup_id_Some Γ x s t : env_get Γ x = Some t → lookup_id Γ x s = Ok t.
Proof. apply lookup_id_Ok. Qed.

Lemma atoms_complete (f : W.Atom → tc (N.typ * W.Atom)) args ts :
  Forall2 (λ a t, f (strip_atom a) = Ok (t, a)) args ts →
  mapM f (map strip_atom args) = Ok (zip ts args).
Proof. intros Hf. apply mapM_Ok. induction Hf; cbn; constructor; auto. Qed.

Lemma type_check_atom_complete Γ a t :
  atom_typed Γ a t → type_check_atom Γ (strip_atom a) = Ok (t, a).
Proof.
  revert t. induction a using W.Atom_ind'; intros t Ht; inversion Ht; subst; cbn;
    repeat match goal with
    | IH : ∀ t, atom_typed Γ ?a t → _, H : atom_typed Γ ?a _ |- _ => rewrite (IH _ H); cbn; clear IH
    end;
    try (erewrite lookup_id_Some by done); cbn; rewrite ?ensure_refl; cbn; try done.
  - (* PrimApp *)
    assert (Forall2 (λ a t, type_check_atom Γ (strip_atom a) = Ok (t, a)) args ts) as Hf.
    { by eapply Forall_Forall2_mp. }
    rewrite (atoms_complete _ _ _ Hf). cbn. apply Forall2_length in Hf.
    rewrite fst_zip, snd_zip by lia. by rewrite decide_False, decide_False by (intros ?; done).
  - (* ToAny *)
    assert (assert_variant_of_any t0 s = Ok tt) as -> by (by apply variant_of_any_Ok). done.
  - (* Unary *)
    match goal with H : unop_notwasm_typ _ _ = Ok _ |- _ => rewrite H end. cbn. by rewrite ensure_refl.
  - (* Binary *)
    match goal with H : binop_notwasm_typ _ _ = Ok _ |- _ => rewrite H end. cbn.
    destruct op; try done; cbn; rewrite ?ensure_refl; cbn; by rewrite ?ensure_refl.
Qed.

Lemma check_args_Ok Γ xs ts s u :
  length xs = length ts → check_args Γ xs ts s = Ok u ↔ ids_typed Γ xs ts.
Proof.
  revert ts. induction xs as [|x xs IH]; intros [|t ts] Hl; cbn in *; try done.
  - split; [constructor|by destruct u].
  - injection Hl as Hl. split.
    + intros H. tc_inv. constructor; [done|]. by apply IH.
    + intros H. inversion H; subst. erewrite lookup_id_Some by done. cbn. rewrite ensure_refl. cbn. by apply IH.
Qed.

Lemma type_check_call_Ok Γ f xs ts r implicit s t :
  type_check_call Γ f xs ts r implicit s = Ok t ↔
  t = default N.Any r ∧
  ∃ formals, ts = (if implicit then [N.Env] else []) ++ formals ∧ ids_typed Γ xs formals.
Proof.
  unfold type_check_call. split.
  - case_decide as Hl; [done|]. intros H. comp_inv.
    destruct implicit; [destruct ts as [|[] ts]; try done|]; comp_inv; cbn in Hl; (split; [done|]);
      eexists; (split; [reflexivity|]); eapply check_args_Ok; [lia|done|lia|done].
  - intros (-> & formals & -> & Hx). pose proof (Forall2_length _ _ _ Hx).
    rewrite decide_False by (destruct implicit; cbn; lia).
    assert (check_args Γ xs formals s = Ok tt) as Hc by (by apply check_args_Ok).
    destruct implicit; cbn; by rewrite Hc.
Qed.

Lemma import_args_Ok Γ ts xs s u :
  length ts = length xs →
  foldM (λ _ p, got_ty ← lookup_id Γ p.2 s; if decide (p.1 ≠ got_ty) then Err (Other s) else Ok tt) tt (zip ts xs)
    = Ok u ↔ ids_typed Γ xs ts.
Proof.
  revert xs. induction ts as [|t ts IH]; intros [|x xs] Hl; cbn in *; try done.
  - split; [constructor|by destruct u].
  - injection Hl as Hl. split.
    + intros H. tc_inv. case_decide as Hd; [done|]. subst. comp_inv.
      constructor; [done|]. by apply IH.
    + intros H. inversion H; subst. erewrite lookup_id_Some by done. cbn.
      rewrite decide_False by (intros ?; done). cbn. by apply IH.
Qed.

Lemma method_args_Ok Γ xs s u :
  foldM (λ _ a, t ← lookup_id Γ a s; ensure N.Any t s;; Ok tt) tt xs = Ok u ↔
  Forall (λ x, env_get Γ x = Some N.Any) xs.
Proof.
  induction xs as [|x xs IH]; cbn; [split; [constructor|by destruct u]|]. split.
  - intros H. tc_inv. constructor; [done|]. by apply IH.
  - intros [Hx Hxs]%Forall_cons. rewrite (lookup_id_Some _ _ _ _ Hx). cbn. by apply IH.
Qed.

Lemma mapM_lookup_Ok Γ xs s ts : mapM (λ a, lookup_id Γ a s) xs = Ok ts ↔ ids_typed Γ xs ts.
Proof.
  rewrite mapM_Ok. split; intros H; (eapply Forall2_impl; [exact H|]); intros x t; apply lookup_id_Ok.
Qed.

Ltac use_atom_sound :=
  repeat match goal with
  | H : type_check_atom _ _ = Ok _ |- _ => apply type_check_atom_sound in H as [? <-]
  end.
Ltac use_atom_complete :=
  repeat match goal with
  | H : atom_typed _ ?a _ |- _ => rewrite (type_check_atom_complete _ _ _ H); cbn; clear H
  end.

Lemma type_check_prim_call_Ok Γ prim args s t :
  type_check_prim_call Γ prim args s = Ok t ↔
  ∃ jt ts r, RTS.janky_typ (E := TypeCheckingError) prim = Ok jt ∧
    notwasm_typ (E := TypeCheckingError) jt false = Ok (N.Fn ts r) ∧ ids_typed Γ args ts ∧
    t = default N.Any r.
Proof.
  unfold type_check_prim_call. split.
  - intros H. comp_inv. destruct a0; try discriminate. comp_inv.
    repeat case_decide; comp_inv; try done. subst. do 3 eexists. split; [done|]. split; [done|].
    split; [by eapply mapM_lookup_Ok|done].
  - intros (jt & ts & r & Hj & Hn & Hx & ->). rewrite Hj. cbn. rewrite Hn. cbn.
    apply (mapM_lookup_Ok _ _ s) in Hx. rewrite Hx. cbn. by rewrite !decide_False by (intros ?; done).
Qed.

Lemma type_check_expr_prim Γ prim args s :
  (∀ name, prim ≠ RTS.Import name) →
  type_check_expr Γ (W.PrimCall prim args s) =
  (t ← type_check_prim_call Γ prim args s; Ok (t, W.PrimCall prim args s)).
Proof. destruct prim; try done. intros H. by destruct (H name). Qed.

Lemma is_import (prim : RTS.RTSFunction) :
  (∃ name, prim = RTS.Import name) ∨ (∀ name, prim ≠ RTS.Import name).
Proof. destruct prim; eauto. Qed.

Lemma type_check_expr_sound Γ e t e' :
  type_check_expr Γ e = Ok (t, e') → expr_typed false Γ e' t ∧ strip_expr e' = e.
Proof.
  destruct e as [arr idx val s|f args s|f args s|obj m args tys s|prim args s| |o f v s|a ty s|a s|f atoms s].
  5:{ destruct (is_import prim) as [[name ->]|Hp].
      - cbn. intros Ht. tc_inv. destruct a; try discriminate. comp_inv. case_decide; [done|]. comp_inv.
        simplify_eq. cbn in Ha0. comp_inv. simplify_eq. split; [|done]. eapply T_Import; [done|]. by eapply import_args_Ok.
      - rewrite type_check_expr_prim by done. intros Ht. comp_inv. simplify_eq. split; [|done].
        apply type_check_prim_call_Ok in Ha as (jt & ts & r & ? & ? & ? & ->). by eapply T_PrimCall. }
  all: cbn; intros Ht; tc_inv; simplify_eq; use_atom_sound; try (split; [by econstructor|done]).
  - destruct a; try discriminate. comp_inv. simplify_eq. split; [|done].
    apply type_check_call_Ok in Ha0 as (-> & formals & -> & ?). by eapply T_Call.
  - destruct a; try discriminate. comp_inv. simplify_eq. split; [|done].
    apply type_check_call_Ok in Ha0 as (-> & formals & -> & ?). by eapply T_ClosureCall.
  - split; [|done]. apply T_AnyMethodCall; [done|]. by eapply method_args_Ok.
  - destruct a; try discriminate. comp_inv. simplify_eq. split; [|done]. by constructor.
Qed.

Lemma type_check_expr_complete strict Γ e t :
  expr_typed strict Γ e t → type_check_expr Γ (strip_expr e) = Ok (t, e).
Proof.
  destruct 1; cbn [strip_expr].
  5:{ cbn. rewrite H. cbn. pose proof (Forall2_length _ _ _ H0) as HL.
      rewrite decide_False by (intros ?; lia). by rewrite (proj2 (import_args_Ok Γ ts args s tt (eq_sym HL)) H0). }
  5:{ rewrite type_check_expr_prim by done.
      rewrite (proj2 (type_check_prim_call_Ok Γ prim args s (default N.Any r))) by eauto 10. done. }
  all: cbn; use_atom_complete; rewrite ?ensure_refl; cbn; try done.
  - erewrite lookup_id_Some by done. cbn. rewrite (proj2 (type_check_call_Ok _ _ _ _ _ _ _ (default N.Any r))); [done|].
    split; [done|]. by exists ts.
  - erewrite lookup_id_Some by done. cbn. rewrite (proj2 (type_check_call_Ok _ _ _ _ _ _ _ (default N.Any r))); [done|].
    split; [done|]. by exists ts.
  - erewrite lookup_id_Some by done. cbn. by rewrite (proj2 (method_args_Ok _ _ _ tt)).
  - by erewrite lookup_id_Some by done.
Qed.

Lemma undefined_typed strict Γ e t : is_undefined e = true → expr_typed strict Γ e t → t = N.Any.
Proof.
  destruct e as [| | | | | | | |[[] | | | | | | | | | | | | |] |]; try done.
  intros _ He. inversion He; subst. by match goal with H : atom_typed _ _ _ |- _ => inversion H end.
Qed.

Lemma type_check_var_sound Γ v Γ' v' :
  type_check_var Γ v = Ok (Γ', v') → var_typed false Γ v' Γ' ∧ annotates_var v v'.
Proof.
  unfold type_check_var, var_typed, annotates_var. intros H. comp_inv.
  destruct a as [ty named]. apply type_check_expr_sound in Ha as [Hty Hs]. comp_inv.
  assert (W.var_id a = W.var_id v ∧ W.var_named a = named ∧ ∃ t', W.var_ty a = Some t' ∧
    (is_undefined named = false → t' = ty) ∧
    (W.var_ty v = Some t' ∨ W.var_ty v = None ∧ t' = ty)) as (Hid & Hn & t' & Ht' & Hu & Hv).
  { clear H. destruct (is_undefined named && _) eqn:Hcase in Ha; comp_inv.
    - apply andb_true_iff in Hcase as [Hu Hsome]. apply bool_decide_eq_true in Hsome as [t' Ht']. cbn in *.
      split; [done|]. split; [done|]. exists t'. rewrite Hu. by split_and!; [|intros|left].
    - unfold W.var_set_ty in Ha. cbn in *. destruct (W.var_ty v) as [t'|] eqn:Hv; [case_decide|]; comp_inv; simplify_eq; cbn;
        naive_solver. }
  assert (Γ' = (if decide (W.var_id a = Types.Named "_") then Γ else env_insert Γ (W.var_id a) t') ∧ v' = a)
    as [-> ->].
  { rewrite Ht' in H. case_decide; comp_inv; by simplify_eq. }
  subst named. split.
  - exists ty, t'. by split_and!.
  - split_and!; [done|done|]. destruct Hv as [Hv|[Hv ->]]; [left; congruence|right].
    split; [done|]. intros Hun. rewrite Ht'. f_equal. by eapply undefined_typed.
Qed.

Lemma type_check_var_complete strict Γ v Γ' v' :
  var_typed strict Γ v' Γ' → annotates_var v v' → type_check_var Γ v = Ok (Γ', v').
Proof.
  intros (t & t' & Ht & Ht' & Hu & ->) (Hid & Hn & Hty). unfold type_check_var.
  rewrite Hn, (type_check_expr_complete _ _ _ _ Ht). cbn. rewrite Hid.
  assert ((if is_undefined (W.var_named v') && bool_decide (is_Some (W.var_ty v))
           then Ok (W.mkVarStmt (W.var_id v') (W.var_named v') (W.var_ty v))
           else assert "assertion failed"
                  (bool_decide (W.var_ty v = None) || bool_decide (W.var_ty v = Some t));;
                W.var_set_ty (W.mkVarStmt (W.var_id v') (W.var_named v') (W.var_ty v)) t) = @Ok TypeCheckingError _ v') as ->.
  { destruct v' as [x e o]. cbn in *. subst o.
    destruct Hty as [Hv|[Hv Hun]]; rewrite Hv; cbn.
    - destruct (is_undefined e); cbn; [done|]. rewrite (Hu eq_refl). rewrite bool_decide_true by done. cbn.
      unfold W.var_set_ty. cbn. by rewrite decide_True.
    - rewrite andb_false_r. cbn. unfold W.var_set_ty. cbn. do 3 f_equal.
      destruct (is_undefined e) eqn:Heu; [|by rewrite Hu]. specialize (Hun eq_refl). simplify_eq.
      by eapply undefined_typed. }
  cbn. case_decide; [done|]. by rewrite Ht'.
Qed.

Scheme stmt_typed_ind2 := Induction for stmt_typed Sort Prop
  with stmts_typed_ind2 := Induction for stmts_typed Sort Prop.

(** The loop over the statements of a block. *)
Fixpoint type_check_stmts (Γ : Env) (ss : list W.Stmt) (ret : option N.typ) : tc (Env * list W.Stmt) :=
  match ss with
  | [] => Ok (Γ, [])
  | st :: ss =>
      '(Γ, st) ← type_check_stmt Γ st ret;
      '(Γ, ss) ← type_check_stmts Γ ss ret; Ok (Γ, st :: ss)
  end.
Lemma type_check_block Γ ss s ret :
  type_check_stmt Γ (W.Block ss s) ret =
  ('(_, ss) ← type_check_stmts Γ ss ret; Ok (Γ, W.Block ss s)).
Proof.
  cbn [type_check_stmt].
  match goal with |- (?g Γ ss ≫= _) = _ => enough (∀ ss Γ, g Γ ss = type_check_stmts Γ ss ret) as -> by done end.
  clear. induction ss as [|st ss IH]; intros Γ; cbn; [done|]. destruct (type_check_stmt Γ st ret) as [[Γ1 st1]| |]; cbn; [|done|done].
  by rewrite IH.
Qed.

Lemma type_check_stmt_sound ret st Γ Γ' st' :
  type_check_stmt Γ st ret = Ok (Γ', st') → stmt_typed false ret Γ st' Γ' ∧ annotates st st'.
Proof.
  revert Γ Γ' st'. induction st using W.Stmt_ind'; intros Γ Γ' st' Hc.
  11:{ rewrite type_check_block in Hc. comp_inv. destruct a as [Γ1 ss']. comp_inv. simplify_eq.
       enough (stmts_typed false ret Γ' ss' Γ1 ∧ Forall2 annotates ss ss') as [? ?]
         by (split; [by econstructor|by constructor]).
       clear s. revert Γ' Γ1 ss' Ha. induction H as [|st ss Hst _ IH]; intros Γ Γ1 ss' Ha; cbn in Ha; comp_inv.
       - simplify_eq. split; constructor.
       - destruct a as [Γ2 st']. comp_inv. destruct a as [Γ3 ss2]. comp_inv. simplify_eq.
         apply Hst in Ha0 as [? ?]. apply IH in Ha1 as [? ?]. split; [by econstructor|by constructor]. }
  all: cbn in Hc; tc_inv; simplify_eq; use_atom_sound;
    repeat match goal with
    | H : type_check_expr _ _ = Ok _ |- _ => apply type_check_expr_sound in H as [? <-]
    | H : type_check_var _ _ = Ok _ |- _ => apply type_check_var_sound in H as [? ?]
    | IH : ∀ Γ Γ' st', type_check_stmt Γ ?st _ = _ → _, H : type_check_stmt _ ?st _ = Ok _ |- _ =>
        apply IH in H as [? ?]
    end; try (split; [by econstructor|by constructor]).
  - destruct ret; [|done]. tc_inv. simplify_eq. split; [by econstructor|constructor].
Qed.

Ltac use_IH :=
  repeat match goal with
  | IH : ∀ st, annotates st ?t → _, A : annotates ?s ?t |- _ => rewrite (IH s A); cbn; clear IH
  | IH : ∀ ss, Forall2 annotates ss ?t → _, A : Forall2 annotates ?s ?t |- _ => rewrite (IH s A); cbn; clear IH
  end.

Lemma type_check_stmt_complete strict ret Γ st' Γ' :
  stmt_typed strict ret Γ st' Γ' → ∀ st, annotates st st' → type_check_stmt Γ st ret = Ok (Γ', st').
Proof.
  apply (stmt_typed_ind2 strict ret
    (λ Γ st' Γ' _, ∀ st, annotates st st' → type_check_stmt Γ st ret = Ok (Γ', st'))
    (λ Γ ss' Γ' _, ∀ ss, Forall2 annotates ss ss' → type_check_stmts Γ ss ret = Ok (Γ', ss')));
    clear; intros.
  all: match goal with H : annotates _ (W.Block _ _) |- _ => idtac | H : Forall2 _ _ _ |- _ => idtac | _ => shelve end;
    match goal with
    | H : annotates _ _ |- _ => inversion H; subst; rewrite type_check_block; use_IH; done
    | H : Forall2 _ _ _ |- _ => inversion H; subst; cbn; use_IH; done
    end.
  Unshelve.
  all: match goal with H : annotates _ _ |- _ => inversion H; subst; clear H end; cbn; try done.
  - erewrite type_check_var_complete by done. done.
  - erewrite type_check_expr_complete by done. done.
  - erewrite lookup_id_Some by done. cbn. erewrite type_check_expr_complete by done. cbn. by rewrite ensure_refl.
  - erewrite lookup_id_Some by done. cbn. erewrite type_check_expr_complete by done. cbn. by rewrite ensure_refl.
  - erewrite type_check_atom_complete by done. cbn. use_IH. done.
  - use_IH. done.
  - use_IH. done.
  - erewrite type_check_atom_complete by done. cbn. by rewrite ensure_refl.
Qed.

(** ** Programs *)

Definition annotates_function (f f' : W.Function) : Prop :=
  annotates (W.fn_body f) (W.fn_body f') ∧ W.fn_type f = W.fn_type f' ∧
  W.fn_params f = W.fn_params f' ∧ W.fn_span f = W.fn_span f'.
Definition annotates_global (g g' : W.Global) : Prop :=
  W.is_mut g = W.is_mut g' ∧ W.global_ty g = W.global_ty g' ∧
  W.global_atom g = strip_atom <$> W.global_atom g'.
Definition annotates_named {A} (R : A → A → Prop) (e e' : Id * A) : Prop := e.1 = e'.1 ∧ R e.2 e'.2.
Record annotates_program (p p' : W.Program) : Prop := {
  ann_imports : W.rts_fn_imports p = W.rts_fn_imports p';
  ann_functions : Forall2 (annotates_named annotates_function) (W.functions p) (W.functions p');
  ann_globals : Forall2 (annotates_named annotates_global) (W.globals p) (W.globals p');
  ann_data : W.prog_data p = W.prog_data p'
}.

Definition function_typed (strict : bool) (Γ : Env) (f : W.Function) : Prop :=
  length (N.args (W.fn_type f)) = length (W.fn_params f) ∧
  ∃ Γ', stmt_typed strict (N.result (W.fn_type f))
          (insert_params Γ (zip (W.fn_params f) (N.args (W.fn_type f)))) (W.fn_body f) Γ'.

(** Declarations of distinct new names, each in the scope of those before it. *)
Inductive declares {A} (P : Env → A → Prop) (ty : A → N.typ) : Env → list (Id * A) → Env → Prop :=
  | declares_nil Γ : declares P ty Γ [] Γ
  | declares_cons Γ x d l Γ' :
      P Γ d → env_get Γ x = None → declares P ty (env_insert Γ x (ty d)) l Γ' →
      declares P ty Γ ((x, d) :: l) Γ'.

Definition global_typed (Γ : Env) (g : W.Global) : Prop :=
  ∀ a, W.global_atom g = Some a → atom_typed Γ a (W.global_ty g).

(** Functions see all functions and globals; the value of a global sees the
    functions and the globals before it. *)
Definition program_typed (strict : bool) (p : W.Program) : Prop :=
  ∃ Γ1 Γ2,
    declares (λ _ _, True) (λ f, N.to_type (W.fn_type f))
      (foldl add_import env_new (W.rts_fn_imports p)) (W.functions p) Γ1 ∧
    declares global_typed W.global_ty Γ1 (W.globals p) Γ2 ∧
    Forall (λ f, function_typed strict Γ2 f.2) (W.functions p).

Lemma insert_new_Ok Γ x t Γ' : insert_new Γ x t = Ok Γ' ↔ env_get Γ x = None ∧ Γ' = env_insert Γ x t.
Proof. unfold insert_new. destruct (env_get Γ x); naive_solver. Qed.

Lemma add_functions_Ok Γ fs Γ' :
  foldM add_function Γ fs = Ok Γ' ↔
  declares (λ _ _, True) (λ f, N.to_type (W.fn_type f)) Γ fs Γ'.
Proof.
  revert Γ. induction fs as [|[x f] fs IH]; intros Γ; cbn [foldM].
  - split; [intros [= <-]; constructor|]. by inversion 1.
  - rewrite bind_Ok. unfold add_function at 1. split.
    + intros (Γ1 & [Hx ->]%insert_new_Ok & Hf). constructor; [done|done|]. by apply IH.
    + inversion 1; subst. eexists. split; [by apply insert_new_Ok|]. by apply IH.
Qed.

Lemma global_sound Γ g r :
  match W.global_atom g with
  | Some a => '(got, a) ← type_check_atom Γ a; ensure (W.global_ty g) got Unknown;; Ok (Some a)
  | None => Ok None
  end = Ok r →
  global_typed Γ (W.mkGlobal (W.is_mut g) (W.global_ty g) r) ∧ W.global_atom g = strip_atom <$> r.
Proof.
  unfold global_typed. destruct (W.global_atom g) as [a|]; cbn; intros H.
  - comp_inv. destruct a0 as [t a']. tc_inv. use_atom_sound. split; [by intros ? [= <-]|done].
  - comp_inv. split; [by intros ? [=]|done].
Qed.

Lemma add_globals_sound gs Γ acc Γ' gs' :
  foldM add_global (Γ, acc) gs = Ok (Γ', gs') →
  ∃ k, gs' = acc ++ k ∧ declares global_typed W.global_ty Γ k Γ' ∧
    Forall2 (annotates_named annotates_global) gs k.
Proof.
  revert Γ acc. induction gs as [|[x g] gs IH]; intros Γ acc H; cbn [foldM] in H.
  - comp_inv. simplify_eq. exists []. rewrite app_nil_r. repeat constructor.
  - comp_inv. unfold add_global in Ha. comp_inv. apply global_sound in Ha0 as [Hg Hs].
    apply insert_new_Ok in Ha1 as [Hx ->]. subst.
    apply IH in H as (k & -> & Hd & Hk).
    exists ((x, W.mkGlobal (W.is_mut g) (W.global_ty g) a0) :: k). rewrite <- app_assoc.
    split; [done|]. split; [by constructor|]. constructor; [|done]. by split.
Qed.

Lemma add_global_complete Γ x g g' acc :
  global_typed Γ g' → annotates_global g g' → env_get Γ x = None →
  add_global (Γ, acc) (x, g) = Ok (env_insert Γ x (W.global_ty g'), acc ++ [(x, g')]).
Proof.
  intros Hg (Hm & Ht & Hat) Hx. unfold add_global. rewrite Hat, Hm, Ht.
  assert (match strip_atom <$> W.global_atom g' with
          | Some a => '(got, a) ← type_check_atom Γ a; ensure (W.global_ty g') got Unknown;; Ok (Some a)
          | None => Ok None
          end = Ok (W.global_atom g')) as ->.
  { unfold global_typed in Hg. destruct (W.global_atom g') as [a|]; cbn; [|done].
    rewrite (type_check_atom_complete _ _ _ (Hg a eq_refl)). cbn. by rewrite ensure_refl. }
  cbn [mbind comp_bind]. rewrite (proj2 (insert_new_Ok Γ x _ _) (conj Hx eq_refl)). by destruct g'.
Qed.

Lemma add_globals_complete gs gs' Γ Γ' acc :
  declares global_typed W.global_ty Γ gs' Γ' → Forall2 (annotates_named annotates_global) gs gs' →
  foldM add_global (Γ, acc) gs = Ok (Γ', acc ++ gs').
Proof.
  intros Hd. revert gs acc. induction Hd as [Γ|Γ x g' l Γ' Hg Hx _ IH]; intros gs acc Ha.
  - inversion Ha; subst. cbn. by rewrite app_nil_r.
  - inversion Ha as [|[y g] ? gs1 ? [Hy Hag] Ha1]; subst. cbn in Hy, Hag. subst y.
    cbn [foldM]. rewrite (add_global_complete _ _ _ _ _ Hg Hag Hx). cbn [mbind comp_bind].
    rewrite IH by done. by rewrite <- app_assoc.
Qed.

Lemma type_check_function_Ok Γ x f f' :
  type_check_function Γ x f = Ok f' ↔ function_typed false Γ f' ∧ annotates_function f f'.
Proof.
  unfold type_check_function, function_typed, annotates_function. split.
  - case_decide as Hl; [done|]. intros H. comp_inv. destruct a as [Γ' body]. comp_inv.
    apply type_check_stmt_sound in Ha as [? ?]. cbn. by split_and!; [|by eexists|..].
  - intros ((Hl & Γ' & Ht) & Ha & Hty & Hp & Hs). rewrite Hty, Hp, Hs.
    rewrite decide_False by (intros ?; done). rewrite (type_check_stmt_complete _ _ _ _ _ Ht _ Ha).
    by destruct f'.
Qed.

Lemma declares_types {A B} P Q (ty : A → N.typ) (ty' : B → N.typ) (l : list (Id * A)) (l' : list (Id * B)) Γ Γ' :
  Forall2 (λ e e', e.1 = e'.1 ∧ ty e.2 = ty' e'.2) l l' → (∀ Γ b, Q Γ b) →
  declares P ty Γ l Γ' → declares Q ty' Γ l' Γ'.
Proof.
  intros Hl HQ. revert Γ. induction Hl as [|[x a] [y b] l l' [Hx Hy] _ IH]; intros Γ; inversion 1; subst;
    cbn in *; subst; constructor; [done|done|]. rewrite <- Hy. auto.
Qed.

Lemma annotated_functions_types fs fs' :
  Forall2 (annotates_named annotates_function) fs fs' →
  Forall2 (λ e e', e.1 = e'.1 ∧ N.to_type (W.fn_type e.2) = N.to_type (W.fn_type e'.2)) fs fs'.
Proof. intros H. eapply Forall2_impl; [done|]. intros [x f] [y g] [? (_ & Ht & _)]. cbn in *. by rewrite Ht. Qed.

Lemma check_functions_Ok Γ fs fs' :
  mapM (λ f, f' ← type_check_function Γ f.1 f.2; Ok (f.1, f')) fs = Ok fs' ↔
  Forall2 (annotates_named annotates_function) fs fs' ∧ Forall (λ f, function_typed false Γ f.2) fs'.
Proof.
  rewrite mapM_Ok. split.
  - induction 1 as [|[x f] [y f'] fs fs' H _ [IH1 IH2]]; [by split|].
    comp_inv. cbn in *. simplify_eq. apply type_check_function_Ok in Ha as [? ?].
    split; constructor; auto. by split.
  - intros [Hf Ht]. induction Hf as [|[x f] [y f'] fs fs' [Hx Ha] _ IH]; [constructor|].
    apply Forall_cons in Ht as [? ?]. constructor; [|auto]. cbn in *. subst y.
    rewrite (proj2 (type_check_function_Ok Γ x f f')) by done. done.
Qed.

(** C24: the checker decides typing: it returns a program exactly when it is a
    typed program that completes the given one with annotations, and it
    returns that program.  So the annotations that code generation needs are
    all there, they are the types of what they annotate, and the rest of
    the program is unchanged. *)
Theorem type_check_decides p p' :
  type_check p = Ok p' ↔ program_typed false p' ∧ annotates_program p p'.
Proof.
  unfold type_check, program_typed. split.
  - intros H. comp_inv. destruct a0 as [Γ2 gs']. comp_inv.
    apply add_globals_sound in Ha0 as (k & -> & Hd & Hk).
    apply check_functions_Ok in Ha1 as [Hf Ht]. apply add_functions_Ok in Ha. subst. cbn. split; [|by split].
    exists a, Γ2. split_and!; [|done|done]. eapply declares_types; [|done|exact Ha].
    by apply annotated_functions_types.
  - intros [(Γ1 & Γ2 & Hfs & Hgs & Ht) [Hi Hf Hg Hd]]. rewrite Hi, Hd.
    rewrite (proj2 (add_functions_Ok _ (W.functions p) Γ1)).
    2:{ eapply declares_types; [|done|exact Hfs]. apply annotated_functions_types in Hf.
        apply Forall2_flip. eapply Forall2_impl; [exact Hf|]. by intros ? ? [-> ->]. }
    cbn. rewrite (add_globals_complete _ _ _ _ _ Hgs Hg). cbn.
    rewrite (proj2 (check_functions_Ok Γ2 _ (W.functions p'))) by done. cbn. by destruct p'.
Qed.

(** The checker accepts an assignment to an element of something that is
    not an array, of something that is not an [Any]: two of the three checks
    of [ArraySet] are computed and dropped. *)
Theorem array_set_unchecked Γ s :
  let one := W.ALit (W.LI32 1) s in
  type_check_expr Γ (W.ArraySet one one one s) = Ok (N.Any, W.ArraySet one one one s) ∧
  ∀ t, ¬ expr_typed true Γ (W.ArraySet one one one s) t.
Proof.
  cbn. split; [done|]. intros t H. inversion H as [? ? ? ? ta tv Ha _ _ Hs| | | | | | | | | |]; subst.
  destruct (Hs eq_refl) as [-> _]. inversion Ha.
Qed.

(** The tables of a program are iterated in an arbitrary order, and whether a
    global that reads another one is accepted depends on it. *)
Example global_order :
  let x := (Types.Named "x", W.mkGlobal false N.I32 (Some (W.ALit (W.LI32 1) Unknown))) in
  let y := (Types.Named "y", W.mkGlobal false N.I32 (Some (W.AId (Types.Named "x") Unknown))) in
  is_ok (type_check (W.mkProgram [] [] [x; y] [])) = true ∧
  type_check (W.mkProgram [] [] [y; x] []) = Err (NoSuchVariable (Types.Named "x") Unknown).
Proof. vm_compute. done. Qed.
