(* ===== verification/Linking.v ===== *)
(** Linking a program with a library ([Program::merge_in]): typing is stable under
    new names, and a program that is checked in the scope of a checked library
    can be merged with it. *)
From S2P Require Import Prelude Types Operators NotWasm NotWasmTyping.

(** ** More names *)
Definition extends (Γ Γ' : Env) : Prop :=
  (∀ x t, env_get Γ x = Some t → env_get Γ' x = Some t) ∧ imports Γ = imports Γ'.
#[global] Instance extends_preorder : PreOrder extends.
Proof.
  split; [by split|]. intros Γ1 Γ2 Γ3 [H12 I12] [H23 I23]. split; [auto|by etrans].
Qed.

Lemma env_get_insert Γ x t y :
  env_get (env_insert Γ x t) y = if decide (x = y) then Some t else env_get Γ y.
Proof. unfold env_get, env_insert. cbn. by rewrite lookup_insert. Qed.
Lemma extends_insert Γ Γ' x t : extends Γ Γ' → extends (env_insert Γ x t) (env_insert Γ' x t).
Proof. intros [H I]. split; [|done]. intros y u. rewrite !env_get_insert. case_decide; auto. Qed.
Lemma extends_new Γ x t : env_get Γ x = None → extends Γ (env_insert Γ x t).
Proof. intros H. split; [|done]. intros y u. rewrite env_get_insert. case_decide; [congruence|done]. Qed.
Lemma extends_params Γ Γ' ps : extends Γ Γ' → extends (insert_params Γ ps) (insert_params Γ' ps).
Proof.
  unfold insert_params. revert Γ Γ'. induction ps as [|p ps IH]; intros Γ Γ' H; cbn; [done|].
  by apply IH, extends_insert.
Qed.

Section weaken.
Context (strict : bool) (ret : option N.typ).
Lemma atom_weaken a : ∀ Γ Γ' t, extends Γ Γ' → atom_typed Γ a t → atom_typed Γ' a t.
Proof.
  induction a as [| prim args s IH | | | | | | | | | | | | ] using W.Atom_ind'; intros Γ Γ' u He H; inversion H; subst;
    try (econstructor; eauto; fail).
  - econstructor; [by apply He|]. eapply Forall_Forall2_mp; [|done].
    eapply Forall_impl; [exact IH|]. cbn. eauto.
  - econstructor. by apply He.
  - econstructor. by apply He.
  - econstructor. by apply He.
Qed.
Lemma ids_weaken Γ Γ' xs ts : extends Γ Γ' → ids_typed Γ xs ts → ids_typed Γ' xs ts.
Proof. intros [He _] H. eapply Forall2_impl; [exact H|]. cbn. auto. Qed.
Lemma expr_weaken Γ Γ' e t : extends Γ Γ' → expr_typed strict Γ e t → expr_typed strict Γ' e t.
Proof.
  intros He H. pose proof He as [Hg Hi].
  destruct H; try (econstructor; eauto using atom_weaken, ids_weaken; fail).
  - constructor; [by auto|]. eapply Forall_impl; [done|]. cbn. auto.
  - econstructor; [by rewrite <- Hi|]. by eapply ids_weaken.
Qed.
Lemma var_weaken Γ Γ' v Γ1 :
  extends Γ Γ' → var_typed strict Γ v Γ1 → ∃ Γ1', var_typed strict Γ' v Γ1' ∧ extends Γ1 Γ1'.
Proof.
  intros He (t & t' & Ht & Hv & Hu & ->). eexists. split.
  - exists t, t'. split; [by eapply expr_weaken|]. split; [done|]. split; [done|reflexivity].
  - case_decide; [done|]. by apply extends_insert.
Qed.
Lemma stmt_weaken Γ st Γ1 :
  stmt_typed strict ret Γ st Γ1 →
  ∀ Γ', extends Γ Γ' → ∃ Γ1', stmt_typed strict ret Γ' st Γ1' ∧ extends Γ1 Γ1'.
Proof.
  apply (stmt_typed_ind2 strict ret
    (λ Γ st Γ1 _, ∀ Γ', extends Γ Γ' → ∃ Γ1', stmt_typed strict ret Γ' st Γ1' ∧ extends Γ1 Γ1')
    (λ Γ ss Γ1 _, ∀ Γ', extends Γ Γ' → ∃ Γ1', stmts_typed strict ret Γ' ss Γ1' ∧ extends Γ1 Γ1'));
    clear; intros;
    repeat match goal with IH : ∀ Γ', extends ?G Γ' → _, He : extends ?G _ |- _ =>
      destruct (IH _ He) as (? & ? & ?); clear IH end;
    try (eexists; split; [|eassumption]; econstructor; eauto using atom_weaken, expr_weaken; fail).
  - match goal with H : extends _ _, Hv : var_typed _ _ _ _ |- _ => destruct (var_weaken _ _ _ _ H Hv) as (? & ? & ?) end.
    eexists. split; [by constructor|done].
  - eexists. split; [|eassumption]. econstructor; [match goal with H : extends _ _ |- _ => by apply H end|].
    by eapply expr_weaken.
  - eexists. split; [|eassumption]. econstructor; [match goal with H : extends _ _ |- _ => by apply H end|].
    by eapply expr_weaken.
Qed.
End weaken.

Lemma function_weaken strict Γ Γ' f : extends Γ Γ' → function_typed strict Γ f → function_typed strict Γ' f.
Proof.
  intros He (Hl & Γ1 & Ht). split; [done|].
  destruct (stmt_weaken _ _ _ _ _ Ht _ (extends_params _ _ _ He)) as (Γ1' & ? & _). eauto.
Qed.

(** ** The scope of a program *)
Definition inserts {A} (ty : A → N.typ) (Γ : Env) (l : list (Id * A)) : Env :=
  foldl (λ Γ e, env_insert Γ e.1 (ty e.2)) Γ l.
Definition fn_ty (f : W.Function) : N.typ := N.to_type (W.fn_type f).
Definition scope (p : W.Program) : Env :=
  inserts W.global_ty
    (inserts fn_ty (foldl add_import env_new (W.rts_fn_imports p)) (W.functions p)) (W.globals p).

Section inserts.
Context {A : Type} (ty : A → N.typ).
Lemma inserts_other Γ l x : x ∉ l.*1 → env_get (inserts ty Γ l) x = env_get Γ x.
Proof.
  unfold inserts. revert Γ. induction l as [|[y d] l IH]; intros Γ Hx; cbn; [done|].
  cbn in Hx. apply not_elem_of_cons in Hx as [Hxy Hx]. rewrite IH by done.
  rewrite env_get_insert, decide_False; [done|]. by intros ->.
Qed.
Lemma inserts_in Γ l x d : NoDup l.*1 → (x, d) ∈ l → env_get (inserts ty Γ l) x = Some (ty d).
Proof.
  unfold inserts. revert Γ. induction l as [|[y d'] l IH]; intros Γ Hn Hx; [by apply elem_of_nil in Hx|].
  cbn in Hn. apply NoDup_cons in Hn as [Hy Hn]. apply elem_of_cons in Hx as [[= <- <-]|Hx]; cbn; [|by apply IH].
  change (env_get (inserts ty (env_insert Γ x (ty d)) l) x = Some (ty d)). rewrite inserts_other by done.
  rewrite env_get_insert. by rewrite decide_True.
Qed.
Lemma inserts_imports Γ l : imports (inserts ty Γ l) = imports Γ.
Proof. unfold inserts. revert Γ. induction l as [|e l IH]; intros Γ; cbn; [done|]. by rewrite IH. Qed.
Lemma inserts_extends Γ Γ' l : extends Γ Γ' → extends (inserts ty Γ l) (inserts ty Γ' l).
Proof.
  unfold inserts. revert Γ Γ'. induction l as [|e l IH]; intros Γ Γ' H; cbn; [done|]. by apply IH, extends_insert.
Qed.
Lemma inserts_new Γ l : (∀ x, x ∈ l.*1 → env_get Γ x = None) → extends Γ (inserts ty Γ l).
Proof.
  intros H. split; [|by rewrite inserts_imports]. intros x t Hx. rewrite inserts_other; [done|].
  intros Hl%H. congruence.
Qed.

Lemma declares_inserts P Γ l Γ' :
  declares P ty Γ l Γ' → Γ' = inserts ty Γ l ∧ NoDup l.*1 ∧ ∀ x, x ∈ l.*1 → env_get Γ x = None.
Proof.
  induction 1 as [Γ|Γ x d l Γ' _ Hx _ (-> & Hn & Hl)].
  - split_and!; [done|constructor|]. by intros x ?%elem_of_nil.
  - cbn. split; [done|]. split.
    + constructor; [|done]. intros H%Hl. rewrite env_get_insert in H. by rewrite decide_True in H.
    + intros y [->|Hy]%elem_of_cons; [done|]. apply Hl in Hy. rewrite env_get_insert in Hy. by case_decide.
Qed.
Lemma declares_weaken (P : Env → A → Prop) Γ Γ' l Γ1 :
  (∀ Γ Γ' d, extends Γ Γ' → P Γ d → P Γ' d) →
  declares P ty Γ l Γ1 → extends Γ Γ' → (∀ x, x ∈ l.*1 → env_get Γ' x = None) →
  declares P ty Γ' l (inserts ty Γ' l).
Proof.
  intros HP H. revert Γ'. induction H as [Γ|Γ x d l Γ1 Hd Hx Hl IH]; intros Γ' He Hnew; [constructor|].
  constructor; [by eapply HP|apply Hnew; by left|]. apply IH; [by apply extends_insert|].
  intros y Hy. rewrite env_get_insert, decide_False; [apply Hnew; by right|]. intros <-.
  apply declares_inserts in Hl as (_ & _ & Hl). apply Hl in Hy. rewrite env_get_insert in Hy. by rewrite decide_True in Hy.
Qed.
Lemma declares_True Γ l :
  NoDup l.*1 → (∀ x, x ∈ l.*1 → env_get Γ x = None) → declares (λ _ _, True) ty Γ l (inserts ty Γ l).
Proof.
  revert Γ. induction l as [|[x d] l IH]; intros Γ Hn Hl; [constructor|]. cbn in Hn. apply NoDup_cons in Hn as [Hx Hn].
  constructor; [done|apply Hl; by left|]. apply IH; [done|]. intros y Hy.
  rewrite env_get_insert, decide_False; [apply Hl; by right|]. by intros <-.
Qed.
End inserts.

(** ** Linking *)
Lemma extend_disjoint {A} (l1 l2 : list (Id * A)) : (∀ x, x ∈ l1.*1 → x ∉ l2.*1) → W.extend l1 l2 = l1 ++ l2.
Proof.
  intros H. unfold W.extend. f_equal. induction l1 as [|[x d] l1 IH]; [done|].
  rewrite filter_cons_True by (apply H; by left). f_equal. apply IH. intros y Hy. apply H. by right.
Qed.
Lemma inserts_None {A} (ty : A → N.typ) Γ l x :
  env_get (inserts ty Γ l) x = None → x ∉ l.*1 ∧ env_get Γ x = None.
Proof.
  unfold inserts. revert Γ. induction l as [|[y d] l IH]; intros Γ H.
  - by split; [apply not_elem_of_nil|].
  - apply IH in H as [Hl Hx]. rewrite env_get_insert in Hx. case_decide; [done|]. split; [|done].
    cbn. apply not_elem_of_cons. split; [by intros ->|done].
Qed.
Lemma scope_names L x :
  env_get (scope L) x = None →
  env_get (foldl add_import env_new (W.rts_fn_imports L)) x = None ∧
  x ∉ (W.functions L).*1 ∧ x ∉ (W.globals L).*1.
Proof. unfold scope. by intros [? [? ?]%inserts_None]%inserts_None. Qed.

Lemma inserts_same {A B} (ty : A → N.typ) (ty' : B → N.typ) Γ l l' :
  Forall2 (λ e e', e.1 = e'.1 ∧ ty e.2 = ty' e'.2) l l' → inserts ty Γ l = inserts ty' Γ l' ∧ l.*1 = l'.*1.
Proof.
  intros H. revert Γ. unfold inserts. induction H as [|[x d] [y d'] l l' [Hx Hd] _ IH]; intros Γ; cbn; [done|].
  cbn in Hx, Hd. subst y. rewrite Hd. destruct (IH (env_insert Γ x (ty' d'))) as [-> ->]. done.
Qed.
Lemma annotates_scope L L' : annotates_program L L' → scope L = scope L'.
Proof.
  intros [Hi Hf Hg _]. unfold scope. rewrite Hi.
  destruct (inserts_same fn_ty fn_ty (foldl add_import env_new (W.rts_fn_imports L')) (W.functions L) (W.functions L'))
    as [-> _]; [by apply annotated_functions_types|].
  apply inserts_same. eapply Forall2_impl; [exact Hg|]. by intros [x d] [y d'] [? (_ & ? & _)].
Qed.

Lemma link_typed fs L d :
  program_typed false L → NoDup fs.*1 → (∀ x, x ∈ fs.*1 → env_get (scope L) x = None) →
  Forall (λ f, function_typed false (inserts fn_ty (scope L) fs) f.2) fs →
  program_typed false (W.mkProgram (W.rts_fn_imports L) (fs ++ W.functions L) (W.globals L) d).
Proof.
  intros (Γ1 & Γ2 & Hf & Hg & HtL) Hn Hnew Ht. unfold scope in *. cbn [W.rts_fn_imports].
  destruct (declares_inserts _ _ _ _ _ Hf) as (-> & HnL & HfL).
  destruct (declares_inserts _ _ _ _ _ Hg) as (-> & HnG & HfG). fold fn_ty in *. change (inserts (λ f, N.to_type (W.fn_type f))) with (inserts fn_ty) in *.
  set (Γ0 := foldl _ _ _) in *. set (Γ1 := inserts fn_ty Γ0 (W.functions L)) in *. set (Γ2 := inserts W.global_ty Γ1 (W.globals L)) in *.
  assert (∀ x, x ∈ fs.*1 → env_get Γ0 x = None ∧ x ∉ (W.functions L).*1 ∧ x ∉ (W.globals L).*1) as Hfs.
  { intros x Hx%Hnew. by apply (scope_names L). }
  set (Γ1M := inserts fn_ty Γ0 (fs ++ W.functions L)).
  assert (Γ1M = inserts fn_ty (inserts fn_ty Γ0 fs) (W.functions L)) as HΓ1M by (unfold Γ1M, inserts; by rewrite foldl_app).
  assert (extends Γ1 Γ1M) as He1.
  { rewrite HΓ1M. apply inserts_extends, inserts_new. by intros x []%Hfs. }
  set (Γ2M := inserts W.global_ty Γ1M (W.globals L)).
  assert (extends Γ2 Γ2M) as He2 by by apply inserts_extends.
  assert (extends (inserts fn_ty Γ2 fs) Γ2M) as He3.
  { split; [|unfold Γ2M, Γ2, Γ1M, Γ1; by rewrite !inserts_imports]. intros x t Hx.
    destruct (decide (x ∈ fs.*1)) as [Hin|Hin].
    - destruct (Hfs x Hin) as (_ & Hx1 & Hx2). apply list_elem_of_fmap in Hin as ([y f] & -> & Hin). cbn [fst] in *.
      rewrite (inserts_in fn_ty Γ2 fs y f) in Hx by done. unfold Γ2M. rewrite inserts_other by done.
      rewrite HΓ1M. rewrite inserts_other by done. by rewrite (inserts_in fn_ty Γ0 fs y f).
    - rewrite inserts_other in Hx by done. by apply He2. }
  exists Γ1M, Γ2M. split_and!; cbn [W.functions W.globals].
  - apply (declares_True fn_ty).
    + rewrite fmap_app. apply NoDup_app. split_and!; [done| |done]. by intros x (_ & ? & _)%Hfs.
    + intros x. rewrite fmap_app. intros [Hx|Hx]%elem_of_app; [by apply Hfs|by apply HfL].
  - eapply declares_weaken; [|exact Hg|done|].
    + intros G G' g HG Hgt a Ha. eapply atom_weaken; [done|by apply Hgt].
    + intros x Hx. rewrite HΓ1M. pose proof (HfG x Hx) as [? ?]%inserts_None. rewrite inserts_other by done.
      rewrite inserts_other; [done|]. by intros (_ & _ & ?)%Hfs.
  - apply Forall_app. split; (eapply Forall_impl; [eassumption|]; intros [y f]; by apply function_weaken).
Qed.

(** A checked program linked before a checked library. *)
Section link.
Context (P L L' : W.Program).
Hypotheses (HL : type_check L = Ok L') (Hdata : W.prog_data L = [])
  (Himports : W.rts_fn_imports P = []) (Hglobals : W.globals P = [])
  (Hnodup : NoDup (W.functions P).*1)
  (Hnew : ∀ x, x ∈ (W.functions P).*1 → env_get (scope L) x = None).

Lemma merge_in_disjoint E :
  W.merge_in (E := E) P L =
  Ok (W.mkProgram (W.rts_fn_imports L) (W.functions P ++ W.functions L) (W.globals L) (W.prog_data P)).
Proof.
  unfold W.merge_in. rewrite Hdata, bool_decide_true by done. cbn [assert mbind comp_bind].
  rewrite Himports, Hglobals. unfold W.extend at 1 3. cbn. rewrite extend_disjoint; [done|].
  intros x Hx. by eapply scope_names, Hnew.
Qed.
Lemma link_checked fs :
  Forall2 (annotates_named annotates_function) (W.functions P) fs →
  Forall (λ f, function_typed false (inserts fn_ty (scope L) (W.functions P)) f.2) fs →
  ∃ M M', W.merge_in (E := TypeCheckingError) P L = Ok M ∧ type_check M = Ok M'.
Proof.
  intros Hfs Hty. eexists. eexists (W.mkProgram _ (fs ++ W.functions L') (W.globals L') (W.prog_data P)).
  split; [apply merge_in_disjoint|]. apply type_check_decides. pose proof HL as HL2.
  apply type_check_decides in HL2 as [Ht Ha].
  destruct (inserts_same fn_ty fn_ty (scope L') (W.functions P) fs) as [Hsame Hnames]; [by apply annotated_functions_types|].
  rewrite (annotates_scope _ _ Ha), Hsame in Hty. rewrite Hnames in *. split.
  - apply link_typed; [done|done| |done]. rewrite <- (annotates_scope _ _ Ha). done.
  - destruct Ha as [Hi Hf Hg _]. split; cbn; [done|by apply Forall2_app|done|done].
Qed.
End link.
