(* ===== verification/Intern.v ===== *)
(** Interning of string literals in the data segment ([notwasm/intern.rs], with
    the traversal of [notwasm/walk.rs]). *)
From Stdlib Require Import Ascii String.
From S2P Require Import Prelude Types NotWasm.

(** ** The pass *)

Definition byte_of_ascii (c : ascii) : Z := Z.of_N (N_of_ascii c).
Definition into_bytes (s : string) : list Z := map byte_of_ascii (list_ascii_of_string s).
(** [length.to_le()], as bytes. *)
Definition to_le (n : Z) : list Z :=
  [n mod 256; n / 256 mod 256; n / 65536 mod 256; n / 16777216 mod 256].
(** [marked, String = 1, pad, pad]. *)
Definition STRING_TAG : list Z := [0; 1; 0; 0].

Record InternVisitor := mkVisitor { data : list Z; already_interned : gmap string Z }.
Definition visitor_default : InternVisitor := mkVisitor [] ∅.

(** [intern_string] on a literal; other literals do not reach it. *)
Definition intern_string (v : InternVisitor) (old_lit : W.Lit) : InternVisitor * W.Lit :=
  match old_lit with
  | W.LString s =>
      match already_interned v !! s with
      | Some offset => (v, W.LInterned s offset)
      | None =>
          let pos := Int.wrap_u 32 (Z.of_nat (length (data v))) in
          let bytes := into_bytes s in
          let len := Int.wrap_u 32 (Z.of_nat (length bytes)) in
          let in_memory_length := len + 8 in
          let needed := 3 - (in_memory_length + 3) mod 4 in
          (mkVisitor (data v ++ STRING_TAG ++ to_le len ++ bytes ++ replicate (Z.to_nat needed) 0)
             (<[s := pos]> (already_interned v)),
           W.LInterned s pos)
      end
  | l => (v, l)
  end.

(** A [for] loop that rewrites the elements of a list. *)
Fixpoint map_state {S A B} (f : S → A → S * B) (s : S) (l : list A) : S * list B :=
  match l with
  | [] => (s, [])
  | x :: l => let '(s, y) := f s x in let '(s, k) := map_state f s l in (s, y :: k)
  end.

(** [walk_atom] with [exit_atom]; [Deref] is not entered. *)
Fixpoint intern_atom (v : InternVisitor) (a : W.Atom) : InternVisitor * W.Atom :=
  match a with
  | W.ALit l s => let '(v, l) := intern_string v l in (v, W.ALit l s)
  | W.AnyLength x l s => let '(v, l) := intern_string v l in (v, W.AnyLength x l s)
  | W.AId _ _ | W.GetPrimFunc _ _ | W.Deref _ _ _ | W.EnvGet _ _ _ => (v, a)
  | W.PrimApp p args s => let '(v, args) := map_state intern_atom v args in (v, W.PrimApp p args s)
  | W.ToAny a ty s => let '(v, a) := intern_atom v a in (v, W.ToAny a ty s)
  | W.FloatToInt a s => let '(v, a) := intern_atom v a in (v, W.FloatToInt a s)
  | W.IntToFloat a s => let '(v, a) := intern_atom v a in (v, W.IntToFloat a s)
  | W.Unary op a s => let '(v, a) := intern_atom v a in (v, W.Unary op a s)
  | W.FromAny a t s => let '(v, a) := intern_atom v a in (v, W.FromAny a t s)
  | W.ObjectGet o f s =>
      let '(v, o) := intern_atom v o in let '(v, f) := intern_atom v f in (v, W.ObjectGet o f s)
  | W.Binary op l r s =>
      let '(v, l) := intern_atom v l in let '(v, r) := intern_atom v r in (v, W.Binary op l r s)
  end.

(** [walk_expr] with [exit_expr]. *)
Definition intern_expr (v : InternVisitor) (e : W.Expr) : InternVisitor * W.Expr :=
  match e with
  | W.ObjectEmpty | W.Call _ _ _ | W.ClosureCall _ _ _ | W.PrimCall _ _ _ => (v, e)
  | W.AnyMethodCall o m args tys s =>
      let '(v, m) := intern_string v m in (v, W.AnyMethodCall o m args tys s)
  | W.ObjectSet a b c s =>
      let '(v, a) := intern_atom v a in let '(v, b) := intern_atom v b in
      let '(v, c) := intern_atom v c in (v, W.ObjectSet a b c s)
  | W.ArraySet a b c s =>
      let '(v, a) := intern_atom v a in let '(v, b) := intern_atom v b in
      let '(v, c) := intern_atom v c in (v, W.ArraySet a b c s)
  | W.NewRef a t s => let '(v, a) := intern_atom v a in (v, W.NewRef a t s)
  | W.EAtom a s => let '(v, a) := intern_atom v a in (v, W.EAtom a s)
  | W.Closure f atoms s =>
      let '(v, atoms) := map_state (λ v e, let '(v, a) := intern_atom v e.1 in (v, (a, e.2))) v atoms in
      (v, W.Closure f atoms s)
  end.

(** [walk_stmt]. *)
Fixpoint intern_stmt (v : InternVisitor) (st : W.Stmt) : InternVisitor * W.Stmt :=
  match st with
  | W.Empty | W.Break _ _ | W.Goto _ _ | W.Trap => (v, st)
  | W.Lbl l b s => let '(v, b) := intern_stmt v b in (v, W.Lbl l b s)
  | W.Loop b s => let '(v, b) := intern_stmt v b in (v, W.Loop b s)
  | W.Block ss s => let '(v, ss) := map_state intern_stmt v ss in (v, W.Block ss s)
  | W.Var var s =>
      let '(v, e) := intern_expr v (W.var_named var) in
      (v, W.Var (W.mkVarStmt (W.var_id var) e (W.var_ty var)) s)
  | W.Expression e s => let '(v, e) := intern_expr v e in (v, W.Expression e s)
  | W.Assign x e s => let '(v, e) := intern_expr v e in (v, W.Assign x e s)
  | W.Store x e s => let '(v, e) := intern_expr v e in (v, W.Store x e s)
  | W.Return a s => let '(v, a) := intern_atom v a in (v, W.Return a s)
  | W.If c t e s =>
      let '(v, c) := intern_atom v c in let '(v, t) := intern_stmt v t in
      let '(v, e) := intern_stmt v e in (v, W.If c t e s)
  end.

Definition intern_function (v : InternVisitor) (f : Id * W.Function) : InternVisitor * (Id * W.Function) :=
  let '(v, b) := intern_stmt v (W.fn_body f.2) in
  (v, (f.1, W.mkFunction b (W.fn_type f.2) (W.fn_params f.2) (W.fn_span f.2))).
Definition intern_global (v : InternVisitor) (g : Id * W.Global) : InternVisitor * (Id * W.Global) :=
  match W.global_atom g.2 with
  | Some a =>
      let '(v, a) := intern_atom v a in (v, (g.1, W.mkGlobal (W.is_mut g.2) (W.global_ty g.2) (Some a)))
  | None => (v, g)
  end.

(** [intern]: the program and the table of strings. *)
Definition intern (p : W.Program) : W.Program * gmap string Z :=
  let '(v, fs) := map_state intern_function visitor_default (W.functions p) in
  let '(v, gs) := map_state intern_global v (W.globals p) in
  (W.mkProgram (W.rts_fn_imports p) fs gs (data v), already_interned v).

(** ** Literals of a program *)

(** The literals, except those under a [Deref]. *)
Fixpoint atom_lits (a : W.Atom) : list W.Lit :=
  match a with
  | W.ALit l _ | W.AnyLength _ l _ => [l]
  | W.AId _ _ | W.GetPrimFunc _ _ | W.Deref _ _ _ | W.EnvGet _ _ _ => []
  | W.PrimApp _ args _ => concat (map atom_lits args)
  | W.ToAny a _ _ | W.FloatToInt a _ | W.IntToFloat a _ | W.Unary _ a _ | W.FromAny a _ _ => atom_lits a
  | W.ObjectGet a b _ | W.Binary _ a b _ => atom_lits a ++ atom_lits b
  end.
Definition expr_lits (e : W.Expr) : list W.Lit :=
  match e with
  | W.ObjectEmpty | W.Call _ _ _ | W.ClosureCall _ _ _ | W.PrimCall _ _ _ => []
  | W.AnyMethodCall _ m _ _ _ => [m]
  | W.ObjectSet a b c _ | W.ArraySet a b c _ => atom_lits a ++ atom_lits b ++ atom_lits c
  | W.NewRef a _ _ | W.EAtom a _ => atom_lits a
  | W.Closure _ atoms _ => concat (map (λ e, atom_lits e.1) atoms)
  end.
Fixpoint stmt_lits (st : W.Stmt) : list W.Lit :=
  match st with
  | W.Empty | W.Break _ _ | W.Goto _ _ | W.Trap => []
  | W.Lbl _ b _ | W.Loop b _ => stmt_lits b
  | W.Block ss _ => concat (map stmt_lits ss)
  | W.Var v _ => expr_lits (W.var_named v)
  | W.Expression e _ | W.Assign _ e _ | W.Store _ e _ => expr_lits e
  | W.Return a _ => atom_lits a
  | W.If c t e _ => atom_lits c ++ stmt_lits t ++ stmt_lits e
  end.
Definition global_lits (g : W.Global) : list W.Lit := from_option atom_lits [] (W.global_atom g).
Definition program_lits (p : W.Program) : list W.Lit :=
  concat (map (λ f, stmt_lits (W.fn_body f.2)) (W.functions p)) ++
  concat (map (λ g, global_lits g.2) (W.globals p)).

(** ** Reading strings back *)

Definition of_le (l : list Z) : Z :=
  match l with [a; b; c; d] => a + 256 * b + 65536 * c + 16777216 * d | _ => 0 end.
Definition ascii_of_byte (z : Z) : ascii := ascii_of_N (Z.to_N z).
(** What the runtime finds at a [StringPtr]: a tag, a length and the characters. *)
Definition decode (mem : list Z) (pos : Z) : option string :=
  let m := drop (Z.to_nat pos) mem in
  if bool_decide (take 4 m = STRING_TAG) then
    let len := Z.to_nat (of_le (take 4 (drop 4 m))) in
    let chars := take len (drop 8 m) in
    if bool_decide (length chars = len)
    then Some (string_of_list_ascii (map ascii_of_byte chars)) else None
  else None.

Definition encode (s : string) : list Z :=
  STRING_TAG ++ to_le (Z.of_nat (length (into_bytes s))) ++ into_bytes s.

Lemma of_le_to_le n : 0 <= n < 2 ^ 32 → of_le (to_le n) = n.
Proof.
  intros Hn. unfold of_le, to_le. change (2 ^ 32) with 4294967296 in Hn.
  pose proof (Z.div_mod n 256 ltac:(lia)). pose proof (Z.div_mod (n / 256) 256 ltac:(lia)).
  pose proof (Z.div_mod (n / 65536) 256 ltac:(lia)).
  assert (n / 65536 = n / 256 / 256) as E1 by (rewrite Z.div_div by lia; done).
  assert (n / 16777216 = n / 65536 / 256) as E2 by (rewrite Z.div_div by lia; done).
  assert (0 <= n / 16777216 < 256) as B by (split; [apply Z.div_pos; lia|apply Z.div_lt_upper_bound; lia]).
  rewrite (Z.mod_small (n / 16777216)) by lia. rewrite E1, E2 in *. lia.
Qed.

Lemma bytes_roundtrip s : string_of_list_ascii (map ascii_of_byte (into_bytes s)) = s.
Proof.
  unfold into_bytes. rewrite map_map.
  rewrite (map_ext _ id) by (intros c; unfold ascii_of_byte, byte_of_ascii; rewrite N2Z.id; apply ascii_N_embedding).
  rewrite map_id. apply string_of_list_ascii_of_string.
Qed.

Lemma decode_encode pre s post :
  Z.of_nat (length (into_bytes s)) < 2 ^ 32 →
  decode (pre ++ encode s ++ post) (Z.of_nat (length pre)) = Some s.
Proof.
  intros Hl. unfold decode. rewrite Nat2Z.id, drop_app_length. unfold encode. 
  set (n := Z.of_nat (length (into_bytes s))) in *.
  assert (∀ r : list Z, take 4 (drop 4 (STRING_TAG ++ to_le n ++ r)) = to_le n) as E1 by done.
  assert (∀ r : list Z, drop 8 (STRING_TAG ++ to_le n ++ r) = r) as E2 by done.
  rewrite <- !app_assoc, E1, E2. rewrite bool_decide_true by done.
  rewrite of_le_to_le by lia. unfold n. rewrite Nat2Z.id, take_app_length.
  rewrite bool_decide_true by done. by rewrite bytes_roundtrip.
Qed.

(** ** The reference definition: every literal becomes its offset *)

Definition offset_lit (m : gmap string Z) (l : W.Lit) : W.Lit :=
  match l with
  | W.LString s => match m !! s with Some pos => W.LInterned s pos | None => l end
  | l => l
  end.
Section map_lits.
Context (f : W.Lit → W.Lit).
Fixpoint map_atom (a : W.Atom) : W.Atom :=
  match a with
  | W.ALit l s => W.ALit (f l) s
  | W.AnyLength x l s => W.AnyLength x (f l) s
  | W.AId _ _ | W.GetPrimFunc _ _ | W.Deref _ _ _ | W.EnvGet _ _ _ => a
  | W.PrimApp p args s => W.PrimApp p (map map_atom args) s
  | W.ToAny a ty s => W.ToAny (map_atom a) ty s
  | W.FloatToInt a s => W.FloatToInt (map_atom a) s
  | W.IntToFloat a s => W.IntToFloat (map_atom a) s
  | W.Unary op a s => W.Unary op (map_atom a) s
  | W.FromAny a t s => W.FromAny (map_atom a) t s
  | W.ObjectGet o g s => W.ObjectGet (map_atom o) (map_atom g) s
  | W.Binary op l r s => W.Binary op (map_atom l) (map_atom r) s
  end.
Definition map_expr (e : W.Expr) : W.Expr :=
  match e with
  | W.ObjectEmpty | W.Call _ _ _ | W.ClosureCall _ _ _ | W.PrimCall _ _ _ => e
  | W.AnyMethodCall o m args tys s => W.AnyMethodCall o (f m) args tys s
  | W.ObjectSet a b c s => W.ObjectSet (map_atom a) (map_atom b) (map_atom c) s
  | W.ArraySet a b c s => W.ArraySet (map_atom a) (map_atom b) (map_atom c) s
  | W.NewRef a t s => W.NewRef (map_atom a) t s
  | W.EAtom a s => W.EAtom (map_atom a) s
  | W.Closure g atoms s => W.Closure g (map (λ e, (map_atom e.1, e.2)) atoms) s
  end.
Fixpoint map_stmt (st : W.Stmt) : W.Stmt :=
  match st with
  | W.Empty | W.Break _ _ | W.Goto _ _ | W.Trap => st
  | W.Lbl l b s => W.Lbl l (map_stmt b) s
  | W.Loop b s => W.Loop (map_stmt b) s
  | W.Block ss s => W.Block (map map_stmt ss) s
  | W.Var v s => W.Var (W.mkVarStmt (W.var_id v) (map_expr (W.var_named v)) (W.var_ty v)) s
  | W.Expression e s => W.Expression (map_expr e) s
  | W.Assign x e s => W.Assign x (map_expr e) s
  | W.Store x e s => W.Store x (map_expr e) s
  | W.Return a s => W.Return (map_atom a) s
  | W.If c t e s => W.If (map_atom c) (map_stmt t) (map_stmt e) s
  end.
Definition map_function (g : Id * W.Function) : Id * W.Function :=
  (g.1, W.mkFunction (map_stmt (W.fn_body g.2)) (W.fn_type g.2) (W.fn_params g.2) (W.fn_span g.2)).
Definition map_global (g : Id * W.Global) : Id * W.Global :=
  (g.1, W.mkGlobal (W.is_mut g.2) (W.global_ty g.2) (map_atom <$> W.global_atom g.2)).
End map_lits.

(** ** Correctness *)

(** What is stored so far. *)
Record visitor_ok (v : InternVisitor) : Prop := {
  vis_aligned : Z.of_nat (length (data v)) mod 4 = 0;
  vis_strings s pos : already_interned v !! s = Some pos →
    ∃ pre post, data v = pre ++ encode s ++ post ∧ pos = Z.of_nat (length pre) ∧ pos mod 4 = 0
}.
Definition bounded (v : InternVisitor) : Prop := Z.of_nat (length (data v)) < 2 ^ 32.
Definition grows (v v' : InternVisitor) : Prop :=
  (∃ x, data v' = data v ++ x) ∧ already_interned v ⊆ already_interned v'.

(** From [v] to [v'], the strings of [lits] were interned, and what was
    produced is determined by the final table. *)
Definition interns (v v' : InternVisitor) (lits : list W.Lit) (P : gmap string Z → Prop) : Prop :=
  grows v v' ∧
  (visitor_ok v → bounded v' →
   visitor_ok v' ∧ (∀ s, W.LString s ∈ lits → is_Some (already_interned v' !! s)) ∧
   ∀ m, already_interned v' ⊆ m → P m).

Lemma interns_skip v (P : gmap string Z → Prop) : (∀ m, P m) → interns v v [] P.
Proof.
  intros HP. split; [split; [exists []; by rewrite app_nil_r|done]|]. intros Hv _.
  split; [done|]. split; [by intros s H%elem_of_nil|auto].
Qed.

Lemma interns_seq v1 v2 v3 l1 l2 (P1 P2 P : gmap string Z → Prop) :
  interns v1 v2 l1 P1 → interns v2 v3 l2 P2 → (∀ m, P1 m → P2 m → P m) → interns v1 v3 (l1 ++ l2) P.
Proof.
  intros [[[x1 G1] M1] H1] [[[x2 G2] M2] H2] HP. split.
  { split; [exists (x1 ++ x2); by rewrite G2, G1, app_assoc|by etrans]. }
  intros Hv Hb. assert (bounded v2) as Hb2.
  { unfold bounded in *. rewrite G2, length_app in Hb. lia. }
  destruct (H1 Hv Hb2) as (Hv2 & Hl1 & HP1). destruct (H2 Hv2 Hb) as (Hv3 & Hl2 & HP2).
  split; [done|]. split.
  - intros s [Hs|Hs]%elem_of_app; [|auto]. destruct (Hl1 s Hs) as [p Hp]. exists p. by eapply lookup_weaken.
  - intros m Hm. apply HP; [|auto]. apply HP1. by etrans.
Qed.

Lemma interns_impl v v' l (P Q : gmap string Z → Prop) :
  interns v v' l P → (∀ m, P m → Q m) → interns v v' l Q.
Proof. intros [G H] HPQ. split; [done|]. intros Hv Hb. destruct (H Hv Hb) as (? & ? & ?). eauto. Qed.

Lemma wrap_length {A} (l : list A) : Z.of_nat (length l) < 2 ^ 32 → Int.wrap_u 32 (Z.of_nat (length l)) = Z.of_nat (length l).
Proof. intros H. unfold Int.wrap_u. apply Z.mod_small. lia. Qed.

Lemma intern_string_ok v l :
  interns v (intern_string v l).1 [l] (λ m, (intern_string v l).2 = offset_lit m l).
Proof.
  destruct l as [b|i|f|s|s p| |]; unfold intern_string; cbn [fst snd offset_lit];
    try (apply (interns_impl v v [_] (λ _, True)); [|done];
         split; [split; [exists []; by rewrite app_nil_r|done]|];
         intros Hv _; split; [done|]; split; [by intros s' [=]%list_elem_of_singleton|done]).
  destruct (already_interned v !! s) as [pos|] eqn:Hs; cbn [fst snd].
  - split; [split; [exists []; by rewrite app_nil_r|done]|]. intros Hv _. split; [done|].
    split; [intros s' [= ->]%list_elem_of_singleton; by rewrite Hs|].
    intros m Hm. by rewrite (lookup_weaken _ _ _ _ Hs Hm).
  - split; [split; [by eexists|by apply insert_subseteq]|].
    intros [Hal Hst] Hb. unfold bounded in Hb. cbn [data] in Hb. rewrite !length_app in Hb.
    rewrite (wrap_length (data v)) by lia. assert (Int.wrap_u 32 (Z.of_nat (length (into_bytes s))) = Z.of_nat (length (into_bytes s))) as Ew
      by (apply wrap_length; lia).
    rewrite Ew.
    clear Ew Hb.
    set (n := Z.of_nat (length (into_bytes s))) in *.
    assert (length (to_le n) = 4%nat) as L4 by done. assert (length STRING_TAG = 4%nat) as L4' by done.
    split; [|split].
    + split; cbn [data already_interned].
      * rewrite !length_app, length_replicate, L4, L4'.
        pose proof (Z.mod_pos_bound (n + 8 + 3) 4 ltac:(lia)). unfold n in *.
        Z.to_euclidean_division_equations. lia.
      * intros s' pos Hs'. apply lookup_insert_Some in Hs' as [[-> <-]|[_ Hs']].
        -- exists (data v), (replicate (Z.to_nat (3 - (n + 8 + 3) mod 4)) 0). unfold encode. fold n.
           rewrite <- !app_assoc. done.
        -- destruct (Hst s' pos Hs') as (pre & post & Hd & ? & ?). rewrite Hd. exists pre. eexists.
           rewrite <- !app_assoc. by split.
    + intros s' [= ->]%list_elem_of_singleton. cbn. by rewrite lookup_insert_eq.
    + intros m Hm. cbn in Hm. erewrite (lookup_weaken _ m s); [done| |done]. by rewrite lookup_insert_eq.
Qed.

Lemma map_state_ok {A B} (f : InternVisitor → A → InternVisitor * B) (g : gmap string Z → A → B)
    (lits : A → list W.Lit) (l : list A) v :
  Forall (λ x, ∀ v, interns v (f v x).1 (lits x) (λ m, (f v x).2 = g m x)) l →
  interns v (map_state f v l).1 (concat (map lits l)) (λ m, (map_state f v l).2 = map (g m) l).
Proof.
  intros Hl. revert v. induction Hl as [|x l Hx _ IH]; intros v; cbn.
  - by apply interns_skip.
  - specialize (Hx v). destruct (f v x) as [v1 y]. specialize (IH v1).
    destruct (map_state f v1 l) as [v2 k]. cbn in *.
    eapply interns_seq; [done|done|]. cbn. by intros m -> ->.
Qed.

(** Conclude from what is known of the single call of a pass. *)
Ltac use_pass lem :=
  let H := fresh "H" in
  pose proof lem as H; match type of H with interns _ (?t).1 _ _ => destruct t end;
  cbn in *; eapply interns_impl; [exact H|]; by intros ? ->.

Lemma intern_atom_ok a v :
  interns v (intern_atom v a).1 (atom_lits a) (λ m, (intern_atom v a).2 = map_atom (offset_lit m) a).
Proof.
  revert v. induction a as [l s|p args s IH|a ty s IH|a t s IH|a s IH|a s IH|o f s IHo IHf|o l s|x s|x s|op a s IH|op l r s IHl IHr|a t s IH|i t s] using W.Atom_ind'; intros v; cbn.
  all: try (by apply interns_skip).
  all: try (use_pass (IH v)).
  - use_pass (intern_string_ok v l).
  - use_pass (map_state_ok intern_atom (λ m, map_atom (offset_lit m)) atom_lits args v IH).
  - specialize (IHo v). destruct (intern_atom v o) as [v1 o1]. specialize (IHf v1).
    destruct (intern_atom v1 f) as [v2 f1]. cbn in *. eapply interns_seq; [done|done|]. by intros m -> ->.
  - use_pass (intern_string_ok v l).
  - specialize (IHl v). destruct (intern_atom v l) as [v1 l1]. specialize (IHr v1).
    destruct (intern_atom v1 r) as [v2 r1]. cbn in *. eapply interns_seq; [done|done|]. by intros m -> ->.
Qed.

Lemma intern_atoms3_ok v a b c :
  let '(v1, a1) := intern_atom v a in let '(v2, b1) := intern_atom v1 b in
  let '(v3, c1) := intern_atom v2 c in
  interns v v3 (atom_lits a ++ atom_lits b ++ atom_lits c)
    (λ m, a1 = map_atom (offset_lit m) a ∧ b1 = map_atom (offset_lit m) b ∧ c1 = map_atom (offset_lit m) c).
Proof.
  pose proof (intern_atom_ok a v) as Ha. destruct (intern_atom v a) as [v1 a1].
  pose proof (intern_atom_ok b v1) as Hb. destruct (intern_atom v1 b) as [v2 b1].
  pose proof (intern_atom_ok c v2) as Hc. destruct (intern_atom v2 c) as [v3 c1]. cbn in *.
  eapply interns_seq; [exact Ha| |]. { eapply interns_seq; [exact Hb|exact Hc|]. intros m P Q. exact (conj P Q). }
  by intros m ? [? ?].
Qed.

Lemma intern_expr_ok e v :
  interns v (intern_expr v e).1 (expr_lits e) (λ m, (intern_expr v e).2 = map_expr (offset_lit m) e).
Proof.
  destruct e as [a b c s|f args s|f args s|o m args tys s|p args s| |a b c s|a t s|a s|f atoms s];
    cbn; try by apply interns_skip.
  - pose proof (intern_atoms3_ok v a b c) as H. repeat case_match. cbn in *.
    eapply interns_impl; [exact H|]. by intros m (-> & -> & ->).
  - use_pass (intern_string_ok v m).
  - pose proof (intern_atoms3_ok v a b c) as H. repeat case_match. cbn in *.
    eapply interns_impl; [exact H|]. by intros m (-> & -> & ->).
  - use_pass (intern_atom_ok a v).
  - use_pass (intern_atom_ok a v).
  - pose proof (map_state_ok (λ v e, let '(v, a) := intern_atom v e.1 in (v, (a, e.2)))
      (λ m e, (map_atom (offset_lit m) e.1, e.2)) (λ e : W.Atom * N.typ, atom_lits e.1) atoms v) as H.
    destruct (map_state _ v atoms) as [v1 k]. cbn in *. eapply interns_impl; [apply H|by intros m ->].
    apply Forall_forall. intros [a t] _ v0. pose proof (intern_atom_ok a v0) as Ha. cbn.
    destruct (intern_atom v0 a). cbn in *. eapply interns_impl; [exact Ha|]. by intros m ->.
Qed.

Lemma intern_stmt_ok st v :
  interns v (intern_stmt v st).1 (stmt_lits st) (λ m, (intern_stmt v st).2 = map_stmt (offset_lit m) st).
Proof.
  revert v. induction st as [|var s|e s|x e s|x e s|c t e s IHt IHe|b s IH|l b s IH|l s|a s|ss s IH| |l s] using W.Stmt_ind';
    intros v; cbn; try by apply interns_skip.
  - use_pass (intern_expr_ok (W.var_named var) v).
  - use_pass (intern_expr_ok e v).
  - use_pass (intern_expr_ok e v).
  - use_pass (intern_expr_ok e v).
  - pose proof (intern_atom_ok c v) as H. destruct (intern_atom v c) as [v1 c1].
    specialize (IHt v1). destruct (intern_stmt v1 t) as [v2 t1].
    specialize (IHe v2). destruct (intern_stmt v2 e) as [v3 e1]. cbn in *.
    eapply interns_seq; [exact H| |]. { eapply interns_seq; [exact IHt|exact IHe|]. intros m P Q. exact (conj P Q). }
    by intros m -> [-> ->].
  - use_pass (IH v).
  - use_pass (IH v).
  - use_pass (intern_atom_ok a v).
  - use_pass (map_state_ok intern_stmt (λ m, map_stmt (offset_lit m)) stmt_lits ss v IH).
Qed.

Lemma intern_function_ok f v :
  interns v (intern_function v f).1 (stmt_lits (W.fn_body f.2))
    (λ m, (intern_function v f).2 = map_function (offset_lit m) f).
Proof.
  unfold intern_function, map_function. pose proof (intern_stmt_ok (W.fn_body f.2) v) as H.
  destruct (intern_stmt v _). cbn in *. eapply interns_impl; [exact H|]. by intros m ->.
Qed.
Lemma intern_global_ok g v :
  interns v (intern_global v g).1 (global_lits g.2) (λ m, (intern_global v g).2 = map_global (offset_lit m) g).
Proof.
  unfold intern_global, global_lits, map_global. destruct g as [x [mu t [a|]]]; cbn.
  - use_pass (intern_atom_ok a v).
  - by apply interns_skip.
Qed.

Lemma intern_interns p :
  ∃ v, (intern p).2 = already_interned v ∧ W.prog_data (intern p).1 = data v ∧
    interns visitor_default v (program_lits p)
      (λ m, (intern p).1 = W.mkProgram (W.rts_fn_imports p) (map (map_function (offset_lit m)) (W.functions p))
                             (map (map_global (offset_lit m)) (W.globals p)) (data v)).
Proof.
  unfold intern, program_lits.
  pose proof (map_state_ok intern_function (λ m, map_function (offset_lit m)) (λ f, stmt_lits (W.fn_body f.2))
    (W.functions p) visitor_default) as Hf.
  destruct (map_state intern_function _ _) as [v1 fs].
  pose proof (map_state_ok intern_global (λ m, map_global (offset_lit m)) (λ g, global_lits g.2)
    (W.globals p) v1) as Hg.
  destruct (map_state intern_global _ _) as [v2 gs]. cbn in *. exists v2. split; [done|]. split; [done|].
  eapply interns_seq; [apply Hf|apply Hg|].
  - apply Forall_forall. intros f _ v. apply intern_function_ok.
  - apply Forall_forall. intros g _ v. apply intern_global_ok.
  - by intros m -> ->.
Qed.


(** A program that returns a string, and prints two. *)
Definition sample_program : W.Program :=
  let str s := W.ALit (W.LString s) Unknown in
  W.mkProgram [] [(Types.Named "main", W.mkFunction
    (W.Block [W.Expression (W.AnyMethodCall (Types.Named "o") (W.LString "length") [] [] Unknown) Unknown;
              W.Expression (W.EAtom (str "012301") Unknown) Unknown;
              W.Return (str "length") Unknown] Unknown)
    (N.mkFnType [] (Some N.String)) [] Unknown)] [] [].

