(* ===== verification/Goto.v ===== *)
(** Elimination of gotos ([notwasm/elim_gotos.rs], [notwasm/label_apps.rs]): two
    passes that the compiler has switched off, with a semantics of NotWasm
    statements against which the first half of their contract is proved, and
    the programs on which the second half fails. *)
From S2P Require Import Prelude.
From S2P Require Import Types.
From S2P Require Import Operators.
From S2P Require Import NotWasm.
From S2P Require Import Intern.
From S2P Require Import NotWasmTyping.

(** ** Constructors ([notwasm/constructors.rs]) *)
Definition id_ (a : string) : Id := Named a.
Definition get_id_ (a : string) (s : Pos) : W.Atom := W.AId (id_ a) s.
Definition if_ (a : W.Atom) (b c : W.Stmt) (s : Pos) : W.Stmt := W.If a b c s.
Definition label_ (a : W.Label) (b : W.Stmt) (s : Pos) : W.Stmt := W.Lbl a b s.
Definition i32_ (a : Z) (s : Pos) : W.Atom := W.ALit (W.LI32 a) s.
Definition atom_ (a : W.Atom) (s : Pos) : W.Expr := W.EAtom a s.
Definition TRUE_ : W.Atom := W.ALit (W.LBool true) Unknown.
Definition FALSE_ : W.Atom := W.ALit (W.LBool false) Unknown.
Definition not_ (a : W.Atom) (s : Pos) : W.Atom := W.Binary I32Sub (i32_ 1 s) a s.
Definition band_ (a b : W.Atom) (s : Pos) : W.Atom := W.Binary I32And a b s.
Definition bor_ (a b : W.Atom) (s : Pos) : W.Atom := W.Binary I32Or a b s.
Definition eq_ (a b : W.Atom) (s : Pos) : W.Atom := W.Binary I32Eq a b s.
Definition gte_ (a b : W.Atom) (s : Pos) : W.Atom := W.Binary I32Ge a b s.
Definition lte_ (a b : W.Atom) (s : Pos) : W.Atom := W.Binary I32Le a b s.

(** ** The traversal, for a visitor that has [exit_stmt] only *)
Section walk.
Context {S : Type} (exit_stmt : S → W.Stmt → S * W.Stmt).
Fixpoint walk_stmt (v : S) (st : W.Stmt) : S * W.Stmt :=
  let '(v, st) :=
    match st with
    | W.Lbl l b s => let '(v, b) := walk_stmt v b in (v, W.Lbl l b s)
    | W.Loop b s => let '(v, b) := walk_stmt v b in (v, W.Loop b s)
    | W.Block ss s => let '(v, ss) := map_state walk_stmt v ss in (v, W.Block ss s)
    | W.If c t e s =>
        let '(v, t) := walk_stmt v t in let '(v, e) := walk_stmt v e in (v, W.If c t e s)
    | st => (v, st)
    end in
  exit_stmt v st.
End walk.

(** ** Labels for applications ([label_apps.rs]); the counter is an [i32] *)
Definition label_exit_stmt (n : Z) (st : W.Stmt) : Z * W.Stmt :=
  match st with
  | W.Assign _ (W.Call _ _ _) s => (Int.wrap_s 32 (n + 1), label_ (W.App n) st s)
  | W.Var v s =>
      match W.var_named v with
      | W.Call _ _ _ => (Int.wrap_s 32 (n + 1), label_ (W.App n) st s)
      | _ => (n, st)
      end
  | _ => (n, st)
  end.
Definition label_stmt : Z → W.Stmt → Z * W.Stmt := walk_stmt label_exit_stmt.
Definition label_function (n : Z) (f : Id * W.Function) : Z * (Id * W.Function) :=
  let '(n, b) := label_stmt n (W.fn_body f.2) in
  (n, (f.1, W.mkFunction b (W.fn_type f.2) (W.fn_params f.2) (W.fn_span f.2))).
Definition label_apps (p : W.Program) : W.Program :=
  W.mkProgram (W.rts_fn_imports p) (map_state label_function 0 (W.functions p)).2 (W.globals p) (W.prog_data p).

(** ** Elimination ([elim_gotos.rs]) *)
Definition is_call (st : W.Stmt) : bool :=
  match st with
  | W.Assign _ (W.Call _ _ _) _ => true
  | W.Var v _ => match W.var_named v with W.Call _ _ _ => true | _ => false end
  | _ => false
  end.

(** [LabelBoundsVisitor] and [bounds]. *)
Definition bounds_exit_stmt (b : option (Z * Z)) (st : W.Stmt) : option (Z * Z) * W.Stmt :=
  match st with
  | W.Lbl (W.App n) _ _ =>
      (match b with
       | Some (lo, hi) => Some (if n <? lo then n else lo, if hi <? n then n else hi)
       | None => Some (n, n)
       end, st)
  | _ => (b, st)
  end.
Definition bounds (st : W.Stmt) : option (Z * Z) := (walk_stmt bounds_exit_stmt None st).1.

Definition bounds_check_maybe_if (body : W.Stmt) (alt_check : W.Atom) (s : Pos) : W.Atom :=
  match bounds body with
  | Some (lo, hi) =>
      let if_goto := band_ (gte_ (get_id_ "gotoTarget" s) (i32_ lo s) s) (lte_ (get_id_ "gotoTarget" s) (i32_ hi s) s) s in
      let in_goto_case := band_ (get_id_ "inGoto" s) if_goto s in
      bor_ alt_check in_goto_case s
  | None => alt_check
  end.
Definition bounds_check_if (body : W.Stmt) (not_goto_check : W.Atom) (s : Pos) : W.Atom :=
  bounds_check_maybe_if body (band_ not_goto_check (not_ (get_id_ "inGoto" s) s) s) s.
Definition bounds_check (body : W.Stmt) (s : Pos) : W.Atom :=
  bounds_check_maybe_if body (not_ (get_id_ "inGoto" s) s) s.

Definition goto_exit_stmt (st : W.Stmt) : W.Stmt :=
  match st with
  | W.Goto (W.App l) s =>
      if_ (get_id_ "inGoto" s) W.Empty
        (W.Block [W.Assign (id_ "inGoto") (atom_ TRUE_ s) s;
                  W.Assign (id_ "gotoTarget") (atom_ (i32_ l s) s) s] s) s
  | W.Lbl (W.App n) call s =>
      if is_call call then
        if_ (bor_ (not_ (get_id_ "inGoto" s) s) (eq_ (get_id_ "gotoTarget" s) (i32_ n s) s) s)
          (W.Block [W.Assign (id_ "inGoto") (atom_ FALSE_ s) s; call] s) W.Empty s
      else st
  | W.Var _ s | W.Assign _ _ s => if is_call st then st else if_ (get_id_ "inGoto" s) W.Empty st s
  | W.If cond cons' alt s =>
      let cons_cond := bounds_check_if cons' cond s in
      let alt_cond := bounds_check alt s in
      if_ cons_cond cons' (if_ alt_cond alt W.Empty s) s
  | W.Loop body s => if_ (bounds_check body s) st W.Empty s
  | _ => st
  end.
Definition goto_stmt (st : W.Stmt) : W.Stmt := (walk_stmt (λ (_ : unit) st, (tt, goto_exit_stmt st)) tt st).2.

Definition elim_body (body : W.Stmt) : W.Stmt :=
  let s := Unknown in
  W.Block [W.Var (W.var_new (id_ "inGoto") (atom_ FALSE_ s)) s;
           W.Var (W.var_new (id_ "gotoTarget") (atom_ (i32_ 0 s) s)) s;
           goto_stmt body;
           if_ (get_id_ "inGoto" s) W.Trap W.Empty s] s.
Definition elim_function (f : Id * W.Function) : Id * W.Function :=
  (f.1, W.mkFunction (elim_body (W.fn_body f.2)) (W.fn_type f.2) (W.fn_params f.2) (W.fn_span f.2)).
Definition elim_gotos (p : W.Program) : W.Program :=
  W.mkProgram (W.rts_fn_imports p) (map elim_function (W.functions p)) (W.globals p) (W.prog_data p).

(** ** A semantics of statements

    Locals belong to the function, and hide globals.  What the machine does for atoms and
    expressions is given, but for constants, variables and the operators on
    integers that the pass uses: those of WebAssembly, where a boolean is 0 or
    1.  [atom] and [expr] read locals through the function they are given. *)
Class Machine := {
  value : Type;
  world : Type;
  of_i32 : Z → value;
  of_lit : W.Lit → value;
  binary : BinaryOp → value → value → option value;
  truth : value → option bool;
  store : value → value → world → option world;
  global : world → Id → option value;
  set_global : Id → value → world → option world;
  atom : (Id → option value) → world → W.Atom → option value;
  expr : (Id → option value) → world → W.Expr → option (value * world);
  of_lit_i32 n : of_lit (W.LI32 n) = of_i32 n;
  of_lit_bool b : of_lit (W.LBool b) = of_i32 (Z.b2z b);
  binary_sub a b : Int.in_i32 (a - b) → binary I32Sub (of_i32 a) (of_i32 b) = Some (of_i32 (a - b));
  binary_and a b : binary I32And (of_i32 a) (of_i32 b) = Some (of_i32 (Z.land a b));
  binary_or a b : binary I32Or (of_i32 a) (of_i32 b) = Some (of_i32 (Z.lor a b));
  binary_eq a b : binary I32Eq (of_i32 a) (of_i32 b) = Some (of_i32 (Z.b2z (a =? b)));
  binary_ge a b : binary I32Ge (of_i32 a) (of_i32 b) = Some (of_i32 (Z.b2z (b <=? a)));
  binary_le a b : binary I32Le (of_i32 a) (of_i32 b) = Some (of_i32 (Z.b2z (a <=? b)));
  truth_bool v b : truth v = Some b ↔ v = of_i32 (Z.b2z b);
}.

(** The variables of an atom and of an expression. *)
Fixpoint atom_ids (a : W.Atom) : list Id :=
  match a with
  | W.ALit _ _ | W.EnvGet _ _ _ => []
  | W.AId x _ | W.GetPrimFunc x _ | W.AnyLength x _ _ => [x]
  | W.PrimApp _ args _ => concat (map atom_ids args)
  | W.ToAny a _ _ | W.FromAny a _ _ | W.FloatToInt a _ | W.IntToFloat a _ | W.Unary _ a _ | W.Deref a _ _ => atom_ids a
  | W.ObjectGet a b _ | W.Binary _ a b _ => atom_ids a ++ atom_ids b
  end.
Definition expr_ids (e : W.Expr) : list Id :=
  match e with
  | W.ArraySet a b c _ | W.ObjectSet a b c _ => atom_ids a ++ atom_ids b ++ atom_ids c
  | W.Call f args _ | W.ClosureCall f args _ => f :: args
  | W.AnyMethodCall x _ args _ _ => x :: args
  | W.PrimCall _ args _ => args
  | W.ObjectEmpty => []
  | W.NewRef a _ _ | W.EAtom a _ => atom_ids a
  | W.Closure f env _ => f :: concat (map (λ e, atom_ids e.1) env)
  end.
(** Atoms and expressions depend on their variables only. *)
Class Local `(Machine) : Prop := {
  atom_local ρ ρ' w a : (∀ x, x ∈ atom_ids a → ρ x = ρ' x) → atom ρ w a = atom ρ' w a;
  expr_local ρ ρ' w e : (∀ x, x ∈ expr_ids e → ρ x = ρ' x) → expr ρ w e = expr ρ' w e
}.

Section semantics.
Context `{Machine}.
Abbreviation locals := (gmap Id value).

Definition var (σ : locals) (w : world) (x : Id) : option value :=
  match σ !! x with Some v => Some v | None => global w x end.
Fixpoint eval (σ : locals) (w : world) (a : W.Atom) : option value :=
  match a with
  | W.ALit l _ => Some (of_lit l)
  | W.AId x _ => var σ w x
  | W.Binary op l r _ => v ← eval σ w l; u ← eval σ w r; binary op v u
  | _ => atom (var σ w) w a
  end.
Definition eval_expr (σ : locals) (w : world) (e : W.Expr) : option (value * world) :=
  match e with
  | W.EAtom a _ => v ← eval σ w a; Some (v, w)
  | _ => expr (var σ w) w e
  end.

Inductive outcome : Type :=
  | Normal | Breaks (l : W.Label) | Returns (v : value) | Traps | Gotos (l : W.Label).
(** A run is stuck at an atom without a value, and has an end if the fuel, the
    number of iterations of each loop, is enough. *)
Inductive result : Type :=
  | OutOfFuel | Stuck | Done (o : outcome) (σ : locals) (w : world).

(** What follows a statement runs if it ends normally. *)
Definition and_then (r : result) (k : locals → world → result) : result :=
  match r with Done Normal σ w => k σ w | r => r end.
Definition or_stuck {A} (o : option A) (k : A → result) : result :=
  match o with Some x => k x | None => Stuck end.
Fixpoint iterate (fuel : nat) (body : locals → world → result) (σ : locals) (w : world) : result :=
  match fuel with
  | O => OutOfFuel
  | S fuel => and_then (body σ w) (iterate fuel body)
  end.
(** A break to the label of a statement ends it. *)
Definition catch (l : W.Label) (r : result) : result :=
  match r with
  | Done (Breaks l') σ w => if decide (l = l') then Done Normal σ w else r
  | r => r
  end.

Fixpoint run (fuel : nat) (st : W.Stmt) (σ : locals) (w : world) : result :=
  match st with
  | W.Empty => Done Normal σ w
  | W.Var v _ => or_stuck (eval_expr σ w (W.var_named v)) (λ '(x, w), Done Normal (<[W.var_id v := x]> σ) w)
  | W.Assign x e _ =>
      or_stuck (eval_expr σ w e) (λ '(v, w),
        match σ !! x with
        | Some _ => Done Normal (<[x := v]> σ) w
        | None => or_stuck (set_global x v w) (Done Normal σ)
        end)
  | W.Expression e _ => or_stuck (eval_expr σ w e) (λ '(_, w), Done Normal σ w)
  | W.Store x e _ =>
      or_stuck (eval_expr σ w e) (λ '(v, w), or_stuck (r ← var σ w x; store r v w) (Done Normal σ))
  | W.If c t e _ =>
      or_stuck (eval σ w c ≫= truth) (λ b : bool, if b then run fuel t σ w else run fuel e σ w)
  | W.Loop b _ => iterate fuel (run fuel b) σ w
  | W.Lbl l b _ => catch l (run fuel b σ w)
  | W.Break l _ => Done (Breaks l) σ w
  | W.Return a _ => or_stuck (eval σ w a) (λ v, Done (Returns v) σ w)
  | W.Block ss _ => foldr (λ st k σ w, and_then (run fuel st σ w) k) (Done Normal) ss σ w
  | W.Trap => Done Traps σ w
  | W.Goto l _ => Done (Gotos l) σ w
  end.

(** ** Without gotos, the passes keep the behaviour *)

(** The two variables of the pass. *)
Definition flags : list Id := [id_ "inGoto"; id_ "gotoTarget"].
Definition hidden (x : Id) : bool := bool_decide (x ∈ flags).
Definition uses (l : list Id) : bool := existsb hidden l.

(** A statement without gotos and labels of applications, that does not use
    the two variables. *)
Fixpoint plain (st : W.Stmt) : bool :=
  match st with
  | W.Empty | W.Trap => true
  | W.Break l _ => match l with W.App _ => false | W.Named _ => true end
  | W.Var v _ => negb (hidden (W.var_id v)) && negb (uses (expr_ids (W.var_named v)))
  | W.Assign x e _ | W.Store x e _ => negb (hidden x) && negb (uses (expr_ids e))
  | W.Expression e _ => negb (uses (expr_ids e))
  | W.If c t e _ => negb (uses (atom_ids c)) && plain t && plain e
  | W.Loop b _ => plain b
  | W.Lbl l b _ => match l with W.App _ => false | W.Named _ => plain b end
  | W.Return a _ => negb (uses (atom_ids a))
  | W.Block ss _ => forallb plain ss
  | W.Goto _ _ => false
  end.
(** What the translation to WebAssembly requires. *)
Fixpoint no_gotos (st : W.Stmt) : bool :=
  match st with
  | W.If _ t e _ => no_gotos t && no_gotos e
  | W.Loop b _ => no_gotos b
  | W.Lbl l b _ => match l with W.App _ => false | W.Named _ => no_gotos b end
  | W.Block ss _ => forallb no_gotos ss
  | W.Goto _ _ => false
  | _ => true
  end.

(** The same locals, but for the two variables: no goto is under way. *)
Record same (σ τ : locals) : Prop := {
  same_locals x : hidden x = false → τ !! x = σ !! x;
  same_in_goto : τ !! id_ "inGoto" = Some (of_i32 0);
  same_target : ∃ t, τ !! id_ "gotoTarget" = Some (of_i32 t)
}.
(** The runs agree, unless the first is stuck, as at a condition that is not a boolean. *)
Definition same_result (r r' : result) : Prop :=
  match r, r' with
  | OutOfFuel, OutOfFuel => True
  | Stuck, _ => True
  | Done o σ w, Done o' τ w' => o' = o ∧ w' = w ∧ same σ τ
  | _, _ => False
  end.

Lemma uses_spec l : uses l = false ↔ ∀ x, x ∈ l → hidden x = false.
Proof.
  unfold uses. induction l as [|x l IH]; cbn; [split; [by intros _ x ?%elem_of_nil|done]|].
  rewrite orb_false_iff, IH. split.
  - intros [Hx Hl] y [->|Hy]%elem_of_cons; auto.
  - intros Hl. split; [apply Hl; by left|]. intros y Hy. apply Hl. by right.
Qed.
Lemma uses_app l k : uses (l ++ k) = uses l || uses k.
Proof. unfold uses. apply existsb_app. Qed.

Lemma same_insert σ τ x v : hidden x = false → same σ τ → same (<[x := v]> σ) (<[x := v]> τ).
Proof.
  intros Hx [Hl Hg (t & Ht)]. unfold hidden in Hx. apply bool_decide_eq_false in Hx.
  assert (x ≠ id_ "inGoto" ∧ x ≠ id_ "gotoTarget") as [? ?] by (split; intros ->; apply Hx; apply (bool_decide_unpack _); done).
  split.
  - intros y Hy. destruct (decide (x = y)) as [->|Hne]; [by rewrite !lookup_insert_eq|]. rewrite !lookup_insert_ne by done. auto.
  - by rewrite lookup_insert_ne.
  - exists t. by rewrite lookup_insert_ne.
Qed.
Lemma same_clear σ τ : same σ τ → same σ (<[id_ "inGoto" := of_i32 0]> τ).
Proof.
  intros [Hl Hg (t & Ht)]. split.
  - intros y Hy. rewrite lookup_insert_ne; [auto|]. by intros <-.
  - by rewrite lookup_insert_eq.
  - exists t. by rewrite lookup_insert_ne.
Qed.

Lemma and_then_same r r' k k' : same_result r r' → (∀ σ τ w, same σ τ → same_result (k σ w) (k' τ w)) →
  same_result (and_then r k) (and_then r' k').
Proof.
  intros Hr Hk. destruct r as [| |o σ w], r' as [| |o' τ w']; try done. destruct Hr as (-> & -> & Hs).
  destruct o; try done. by apply Hk.
Qed.
Lemma catch_same l r r' : same_result r r' → same_result (catch l r) (catch l r').
Proof.
  intros Hr. destruct r as [| |o σ w], r' as [| |o' τ w']; try done. destruct Hr as (-> & -> & Hs).
  destruct o; try done. cbn. by destruct (decide _).
Qed.
Lemma iterate_same fuel b b' : (∀ σ τ w, same σ τ → same_result (b σ w) (b' τ w)) →
  ∀ σ τ w, same σ τ → same_result (iterate fuel b σ w) (iterate fuel b' τ w).
Proof. intros Hb. induction fuel as [|fuel IH]; intros σ τ w Hs; [done|]. apply and_then_same; auto. Qed.

Section same.
Context `{!Local _} (σ τ : locals) (Hs : same σ τ).

Lemma var_same w x : hidden x = false → var τ w x = var σ w x.
Proof. intros Hx. unfold var. by rewrite (same_locals _ _ Hs). Qed.
Lemma eval_same w a : uses (atom_ids a) = false → eval τ w a = eval σ w a.
Proof.
  assert (∀ a, uses (atom_ids a) = false → atom (var τ w) w a = atom (var σ w) w a) as Hat.
  { intros b Hb. apply atom_local. intros x Hx. apply var_same. rewrite uses_spec in Hb. auto. }
  induction a using W.Atom_ind'; intros Hu; try (by apply Hat).
  - done.
  - apply var_same. rewrite uses_spec in Hu. apply Hu. by left.
  - cbn in *. rewrite uses_app, orb_false_iff in Hu. destruct Hu as [Hl Hr]. by rewrite IHa1, IHa2.
Qed.
Lemma eval_expr_same w e : uses (expr_ids e) = false → eval_expr τ w e = eval_expr σ w e.
Proof.
  intros Hu. assert (∀ e, uses (expr_ids e) = false → expr (var τ w) w e = expr (var σ w) w e) as Hex.
  { intros b Hb. apply expr_local. intros x Hx. apply var_same. rewrite uses_spec in Hb. auto. }
  destruct e; try (by apply Hex). cbn. by rewrite eval_same.
Qed.

(** The guards, when no goto is under way. *)
Lemma eval_in_goto w s : eval τ w (get_id_ "inGoto" s) = Some (of_i32 0).
Proof. cbn. unfold var. by rewrite (same_in_goto _ _ Hs). Qed.
Lemma eval_not_in_goto w s : eval τ w (not_ (get_id_ "inGoto" s) s) = Some (of_i32 1).
Proof.
  change (eval τ w (not_ (get_id_ "inGoto" s) s)) with (v ← Some (of_lit (W.LI32 1)); u ← eval τ w (get_id_ "inGoto" s); binary I32Sub v u).
  rewrite eval_in_goto. cbn. rewrite of_lit_i32, binary_sub; [done|]. split; vm_compute; [discriminate|done].
Qed.
Lemma eval_target w s : ∃ t, eval τ w (get_id_ "gotoTarget" s) = Some (of_i32 t).
Proof. destruct (same_target _ _ Hs) as [t Ht]. exists t. cbn. unfold var. by rewrite Ht. Qed.
Lemma eval_binary w op a b s : eval τ w (W.Binary op a b s) = (v ← eval τ w a; u ← eval τ w b; binary op v u).
Proof. done. Qed.
Lemma eval_i32 w n s : eval τ w (i32_ n s) = Some (of_i32 n).
Proof. cbn. by rewrite of_lit_i32. Qed.
Lemma eval_bounds w body alt n s : eval τ w alt = Some (of_i32 n) → eval τ w (bounds_check_maybe_if body alt s) = Some (of_i32 n).
Proof.
  intros Ha. unfold bounds_check_maybe_if. destruct (bounds body) as [[lo hi]|]; [|done].
  unfold bor_, band_, gte_, lte_. destruct (eval_target w s) as [t Ht]. rewrite !eval_binary, Ha, eval_in_goto, Ht, !eval_i32.
  cbn [mbind option_bind]. rewrite binary_ge, binary_le. cbn [mbind option_bind]. rewrite binary_and. cbn [mbind option_bind].
  rewrite binary_and. cbn [mbind option_bind]. by rewrite binary_or, Z.land_0_l, Z.lor_0_r.
Qed.
Lemma eval_label w n s :
  eval τ w (bor_ (not_ (get_id_ "inGoto" s) s) (eq_ (get_id_ "gotoTarget" s) (i32_ n s) s) s) = Some (of_i32 1).
Proof.
  unfold bor_, eq_. destruct (eval_target w s) as [t Ht]. rewrite eval_binary, eval_not_in_goto, eval_binary, Ht, eval_i32.
  cbn [mbind option_bind]. rewrite binary_eq. cbn [mbind option_bind]. rewrite binary_or. by destruct (t =? n).
Qed.
End same.

(** *** The passes, case by case *)
Lemma map_state_unit {A} (f : A → A) l : (map_state (λ (_ : unit) x, (tt, f x)) tt l).2 = map f l.
Proof. induction l as [|x l IH]; [done|]. cbn. destruct (map_state _ tt l) as [[] k]. cbn in *. by rewrite IH. Qed.
Lemma map_state_ext {S A} (f g : S → A → S * A) s l : (∀ s x, f s x = g s x) → map_state f s l = map_state g s l.
Proof. intros Hfg. revert s. induction l as [|x l IH]; intros s; [done|]. cbn. rewrite Hfg. destruct (g s x). by rewrite IH. Qed.

Lemma goto_walk st : walk_stmt (λ (_ : unit) st, (tt, goto_exit_stmt st)) tt st = (tt, goto_stmt st).
Proof. unfold goto_stmt. by destruct (walk_stmt _ tt st) as [[] ?]. Qed.
Lemma goto_stmt_eq st : goto_stmt st = goto_exit_stmt
  match st with
  | W.Lbl l b s => W.Lbl l (goto_stmt b) s
  | W.Loop b s => W.Loop (goto_stmt b) s
  | W.Block ss s => W.Block (map goto_stmt ss) s
  | W.If c t e s => W.If c (goto_stmt t) (goto_stmt e) s
  | st => st
  end.
Proof.
  unfold goto_stmt at 1. destruct st as [| | | | |c t e s|b s|l b s| | |ss s| |]; cbn [walk_stmt]; rewrite ?goto_walk; try done.
  rewrite (map_state_ext _ (λ (_ : unit) x, (tt, goto_stmt x))) by (intros [] x; apply goto_walk).
  pose proof (map_state_unit goto_stmt ss) as Hm. destruct (map_state _ tt ss) as [[] k]. cbn in Hm. by subst.
Qed.

Lemma label_stmt_eq n st :
  label_stmt n st =
  match st with
  | W.Lbl l b s => ((label_stmt n b).1, W.Lbl l (label_stmt n b).2 s)
  | W.Loop b s => ((label_stmt n b).1, W.Loop (label_stmt n b).2 s)
  | W.Block ss s => ((map_state label_stmt n ss).1, W.Block (map_state label_stmt n ss).2 s)
  | W.If c t e s =>
      let r := label_stmt n t in ((label_stmt r.1 e).1, W.If c r.2 (label_stmt r.1 e).2 s)
  | st => label_exit_stmt n st
  end.
Proof.
  unfold label_stmt at 1. destruct st as [| | | | |c t e s|b s|l b s| | |ss s| |]; cbn [walk_stmt]; fold label_stmt; try done.
  - change (walk_stmt label_exit_stmt) with label_stmt. cbn zeta. destruct (label_stmt n t) as [m t']. cbn [fst snd].
    by destruct (label_stmt m e).
  - change (walk_stmt label_exit_stmt) with label_stmt. by destruct (label_stmt n b).
  - change (walk_stmt label_exit_stmt) with label_stmt. by destruct (label_stmt n b).
  - change (walk_stmt label_exit_stmt) with label_stmt. by destruct (map_state label_stmt n ss).
Qed.

(** A statement that is guarded against running while a goto is under way. *)
Lemma run_guarded fuel τ w st st' a s : eval τ w a = Some (of_i32 1) → run fuel (if_ a st st' s) τ w = run fuel st τ w.
Proof.
  intros Ha. change (run fuel (if_ a st st' s) τ w) with
    (or_stuck (eval τ w a ≫= truth) (λ b : bool, if b then run fuel st τ w else run fuel st' τ w)).
  rewrite Ha. cbn. assert (truth (of_i32 1) = Some true) as -> by (by apply truth_bool). done.
Qed.
Lemma run_skipped fuel τ w st st' a s : eval τ w a = Some (of_i32 0) → run fuel (if_ a st st' s) τ w = run fuel st' τ w.
Proof.
  intros Ha. change (run fuel (if_ a st st' s) τ w) with
    (or_stuck (eval τ w a ≫= truth) (λ b : bool, if b then run fuel st τ w else run fuel st' τ w)).
  rewrite Ha. cbn. assert (truth (of_i32 0) = Some false) as -> by (by apply truth_bool). done.
Qed.

Section passes.
Context `{!Local _}.
Definition correct (st st' : W.Stmt) : Prop :=
  ∀ fuel σ τ w, same σ τ → same_result (run fuel st σ w) (run fuel st' τ w).

Lemma same_result_self o σ τ w : same σ τ → same_result (Done o σ w) (Done o τ w).
Proof. done. Qed.

(** Variables and assignments. *)
Lemma write_correct st : plain st = true →
  match st with W.Var _ _ | W.Assign _ _ _ => True | _ => False end → correct st st.
Proof.
  intros Hp Hst fuel σ τ w Hs. destruct st; try done; cbn in Hp; apply andb_true_iff in Hp as [Hx He];
    apply negb_true_iff in Hx, He; cbn [run]; rewrite (eval_expr_same σ τ) by done;
    destruct (eval_expr _ _ _) as [[x' w']|]; try done; cbn.
  - split; [done|]. split; [done|]. by apply same_insert.
  - rewrite (same_locals _ _ Hs) by done. destruct (σ !! x).
    + split; [done|]. split; [done|]. by apply same_insert.
    + destruct (set_global _ _ _); [|done]. by cbn.
Qed.
Lemma guarded_correct st st' s : correct st st' → correct st (if_ (get_id_ "inGoto" s) W.Empty st' s).
Proof. intros Hc fuel σ τ w Hs. rewrite run_skipped by (by apply (eval_in_goto σ)). by apply Hc. Qed.
(** A call, with its label. *)
Lemma call_correct st n s : correct st st → is_call st = true → correct st (goto_exit_stmt (label_ (W.App n) st s)).
Proof.
  intros Hc Hcall fuel σ τ w Hs. unfold label_. cbn [goto_exit_stmt]. rewrite Hcall.
  rewrite run_guarded by (by apply (eval_label σ)).
  set (τ' := <[id_ "inGoto" := of_i32 0]> τ). assert (same σ τ') as Hs' by (by apply same_clear).
  assert (run fuel (W.Block [W.Assign (id_ "inGoto") (atom_ FALSE_ s) s; st] s) τ w = run fuel st τ' w) as ->; [|by apply Hc].
  cbn [run foldr eval_expr atom_ FALSE_ eval]. cbn [mbind option_bind or_stuck]. rewrite of_lit_bool, (same_in_goto _ _ Hs).
  cbn [and_then]. change (of_i32 (Z.b2z false)) with (of_i32 0). fold τ'. by destruct (run fuel st τ' w) as [| |[] ? ?].
Qed.

Lemma if_correct c t t' e e' s : uses (atom_ids c) = false → correct t t' → correct e e' →
  correct (W.If c t e s) (goto_exit_stmt (W.If c t' e' s)).
Proof.
  intros Hc Ht He fuel σ τ w Hs. cbn [goto_exit_stmt]. cbn [run]. rewrite <- (eval_same σ τ Hs w c Hc).
  destruct (eval τ w c) as [v|] eqn:Hv; [|done]. cbn [mbind option_bind].
  destruct (truth v) as [b|] eqn:Hb; [|done]. cbn [or_stuck]. apply truth_bool in Hb. subst v.
  assert (eval τ w (bounds_check_if t' c s) = Some (of_i32 (Z.b2z b))) as Hg.
  { unfold bounds_check_if. apply (eval_bounds σ τ Hs). unfold band_. rewrite eval_binary, Hv, (eval_not_in_goto σ τ Hs).
    cbn [mbind option_bind]. rewrite binary_and. by destruct b. }
  destruct b.
  - rewrite run_guarded by done. by apply Ht.
  - rewrite run_skipped by done. rewrite run_guarded by (apply (eval_bounds σ τ Hs), (eval_not_in_goto σ τ Hs)). by apply He.
Qed.
Lemma loop_correct b b' s : correct b b' → correct (W.Loop b s) (goto_exit_stmt (W.Loop b' s)).
Proof.
  intros Hb fuel σ τ w Hs. cbn [goto_exit_stmt].
  rewrite run_guarded by (apply (eval_bounds σ τ Hs), (eval_not_in_goto σ τ Hs)).
  apply iterate_same; [|done]. intros. by apply Hb.
Qed.

Lemma passes_correct st : plain st = true → ∀ n, correct st (goto_stmt (label_stmt n st).2).
Proof.
  induction st as [|v s|e s|x e s|x e s|c t e s IHt IHe|b s IH|l b s IH|l s|a s|ss s IH| |l s] using W.Stmt_ind'; intros Hp n.
  - intros fuel σ τ w Hs. done.
  - pose proof (write_correct (W.Var v s) Hp I) as Hw. rewrite label_stmt_eq. unfold label_exit_stmt.
    destruct (W.var_named v) eqn:Hv; cbn [snd]; rewrite goto_stmt_eq; unfold label_;
      try (assert (goto_exit_stmt (W.Var v s) = if_ (get_id_ "inGoto" s) W.Empty (W.Var v s) s) as -> by (cbn; by rewrite Hv); by apply guarded_correct).
    assert (goto_stmt (W.Var v s) = W.Var v s) as -> by (rewrite goto_stmt_eq; cbn; by rewrite Hv).
    apply call_correct; [done|]. cbn. by rewrite Hv.
  - intros fuel σ τ w Hs. cbn in *. rewrite (eval_expr_same σ τ) by (done || by apply negb_true_iff).
    by destruct (eval_expr σ w e) as [[]|].
  - pose proof (write_correct (W.Assign x e s) Hp I) as Hw. rewrite label_stmt_eq. unfold label_exit_stmt.
    destruct e; cbn [snd]; rewrite goto_stmt_eq; unfold label_; try (by apply guarded_correct).
    by apply call_correct.
  - intros fuel σ τ w Hs. cbn in Hp. apply andb_true_iff in Hp as [Hx He]. apply negb_true_iff in Hx, He.
    rewrite label_stmt_eq, goto_stmt_eq. cbn. rewrite (eval_expr_same σ τ) by done.
    destruct (eval_expr σ w e) as [[v w']|]; [|done]. cbn. rewrite (var_same σ τ) by done.
    destruct (var σ w' x); [|done]. cbn. by destruct (store _ _ _).
  - cbn in Hp. rewrite !andb_true_iff in Hp. destruct Hp as [[Hc Hpt] Hpe]. apply negb_true_iff in Hc.
    rewrite label_stmt_eq, goto_stmt_eq. by apply if_correct; [|apply IHt|apply IHe].
  - rewrite label_stmt_eq, goto_stmt_eq. by apply loop_correct, IH.
  - destruct l as [l|l]; [|done]. rewrite label_stmt_eq, goto_stmt_eq. intros fuel σ τ w Hs. apply catch_same. by apply IH.
  - intros fuel σ τ w Hs. by destruct l.
  - intros fuel σ τ w Hs. cbn in *. rewrite (eval_same σ τ) by (done || by apply negb_true_iff). by destruct (eval σ w a).
  - rewrite label_stmt_eq, goto_stmt_eq. cbn [snd goto_exit_stmt]. intros fuel σ τ w Hs. cbn [run].
    cbn in Hp. revert n σ τ w Hs. induction IH as [|st ss IHst _ IHss]; intros n σ τ w Hs; [done|].
    cbn in Hp. apply andb_true_iff in Hp as [Hst Hss]. cbn [map_state].
    pose proof (IHst Hst n) as Hc. destruct (label_stmt n st) as [m st']. specialize (IHss Hss m).
    destruct (map_state label_stmt m ss) as [m' k]. cbn [snd map foldr] in *. apply and_then_same; [by apply Hc|done].
  - done.
  - done.
Qed.

Lemma passes_no_gotos st : plain st = true → ∀ n, no_gotos (goto_stmt (label_stmt n st).2) = true.
Proof.
  induction st as [|v s|e s|x e s|x e s|c t e s IHt IHe|b s IH|l b s IH|l s|a s|ss s IH| |l s] using W.Stmt_ind'; intros Hp n;
    rewrite label_stmt_eq; try (rewrite goto_stmt_eq; done).
  - unfold label_exit_stmt. destruct (W.var_named v) eqn:Hv; cbn [snd]; rewrite goto_stmt_eq; cbn [goto_exit_stmt is_call];
      rewrite ?Hv; try done. unfold label_. rewrite goto_stmt_eq. cbn. rewrite Hv. cbn. by rewrite Hv.
  - by destruct e.
  - cbn in Hp. rewrite !andb_true_iff in Hp. destruct Hp as [[_ Hpt] Hpe]. rewrite goto_stmt_eq. cbn.
    by rewrite IHt, IHe.
  - rewrite goto_stmt_eq. cbn. by rewrite IH.
  - destruct l; [|done]. rewrite goto_stmt_eq. cbn. by apply IH.
  - rewrite goto_stmt_eq. cbn [snd goto_exit_stmt no_gotos]. cbn in Hp. revert n. induction IH as [|st ss IHst _ IHss]; intros n; [done|].
    cbn in Hp. apply andb_true_iff in Hp as [Hst Hss]. cbn [map_state]. pose proof (IHst Hst n) as Hc.
    destruct (label_stmt n st) as [m st']. specialize (IHss Hss m). destruct (map_state label_stmt m ss) as [m' k].
    cbn in *. by rewrite Hc.
Qed.
End passes.

(** *** Labels *)
Fixpoint calls (st : W.Stmt) : nat :=
  match st with
  | W.If _ t e _ => calls t + calls e
  | W.Loop b _ | W.Lbl _ b _ => calls b
  | W.Block ss _ => sum_list_with calls ss
  | st => if is_call st then 1 else 0
  end.
Fixpoint labels (st : W.Stmt) : list Z :=
  match st with
  | W.If _ t e _ => labels t ++ labels e
  | W.Loop b _ => labels b
  | W.Lbl l b _ => match l with W.App n => n :: labels b | W.Named _ => labels b end
  | W.Block ss _ => concat (map labels ss)
  | _ => []
  end.

Definition labelled (n : Z) (k : nat) (r : Z * list Z) : Prop :=
  r.1 = n + Z.of_nat k ∧ r.2 = seqZ n (Z.of_nat k).
Lemma labelled_app n k k' l m l' : labelled n k (m, l) → labelled m k' (n + Z.of_nat k + Z.of_nat k', l') →
  labelled n (k + k') (n + Z.of_nat k + Z.of_nat k', l ++ l').
Proof.
  unfold labelled. cbn. intros [-> ->] [_ ->]. split; [lia|]. rewrite Nat2Z.inj_add, seqZ_app by lia. done.
Qed.

Lemma label_stmt_labels st : plain st = true → ∀ n, Int.in_i32 n → Int.in_i32 (n + Z.of_nat (calls st)) →
  labelled n (calls st) ((label_stmt n st).1, labels (label_stmt n st).2).
Proof.
  unfold Int.in_i32. induction st as [|v s|e s|x e s|x e s|c t e s IHt IHe|b s IH|l b s IH|l s|a s|ss s IH| |l s] using W.Stmt_ind';
    intros Hp n Hn Hk; rewrite label_stmt_eq; try (split; cbn; [lia|done]).
  - unfold labelled, label_exit_stmt. cbn in Hk |- *. destruct (W.var_named v); cbn in *; (split; [|done]); try lia.
    rewrite Int.wrap_s_id; unfold Int.in_i32; lia.
  - unfold labelled, label_exit_stmt. destruct e; cbn in Hk |- *; (split; [|done]); try lia.
    rewrite Int.wrap_s_id; unfold Int.in_i32; lia.
  - cbn in Hp, Hk. rewrite !andb_true_iff in Hp. destruct Hp as [[_ Hpt] Hpe]. cbn zeta. cbn [calls labels fst snd].
    specialize (IHt Hpt n Hn ltac:(lia)). pose proof IHt as [Hm _]. cbn in Hm. rewrite Hm in *.
    specialize (IHe Hpe (n + Z.of_nat (calls t)) ltac:(lia) ltac:(lia)). pose proof IHe as [He _]. cbn in He. rewrite He in *.
    by eapply labelled_app.
  - by apply IH.
  - destruct l; [|done]. by apply IH.
  - cbn [calls labels fst snd]. cbn in Hp, Hk. revert n Hn Hk. induction IH as [|st ss IHst _ IHss]; intros n Hn Hk; [split; cbn; [lia|done]|].
    cbn in Hp, Hk |- *. apply andb_true_iff in Hp as [Hst Hss].
    specialize (IHst Hst n Hn ltac:(lia)). pose proof IHst as [Hm _]. cbn in Hm.
    destruct (label_stmt n st) as [m st']. cbn in Hm, IHst. subst m.
    specialize (IHss Hss (n + Z.of_nat (calls st)) ltac:(lia) ltac:(lia)). pose proof IHss as [Hm _].
    destruct (map_state label_stmt _ ss) as [m k]. cbn in *. subst m. by eapply labelled_app.
Qed.

(** What becomes of a function. *)
Record eliminated (f f' : Id * W.Function) : Prop := {
  elim_name : f'.1 = f.1 ∧ W.fn_type f'.2 = W.fn_type f.2 ∧ W.fn_params f'.2 = W.fn_params f.2;
  elim_no_gotos : no_gotos (W.fn_body f'.2) = true;
  elim_same fuel σ w : same_result (run fuel (W.fn_body f.2) σ w) (run fuel (W.fn_body f'.2) σ w)
}.
Definition plain_function (f : Id * W.Function) : bool := plain (W.fn_body f.2).
Definition function_calls (f : Id * W.Function) : nat := calls (W.fn_body f.2).
Definition function_labels (f : Id * W.Function) : list Z := labels (W.fn_body f.2).

Lemma elim_body_same st st' : Local _ → correct st st' → ∀ fuel σ w,
  same_result (run fuel st σ w)
    (run fuel (W.Block [W.Var (W.var_new (id_ "inGoto") (atom_ FALSE_ Unknown)) Unknown;
                        W.Var (W.var_new (id_ "gotoTarget") (atom_ (i32_ 0 Unknown) Unknown)) Unknown; st';
                        if_ (get_id_ "inGoto" Unknown) W.Trap W.Empty Unknown] Unknown) σ w).
Proof.
  intros HL Hc fuel σ w.
  set (τ := <[id_ "gotoTarget" := of_i32 0]> (<[id_ "inGoto" := of_i32 0]> σ)).
  assert (same σ τ) as Hs.
  { split; [|by unfold τ; rewrite lookup_insert_ne, lookup_insert_eq|exists 0; apply lookup_insert_eq].
    intros x Hx. unfold τ. rewrite !lookup_insert_ne; [done|..]; by intros <-. }
  cbn [run foldr eval_expr atom_ FALSE_ i32_ eval W.var_new W.var_named W.var_id mbind option_bind or_stuck and_then].
  rewrite of_lit_bool, of_lit_i32. change (of_i32 (Z.b2z false)) with (of_i32 0). fold τ.
  specialize (Hc fuel σ τ w Hs). destruct (run fuel st σ w) as [| |o σ' w'], (run fuel st' τ w) as [| |o' τ' w'']; try done.
  destruct Hc as (-> & -> & Hs'). destruct o; try done. cbn [and_then].
  rewrite run_skipped by (by apply (eval_in_goto σ')). done.
Qed.

(** C31: on programs without gotos, that do not use the two variables of the
    pass, labelling the applications and eliminating gotos keeps every
    function's behaviour: for any machine, any fuel and any state, the new body
    ends as the old one does, with the same locals and the same world, or
    neither ends, unless the old one is stuck.  The labels are the numbers
    from 0 on in the order of the program, one for each call that is
    assigned, and no label or goto that the translation would refuse is
    left. *)
Theorem goto_elimination_correct `{!Local _} p :
  forallb plain_function (W.functions p) = true →
  Forall2 eliminated (W.functions p) (W.functions (elim_gotos (label_apps p))) ∧
  (Z.of_nat (sum_list_with function_calls (W.functions p)) < 2 ^ 31 →
     concat (map function_labels (W.functions (label_apps p))) =
     seqZ 0 (Z.of_nat (sum_list_with function_calls (W.functions p)))).
Proof.
  unfold label_apps, elim_gotos. cbn [W.functions]. intros Hp. split.
  - generalize 0 as n. induction (W.functions p) as [|f fs IH]; intros n; [constructor|].
    cbn in Hp. apply andb_true_iff in Hp as [Hf Hfs]. cbn [map_state].
    pose proof (passes_correct _ Hf n) as Hc. pose proof (passes_no_gotos _ Hf n) as Hn. unfold label_function at 1.
    destruct (label_stmt n (W.fn_body f.2)) as [m b]. specialize (IH Hfs m).
    destruct (map_state label_function m fs) as [m' k]. cbn [snd map] in *. constructor; [|exact IH].
    split; [done| |by apply elim_body_same]. cbn. by rewrite Hn.
  - enough (∀ n, Int.in_i32 n → Int.in_i32 (n + Z.of_nat (sum_list_with function_calls (W.functions p))) →
      labelled n (sum_list_with function_calls (W.functions p))
        ((map_state label_function n (W.functions p)).1, concat (map function_labels (map_state label_function n (W.functions p)).2))) as Hall.
    { intros Hk. apply Hall; unfold Int.in_i32; lia. }
    unfold Int.in_i32. induction (W.functions p) as [|f fs IH]; intros n Hn Hk; [split; cbn; [lia|done]|].
    cbn in Hp, Hk |- *. apply andb_true_iff in Hp as [Hf Hfs]. change (function_calls f) with (calls (W.fn_body f.2)) in Hk |- *.
    pose proof (label_stmt_labels _ Hf n) as Hl. unfold Int.in_i32 in Hl. specialize (Hl ltac:(lia) ltac:(lia)).
    assert (label_function n f = ((label_stmt n (W.fn_body f.2)).1, (f.1, W.mkFunction (label_stmt n (W.fn_body f.2)).2 (W.fn_type f.2) (W.fn_params f.2) (W.fn_span f.2)))) as ->
      by (unfold label_function; by destruct (label_stmt n (W.fn_body f.2))).
    destruct (label_stmt n (W.fn_body f.2)) as [m b]. pose proof Hl as [Hm _]. cbn in Hm. subst m. cbn [fst snd].
    specialize (IH Hfs (n + Z.of_nat (calls (W.fn_body f.2))) ltac:(lia) ltac:(lia)). pose proof IH as [Hm _].
    destruct (map_state label_function _ fs) as [m k]. cbn in *. subst m. by eapply labelled_app.
Qed.

(** ** Jumps *)

(** The statements that a jump to the label [n] passes over. *)
Definition passed (n : Z) (st : W.Stmt) : bool :=
  match st with
  | W.Empty | W.Goto (W.App _) _ => true
  | W.Var _ _ | W.Assign _ _ _ => negb (is_call st)
  | W.Lbl (W.App m) call _ => is_call call && negb (n =? m)
  | _ => false
  end.
(** On the way to the label [n]. *)
Definition jumping (n : Z) (τ : locals) : Prop :=
  τ !! id_ "inGoto" = Some (of_i32 1) ∧ τ !! id_ "gotoTarget" = Some (of_i32 n).

Section jumping.
Context (n : Z) (τ : locals) (Hj : jumping n τ) (w : world).
Lemma eval_jumping s : eval τ w (get_id_ "inGoto" s) = Some (of_i32 1).
Proof. cbn. unfold var. by rewrite (proj1 Hj). Qed.
Lemma eval_not_jumping s : eval τ w (not_ (get_id_ "inGoto" s) s) = Some (of_i32 0).
Proof.
  unfold not_. rewrite eval_binary, eval_i32, eval_jumping. cbn [mbind option_bind].
  rewrite binary_sub; [done|]. split; vm_compute; [discriminate|done].
Qed.
Lemma eval_here m s : eval τ w (bor_ (not_ (get_id_ "inGoto" s) s) (eq_ (get_id_ "gotoTarget" s) (i32_ m s) s) s) = Some (of_i32 (Z.b2z (n =? m))).
Proof.
  unfold bor_, eq_. rewrite eval_binary, eval_not_jumping, eval_binary, eval_i32.
  assert (eval τ w (get_id_ "gotoTarget" s) = Some (of_i32 n)) as -> by (cbn; unfold var; by rewrite (proj2 Hj)).
  cbn [mbind option_bind]. rewrite binary_eq. cbn [mbind option_bind]. by rewrite binary_or, Z.lor_0_l.
Qed.

Lemma run_passed fuel st : passed n st = true → run fuel (goto_stmt st) τ w = Done Normal τ w.
Proof.
  intros Hp. rewrite goto_stmt_eq.
  assert (∀ st', goto_exit_stmt st' = if_ (get_id_ "inGoto" (match st' with W.Var _ s | W.Assign _ _ s => s | _ => Unknown end)) W.Empty st' (match st' with W.Var _ s | W.Assign _ _ s => s | _ => Unknown end) →
    run fuel (goto_exit_stmt st') τ w = Done Normal τ w) as Hg.
  { intros st' ->. by rewrite run_guarded by apply eval_jumping. }
  destruct st as [|v s|e s|x e s|x e s|c t e s|b s|[l|m] b s|l s|a s|ss s| |[l|l] s]; try done; cbn [passed] in Hp.
  - apply negb_true_iff in Hp. apply (Hg (W.Var v s)). cbn [goto_exit_stmt]. by rewrite Hp.
  - apply negb_true_iff in Hp. apply (Hg (W.Assign x e s)). cbn [goto_exit_stmt]. by rewrite Hp.
  - apply andb_true_iff in Hp as [Hc Hm]. apply negb_true_iff in Hm.
    assert (goto_stmt b = b) as -> by (rewrite goto_stmt_eq; destruct b; try done; cbn [goto_exit_stmt]; by rewrite Hc).
    cbn [goto_exit_stmt]. rewrite Hc. rewrite run_skipped; [done|]. by rewrite eval_here, Hm.
  - cbn [goto_exit_stmt]. by rewrite run_guarded by apply eval_jumping.
Qed.
End jumping.

(** The state in which the labelled call runs. *)
Definition landed (n : Z) (τ : locals) : locals :=
  <[id_ "inGoto" := of_i32 0]> (<[id_ "gotoTarget" := of_i32 n]> (<[id_ "inGoto" := of_i32 1]> τ)).

(** A jump forward in a block reaches its label, and the label's call is the
    next statement that runs. *)
Theorem goto_reaches fuel n pre call post σ τ w s s1 s2 :
  forallb (passed n) pre = true → is_call call = true → same σ τ →
  run fuel (goto_stmt (W.Block (W.Goto (W.App n) s1 :: pre ++ W.Lbl (W.App n) call s2 :: post) s)) τ w =
  run fuel (W.Block (call :: map goto_stmt post) s) (landed n τ) w.
Proof.
  intros Hpre Hcall Hs. rewrite goto_stmt_eq. cbn [goto_exit_stmt map]. rewrite map_app. cbn [map].
  set (τ1 := <[id_ "gotoTarget" := of_i32 n]> (<[id_ "inGoto" := of_i32 1]> τ)).
  assert (jumping n τ1) as Hj.
  { split; unfold τ1; [by rewrite lookup_insert_ne, lookup_insert_eq|apply lookup_insert_eq]. }
  assert (run fuel (goto_stmt (W.Goto (W.App n) s1)) τ w = Done Normal τ1 w) as Hgoto.
  { rewrite goto_stmt_eq. cbn [goto_exit_stmt]. rewrite run_skipped by (by apply (eval_in_goto σ)).
    destruct (same_target _ _ Hs) as [t Ht].
    cbn [run foldr eval_expr atom_ TRUE_ i32_ eval mbind option_bind or_stuck and_then].
    rewrite (same_in_goto _ _ Hs), of_lit_bool, of_lit_i32. cbn [and_then]. rewrite lookup_insert_ne, Ht by done. done. }
  assert (run fuel (goto_stmt (W.Lbl (W.App n) call s2)) τ1 w = run fuel call (landed n τ) w) as Hland.
  { rewrite goto_stmt_eq.
    assert (goto_stmt call = call) as -> by (rewrite goto_stmt_eq; destruct call; try done; cbn [goto_exit_stmt]; by rewrite Hcall).
    cbn [goto_exit_stmt]. rewrite Hcall, run_guarded by (by rewrite (eval_here n τ1 Hj), Z.eqb_refl).
    cbn [run foldr eval_expr atom_ FALSE_ eval mbind option_bind or_stuck]. rewrite (proj1 Hj), of_lit_bool. cbn [and_then].
    change (of_i32 (Z.b2z false)) with (of_i32 0). fold (landed n τ). by destruct (run fuel call _ w) as [| |[] ? ?]. }
  change (run fuel (W.Block ?l s)) with (foldr (λ st k σ w, and_then (run fuel st σ w) k) (Done Normal) l).
  cbn [foldr]. rewrite Hgoto. cbn [and_then]. rewrite <- Hland.
  induction pre as [|st pre IH]; [done|]. cbn in Hpre. apply andb_true_iff in Hpre as [Hst Hpre].
  cbn [map app foldr]. rewrite (run_passed n τ1 Hj w) by done. cbn [and_then]. by apply IH.
Qed.
End semantics.

(** ** Where elimination fails *)
Module Jumps.
Definition call : W.Stmt := W.Assign (id_ "x") (W.Call (id_ "f") [] Unknown) Unknown.
(** A jump to a call in a branch that is taken. *)
Definition into_branch : W.Stmt :=
  W.Block [W.Goto (W.App 0) Unknown; W.If TRUE_ (W.Lbl (W.App 0) call Unknown) W.Empty Unknown] Unknown.
(** A jump over a [return]. *)
Definition past_return : W.Stmt :=
  W.Block [W.Goto (W.App 0) Unknown; W.Return (i32_ 5 Unknown) Unknown; W.Lbl (W.App 0) call Unknown] Unknown.
(** [if (true) {} else {} return 5]. *)
Definition conditional : W.Program :=
  W.mkProgram [] [(id_ "main", W.mkFunction
    (W.Block [W.If TRUE_ W.Empty W.Empty Unknown; W.Return (i32_ 5 Unknown) Unknown] Unknown)
    (N.mkFnType [] (Some N.I32)) [] Unknown)] [] [].
(** [var y = 5; return y]. *)
Definition variable : W.Program :=
  W.mkProgram [] [(id_ "main", W.mkFunction
    (W.Block [W.Var (W.var_new (id_ "y") (atom_ (i32_ 5 Unknown) Unknown)) Unknown;
              W.Return (W.AId (id_ "y") Unknown) Unknown] Unknown)
    (N.mkFnType [] (Some N.I32)) [] Unknown)] [] [].
End Jumps.

Lemma run_block `{Machine} fuel ss s σ w :
  run fuel (W.Block ss s) σ w = foldr (λ st k σ w, and_then (run fuel st σ w) k) (Done Normal) ss σ w.
Proof. done. Qed.

(** The branch of a conditional and the body of a loop are rewritten before
    their labels are looked for, so that none is found: a jump to a call in a
    branch that would be taken ends in a trap, although the label is there.
    A jump does not pass over a [return].  The guards are arithmetic on
    booleans, which the type checker refuses, and a guarded declaration is not in
    scope of what follows. *)
Theorem goto_elimination_failures :
  (bounds Jumps.into_branch = Some (0, 0) ∧
   ∀ `{Machine} fuel σ w, ∃ τ, run fuel (elim_body Jumps.into_branch) σ w = Done Traps τ w) ∧
  (∀ `{Machine} fuel σ w, ∃ τ, run fuel (elim_body Jumps.past_return) σ w = Done (Returns (of_i32 5)) τ w) ∧
  ((∃ p, type_check Jumps.conditional = Ok p) ∧
   type_check (elim_gotos (label_apps Jumps.conditional)) = Err (TypeMismatch N.I32 N.Bool Unknown)) ∧
  ((∃ p, type_check Jumps.variable = Ok p) ∧
   type_check (elim_gotos (label_apps Jumps.variable)) = Err (NoSuchVariable (id_ "y") Unknown)).
Proof.
  assert (∀ `{Machine} (σ : gmap Id value), ∃ τ, jumping 0 τ ∧ ∀ fuel w st,
    run fuel (elim_body (W.Block (W.Goto (W.App 0) Unknown :: st) Unknown)) σ w =
    and_then (run fuel (W.Block (map goto_stmt st) Unknown) τ w)
      (λ τ w, and_then (run fuel (if_ (get_id_ "inGoto" Unknown) W.Trap W.Empty Unknown) τ w) (Done Normal))) as Hjump.
  { intros M σ.
    set (τ0 := <[id_ "gotoTarget" := of_i32 0]> (<[id_ "inGoto" := of_i32 0]> σ)).
    exists (<[id_ "gotoTarget" := of_i32 0]> (<[id_ "inGoto" := of_i32 1]> τ0)).
    split; [split; [by rewrite lookup_insert_ne, lookup_insert_eq|by rewrite lookup_insert_eq]|]. intros fuel w st.
    unfold elim_body. rewrite run_block. cbn [foldr run eval_expr W.var_new W.var_named W.var_id atom_ FALSE_ i32_ eval mbind option_bind or_stuck and_then].
    rewrite of_lit_bool, of_lit_i32. change (of_i32 (Z.b2z false)) with (of_i32 0). fold τ0.
    rewrite goto_stmt_eq. cbn [goto_exit_stmt map]. rewrite run_block. cbn [foldr]. f_equal.
    rewrite goto_stmt_eq. cbn [goto_exit_stmt]. rewrite run_skipped.
    2:{ cbn. unfold var, τ0. by rewrite lookup_insert_ne, lookup_insert_eq. }
    cbn [foldr run eval_expr atom_ TRUE_ i32_ eval mbind option_bind or_stuck and_then].
    rewrite of_lit_bool, of_lit_i32. change (of_i32 (Z.b2z true)) with (of_i32 1).
    assert (τ0 !! id_ "inGoto" = Some (of_i32 0)) as -> by (unfold τ0; by rewrite lookup_insert_ne, lookup_insert_eq).
    cbn [and_then]. rewrite lookup_insert_ne by done.
    assert (τ0 !! id_ "gotoTarget" = Some (of_i32 0)) as -> by (unfold τ0; by rewrite lookup_insert_eq).
    done. }
  split; [split; [vm_compute; reflexivity|]|split; [|split; (split; [eexists; vm_compute; reflexivity|vm_compute; reflexivity])]].
  - intros M fuel σ w. destruct (Hjump M σ) as (τ & Hj & Hr). exists τ. unfold Jumps.into_branch. rewrite Hr. clear Hr.
    cbn [map]. rewrite run_block. cbn [foldr]. rewrite goto_stmt_eq. cbn [goto_exit_stmt].
    rewrite run_skipped.
    2:{ change (eval τ w (band_ TRUE_ (not_ (get_id_ "inGoto" Unknown) Unknown) Unknown) = Some (of_i32 0)).
        unfold band_. rewrite eval_binary, (eval_not_jumping 0 τ Hj). cbn [TRUE_ eval mbind option_bind].
        by rewrite of_lit_bool, binary_and. }
    rewrite run_skipped by (apply (eval_not_jumping 0 τ Hj)). cbn [run and_then].
    by rewrite run_guarded by (apply (eval_jumping 0 τ Hj)).
  - intros M fuel σ w. destruct (Hjump M σ) as (τ & Hj & Hr). exists τ. unfold Jumps.past_return. rewrite Hr. clear Hr.
    cbn [map]. rewrite run_block. cbn [foldr]. rewrite goto_stmt_eq. cbn [goto_exit_stmt run i32_ eval or_stuck and_then].
    by rewrite of_lit_i32.
Qed.

(** ** A machine *)

Definition truth_Z (v : Z) : option bool := if v =? 0 then Some false else if v =? 1 then Some true else None.
Lemma truth_Z_bool v b : truth_Z v = Some b ↔ v = Z.b2z b.
Proof. unfold truth_Z. destruct (Z.eqb_spec v 0) as [->|H0]; [|destruct (Z.eqb_spec v 1) as [->|H1]]; destruct b; cbn; naive_solver. Qed.
Lemma sub_wraps a b : Int.in_i32 (a - b) → Some (Int.wrap_s 32 (a - b)) = Some (a - b).
Proof. intros Hab. by rewrite Int.wrap_s_id. Qed.
(** Values are integers; a call answers how many calls there were before. *)
Definition counter : Machine.
Proof.
  refine {| value := Z; world := Z; of_i32 n := n;
    of_lit l := match l with W.LI32 n => n | W.LBool b => Z.b2z b | _ => 0 end;
    binary op a b :=
      match op with
      | I32Sub => Some (Int.wrap_s 32 (a - b)) | I32And => Some (Z.land a b) | I32Or => Some (Z.lor a b)
      | I32Eq => Some (Z.b2z (a =? b)) | I32Ge => Some (Z.b2z (b <=? a)) | I32Le => Some (Z.b2z (a <=? b))
      | _ => None
      end;
    truth := truth_Z; binary_sub := sub_wraps; truth_bool := truth_Z_bool;
    store _ _ _ := None; global _ _ := None; set_global _ _ _ := None; atom _ _ _ := None;
    expr _ w e := match e with W.Call _ _ _ => Some (w, w + 1) | _ => None end |}; try done.
Defined.
#[local] Instance counter_local : Local counter.
Proof. by split. Qed.

(** [while (x = f(); true) if (x == 3) break]. *)
Definition loop_program : W.Program :=
  W.mkProgram [] [(id_ "main", W.mkFunction
    (W.Block [W.Var (W.var_new (id_ "x") (W.Call (id_ "f") [] Unknown)) Unknown;
              W.Lbl (W.Named "out") (W.Loop (W.Block
                [Jumps.call;
                 W.If (eq_ (get_id_ "x" Unknown) (i32_ 3 Unknown) Unknown) (W.Break (W.Named "out") Unknown) W.Empty Unknown]
                Unknown) Unknown) Unknown;
              W.Return (get_id_ "x" Unknown) Unknown] Unknown)
    (N.mkFnType [] (Some N.I32)) [] Unknown)] [] [].

Lemma goto_elimination_correct_witness :
  let _ := counter in
  (λ f : Id * W.Function,
     match run 5 (W.fn_body f.2) ∅ 0 with Done (Returns v) _ w => Some (v : Z, w : Z) | _ => None end) <$>
    head (W.functions loop_program) = Some (Some (3, 4)) ∧
  Forall2 eliminated (W.functions loop_program) (W.functions (elim_gotos (label_apps loop_program))) ∧
  concat (map function_labels (W.functions (label_apps loop_program))) = [0; 1].
Proof.
  destruct (@goto_elimination_correct counter counter_local loop_program) as [Hf Hl]; [vm_compute; reflexivity|].
  split; [vm_compute; reflexivity|]. split; [exact Hf|]. rewrite Hl; [vm_compute; reflexivity|vm_compute; reflexivity].
Defined.
