(* ===== verification/JankySyntax.v ===== *)
(** The syntax of JankyScript ([jankyscript/syntax.rs]), its smart constructors
    ([jankyscript/constructors.rs]) and an induction principle for it. *)
From S2P Require Import Prelude Types Coercions Operators.

Module K.
(** Literals and keys are those of JavaScript ([javascript/syntax.rs]). *)
Inductive Num : Type := NInt (i : Z) | NFloat (f : f64).
Inductive Lit : Type :=
  | LString (s : string)
  | LRegex (s flags : string)
  | LBool (b : bool)
  | LNull
  | LNum (n : Num)
  | LUndefined.
Inductive Key : Type := KInt (i : Z) | KStr (s : string).

Record JsOpTypeinf := mkJsOpTypeinf { op_metavar : NotwasmOp }.

(** [free_vars] is an [im_rc::HashMap]: only the fact that equal maps are
    iterated in the same order is used of its order, which holds of [gmap]. *)
Inductive Expr : Type :=
  | ELit (l : Lit) (s : Pos)
  | EArray (es : list Expr) (s : Pos)
  | EObject (kvs : list (Key * Expr)) (s : Pos)
  | EId (x : Id) (t : J.typ) (s : Pos)
  | EDot (e : Expr) (x : Id) (s : Pos)
  | EBracket (e1 e2 : Expr) (t : J.typ) (s : Pos)
  | EJsOp (op : JsOp) (es : list Expr) (info : JsOpTypeinf) (s : Pos)
  | EUnary (op : UnaryOp) (e : Expr) (s : Pos)
  | EBinary (op : BinaryOp) (e1 e2 : Expr) (s : Pos)
  | EAssign (lv : LValue) (e : Expr) (s : Pos)
  | ECall (e : Expr) (es : list Expr) (s : Pos)
  | EMethodCall (obj : Expr) (name : string) (args : list Expr) (t : J.typ) (s : Pos)
  | EPrimCall (f : RTS.RTSFunction) (es : list Expr) (s : Pos)
  | ELength (e : Expr) (t : J.typ) (s : Pos)
  | EFunc (f : Func) (s : Pos)
  | EClosure (f : Func) (env : list (Expr * J.typ)) (s : Pos)
  | ECoercion (c : Coercion) (e : Expr) (s : Pos)
  | ENewRef (e : Expr) (t : J.typ) (s : Pos)
  | EDeref (e : Expr) (t : J.typ) (s : Pos)
  | EStore (e1 e2 : Expr) (t : J.typ) (s : Pos)
  | EEnvGet (i : Z) (t : J.typ) (s : Pos)
with LValue : Type :=
  | LId (x : Id) (t : J.typ)
  | LDot (e : Expr) (x : Id)
  | LBracket (e1 e2 : Expr) (t : J.typ)
with Func : Type :=
  | mkFunc (result_typ : J.typ) (args_with_typs : list (Id * J.typ)) (body : Stmt)
      (free_vars : gmap Id J.typ) (assigned_free_children : gset Id)
with Stmt : Type :=
  | SVar (x : Id) (t : J.typ) (e : Expr) (s : Pos)
  | SBlock (ss : list Stmt) (s : Pos)
  | SEmpty
  | SExpr (e : Expr) (s : Pos)
  | SIf (c : Expr) (st se : Stmt) (s : Pos)
  | SLoop (body : Stmt) (s : Pos)
  | SForIn (bind : Id) (container : Expr) (body : Stmt) (s : Pos)
  | SLabel (x : Id) (body : Stmt) (s : Pos)
  | SBreak (x : Id) (s : Pos)
  | SCatch (body : Stmt) (x : Id) (catch_body : Stmt) (s : Pos)
  | SFinally (body finally_body : Stmt) (s : Pos)
  | SThrow (e : Expr) (s : Pos)
  | SReturn (e : Expr) (s : Pos).

Definition result_typ (f : Func) : J.typ := match f with mkFunc r _ _ _ _ => r end.
Definition args_with_typs (f : Func) : list (Id * J.typ) := match f with mkFunc _ a _ _ _ => a end.
Definition body (f : Func) : Stmt := match f with mkFunc _ _ b _ _ => b end.
Definition free_vars (f : Func) : gmap Id J.typ := match f with mkFunc _ _ _ m _ => m end.
Definition assigned_free_children (f : Func) : gset Id := match f with mkFunc _ _ _ _ a => a end.

(** [Func::new], [Func::arg_typs], [Func::arg_names]. *)
Definition func_new (args : list (Id * J.typ)) (result : J.typ) (b : Stmt) : Func :=
  mkFunc result args b ∅ ∅.
Definition arg_typs (f : Func) : list J.typ := map snd (args_with_typs f).
Definition arg_names (f : Func) : list Id := map fst (args_with_typs f).
Definition func_typ (f : Func) : J.typ := J.Function (arg_typs f) (result_typ f).

(** Constructors of [jankyscript/constructors.rs] that are more than a name. *)
Definition func (args : list (Id * J.typ)) (result : J.typ) (b : Stmt) (s : Pos) : Expr :=
  EFunc (func_new args result b) s.
Definition dot_ (a : Expr) (b : string) (s : Pos) : Expr := EDot a (Named b) s.
Definition coercion_ (c : Coercion) (e : Expr) (s : Pos) : Expr :=
  match c with CId _ => e | _ => ECoercion c e s end.
Definition store_ (x : Id) (e : Expr) (ty : J.typ) (s : Pos) : Expr :=
  EStore (EId x (J.Ref ty) s) e ty s.

(** [Expr::is_undefined]. *)
Definition is_undefined (e : Expr) : bool :=
  match e with ELit LUndefined _ => true | _ => false end.

(** ** Induction *)
Section ind.
Variables (PE : Expr → Prop) (PL : LValue → Prop) (PF : Func → Prop) (PS : Stmt → Prop).
Record ind_cases : Prop := {
  c_lit : ∀ l s, PE (ELit l s);
  c_array : ∀ es s, Forall PE es → PE (EArray es s);
  c_object : ∀ kvs s, Forall (λ kv, PE kv.2) kvs → PE (EObject kvs s);
  c_id : ∀ x t s, PE (EId x t s);
  c_dot : ∀ e x s, PE e → PE (EDot e x s);
  c_bracket : ∀ e1 e2 t s, PE e1 → PE e2 → PE (EBracket e1 e2 t s);
  c_jsop : ∀ op es i s, Forall PE es → PE (EJsOp op es i s);
  c_unary : ∀ op e s, PE e → PE (EUnary op e s);
  c_binary : ∀ op e1 e2 s, PE e1 → PE e2 → PE (EBinary op e1 e2 s);
  c_assign : ∀ lv e s, PL lv → PE e → PE (EAssign lv e s);
  c_call : ∀ e es s, PE e → Forall PE es → PE (ECall e es s);
  c_method : ∀ e m es t s, PE e → Forall PE es → PE (EMethodCall e m es t s);
  c_prim : ∀ f es s, Forall PE es → PE (EPrimCall f es s);
  c_length : ∀ e t s, PE e → PE (ELength e t s);
  c_func : ∀ f s, PF f → PE (EFunc f s);
  c_closure : ∀ f env s, PF f → Forall (λ et, PE et.1) env → PE (EClosure f env s);
  c_coercion : ∀ c e s, PE e → PE (ECoercion c e s);
  c_newref : ∀ e t s, PE e → PE (ENewRef e t s);
  c_deref : ∀ e t s, PE e → PE (EDeref e t s);
  c_store : ∀ e1 e2 t s, PE e1 → PE e2 → PE (EStore e1 e2 t s);
  c_envget : ∀ i t s, PE (EEnvGet i t s);
  c_lid : ∀ x t, PL (LId x t);
  c_ldot : ∀ e x, PE e → PL (LDot e x);
  c_lbracket : ∀ e1 e2 t, PE e1 → PE e2 → PL (LBracket e1 e2 t);
  c_mkfunc : ∀ r a b fv afc, PS b → PF (mkFunc r a b fv afc);
  c_var : ∀ x t e s, PE e → PS (SVar x t e s);
  c_block : ∀ ss s, Forall PS ss → PS (SBlock ss s);
  c_empty : PS SEmpty;
  c_expr : ∀ e s, PE e → PS (SExpr e s);
  c_if : ∀ c st se s, PE c → PS st → PS se → PS (SIf c st se s);
  c_loop : ∀ b s, PS b → PS (SLoop b s);
  c_forin : ∀ x e b s, PE e → PS b → PS (SForIn x e b s);
  c_label : ∀ x b s, PS b → PS (SLabel x b s);
  c_break : ∀ x s, PS (SBreak x s);
  c_catch : ∀ b x c s, PS b → PS c → PS (SCatch b x c s);
  c_finally : ∀ b f s, PS b → PS f → PS (SFinally b f s);
  c_throw : ∀ e s, PE e → PS (SThrow e s);
  c_return : ∀ e s, PE e → PS (SReturn e s)
}.
Hypothesis C : ind_cases.

Fixpoint Expr_ind' (e : Expr) : PE e :=
  let all := fix all es : Forall PE es :=
    match es with [] => Forall_nil_2 _ | e :: es => Forall_cons_2 _ _ _ (Expr_ind' e) (all es) end in
  match e with
  | ELit l s => c_lit C l s
  | EArray es s => c_array C es s (all es)
  | EObject kvs s =>
      c_object C kvs s ((fix go kvs : Forall (λ kv, PE kv.2) kvs :=
        match kvs with
        | [] => Forall_nil_2 _
        | (k, v) :: kvs => Forall_cons_2 (λ kv, PE kv.2) (k, v) _ (Expr_ind' v) (go kvs)
        end) kvs)
  | EId x t s => c_id C x t s
  | EDot e x s => c_dot C e x s (Expr_ind' e)
  | EBracket e1 e2 t s => c_bracket C e1 e2 t s (Expr_ind' e1) (Expr_ind' e2)
  | EJsOp op es i s => c_jsop C op es i s (all es)
  | EUnary op e s => c_unary C op e s (Expr_ind' e)
  | EBinary op e1 e2 s => c_binary C op e1 e2 s (Expr_ind' e1) (Expr_ind' e2)
  | EAssign lv e s => c_assign C lv e s (LValue_ind' lv) (Expr_ind' e)
  | ECall e es s => c_call C e es s (Expr_ind' e) (all es)
  | EMethodCall e m es t s => c_method C e m es t s (Expr_ind' e) (all es)
  | EPrimCall f es s => c_prim C f es s (all es)
  | ELength e t s => c_length C e t s (Expr_ind' e)
  | EFunc f s => c_func C f s (Func_ind' f)
  | EClosure f env s =>
      c_closure C f env s (Func_ind' f) ((fix go env : Forall (λ et, PE et.1) env :=
        match env with
        | [] => Forall_nil_2 _
        | (e, t) :: env => Forall_cons_2 (λ et, PE et.1) (e, t) _ (Expr_ind' e) (go env)
        end) env)
  | ECoercion c e s => c_coercion C c e s (Expr_ind' e)
  | ENewRef e t s => c_newref C e t s (Expr_ind' e)
  | EDeref e t s => c_deref C e t s (Expr_ind' e)
  | EStore e1 e2 t s => c_store C e1 e2 t s (Expr_ind' e1) (Expr_ind' e2)
  | EEnvGet i t s => c_envget C i t s
  end
with LValue_ind' (lv : LValue) : PL lv :=
  match lv with
  | LId x t => c_lid C x t
  | LDot e x => c_ldot C e x (Expr_ind' e)
  | LBracket e1 e2 t => c_lbracket C e1 e2 t (Expr_ind' e1) (Expr_ind' e2)
  end
with Func_ind' (f : Func) : PF f :=
  match f with mkFunc r a b fv afc => c_mkfunc C r a b fv afc (Stmt_ind' b) end
with Stmt_ind' (st : Stmt) : PS st :=
  match st with
  | SVar x t e s => c_var C x t e s (Expr_ind' e)
  | SBlock ss s =>
      c_block C ss s ((fix all ss : Forall PS ss :=
        match ss with [] => Forall_nil_2 _ | st :: ss => Forall_cons_2 _ _ _ (Stmt_ind' st) (all ss) end) ss)
  | SEmpty => c_empty C
  | SExpr e s => c_expr C e s (Expr_ind' e)
  | SIf c st se s => c_if C c st se s (Expr_ind' c) (Stmt_ind' st) (Stmt_ind' se)
  | SLoop b s => c_loop C b s (Stmt_ind' b)
  | SForIn x e b s => c_forin C x e b s (Expr_ind' e) (Stmt_ind' b)
  | SLabel x b s => c_label C x b s (Stmt_ind' b)
  | SBreak x s => c_break C x s
  | SCatch b x c s => c_catch C b x c s (Stmt_ind' b) (Stmt_ind' c)
  | SFinally b f s => c_finally C b f s (Stmt_ind' b) (Stmt_ind' f)
  | SThrow e s => c_throw C e s (Expr_ind' e)
  | SReturn e s => c_return C e s (Expr_ind' e)
  end.

(** The four conclusions at once. *)
Lemma syntax_ind : (∀ e, PE e) ∧ (∀ lv, PL lv) ∧ (∀ f, PF f) ∧ (∀ st, PS st).
Proof.
  repeat split; [exact Expr_ind'|exact LValue_ind'|exact Func_ind'|exact Stmt_ind'].
Qed.
End ind.
End K.
