(* ===== verification/JankyTyping.v ===== *)
(** The type checker of JankyScript ([jankyscript/type_checking.rs]) and the
    typing relation it implements. *)
From S2P Require Import Prelude Types Coercions Operators JankySyntax.
Import K.

(** ** The global object ([shared/std_lib.rs]) *)
Definition get_global_object : list (string * J.typ) :=
  [
    ("__JNKS", J.DynObject); ("log_any", J.Function [J.Any; J.Any] J.Any); ("arguments", J.Array);
    ("existingIsolateProperties", J.Any); ("version", J.Any); ("global", J.DynObject);
    ("window", J.Any); ("console", J.DynObject); ("directories", J.Any); ("navigator", J.Any);
    ("performance", J.Any); ("clearTimeout", J.Any); ("close", J.Any); ("confirm", J.Any);
    ("setTimeout", J.Any); ("stop", J.Any); ("alert", J.Any); ("document", J.Any);
    ("Array", J.Any); ("ArrayBuffer", J.Any); ("BigInt", J.Any); ("Boolean", J.Any);
    ("DataView", J.Any); ("Date", J.Any); ("Error", J.Function [J.Any; J.Any] J.Any);
    ("EvalError", J.Any); ("Float32Array", J.Any); ("Float64Array", J.Any); ("Function", J.Any);
    ("Generator", J.Any); ("Infinity", J.Any); ("Int16Array", J.Any); ("Int32Array", J.Any);
    ("Int8Array", J.Any); ("JSON", J.Any); ("Math", J.DynObject); ("NaN", J.Any);
    ("Number", J.Any); ("Object", J.DynObject); ("Promise", J.Any); ("RangeError", J.Any);
    ("ReferenceError", J.Any); ("RegExp", J.Any); ("String", J.Any); ("Symbol", J.Any);
    ("SyntaxError", J.Any); ("TypeError", J.Any); ("TypedArray", J.Any); ("URIError", J.Any);
    ("Uint16Array", J.Any); ("Uint8Array", J.Any); ("WeakMap", J.Any); ("eval", J.Any);
    ("isFinite", J.Any); ("isNaN", J.Any); ("parseFloat", J.Any);
    ("parseInt", J.Function [J.Any; J.Any; J.Any] J.Any); ("undefined", J.Any); ("null", J.Any)
  ].

(** ** The checker *)
Abbreviation Env := (gmap Id J.typ).

(** The texts of the errors are left out. *)
Inductive TypeCheckingError : Type :=
  | TypeMismatch (expected got : J.typ) (s : Pos)
  | ExpectedIndexable (got : J.typ) (s : Pos)
  | ExpectedIndexer (got : J.typ) (s : Pos)
  | ExpectedFunction (got : J.typ) (s : Pos)
  | TagTypeMismatch (t got : J.typ) (s : Pos)
  | ExpectedGround (got : J.typ) (s : Pos)
  | UnexpectedReturn (got : J.typ) (s : Pos)
  | NoSuchVariable (x : Id) (s : Pos)
  | ExpectedBox (got : J.typ) (s : Pos).
Abbreviation tc := (comp TypeCheckingError).

Definition ensure (expected got : J.typ) (s : Pos) : tc J.typ :=
  if decide (expected = got) then Ok got else Err (TypeMismatch expected got s).

(** The loop of [ensure_indexable] and [ensure_indexer]. *)
Fixpoint ensure_any_of (types : list J.typ) (got : J.typ) (s : Pos) : tc J.typ :=
  match types with
  | [] => Err (ExpectedIndexable got s)
  | expected :: types =>
      match ensure expected got s with
      | Ok t => Ok t
      | _ => ensure_any_of types got s
      end
  end.
Definition ensure_indexable (got : J.typ) (s : Pos) : tc J.typ :=
  ensure_any_of [J.DynObject; J.Array; J.String; J.Any] got s.
Definition ensure_indexer (got : J.typ) (s : Pos) : tc J.typ :=
  ensure_any_of [J.String; J.Int; J.Any] got s.
#[global] Arguments ensure_indexable : simpl never.
#[global] Arguments ensure_indexer : simpl never.

Definition ensure_function (got : J.typ) (s : Pos) : tc (list J.typ * J.typ) :=
  match got with
  | J.Function args ret => Ok (args, ret)
  | _ => Err (ExpectedFunction got s)
  end.

Definition lookup_id (Γ : Env) (x : Id) (s : Pos) : tc J.typ :=
  match Γ !! x with Some t => Ok t | None => Err (NoSuchVariable x s) end.

Fixpoint type_check_coercion (c : Coercion) (s : Pos) : tc (J.typ * J.typ) :=
  match c with
  | Meta t1 t2 => Ok (t1, t2)
  | FloatToInt => Ok (J.Float, J.Int)
  | IntToFloat => Ok (J.Int, J.Float)
  | Tag from_type => Ok (from_type, J.Any)
  | Untag to_type => Ok (J.Any, to_type)
  | Fun args_to_type ret_to_type =>
      args ← mapM (λ c, type_check_coercion c s) args_to_type;
      '(ret_from, ret_to) ← type_check_coercion ret_to_type s;
      Ok (J.Function (map fst args) ret_from, J.Function (map snd args) ret_to)
  | CId to_type => Ok (to_type, to_type)
  | Seq t1 t2 =>
      '(t2_from, t2_to) ← type_check_coercion t2 s;
      '(t1_from, t1_to) ← type_check_coercion t1 s;
      ensure t1_to t2_from s;;
      Ok (t1_from, t2_to)
  end.

Definition type_check_lit (l : Lit) : J.typ :=
  match l with
  | LString _ => J.String
  | LBool _ => J.Bool
  | LNull => J.Any
  | LNum (NFloat _) => J.Float
  | LNum (NInt _) => J.Int
  | LUndefined => J.Any
  | LRegex _ _ => J.Any
  end.

(** [Vec<TypeCheckingResult<Type>>], collected eagerly: an error stays in the
    vector, a panic does not. *)
Fixpoint collect {E A} (l : list (comp E A)) : comp E (list (E + A)) :=
  match l with
  | [] => Ok []
  | Ok a :: l => k ← collect l; Ok (inr a :: k)
  | Err e :: l => k ← collect l; Ok (inl e :: k)
  | Panic msg :: _ => Panic msg
  end.

(** The loop over the zipped argument types: it stops with the shorter list. *)
Fixpoint check_args (actual : list (TypeCheckingError + J.typ)) (expected : list J.typ) (s : Pos) : tc unit :=
  match actual, expected with
  | a :: actual, t :: expected =>
      got ← match a with inr t => Ok t | inl e => Err e end;
      ensure t got s;;
      check_args actual expected s
  | _, _ => Ok tt
  end.

(** [actual_arg_types] are the results of checking the arguments. *)
Definition type_check_fun_call (fun_type : J.typ) (actual_arg_types : list (tc J.typ)) (s : Pos) : tc J.typ :=
  '(expected_arg_types, return_type) ← ensure_function fun_type s;
  actual ← collect actual_arg_types;
  check_args actual expected_arg_types s;;
  Ok return_type.

Fixpoint type_check_expr (e : Expr) (Γ : Env) : tc J.typ :=
  match e with
  | EJsOp _ _ _ _ => Panic "cannot type-check JsOp"
  | EFunc f _ => type_check_func f Γ
  | EAssign lval rval s =>
      rval_ty ← type_check_expr rval Γ;
      match lval with
      | LId x ty =>
          id_ty ← lookup_id Γ x s;
          ensure ty rval_ty s;;
          ensure ty id_ty s;;
          Ok rval_ty
      | LDot e _ => type_check_expr e Γ;; Ok rval_ty
      | LBracket e computed_prop t =>
          e_ty ← type_check_expr e Γ;
          ensure t e_ty s;;
          type_check_expr computed_prop Γ;;
          Ok rval_ty
      end
  | ECall f args s =>
      fun_type ← type_check_expr f Γ;
      type_check_fun_call fun_type (map (λ e, type_check_expr e Γ) args) s
  | EMethodCall obj method args typ s =>
      obj_type ← type_check_expr obj Γ;
      ensure typ obj_type s;;
      fun_type ← get_type_by_prefix method (length args) typ;
      type_check_fun_call fun_type (map (λ e, type_check_expr e Γ) args) s
  | ELength obj typ s =>
      obj_type ← type_check_expr obj Γ;
      ensure typ obj_type s;;
      Ok (match typ with J.DynObject | J.Array => J.Int | _ => J.Any end)
  | ECoercion coercion e s =>
      actual_type ← type_check_expr e Γ;
      '(from, to) ← type_check_coercion coercion s;
      ensure from actual_type s;;
      Ok to
  | ELit l _ => Ok (type_check_lit l)
  | EId x ty s => got ← lookup_id Γ x s; ensure ty got s
  | EObject props _ =>
      foldM (λ _ kv, type_check_expr kv.2 Γ;; Ok tt) tt props;; Ok J.DynObject
  | EArray vals _ =>
      foldM (λ _ e, type_check_expr e Γ;; Ok tt) tt vals;; Ok J.Array
  | EDot obj _ _ => type_check_expr obj Γ;; Ok J.Any
  | EBracket obj dyn_prop t s =>
      got ← type_check_expr obj Γ;
      obj_type ← ensure t got s;
      ensure_indexable obj_type s;;
      dyn_prop_type ← type_check_expr dyn_prop Γ;
      ensure_indexer dyn_prop_type s;;
      Ok J.Any
  | EPrimCall prim args s =>
      prim_type ← RTS.janky_typ prim;
      type_check_fun_call prim_type (map (λ e, type_check_expr e Γ) args) s
  | EUnary op e s =>
      let '(ty_in, ty_out) := unop_janky_typ op in
      got ← type_check_expr e Γ;
      ensure ty_in got s;;
      Ok ty_out
  | EBinary op e_l e_r s =>
      let '(ty_in, ty_out) := binop_janky_typ op in
      got_l ← type_check_expr e_l Γ;
      got_r ← type_check_expr e_r Γ;
      ensure ty_in got_l s;;
      ensure ty_in got_r s;;
      Ok ty_out
  | ENewRef boxed_e boxed_t s =>
      got ← type_check_expr boxed_e Γ;
      ensure boxed_t got s;;
      Ok (J.Ref boxed_t)
  | EDeref e t_annot s =>
      got ← type_check_expr e Γ;
      match got with
      | J.Ref t => ensure t t_annot s;; Ok t
      | t_unexpected => Err (ExpectedBox t_unexpected s)
      end
  | EStore e1 e2 t_annot s =>
      got ← type_check_expr e1 Γ;
      match got with
      | J.Ref t1 =>
          ensure t1 t_annot s;;
          got2 ← type_check_expr e2 Γ;
          ensure t1 got2 s;;
          Ok t1
      | t_unexpected => Err (ExpectedBox t_unexpected s)
      end
  | EEnvGet _ t _ => Ok t
  | EClosure f f_env s =>
      foldM (λ _ et, got ← type_check_expr et.1 Γ; ensure et.2 got s;; Ok tt) tt f_env;;
      type_check_func f Γ
  end
with type_check_func (f : Func) (Γ : Env) : tc J.typ :=
  match f with
  | mkFunc result_typ args_with_typs body _ _ =>
      let function_env := foldl (λ Γ a, <[a.1 := a.2]> Γ) Γ args_with_typs in
      type_check_stmt body function_env (Some result_typ);;
      Ok (J.Function (map snd args_with_typs) result_typ)
  end
with type_check_stmt (st : Stmt) (Γ : Env) (ret_ty : option J.typ) : tc Env :=
  match st with
  | SEmpty => Ok Γ
  | SExpr e _ => type_check_expr e Γ;; Ok Γ
  | SFinally try_body finally_body _ =>
      type_check_stmt try_body Γ ret_ty;;
      type_check_stmt finally_body Γ ret_ty;;
      Ok Γ
  | SCatch try_body ex_name catch_body _ =>
      type_check_stmt try_body Γ ret_ty;;
      type_check_stmt catch_body (<[ex_name := J.Any]> Γ) ret_ty;;
      Ok Γ
  | SLoop body _ => type_check_stmt body Γ ret_ty;; Ok Γ
  | SForIn bind container body s =>
      t ← type_check_expr container Γ;
      ensure_indexable t s;;
      type_check_stmt body (<[bind := J.Any]> Γ) ret_ty;;
      Ok Γ
  | SThrow e _ => type_check_expr e Γ;; Ok Γ
  | SBreak _ _ => Ok Γ
  | SLabel _ st _ => type_check_stmt st Γ ret_ty;; Ok Γ
  | SVar x t e s =>
      (if is_undefined e then Ok tt
       else got ← type_check_expr e Γ; ensure t got s;; Ok tt);;
      Ok (<[x := t]> Γ)
  | SIf c t e s =>
      got ← type_check_expr c Γ;
      ensure J.Bool got s;;
      type_check_stmt t Γ ret_ty;;
      type_check_stmt e Γ ret_ty;;
      Ok Γ
  | SBlock stmts _ =>
      foldM (λ Γ st, type_check_stmt st Γ ret_ty) Γ stmts;; Ok Γ
  | SReturn e s =>
      e_type ← type_check_expr e Γ;
      match ret_ty with
      | None => Err (UnexpectedReturn e_type s)
      | Some ty => ensure ty e_type s;; Ok Γ
      end
  end.

Definition global_env : Env := list_to_map (rev (map (λ kv, (Named kv.1, kv.2)) get_global_object)).
Definition type_check (st : Stmt) : tc unit :=
  type_check_stmt st global_env None;; Ok tt.

(** ** The typing relation

    [strict] typing adds to what the checker looks at the conditions under
    which the later passes keep a program well typed: calls have the declared
    number of arguments, the parameters of a function are distinct, the free
    variables recorded for a function have the types of its environment, the
    variable of a [for..in] is declared with type [Any], and the body of a function is
    typed without the outer variables that one of its own declarations hides
    (declarations are hoisted, as the passes assume and [lift_vars] makes
    true). *)

Section args_typed.
Variables (strict : bool) (P : Expr → J.typ → Prop).
Fixpoint args_typed (es : list Expr) (ts : list J.typ) : Prop :=
  match es, ts with
  | e :: es, t :: ts => P e t ∧ args_typed es ts
  | [], [] => True
  | _, _ => strict = false
  end.
End args_typed.

(** The variables a statement declares, functions excluded. *)
Fixpoint declared (st : Stmt) : gset Id :=
  match st with
  | SVar x _ _ _ => {[ x ]}
  | SBlock ss _ => foldr (λ st D, declared st ∪ D) ∅ ss
  | SIf _ s1 s2 _ | SCatch s1 _ s2 _ | SFinally s1 s2 _ => declared s1 ∪ declared s2
  | SLoop b _ | SForIn _ _ b _ | SLabel _ b _ => declared b
  | SEmpty | SExpr _ _ | SBreak _ _ | SThrow _ _ | SReturn _ _ => ∅
  end.
Definition hide (strict : bool) (Γ : Env) (D : gset Id) : Env :=
  if strict then filter (λ xt, xt.1 ∉ D) Γ else Γ.
Definition insert_args (Γ : Env) (args : list (Id * J.typ)) : Env :=
  foldl (λ Γ a, <[a.1 := a.2]> Γ) Γ args.

(** The variables in scope after a statement. *)
Definition out_env (Γ : Env) (st : Stmt) : Env :=
  match st with SVar x t _ _ => <[x := t]> Γ | _ => Γ end.
Section stmts_typed.
Variable P : Stmt → Env → Prop.
Fixpoint stmts_typed (ss : list Stmt) (Γ : Env) : Prop :=
  match ss with [] => True | st :: ss => P st Γ ∧ stmts_typed ss (out_env Γ st) end.
End stmts_typed.

Definition indexable (t : J.typ) : Prop := t ∈ [J.DynObject; J.Array; J.String; J.Any].
Definition indexer (t : J.typ) : Prop := t ∈ [J.String; J.Int; J.Any].

Section typing.
Variable strict : bool.

Fixpoint expr_typed (e : Expr) (Γ : Env) (t : J.typ) {struct e} : Prop :=
  match e with
  | ELit l _ => t = type_check_lit l
  | EArray es _ => all (λ e, ∃ t, expr_typed e Γ t) es ∧ t = J.Array
  | EObject kvs _ => all (λ kv, ∃ t, expr_typed kv.2 Γ t) kvs ∧ t = J.DynObject
  | EId x ty _ => Γ !! x = Some ty ∧ t = ty
  | EDot e _ _ => (∃ t, expr_typed e Γ t) ∧ t = J.Any
  | EBracket e1 e2 ty _ =>
      expr_typed e1 Γ ty ∧ indexable ty ∧ (∃ ti, expr_typed e2 Γ ti ∧ indexer ti) ∧ t = J.Any
  | EJsOp _ _ _ _ => False
  | EUnary op e _ => expr_typed e Γ (unop_janky_typ op).1 ∧ t = (unop_janky_typ op).2
  | EBinary op e1 e2 _ =>
      expr_typed e1 Γ (binop_janky_typ op).1 ∧ expr_typed e2 Γ (binop_janky_typ op).1 ∧
      t = (binop_janky_typ op).2
  | EAssign lv e _ =>
      expr_typed e Γ t ∧
      match lv with
      | LId x ty => t = ty ∧ Γ !! x = Some ty
      | LDot e _ => ∃ t, expr_typed e Γ t
      | LBracket e1 e2 ty => expr_typed e1 Γ ty ∧ ∃ t, expr_typed e2 Γ t
      end
  | ECall e es _ =>
      ∃ args, expr_typed e Γ (J.Function args t) ∧ args_typed strict (λ e t, expr_typed e Γ t) es args
  | EMethodCall e m es ty _ =>
      ∃ args, expr_typed e Γ ty ∧
        @get_type_by_prefix TypeCheckingError m (length es) ty = Ok (J.Function args t) ∧
        args_typed strict (λ e t, expr_typed e Γ t) es args
  | EPrimCall f es _ =>
      ∃ args, @RTS.janky_typ TypeCheckingError f = Ok (J.Function args t) ∧
        args_typed strict (λ e t, expr_typed e Γ t) es args
  | ELength e ty _ =>
      expr_typed e Γ ty ∧ t = match ty with J.DynObject | J.Array => J.Int | _ => J.Any end
  | EFunc f _ => func_typed f Γ t
  | EClosure f env _ => all (λ et, expr_typed et.1 Γ et.2) env ∧ func_typed f Γ t
  | ECoercion c e s => ∃ from, expr_typed e Γ from ∧ type_check_coercion c s = Ok (from, t)
  | ENewRef e ty _ => expr_typed e Γ ty ∧ t = J.Ref ty
  | EDeref e ty _ => expr_typed e Γ (J.Ref ty) ∧ t = ty
  | EStore e1 e2 ty _ => expr_typed e1 Γ (J.Ref ty) ∧ expr_typed e2 Γ ty ∧ t = ty
  | EEnvGet _ ty _ => t = ty
  end
with func_typed (f : Func) (Γ : Env) (t : J.typ) {struct f} : Prop :=
  match f with
  | mkFunc r args b fv _ =>
      stmt_typed b (Some r) (insert_args (hide strict Γ (declared b)) args) ∧
      (strict = true → NoDup (map fst args) ∧ fv ⊆ Γ) ∧
      t = J.Function (map snd args) r
  end
with stmt_typed (st : Stmt) (ret : option J.typ) (Γ : Env) {struct st} : Prop :=
  match st with
  | SVar x t e _ => is_undefined e = false → expr_typed e Γ t
  | SBlock ss _ => stmts_typed (λ st Γ, stmt_typed st ret Γ) ss Γ
  | SEmpty | SBreak _ _ => True
  | SExpr e _ | SThrow e _ => ∃ t, expr_typed e Γ t
  | SIf c s1 s2 _ => expr_typed c Γ J.Bool ∧ stmt_typed s1 ret Γ ∧ stmt_typed s2 ret Γ
  | SLoop b _ | SLabel _ b _ => stmt_typed b ret Γ
  | SForIn x e b _ =>
      (∃ t, expr_typed e Γ t ∧ indexable t) ∧ (strict = true → Γ !! x = Some J.Any) ∧
      stmt_typed b ret (<[x := J.Any]> Γ)
  | SCatch b x c _ => stmt_typed b ret Γ ∧ stmt_typed c ret (<[x := J.Any]> Γ)
  | SFinally b f _ => stmt_typed b ret Γ ∧ stmt_typed f ret Γ
  | SReturn e _ => ∃ t, ret = Some t ∧ expr_typed e Γ t
  end.
Definition program_typed (st : Stmt) : Prop := stmt_typed st None (hide strict global_env (declared st)).
End typing.

(** ** The parts of the checker *)
Lemma janky_ensure_Ok t1 t2 s t : ensure t1 t2 s = Ok t ↔ t1 = t2 ∧ t = t2.
Proof. unfold ensure. case_decide; naive_solver. Qed.
Lemma janky_ensure_refl t s : ensure t t s = Ok t.
Proof. by apply janky_ensure_Ok. Qed.
Lemma ensure_any_of_Ok ts got s t : ensure_any_of ts got s = Ok t ↔ got ∈ ts ∧ t = got.
Proof.
  induction ts as [|t1 ts IH]; cbn.
  - split; [done|]. intros [[]%not_elem_of_nil _].
  - rewrite elem_of_cons. destruct (ensure t1 got s) eqn:He.
    + apply janky_ensure_Ok in He. naive_solver.
    + rewrite IH. unfold ensure in He. case_decide; naive_solver.
    + unfold ensure in He. case_decide; naive_solver.
Qed.
Lemma ensure_indexable_Ok got s t : ensure_indexable got s = Ok t ↔ indexable got ∧ t = got.
Proof. apply ensure_any_of_Ok. Qed.
Lemma ensure_indexer_Ok got s t : ensure_indexer got s = Ok t ↔ indexer got ∧ t = got.
Proof. apply ensure_any_of_Ok. Qed.
Lemma janky_lookup_id_Ok Γ x s t : lookup_id Γ x s = Ok t ↔ Γ !! x = Some t.
Proof. unfold lookup_id. destruct (Γ !! x); naive_solver. Qed.

Lemma foldM_unit {E A B} (g : A → comp E B) l :
  foldM (λ _ x, g x;; Ok tt) tt l = Ok tt ↔ Forall (λ x, ∃ b, g x = Ok b) l.
Proof.
  induction l as [|x l IH]; cbn; [by split; [constructor|]|]. rewrite Forall_cons, <- IH.
  destruct (g x); cbn; naive_solver.
Qed.

Lemma collect_Ok {E A} (l : list (comp E A)) k :
  collect l = Ok k → Forall2 (λ m r, m = match r with inr a => Ok a | inl e => Err e end) l k.
Proof.
  revert k. induction l as [|[a|e|m] l IH]; intros k H; cbn in H; comp_inv; try done; constructor; auto.
Qed.
Lemma collect_map_Ok {E A} (f : A → comp E J.typ) es ts :
  Forall2 (λ e t, f e = Ok t) es ts → collect (map f es) = Ok (map inr ts).
Proof. induction 1 as [|e t es ts He _ IH]; cbn; [done|]. rewrite He, IH. done. Qed.

Lemma args_typed_strict P es ts : args_typed true P es ts ↔ Forall2 P es ts.
Proof.
  revert ts. induction es as [|e es IH]; intros [|t ts]; cbn.
  - by split; [constructor|].
  - split; [done|inversion 1].
  - split; [done|inversion 1].
  - rewrite IH. split; [intros [? ?]; by constructor|inversion 1; by subst].
Qed.
Lemma args_typed_mono b (P Q : Expr → J.typ → Prop) es ts :
  Forall (λ e, ∀ t, P e t → Q e t) es → args_typed b P es ts → args_typed b Q es ts.
Proof.
  intros H. revert ts. induction H as [|e es He _ IH]; intros [|t ts]; cbn; try done.
  intros [? ?]. auto.
Qed.

Lemma type_check_fun_call_sound ft (f : Expr → tc J.typ) es s t :
  type_check_fun_call ft (map f es) s = Ok t →
  ∃ args, ft = J.Function args t ∧ args_typed false (λ e t, f e = Ok t) es args.
Proof.
  unfold type_check_fun_call. intros H. comp_inv. destruct a as [args ret]. comp_inv.
  destruct ft; cbn in Ha; comp_inv. exists args. split; [by simplify_eq|].
  apply collect_Ok in Ha0. clear -Ha0 Ha1. revert a args Ha0 Ha1.
  induction es as [|e es IH]; intros a args Hc Hk; inversion Hc; subst; [by destruct args|].
  destruct args as [|t args]; [done|]. cbn in Hk. destruct y as [er|t']; comp_inv.
  cbn. match goal with H : ensure _ _ _ = Ok _ |- _ => apply janky_ensure_Ok in H as [-> ->] end. eauto.
Qed.

Lemma type_check_fun_call_complete (f : Expr → tc J.typ) es args s t :
  Forall2 (λ e t, f e = Ok t) es args →
  type_check_fun_call (J.Function args t) (map f es) s = Ok t.
Proof.
  intros H. unfold type_check_fun_call. cbn. rewrite (collect_map_Ok _ _ _ H). cbn.
  assert (check_args (map inr args) args s = Ok tt) as ->; [|done].
  clear H. induction args; cbn; [done|]. by rewrite janky_ensure_refl.
Qed.

Lemma type_check_stmt_out st Γ ret Γ' : type_check_stmt st Γ ret = Ok Γ' → Γ' = out_env Γ st.
Proof.
  destruct st; cbn; intros H; comp_inv; try done; try by destruct a.
  destruct ret; comp_inv; done.
Qed.

Ltac tc_inv :=
  repeat (comp_inv;
    match goal with
    | H : ensure _ _ _ = Ok _ |- _ => apply janky_ensure_Ok in H as [? ?]; subst
    | H : ensure_indexable _ _ = Ok _ |- _ => apply ensure_indexable_Ok in H as [? ?]; subst
    | H : ensure_indexer _ _ = Ok _ |- _ => apply ensure_indexer_Ok in H as [? ?]; subst
    | H : lookup_id _ _ _ = Ok _ |- _ => apply janky_lookup_id_Ok in H
    | H : type_check_fun_call _ _ _ = Ok _ |- _ => apply type_check_fun_call_sound in H as (? & ? & ?); subst
    | H : foldM (λ _ _, _;; Ok tt) tt _ = Ok ?a |- _ => destruct a; apply foldM_unit in H
    end); comp_inv.

(** ** Soundness *)
Definition lvalue_parts (P : Expr → Prop) (lv : LValue) : Prop :=
  match lv with LId _ _ => True | LDot e _ => P e | LBracket e1 e2 _ => P e1 ∧ P e2 end.

Lemma typing_sound :
  (∀ e Γ t, type_check_expr e Γ = Ok t → expr_typed false e Γ t) ∧
  (∀ lv, lvalue_parts (λ e, ∀ Γ t, type_check_expr e Γ = Ok t → expr_typed false e Γ t) lv) ∧
  (∀ f Γ t, type_check_func f Γ = Ok t → func_typed false f Γ t) ∧
  (∀ st Γ ret Γ', type_check_stmt st Γ ret = Ok Γ' → stmt_typed false st ret Γ).
Proof.
  apply syntax_ind. constructor; intros; cbn in *; try done; tc_inv; eauto.
  - split; [|done]. apply all_Forall. rewrite Forall_forall in *. naive_solver.
  - split; [|done]. apply all_Forall. rewrite Forall_forall in *. naive_solver.
  - eauto 10.
  - destruct (unop_janky_typ op). tc_inv. eauto.
  - destruct (binop_janky_typ op). tc_inv. eauto.
  - destruct lv; tc_inv; naive_solver.
  - eexists. split; [eauto|]. eapply args_typed_mono; [|done]. eapply Forall_impl; [done|]. eauto.
  - eexists. split_and!; [eauto..|]. eapply args_typed_mono; [|done]. eapply Forall_impl; [done|]. eauto.
  - eexists. split; [done|]. eapply args_typed_mono; [|done]. eapply Forall_impl; [done|]. eauto.
  - assert (Forall (λ et, expr_typed false et.1 Γ et.2) env); [|by rewrite all_Forall; eauto].
    clear H1 H. induction env as [|[e1 t1] env IH]; [constructor|]. cbn in Ha. tc_inv.
    apply Forall_cons in H0 as [He Henv]. constructor; [by apply He|]. auto.
  - destruct a0 as [from to]. tc_inv. eauto.
  - destruct a; tc_inv. eauto.
  - destruct a; tc_inv. eauto.
  - naive_solver.
  - destruct (is_undefined e) eqn:?; [done|]. tc_inv. eauto.
  - revert Γ' a Ha. induction H as [|st ss Hst _ IH]; intros Γ Γ' Ha; cbn in *; [done|].
    tc_inv. split; [eauto|]. apply type_check_stmt_out in Ha0 as ->. eauto.
  - naive_solver.
  - naive_solver.
  - destruct ret; tc_inv. eauto.
Qed.

(** ** Completeness *)
Lemma hide_subseteq b Γ D : hide b Γ D ⊆ Γ.
Proof. destruct b; [apply map_filter_subseteq|done]. Qed.
Lemma insert_args_mono Γ Δ args : Γ ⊆ Δ → insert_args Γ args ⊆ insert_args Δ args.
Proof.
  unfold insert_args. revert Γ Δ. induction args as [|[x t] args IH]; intros Γ Δ H; cbn; [done|].
  by apply IH, insert_mono.
Qed.
Lemma out_env_mono st Γ Δ : Γ ⊆ Δ → out_env Γ st ⊆ out_env Δ st.
Proof. destruct st; cbn; try done. apply insert_mono. Qed.

Lemma type_check_args (f : Expr → tc J.typ) (P : Expr → J.typ → Prop) es args s t :
  Forall (λ e, ∀ t, P e t → f e = Ok t) es → args_typed true P es args →
  type_check_fun_call (J.Function args t) (map f es) s = Ok t.
Proof.
  intros Hf Ha%args_typed_strict. apply type_check_fun_call_complete.
  eapply Forall_Forall2_mp; [|done]. done.
Qed.

Lemma closure_env_complete (f : Expr → tc J.typ) (P : Expr → J.typ → Prop) env s :
  Forall (λ et, ∀ t, P et.1 t → f et.1 = Ok t) env → all (λ et, P et.1 et.2) env →
  foldM (λ _ et, got ← f et.1; ensure et.2 got s;; Ok tt) tt env = Ok tt.
Proof.
  induction 1 as [|[e t] env He _ IH]; cbn in *; [done|]. intros [Ht ?].
  rewrite (He _ Ht). cbn. rewrite janky_ensure_refl. cbn. auto.
Qed.

(** Open conjunctions and existentials. *)
Ltac destruct_ex :=
  repeat match goal with
  | H : _ ∧ _ |- _ => destruct H
  | H : ∃ _, _ |- _ => destruct H
  end.
(** Rewrite with the results of the checker on the parts. *)
Ltac tc_go :=
  repeat match goal with
  | |- context [_ ≫= _] => progress cbn [mbind comp_bind]
  | H : ?Γ !! ?x = Some _ |- context [lookup_id ?Γ ?x _] => rewrite (proj2 (janky_lookup_id_Ok _ _ _ _) H)
  | H : ?Γ ⊆ ?Δ, H' : ?Γ !! ?x = Some _ |- context [lookup_id ?Δ ?x _] =>
      rewrite (proj2 (janky_lookup_id_Ok _ _ _ _) (lookup_weaken _ _ _ _ H' H))
  | IH : ∀ Γ Δ t, expr_typed true ?e Γ t → _ → type_check_expr ?e Δ = Ok t, H : expr_typed true ?e ?Γ _
    |- context [type_check_expr ?e ?Δ] => rewrite (IH Γ Δ _ H) by assumption
  | |- context [ensure ?t ?t _] => rewrite janky_ensure_refl
  | H : indexable ?t |- context [ensure_indexable ?t ?s] =>
      rewrite (proj2 (ensure_indexable_Ok t s t) (conj H eq_refl))
  | H : indexer ?t |- context [ensure_indexer ?t ?s] =>
      rewrite (proj2 (ensure_indexer_Ok t s t) (conj H eq_refl))
  | H : type_check_coercion _ _ = Ok _ |- _ => rewrite H
  | H : get_type_by_prefix _ _ _ = Ok _ |- _ => rewrite H
  | H : RTS.janky_typ _ = Ok _ |- _ => rewrite H
  end.

Lemma typing_complete :
  (∀ e Γ Δ t, expr_typed true e Γ t → Γ ⊆ Δ → type_check_expr e Δ = Ok t) ∧
  (∀ lv, lvalue_parts (λ e, ∀ Γ Δ t, expr_typed true e Γ t → Γ ⊆ Δ → type_check_expr e Δ = Ok t) lv) ∧
  (∀ f Γ Δ t, func_typed true f Γ t → Γ ⊆ Δ → type_check_func f Δ = Ok t) ∧
  (∀ st Γ Δ ret, stmt_typed true st ret Γ → Γ ⊆ Δ → type_check_stmt st Δ ret = Ok (out_env Δ st)).
Proof.
  apply syntax_ind. constructor; intros; cbn in *; try done; destruct_ex; subst;
    tc_go; eauto.
  - rewrite (proj2 (foldM_unit (λ e, type_check_expr e Δ) es)); [done|].
    rewrite all_Forall in H0. rewrite Forall_forall in *. intros e He. destruct (H0 e He). eauto.
  - rewrite (proj2 (foldM_unit (λ kv : Key * Expr, type_check_expr kv.2 Δ) kvs)); [done|].
    rewrite all_Forall in H0. rewrite Forall_forall in *. intros e He. destruct (H0 e He). eauto.
  - destruct (unop_janky_typ op). cbn. by rewrite janky_ensure_refl.
  - destruct (binop_janky_typ op). cbn. by rewrite !janky_ensure_refl.
  - destruct lv; destruct_ex; subst; cbn in *; destruct_ex; tc_go; done.
  - eapply type_check_args; [|done]. eapply Forall_impl; [done|]. eauto.
  - eapply type_check_args; [|done]. eapply Forall_impl; [done|]. eauto.
  - eapply type_check_args; [|done]. eapply Forall_impl; [done|]. eauto.
  - rewrite (closure_env_complete (λ e, type_check_expr e Δ) (λ e t, expr_typed true e Γ t)); [cbn; eauto| |done].
    eapply Forall_impl; [done|]. cbn. intros ? Hx. eauto.
  - erewrite H; [done|done|]. apply insert_args_mono. etrans; [apply (hide_subseteq true)|done].
  - destruct (is_undefined e) eqn:?; [done|]. specialize (H0 eq_refl). by tc_go.
  - assert (∃ Δ', foldM (λ Δ st, type_check_stmt st Δ ret) Δ ss = Ok Δ') as [? ->]; [|done].
    revert Γ Δ H0 H1. induction H as [|st ss Hst _ IH]; intros Γ Δ Hss Hsub; cbn in *; [eauto|].
    destruct Hss as [H1 H2]. erewrite Hst by done. cbn. eapply IH; [done|]. by apply out_env_mono.
  - erewrite H0, H1 by done. done.
  - by erewrite H.
  - erewrite H0; [done|done|]. by apply insert_mono.
  - by erewrite H.
  - erewrite H by done. cbn. erewrite H0; [done|done|]. by apply insert_mono.
  - erewrite H, H0 by done. done.
Qed.

(** C35: the checker is sound: a program it accepts is well typed (in the
    relation without the strict conditions, that ignores surplus arguments of
    calls).  It accepts every strictly typed program. *)
Theorem type_check_correct st :
  (type_check st = Ok tt → program_typed false st) ∧
  (program_typed true st → type_check st = Ok tt).
Proof.
  unfold type_check, program_typed. split; intros H.
  - comp_inv. by eapply (proj2 (proj2 (proj2 typing_sound))).
  - erewrite (proj2 (proj2 (proj2 typing_complete))); [done|done|apply hide_subseteq].
Qed.

(** ** What the checker lets through *)
Definition panics {E A} (m : comp E A) : bool := match m with Panic _ => true | _ => false end.

Lemma collect_total {E A} (l : list (comp E A)) :
  (∃ k, collect l = Ok k) ↔ Forall (λ m, panics m = false) l.
Proof.
  induction l as [|[a|e|m] l IH]; cbn.
  - split; [constructor|eauto].
  - rewrite Forall_cons, <- IH. split.
    + intros [k H]. comp_inv. eauto.
    + intros [_ [k ->]]. eauto.
  - rewrite Forall_cons, <- IH. split.
    + intros [k H]. comp_inv. eauto.
    + intros [_ [k ->]]. eauto.
  - split; [intros [? [=]]|intros [[=] _]%Forall_cons].
Qed.

Lemma janky_check_args_Ok actual expected s :
  check_args actual expected s = Ok tt ↔
  ∀ i a t, actual !! i = Some a → expected !! i = Some t → a = inr t.
Proof.
  revert expected. induction actual as [|a actual IH]; intros [|t expected]; cbn; try (by split).
  split.
  - intros H [|i] b u Hb Hu; cbn in *; simplify_eq.
    + destruct b; comp_inv. match goal with H : ensure _ _ _ = Ok _ |- _ => apply janky_ensure_Ok in H as [-> ?] end. done.
    + destruct a as [er|t']; comp_inv. eapply IH; eauto.
  - intros H. rewrite (H O a t) by done. cbn. rewrite janky_ensure_refl. cbn. apply IH.
    intros i. apply (H (S i)).
Qed.

(** A call is accepted exactly when the callee has a function type and
    each argument that has a parameter has the type of that parameter.  The
    number of arguments is not looked at: missing arguments are accepted, and
    so are surplus ones, with any type and even when they do not type-check. *)
Theorem type_check_call_prefix Γ f es s t :
  type_check_expr (ECall f es s) Γ = Ok t ↔
  ∃ args, type_check_expr f Γ = Ok (J.Function args t) ∧
    Forall (λ e, panics (type_check_expr e Γ) = false) es ∧
    ∀ i e a, es !! i = Some e → args !! i = Some a → type_check_expr e Γ = Ok a.
Proof.
  cbn. split.
  - intros H. comp_inv. unfold type_check_fun_call in H. comp_inv. destruct a0 as [args ret].
    destruct a; cbn in Ha0; comp_inv. simplify_eq. exists args. split; [done|]. split.
    + eapply (proj1 (Forall_fmap (λ e, type_check_expr e Γ) (λ m, panics m = false) es)), collect_total. eauto.
    + intros i e ty He Hty. destruct a0. pose proof (proj1 (janky_check_args_Ok _ _ _) Ha1) as Hc.
      apply collect_Ok in Ha0.
      destruct (Forall2_lookup_l _ _ _ i (type_check_expr e Γ) Ha0) as (r & Hr & Heq).
      { by rewrite list_lookup_fmap, He. }
      by rewrite (Hc _ _ _ Hr Hty) in Heq.
  - intros (args & -> & Hp & Hargs). cbn. unfold type_check_fun_call. cbn.
    destruct (proj2 (collect_total (map (λ e, type_check_expr e Γ) es))) as [k Hk].
    { by apply (Forall_fmap (λ e, type_check_expr e Γ) (λ m, panics m = false)). }
    rewrite Hk. cbn. rewrite (proj2 (janky_check_args_Ok k args s)); [done|].
    intros i a t' Ha Ht. apply collect_Ok in Hk.
    destruct (Forall2_lookup_r _ _ _ i a Hk) as (m & Hm & Heq); [done|].
    apply list_lookup_fmap_Some in Hm as (e & -> & He). rewrite (Hargs _ _ _ He Ht) in Heq.
    destruct a; congruence.
Qed.

(** A call of a global function of two parameters without arguments, and with an
    unbound variable as its third argument. *)
Example call_arity (s : Pos) :
  let f := EId (Named "log_any") (J.Function [J.Any; J.Any] J.Any) s in
  let u := ELit LUndefined s in
  type_check (SExpr (ECall f [] s) s) = Ok tt ∧
  type_check (SExpr (ECall f [u; u; EId (Named "nowhere") J.Any s] s) s) = Ok tt.
Proof. by vm_compute. Qed.

(** The arguments of function coercions are identities. *)
Fixpoint args_identical (c : Coercion) : bool :=
  match c with
  | Fun args ret => forallb (λ c, match c with CId _ => true | _ => false end) args && args_identical ret
  | Seq c1 c2 => args_identical c1 && args_identical c2
  | _ => true
  end.

Lemma type_check_coercion_identical c t1 t2 s :
  has_type c t1 t2 → args_identical c = true → type_check_coercion c s = Ok (t1, t2).
Proof.
  revert t1 t2. induction c as [t|t| | |args ret _ IH|t|c1 c2 IH1 IH2|u1 u2] using Coercion_ind';
    intros t1 t2 Ht Hc; inversion Ht as [| | | |? ? ? ? ? ? Hargs Hret| | |]; subst; cbn; try done.
  - cbn in Hc. apply andb_prop in Hc as [Ha Hr]. rewrite (IH _ _ Hret Hr).
    assert (args0 = args' ∧ mapM (λ c, type_check_coercion c s) args = Ok (map (λ t, (t, t)) args')) as [-> ->].
    { clear -Hargs Ha. induction Hargs as [|c t t' args l k Hct _ IH]; [done|]. cbn in *.
      apply andb_prop in Ha as [Hc Ha]. destruct c; try done. inversion Hct; subst.
      destruct (IH Ha) as [-> ->]. done. }
    cbn. rewrite !map_map. cbn. by rewrite !map_id.
  - cbn in Hc. apply andb_prop in Hc as [? ?]. erewrite IH2, IH1 by done. cbn. by rewrite janky_ensure_refl.
Qed.

(** On a coercion whose function coercions leave the arguments alone,
    [type_check_coercion] agrees with the types of the comments on [Coercion].
    On the others it does not: it reads a function coercion as covariant in its
    arguments, so it exchanges the two argument types of the coercion that
    [Coercion::new] builds from [(int) -> any] to [(float) -> any], and it
    rejects the one from [any] to [(int) -> any]. *)
Theorem type_check_coercion_variance s :
  (∀ t1 t2 c, @new never t1 t2 = Ok c → args_identical c = true →
     type_check_coercion c s = Ok (t1, t2)) ∧
  (∃ c, @new never (Overloads.ty1 J.Int J.Any) (Overloads.ty1 J.Float J.Any) = Ok c ∧
     type_check_coercion c s = Ok (Overloads.ty1 J.Float J.Any, Overloads.ty1 J.Int J.Any)) ∧
  (∃ c, @new never J.Any (Overloads.ty1 J.Int J.Any) = Ok c ∧
     type_check_coercion c s = Err (TypeMismatch (Overloads.ty1 J.Any J.Any) (Overloads.ty1 J.Int J.Any) s)).
Proof.
  split_and!.
  - intros t1 t2 c Hc. apply type_check_coercion_identical. by eapply new_fuel_typed.
  - eexists. by vm_compute.
  - eexists. by vm_compute.
Qed.
