(* ===== verification/JankyWalk.v ===== *)
(** The visitor of JankyScript programs ([jankyscript/walk.rs]) and what a walk
    establishes. *)
From S2P Require Import Prelude Types Coercions Operators JankySyntax.
Import K.

(** A loop that threads a state and rebuilds the list. *)
Fixpoint mapSM {E S A B} (f : S → A → comp E (S * B)) (s : S) (l : list A) : comp E (S * list B) :=
  match l with
  | [] => Ok (s, [])
  | x :: l =>
      '(s, y) ← f s x;
      '(s, l) ← mapSM f s l;
      Ok (s, y :: l)
  end.

(** ** Visitors

    The methods that the passes below override.  Their [enter_fn] looks at
    the function without changing it; the other [enter_] methods and the patches
    of [BlockContext] are not used by them. *)
Record Visitor (S : Type) := mkVisitor {
  enter_fn : S → Func → comp never S;
  exit_fn : S → Func → comp never (S * Func);
  exit_expr : S → Expr → comp never (S * Expr);
  exit_stmt : S → Stmt → comp never (S * Stmt)
}.
Arguments mkVisitor {S}.
Arguments enter_fn {S}.
Arguments exit_fn {S}.
Arguments exit_expr {S}.
Arguments exit_stmt {S}.

Fixpoint walk_expr {S} (v : Visitor S) (s : S) (e : Expr) {struct e} : comp never (S * Expr) :=
  '(s, e) ←
    match e with
    | ELit _ _ | EEnvGet _ _ _ => Ok (s, e)
    | EId _ _ _ => Ok (s, e)
    | EFunc f p => '(s, f) ← walk_func v s f; Ok (s, EFunc f p)
    | EJsOp op es i p => '(s, es) ← mapSM (walk_expr v) s es; Ok (s, EJsOp op es i p)
    | EArray es p => '(s, es) ← mapSM (walk_expr v) s es; Ok (s, EArray es p)
    | EPrimCall f es p => '(s, es) ← mapSM (walk_expr v) s es; Ok (s, EPrimCall f es p)
    | EObject kvs p =>
        '(s, kvs) ← mapSM (λ s kv, '(s, e) ← walk_expr v s kv.2; Ok (s, (kv.1, e))) s kvs;
        Ok (s, EObject kvs p)
    | ECoercion c e p => '(s, e) ← walk_expr v s e; Ok (s, ECoercion c e p)
    | EDot e x p => '(s, e) ← walk_expr v s e; Ok (s, EDot e x p)
    | EUnary op e p => '(s, e) ← walk_expr v s e; Ok (s, EUnary op e p)
    | ENewRef e t p => '(s, e) ← walk_expr v s e; Ok (s, ENewRef e t p)
    | EDeref e t p => '(s, e) ← walk_expr v s e; Ok (s, EDeref e t p)
    | EAssign lv e p =>
        '(s, lv) ← walk_lval v s lv; '(s, e) ← walk_expr v s e; Ok (s, EAssign lv e p)
    | ECall e es p => '(s, e) ← walk_expr v s e; '(s, es) ← mapSM (walk_expr v) s es; Ok (s, ECall e es p)
    | EMethodCall e m es t p =>
        '(s, e) ← walk_expr v s e; '(s, es) ← mapSM (walk_expr v) s es; Ok (s, EMethodCall e m es t p)
    | ELength e t p => '(s, e) ← walk_expr v s e; Ok (s, ELength e t p)
    | EBracket e1 e2 t p =>
        '(s, e1) ← walk_expr v s e1; '(s, e2) ← walk_expr v s e2; Ok (s, EBracket e1 e2 t p)
    | EBinary op e1 e2 p =>
        '(s, e1) ← walk_expr v s e1; '(s, e2) ← walk_expr v s e2; Ok (s, EBinary op e1 e2 p)
    | EStore e1 e2 t p =>
        '(s, e1) ← walk_expr v s e1; '(s, e2) ← walk_expr v s e2; Ok (s, EStore e1 e2 t p)
    | EClosure f env p =>
        '(s, env) ← mapSM (λ s et, '(s, e) ← walk_expr v s et.1; Ok (s, (e, et.2))) s env;
        Ok (s, EClosure f env p)
    end;
  exit_expr v s e
with walk_lval {S} (v : Visitor S) (s : S) (lv : LValue) {struct lv} : comp never (S * LValue) :=
  match lv with
  | LId _ _ => Ok (s, lv)
  | LDot e x => '(s, e) ← walk_expr v s e; Ok (s, LDot e x)
  | LBracket e1 e2 t =>
      '(s, e1) ← walk_expr v s e1; '(s, e2) ← walk_expr v s e2; Ok (s, LBracket e1 e2 t)
  end
(** The case of functions in [walk_expr]. *)
with walk_func {S} (v : Visitor S) (s : S) (f : Func) {struct f} : comp never (S * Func) :=
  match f with
  | mkFunc r args b fv afc =>
      s ← enter_fn v s f;
      '(s, b) ← walk_stmt v s b;
      exit_fn v s (mkFunc r args b fv afc)
  end
with walk_stmt {S} (v : Visitor S) (s : S) (st : Stmt) {struct st} : comp never (S * Stmt) :=
  '(s, st) ←
    match st with
    | SEmpty | SBreak _ _ => Ok (s, st)
    | SLabel x b p => '(s, b) ← walk_stmt v s b; Ok (s, SLabel x b p)
    | SLoop b p => '(s, b) ← walk_stmt v s b; Ok (s, SLoop b p)
    | SFinally b f p => '(s, b) ← walk_stmt v s b; '(s, f) ← walk_stmt v s f; Ok (s, SFinally b f p)
    | SCatch b x c p => '(s, b) ← walk_stmt v s b; '(s, c) ← walk_stmt v s c; Ok (s, SCatch b x c p)
    | SBlock ss p => '(s, ss) ← mapSM (walk_stmt v) s ss; Ok (s, SBlock ss p)
    | SVar x t e p => '(s, e) ← walk_expr v s e; Ok (s, SVar x t e p)
    | SThrow e p => '(s, e) ← walk_expr v s e; Ok (s, SThrow e p)
    | SReturn e p => '(s, e) ← walk_expr v s e; Ok (s, SReturn e p)
    | SExpr e p => '(s, e) ← walk_expr v s e; Ok (s, SExpr e p)
    | SForIn x e b p => '(s, e) ← walk_expr v s e; '(s, b) ← walk_stmt v s b; Ok (s, SForIn x e b p)
    | SIf c s1 s2 p =>
        '(s, c) ← walk_expr v s c; '(s, s1) ← walk_stmt v s s1; '(s, s2) ← walk_stmt v s s2;
        Ok (s, SIf c s1 s2 p)
    end;
  exit_stmt v s st.

(** [Stmt::walk]. *)
Definition walk {S} (v : Visitor S) (s : S) (st : Stmt) : comp never (S * Stmt) := walk_stmt v s st.

Definition enter_nothing {S A} (s : S) (_ : A) : comp never S := Ok s.
Definition exit_nothing {S A} (s : S) (a : A) : comp never (S * A) := Ok (s, a).

(** ** Predicates on every function and expression of a program

    As in the walk, the functions of closures are left out. *)
Fixpoint in_expr (PE : Expr → Prop) (PF : Func → Prop) (e : Expr) : Prop :=
  PE e ∧
  match e with
  | ELit _ _ | EEnvGet _ _ _ | EId _ _ _ => True
  | EFunc f _ => in_func PE PF f
  | EJsOp _ es _ _ | EArray es _ | EPrimCall _ es _ => all (in_expr PE PF) es
  | EObject kvs _ => all (λ kv, in_expr PE PF kv.2) kvs
  | ECoercion _ e _ | EDot e _ _ | EUnary _ e _ | ENewRef e _ _ | EDeref e _ _ | ELength e _ _ => in_expr PE PF e
  | EAssign lv e _ => in_lval PE PF lv ∧ in_expr PE PF e
  | ECall e es _ | EMethodCall e _ es _ _ => in_expr PE PF e ∧ all (in_expr PE PF) es
  | EBracket e1 e2 _ _ | EBinary _ e1 e2 _ | EStore e1 e2 _ _ => in_expr PE PF e1 ∧ in_expr PE PF e2
  | EClosure _ env _ => all (λ et, in_expr PE PF et.1) env
  end
with in_lval (PE : Expr → Prop) (PF : Func → Prop) (lv : LValue) : Prop :=
  match lv with
  | LId _ _ => True
  | LDot e _ => in_expr PE PF e
  | LBracket e1 e2 _ => in_expr PE PF e1 ∧ in_expr PE PF e2
  end
with in_func (PE : Expr → Prop) (PF : Func → Prop) (f : Func) : Prop := PF f ∧ match f with mkFunc _ _ b _ _ => in_stmt PE PF b end
with in_stmt (PE : Expr → Prop) (PF : Func → Prop) (st : Stmt) : Prop :=
  match st with
  | SEmpty | SBreak _ _ => True
  | SLabel _ b _ | SLoop b _ => in_stmt PE PF b
  | SFinally s1 s2 _ | SCatch s1 _ s2 _ => in_stmt PE PF s1 ∧ in_stmt PE PF s2
  | SBlock ss _ => all (in_stmt PE PF) ss
  | SVar _ _ e _ | SThrow e _ | SReturn e _ | SExpr e _ => in_expr PE PF e
  | SForIn _ e b _ => in_expr PE PF e ∧ in_stmt PE PF b
  | SIf c s1 s2 _ => in_expr PE PF c ∧ in_stmt PE PF s1 ∧ in_stmt PE PF s2
  end.

(** The proper parts of an expression. *)
Definition under_expr (PE : Expr → Prop) (PF : Func → Prop) (e : Expr) : Prop :=
  match e with
  | ELit _ _ | EEnvGet _ _ _ | EId _ _ _ => True
  | EFunc f _ => in_func PE PF f
  | EJsOp _ es _ _ | EArray es _ | EPrimCall _ es _ => all (in_expr PE PF) es
  | EObject kvs _ => all (λ kv, in_expr PE PF kv.2) kvs
  | ECoercion _ e _ | EDot e _ _ | EUnary _ e _ | ENewRef e _ _ | EDeref e _ _ | ELength e _ _ => in_expr PE PF e
  | EAssign lv e _ => in_lval PE PF lv ∧ in_expr PE PF e
  | ECall e es _ | EMethodCall e _ es _ _ => in_expr PE PF e ∧ all (in_expr PE PF) es
  | EBracket e1 e2 _ _ | EBinary _ e1 e2 _ | EStore e1 e2 _ _ => in_expr PE PF e1 ∧ in_expr PE PF e2
  | EClosure _ env _ => all (λ et, in_expr PE PF et.1) env
  end.
Lemma in_expr_eq (PE : Expr → Prop) (PF : Func → Prop) e : in_expr PE PF e ↔ PE e ∧ under_expr PE PF e.
Proof. by destruct e. Qed.
Lemma in_func_eq (PE : Expr → Prop) (PF : Func → Prop) f :
  in_func PE PF f ↔ PF f ∧ in_stmt PE PF (body f).
Proof. by destruct f. Qed.

Lemma mapSM_all {E S A B} (P : B → Prop) (f : S → A → comp E (S * B)) l s s' k :
  Forall (λ x, ∀ s s' y, f s x = Ok (s', y) → P y) l → mapSM f s l = Ok (s', k) → all P k.
Proof.
  intros Hl. revert s k. induction Hl as [|x l Hx _ IH]; intros s k H; cbn in H; comp_inv; [by simplify_eq|].
  destruct a as [s1 y]. comp_inv. destruct a as [s2 k']. comp_inv. simplify_eq. cbn. eauto.
Qed.
(** ** What a visitor establishes on every node, the walk establishes on the
    program *)
Section walk_in.
Context {S : Type} (v : Visitor S) (PE : Expr → Prop) (PF : Func → Prop).
Hypothesis Hfn : ∀ s s' f f',
  in_stmt PE PF (body f) → exit_fn v s f = Ok (s', f') → in_func PE PF f'.
Hypothesis Hexpr : ∀ s s' e e',
  under_expr PE PF e → exit_expr v s e = Ok (s', e') → in_expr PE PF e'.
Hypothesis Hstmt : ∀ s s' st st',
  in_stmt PE PF st → exit_stmt v s st = Ok (s', st') → in_stmt PE PF st'.

Ltac pairs := repeat (comp_inv; match goal with
  | H : (let '(_, _) := ?p in _) = Ok _ |- _ => destruct p end); comp_inv; simplify_eq.

Lemma walk_establishes :
  (∀ e s s' e', walk_expr v s e = Ok (s', e') → in_expr PE PF e') ∧
  (∀ lv s s' lv', walk_lval v s lv = Ok (s', lv') → in_lval PE PF lv') ∧
  (∀ f s s' f', walk_func v s f = Ok (s', f') → in_func PE PF f') ∧
  (∀ st s s' st', walk_stmt v s st = Ok (s', st') → in_stmt PE PF st').
Proof.
  apply syntax_ind. constructor; intros; cbn in *; pairs;
    try (eapply Hexpr; [|done]); try (eapply Hstmt; [|done]); try (eapply Hfn; [|done]);
    cbn; eauto 6 using mapSM_all.
  all: try (eapply mapSM_all; [|done]); eapply Forall_impl; [done|].
  all: intros [] Hx ? ? [] ?; pairs; cbn in *; eauto.
Qed.
End walk_in.
