(* ===== verification/InsertReturns.v ===== *)
(** Insertion of missing returns ([jankyscript/insert_returns.rs]). *)
From S2P Require Import Prelude Types Coercions Operators JankySyntax JankyWalk.
Import K.

(** ** The pass *)

(** [returns]: the statement is guaranteed to return or throw.  The assertion
    on [Finally] can fail. *)
Fixpoint returns (st : Stmt) : comp never bool :=
  match st with
  | SVar _ _ _ _ | SEmpty | SBreak _ _ | SExpr _ _ => Ok false
  | SBlock stmts _ =>
      (fix any ss := match ss with
                     | [] => Ok false
                     | st :: ss => b ← returns st; if (b : bool) then Ok true else any ss
                     end) stmts
  | SIf _ true_part false_part _ =>
      b ← returns true_part; if (b : bool) then returns false_part else Ok false
  | SLoop _ _ | SForIn _ _ _ _ => Ok false
  | SCatch _ _ _ _ => Ok false
  | SFinally body finally_body _ =>
      b ← returns body;
      assert "assertion failed: !returns(body)" (negb b);;
      returns finally_body
  | SLabel _ _ _ => Ok false
  | SThrow _ _ => Ok true
  | SReturn _ _ => Ok true
  end.

Definition insert_exit_fn (s : unit) (f : Func) : comp never (unit * Func) :=
  match f with
  | mkFunc r args b fv afc =>
      done ← returns b;
      if (done : bool) then Ok (s, f)
      else
        match b with
        | SBlock body p => Ok (s, mkFunc r args (SBlock (body ++ [SReturn (ELit LUndefined p) p]) p) fv afc)
        | _ => Panic "A function with a non-block body."
        end
  end.
Definition InsertReturns : Visitor unit :=
  mkVisitor enter_nothing insert_exit_fn exit_nothing exit_nothing.
Definition insert_returns (program : Stmt) : comp never Stmt :=
  '(_, st) ← walk InsertReturns tt program; Ok st.

(** ** How statements complete

    Conditions are arbitrary, loops run any number of times and every
    expression may throw. *)
Inductive outcome : Type := Normal | Broke (x : Id) | Returned | Threw.

Inductive completes : Stmt → outcome → Prop :=
  | co_var x t e p : completes (SVar x t e p) Normal
  | co_var_throw x t e p : completes (SVar x t e p) Threw
  | co_empty : completes SEmpty Normal
  | co_expr e p : completes (SExpr e p) Normal
  | co_expr_throw e p : completes (SExpr e p) Threw
  | co_block ss p o : completes_all ss o → completes (SBlock ss p) o
  | co_if_throw c s1 s2 p : completes (SIf c s1 s2 p) Threw
  | co_if_true c s1 s2 p o : completes s1 o → completes (SIf c s1 s2 p) o
  | co_if_false c s1 s2 p o : completes s2 o → completes (SIf c s1 s2 p) o
  | co_loop b p o : completes b o → o ≠ Normal → completes (SLoop b p) o
  | co_forin_throw x e b p : completes (SForIn x e b p) Threw
  | co_forin x e b p : completes (SForIn x e b p) Normal
  | co_forin_body x e b p o : completes b o → o ≠ Normal → completes (SForIn x e b p) o
  | co_label_break x b p : completes b (Broke x) → completes (SLabel x b p) Normal
  | co_label x b p o : completes b o → o ≠ Broke x → completes (SLabel x b p) o
  | co_break x p : completes (SBreak x p) (Broke x)
  | co_catch b x c p o : completes b Threw → completes c o → completes (SCatch b x c p) o
  | co_catch_none b x c p o : completes b o → o ≠ Threw → completes (SCatch b x c p) o
  | co_finally b f p o : completes b o → completes f Normal → completes (SFinally b f p) o
  | co_finally_own b f p o o' : completes b o' → completes f o → o ≠ Normal → completes (SFinally b f p) o
  | co_throw e p : completes (SThrow e p) Threw
  | co_return e p : completes (SReturn e p) Returned
  | co_return_throw e p : completes (SReturn e p) Threw
with completes_all : list Stmt → outcome → Prop :=
  | co_nil : completes_all [] Normal
  | co_stop st ss o : completes st o → o ≠ Normal → completes_all (st :: ss) o
  | co_next st ss o : completes st Normal → completes_all ss o → completes_all (st :: ss) o.

Fixpoint any_returns (ss : list Stmt) : comp never bool :=
  match ss with
  | [] => Ok false
  | st :: ss => b ← returns st; if (b : bool) then Ok true else any_returns ss
  end.
Lemma returns_block ss p : returns (SBlock ss p) = any_returns ss.
Proof. cbn. induction ss as [|st ss IH]; cbn; [done|]. by rewrite IH. Qed.

(** A statement of which [returns] holds does not complete normally. *)
Lemma returns_sound st : returns st = Ok true → ¬ completes st Normal.
Proof.
  revert st. apply (Stmt_ind' (λ _, True) (λ _, True) (λ _, True) (λ st, returns st = Ok true → ¬ completes st Normal)).
  constructor; try done; intros.
  - rewrite returns_block in *. intros Hc. inversion Hc as [| | | | |? ? ? Hss| | | | | | | | | | | | | | | | | ]; subst.
    revert H0 Hss. clear -H. induction H as [|st ss Hst _ IH]; cbn; intros Hr Hc; [done|].
    comp_inv. destruct a; comp_inv.
    + inversion Hc; subst; [done|]. by eapply Hst.
    + inversion Hc; subst; [done|]. by eapply IH.
  - cbn in *. comp_inv. destruct a; comp_inv; [|done]. intros Hc. inversion Hc; subst; [by eapply H0|by eapply H1].
  - cbn in *. comp_inv. intros Hc. inversion Hc; subst; [by eapply H0|done].
  - intros Hc. inversion Hc.
  - intros Hc. inversion Hc.
Qed.

Lemma completes_all_app ss1 ss2 o :
  completes_all (ss1 ++ ss2) o ↔
  (completes_all ss1 o ∧ o ≠ Normal) ∨ (completes_all ss1 Normal ∧ completes_all ss2 o).
Proof.
  induction ss1 as [|st ss1 IH]; cbn.
  - split; [intros ?; right; by repeat constructor|]. intros [[H ?]|[_ ?]]; [|done]. inversion H; subst. done.
  - split.
    + inversion 1; subst; [left; split; [by constructor|done]|].
      destruct (proj1 IH ltac:(done)) as [[? ?]|[? ?]]; [left|right]; (split; [by apply co_next|done]).
    + intros [[H ?]|[H ?]]; inversion H; subst; try done.
      * by constructor.
      * apply co_next; [done|]. apply IH. auto.
      * apply co_next; [done|]. apply IH. auto.
Qed.

(** The pass turns the normal completion of a function body, and nothing else,
    into a return. *)
Definition returns_instead (o o' : outcome) : Prop :=
  o' = o ∧ o ≠ Normal ∨ o = Normal ∧ (o' = Returned ∨ o' = Threw).

Lemma insert_exit_fn_body s s' f f' :
  insert_exit_fn s f = Ok (s', f') →
  ∀ o', completes (body f') o' ↔ ∃ o, completes (body f) o ∧ returns_instead o o'.
Proof.
  destruct f as [r args b fv afc]. cbn. intros H o'. comp_inv. destruct a; comp_inv.
  - simplify_eq. cbn. pose proof (returns_sound _ Ha). unfold returns_instead.
    split; [intros; exists o'; naive_solver|]. intros (o & Ho & [[-> _]|[-> _]]); [done|naive_solver].
  - destruct b; comp_inv. simplify_eq. cbn. unfold returns_instead.
    assert (∀ p o, completes_all [SReturn (ELit LUndefined p) p] o ↔ o = Returned ∨ o = Threw) as Hret.
    { intros p o. split.
      - inversion 1 as [|? ? ? Hc|? ? ? Hc]; subst; inversion Hc; auto.
      - intros [-> | ->]; (apply co_stop; [constructor|done]). }
    split.
    + inversion 1 as [| | | | |? ? ? Hss| | | | | | | | | | | | | | | | | ]; subst.
      apply completes_all_app in Hss as [[? ?]|[? ?]].
      * exists o'. split; [by constructor|auto].
      * exists Normal. split; [by constructor|]. right. by rewrite <- Hret.
    + intros (o & Ho & Hoo). inversion Ho as [| | | | |? ? ? Hss| | | | | | | | | | | | | | | | | ]; subst.
      constructor. apply completes_all_app. destruct Hoo as [[-> ?]|[-> ?]]; [auto|].
      right. by rewrite Hret.
Qed.

Definition never_normal (f : Func) : Prop := ¬ completes (body f) Normal.

(** After the pass, no function of the program falls off the end of its body:
    every completion is a return, a throw or a jump to a label outside the
    function. *)
Theorem insert_returns_correct p p' :
  insert_returns p = Ok p' → in_stmt (λ _, True) never_normal p'.
Proof.
  unfold insert_returns, walk. intros H. comp_inv. destruct a as [s st]. comp_inv.
  eapply (proj2 (proj2 (proj2 (walk_establishes InsertReturns _ never_normal _ _ _)))); [done|..].
  Unshelve.
  - intros s1 s2 f f' Hf He. apply in_func_eq. split.
    + intros Hn. apply (insert_exit_fn_body _ _ _ _ He) in Hn as (o & _ & [[? ?]|[_ [?|?]]]); naive_solver.
    + destruct f as [r args b fv afc]. cbn in He, Hf. comp_inv. destruct a; comp_inv; [by simplify_eq|].
      destruct b; comp_inv. simplify_eq. cbn in *. rewrite all_Forall in *.
      apply Forall_app. split; [done|]. by repeat constructor.
  - intros s1 s2 e e' He [= <- <-]. by rewrite in_expr_eq.
  - by intros s1 s2 st1 st2 Hst [= <- <-].
Qed.

(** The program [(function (x) { if (x) { return x; } });]. *)
Definition sample : Stmt :=
  let x := EId (Named "x") J.Any Unknown in
  SExpr (func [(Named "x", J.Any)] J.Any
           (SBlock [SIf x (SBlock [SReturn x Unknown] Unknown) SEmpty Unknown] Unknown) Unknown) Unknown.
Lemma insert_returns_correct_witness :
  ∃ p', insert_returns sample = Ok p' ∧ in_stmt (λ _, True) never_normal p'.
Proof.
  eexists. split; [reflexivity|]. apply (insert_returns_correct sample). reflexivity.
Defined.

(** The pass changes a function only when control can reach its end
    according to [returns], and then only so that it returns there: what
    completes abruptly still does so in the same way. *)
Theorem insert_exit_fn_correct s s' f f' :
  insert_exit_fn s f = Ok (s', f') →
  args_with_typs f' = args_with_typs f ∧ result_typ f' = result_typ f ∧
  (returns (body f) = Ok true → f' = f) ∧
  ∀ o', completes (body f') o' ↔ ∃ o, completes (body f) o ∧ returns_instead o o'.
Proof.
  intros H. pose proof (insert_exit_fn_body _ _ _ _ H). destruct f as [r args b fv afc].
  cbn in H |- *. comp_inv. split_and!; [| | |done].
  - destruct a; comp_inv; [by simplify_eq|]. destruct b; comp_inv. by simplify_eq.
  - destruct a; comp_inv; [by simplify_eq|]. destruct b; comp_inv. by simplify_eq.
  - rewrite Ha. intros [= ->]. comp_inv. by simplify_eq.
Qed.
Lemma insert_exit_fn_correct_witness :
  let f := func_new [] J.Any (SBlock [SExpr (ELit LNull Unknown) Unknown] Unknown) in
  ∃ f', insert_exit_fn tt f = Ok (tt, f') ∧ completes (body f') Returned.
Proof.
  eexists. split; [reflexivity|].
  apply (insert_exit_fn_correct tt tt (func_new [] J.Any (SBlock [SExpr (ELit LNull Unknown) Unknown] Unknown)) _ eq_refl).
  exists Normal. split; [|right; auto]. constructor. apply co_next; constructor.
Defined.

(** [insert_returns] panics on [function () { try { return 1; } finally { } }]: the
    assertion that the body of a [finally] does not return fails. *)
Theorem insert_returns_finally (s : Pos) :
  insert_returns
    (SExpr (func [] J.Any
       (SBlock [SFinally (SBlock [SReturn (ELit (LNum (NInt 1)) s) s] s) (SBlock [] s) s] s) s) s)
  = Panic "assertion failed: !returns(body)".
Proof. reflexivity. Qed.
