(* ===== verification/Selection.v ===== *)
(** Selection of method calls and of coercions
    ([jankyscript/select_method_call.rs], [jankyscript/coercions.rs]). *)
From S2P Require Import Prelude Types Coercions Operators JankySyntax JankyTyping JankyWalk.
Import K.

(** ** Method calls *)
Definition select_exit_expr (s : unit) (e : Expr) : comp never (unit * Expr) :=
  match e with
  | EMethodCall obj method args typ p =>
      match typ with
      | J.Any => Ok (s, e)
      | J.DynObject =>
          fty ← get_type_by_prefix method (length args) typ;
          Ok (s, ECall (ECoercion (Meta J.Any fty) (dot_ obj method p) p) args p)
      | _ =>
          fty ← get_type_by_prefix method (length args) typ;
          Ok (s, EPrimCall (RTS.Method method fty) args p)
      end
  | ELength obj typ p =>
      match typ with
      | J.Any => Ok (s, e)
      | J.DynObject => Ok (s, dot_ obj "length" p)
      | _ => Ok (s, EPrimCall (RTS.Method "length" (J.Function [typ] J.Int)) [obj] p)
      end
  | _ => Ok (s, e)
  end.
Definition MethodCallVisitor : Visitor unit :=
  mkVisitor enter_nothing exit_nothing select_exit_expr exit_nothing.
Definition select_method_call (program : Stmt) : comp never Stmt :=
  '(_, st) ← walk MethodCallVisitor tt program; Ok st.

(** ** Coercions *)
Definition reify_exit_expr (s : unit) (e : Expr) : comp never (unit * Expr) :=
  match e with
  | ECoercion coercion e' p =>
      match coercion with
      | Meta src dst => c ← new src dst; Ok (s, ECoercion c e' p)
      | _ => Ok (s, e)
      end
  | _ => Ok (s, e)
  end.
Definition CoercionVisitor : Visitor unit :=
  mkVisitor enter_nothing exit_nothing reify_exit_expr exit_nothing.
Definition reify_coercions (program : Stmt) : comp never Stmt :=
  '(_, st) ← walk CoercionVisitor tt program; Ok st.

(** ** Selected method calls *)

(** Only values of type [Any] are still dispatched on at run time. *)
Definition any_dispatch (e : Expr) : Prop :=
  match e with
  | EMethodCall _ _ _ t _ | ELength _ t _ => t = J.Any
  | _ => True
  end.
(** The type of [e.length] for [e] of type [t]. *)
Definition length_typ (t : J.typ) : J.typ :=
  match t with J.Any | J.DynObject => J.Any | _ => J.Int end.

(** After the pass, the only method calls and lengths left are those on
    values of type [Any]. *)
Theorem select_method_call_correct p p' :
  select_method_call p = Ok p' → in_stmt any_dispatch (λ _, True) p'.
Proof.
  unfold select_method_call, walk. intros H. comp_inv. destruct a as [s st]. comp_inv.
  eapply (proj2 (proj2 (proj2 (walk_establishes MethodCallVisitor any_dispatch _ _ _ _)))); [done|..].
  Unshelve.
  - intros s1 s2 f f' Hf [= <- <-]. by apply in_func_eq.
  - intros s1 s2 e e' Hu He. cbn in He.
    destruct e as [| | | | | | | | | | |obj m args ty q| |obj ty q| | | | | | |];
      try (injection He as <- <-; by rewrite in_expr_eq).
    + cbn -[get_type_by_prefix] in He, Hu. destruct ty; comp_inv; simplify_eq; cbn; naive_solver.
    + cbn in He, Hu. destruct ty; comp_inv; simplify_eq; cbn; naive_solver.
  - by intros s1 s2 st1 st2 Hst [= <- <-].
Qed.

(** [a.push(1)] for an array, [o.m(1)] for an object and [x.length] for a string. *)
Definition method_calls : Stmt :=
  let id x t := EId (Named x) t Unknown in
  SBlock [SExpr (EMethodCall (id "a" J.Array) "push" [id "a" J.Array; ELit LNull Unknown] J.Array Unknown) Unknown;
          SExpr (EMethodCall (id "o" J.DynObject) "m" [id "o" J.DynObject] J.DynObject Unknown) Unknown;
          SExpr (ELength (id "x" J.String) J.String Unknown) Unknown] Unknown.
Lemma select_method_call_correct_witness :
  ∃ p', select_method_call method_calls = Ok p' ∧ in_stmt any_dispatch (λ _, True) p'.
Proof.
  eexists. split; [reflexivity|]. apply (select_method_call_correct method_calls). reflexivity.
Defined.

(** The selected call has the type of the method call.  The length of an object
    becomes a property access, of type [Any], and the length of any other
    value of a known type a call that returns an [Int]. *)
Theorem select_typed strict s s' e e' Γ t :
  select_exit_expr s e = Ok (s', e') → expr_typed strict e Γ t →
  expr_typed strict e' Γ (match e with ELength _ ty _ => length_typ ty | _ => t end).
Proof.
  destruct e as [| | | | | | | | | | |obj m args ty p| |obj ty p| | | | | | |]; cbn -[get_type_by_prefix];
    intros H Ht; try (by simplify_eq).
  - destruct Ht as (ts & Hobj & Hty & Hargs).
    assert (∀ f, @get_type_by_prefix never m (length args) ty = Ok f → f = J.Function ts t) as Hf.
    { intros f Hf. unfold get_type_by_prefix in *. destruct ty; comp_inv; simplify_eq; try done.
      all: destruct (assoc _ _) eqn:?; simplify_eq/=; destruct (head _); congruence. }
    destruct ty; comp_inv; simplify_eq; cbn -[get_type_by_prefix]; try (rewrite (Hf _ Ha)); eauto 10.
  - destruct Ht as [Hobj ->]. destruct ty; simplify_eq; cbn; eauto 10.
    all: eexists; (split; [done|]); cbn; eauto.
Qed.
Lemma select_typed_witness :
  let a := EId (Named "a") J.Array Unknown in
  expr_typed true (EPrimCall (RTS.Method "push" (J.Function [J.Array; J.Any] J.Int))
                     [a; ELit LNull Unknown] Unknown) {[ Named "a" := J.Array ]} J.Int.
Proof.
  intros a. apply (select_typed true tt tt (EMethodCall a "push" [a; ELit LNull Unknown] J.Array Unknown)).
  - reflexivity.
  - exists [J.Array; J.Any]. split; [cbn; split; reflexivity|]. split; [reflexivity|]. cbn. repeat split; reflexivity.
Defined.

(** ** Reified coercions *)
Fixpoint meta_free (c : Coercion) : bool :=
  match c with
  | Meta _ _ => false
  | Fun args ret => forallb meta_free args && meta_free ret
  | Seq c1 c2 => meta_free c1 && meta_free c2
  | _ => true
  end.
Definition no_meta (e : Expr) : Prop :=
  match e with ECoercion c _ _ => meta_free c = true | _ => True end.
(** A coercion that is ready, or that stands for one that the type checker reads as
    [Coercion::new] means it. *)
Definition meta_ok (e : Expr) : Prop :=
  match e with
  | ECoercion (Meta t1 t2) _ _ => ∃ c, @new never t1 t2 = Ok c ∧ args_identical c = true
  | ECoercion c _ _ => meta_free c = true
  | _ => True
  end.

Lemma meta_free_Fun args ret :
  meta_free (Fun args ret) = true ↔ Forall (λ c, meta_free c = true) args ∧ meta_free ret = true.
Proof. cbn. by rewrite andb_true_iff, forallb_forall, Forall_forall; setoid_rewrite <- list_elem_of_In. Qed.

Definition seq_free (c1 c2 : Coercion) : Prop :=
  meta_free c1 = true → meta_free c2 = true → meta_free (seq c1 c2) = true.
Lemma seq_free_cases c1 c2 :
  (∀ a2 r2 a1 r1, c1 = Fun a2 r2 → c2 = Fun a1 r1 →
     (∀ b1 b2, b1 ∈ a1 → b2 ∈ a2 → seq_free b1 b2) ∧ seq_free r2 r1) → seq_free c1 c2.
Proof.
  intros Hf. destruct (seq_cases c1 c2) as [(w&->&Hs)|[(w&->&Hs)|[(a2&r2&a1&r1&->&->)|Hs]]];
    intros H1 H2; try (rewrite Hs; cbn; by rewrite ?H1, ?H2).
  rewrite seq_Fun. apply meta_free_Fun in H1 as [Ha2 Hr2], H2 as [Ha1 Hr1].
  destruct (Hf _ _ _ _ eq_refl eq_refl) as [Ha Hr]. apply meta_free_Fun. split; [|by apply Hr].
  rewrite Forall_forall in *. intros c Hc. apply elem_of_lookup_zip_with in Hc as (i&b1&b2&->&Hb1&Hb2).
  apply list_elem_of_lookup_2 in Hb1, Hb2. apply Ha; auto.
Qed.
Lemma seq_free_all c : ∀ x, seq_free c x ∧ seq_free x c.
Proof.
  induction c as [| | | |args ret IHargs IHret| | |] using Coercion_ind'; intros x;
    split; apply seq_free_cases; intros a2 r2 a1 r1 Hc1 Hc2; try discriminate; simplify_eq;
    rewrite Forall_forall in IHargs; (split; [|apply IHret]);
    intros b1 b2 Hb1 Hb2; first [by apply (IHargs b2)|by apply (IHargs b1)].
Qed.

Lemma new_fuel_meta_free {E} n t1 t2 c : @new_fuel E n t1 t2 = Ok c → meta_free c = true.
Proof.
  revert t1 t2 c. induction n as [|n IH]; intros t1 t2 c H; [done|]. cbn in H. unfold new_body in H.
  case_decide; [by comp_inv|].
  destruct t1, t2; repeat case_match; comp_inv; try done;
    try (apply seq_free_all; by eapply IH).
  unfold fun_. assert (meta_free (Fun a a0) = true) as Hm.
  { apply meta_free_Fun. split; [|by eapply IH]. apply mapM_Ok in Ha.
    eapply Forall2_Forall_r; [exact Ha|]. apply Forall_forall. intros [x y] _ c. apply IH. }
  destruct a0; try done. by case_match.
Qed.

Lemma mapSM_unit {E A B} (R : A → B → Prop) (f : unit → A → comp E (unit * B)) l :
  Forall (λ x, ∃ y, f tt x = Ok (tt, y) ∧ R x y) l → ∃ k, mapSM f tt l = Ok (tt, k) ∧ Forall2 R l k.
Proof.
  induction 1 as [|x l (y & Hy & HR) _ (k & Hk & HF)]; cbn; [eauto|].
  rewrite Hy. cbn. rewrite Hk. cbn. eauto.
Qed.
Lemma all_Forall2 {A B} (P : A → Prop) (Q : B → Prop) l k :
  Forall2 (λ x y, P x → Q y) l k → all P l → all Q k.
Proof. induction 1; cbn; [done|]. intros [? ?]; auto. Qed.

(** What the walk does to an expression. *)
Definition reified (strict : bool) (e e' : Expr) : Prop :=
  in_expr no_meta (λ _, True) e' ∧ is_undefined e' = is_undefined e ∧
  ∀ Γ t, expr_typed strict e Γ t → expr_typed strict e' Γ t.
Definition reified_stmt (strict : bool) (st st' : Stmt) : Prop :=
  in_stmt no_meta (λ _, True) st' ∧ declared st' = declared st ∧ (∀ Γ, out_env Γ st' = out_env Γ st) ∧
  ∀ Γ ret, stmt_typed strict st ret Γ → stmt_typed strict st' ret Γ.

Lemma args_typed_reified strict Γ es es' ts :
  Forall2 (reified strict) es es' →
  args_typed strict (λ e t, expr_typed strict e Γ t) es ts →
  args_typed strict (λ e t, expr_typed strict e Γ t) es' ts.
Proof.
  intros H. revert ts. induction H as [|e e' es es' (_ & _ & He) _ IH]; intros [|t ts]; cbn; try done.
  intros [? ?]. auto.
Qed.
Lemma all_reified strict es es' :
  Forall2 (reified strict) es es' → all (in_expr no_meta (λ _, True)) es'.
Proof. induction 1 as [|e e' es es' (? & _) _ IH]; cbn; auto. Qed.
Lemma in_reified {A} (P : A → Prop) l k (R : A → A → Prop) :
  (∀ x y, R x y → P y) → Forall2 R l k → all P k.
Proof. intros HR. induction 1; cbn; eauto. Qed.

Lemma all_typed_reified strict Γ es es' :
  Forall2 (reified strict) es es' →
  all (λ e, ∃ t, expr_typed strict e Γ t) es → all (λ e, ∃ t, expr_typed strict e Γ t) es'.
Proof.
  intros H. apply all_Forall2. eapply Forall2_impl; [done|]. intros x y (_ & _ & Hxy) [t ?]. eauto.
Qed.
Lemma all_walk {A} (P : A → Prop) (f : unit → A → comp never (unit * A)) (R : A → A → Prop) l :
  Forall (λ x, P x → ∃ y, f tt x = Ok (tt, y) ∧ R x y) l → all P l →
  ∃ k, mapSM f tt l = Ok (tt, k) ∧ Forall2 R l k.
Proof.
  intros Hl Hall. apply mapSM_unit. rewrite all_Forall in Hall. rewrite Forall_forall in *. auto.
Qed.

(** Run the walk on the parts. *)
Ltac walk_parts :=
  repeat match goal with
  | IH : ?P → ∃ _, _ ∧ _, HP : ?P |- _ =>
      let e' := fresh "e'" in let Hw := fresh "Hw" in let Hr := fresh "Hr" in
      destruct (IH HP) as (e' & Hw & Hr); clear IH
  | IH : Forall (λ x, _ → ∃ _, _ ∧ _) ?l, HP : all _ ?l |- _ =>
      let l' := fresh "l'" in let Hw := fresh "Hw" in let Hr := fresh "Hr" in
      destruct (all_walk _ _ _ _ IH HP) as (l' & Hw & Hr); clear IH
  end;
  repeat match goal with H : _ = Ok (tt, _) |- _ => rewrite H; clear H; cbn end.

Lemma reify_walk strict :
  (∀ e, in_expr meta_ok (λ _, True) e → ∃ e', walk_expr CoercionVisitor tt e = Ok (tt, e') ∧ reified strict e e') ∧
  (∀ lv, in_lval meta_ok (λ _, True) lv →
     ∃ lv', walk_lval CoercionVisitor tt lv = Ok (tt, lv') ∧
       match lv, lv' with
       | LId x t, LId x' t' => x = x' ∧ t = t'
       | LDot e x, LDot e' x' => reified strict e e' ∧ x = x'
       | LBracket e1 e2 t, LBracket e1' e2' t' => reified strict e1 e1' ∧ reified strict e2 e2' ∧ t = t'
       | _, _ => False
       end) ∧
  (∀ f, in_func meta_ok (λ _, True) f →
     ∃ f', walk_func CoercionVisitor tt f = Ok (tt, f') ∧ in_func no_meta (λ _, True) f' ∧
       ∀ Γ t, func_typed strict f Γ t → func_typed strict f' Γ t) ∧
  (∀ st, in_stmt meta_ok (λ _, True) st →
     ∃ st', walk_stmt CoercionVisitor tt st = Ok (tt, st') ∧ reified_stmt strict st st').
Proof.
  apply syntax_ind. constructor; intros; cbn in *; destruct_ex; walk_parts.
  all: try (eexists; split; [reflexivity|]).
  all: try (unfold reified, reified_stmt in *; destruct_ex; cbn; split_and?; intros; destruct_ex; subst; eauto 4; fail).
  - split_and!; cbn; eauto using all_reified. intros; destruct_ex; subst; eauto using all_typed_reified.
  - destruct (all_walk (λ kv : Key * Expr, in_expr meta_ok (λ _, True) kv.2)
      (λ s kv, '(s, e) ← walk_expr CoercionVisitor s kv.2; Ok (s, (kv.1, e)))
      (λ kv kv', reified strict kv.2 kv'.2) kvs) as (kvs' & Hw & Hr); [|done|].
    { eapply Forall_impl; [done|]. intros [k e] He Hin. destruct (He Hin) as (e' & Hw & Hr).
      cbn in *. rewrite Hw. cbn. eauto. }
    rewrite Hw. cbn. eexists. split; [done|]. split_and!; cbn; auto.
    + split; [done|]. eapply in_reified; [|done]. cbn. by intros x y (? & _).
    + intros Γ t [Hall ->]. split; [|done]. eapply all_Forall2; [|done]. eapply Forall2_impl; [done|].
      cbn. intros x y (_ & _ & Hxy) [ty ?]. eauto.
  - destruct Hr as (? & _ & ?), Hr0 as (? & _ & ?). split_and!; cbn; auto. intros; destruct_ex; subst; split_and?; eauto 6.
  - split_and!; cbn; eauto using all_reified.
  - destruct Hr as (? & _ & ?), Hr0 as (? & _ & ?). split_and!; cbn; auto. intros; destruct_ex; subst; split_and?; eauto 6.
  - destruct Hr as (? & _ & Ht). unfold reified. cbn.
    destruct lv as [|e1|e1 e2], e'0 as [|e3|e3 e4]; try done; destruct_ex; subst; unfold reified in *; destruct_ex;
      split_and!; cbn; auto; intros; destruct_ex; subst; split_and?; eauto 6.
  - destruct Hr as (? & _ & ?). split_and!; cbn; eauto using all_reified.
    intros; destruct_ex; eauto using args_typed_reified.
  - destruct Hr as (? & _ & ?). split_and!; cbn; eauto using all_reified.
    intros; destruct_ex. eexists. rewrite <- (Forall2_length _ _ _ Hr0). eauto using args_typed_reified.
  - split_and!; cbn; eauto using all_reified. intros; destruct_ex; eauto using args_typed_reified.
  - destruct (all_walk (λ et : Expr * J.typ, in_expr meta_ok (λ _, True) et.1)
      (λ s et, '(s, e) ← walk_expr CoercionVisitor s et.1; Ok (s, (e, et.2)))
      (λ et et', reified strict et.1 et'.1 ∧ et'.2 = et.2) env) as (env' & Hw & Hr); [|done|].
    { eapply Forall_impl; [done|]. intros [e t] He Hin. destruct (He Hin) as (e' & Hw & Hr).
      cbn in *. rewrite Hw. cbn. eauto. }
    rewrite Hw. cbn. eexists. split; [done|]. split_and!; cbn; auto.
    + split; [done|]. eapply in_reified; [|done]. cbn. by intros x y [(? & _) _].
    + intros Γ t [Hall Hf]. split; [|done]. eapply all_Forall2; [|done]. eapply Forall2_impl; [done|].
      cbn. intros x y [(_ & _ & Hxy) ->]. eauto.
  - destruct Hr as (? & _ & Ht).
    destruct c as [| | | | | | |t1 t2]; try (eexists; split; [done|]; split_and!; cbn; auto; intros; destruct_ex; eauto; fail).
    destruct H0 as (c & Hc & Hid). fold (new_bound t1 t2). fold (@new never t1 t2). rewrite Hc. cbn.
    eexists. split; [done|]. split_and!; cbn; auto.
    + split; [by eapply new_fuel_meta_free|done].
    + intros Γ t (from & Hf & [= -> ->]). exists from. split; [auto|].
      apply type_check_coercion_identical; [by eapply new_fuel_typed|done].
  - destruct Hr as (? & _ & ?), Hr0 as (? & _ & ?). split_and!; cbn; auto. intros; destruct_ex; subst; split_and?; eauto 6.
  - destruct Hr as (? & Hd & _ & Ht). split; [done|]. cbn. rewrite Hd. intros; destruct_ex; subst; eauto.
  - split_and!; cbn; auto.
    + eapply in_reified; [|done]. by intros x y (? & _).
    + clear -Hr. induction Hr as [|st st' ss ss' (_ & Hd & _) _ IH]; cbn; [done|]. by rewrite Hd, IH.
    + clear -Hr. intros Γ ret. revert Γ. induction Hr as [|st st' ss ss' (_ & _ & Ho & Ht) _ IH]; cbn; [done|].
      intros Γ [? ?]. rewrite Ho. eauto.
  - destruct Hr as (? & Hd1 & _ & ?), Hr0 as (? & Hd2 & _ & ?), Hr1 as (? & _ & ?).
    split_and!; cbn; rewrite ?Hd1, ?Hd2; auto. intros; destruct_ex; auto.
  - destruct Hr as (? & Hd1 & _ & ?), Hr0 as (? & _ & ?).
    split_and!; cbn; rewrite ?Hd1; auto. intros; destruct_ex; split_and!; eauto.
  - destruct Hr as (? & Hd1 & _ & ?), Hr0 as (? & Hd2 & _ & ?).
    split_and!; cbn; rewrite ?Hd1, ?Hd2; auto. intros; destruct_ex; auto.
  - destruct Hr as (? & Hd1 & _ & ?), Hr0 as (? & Hd2 & _ & ?).
    split_and!; cbn; rewrite ?Hd1, ?Hd2; auto. intros; destruct_ex; auto.
Qed.

(** C36: on a well-typed program whose function coercions leave the arguments
    alone, the pass returns a program without [Meta] coercions that is still
    well typed. *)
Theorem reify_coercions_correct strict p :
  in_stmt meta_ok (λ _, True) p → program_typed strict p →
  ∃ p', reify_coercions p = Ok p' ∧ in_stmt no_meta (λ _, True) p' ∧ program_typed strict p'.
Proof.
  intros Hok Hty. destruct (proj2 (proj2 (proj2 (reify_walk strict))) p Hok) as (p' & Hw & Hm & Hd & _ & Ht).
  exists p'. unfold reify_coercions, walk. rewrite Hw. cbn. split_and!; [done|done|].
  unfold program_typed in *. rewrite Hd. auto.
Qed.

(** [var f : (any) -> any = (any => (any) -> any) window; var x : float = (int => float) 1;] *)
Definition coerced : Stmt :=
  let window := EId (Named "window") J.Any Unknown in
  let fty := J.Function [J.Any] J.Any in
  SBlock [SVar (Named "f") fty (ECoercion (Meta J.Any fty) window Unknown) Unknown;
          SVar (Named "x") J.Float (ECoercion (Meta J.Int J.Float) (ELit (LNum (NInt 1)) Unknown) Unknown) Unknown]
    Unknown.
Lemma reify_coercions_correct_witness :
  ∃ p', reify_coercions coerced = Ok p' ∧ in_stmt no_meta (λ _, True) p' ∧ program_typed true p'.
Proof.
  apply (reify_coercions_correct true coerced).
  - cbn. split_and!; try done; (eexists; split; [vm_compute; reflexivity|reflexivity]).
  - unfold program_typed. cbn. split_and!; [| |done]; intros _.
    + eexists. split; [split; [vm_compute; reflexivity|reflexivity]|reflexivity].
    + eexists. split; reflexivity.
Defined.
