(* ===== verification/FreeVars.v ===== *)
(** Free variables ([jankyscript/fv.rs]) and the variables to box
    ([jankyscript/collect_assigns.rs]). *)
From S2P Require Import Prelude Types Coercions Operators JankySyntax JankyTyping JankyWalk.
Import K.

(** ** Free variables *)
Abbreviation IdMap := (gmap Id J.typ).

(** [HashMap::unions]: the leftmost entry of a key wins, as in [union]. *)
Definition unions (ms : list IdMap) : IdMap := foldl (∪) ∅ ms.
(** [HashMap::relative_complement]: the keys of the second map are dropped. *)
Definition relative_complement (m m' : IdMap) : IdMap := filter (λ xt, m' !! xt.1 = None) m.

(** The functions return the map, and the program with the free variables of every
    function recorded in it. *)
Fixpoint fv_expr (e : Expr) : comp never (IdMap * Expr) :=
  match e with
  | EId x ty _ => Ok ({[ x := ty ]}, e)
  | ELit _ _ | EEnvGet _ _ _ => Ok (∅, e)
  | EObject kvs s =>
      rs ← mapM (λ kv, '(m, v) ← fv_expr kv.2; Ok (m, (kv.1, v))) kvs;
      Ok (unions (map fst rs), EObject (map snd rs) s)
  | EArray es s => rs ← mapM fv_expr es; Ok (unions (map fst rs), EArray (map snd rs) s)
  | EDot e x s => '(m, e) ← fv_expr e; Ok (m, EDot e x s)
  | EUnary op e s => '(m, e) ← fv_expr e; Ok (m, EUnary op e s)
  | ECoercion c e s => '(m, e) ← fv_expr e; Ok (m, ECoercion c e s)
  | ENewRef e t s => '(m, e) ← fv_expr e; Ok (m, ENewRef e t s)
  | EDeref e t s => '(m, e) ← fv_expr e; Ok (m, EDeref e t s)
  | ELength e t s => '(m, e) ← fv_expr e; Ok (m, ELength e t s)
  | EBracket e1 e2 t s =>
      '(m1, e1) ← fv_expr e1; '(m2, e2) ← fv_expr e2; Ok (m1 ∪ m2, EBracket e1 e2 t s)
  | EBinary op e1 e2 s =>
      '(m1, e1) ← fv_expr e1; '(m2, e2) ← fv_expr e2; Ok (m1 ∪ m2, EBinary op e1 e2 s)
  | EAssign lv e s => '(m1, lv) ← fv_lv lv; '(m2, e) ← fv_expr e; Ok (m1 ∪ m2, EAssign lv e s)
  | ECall e es s =>
      '(m, e) ← fv_expr e; rs ← mapM fv_expr es;
      Ok (m ∪ unions (map fst rs), ECall e (map snd rs) s)
  | EMethodCall e name es t s =>
      '(m, e) ← fv_expr e; rs ← mapM fv_expr es;
      Ok (m ∪ unions (map fst rs), EMethodCall e name (map snd rs) t s)
  | EJsOp op es i s => rs ← mapM fv_expr es; Ok (unions (map fst rs), EJsOp op (map snd rs) i s)
  | EPrimCall f es s => rs ← mapM fv_expr es; Ok (unions (map fst rs), EPrimCall f (map snd rs) s)
  | EFunc f s => '(fv, f) ← fv_func f; Ok (fv, EFunc f s)
  | EStore _ _ _ _ | EClosure _ _ _ => Panic "fv happens before box_assigns"
  end
with fv_lv (lv : LValue) : comp never (IdMap * LValue) :=
  match lv with
  | LId x ty => Ok ({[ x := ty ]}, lv)
  | LDot e x => '(m, e) ← fv_expr e; Ok (m, LDot e x)
  | LBracket e1 e2 t =>
      '(m1, e1) ← fv_expr e1; '(m2, e2) ← fv_expr e2; Ok (m1 ∪ m2, LBracket e1 e2 t)
  end
(** The case of functions in [fv_expr], with [fv_stmt] inlined. *)
with fv_func (f : Func) : comp never (IdMap * Func) :=
  match f with
  | mkFunc r args b _ afc =>
      '((declared, referenced), b) ← var_summary b;
      let fv_body := relative_complement referenced declared in
      let fv := relative_complement fv_body (list_to_map args) in
      Ok (fv, mkFunc r args b fv afc)
  end
(** [var_summary(stmt) = (declared_vars, referenced_vars)] *)
with var_summary (st : Stmt) : comp never ((IdMap * IdMap) * Stmt) :=
  match st with
  | SVar x ty e s => '(m, e) ← fv_expr e; Ok (({[ x := ty ]}, m), SVar x ty e s)
  | SBlock ss s =>
      rs ← mapM var_summary ss;
      Ok ((unions (map (λ r, r.1.1) rs), unions (map (λ r, r.1.2) rs)), SBlock (map snd rs) s)
  | SEmpty => Ok ((∅, ∅), st)
  | SExpr e s => '(m, e) ← fv_expr e; Ok ((∅, m), SExpr e s)
  | SIf c s1 s2 s =>
      '((d1, r1), s1) ← var_summary s1;
      '((d2, r2), s2) ← var_summary s2;
      '(m, c) ← fv_expr c;
      Ok ((d1 ∪ d2, m ∪ r1 ∪ r2), SIf c s1 s2 s)
  | SLoop b s => '(dr, b) ← var_summary b; Ok (dr, SLoop b s)
  | SForIn bind container b s =>
      '((d, r), b) ← var_summary b;
      '(m, container) ← fv_expr container;
      Ok ((d, r ∪ m ∪ {[ bind := J.Any ]}), SForIn bind container b s)
  | SBreak _ _ => Ok ((∅, ∅), st)
  | SCatch b x c s =>
      '((d1, r1), b) ← var_summary b;
      '((d2, r2), c) ← var_summary c;
      Ok ((d1 ∪ d2, r1 ∪ delete x r2), SCatch b x c s)
  | SFinally b f s =>
      '((d1, r1), b) ← var_summary b;
      '((d2, r2), f) ← var_summary f;
      Ok ((d1 ∪ d2, r1 ∪ r2), SFinally b f s)
  | SLabel x b s => '(dr, b) ← var_summary b; Ok (dr, SLabel x b s)
  | SThrow e s => '(m, e) ← fv_expr e; Ok ((∅, m), SThrow e s)
  | SReturn e s => '(m, e) ← fv_expr e; Ok ((∅, m), SReturn e s)
  end.

Definition fv_stmt (st : Stmt) : comp never (IdMap * Stmt) :=
  '((declared, referenced), st) ← var_summary st;
  Ok (relative_complement referenced declared, st).
(** [free_vars] *)
Definition free_vars (program : Stmt) : comp never (IdMap * Stmt) := fv_stmt program.

(** ** Variables to box

    The stacks of the visitor have their top first. *)
Record CollectAssigns := mkCollect { free_children : list (gset Id); assigned_vars : list (gset Id) }.

Definition collect_enter_fn (s : CollectAssigns) (_ : Func) : comp never CollectAssigns :=
  Ok (mkCollect (∅ :: free_children s) (∅ :: assigned_vars s)).
Definition collect_exit_fn (s : CollectAssigns) (f : Func) : comp never (CollectAssigns * Func) :=
  match s, f with
  | mkCollect (free_children :: parent_free_children :: fc) (assigned :: parent_assigned_vars :: av),
    mkFunc r args b fv _ =>
      Ok (mkCollect ((parent_free_children ∪ dom fv) :: fc) ((parent_assigned_vars ∪ assigned) :: av),
          mkFunc r args b fv (free_children ∩ assigned))
  | _, _ => Panic "called unwrap on a None value"
  end.
Definition collect_exit_expr (s : CollectAssigns) (e : Expr) : comp never (CollectAssigns * Expr) :=
  match e with
  | EAssign (LId x _) _ _ =>
      match assigned_vars s with
      | assigned :: av => Ok (mkCollect (free_children s) (({[ x ]} ∪ assigned) :: av), e)
      | [] => Panic "called unwrap on a None value"
      end
  | _ => Ok (s, e)
  end.
Definition collect_visitor : Visitor CollectAssigns :=
  mkVisitor collect_enter_fn collect_exit_fn collect_exit_expr exit_nothing.

(** The variables of the global scope to box, and the program with
    [assigned_free_children] recorded in every function. *)
Definition collect_assigns (program : Stmt) : comp never (gset Id * Stmt) :=
  '(s, program) ← walk collect_visitor (mkCollect [∅] [∅]) program;
  match s with
  | mkCollect [free_children] [assigned] => Ok (free_children ∩ assigned, program)
  | _ => Panic "assertion failed"
  end.

(** ** Sets of variables of a program

    [gather G into] is the union of [G] over the expressions of a program, those
    in functions being included when [into] holds. *)
Section union_of.
Context {A : Type} (f : A → gset Id).
Fixpoint union_of (l : list A) : gset Id := match l with [] => ∅ | x :: l => f x ∪ union_of l end.
End union_of.
Fixpoint gather (G : Expr → gset Id) (into : bool) (e : Expr) : gset Id :=
  G e ∪
  match e with
  | ELit _ _ | EEnvGet _ _ _ | EId _ _ _ => ∅
  | EFunc f _ => if into then gather_func G into f else ∅
  | EJsOp _ es _ _ | EArray es _ | EPrimCall _ es _ => union_of (gather G into) es
  | EObject kvs _ => union_of (λ kv, gather G into kv.2) kvs
  | ECoercion _ e _ | EDot e _ _ | EUnary _ e _ | ENewRef e _ _ | EDeref e _ _ | ELength e _ _ => gather G into e
  | EAssign lv e _ => gather_lv G into lv ∪ gather G into e
  | ECall e es _ | EMethodCall e _ es _ _ => gather G into e ∪ union_of (gather G into) es
  | EBracket e1 e2 _ _ | EBinary _ e1 e2 _ | EStore e1 e2 _ _ => gather G into e1 ∪ gather G into e2
  | EClosure _ env _ => union_of (λ et, gather G into et.1) env
  end
with gather_lv (G : Expr → gset Id) (into : bool) (lv : LValue) : gset Id :=
  match lv with
  | LId _ _ => ∅
  | LDot e _ => gather G into e
  | LBracket e1 e2 _ => gather G into e1 ∪ gather G into e2
  end
with gather_func (G : Expr → gset Id) (into : bool) (f : Func) : gset Id :=
  match f with mkFunc _ _ b _ _ => gather_stmt G into b end
with gather_stmt (G : Expr → gset Id) (into : bool) (st : Stmt) : gset Id :=
  match st with
  | SEmpty | SBreak _ _ => ∅
  | SLabel _ b _ | SLoop b _ => gather_stmt G into b
  | SFinally s1 s2 _ | SCatch s1 _ s2 _ => gather_stmt G into s1 ∪ gather_stmt G into s2
  | SBlock ss _ => union_of (gather_stmt G into) ss
  | SVar _ _ e _ | SThrow e _ | SReturn e _ | SExpr e _ => gather G into e
  | SForIn _ e b _ => gather G into e ∪ gather_stmt G into b
  | SIf c s1 s2 _ => gather G into c ∪ gather_stmt G into s1 ∪ gather_stmt G into s2
  end.

(** The free variables of the functions created in an expression, and the variables
    assigned in it. *)
Definition own_free (e : Expr) : gset Id :=
  match e with EFunc f _ => dom (K.free_vars f) | _ => ∅ end.
Definition own_assigned (e : Expr) : gset Id :=
  match e with EAssign (LId x _) _ _ => {[ x ]} | _ => ∅ end.
Abbreviation child_free := (gather own_free false).
Abbreviation child_free_stmt := (gather_stmt own_free false).
Abbreviation assigned := (gather own_assigned true).
Abbreviation assigned_stmt := (gather_stmt own_assigned true).

(** The variables that catch clauses bind. *)
Fixpoint catch_binders (st : Stmt) : gset Id :=
  match st with
  | SBlock ss _ => foldr (λ st D, catch_binders st ∪ D) ∅ ss
  | SCatch s1 x s2 _ => {[ x ]} ∪ catch_binders s1 ∪ catch_binders s2
  | SIf _ s1 s2 _ | SFinally s1 s2 _ => catch_binders s1 ∪ catch_binders s2
  | SLoop b _ | SForIn _ _ b _ | SLabel _ b _ => catch_binders b
  | _ => ∅
  end.

Definition params (f : Func) : gset Id := list_to_set (arg_names f).
(** The recorded free variables are free, and they are all those of the functions
    in the body that the function does not bind. *)
Definition fv_ok (f : Func) : Prop :=
  dom (K.free_vars f) ## declared (body f) ∪ params f ∧
  child_free_stmt (body f) ⊆
    dom (K.free_vars f) ∪ declared (body f) ∪ params f ∪ catch_binders (body f).

(** The expressions the passes create do not occur in their input. *)
Definition source_node (e : Expr) : Prop :=
  match e with EStore _ _ _ _ | EClosure _ _ _ | EEnvGet _ _ _ => False | _ => True end.

(** ** Lemmas on the maps *)
Lemma foldl_union_lookup (ms : list IdMap) m0 x t :
  foldl (∪) m0 ms !! x = Some t → m0 !! x = Some t ∨ ∃ m, m ∈ ms ∧ m !! x = Some t.
Proof.
  revert m0. induction ms as [|m ms IH]; intros m0 H; cbn in *; [auto|].
  apply IH in H as [[H|[_ H]]%lookup_union_Some_raw|(m' & ? & ?)]; [auto| |].
  - right. exists m. split; [by left|done].
  - right. exists m'. split; [by right|done].
Qed.
Lemma unions_subseteq ms (Γ : IdMap) : Forall (λ m, m ⊆ Γ) ms → unions ms ⊆ Γ.
Proof.
  rewrite Forall_forall. intros H. apply map_subseteq_spec. intros x t Hx.
  apply foldl_union_lookup in Hx as [Hx|(m & Hm & Hx)]; [by rewrite lookup_empty in Hx|].
  by eapply lookup_weaken; [|apply H].
Qed.
Lemma dom_foldl_union (ms : list IdMap) m0 :
  dom (foldl (∪) m0 ms) = dom m0 ∪ union_of dom ms.
Proof.
  revert m0. induction ms as [|m ms IH]; intros m0; cbn; [set_solver|].
  rewrite IH, dom_union_L. set_solver.
Qed.
Lemma dom_unions ms : dom (unions ms) = union_of dom ms.
Proof. unfold unions. rewrite dom_foldl_union. set_solver. Qed.
Lemma union_subseteq_env (m1 m2 Γ : IdMap) : m1 ⊆ Γ → m2 ⊆ Γ → m1 ∪ m2 ⊆ Γ.
Proof. intros. by apply map_union_least. Qed.
Lemma empty_env (Γ : IdMap) : ∅ ⊆ Γ.
Proof. apply map_empty_subseteq. Qed.
Lemma singleton_env (Γ : IdMap) x t : Γ !! x = Some t → {[ x := t ]} ⊆ Γ.
Proof. apply map_singleton_subseteq_l. Qed.
Lemma lookup_relative_complement m m' x t :
  relative_complement m m' !! x = Some t ↔ m !! x = Some t ∧ m' !! x = None.
Proof. unfold relative_complement. by rewrite map_lookup_filter_Some. Qed.
Lemma dom_relative_complement m m' : dom (relative_complement m m') = dom m ∖ dom m'.
Proof.
  apply set_eq. intros x. rewrite elem_of_difference, !elem_of_dom. unfold is_Some.
  setoid_rewrite lookup_relative_complement. destruct (m' !! x); naive_solver.
Qed.
Lemma lookup_insert_args Γ args x : x ∉ map fst args → insert_args Γ args !! x = Γ !! x.
Proof.
  unfold insert_args. revert Γ. induction args as [|[y t] args IH]; intros Γ H; cbn in *; [done|].
  rewrite IH by (intros ?; apply H; by right). apply lookup_insert_ne. intros ->. apply H. by left.
Qed.
Lemma lookup_hide Γ D x t : hide true Γ D !! x = Some t ↔ Γ !! x = Some t ∧ x ∉ D.
Proof. cbn. by rewrite map_lookup_filter_Some. Qed.
Lemma lookup_out_env Γ st x : x ∉ declared st → out_env Γ st !! x = Γ !! x.
Proof. destruct st; cbn; try done. intros H. apply lookup_insert_ne. set_solver. Qed.

(** ** What the annotation establishes *)
Definition lv_typed (lv : LValue) (Γ : Env) (t : J.typ) : Prop :=
  match lv with
  | LId x ty => t = ty ∧ Γ !! x = Some ty
  | LDot e _ => ∃ t, expr_typed true e Γ t
  | LBracket e1 e2 ty => expr_typed true e1 Γ ty ∧ ∃ t, expr_typed true e2 Γ t
  end.
(** The recorded free variables are all a function needs to be well typed. *)
Definition self_typed (f : Func) : Prop := func_typed true f (K.free_vars f) (func_typ f).
Abbreviation selves := (in_expr (λ _, True) self_typed).
Abbreviation selves_stmt := (in_stmt (λ _, True) self_typed).
(** [Δ] has the variables [D] of [Γ]. *)
Definition agree (D : gset Id) (Γ Δ : Env) : Prop := ∀ x t, x ∈ D → Γ !! x = Some t → Δ !! x = Some t.

Definition fv_expr_ok (e : Expr) (r : IdMap * Expr) : Prop :=
  is_undefined r.2 = is_undefined e ∧ in_expr source_node fv_ok r.2 ∧ child_free r.2 ⊆ dom r.1 ∧
  ∀ Γ t, expr_typed true e Γ t →
    r.1 ⊆ Γ ∧ selves r.2 ∧ ∀ Δ, agree (dom r.1) Γ Δ → expr_typed true r.2 Δ t.
Definition fv_lv_ok (lv : LValue) (r : IdMap * LValue) : Prop :=
  in_lval source_node fv_ok r.2 ∧ gather_lv own_free false r.2 ⊆ dom r.1 ∧
  ∀ Γ t, lv_typed lv Γ t →
    r.1 ⊆ Γ ∧ in_lval (λ _, True) self_typed r.2 ∧ ∀ Δ, agree (dom r.1) Γ Δ → lv_typed r.2 Δ t.
Definition fv_func_ok (f : Func) (r : IdMap * Func) : Prop :=
  in_func source_node fv_ok r.2 ∧ K.free_vars r.2 = r.1 ∧
  ∀ Γ t, func_typed true f Γ t →
    r.1 ⊆ Γ ∧ in_func (λ _, True) self_typed r.2 ∧ ∀ Δ, agree (dom r.1) Γ Δ → func_typed true r.2 Δ t.
Definition fv_stmt_ok (st : Stmt) (r : (IdMap * IdMap) * Stmt) : Prop :=
  dom r.1.1 = declared st ∧ declared r.2 = declared st ∧ (∀ Γ, out_env Γ r.2 = out_env Γ st) ∧
  catch_binders r.2 = catch_binders st ∧ in_stmt source_node fv_ok r.2 ∧
  child_free_stmt r.2 ⊆ dom r.1.2 ∪ catch_binders st ∧
  ∀ Γ ret, stmt_typed true st ret Γ →
    (∀ x t, r.1.2 !! x = Some t → x ∉ declared st → Γ !! x = Some t) ∧
    selves_stmt r.2 ∧ ∀ Δ, agree (dom r.1.2) Γ Δ → stmt_typed true r.2 ret Δ.

Lemma agree_union D1 D2 Γ Δ : agree (D1 ∪ D2) Γ Δ → agree D1 Γ Δ ∧ agree D2 Γ Δ.
Proof. intros H. split; intros x t Hx; apply H; [by apply elem_of_union_l|by apply elem_of_union_r]. Qed.
Lemma agree_insert D Γ Δ x t :
  agree (D ∖ {[ x ]}) Γ Δ → agree D (<[x := t]> Γ) (<[x := t]> Δ).
Proof.
  intros H y u Hy. rewrite !lookup_insert. case_decide; [done|]. apply H. set_solver.
Qed.
Lemma agree_subseteq D D' Γ Δ : D' ⊆ D → agree D Γ Δ → agree D' Γ Δ.
Proof. intros HD H x t Hx. apply H, HD, Hx. Qed.
Lemma agree_self D Γ : agree D Γ Γ.
Proof. by intros ?. Qed.
Lemma agree_out_env D Γ Δ st : agree D Γ Δ → agree D (out_env Γ st) (out_env Δ st).
Proof.
  intros H. destruct st; cbn; try done. apply agree_insert. eapply agree_subseteq; [|done]. set_solver.
Qed.
Lemma agree_map (m Γ Δ : Env) : m ⊆ Γ → agree (dom m) Γ Δ → m ⊆ Δ.
Proof.
  intros Hm H. apply map_subseteq_spec. intros x t Hx. apply H; [by eapply elem_of_dom_2|].
  by eapply lookup_weaken.
Qed.
Lemma map_agree (m Γ : Env) : m ⊆ Γ → agree (dom m) Γ m.
Proof.
  intros Hm x t [u Hu]%elem_of_dom Hx. rewrite (lookup_weaken _ _ _ _ Hu Hm) in Hx. by simplify_eq.
Qed.
Lemma insert_args_same (Γ Δ : Env) args x : x ∈ map fst args → insert_args Γ args !! x = insert_args Δ args !! x.
Proof.
  unfold insert_args. revert Γ Δ. induction args as [|[y t] args IH]; intros Γ Δ Hx; [by apply not_elem_of_nil in Hx|].
  cbn. destruct (decide (x ∈ map fst args)); [by apply IH|].
  cbn in Hx. apply elem_of_cons in Hx as [->|?]; [|done].
  change (insert_args (<[y:=t]> Γ) args !! y = insert_args (<[y:=t]> Δ) args !! y).
  rewrite !lookup_insert_args, !lookup_insert_eq by done. done.
Qed.
Ltac agree_parts :=
  repeat match goal with
  | H : agree (dom (_ ∪ _)) _ _ |- _ => rewrite dom_union_L in H
  | H : agree (_ ∪ _) _ _ |- _ => apply agree_union in H as [? ?]
  end.

Lemma mapM_all {A B} (P : A → Prop) (f : A → comp never B) (R : A → B → Prop) l :
  Forall (λ x, P x → ∃ y, f x = Ok y ∧ R x y) l → all P l → ∃ k, mapM f l = Ok k ∧ Forall2 R l k.
Proof.
  induction 1 as [|x l Hx _ IH]; cbn; [eauto|]. intros [HP Hall].
  destruct (Hx HP) as (y & -> & HR), (IH Hall) as (k & Hk & HF). cbn. rewrite Hk. cbn. eauto.
Qed.

(** Lists of expressions, possibly with a key. *)
Section lists.
Context {A : Type} (π : A → Expr).
Abbreviation ok := (λ (a : A) (r : IdMap * A), fv_expr_ok (π a) (r.1, π r.2)).
Lemma fv_list_in l rs : Forall2 ok l rs → all (λ a, in_expr source_node fv_ok (π a)) (map snd rs).
Proof. induction 1 as [|a r l rs (_ & ? & _) _ IH]; cbn; auto. Qed.
Lemma fv_list_free l rs :
  Forall2 ok l rs → union_of (λ a, child_free (π a)) (map snd rs) ⊆ dom (unions (map fst rs)).
Proof.
  rewrite dom_unions. induction 1 as [|a r l rs (_ & _ & ? & _) _ IH]; cbn in *; set_solver.
Qed.
Lemma fv_list_typed l rs Γ :
  Forall2 ok l rs → all (λ a, ∃ t, expr_typed true (π a) Γ t) l →
  unions (map fst rs) ⊆ Γ ∧ all (λ a, selves (π a)) (map snd rs) ∧
  ∀ Δ, agree (dom (unions (map fst rs))) Γ Δ → all (λ a, ∃ t, expr_typed true (π a) Δ t) (map snd rs).
Proof.
  intros H Hall. split; [|split].
  - apply unions_subseteq. apply Forall_fmap.
    induction H as [|a r l rs (_ & _ & _ & Ht) _ IH]; constructor; destruct Hall as [[t ?] ?]; [|auto].
    by eapply Ht.
  - induction H as [|a r l rs (_ & _ & _ & Ht) _ IH]; cbn; [done|]. destruct Hall as [[t Hty] ?].
    destruct (Ht _ _ Hty) as (_ & ? & _). auto.
  - intros Δ. rewrite dom_unions.
    induction H as [|a r l rs (_ & _ & _ & Ht) _ IH]; cbn; [done|]. destruct Hall as [[t Hty] ?].
    intros [? ?]%agree_union. split; [|auto]. exists t. by apply (Ht _ _ Hty).
Qed.
End lists.

Lemma fv_args_typed es rs Γ ts :
  Forall2 fv_expr_ok es rs → args_typed true (λ e t, expr_typed true e Γ t) es ts →
  unions (map fst rs) ⊆ Γ ∧ all selves (map snd rs) ∧
  ∀ Δ, agree (dom (unions (map fst rs))) Γ Δ → args_typed true (λ e t, expr_typed true e Δ t) (map snd rs) ts.
Proof.
  intros H Ha.
  destruct (fv_list_typed id es rs Γ) as (? & ? & _).
  { eapply Forall2_impl; [done|]. by intros ? []. }
  { apply args_typed_strict in Ha. clear H. induction Ha; cbn; eauto. }
  split; [done|]. split; [done|]. intros Δ. rewrite dom_unions. clear -H Ha. revert ts Ha.
  induction H as [|e r es rs (_ & _ & _ & Ht) _ IH]; intros [|t ts] Ha; cbn in *; try done.
  intros [? ?]%agree_union. destruct Ha as [He ?]. split; [by apply (Ht _ _ He)|auto].
Qed.

Lemma fv_id es rs : Forall2 fv_expr_ok es rs → Forall2 (λ e r, fv_expr_ok (id e) (r.1, id r.2)) es rs.
Proof. intros H. eapply Forall2_impl; [done|]. by intros ? []. Qed.
Lemma fv_ids es rs :
  Forall2 fv_expr_ok es rs →
  all (in_expr source_node fv_ok) (map snd rs) ∧ union_of child_free (map snd rs) ⊆ dom (unions (map fst rs)).
Proof.
  intros H%fv_id. split; [by apply (fv_list_in id es)|by apply (fv_list_free id es)].
Qed.

Ltac fv_parts :=
  repeat match goal with
  | IH : ?P → ∃ _, _ ∧ _, HP : ?P |- _ =>
      let m := fresh "m" in let e' := fresh "e'" in let Hw := fresh "Hw" in let Hr := fresh "Hr" in
      destruct (IH HP) as ([m e'] & Hw & Hr); clear IH
  | IH : @Forall Expr (λ x, _ → ∃ _, _ ∧ _) ?l, HP : all _ ?l |- _ =>
      let l' := fresh "l'" in let Hw := fresh "Hw" in let Hr := fresh "Hr" in
      destruct (mapM_all _ _ _ _ IH HP) as (l' & Hw & Hr); clear IH
  | IH : @Forall Stmt (λ x, _ → ∃ _, _ ∧ _) ?l, HP : all _ ?l |- _ =>
      let l' := fresh "l'" in let Hw := fresh "Hw" in let Hr := fresh "Hr" in
      destruct (mapM_all _ _ _ _ IH HP) as (l' & Hw & Hr); clear IH
  end;
  repeat match goal with H : _ = Ok _ |- _ => rewrite H; clear H; cbn end.
Ltac fv_open := unfold fv_expr_ok, fv_lv_ok, fv_func_ok, fv_stmt_ok in *; cbn in *; destruct_ex.
Ltac fv_use :=
  repeat match goal with
  | H : ∀ Γ t, expr_typed true ?e Γ t → _, Ht : expr_typed true ?e _ _ |- _ =>
      let a := fresh "Ht" in let b := fresh "Hsub" in let c := fresh "Hself" in
      destruct (H _ _ Ht) as (b & c & a); clear Ht
  end.

(** The four parts of [fv_expr_ok] when the typing of the parts is at hand. *)
Ltac fv_sets :=
  rewrite ?(left_id_L ∅ (∪));
  first [done | reflexivity | apply empty_subseteq | rewrite dom_union_L; apply union_mono; done].
Lemma agree_singleton (Γ Δ : Env) x (t : J.typ) :
  agree (dom ({[ x := t ]} : IdMap)) Γ Δ → Γ !! x = Some t → Δ !! x = Some t.
Proof. intros H. apply H. apply elem_of_dom. eexists. apply lookup_singleton_eq. Qed.
Ltac fv_typed :=
  intros; destruct_ex; subst; fv_use; split_and?;
  eauto using union_subseteq_env, empty_env, singleton_env;
  intros; agree_parts; split_and?; eauto 6 using agree_singleton.
Ltac four := split; [|split; [|split]].
Ltac fv_case := fv_open; four; [done|auto|fv_sets|fv_typed].

Ltac seven := split; [|split; [|split; [|split; [|split; [|split]]]]].

Lemma fv_function r args b fv afc d ref b' :
  fv_stmt_ok b ((d, ref), b') →
  let m := relative_complement (relative_complement ref d) (list_to_map args) in
  fv_func_ok (mkFunc r args b fv afc) (m, mkFunc r args b' m afc).
Proof.
  intros (Hd & Hd' & _ & Hc & Hin & Hfree & Ht) m. cbn in *.
  assert (dom (list_to_map (M:=IdMap) args) = list_to_set (map fst args)) as Hdom by apply dom_list_to_map_L.
  assert (dom m = dom ref ∖ declared b ∖ list_to_set (map fst args)) as Hm.
  { unfold m. by rewrite !dom_relative_complement, Hd, Hdom. }
  split; [|split]; cbn; [split; [split|]|done|].
  - cbn. rewrite Hm, Hd'. unfold params. cbn. set_solver.
  - cbn. rewrite Hm, Hd', Hc. unfold params, arg_names. cbn. intros x Hx.
    generalize dependent (list_to_set (C:=gset Id) (map fst args)). intros P. clear -Hfree Hx.
    specialize (Hfree x Hx). destruct (decide (x ∈ declared b)), (decide (x ∈ P)); set_solver.
  - done.
  - intros Γ t (Hb & Hs & ->). destruct (Ht _ _ Hb) as (Href & Hself & Hag).
    assert (m ⊆ Γ) as Hsub.
    { apply map_subseteq_spec. intros x t Hx.
      apply lookup_relative_complement in Hx as [Hx Hargs].
      apply lookup_relative_complement in Hx as [Hx Hxd].
      assert (x ∉ declared b) as Hnd by (by rewrite <- Hd, not_elem_of_dom).
      specialize (Href x t Hx Hnd). rewrite lookup_insert_args in Href.
      - by apply (lookup_hide Γ _ x t) in Href as [? _].
      - intros Hin'. apply not_elem_of_dom in Hargs. rewrite Hdom in Hargs. set_solver. }
    assert (∀ Δ, agree (dom m) Γ Δ →
      func_typed true (mkFunc r args b' m afc) Δ (J.Function (map snd args) r)) as Hty.
    { intros Δ HΔ. cbn. rewrite Hd'. split; [|split; [|done]].
      - apply Hag. intros x u Hx Hu. destruct (decide (x ∈ map fst args)) as [Hin'|Hin'].
        + rewrite (insert_args_same _ (hide true Γ (declared b))) by done. exact Hu.
        + rewrite lookup_insert_args in Hu |- * by done. apply (lookup_hide _ _ x u) in Hu as [Hu Hn].
          apply (lookup_hide _ _ x u). split; [|done]. apply HΔ; [|done]. rewrite Hm.
          rewrite !elem_of_difference, elem_of_list_to_set. done.
      - intros _. split; [by apply Hs|]. by eapply agree_map. }
    split; [done|]. split; [|done]. split; [|done]. unfold self_typed, func_typ, arg_typs. cbn [K.free_vars].
    apply Hty. by apply map_agree.
Qed.

Lemma fv_block ss rs s :
  Forall2 fv_stmt_ok ss rs →
  fv_stmt_ok (SBlock ss s)
    ((unions (map (λ r, r.1.1) rs), unions (map (λ r, r.1.2) rs)), SBlock (map snd rs) s).
Proof.
  intros H. seven; cbn; [| |done| | | |].
  - rewrite dom_unions. induction H as [|st r ss rs (Hd & _) _ IH]; cbn in *; congruence.
  - induction H as [|st r ss rs (_ & Hd & _) _ IH]; cbn; congruence.
  - induction H as [|st r ss rs (_ & _ & _ & Hd & _) _ IH]; cbn; congruence.
  - induction H as [|st r ss rs (_ & _ & _ & _ & Hd & _) _ IH]; cbn; auto.
  - rewrite dom_unions. induction H as [|st r ss rs (_ & _ & _ & _ & _ & Hd & _) _ IH]; cbn in *; set_solver.
  - intros Γ ret Hss. split; [|split].
    + intros x t Hx Hn. apply foldl_union_lookup in Hx as [Hx|(m & Hm & Hx)]; [by rewrite lookup_empty in Hx|].
      apply list_elem_of_fmap in Hm as (r & -> & Hr). revert Γ Hss.
      induction H as [|st r' ss rs (_ & _ & _ & _ & _ & _ & Ht) _ IH]; intros Γ Hss; [by inversion Hr|].
      cbn in *. destruct Hss as [Hst Hss]. apply elem_of_cons in Hr as [->|Hr].
      * apply (Ht _ _ Hst); [done|set_solver].
      * rewrite <- (lookup_out_env Γ st) by set_solver. apply IH; try done; set_solver.
    + revert Γ Hss. induction H as [|st r' ss rs (_ & _ & _ & _ & _ & _ & Ht) _ IH]; intros Γ Hss; cbn in *; [done|].
      destruct Hss as [Hst Hss]. destruct (Ht _ _ Hst) as (_ & ? & _). eauto.
    + intros Δ. rewrite dom_unions. revert Γ Δ Hss.
      induction H as [|st r' ss rs (_ & _ & Ho & _ & _ & _ & Ht) _ IH]; intros Γ Δ Hss; cbn in *; [done|].
      intros [? ?]%agree_union. destruct Hss as [Hst Hss]. rewrite Ho.
      split; [by apply (Ht _ _ Hst)|]. eapply IH; [exact Hss|]. by apply agree_out_env.
Qed.

(** A statement made of one expression. *)
Ltac fv_only Hr :=
  let Ht := fresh "Ht" in let Hsub := fresh "Hsub" in
  destruct Hr as (_ & ? & ? & Ht); cbn in *;
  seven; cbn; [apply dom_empty_L|done|done|done|done|by rewrite (right_id_L ∅ (∪))|];
  intros; destruct_ex; match goal with H : expr_typed _ _ _ _ |- _ => destruct (Ht _ _ H) as (Hsub & ? & ?) end;
  split; [intros; by eapply lookup_weaken|by eauto].

(** The references of two parts of a statement. *)
Lemma lookup_union_env (m1 m2 : IdMap) (D1 D2 : gset Id) (Γ : Env) :
  (∀ x t, m1 !! x = Some t → x ∉ D1 → Γ !! x = Some t) →
  (∀ x t, m2 !! x = Some t → x ∉ D2 → Γ !! x = Some t) →
  ∀ x t, (m1 ∪ m2) !! x = Some t → x ∉ D1 ∪ D2 → Γ !! x = Some t.
Proof. intros H1 H2 x t [H|[_ H]]%lookup_union_Some_raw Hn; [eapply H1|eapply H2]; set_solver. Qed.

Lemma fv_if c s1 s2 s m c' d1 r1 s1' d2 r2 s2' :
  fv_expr_ok c (m, c') → fv_stmt_ok s1 ((d1, r1), s1') → fv_stmt_ok s2 ((d2, r2), s2') →
  fv_stmt_ok (SIf c s1 s2 s) ((d1 ∪ d2, m ∪ r1 ∪ r2), SIf c' s1' s2' s).
Proof.
  intros (_ & ? & Hf & Ht) (Hd1 & Hd1' & _ & Hc1 & ? & Hf1 & Ht1) (Hd2 & Hd2' & _ & Hc2 & ? & Hf2 & Ht2). cbn in *.
  seven; cbn; [by rewrite dom_union_L, Hd1, Hd2|congruence|done|congruence|done| |].
  - rewrite !dom_union_L. clear -Hf Hf1 Hf2. set_solver.
  - intros Γ ret (Hc & Hs1 & Hs2). destruct (Ht _ _ Hc) as (Hsub & ? & Ha), (Ht1 _ _ Hs1) as (Hr1 & ? & Ha1), (Ht2 _ _ Hs2) as (Hr2 & ? & Ha2).
    split; [|split; [done|intros Δ HΔ; agree_parts; auto]]. intros x t Hx Hn. eapply (lookup_union_env (m ∪ r1) r2 _ _ Γ); [|done..].
    intros y u [Hy|[_ Hy]]%lookup_union_Some_raw ?; [by eapply lookup_weaken|eauto].
Qed.

Lemma fv_for_in x e b s m e' d r b' :
  fv_expr_ok e (m, e') → fv_stmt_ok b ((d, r), b') →
  fv_stmt_ok (SForIn x e b s) ((d, r ∪ m ∪ {[ x := J.Any ]}), SForIn x e' b' s).
Proof.
  intros (_ & ? & Hf & Ht) (Hd1 & Hd1' & _ & Hc1 & ? & Hf1 & Ht1). cbn in *.
  seven; cbn; [done|done|done|done|done| |].
  - rewrite !dom_union_L. clear -Hf Hf1. set_solver.
  - intros Γ ret ((t & He & ?) & Hx & Hb). specialize (Hx eq_refl).
    destruct (Ht _ _ He) as (Hsub & ? & Ha), (Ht1 _ _ Hb) as (Hr & ? & Ha1).
    split; [|split; [done|intros Δ HΔ; agree_parts]].
    2: { split_and!; [eauto|intros _; by eapply agree_singleton|]. apply Ha1, agree_insert.
         apply (agree_subseteq (dom r)); [by intros ? [? _]%elem_of_difference|done]. }
    intros y u Hy Hn.
    apply lookup_union_Some_raw in Hy as [[Hy|[_ Hy]]%lookup_union_Some_raw|[_ Hy]].
    + specialize (Hr _ _ Hy Hn). rewrite lookup_insert in Hr. case_decide; [by simplify_eq|done].
    + by eapply lookup_weaken.
    + apply lookup_singleton_Some in Hy as [<- <-]. done.
Qed.

Lemma fv_catch b x c s d1 r1 b' d2 r2 c' :
  fv_stmt_ok b ((d1, r1), b') → fv_stmt_ok c ((d2, r2), c') →
  fv_stmt_ok (SCatch b x c s) ((d1 ∪ d2, r1 ∪ delete x r2), SCatch b' x c' s).
Proof.
  intros (Hd1 & Hd1' & _ & Hc1 & ? & Hf1 & Ht1) (Hd2 & Hd2' & _ & Hc2 & ? & Hf2 & Ht2). cbn in *.
  seven; cbn; [by rewrite dom_union_L, Hd1, Hd2|congruence|done|congruence|done| |].
  - rewrite dom_union_L, dom_delete_L. clear -Hf1 Hf2. intros y Hy.
    destruct (decide (y = x)) as [->|]; [set_solver|]. set_solver.
  - intros Γ ret (Hs1 & Hs2). destruct (Ht1 _ _ Hs1) as (Hr1 & ? & Ha1), (Ht2 _ _ Hs2) as (Hr2 & ? & Ha2).
    split; [|split; [done|intros Δ HΔ; agree_parts]].
    2: { split; [auto|]. apply Ha2, agree_insert. by rewrite <- dom_delete_L. }
    apply lookup_union_env; [done|]. intros y t [Hne Hy]%lookup_delete_Some Hn. specialize (Hr2 _ _ Hy Hn). by rewrite lookup_insert_ne in Hr2.
Qed.

Lemma fv_finally b c s d1 r1 b' d2 r2 c' :
  fv_stmt_ok b ((d1, r1), b') → fv_stmt_ok c ((d2, r2), c') →
  fv_stmt_ok (SFinally b c s) ((d1 ∪ d2, r1 ∪ r2), SFinally b' c' s).
Proof.
  intros (Hd1 & Hd1' & _ & Hc1 & ? & Hf1 & Ht1) (Hd2 & Hd2' & _ & Hc2 & ? & Hf2 & Ht2). cbn in *.
  seven; cbn; [by rewrite dom_union_L, Hd1, Hd2|congruence|done|congruence|done| |].
  - rewrite dom_union_L. clear -Hf1 Hf2. set_solver.
  - intros Γ ret (Hs1 & Hs2). destruct (Ht1 _ _ Hs1) as (Hr1 & ? & Ha1), (Ht2 _ _ Hs2) as (Hr2 & ? & Ha2).
    split; [by apply lookup_union_env|]. split; [done|]. intros Δ HΔ. agree_parts. auto.
Qed.

Lemma fv_walk :
  (∀ e, in_expr source_node (λ _, True) e → ∃ r, fv_expr e = Ok r ∧ fv_expr_ok e r) ∧
  (∀ lv, in_lval source_node (λ _, True) lv → ∃ r, fv_lv lv = Ok r ∧ fv_lv_ok lv r) ∧
  (∀ f, in_func source_node (λ _, True) f → ∃ r, fv_func f = Ok r ∧ fv_func_ok f r) ∧
  (∀ st, in_stmt source_node (λ _, True) st → ∃ r, var_summary st = Ok r ∧ fv_stmt_ok st r).
Proof.
  apply syntax_ind. constructor; intros; cbn in *; destruct_ex; try done; fv_parts.
  all: try (eexists; split; [reflexivity|]).
  - fv_case.
  - destruct (fv_ids _ _ Hr) as [Hin Hfree]. four; cbn; [done|auto|fv_sets|].
    intros Γ t [Hall ->]. destruct (fv_list_typed id es l' Γ (fv_id _ _ Hr) Hall) as (? & ? & ?). auto 6.
  - destruct (mapM_all (λ kv, in_expr source_node (λ _, True) kv.2)
      (λ kv, '(m, v) ← fv_expr kv.2; Ok (m, (kv.1, v))) (λ (kv : Key * Expr) (r : IdMap * (Key * Expr)), fv_expr_ok kv.2 (r.1, r.2.2)) kvs)
      as (rs & Hw & Hr); [|done|].
    { eapply Forall_impl; [done|]. intros [k e] He Hin. destruct (He Hin) as ([m e'] & Hw & Hr).
      cbn in *. rewrite Hw. cbn. eauto. }
    rewrite Hw. cbn. eexists. split; [done|]. four; cbn; [done|split; [done|]|rewrite (left_id_L ∅ (∪))|].
    + by apply (fv_list_in snd kvs).
    + by apply (fv_list_free snd kvs).
    + intros Γ t [Hall ->]. destruct (fv_list_typed snd kvs rs Γ Hr Hall) as (? & ? & ?). auto 6.
  - fv_case.
  - fv_case.
  - fv_case.
  - destruct (fv_ids _ _ Hr) as [Hin Hfree]. four; cbn; [done|auto|fv_sets|done].
  - fv_case.
  - fv_case.
  - destruct Hr as (_ & Hin & Hfree & Ht), Hr0 as (Hinl & Hfreel & Hlv). cbn in *. four; cbn; [done|auto| |].
    + fv_sets.
    + intros Γ t [He Hl]. destruct (Ht _ _ He) as (? & ? & ?), (Hlv Γ t Hl) as (? & ? & Ha).
      split; [auto using union_subseteq_env|]. split; [done|]. intros Δ HΔ. agree_parts.
      split; [auto|]. specialize (Ha Δ). by destruct e'0; apply Ha.
  - destruct Hr as (_ & ? & ? & Ht). destruct (fv_ids _ _ Hr0) as [? ?]. cbn in *. four; cbn; [done|auto|fv_sets|].
    intros Γ t (args & He & Ha). destruct (Ht _ _ He) as (? & ? & ?), (fv_args_typed _ _ _ _ Hr0 Ha) as (? & ? & ?).
    split; [auto using union_subseteq_env|]. split; [done|]. intros Δ HΔ. agree_parts. eauto.
  - destruct Hr as (_ & ? & ? & Ht). destruct (fv_ids _ _ Hr0) as [? ?]. cbn in *. four; cbn; [done|auto|fv_sets|].
    intros Γ t0 (args & He & Hg & Ha). destruct (Ht _ _ He) as (? & ? & ?), (fv_args_typed _ _ _ _ Hr0 Ha) as (? & ? & ?).
    split; [auto using union_subseteq_env|]. split; [done|]. intros Δ HΔ. agree_parts.
    exists args. rewrite length_map, <- (Forall2_length _ _ _ Hr0). auto.
  - destruct (fv_ids _ _ Hr) as [? ?]. four; cbn; [done|auto|fv_sets|].
    intros Γ t (args & He & Ha). destruct (fv_args_typed _ _ _ _ Hr Ha) as (? & ? & ?). eauto 8.
  - fv_case.
  - destruct Hr as (? & Hm & Ht). cbn in *. subst m. four; cbn; [done|auto|clear Ht; set_solver|].
    intros Γ t Hf. destruct (Ht _ _ Hf) as (? & ? & ?). auto.
  - fv_case.
  - fv_case.
  - fv_case.
  - split; [|split]; cbn; [done|apply empty_subseteq|]. intros Γ t0 [-> ?].
    split; [auto using singleton_env|]. split; [done|]. intros Δ HΔ. eauto using agree_singleton.
  - destruct Hr as (_ & ? & ? & Ht). split; [|split]; cbn; [done|done|]. intros Γ t0 [t Hty].
    destruct (Ht _ _ Hty) as (? & ? & ?). eauto 6.
  - destruct Hr as (_ & ? & ? & Ht), Hr0 as (_ & ? & ? & Ht0). cbn in *. split; [|split]; cbn; [done|fv_sets|].
    intros Γ t0 (H1' & t1 & H2'). destruct (Ht _ _ H2') as (? & ? & ?), (Ht0 _ _ H1') as (? & ? & ?).
    split; [auto using union_subseteq_env|]. split; [done|]. intros Δ HΔ. agree_parts. eauto.
  - destruct m as [d ref]. eexists. split; [reflexivity|]. apply fv_function; done.
  - destruct Hr as (Hu & ? & ? & Ht). cbn in Hu, Ht. seven; cbn; [apply dom_singleton_L|done|done|done|done|set_solver|].
    intros Γ ret Hty. rewrite Hu. destruct (is_undefined e) eqn:Hue.
    + destruct e; try done. destruct l; try done.
      destruct (Ht Γ J.Any eq_refl) as (Hsub & ? & _). split; [|done]. intros. by eapply lookup_weaken.
    + destruct (Ht _ _ (Hty eq_refl)) as (Hsub & ? & ?). split; [|auto]. intros. by eapply lookup_weaken.
  - by apply fv_block.
  - by seven.
  - fv_only Hr.
  - destruct m0 as [d1 r1], m as [d2 r2]. eexists. split; [done|].
    by apply fv_if.
  - destruct m as [d r]. destruct Hr as (? & ? & ? & ? & ? & ? & ?). by seven; cbn in *.
  - destruct m as [d r]. eexists. split; [done|]. by apply fv_for_in.
  - destruct m as [d r]. destruct Hr as (? & ? & ? & ? & ? & ? & ?). by seven; cbn in *.
  - by seven.
  - destruct m0 as [d1 r1], m as [d2 r2]. eexists. split; [done|]. by apply fv_catch.
  - destruct m0 as [d1 r1], m as [d2 r2]. eexists. split; [done|]. by apply fv_finally.
  - fv_only Hr.
  - fv_only Hr.
Qed.

(** ** [collect_assigns] as a function on the program

    Every function records the variables that are free in a function of its body
    and assigned in its body, the functions in it included. *)
Fixpoint annotate (e : Expr) : Expr :=
  match e with
  | ELit _ _ | EEnvGet _ _ _ | EId _ _ _ => e
  | EFunc f s => EFunc (annotate_func f) s
  | EJsOp op es i s => EJsOp op (map annotate es) i s
  | EArray es s => EArray (map annotate es) s
  | EPrimCall f es s => EPrimCall f (map annotate es) s
  | EObject kvs s => EObject (map (λ kv, (kv.1, annotate kv.2)) kvs) s
  | ECoercion c e s => ECoercion c (annotate e) s
  | EDot e x s => EDot (annotate e) x s
  | EUnary op e s => EUnary op (annotate e) s
  | ENewRef e t s => ENewRef (annotate e) t s
  | EDeref e t s => EDeref (annotate e) t s
  | ELength e t s => ELength (annotate e) t s
  | EAssign lv e s => EAssign (annotate_lv lv) (annotate e) s
  | ECall e es s => ECall (annotate e) (map annotate es) s
  | EMethodCall e m es t s => EMethodCall (annotate e) m (map annotate es) t s
  | EBracket e1 e2 t s => EBracket (annotate e1) (annotate e2) t s
  | EBinary op e1 e2 s => EBinary op (annotate e1) (annotate e2) s
  | EStore e1 e2 t s => EStore (annotate e1) (annotate e2) t s
  | EClosure f env s => EClosure f (map (λ et, (annotate et.1, et.2)) env) s
  end
with annotate_lv (lv : LValue) : LValue :=
  match lv with
  | LId _ _ => lv
  | LDot e x => LDot (annotate e) x
  | LBracket e1 e2 t => LBracket (annotate e1) (annotate e2) t
  end
with annotate_func (f : Func) : Func :=
  match f with
  | mkFunc r args b fv _ =>
      mkFunc r args (annotate_stmt b) fv (child_free_stmt b ∩ assigned_stmt b)
  end
with annotate_stmt (st : Stmt) : Stmt :=
  match st with
  | SEmpty | SBreak _ _ => st
  | SLabel x b s => SLabel x (annotate_stmt b) s
  | SLoop b s => SLoop (annotate_stmt b) s
  | SFinally b f s => SFinally (annotate_stmt b) (annotate_stmt f) s
  | SCatch b x c s => SCatch (annotate_stmt b) x (annotate_stmt c) s
  | SBlock ss s => SBlock (map annotate_stmt ss) s
  | SVar x t e s => SVar x t (annotate e) s
  | SThrow e s => SThrow (annotate e) s
  | SReturn e s => SReturn (annotate e) s
  | SExpr e s => SExpr (annotate e) s
  | SForIn x e b s => SForIn x (annotate e) (annotate_stmt b) s
  | SIf c s1 s2 s => SIf (annotate c) (annotate_stmt s1) (annotate_stmt s2) s
  end.

(** The state after a part of the program. *)
Abbreviation grow fc av FS AS C D := (mkCollect ((fc ∪ C) :: FS) ((av ∪ D) :: AS)).

Lemma mapSM_grow {A} (f : CollectAssigns → A → comp never (CollectAssigns * A)) (C D : A → gset Id) (g : A → A) FS AS l :
  Forall (λ x, ∀ fc av, f (mkCollect (fc :: FS) (av :: AS)) x = Ok (grow fc av FS AS (C x) (D x), g x)) l →
  ∀ fc av, mapSM f (mkCollect (fc :: FS) (av :: AS)) l = Ok (grow fc av FS AS (union_of C l) (union_of D l), map g l).
Proof.
  induction 1 as [|x l Hx _ IH]; intros fc av; cbn.
  - by rewrite !(right_id_L ∅ (∪)).
  - rewrite Hx. cbn. rewrite IH. cbn. by rewrite !(assoc_L (∪)).
Qed.

Ltac ca_sets := repeat rewrite ?(left_id_L ∅ (∪)), ?(right_id_L ∅ (∪)), ?(assoc_L (∪)); try done.
Ltac ca_list FS AS :=
  match goal with
  | H : @Forall _ (λ _, ∀ _ _ _ _, _) ?l |- context [mapSM ?f _ ?l] =>
      rewrite (mapSM_grow f _ _ _ FS AS l) by (eapply Forall_impl; [exact H|]; intros; cbn; auto); clear H; cbn
  end.

Lemma collect_walk :
  (∀ e FS AS fc av, walk_expr collect_visitor (mkCollect (fc :: FS) (av :: AS)) e =
     Ok (grow fc av FS AS (child_free e) (assigned e), annotate e)) ∧
  (∀ lv FS AS fc av, walk_lval collect_visitor (mkCollect (fc :: FS) (av :: AS)) lv =
     Ok (grow fc av FS AS (gather_lv own_free false lv) (gather_lv own_assigned true lv), annotate_lv lv)) ∧
  (∀ f FS AS fc av, walk_func collect_visitor (mkCollect (fc :: FS) (av :: AS)) f =
     Ok (grow fc av FS AS (dom (K.free_vars f)) (gather_func own_assigned true f), annotate_func f)) ∧
  (∀ st FS AS fc av, walk_stmt collect_visitor (mkCollect (fc :: FS) (av :: AS)) st =
     Ok (grow fc av FS AS (child_free_stmt st) (assigned_stmt st), annotate_stmt st)).
Proof.
  apply syntax_ind. constructor; intros; cbn.
  all: repeat match goal with H : ∀ FS AS fc av, _ = Ok _ |- _ => rewrite H; clear H; cbn end.
  all: try ca_list FS AS.
  all: repeat match goal with H : ∀ FS AS fc av, _ = Ok _ |- _ => rewrite H; clear H; cbn end.
  all: try (ca_sets; fail).
  - erewrite (mapSM_grow _ (λ kv, child_free kv.2) (λ kv, assigned kv.2) (λ kv, (kv.1, annotate kv.2)) FS AS kvs).
    + cbn. ca_sets.
    + eapply Forall_impl; [exact H|]. intros [k e] He fc' av'. cbn in *. by rewrite He.
  - destruct lv; cbn; ca_sets. by rewrite (comm_L (∪) {[ x ]} av).
  - erewrite (mapSM_grow _ (λ et, child_free et.1) (λ et, assigned et.1) (λ et, (annotate et.1, et.2)) FS AS env).
    + cbn. ca_sets.
    + eapply Forall_impl; [exact H0|]. intros [e t] He fc' av'. cbn in *. by rewrite He.
Qed.

Lemma collect_assigns_eq p :
  collect_assigns p = Ok (child_free_stmt p ∩ assigned_stmt p, annotate_stmt p).
Proof.
  unfold collect_assigns, walk. rewrite (proj2 (proj2 (proj2 collect_walk))). cbn. by ca_sets.
Qed.

(** ** Properties *)

Lemma free_vars_ok p :
  in_stmt source_node (λ _, True) p → program_typed true p →
  ∃ m p', free_vars p = Ok (m, p') ∧ m ⊆ global_env ∧ program_typed true p' ∧
    in_stmt source_node fv_ok p' ∧ selves_stmt p' ∧ declared p' = declared p.
Proof.
  intros Hs Hty. destruct (proj2 (proj2 (proj2 fv_walk)) p Hs) as ([[d r] p'] & Hw & Hd & Hd' & _ & _ & Hin & _ & Ht).
  destruct (Ht _ _ Hty) as (Hr & Hself & Hag). cbn in *. exists (relative_complement r d), p'.
  unfold free_vars, fv_stmt. rewrite Hw. cbn. split; [done|]. split; [|unfold program_typed; rewrite Hd'; auto using agree_self].
  apply map_subseteq_spec. intros x t [Hx Hn]%lookup_relative_complement.
  apply (lookup_hide global_env (declared p) x t), Hr; [done|]. by rewrite <- Hd, not_elem_of_dom.
Qed.

(** On a well-typed program, [free_vars] returns the program with the free
    variables of every function recorded, each with the type it has where the
    function is created.  No parameter and no variable declared in the function is
    among them; every variable is that an inner function needs and the function
    does not bind; with them alone the function is well typed, and the program
    stays well typed.  The free variables of the program are properties of
    the global object. *)
Theorem free_vars_correct p :
  in_stmt source_node (λ _, True) p → program_typed true p →
  ∃ m p', free_vars p = Ok (m, p') ∧ m ⊆ global_env ∧ program_typed true p' ∧
    in_stmt source_node fv_ok p' ∧ selves_stmt p' ∧ declared p' = declared p.
Proof. apply free_vars_ok. Qed.

(** [var n : int = 1; var f : () -> int = function () { n = 2; return (function () { return n; })(); };] *)
Definition counter : Stmt :=
  let n := EId (Named "n") J.Int Unknown in
  let thunk := J.Function [] J.Int in
  let inner := func [] J.Int (SBlock [SReturn n Unknown] Unknown) Unknown in
  SBlock
    [SVar (Named "n") J.Int (ELit (LNum (NInt 1)) Unknown) Unknown;
     SVar (Named "f") thunk
       (func [] J.Int
          (SBlock [SExpr (EAssign (LId (Named "n") J.Int) (ELit (LNum (NInt 2)) Unknown) Unknown) Unknown;
                   SReturn (ECall inner [] Unknown) Unknown] Unknown) Unknown) Unknown] Unknown.

Lemma no_free_vars Γ : (∅ : IdMap) ⊆ Γ.
Proof. apply map_empty_subseteq. Qed.
Lemma counter_typed : program_typed true counter.
Proof.
  unfold program_typed. generalize (hide true global_env (declared counter)). intros Γ. cbn.
  split; [done|]. split; [|done]. intros _.
  assert (∀ Γ' : Env, hide true (<[Named "n":=J.Int]> Γ) ∅ !! Named "n" = Some J.Int) as Hn.
  { intros _. apply lookup_hide. split; [apply lookup_insert_eq|set_solver]. }
  cbn in Hn. split; [|split; [intros _; split; [constructor|apply no_free_vars]|done]].
  rewrite (right_id_L ∅ (∪)). split; [exists J.Int; auto|]. split; [|done]. exists J.Int. split; [done|].
  exists []. split; [|done]. split; [|split; [intros _; split; [constructor|apply no_free_vars]|done]].
  split; [|done]. eexists. split; [done|]. rewrite (right_id_L ∅ (∪)). split; [|done].
  apply (lookup_hide _ ∅). split; [auto|set_solver].
Qed.
Lemma free_vars_correct_witness :
  ∃ m p', free_vars counter = Ok (m, p') ∧ m ⊆ global_env ∧ program_typed true p' ∧
    in_stmt source_node fv_ok p' ∧ selves_stmt p' ∧ declared p' = declared counter.
Proof. apply (free_vars_correct counter); [cbn; tauto|exact counter_typed]. Defined.

(** [collect_assigns], which keeps two stacks of sets while it walks over the
    program, never fails.  It records in every function the variables that are free in
    a function created in its body and assigned in its body or in a function in
    it, and returns the same for the program. *)
Theorem collect_assigns_correct p :
  collect_assigns p = Ok (child_free_stmt p ∩ assigned_stmt p, annotate_stmt p).
Proof. apply collect_assigns_eq. Qed.
