(* ===== verification/BoxAssigns.v ===== *)
(** Boxing of the assigned variables that functions capture
    ([jankyscript/box_assigns.rs]). *)
From S2P Require Import Prelude Types Coercions Operators JankySyntax JankyTyping JankyWalk FreeVars.
Import K.

(** ** The pass

    [BoxVisitor] composed with the walk: the top of its [to_box_stack] is the
    argument [B], and the fresh name generator is threaded. *)

(** [exit_expr] on an identifier. *)
Definition box_id (B : gset Id) (x : Id) (ty : J.typ) (s : Pos) : Expr :=
  if decide (x ∈ B) then EDeref (EId x (J.Ref ty) s) ty s else EId x ty s.
(** [exit_expr] on an assignment. *)
Definition box_assign (B : gset Id) (lv : LValue) (e : Expr) (s : Pos) : Expr :=
  match lv with
  | LId x ty => if decide (x ∈ B) then store_ x e ty s else EAssign lv e s
  | _ => EAssign lv e s
  end.
(** [exit_stmt] on a declaration. *)
Definition box_var (B : gset Id) (x : Id) (ty : J.typ) (e : Expr) (s : Pos) : Stmt :=
  if decide (x ∈ B) then
    let is_init := negb (bool_decide (ty = J.Any)) && is_undefined e in
    if is_init then SVar x (J.Ref ty) e s
    else SVar x (J.Ref ty) (ENewRef e ty s) s
  else SVar x ty e s.

(** [enter_fn]: the parameters to box are renamed; the result is the new parameters
    and the declarations [(name, fresh name, type)] to put around the body, the
    innermost first. *)
Fixpoint box_params (B : gset Id) (g : NameGen.t) (args : list (Id * J.typ)) :
    NameGen.t * (list (Id * J.typ) * list (Id * Id * J.typ)) :=
  match args with
  | [] => (g, ([], []))
  | (name, ty) :: args =>
      if decide (name ∈ B) then
        let '(fresh_name, g) := NameGen.fresh "to_box" g in
        let '(g, (args, vars)) := box_params B g args in
        (g, ((fresh_name, ty) :: args, (name, fresh_name, ty) :: vars))
      else
        let '(g, (args, vars)) := box_params B g args in
        (g, ((name, ty) :: args, vars))
  end.
(** The body with these declarations around it, after the walk over them. *)
Definition box_around (B : gset Id) (vars : list (Id * Id * J.typ)) (b : Stmt) : Stmt :=
  foldl (λ b '(x, y, ty), SBlock [box_var B x ty (box_id B y ty Unknown) Unknown; b] Unknown) b vars.

(** A loop that threads the generator. *)
Section box_list.
Context {A : Type} (f : NameGen.t → A → NameGen.t * A).
Fixpoint box_list (g : NameGen.t) (l : list A) : NameGen.t * list A :=
  match l with
  | [] => (g, [])
  | x :: l => let '(g, x) := f g x in let '(g, l) := box_list g l in (g, x :: l)
  end.
End box_list.

Fixpoint box_expr (B : gset Id) (g : NameGen.t) (e : Expr) : NameGen.t * Expr :=
  match e with
  | ELit _ _ | EEnvGet _ _ _ => (g, e)
  | EId x t s => (g, box_id B x t s)
  | EFunc f s => let '(g, f) := box_func B g f in (g, EFunc f s)
  | EJsOp op es i s => let '(g, es) := box_list (box_expr B) g es in (g, EJsOp op es i s)
  | EArray es s => let '(g, es) := box_list (box_expr B) g es in (g, EArray es s)
  | EPrimCall f es s => let '(g, es) := box_list (box_expr B) g es in (g, EPrimCall f es s)
  | EObject kvs s =>
      let '(g, kvs) := box_list (λ g kv, let '(g, e) := box_expr B g kv.2 in (g, (kv.1, e))) g kvs in
      (g, EObject kvs s)
  | ECoercion c e s => let '(g, e) := box_expr B g e in (g, ECoercion c e s)
  | EDot e x s => let '(g, e) := box_expr B g e in (g, EDot e x s)
  | EUnary op e s => let '(g, e) := box_expr B g e in (g, EUnary op e s)
  | ENewRef e t s => let '(g, e) := box_expr B g e in (g, ENewRef e t s)
  | EDeref e t s => let '(g, e) := box_expr B g e in (g, EDeref e t s)
  | EAssign lv e s =>
      let '(g, lv) := box_lval B g lv in
      let '(g, e) := box_expr B g e in (g, box_assign B lv e s)
  | ECall e es s =>
      let '(g, e) := box_expr B g e in
      let '(g, es) := box_list (box_expr B) g es in (g, ECall e es s)
  | EMethodCall e m es t s =>
      let '(g, e) := box_expr B g e in
      let '(g, es) := box_list (box_expr B) g es in (g, EMethodCall e m es t s)
  | ELength e t s => let '(g, e) := box_expr B g e in (g, ELength e t s)
  | EBracket e1 e2 t s =>
      let '(g, e1) := box_expr B g e1 in let '(g, e2) := box_expr B g e2 in (g, EBracket e1 e2 t s)
  | EBinary op e1 e2 s =>
      let '(g, e1) := box_expr B g e1 in let '(g, e2) := box_expr B g e2 in (g, EBinary op e1 e2 s)
  | EStore e1 e2 t s =>
      let '(g, e1) := box_expr B g e1 in let '(g, e2) := box_expr B g e2 in (g, EStore e1 e2 t s)
  | EClosure f env s =>
      let '(g, env) := box_list (λ g et, let '(g, e) := box_expr B g et.1 in (g, (e, et.2))) g env in
      (g, EClosure f env s)
  end
with box_lval (B : gset Id) (g : NameGen.t) (lv : LValue) : NameGen.t * LValue :=
  match lv with
  | LId _ _ => (g, lv)
  | LDot e x => let '(g, e) := box_expr B g e in (g, LDot e x)
  | LBracket e1 e2 t =>
      let '(g, e1) := box_expr B g e1 in let '(g, e2) := box_expr B g e2 in (g, LBracket e1 e2 t)
  end
with box_func (B : gset Id) (g : NameGen.t) (f : Func) : NameGen.t * Func :=
  match f with
  | mkFunc r args b fv afc =>
      let to_box := B ∪ afc in
      let fv := map_imap (λ x t, Some (if decide (x ∈ to_box) then J.Ref t else t)) fv in
      let '(g, (args, vars)) := box_params to_box g args in
      let '(g, b) := box_stmt to_box g b in
      (g, mkFunc r args (box_around to_box vars b) fv afc)
  end
with box_stmt (B : gset Id) (g : NameGen.t) (st : Stmt) : NameGen.t * Stmt :=
  match st with
  | SEmpty | SBreak _ _ => (g, st)
  | SLabel x b s => let '(g, b) := box_stmt B g b in (g, SLabel x b s)
  | SLoop b s => let '(g, b) := box_stmt B g b in (g, SLoop b s)
  | SFinally b f s =>
      let '(g, b) := box_stmt B g b in let '(g, f) := box_stmt B g f in (g, SFinally b f s)
  | SCatch b x c s =>
      let '(g, b) := box_stmt B g b in let '(g, c) := box_stmt B g c in (g, SCatch b x c s)
  | SBlock ss s => let '(g, ss) := box_list (box_stmt B) g ss in (g, SBlock ss s)
  | SVar x t e s => let '(g, e) := box_expr B g e in (g, box_var B x t e s)
  | SThrow e s => let '(g, e) := box_expr B g e in (g, SThrow e s)
  | SReturn e s => let '(g, e) := box_expr B g e in (g, SReturn e s)
  | SExpr e s => let '(g, e) := box_expr B g e in (g, SExpr e s)
  | SForIn x e b s =>
      let '(g, e) := box_expr B g e in let '(g, b) := box_stmt B g b in (g, SForIn x e b s)
  | SIf c s1 s2 s =>
      let '(g, c) := box_expr B g c in
      let '(g, s1) := box_stmt B g s1 in
      let '(g, s2) := box_stmt B g s2 in (g, SIf c s1 s2 s)
  end.

Definition box_assigns (program : Stmt) (should_box_globals : gset Id) : Stmt :=
  (box_stmt should_box_globals ∅ program).2.

(** ** Programs that can be boxed

    [B] are the variables boxed in the current function and [F] its free
    variables.  A variable to box that is not boxed outside is declared in the
    function, which its free variables make well typed; the variable of a [catch] or
    [for..in] is not boxed and does not hide a free variable; free variables that are assigned are boxed; no variable
    looks like one the pass creates. *)
Definition clean (x : Id) : Prop := ∀ i, x ≠ Generated "to_box" i.
Definition bound (f : Func) : gset Id := declared (body f) ∪ params f.

Fixpoint boxable (B F : gset Id) (e : Expr) : Prop :=
  match e with
  | ELit _ _ | EId _ _ _ => True
  | EFunc f _ => boxable_func B f
  | EJsOp _ es _ _ | EArray es _ | EPrimCall _ es _ => all (boxable B F) es
  | EObject kvs _ => all (λ kv, boxable B F kv.2) kvs
  | ECoercion _ e _ | EDot e _ _ | EUnary _ e _ | ENewRef e _ _ | EDeref e _ _ | ELength e _ _ => boxable B F e
  | EAssign lv e _ => boxable_lval B F lv ∧ boxable B F e
  | ECall e es _ | EMethodCall e _ es _ _ => boxable B F e ∧ all (boxable B F) es
  | EBracket e1 e2 _ _ | EBinary _ e1 e2 _ => boxable B F e1 ∧ boxable B F e2
  | EStore _ _ _ _ | EClosure _ _ _ | EEnvGet _ _ _ => False
  end
with boxable_lval (B F : gset Id) (lv : LValue) : Prop :=
  match lv with
  | LId x _ => x ∈ F → x ∈ B
  | LDot e _ => boxable B F e
  | LBracket e1 e2 _ => boxable B F e1 ∧ boxable B F e2
  end
with boxable_func (B : gset Id) (f : Func) : Prop :=
  match f with
  | mkFunc r args b fv afc =>
      (∀ x, x ∈ afc → x ∉ B → x ∈ declared b ∨ x ∈ map fst args) ∧
      (∀ x, x ∈ dom fv → x ∉ declared b ∧ x ∉ map fst args) ∧
      Forall clean (map fst args) ∧
      self_typed f ∧
      boxable_stmt (B ∪ afc) (dom fv) b
  end
with boxable_stmt (B F : gset Id) (st : Stmt) : Prop :=
  match st with
  | SEmpty | SBreak _ _ => True
  | SLabel _ b _ | SLoop b _ => boxable_stmt B F b
  | SFinally s1 s2 _ => boxable_stmt B F s1 ∧ boxable_stmt B F s2
  | SCatch s1 x s2 _ => x ∉ B ∧ x ∉ F ∧ clean x ∧ boxable_stmt B F s1 ∧ boxable_stmt B F s2
  | SBlock ss _ => all (boxable_stmt B F) ss
  | SVar x _ e _ => clean x ∧ x ∉ F ∧ boxable B F e
  | SThrow e _ | SReturn e _ | SExpr e _ => boxable B F e
  | SForIn x e b _ => x ∉ B ∧ x ∉ F ∧ clean x ∧ boxable B F e ∧ boxable_stmt B F b
  | SIf c s1 s2 _ => boxable B F c ∧ boxable_stmt B F s1 ∧ boxable_stmt B F s2
  end.

(** What is left of it after the pass: in every function, the free variables [F] are
    all it needs and are not assigned, nor declared or bound by [catch]. *)
Fixpoint settled (F : gset Id) (e : Expr) : Prop :=
  match e with
  | ELit _ _ | EId _ _ _ => True
  | EFunc f _ => settled_func f
  | EJsOp _ es _ _ | EArray es _ | EPrimCall _ es _ => all (settled F) es
  | EObject kvs _ => all (λ kv, settled F kv.2) kvs
  | ECoercion _ e _ | EDot e _ _ | EUnary _ e _ | ENewRef e _ _ | EDeref e _ _ | ELength e _ _ => settled F e
  | EAssign lv e _ => settled_lval F lv ∧ settled F e
  | ECall e es _ | EMethodCall e _ es _ _ => settled F e ∧ all (settled F) es
  | EBracket e1 e2 _ _ | EBinary _ e1 e2 _ | EStore e1 e2 _ _ => settled F e1 ∧ settled F e2
  | EClosure _ _ _ | EEnvGet _ _ _ => False
  end
with settled_lval (F : gset Id) (lv : LValue) : Prop :=
  match lv with
  | LId x _ => x ∉ F
  | LDot e _ => settled F e
  | LBracket e1 e2 _ => settled F e1 ∧ settled F e2
  end
with settled_func (f : Func) : Prop :=
  match f with
  | mkFunc r args b fv afc =>
      (∀ x, x ∈ dom fv → x ∉ declared b ∧ x ∉ map fst args) ∧ self_typed f ∧ settled_stmt (dom fv) b
  end
with settled_stmt (F : gset Id) (st : Stmt) : Prop :=
  match st with
  | SEmpty | SBreak _ _ => True
  | SLabel _ b _ | SLoop b _ => settled_stmt F b
  | SFinally s1 s2 _ => settled_stmt F s1 ∧ settled_stmt F s2
  | SCatch s1 x s2 _ => x ∉ F ∧ settled_stmt F s1 ∧ settled_stmt F s2
  | SBlock ss _ => all (settled_stmt F) ss
  | SVar x _ e _ => x ∉ F ∧ settled F e
  | SThrow e _ | SReturn e _ | SExpr e _ => settled F e
  | SForIn x e b _ => x ∉ F ∧ settled F e ∧ settled_stmt F b
  | SIf c s1 s2 _ => settled F c ∧ settled_stmt F s1 ∧ settled_stmt F s2
  end.

(** The environments of a program before and after the pass. *)
Definition boxed_env (B : gset Id) (Γ Γ' : Env) : Prop :=
  ∀ x t, Γ !! x = Some t → clean x ∧ Γ' !! x = Some (if decide (x ∈ B) then J.Ref t else t).

Lemma boxed_env_insert B Γ Γ' x t :
  clean x → x ∉ B → boxed_env B Γ Γ' → boxed_env B (<[x := t]> Γ) (<[x := t]> Γ').
Proof.
  intros Hc Hx H y u. rewrite !lookup_insert. intros Hy. case_decide; [|by apply H].
  simplify_eq. rewrite decide_False by done. done.
Qed.
Lemma out_env_box_var B Γ Γ' x t e e' s s' :
  clean x → boxed_env B Γ Γ' → boxed_env B (out_env Γ (SVar x t e' s')) (out_env Γ' (box_var B x t e s)).
Proof.
  intros Hc H y u. unfold box_var. cbn. rewrite lookup_insert.
  intros Hy. case_decide as Hxy; [simplify_eq; split; [done|]|].
  - destruct (decide (y ∈ B)).
    + destruct (negb _ && _); cbn; by rewrite lookup_insert_eq.
    + cbn. by rewrite lookup_insert_eq.
  - destruct (H _ _ Hy) as [? Hl]. split; [done|].
    destruct (decide (x ∈ B)); [destruct (negb _ && _)|]; cbn; by rewrite lookup_insert_ne.
Qed.
Lemma declared_box_var B x t e s : declared (box_var B x t e s) = {[ x ]}.
Proof. unfold box_var. case_decide; [destruct (negb _ && _)|]; done. Qed.

(** ** Parameters *)
Definition is_boxed_param (B : gset Id) (args : list (Id * J.typ)) (v : Id * Id * J.typ) : Prop :=
  let '(x, y, ty) := v in x ∈ B ∧ (x, ty) ∈ args ∧ ¬ clean y.

Record params_ok (B : gset Id) (g : NameGen.t) (args args' : list (Id * J.typ)) (vars : list (Id * Id * J.typ)) : Prop := {
  po_types : map snd args' = map snd args;
  po_nodup : NoDup (map fst args');
  po_names : ∀ x, x ∈ map fst args' →
    x ∈ map fst args ∧ x ∉ B ∨ (¬ clean x ∧ ¬ NameGen.issued g x);
  po_vars : Forall (is_boxed_param B args) vars;
  po_fresh : Forall (λ v, (v.1.2, v.2) ∈ args') vars;
  po_keep : ∀ x ty, (x, ty) ∈ args → x ∉ B → (x, ty) ∈ args';
  po_box : ∀ x, x ∈ map fst args → x ∈ B → x ∈ map (λ v, v.1.1) vars;
  po_vars_nodup : NoDup (map (λ v, v.1.1) vars)
}.

Lemma fresh_not_clean g : ¬ clean (NameGen.fresh "to_box" g).1.
Proof. cbn. unfold clean. intros H. by eapply H. Qed.

Lemma box_params_ok B g args :
  NoDup (map fst args) → Forall clean (map fst args) →
  params_ok B g args (box_params B g args).2.1 (box_params B g args).2.2.
Proof.
  revert g. induction args as [|[x t] args IH]; intros g Hnd Hc; cbn [box_params].
  - by split; cbn; intros; try constructor; try set_solver.
  - cbn in Hnd, Hc. apply NoDup_cons in Hnd as [Hx Hnd]. apply Forall_cons in Hc as [Hcx Hc].
    case_decide as HB.
    + pose proof (fresh_not_clean g) as Hy. pose proof (NameGen.fresh_issued "to_box" g) as Hi.
      pose proof (NameGen.fresh_not_issued "to_box" g) as Hni.
      destruct (NameGen.fresh "to_box" g) as [y g1] eqn:Hg. cbn in Hy, Hni, Hi.
      destruct (IH g1 Hnd Hc) as [Hty Hn Hna Hv Hf Hk Hb Hvn].
      destruct (box_params B g1 args) as [g2 [args' vars]]. cbn in *. split; cbn.
      * by f_equal.
      * constructor; [|done]. intros Hin. apply Hna in Hin as [[Hin _]|[_ Hin]].
        -- rewrite Forall_forall in Hc. by apply Hy, Hc.
        -- apply Hin, Hi. auto.
      * intros z [->|Hz]%elem_of_cons; [by right|].
        apply Hna in Hz as [[? ?]|[? Hz]]; [left; split; [by right|done]|].
        right. split; [done|]. intros ?. apply Hz, Hi. auto.
      * constructor; [split_and!; [done|by left|done]|].
        eapply Forall_impl; [exact Hv|]. intros [[z w] u] (? & ? & ?). split_and!; [done|by right|done].
      * constructor; [by left|]. eapply Forall_impl; [exact Hf|]. intros. by right.
      * intros z u [[= -> ->]|Hz]%elem_of_cons ?; [done|]. right. auto.
      * intros z [->|Hz]%elem_of_cons ?; [by left|]. right. auto.
      * constructor; [|done]. intros Hin. apply list_elem_of_fmap in Hin as ([[z w] u] & -> & Hz).
        rewrite Forall_forall in Hv. destruct (Hv _ Hz) as (_ & Hin & _).
        apply Hx. apply list_elem_of_fmap. by exists (z, u).
    + destruct (IH g Hnd Hc) as [Hty Hn Hna Hv Hf Hk Hb Hvn].
      destruct (box_params B g args) as [g2 [args' vars]]. cbn in *. split; cbn.
      * by f_equal.
      * constructor; [|done]. intros Hin. by apply Hna in Hin as [[Hin _]|[Hin _]].
      * intros z [->|Hz]%elem_of_cons; [left; split; [by left|done]|].
        apply Hna in Hz as [[? ?]|?]; [left; split; [by right|done]|by right].
      * eapply Forall_impl; [exact Hv|]. intros [[z w] u] (? & ? & ?). split_and!; [done|by right|done].
      * eapply Forall_impl; [exact Hf|]. intros. by right.
      * intros z u [[= -> ->]|Hz]%elem_of_cons ?; [by left|]. right. auto.
      * intros z [->|Hz]%elem_of_cons ?; [done|]. auto.
      * done.
Qed.

Lemma lookup_insert_args_in Γ args x t :
  NoDup (map fst args) → (x, t) ∈ args → insert_args Γ args !! x = Some t.
Proof.
  revert Γ. induction args as [|[y u] args IH]; intros Γ Hnd Hin; [by apply not_elem_of_nil in Hin|].
  cbn in Hnd. apply NoDup_cons in Hnd as [Hy Hnd]. apply elem_of_cons in Hin as [[= <- <-]|Hin].
  - cbn. change (foldl _ ?Γ args) with (insert_args Γ args).
    rewrite lookup_insert_args by done. apply lookup_insert_eq.
  - cbn. by apply IH.
Qed.
Lemma in_map_fst (args : list (Id * J.typ)) x : x ∈ map fst args ↔ ∃ t, (x, t) ∈ args.
Proof.
  split; [intros ([y t] & -> & ?)%list_elem_of_fmap; eauto|].
  intros [t ?]. apply list_elem_of_fmap. by exists (x, t).
Qed.

(** ** The declarations around the body *)
Definition insert_vars (Γ : Env) (vars : list (Id * Id * J.typ)) : Env :=
  foldr (λ '(x, _, ty) Γ, <[x := J.Ref ty]> Γ) Γ vars.
Lemma lookup_insert_vars_ne Γ vars x : x ∉ map (λ v, v.1.1) vars → insert_vars Γ vars !! x = Γ !! x.
Proof.
  induction vars as [|[[y z] t] vars IH]; cbn; intros Hx; [done|].
  apply not_elem_of_cons in Hx as [? ?]. rewrite lookup_insert_ne by done. auto.
Qed.
Lemma lookup_insert_vars Γ vars x y t :
  NoDup (map (λ v, v.1.1) vars) → (x, y, t) ∈ vars → insert_vars Γ vars !! x = Some (J.Ref t).
Proof.
  induction vars as [|[[x' y'] t'] vars IH]; cbn; intros Hnd Hin; [by apply not_elem_of_nil in Hin|].
  apply NoDup_cons in Hnd as [Hx Hnd]. apply elem_of_cons in Hin as [[= <- <- <-]|Hin].
  - apply lookup_insert_eq.
  - rewrite lookup_insert_ne; [auto|]. intros ->. apply Hx. apply list_elem_of_fmap. by exists (x, y, t).
Qed.

Definition declares_box (B F : gset Id) (Γ : Env) (v : Id * Id * J.typ) : Prop :=
  let '(x, y, ty) := v in x ∈ B ∧ y ∉ B ∧ clean x ∧ ¬ clean y ∧ x ∉ F ∧ Γ !! y = Some ty.
Lemma declares_box_var B F Γ x y ty s s' :
  declares_box B F Γ (x, y, ty) →
  box_var B x ty (box_id B y ty s) s' = SVar x (J.Ref ty) (ENewRef (EId y ty s) ty s') s'.
Proof.
  intros (Hx & Hy & _). unfold box_var, box_id. rewrite decide_True, decide_False by done. cbn.
  by rewrite andb_false_r.
Qed.
Lemma box_around_typed B F Γ vars b ret :
  Forall (declares_box B F Γ) vars →
  stmt_typed true b ret (insert_vars Γ vars) → settled_stmt F b →
  stmt_typed true (box_around B vars b) ret Γ ∧ settled_stmt F (box_around B vars b) ∧
  declared (box_around B vars b) = list_to_set (map (λ v, v.1.1) vars) ∪ declared b.
Proof.
  intros Hv. revert b. unfold box_around. induction Hv as [|[[x y] ty] vars Hx Hv IH]; intros b Hb Hs; cbn.
  - split_and!; [done|done|set_solver].
  - rewrite (declares_box_var _ _ _ _ _ _ _ _ Hx). destruct Hx as (_ & _ & _ & Hy & HF & Hl).
    edestruct IH as (? & ? & Hd); [| |split; [done|split; [done|]]].
    + cbn. split; [|split; [exact Hb|done]]. intros _. split_and!; [|done|done].
      rewrite lookup_insert_vars_ne; [done|]. intros ([[x' y'] t'] & -> & Hin)%list_elem_of_fmap.
      rewrite Forall_forall in Hv. by destruct (Hv _ Hin) as (_ & _ & ? & _).
    + cbn. tauto.
    + rewrite Hd. cbn. set_solver.
Qed.

Lemma box_list_Forall2 {A} (f : NameGen.t → A → NameGen.t * A) g l :
  Forall2 (λ x y, ∃ g, y = (f g x).2) l (box_list f g l).2.
Proof.
  revert g. induction l as [|x l IH]; intros g; cbn; [constructor|].
  destruct (f g x) as [g1 y] eqn:Hf. specialize (IH g1). destruct (box_list f g1 l). cbn in *.
  constructor; [exists g; by rewrite Hf|done].
Qed.
Lemma box_list_snd {A C} (f : NameGen.t → A → NameGen.t * A) g l (k : NameGen.t → list A → C) :
  (let '(g, l) := box_list f g l in k g l) = k (box_list f g l).1 (box_list f g l).2.
Proof. by destruct (box_list f g l). Qed.

Lemma is_undefined_box B g e : is_undefined (box_expr B g e).2 = is_undefined e.
Proof.
  destruct e; cbn; try done; repeat match goal with |- context [let '(_, _) := ?p in _] => destruct p end; try done.
  - unfold box_id. by case_decide.
  - unfold box_assign. repeat case_match; done.
Qed.
Lemma declared_box B g st : declared (box_stmt B g st).2 = declared st.
Proof.
  revert B g. assert (∀ st B g, declared (box_stmt B g st).2 = declared st) as H; [|auto].
  apply (Stmt_ind' (λ _, True) (λ _, True) (λ _, True) (λ st, ∀ B g, declared (box_stmt B g st).2 = declared st)).
  constructor; try done; intros; cbn;
    repeat match goal with
    | H : ∀ B g, declared (box_stmt B g ?st).2 = _ |- context [box_stmt ?B ?g ?st] =>
        let E := fresh in pose proof (H B g) as E; clear H; destruct (box_stmt B g st)
    | |- context [let '(_, _) := box_expr ?B ?g ?e in _] => destruct (box_expr B g e)
    end; cbn in *; try congruence.
  - apply declared_box_var.
  - pose proof (box_list_Forall2 (box_stmt B) g ss) as Hss. destruct (box_list _ _ _) as [g' ss']. cbn in *.
    induction Hss as [|st1 st2 ss ss' [g1 ->] _ IH]; cbn; [done|].
    apply Forall_cons in H as [Hst Hss']. by rewrite Hst, IH.
Qed.
Lemma boxable_declared_clean B F st x : boxable_stmt B F st → x ∈ declared st → clean x.
Proof.
  revert B F. assert (∀ st B F, boxable_stmt B F st → x ∈ declared st → clean x) as H; [|eauto].
  apply (Stmt_ind' (λ _, True) (λ _, True) (λ _, True) (λ st, ∀ B F, boxable_stmt B F st → x ∈ declared st → clean x)).
  constructor; try done; intros; cbn in *; destruct_ex; try (apply elem_of_union in H2 as []; eauto; fail); try set_solver; eauto.
  revert H0 H1. induction H as [|st1 ss Hst _ IH]; cbn; [set_solver|].
  intros [? ?] [?|?]%elem_of_union; eauto.
Qed.

(** ** Boxing preserves typing *)
Definition clean_set (B : gset Id) : Prop := ∀ x, x ∈ B → clean x.
Definition box_expr_ok (e : Expr) : Prop := ∀ B F Γ Γ' g t,
  expr_typed true e Γ t → boxable B F e → clean_set B → boxed_env B Γ Γ' →
  expr_typed true (box_expr B g e).2 Γ' t ∧ settled F (box_expr B g e).2.
Definition box_func_ok (f : Func) : Prop := ∀ B Γ Γ' g t,
  func_typed true f Γ t → boxable_func B f → clean_set B → boxed_env B Γ Γ' →
  func_typed true (box_func B g f).2 Γ' t ∧ settled_func (box_func B g f).2.
Definition box_stmt_ok (st : Stmt) : Prop := ∀ B F Γ Γ' g ret,
  stmt_typed true st ret Γ → boxable_stmt B F st → clean_set B → boxed_env B Γ Γ' →
  stmt_typed true (box_stmt B g st).2 ret Γ' ∧ settled_stmt F (box_stmt B g st).2 ∧
  boxed_env B (out_env Γ st) (out_env Γ' (box_stmt B g st).2).

(** The environment of the body of a function. *)
Lemma boxed_env_body B afc Γ Γ' args args' vars b g :
  boxed_env B Γ Γ' → clean_set (B ∪ afc) →
  (∀ x, x ∈ afc → x ∉ B → x ∈ declared b ∨ x ∈ map fst args) →
  NoDup (map fst args) → Forall clean (map fst args) →
  params_ok (B ∪ afc) g args args' vars →
  boxed_env (B ∪ afc) (insert_args (hide true Γ (declared b)) args)
    (insert_vars (insert_args (hide true Γ' (list_to_set (map (λ v, v.1.1) vars) ∪ declared b)) args') vars).
Proof.
  intros HΓ HB Hafc Hnd Hc P x t Hx.
  pose proof (po_nodup _ _ _ _ _ P) as Hnd'. rewrite Forall_forall in Hc.
  destruct (decide (x ∈ map fst args)) as [Hin|Hin].
  - split; [auto|]. apply in_map_fst in Hin as Hin'. destruct Hin' as [t' Ht'].
    rewrite (lookup_insert_args_in _ _ _ _ Hnd Ht') in Hx. simplify_eq.
    destruct (decide (x ∈ B ∪ afc)) as [HxB|HxB].
    + pose proof (po_box _ _ _ _ _ P _ Hin HxB) as Hv.
      apply list_elem_of_fmap in Hv as ([[x' y] t'] & -> & Hv). cbn.
      rewrite (lookup_insert_vars _ _ _ _ _ (po_vars_nodup _ _ _ _ _ P) Hv).
      pose proof (po_vars _ _ _ _ _ P) as Hvs. rewrite Forall_forall in Hvs.
      destruct (Hvs _ Hv) as (_ & Ht & _). cbn in Ht'.
      pose proof (lookup_insert_args_in ∅ _ _ _ Hnd Ht). pose proof (lookup_insert_args_in ∅ _ _ _ Hnd Ht').
      congruence.
    + rewrite lookup_insert_vars_ne.
      * apply lookup_insert_args_in; [done|]. by apply (po_keep _ _ _ _ _ P).
      * intros ([[x' y] t'] & -> & Hv)%list_elem_of_fmap. cbn in *.
        pose proof (po_vars _ _ _ _ _ P) as Hvs. rewrite Forall_forall in Hvs. by destruct (Hvs _ Hv).
  - rewrite lookup_insert_args in Hx by done. apply lookup_hide in Hx as [Hx Hxd].
    destruct (HΓ _ _ Hx) as [Hcx Hx']. split; [done|].
    assert (x ∉ map (λ v, v.1.1) vars) as Hxv.
    { intros ([[x' y] t'] & -> & Hv)%list_elem_of_fmap. cbn in *.
      pose proof (po_vars _ _ _ _ _ P) as Hvs. rewrite Forall_forall in Hvs.
      destruct (Hvs _ Hv) as (_ & ? & _). apply Hin, in_map_fst. eauto. }
    rewrite lookup_insert_vars_ne, lookup_insert_args by
      (try done; intros [[? _]|[? _]]%(po_names _ _ _ _ _ P); done).
    assert ((if decide (x ∈ B ∪ afc) then J.Ref t else t) = (if decide (x ∈ B) then J.Ref t else t)) as ->.
    { destruct (decide (x ∈ B)); [by rewrite decide_True by set_solver|].
      rewrite decide_False; [done|]. intros [?|Ha]%elem_of_union; [done|]. by destruct (Hafc _ Ha). }
    apply lookup_hide. split; [done|]. rewrite not_elem_of_union, elem_of_list_to_set. done.
Qed.

(** The boxed function in an environment that has its free variables, which may be
    that of the place where it is created or just its free variables. *)
Definition settled_parts (f : Func) : Prop :=
  match f with
  | mkFunc r args b fv afc =>
      (∀ x, x ∈ dom fv → x ∉ declared b ∧ x ∉ map fst args) ∧ settled_stmt (dom fv) b
  end.
Lemma box_function_typed r args b fv afc B Γ Γ' g t :
  let f := mkFunc r args b fv afc in
  box_stmt_ok b → func_typed true f Γ t → boxable_func B f → clean_set B → boxed_env B Γ Γ' →
  func_typed true (box_func B g f).2 Γ' t ∧ settled_parts (box_func B g f).2.
Proof.
  intros f IH (Hb & Hs & ->) (Hafc & Hfv & Hc & _ & Hbox) HB HΓ. unfold f. clear f. destruct (Hs eq_refl) as [Hnd Hsub].
  cbn [box_func].
  assert (clean_set (B ∪ afc)) as HB'.
  { intros x [?|Ha]%elem_of_union; [auto|]. destruct (decide (x ∈ B)); [auto|].
    destruct (Hafc _ Ha) as [?|?]; [done|by eapply boxable_declared_clean|]. rewrite Forall_forall in Hc. auto. }
  pose proof (box_params_ok (B ∪ afc) g args Hnd Hc) as P.
  destruct (box_params (B ∪ afc) g args) as [g1 [args' vars]]. cbn in P.
  pose proof (declared_box (B ∪ afc) g1 b) as Hdb.
  specialize (IH (B ∪ afc) (dom fv) _ _ g1 (Some r) Hb Hbox HB'
    (boxed_env_body _ _ _ _ _ _ _ _ _ HΓ HB' Hafc Hnd Hc P)).
  destruct (box_stmt (B ∪ afc) g1 b) as [g2 b']. cbn in *. destruct IH as (Hb' & Hset & _).
  set (fv' := map_imap _ fv).
  assert (dom fv' = dom fv) as Hdom.
  { apply dom_imap_L. intros x. rewrite elem_of_dom. unfold is_Some. naive_solver. }
  assert (Forall (declares_box (B ∪ afc) (dom fv)
    (insert_args (hide true Γ' (list_to_set (map (λ v, v.1.1) vars) ∪ declared b)) args')) vars) as Hdecl.
  { apply Forall_forall. intros [[x y] ty] Hv.
    pose proof (po_vars _ _ _ _ _ P) as Hvs. rewrite Forall_forall in Hvs. destruct (Hvs _ Hv) as (HxB & Hx & Hy).
    assert (x ∈ map fst args) as Hxa by (apply in_map_fst; eauto).
    split_and!; [done|auto| |done| |].
    - rewrite Forall_forall in Hc. auto.
    - intros HF. by destruct (Hfv _ HF).
    - apply lookup_insert_args_in; [apply P|]. pose proof (po_fresh _ _ _ _ _ P) as Hf.
      rewrite Forall_forall in Hf. exact (Hf _ Hv). }
  destruct (box_around_typed _ _ _ _ _ _ Hdecl Hb' Hset) as (Ht & Hst & Hd).
  rewrite Hdom, Hd, Hdb. split; [|split; [|done]].
  - split; [exact Ht|]. split; [|by rewrite (po_types _ _ _ _ _ P)]. intros _. split; [apply P|].
    apply map_subseteq_spec. intros x t Hx'. unfold fv' in Hx'. rewrite map_lookup_imap in Hx'.
    destruct (fv !! x) as [t0|] eqn:Hx; [|done]. cbn in Hx'. injection Hx' as <-.
    pose proof (lookup_weaken _ _ _ _ Hx Hsub) as HxΓ. destruct (HΓ _ _ HxΓ) as [_ ->].
    f_equal. assert (x ∈ dom fv) as Hxf by by eapply elem_of_dom_2.
    destruct (Hfv _ Hxf). destruct (decide (x ∈ B)); [by rewrite decide_True by set_solver|].
    rewrite decide_False; [done|]. intros [?|Ha]%elem_of_union; [done|]. by destruct (Hafc _ Ha).
  - intros x HF. destruct (Hfv _ HF). rewrite not_elem_of_union, elem_of_list_to_set. split.
    + split; [|done]. intros ([[x' y] t'] & -> & Hv)%list_elem_of_fmap. cbn in *.
      pose proof (po_vars _ _ _ _ _ P) as Hvs. rewrite Forall_forall in Hvs.
      destruct (Hvs _ Hv) as (_ & Hin & _). match goal with H : _ ∉ map fst args |- _ => apply H, in_map_fst end. eauto.
    + intros [[? _]|[Hnc _]]%(po_names _ _ _ _ _ P); [done|]. apply Hnc.
      apply elem_of_dom in HF as [u Hu]. by destruct (HΓ x u (lookup_weaken _ _ _ _ Hu Hsub)).
Qed.

(** The recorded free variables are boxed like the environment. *)
Lemma boxed_free_vars r args b fv afc B Γ Γ' g :
  boxable_func B (mkFunc r args b fv afc) → fv ⊆ Γ → boxed_env B Γ Γ' →
  boxed_env B fv (K.free_vars (box_func B g (mkFunc r args b fv afc)).2).
Proof.
  intros (Hafc & Hfv & _) Hsub HΓ x t Hx. destruct (HΓ x t) as [Hc _]; [by eapply lookup_weaken|].
  split; [done|]. cbn. destruct (box_params _ _ _) as [g1 [args' vars]]. destruct (box_stmt _ _ _). cbn.
  rewrite map_lookup_imap, Hx. cbn. f_equal.
  assert (x ∈ dom fv) as Hxf by by eapply elem_of_dom_2.
  destruct (Hfv _ Hxf). destruct (decide (x ∈ B)); [by rewrite decide_True by (by apply elem_of_union_l)|].
  rewrite decide_False; [done|]. intros [?|Ha]%elem_of_union; [done|]. by destruct (Hafc _ Ha).
Qed.

Lemma box_func_typ r args b fv afc B g :
  NoDup (map fst args) → Forall clean (map fst args) →
  func_typ (box_func B g (mkFunc r args b fv afc)).2 = J.Function (map snd args) r.
Proof.
  intros Hnd Hc. cbn. pose proof (box_params_ok (B ∪ afc) g args Hnd Hc) as P.
  destruct (box_params _ _ _) as [g1 [args' vars]]. destruct (box_stmt _ _ _). cbn in *.
  unfold func_typ, arg_typs. cbn. by rewrite (po_types _ _ _ _ _ P).
Qed.

Lemma box_function r args b fv afc : box_stmt_ok b → box_func_ok (mkFunc r args b fv afc).
Proof.
  intros IH B Γ Γ' g t Ht Hbox HB HΓ.
  destruct (box_function_typed r args b fv afc B Γ Γ' g t) as [Ht' Hs]; [done..|]. split; [done|].
  destruct Ht as (_ & Hs' & _). destruct (Hs' eq_refl) as [Hnd Hsub].
  assert (self_typed (box_func B g (mkFunc r args b fv afc)).2) as Hself.
  { pose proof Hbox as (_ & _ & Hc & Hself & _). unfold self_typed. rewrite box_func_typ by done.
    eapply box_function_typed; [done|exact Hself|done|done|]. by eapply boxed_free_vars. }
  destruct (box_func B g _) as [g' [r' args' b' fv' afc']]. cbn in *. destruct Hs. auto.
Qed.

Section box_lists.
Variables (B F : gset Id) (Γ Γ' : Env).
Hypotheses (HB : clean_set B) (HΓ : boxed_env B Γ Γ').

Lemma box_args g es ts :
  Forall box_expr_ok es → all (boxable B F) es →
  args_typed true (λ e t, expr_typed true e Γ t) es ts →
  args_typed true (λ e t, expr_typed true e Γ' t) (box_list (box_expr B) g es).2 ts ∧
  all (settled F) (box_list (box_expr B) g es).2 ∧
  length (box_list (box_expr B) g es).2 = length es.
Proof.
  intros H. revert ts. pose proof (box_list_Forall2 (box_expr B) g es) as Hes.
  generalize dependent (box_list (box_expr B) g es).2. intros es' Hes.
  induction Hes as [|e e' es es' [g1 ->] _ IH]; intros [|t ts] Hb Ha; cbn in *; try done.
  apply Forall_cons in H as [He H]. destruct Hb, Ha, (IH H ts) as (? & ? & ?); [done|done|].
  destruct (He B F Γ Γ' g1 t) as [? ?]; [done..|]. auto.
Qed.
Lemma box_any {A} (π : A → Expr) (f : NameGen.t → A → NameGen.t * A) g l :
  (∀ g x, π (f g x).2 = (box_expr B g (π x)).2) →
  Forall (λ x, box_expr_ok (π x)) l → all (λ x, boxable B F (π x)) l →
  all (λ x, ∃ t, expr_typed true (π x) Γ t) l →
  all (λ x, ∃ t, expr_typed true (π x) Γ' t) (box_list f g l).2 ∧ all (λ x, settled F (π x)) (box_list f g l).2.
Proof.
  intros Hf H. pose proof (box_list_Forall2 f g l) as Hls.
  generalize dependent (box_list f g l).2. intros l' Hls.
  induction Hls as [|x y l l' [g1 ->] _ IH]; cbn in *; [done|]. intros [Hb Hbs] [[t Ht] Hts].
  apply Forall_cons in H as [He H]. destruct (IH H Hbs Hts). rewrite Hf.
  destruct (He B F Γ Γ' g1 t) as [? ?]; [done..|]. eauto.
Qed.
End box_lists.

Ltac box_open :=
  repeat match goal with
  | H : ?x = ?y |- _ => subst x || subst y
  end;
  repeat match goal with
  | IH : box_expr_ok ?e, Ht : expr_typed true ?e ?Γ ?t, Hb : boxable ?B ?F ?e, HB : clean_set ?B, HΓ : boxed_env ?B ?Γ ?Γ'
    |- context [box_expr ?B ?g ?e] =>
      let H1 := fresh "Ht" in let H2 := fresh "Hs" in
      destruct (IH B F Γ Γ' g t Ht Hb HB HΓ) as [H1 H2]; clear IH; destruct (box_expr B g e)
  end; cbn in *.

Ltac box_open_stmt :=
  repeat match goal with
  | IH : box_stmt_ok ?st, Ht : stmt_typed true ?st ?ret ?Γ, Hb : boxable_stmt ?B ?F ?st, HB : clean_set ?B,
    HΓ : boxed_env ?B ?Γ ?Γ' |- context [box_stmt ?B ?g ?st] =>
      let H1 := fresh "Ht" in let H2 := fresh "Hs" in
      destruct (IH B F Γ Γ' g ret Ht Hb HB HΓ) as (H1 & H2 & _); clear IH; destruct (box_stmt B g st)
  end; cbn in *.

Lemma box_walk :
  (∀ e, box_expr_ok e) ∧ (∀ lv, lvalue_parts box_expr_ok lv) ∧ (∀ f, box_func_ok f) ∧ (∀ st, box_stmt_ok st).
Proof.
  apply syntax_ind. constructor; intros; try done; try (by apply box_function).
  all: try (intros B F Γ Γ' g ty Ht Hb HB HΓ; cbn in *; destruct_ex; box_open; split; [try done|try done]; eauto 6; fail).
  - intros B F Γ Γ' g ty [Ht ->] Hb HB HΓ. cbn in *. rewrite box_list_snd. cbn.
    destruct (box_any B F Γ Γ' HB HΓ id (box_expr B) g es) as [? ?]; auto.
  - intros B F Γ Γ' g ty [Ht ->] Hb HB HΓ. cbn in *. rewrite box_list_snd. cbn.
    destruct (box_any B F Γ Γ' HB HΓ snd (λ g kv, let '(g, e) := box_expr B g kv.2 in (g, (kv.1, e))) g kvs); auto.
    intros g1 [k e]. cbn. by destruct (box_expr B g1 e).
  - intros B F Γ Γ' g ty [Ht ->] Hb HB HΓ. cbn in *. destruct (HΓ _ _ Ht) as [_ Hx]. unfold box_id.
    case_decide; cbn; auto.
  - intros B F Γ Γ' g ty [Ht Hlv] [Hbl Hbe] HB HΓ. cbn in *.
    destruct lv as [x ty'|e1 x|e1 e2 ty']; cbn in *; destruct_ex; box_open; [|split; [split; eauto|done]..].
    match goal with Hl : Γ !! x = Some _ |- _ => destruct (HΓ _ _ Hl) as [_ Hx] end. unfold box_assign. case_decide; cbn; [auto|].
    split; [auto|]. split; [|done]. intros HF. auto.
  - intros B F Γ Γ' g ty (ts & Ht & Ha) [Hbe Hbs] HB HΓ. cbn in *. box_open. rewrite box_list_snd. cbn.
    match goal with |- context [box_list _ ?g0 es] => destruct (box_args B F Γ Γ' HB HΓ g0 es ts) as (? & ? & _) end; eauto.
  - intros B F Γ Γ' g ty (ts & Ht & Hg & Ha) [Hbe Hbs] HB HΓ. cbn in *. box_open. rewrite box_list_snd. cbn.
    match goal with |- context [box_list _ ?g0 es] =>
      destruct (box_args B F Γ Γ' HB HΓ g0 es ts) as (? & ? & Hlen) end; [done..|]. rewrite Hlen. eauto 6.
  - intros B F Γ Γ' g ty (ts & Ht & Ha) Hbs HB HΓ. cbn in *. rewrite box_list_snd. cbn.
    destruct (box_args B F Γ Γ' HB HΓ g es ts) as (? & ? & _); eauto.
  - intros B F Γ Γ' g ty Ht Hb HB HΓ. cbn in *. destruct (H B Γ Γ' g ty Ht Hb HB HΓ). by destruct (box_func B g f).
  - intros B F Γ Γ' g ret Ht (Hx & HF & Hb) HB HΓ. cbn in *.
    pose proof (is_undefined_box B g e) as Hu.
    assert (is_undefined e = true ∨ expr_typed true e Γ t) as Hty by (destruct (is_undefined e); auto).
    assert ((is_undefined e = false → expr_typed true (box_expr B g e).2 Γ' t) ∧ settled F (box_expr B g e).2) as [Ht' Hs].
    { destruct Hty as [Hue|Hty]; [|destruct (H B F Γ Γ' g t Hty Hb HB HΓ); auto].
      split; [congruence|]. by destruct e. }
    destruct (box_expr B g e) as [g1 e']. cbn in *. unfold box_var at 1 2.
    split; [|split; [|by apply (out_env_box_var B Γ Γ' x t e' e s s)]].
    + case_decide; [|cbn; by rewrite Hu]. destruct (negb _ && _) eqn:Hi; cbn.
      * apply andb_prop in Hi as [_ Hi]. congruence.
      * intros _. split; [|done]. destruct (is_undefined e) eqn:Hue; [|auto].
        rewrite andb_comm, Hu in Hi. cbn in Hi. apply negb_false_iff, bool_decide_eq_true in Hi as ->.
        destruct e'; try done. by destruct l.
    + case_decide; [destruct (negb _ && _)|]; cbn; auto.
  - intros B F Γ Γ' g ret Ht Hb HB HΓ. cbn in *. rewrite box_list_snd. cbn.
    assert (∀ P Q R : Prop, P ∧ Q → R → P ∧ Q ∧ R) as Hand by tauto. apply Hand; [|done]. clear Hand.
    pose proof (box_list_Forall2 (box_stmt B) g ss) as Hss.
    generalize dependent (box_list (box_stmt B) g ss).2. intros ss' Hss.
    revert Γ Γ' Ht HΓ. induction Hss as [|st st' ss ss' [g1 ->] _ IH]; intros Γ Γ' Ht HΓ; cbn in *; [done|].
    apply Forall_cons in H as [Hst H]. destruct Ht as [Ht Hts], Hb as [Hb Hbs].
    destruct (Hst B F Γ Γ' g1 ret) as (? & ? & Ho); [done..|].
    destruct (IH H Hbs _ _ Hts Ho). auto.
  - intros B F Γ Γ' g ret (Ht & H1' & H2') (Hb & Hb1 & Hb2) HB HΓ. cbn in *. box_open. box_open_stmt. auto.
  - intros B F Γ Γ' g ret Ht Hb HB HΓ. cbn in *. box_open_stmt. auto.
  - intros B F Γ Γ' g ret ((t & Ht & Hi) & Hx & Hty) (HxB & HxF & Hc & Hb & Hb') HB HΓ. cbn in *. box_open.
    pose proof (boxed_env_insert B Γ Γ' x J.Any Hc HxB HΓ). box_open_stmt.
    split; [|auto]. split; [eauto|]. split; [|done]. intros _. destruct (HΓ x J.Any) as [_ Hl]; [auto|].
    by rewrite decide_False in Hl.
  - intros B F Γ Γ' g ret Ht Hb HB HΓ. cbn in *. box_open_stmt. auto.
  - intros B F Γ Γ' g ret (Ht & Ht') (HxB & HxF & Hc & Hb & Hb') HB HΓ. cbn in *.
    pose proof (boxed_env_insert B Γ Γ' x J.Any Hc HxB HΓ). box_open_stmt. auto.
  - intros B F Γ Γ' g ret (Ht & Ht') (Hb & Hb') HB HΓ. cbn in *. box_open_stmt. auto.
Qed.

(** ** [collect_assigns] keeps the typing *)
Lemma is_undefined_annotate e : is_undefined (annotate e) = is_undefined e.
Proof. by destruct e. Qed.
Lemma declared_annotate st : declared (annotate_stmt st) = declared st.
Proof.
  revert st. apply (Stmt_ind' (λ _, True) (λ _, True) (λ _, True) (λ st, declared (annotate_stmt st) = declared st)).
  constructor; try done; intros; cbn; try congruence.
  induction H as [|st ss Hst _ IH]; cbn; congruence.
Qed.
Lemma out_env_annotate Γ st : out_env Γ (annotate_stmt st) = out_env Γ st.
Proof. by destruct st. Qed.

Lemma all_map {A B} (P : B → Prop) (f : A → B) l : all P (map f l) ↔ all (λ x, P (f x)) l.
Proof. induction l as [|x l IH]; cbn; [done|]. by rewrite IH. Qed.
Lemma args_typed_map b (P : Expr → J.typ → Prop) (f : Expr → Expr) es ts :
  args_typed b (λ e t, P (f e) t) es ts → args_typed b P (map f es) ts.
Proof. revert ts. induction es as [|e es IH]; intros [|t ts]; cbn; naive_solver. Qed.

Lemma annotate_typed strict :
  (∀ e Γ t, expr_typed strict e Γ t → expr_typed strict (annotate e) Γ t) ∧
  (∀ lv, lvalue_parts (λ e, ∀ Γ t, expr_typed strict e Γ t → expr_typed strict (annotate e) Γ t) lv) ∧
  (∀ f Γ t, func_typed strict f Γ t → func_typed strict (annotate_func f) Γ t) ∧
  (∀ st Γ ret, stmt_typed strict st ret Γ → stmt_typed strict (annotate_stmt st) ret Γ).
Proof.
  apply syntax_ind. constructor; intros; cbn in *; try done; destruct_ex; subst; split_and?; eauto.
  - apply all_map. eapply all_mono; [|done]. eapply Forall_impl; [done|]. cbn. naive_solver.
  - apply all_map. eapply all_mono; [|done]. eapply Forall_impl; [done|]. cbn. naive_solver.
  - destruct lv; cbn in *; destruct_ex; eauto.
  - eexists. split; [eauto|]. apply args_typed_map. eapply args_typed_mono; [|done].
    eapply Forall_impl; [done|]. cbn. eauto.
  - eexists. rewrite length_map. split_and!; [eauto..|]. apply args_typed_map. eapply args_typed_mono; [|done].
    eapply Forall_impl; [done|]. cbn. eauto.
  - eexists. split; [eauto|]. apply args_typed_map. eapply args_typed_mono; [|done].
    eapply Forall_impl; [done|]. cbn. eauto.
  - apply all_map. eapply all_mono; [|done]. eapply Forall_impl; [done|]. cbn. naive_solver.
  - rewrite declared_annotate. auto.
  - rewrite is_undefined_annotate. auto.
  - revert Γ H0. induction H as [|st ss Hst _ IH]; intros Γ Hss; cbn in *; [done|].
    destruct Hss. rewrite out_env_annotate. auto.
Qed.

(** ** The analyses establish what boxing needs

    The variables of [catch] and [for..in] are the exception: the analyses do not
    treat them as declarations.  [binders_ok B F] says that they are not
    boxed and hide no free variable, and that no name looks like a fresh one. *)
Fixpoint binders_ok (B F : gset Id) (e : Expr) : Prop :=
  match e with
  | ELit _ _ | EId _ _ _ | EEnvGet _ _ _ => True
  | EFunc f _ => binders_ok_func B f
  | EJsOp _ es _ _ | EArray es _ | EPrimCall _ es _ => all (binders_ok B F) es
  | EObject kvs _ => all (λ kv, binders_ok B F kv.2) kvs
  | ECoercion _ e _ | EDot e _ _ | EUnary _ e _ | ENewRef e _ _ | EDeref e _ _ | ELength e _ _ => binders_ok B F e
  | EAssign lv e _ => binders_ok_lval B F lv ∧ binders_ok B F e
  | ECall e es _ | EMethodCall e _ es _ _ => binders_ok B F e ∧ all (binders_ok B F) es
  | EBracket e1 e2 _ _ | EBinary _ e1 e2 _ | EStore e1 e2 _ _ => binders_ok B F e1 ∧ binders_ok B F e2
  | EClosure _ env _ => all (λ et, binders_ok B F et.1) env
  end
with binders_ok_lval (B F : gset Id) (lv : LValue) : Prop :=
  match lv with
  | LId x _ => True
  | LDot e _ => binders_ok B F e
  | LBracket e1 e2 _ => binders_ok B F e1 ∧ binders_ok B F e2
  end
with binders_ok_func (B : gset Id) (f : Func) : Prop :=
  match f with
  | mkFunc r args b fv afc => Forall clean (map fst args) ∧ binders_ok_stmt (B ∪ afc) (dom fv) b
  end
with binders_ok_stmt (B F : gset Id) (st : Stmt) : Prop :=
  match st with
  | SEmpty | SBreak _ _ => True
  | SLabel _ b _ | SLoop b _ => binders_ok_stmt B F b
  | SFinally s1 s2 _ => binders_ok_stmt B F s1 ∧ binders_ok_stmt B F s2
  | SCatch s1 x s2 _ => x ∉ B ∧ x ∉ F ∧ clean x ∧ binders_ok_stmt B F s1 ∧ binders_ok_stmt B F s2
  | SBlock ss _ => all (binders_ok_stmt B F) ss
  | SVar x _ e _ => clean x ∧ binders_ok B F e
  | SThrow e _ | SReturn e _ | SExpr e _ => binders_ok B F e
  | SForIn x e b _ => x ∉ B ∧ x ∉ F ∧ clean x ∧ binders_ok B F e ∧ binders_ok_stmt B F b
  | SIf c s1 s2 _ => binders_ok B F c ∧ binders_ok_stmt B F s1 ∧ binders_ok_stmt B F s2
  end.

Lemma binders_ok_catch B F st x : binders_ok_stmt B F (annotate_stmt st) → x ∈ catch_binders st → x ∉ B.
Proof.
  revert B F. assert (∀ st B F, binders_ok_stmt B F (annotate_stmt st) → x ∈ catch_binders st → x ∉ B) as H; [|eauto].
  apply (Stmt_ind' (λ _, True) (λ _, True) (λ _, True)
    (λ st, ∀ B F, binders_ok_stmt B F (annotate_stmt st) → x ∈ catch_binders st → x ∉ B)).
  constructor; try done; intros; cbn in *; destruct_ex;
    repeat match goal with H : x ∈ _ ∪ _ |- _ => apply elem_of_union in H as [?|?] end; try set_solver; eauto.
  revert H0 H1. induction H as [|st1 ss Hst _ IH]; cbn; [set_solver|].
  intros [? ?] [?|?]%elem_of_union; eauto.
Qed.

Lemma union_of_subseteq {A} (f : A → gset Id) l (D : gset Id) : union_of f l ⊆ D ↔ all (λ x, f x ⊆ D) l.
Proof. induction l as [|x l IH]; cbn; [set_solver|]. by rewrite union_subseteq, IH. Qed.
Lemma declared_subseteq ss (P : Id → Prop) :
  (∀ x, x ∈ declared (SBlock ss Unknown) → P x) → all (λ st, ∀ x, x ∈ declared st → P x) ss.
Proof. cbn. induction ss as [|st ss IH]; cbn; [done|]. intros H. split; [|apply IH]; intros; apply H; set_solver. Qed.

Lemma all_lift {A} (P Q0 Q1 Q2 Q3 R : A → Prop) l :
  Forall (λ x, P x → Q0 x → Q1 x → Q2 x → Q3 x → R x) l →
  all P l → all Q0 l → all Q1 l → all Q2 l → all Q3 l → all R l.
Proof. induction 1; cbn; [done|]. intros [? ?] [? ?] [? ?] [? ?] [? ?]. auto. Qed.

(** [B], the boxed variables, contain what is assigned in and free in a function of
    the surrounding function; likewise for its free variables [F]. *)
Definition box_bounds (B F A C : gset Id) : Prop := A ∩ C ⊆ B ∧ F ∩ A ⊆ B.
Definition boxable_ok (e : Expr) : Prop := ∀ B F A C,
  box_bounds B F A C → in_expr source_node fv_ok e → selves e → binders_ok B F (annotate e) →
  assigned e ⊆ A → child_free e ⊆ C → boxable B F (annotate e).
Definition boxable_func_ok (f : Func) : Prop := ∀ B F A C,
  box_bounds B F A C → in_func source_node fv_ok f → in_func (λ _, True) self_typed f → binders_ok_func B (annotate_func f) →
  gather_func own_assigned true f ⊆ A → dom (K.free_vars f) ⊆ C → boxable_func B (annotate_func f).
Definition boxable_stmt_ok (st : Stmt) : Prop := ∀ B F A C,
  box_bounds B F A C → in_stmt source_node fv_ok st → selves_stmt st → binders_ok_stmt B F (annotate_stmt st) →
  assigned_stmt st ⊆ A → child_free_stmt st ⊆ C → (∀ x, x ∈ declared st → x ∉ F) →
  boxable_stmt B F (annotate_stmt st).

Lemma boxable_function r args b fv afc : boxable_stmt_ok b → boxable_func_ok (mkFunc r args b fv afc).
Proof.
  intros IH B F A C [HAC _] [[Hdisj Hcf] Hin] [Hself Hselves] [Hc Hbind] HA HC. cbn in *.
  unfold params, arg_names in *. cbn in *. rewrite declared_annotate.
  split; [|split; [|split; [done|split]]].
  - intros x [Hcx Hax]%elem_of_intersection HB.
    pose proof (Hcf x Hcx) as Hx. rewrite !elem_of_union, elem_of_list_to_set in Hx.
    destruct Hx as [[[Hx|Hx]|Hx]|Hx]; [|auto..|].
    + destruct HB. apply HAC, elem_of_intersection. auto.
    + exfalso. eapply binders_ok_catch; [exact Hbind|exact Hx|]. by apply elem_of_union_r, elem_of_intersection.
  - intros x Hx. rewrite <- (elem_of_list_to_set (C:=gset Id)), <- not_elem_of_union.
    intros Hd. exact (proj1 (elem_of_disjoint _ _) Hdisj _ Hx Hd).
  - unfold self_typed in *. cbn in *. destruct Hself as (Hb & Hs & Heq).
    split; [|done]. by apply (proj2 (proj2 (proj2 (annotate_typed true)))).
  - eapply (IH _ _ (assigned_stmt b) (child_free_stmt b)); [|done|done|done|done|done|].
    + split; [intros x [? ?]%elem_of_intersection; by apply elem_of_union_r, elem_of_intersection|]. intros x [Hx Ha]%elem_of_intersection. apply elem_of_union_l, HAC, elem_of_intersection. auto.
    + intros x Hx Hf. apply (proj1 (elem_of_disjoint _ _) Hdisj _ Hf). by apply elem_of_union_l.
Qed.

Lemma boxable_list B F A C (HB : box_bounds B F A C) {X} (π : X → Expr) (h : X → X) l :
  (∀ x, π (h x) = annotate (π x)) →
  Forall (λ x, boxable_ok (π x)) l → all (λ x, in_expr source_node fv_ok (π x)) l →
  all (λ x, selves (π x)) l → all (λ x, binders_ok B F (π x)) (map h l) →
  all (λ x, assigned (π x) ⊆ A) l → all (λ x, child_free (π x) ⊆ C) l →
  all (λ x, boxable B F (π x)) (map h l).
Proof.
  intros Hh H. rewrite !all_map. apply all_lift. eapply Forall_impl; [done|]. cbn.
  intros x Hx ? ? Hbind ? ?. rewrite Hh in *. by apply (Hx B F A C HB).
Qed.

Ltac boxable_parts :=
  split_and?; try assumption;
  repeat match goal with
  | H : boxable_ok ?e, HB : box_bounds ?B ?F ?A ?C |- boxable ?B ?F (annotate ?e) =>
      apply (H B F A C HB); assumption
  | H : boxable_func_ok ?f, HB : box_bounds ?B ?F ?A ?C |- boxable_func ?B (annotate_func ?f) =>
      apply (H B F A C HB); assumption
  | H : boxable_stmt_ok ?st, HB : box_bounds ?B ?F ?A ?C |- boxable_stmt ?B ?F (annotate_stmt ?st) =>
      apply (H B F A C HB); [assumption..|]
  end; try (intros ? ?; match goal with Hd : ∀ x, x ∈ _ → x ∉ ?F |- _ ∉ ?F => apply Hd end; set_solver).

Lemma boxable_walk :
  (∀ e, boxable_ok e) ∧ (∀ lv, lvalue_parts boxable_ok lv) ∧ (∀ f, boxable_func_ok f) ∧ (∀ st, boxable_stmt_ok st).
Proof.
  apply syntax_ind. constructor; intros; try done; try (by apply boxable_function);
    try (intros B F A C HB Hin Hself Hbind HA HC); try (intros Hd); cbn in *; destruct_ex; try done;
    repeat match goal with H : _ ∪ _ ⊆ _ |- _ => apply union_subseteq in H as [? ?] end;
    boxable_parts.
  - rewrite union_of_subseteq in *. by apply (boxable_list B F A C HB id).
  - rewrite union_of_subseteq in *. by apply (boxable_list B F A C HB snd (λ kv, (kv.1, annotate kv.2))).
  - rewrite union_of_subseteq in *. by apply (boxable_list B F A C HB id).
  - destruct lv as [x ty|e1 x|e1 e2 ty]; cbn in *; destruct_ex;
      repeat match goal with H : _ ∪ _ ⊆ _ |- _ => apply union_subseteq in H as [? ?] end; boxable_parts.
    intros HF. destruct HB as [_ HFA]. apply HFA, elem_of_intersection. split; [done|].
    match goal with H : {[ x ]} ⊆ A |- _ => by apply H, elem_of_singleton end.
  - rewrite union_of_subseteq in *. by apply (boxable_list B F A C HB id).
  - rewrite union_of_subseteq in *. by apply (boxable_list B F A C HB id).
  - rewrite union_of_subseteq in *. by apply (boxable_list B F A C HB id).
  - by apply Hd, elem_of_singleton.
  - rewrite union_of_subseteq in HA, HC. rewrite all_map in *. apply (declared_subseteq ss (λ x, x ∉ F)) in Hd.
    revert Hin Hself Hbind HA HC Hd. clear -H HB. induction H as [|st ss Hst _ IH]; cbn; [done|].
    intros [? ?] [? ?] [? ?] [? ?] [? ?] [? ?]. split; [|by apply IH]. by apply (Hst B F A C HB).
Qed.

(** ** Properties *)

Lemma global_env_clean x t : global_env !! x = Some t → clean x.
Proof.
  unfold global_env. intros Hx%elem_of_list_to_map_2%list_elem_of_In%in_rev%in_map_iff.
  destruct Hx as (kv & [= <- _] & _). intros i. done.
Qed.

Lemma box_program p :
  in_stmt source_node fv_ok p → selves_stmt p → program_typed true p →
  let B := child_free_stmt p ∩ assigned_stmt p in
  binders_ok_stmt B ∅ (annotate_stmt p) → B ⊆ declared p →
  program_typed true (box_assigns (annotate_stmt p) B) ∧ settled_stmt ∅ (box_assigns (annotate_stmt p) B).
Proof.
  intros Hin Hself Hty B Hbind HB. unfold program_typed, box_assigns in *.
  rewrite declared_box, declared_annotate.
  assert (boxable_stmt B ∅ (annotate_stmt p)) as Hbox.
  { apply (proj2 (proj2 (proj2 boxable_walk)) p B ∅ (assigned_stmt p) (child_free_stmt p)); try done.
    split; [|by rewrite (left_absorb_L ∅ (∩))]. by rewrite (comm_L (∩)). }
  edestruct (proj2 (proj2 (proj2 box_walk)) (annotate_stmt p) B ∅
    (hide true global_env (declared p)) (hide true global_env (declared p)) (∅ : NameGen.t) None) as (? & ? & _); [| | | |split; done].
  - apply annotate_typed. exact Hty.
  - done.
  - intros x Hx. apply (boxable_declared_clean B ∅ (annotate_stmt p)); [done|].
    rewrite declared_annotate. auto.
  - intros x t Hx. apply lookup_hide in Hx as Hx'. destruct Hx' as [Hg Hn].
    split; [by eapply global_env_clean|]. rewrite decide_False; [done|auto].
Qed.

(** C34: boxing keeps a program well typed.  The program carries the free variables
    of its functions, and [B] and its annotations come from [collect_assigns];
    the variables of [catch] and [for..in] are not among the boxed ones, the
    boxed variables of the global scope are declared by the program, and no name
    looks like a fresh one.  Afterwards no function assigns to one of its free
    variables any more. *)
Theorem box_assigns_correct p p1 B :
  in_stmt source_node fv_ok p → selves_stmt p → program_typed true p →
  collect_assigns p = Ok (B, p1) → binders_ok_stmt B ∅ p1 → B ⊆ declared p →
  program_typed true (box_assigns p1 B) ∧ settled_stmt ∅ (box_assigns p1 B).
Proof. rewrite collect_assigns_eq. intros Hin Hself Hty [= <- <-]. by apply box_program. Qed.

(** The program [counter] with its free variables. *)
Definition counter_fv : Stmt :=
  let n := EId (Named "n") J.Int Unknown in
  let fv : IdMap := {[ Named "n" := J.Int ]} in
  let thunk := J.Function [] J.Int in
  let inner := EFunc (mkFunc J.Int [] (SBlock [SReturn n Unknown] Unknown) fv ∅) Unknown in
  SBlock
    [SVar (Named "n") J.Int (ELit (LNum (NInt 1)) Unknown) Unknown;
     SVar (Named "f") thunk
       (EFunc (mkFunc J.Int []
          (SBlock [SExpr (EAssign (LId (Named "n") J.Int) (ELit (LNum (NInt 2)) Unknown) Unknown) Unknown;
                   SReturn (ECall inner [] Unknown) Unknown] Unknown) fv ∅) Unknown) Unknown] Unknown.
Example counter_free_vars : FreeVars.free_vars counter = Ok (∅, counter_fv).
Proof. by vm_compute. Qed.
Lemma counter_ok : in_stmt source_node fv_ok counter_fv ∧ selves_stmt counter_fv ∧ program_typed true counter_fv.
Proof.
  destruct (free_vars_ok counter) as (m & p' & Hf & _ & Hty & Hin & Hself & _); [cbn; tauto|exact counter_typed|].
  rewrite counter_free_vars in Hf. by simplify_eq.
Qed.
Lemma box_assigns_correct_witness :
  ∃ p1 B, collect_assigns counter_fv = Ok (B, p1) ∧
    program_typed true (box_assigns p1 B) ∧ settled_stmt ∅ (box_assigns p1 B).
Proof.
  exists (annotate_stmt counter_fv), (child_free_stmt counter_fv ∩ assigned_stmt counter_fv).
  split; [apply collect_assigns_eq|].
  apply (box_assigns_correct counter_fv);
    [exact (proj1 counter_ok)|exact (proj1 (proj2 counter_ok))|exact (proj2 (proj2 counter_ok))|apply collect_assigns_eq| |].
  - cbn. by repeat constructor.
  - cbn. rewrite dom_singleton_L. clear. set_solver.
Defined.
