(* ===== verification/ClosureConvert.v ===== *)
(** Closure conversion ([jankyscript/closure_convert.rs]) and the pipeline it ends
    ([jankyscript/compile.rs]). *)
From S2P Require Import Prelude Types Coercions Operators JankySyntax JankyTyping JankyWalk InsertReturns.
From S2P Require Import Selection FreeVars BoxAssigns.
Import K.

(** ** The pass

    The stack has its top first.  An index is the position of a variable in the
    iteration over [free_vars]; a function has fewer than [2^32] free variables. *)
Definition indices (fv : IdMap) : gmap Id Z :=
  list_to_map (imap (λ i kv, (kv.1, Z.of_nat i)) (map_to_list fv)).

(** [compile_id]: [free_vars] is the top of the stack. *)
Definition compile_id (top : gmap Id Z) (x : Id) (ty : J.typ) (s : Pos) : option Expr :=
  i ← top !! x; Some (EEnvGet i ty s).

Definition convert_enter_fn (stack : list (gmap Id Z)) (f : Func) : comp never (list (gmap Id Z)) :=
  Ok (indices (K.free_vars f) :: stack).
Definition convert_exit_expr (stack : list (gmap Id Z)) (e : Expr) : comp never (list (gmap Id Z) * Expr) :=
  match e with
  | EId x ty s =>
      top ← expect "called unwrap on a None value" (head stack);
      Ok (stack, match compile_id top x ty s with Some e => e | None => e end)
  | EFunc f s =>
      let stack := tail stack in
      env ← mapM (λ '(x, ty),
                    top ← expect "called unwrap on a None value" (head stack);
                    Ok (match compile_id top x ty s with
                        | Some e => (e, ty)
                        | None => (EId x ty s, ty)
                        end)) (map_to_list (K.free_vars f));
      Ok (stack, EClosure f env s)
  | _ => Ok (stack, e)
  end.
Definition ClosureConversion : Visitor (list (gmap Id Z)) :=
  mkVisitor convert_enter_fn exit_nothing convert_exit_expr exit_nothing.
Definition closure_convert (program : Stmt) : comp never Stmt :=
  '(_, st) ← walk ClosureConversion [∅] program; Ok st.

(** ** The pipeline

    [typeinf], which asks the Z3 solver for the types, is an argument. *)
Definition no_error {E A} (m : comp never A) : comp E A :=
  match m with Ok a => Ok a | Err e => match e with end | Panic msg => Panic msg end.
Definition convert_closures (janky_ast : Stmt) : comp never Stmt :=
  '(_, janky_ast) ← FreeVars.free_vars janky_ast;
  '(should_box_globals, janky_ast) ← collect_assigns janky_ast;
  closure_convert (box_assigns janky_ast should_box_globals).
Definition compile (typeinf : Stmt → comp never Stmt) (janky_ast : Stmt) : comp TypeCheckingError Stmt :=
  janky_ast ← no_error (insert_returns janky_ast);
  janky_ast ← no_error (typeinf janky_ast);
  janky_ast ← no_error (select_method_call janky_ast);
  janky_ast ← no_error (reify_coercions janky_ast);
  type_check janky_ast;;
  janky_ast ← no_error (convert_closures janky_ast);
  type_check janky_ast;;
  Ok janky_ast.

(** ** Environments at run time

    [E] lists the types of the slots of the current environment and [Δ] the types of the
    variables of the current function.  Every access reads a slot of its type,
    every identifier is a variable of the function itself, every function is a
    closure, and its body finds everything in the environment that is
    built for it and in its parameters. *)
Fixpoint env_ok (E : list J.typ) (Δ : Env) (e : Expr) : Prop :=
  match e with
  | ELit _ _ => True
  | EId x t _ => Δ !! x = Some t
  | EEnvGet i t _ => 0 <= i ∧ E !! Z.to_nat i = Some t
  | EFunc _ _ => False
  | EJsOp _ es _ _ | EArray es _ | EPrimCall _ es _ => all (env_ok E Δ) es
  | EObject kvs _ => all (λ kv, env_ok E Δ kv.2) kvs
  | ECoercion _ e _ | EDot e _ _ | EUnary _ e _ | ENewRef e _ _ | EDeref e _ _ | ELength e _ _ => env_ok E Δ e
  | EAssign lv e _ => env_ok_lval E Δ lv ∧ env_ok E Δ e
  | ECall e es _ | EMethodCall e _ es _ _ => env_ok E Δ e ∧ all (env_ok E Δ) es
  | EBracket e1 e2 _ _ | EBinary _ e1 e2 _ | EStore e1 e2 _ _ => env_ok E Δ e1 ∧ env_ok E Δ e2
  | EClosure f env _ => all (λ et, env_ok E Δ et.1) env ∧ env_ok_func (map snd env) f
  end
with env_ok_lval (E : list J.typ) (Δ : Env) (lv : LValue) : Prop :=
  match lv with
  | LId x t => Δ !! x = Some t
  | LDot e _ => env_ok E Δ e
  | LBracket e1 e2 _ => env_ok E Δ e1 ∧ env_ok E Δ e2
  end
with env_ok_func (E : list J.typ) (f : Func) : Prop :=
  match f with mkFunc _ args b _ _ => env_ok_stmt E (insert_args ∅ args) b end
with env_ok_stmt (E : list J.typ) (Δ : Env) (st : Stmt) : Prop :=
  match st with
  | SEmpty | SBreak _ _ => True
  | SLabel _ b _ | SLoop b _ => env_ok_stmt E Δ b
  | SFinally s1 s2 _ => env_ok_stmt E Δ s1 ∧ env_ok_stmt E Δ s2
  | SCatch s1 x s2 _ => env_ok_stmt E Δ s1 ∧ env_ok_stmt E (<[x := J.Any]> Δ) s2
  | SBlock ss _ => stmts_typed (λ st Δ, env_ok_stmt E Δ st) ss Δ
  | SVar _ _ e _ | SThrow e _ | SReturn e _ | SExpr e _ => env_ok E Δ e
  | SForIn x e b _ => env_ok E Δ e ∧ env_ok_stmt E (<[x := J.Any]> Δ) b
  | SIf c s1 s2 _ => env_ok E Δ c ∧ env_ok_stmt E Δ s1 ∧ env_ok_stmt E Δ s2
  end.

(** ** Slots *)
Lemma indices_lookup fv x i :
  indices fv !! x = Some i → 0 <= i ∧ ∃ t, fv !! x = Some t ∧ map snd (map_to_list fv) !! Z.to_nat i = Some t.
Proof.
  intros H%elem_of_list_to_map_2. apply elem_of_lookup_imap in H as (n & [y t] & [= -> ->] & Hn).
  split; [lia|]. exists t. rewrite Nat2Z.id, list_lookup_fmap, Hn. split; [|done].
  apply elem_of_map_to_list. by eapply list_elem_of_lookup_2.
Qed.
Lemma indices_dom fv : dom (indices fv) = dom fv.
Proof.
  unfold indices. rewrite dom_list_to_map_L. apply set_eq. intros x.
  rewrite elem_of_list_to_set, list_elem_of_fmap, elem_of_dom. split.
  - intros ([y i] & -> & Hin). apply elem_of_lookup_imap in Hin as (n & [z t] & [= -> ->] & Hn).
    exists t. apply elem_of_map_to_list. by eapply list_elem_of_lookup_2.
  - intros [t Ht]. apply elem_of_map_to_list, list_elem_of_lookup in Ht as [n Hn].
    exists (x, Z.of_nat n). split; [done|]. apply elem_of_lookup_imap. by exists n, (x, t).
Qed.

(** What the variables of an environment [Γ] are after the conversion: those with an
    index are slots, the others are still variables. *)
Definition slots (m : gmap Id Z) (E : list J.typ) (Γ Δ : Env) : Prop :=
  ∀ x t, Γ !! x = Some t →
    match m !! x with Some i => 0 <= i ∧ E !! Z.to_nat i = Some t | None => Δ !! x = Some t end.

Lemma slots_insert m E Γ Δ x t : x ∉ dom m → slots m E Γ Δ → slots m E (<[x := t]> Γ) (<[x := t]> Δ).
Proof.
  intros Hx%not_elem_of_dom H y u. rewrite !lookup_insert. case_decide as Hy; [|apply H].
  intros [= <-]. subst. by rewrite Hx.
Qed.
Lemma slots_out_env m E F Γ Δ st :
  settled_stmt F st → F = dom m → slots m E Γ Δ → slots m E (out_env Γ st) (out_env Δ st).
Proof. intros Hs ->. destruct st; cbn in *; try done. destruct Hs. by apply slots_insert. Qed.

(** ** The conversion keeps typing and sets up the environments *)
Notation CC := ClosureConversion.
Definition conv_expr_ok (e : Expr) : Prop := ∀ m stk E Γ Δ t,
  expr_typed true e Γ t → settled (dom m) e → slots m E Γ Δ →
  ∃ e', walk_expr CC (m :: stk) e = Ok (m :: stk, e') ∧
    expr_typed true e' Γ t ∧ env_ok E Δ e' ∧ is_undefined e' = is_undefined e.
Definition conv_func_ok (f : Func) : Prop := ∀ stk Γ t,
  func_typed true f Γ t → settled_func f →
  ∃ f', walk_func CC stk f = Ok (indices (K.free_vars f) :: stk, f') ∧
    func_typed true f' Γ t ∧ env_ok_func (map snd (map_to_list (K.free_vars f))) f' ∧
    K.free_vars f' = K.free_vars f.
Definition conv_stmt_ok (st : Stmt) : Prop := ∀ m stk E Γ Δ ret,
  stmt_typed true st ret Γ → settled_stmt (dom m) st → slots m E Γ Δ →
  ∃ st', walk_stmt CC (m :: stk) st = Ok (m :: stk, st') ∧
    stmt_typed true st' ret Γ ∧ env_ok_stmt E Δ st' ∧ declared st' = declared st ∧
    ∀ Γ, out_env Γ st' = out_env Γ st.

Section conv_lists.
Variables (m : gmap Id Z) (stk : list (gmap Id Z)) (E : list J.typ) (Γ Δ : Env).
Hypothesis HΓ : slots m E Γ Δ.

Lemma conv_args es ts :
  Forall conv_expr_ok es → all (settled (dom m)) es →
  args_typed true (λ e t, expr_typed true e Γ t) es ts →
  ∃ es', mapSM (walk_expr CC) (m :: stk) es = Ok (m :: stk, es') ∧
    args_typed true (λ e t, expr_typed true e Γ t) es' ts ∧ all (env_ok E Δ) es' ∧ length es' = length es.
Proof.
  intros H. revert ts. induction H as [|e es He _ IH]; intros [|t ts] Hs Ha; cbn in *; try done; [by exists []|].
  destruct Hs as [Hs Hss], Ha as [Ha Has].
  destruct (He m stk E Γ Δ t Ha Hs HΓ) as (e' & -> & ? & ? & _), (IH ts Hss Has) as (es' & Hw & ? & ? & Hl).
  exists (e' :: es'). cbn. rewrite Hw. cbn. auto.
Qed.
Lemma conv_any {A} (π : A → Expr) (upd : A → Expr → A) f l :
  (∀ x e, π (upd x e) = e) → (∀ s x, f s x = '(s, e) ← walk_expr CC s (π x); Ok (s, upd x e)) →
  Forall (λ x, conv_expr_ok (π x)) l → all (λ x, settled (dom m) (π x)) l →
  all (λ x, ∃ t, expr_typed true (π x) Γ t) l →
  ∃ l', mapSM f (m :: stk) l = Ok (m :: stk, l') ∧
    all (λ x, ∃ t, expr_typed true (π x) Γ t) l' ∧ all (λ x, env_ok E Δ (π x)) l'.
Proof.
  intros Hπ Hf. induction 1 as [|x l Hx _ IH]; cbn; [by exists []|]. intros [Hs Hss] [[t Ht] Hts]. rewrite Hf.
  destruct (Hx m stk E Γ Δ t Ht Hs HΓ) as (e' & -> & ? & ? & _), (IH Hss Hts) as (l' & Hw & ? & ?).
  exists (upd x e' :: l'). cbn. rewrite Hw. cbn. rewrite !Hπ. split_and!; eauto.
Qed.
Lemma conv_stmts ss ret :
  Forall conv_stmt_ok ss → ∀ Γ Δ, slots m E Γ Δ → all (settled_stmt (dom m)) ss →
  stmts_typed (λ st Γ, stmt_typed true st ret Γ) ss Γ →
  ∃ ss', mapSM (walk_stmt CC) (m :: stk) ss = Ok (m :: stk, ss') ∧
    stmts_typed (λ st Γ, stmt_typed true st ret Γ) ss' Γ ∧
    stmts_typed (λ st Δ, env_ok_stmt E Δ st) ss' Δ ∧
    declared (SBlock ss' Unknown) = declared (SBlock ss Unknown).
Proof.
  clear HΓ. induction 1 as [|st ss Hst _ IH]; intros Γ' Δ' HΓ Hs Ht; cbn in *; [by exists []|].
  destruct Hs as [Hs Hss], Ht as [Ht Hts].
  destruct (Hst m stk E Γ' Δ' ret Ht Hs HΓ) as (st' & -> & ? & ? & Hd & Ho).
  destruct (IH (out_env Γ' st) (out_env Δ' st)) as (ss' & Hw & ? & ? & Hds);
    [by eapply slots_out_env|done|done|].
  exists (st' :: ss'). cbn. rewrite Hw. cbn. rewrite !Ho. split_and!; [done..|]. congruence.
Qed.

(** The environment of a new closure. *)
Lemma conv_env fv s :
  fv ⊆ Γ →
  ∃ env, mapM (λ '(x, ty),
      top ← expect (E := never) "called unwrap on a None value" (head (m :: stk));
      Ok (match compile_id top x ty s with Some e => (e, ty) | None => (EId x ty s, ty) end)) (map_to_list fv) = Ok env ∧
    all (λ et, expr_typed true et.1 Γ et.2) env ∧ all (λ et, env_ok E Δ et.1) env ∧
    map snd env = map snd (map_to_list fv).
Proof.
  intros Hfv. assert (∀ x t, (x, t) ∈ map_to_list fv → Γ !! x = Some t) as Hin.
  { intros x t Hx. eapply lookup_weaken; [|done]. by apply elem_of_map_to_list. }
  induction (map_to_list fv) as [|[x t] l IH]; cbn; [by exists []|].
  destruct IH as (env & Hw & ? & ? & Hm); [intros; apply Hin; by right|]. cbn in Hw. rewrite Hw. cbn.
  pose proof (Hin x t ltac:(by left)) as Hx. pose proof (HΓ x t Hx) as Hsl. unfold compile_id.
  destruct (m !! x); cbn; eexists; (split; [done|]); cbn; rewrite Hm; auto.
Qed.
End conv_lists.

Lemma slots_outer fv b args Γ :
  fv ⊆ Γ → (∀ x, x ∈ dom fv → x ∉ declared b ∧ x ∉ map fst args) →
  let Γ1 := insert_args (hide true Γ (declared b)) args in
  slots (indices fv) (map snd (map_to_list fv)) Γ1 Γ1.
Proof.
  intros Hsub Hfv Γ1 x t Hx. destruct (indices fv !! x) as [i|] eqn:Hi; [|done].
  apply indices_lookup in Hi as (? & u & Hu & Hs). split; [done|]. rewrite Hs.
  destruct (Hfv x ltac:(by eapply elem_of_dom_2)) as [Hd Ha]. unfold Γ1 in Hx.
  rewrite lookup_insert_args in Hx by done. apply lookup_hide in Hx as [Hx _].
  pose proof (lookup_weaken _ _ _ _ Hu Hsub). congruence.
Qed.
Lemma slots_own fv b args :
  NoDup (map fst args) → (∀ x, x ∈ dom fv → x ∉ declared b ∧ x ∉ map fst args) →
  slots (indices fv) (map snd (map_to_list fv)) (insert_args (hide true fv (declared b)) args) (insert_args ∅ args).
Proof.
  intros Hnd Hfv x t Hx. pose proof (slots_outer fv b args fv ltac:(done) Hfv x t Hx) as Hsl.
  destruct (indices fv !! x) as [i|] eqn:Hi; [done|]. destruct (decide (x ∈ map fst args)) as [Hin|Hin].
  - apply in_map_fst in Hin as [u Hu]. rewrite (lookup_insert_args_in _ _ _ _ Hnd Hu) in Hx. simplify_eq.
    by apply lookup_insert_args_in.
  - rewrite lookup_insert_args in Hx by done. apply lookup_hide in Hx as [Hx _].
    apply not_elem_of_dom in Hi. rewrite indices_dom in Hi. by apply elem_of_dom_2 in Hx.
Qed.

Lemma conv_function r args b fv afc : conv_stmt_ok b → conv_func_ok (mkFunc r args b fv afc).
Proof.
  intros IH stk Γ t (Hb & Hs & ->) (Hfv & (Hb0 & _ & _) & Hset). destruct (Hs eq_refl) as [Hnd Hsub].
  rewrite <- (indices_dom fv) in Hset. cbn in Hb0.
  destruct (IH _ stk _ _ _ _ Hb Hset (slots_outer fv b args Γ Hsub Hfv)) as (b' & Hw & Ht & _ & Hd & _).
  destruct (IH _ stk _ _ _ _ Hb0 Hset (slots_own fv b args Hnd Hfv)) as (b'' & Hw' & _ & He & _).
  cbn. rewrite Hw in Hw'. simplify_eq. rewrite Hw. cbn. eexists. split; [done|]. cbn. by rewrite Hd.
Qed.

Ltac conv_open :=
  repeat match goal with
  | IH : conv_expr_ok ?e, Ht : expr_typed true ?e ?Γ ?t, Hs : settled (dom ?m) ?e, HΓ : slots ?m ?E ?Γ ?Δ
    |- context [walk_expr CC (?m :: ?stk) ?e] =>
      let e' := fresh "e'" in let Hw := fresh "Hw" in
      destruct (IH m stk E Γ Δ t Ht Hs HΓ) as (e' & Hw & ? & ? & ?); rewrite Hw; cbn in *; clear IH Hw
  | IH : conv_stmt_ok ?st, Ht : stmt_typed true ?st ?ret ?Γ, Hs : settled_stmt (dom ?m) ?st, HΓ : slots ?m ?E ?Γ ?Δ
    |- context [walk_stmt CC (?m :: ?stk) ?st] =>
      let st' := fresh "st'" in let Hw := fresh "Hw" in
      destruct (IH m stk E Γ Δ ret Ht Hs HΓ) as (st' & Hw & ? & ? & ? & ?); rewrite Hw; cbn in *; clear IH Hw
  end; cbn in *.

Lemma conv_walk :
  (∀ e, conv_expr_ok e) ∧ (∀ lv, lvalue_parts conv_expr_ok lv) ∧ (∀ f, conv_func_ok f) ∧ (∀ st, conv_stmt_ok st).
Proof.
  apply syntax_ind. constructor; intros; try done; try (by apply conv_function).
  all: try (intros ms stk E Γ Δ ty Ht Hs HΓ; cbn in *; destruct_ex; subst; conv_open; eexists; split; [done|]; cbn; split_and?; eauto 6; congruence).
  - intros ms stk E Γ Δ ty [Ht ->] Hs HΓ. cbn in *.
    destruct (conv_any ms stk E Γ Δ HΓ id (λ _ e, e) (walk_expr CC) es) as (es' & Hw & ? & ?); [done| |exact H|exact Hs|exact Ht|].
    { intros s1 e. cbn. by destruct (walk_expr CC s1 e) as [[]| |]. }
    rewrite Hw. cbn. eexists. split; [done|]. cbn. auto.
  - intros ms stk E Γ Δ ty [Ht ->] Hs HΓ. cbn in *.
    edestruct (conv_any ms stk E Γ Δ HΓ snd (λ (kv : Key * Expr) e, (kv.1, e))) as (kvs' & Hw & ? & ?); [| |exact H|exact Hs|exact Ht|]; [done|reflexivity|].
    rewrite Hw. cbn. eexists. split; [done|]. cbn. auto.
  - intros ms stk E Γ Δ ty [Ht ->] Hs HΓ. cbn in *. pose proof (HΓ _ _ Ht) as Hx. unfold compile_id.
    destruct (ms !! x); cbn; eexists; split; try done; cbn; auto.
  - intros ms stk E Γ Δ ty [].
  - intros ms stk E Γ Δ ty [Ht Hlv] [Hsl Hs] HΓ. cbn in *.
    destruct lv as [x t'|e1 x|e1 e2 t']; cbn in *; destruct_ex; conv_open; eexists; (split; [done|]); cbn; eauto 8.
    split_and!; auto. subst t'. match goal with Hx : Γ !! x = Some _ |- _ => pose proof (HΓ _ _ Hx) as Hsx end.
    apply not_elem_of_dom in Hsl. by rewrite Hsl in Hsx.
  - intros ms stk E Γ Δ ty (ts & Ht & Ha) [Hs Hss] HΓ. cbn in *. conv_open.
    destruct (conv_args ms stk E Γ Δ HΓ es ts) as (es' & Hw & ? & ? & _); [done..|].
    rewrite Hw. cbn. eexists. split; [done|]. cbn. eauto 6.
  - intros ms stk E Γ Δ ty (ts & Ht & Hg & Ha) [Hs Hss] HΓ. cbn in *. conv_open.
    destruct (conv_args ms stk E Γ Δ HΓ es ts) as (es' & Hw & ? & ? & Hl); [done..|].
    rewrite Hw. cbn. eexists. split; [done|]. cbn. rewrite Hl. eauto 8.
  - intros ms stk E Γ Δ ty (ts & Ht & Ha) Hss HΓ. cbn in *.
    destruct (conv_args ms stk E Γ Δ HΓ es ts) as (es' & Hw & ? & ? & _); [done..|].
    rewrite Hw. cbn. eexists. split; [done|]. cbn. eauto 6.
  - intros ms stk E Γ Δ ty Ht Hs HΓ. cbn in *.
    destruct (H (ms :: stk) Γ ty Ht Hs) as (f' & Hw & Ht' & He & Hfv). rewrite Hw. cbn [comp_bind mbind].
    assert (K.free_vars f ⊆ Γ) as Hsub by (destruct f; apply Ht; done).
    destruct (conv_env ms stk E Γ Δ HΓ (K.free_vars f) s Hsub) as (env & Hm & ? & ? & Hsnd).
    cbn. rewrite Hfv. cbn in Hm. rewrite Hm. cbn. eexists. split; [done|]. cbn. by rewrite Hsnd.
  - intros ms stk E Γ Δ ty _ [].
  - intros ms stk E Γ Δ ty _ [].
  - intros ms stk E Γ Δ ret Ht [Hx Hs] HΓ. cbn in *. destruct (is_undefined e) eqn:Hu.
    + destruct e as [[]| | | | | | | | | | | | | | | | | | | |]; try done. cbn. eexists. split; [done|]. cbn. auto.
    + specialize (Ht eq_refl). conv_open. eexists. split; [done|]. cbn. auto.
  - intros ms stk E Γ Δ ret Ht Hs HΓ. cbn in *.
    destruct (conv_stmts ms stk E ss ret H Γ Δ HΓ Hs Ht) as (ss' & Hw & ? & ? & Hd).
    rewrite Hw. cbn. eexists. split; [done|]. cbn. auto.
  - intros ms stk E Γ Δ ret ((t & Ht & Hi) & Hx & Hb) (HxF & Hs & Hsb) HΓ. cbn in *.
    pose proof (slots_insert _ _ _ _ x J.Any HxF HΓ) as HΓ'. conv_open. eexists. split; [done|]. cbn. eauto 10.
  - intros ms stk E Γ Δ ret (Ht & Hc) (HxF & Hs & Hsb) HΓ. cbn in *.
    pose proof (slots_insert _ _ _ _ x J.Any HxF HΓ) as HΓ'. conv_open. eexists. split; [done|]. cbn.
    split_and!; auto. congruence.
Qed.

Lemma slots_global Γ : slots ∅ [] Γ Γ.
Proof. intros x t Hx. by rewrite lookup_empty. Qed.
Lemma type_check_strict p : program_typed true p → type_check p = Ok tt.
Proof.
  intros H. unfold type_check.
  by erewrite (proj2 (proj2 (proj2 typing_complete))); [|exact H|apply (hide_subseteq true)].
Qed.
Lemma closure_convert_ok p :
  program_typed true p → settled_stmt ∅ p →
  ∃ p', closure_convert p = Ok p' ∧ program_typed true p' ∧ declared p' = declared p ∧
    env_ok_stmt [] (hide true global_env (declared p)) p'.
Proof.
  intros Hty Hs. rewrite <- (dom_empty_L (D := gset Id) (M := gmap Id) (A := Z)) in Hs.
  destruct (proj2 (proj2 (proj2 conv_walk)) p ∅ [] [] _ _ None Hty Hs (slots_global _)) as (p' & Hw & Ht & He & Hd & _).
  exists p'. unfold closure_convert, walk, program_typed. rewrite Hw, Hd. done.
Qed.

(** ** Properties *)

(** C33: closure conversion succeeds on the programs that boxing produces and
    keeps them well typed.  In the result every function is a closure; its body refers
    only to its own parameters and variables and to slots of the environment that is
    built where the closure is created, and a slot has the type with which it
    is read. *)
Theorem closure_convert_correct p :
  program_typed true p → settled_stmt ∅ p →
  ∃ p', closure_convert p = Ok p' ∧ program_typed true p' ∧
    env_ok_stmt [] (hide true global_env (declared p)) p'.
Proof. intros Hty Hs. destruct (closure_convert_ok p Hty Hs) as (p' & ? & ? & _ & ?). eauto. Qed.

(** C26: the passes between the two type checks of the compiler, composed.  From a
    strictly typed program of the source language, in which the variables of [catch]
    and [for..in] are neither captured and assigned nor hide a captured variable, and
    in which the boxed global variables are declared, they produce a program that
    passes the second type check and whose functions are closures with the
    environments their bodies need. *)
Theorem convert_closures_correct p :
  in_stmt source_node (λ _, True) p → program_typed true p →
  (∀ m p1 B p2, FreeVars.free_vars p = Ok (m, p1) → collect_assigns p1 = Ok (B, p2) →
     binders_ok_stmt B ∅ p2 ∧ B ⊆ declared p) →
  ∃ p', convert_closures p = Ok p' ∧ type_check p' = Ok tt ∧ program_typed true p' ∧
    env_ok_stmt [] (hide true global_env (declared p)) p'.
Proof.
  intros Hsrc Hty Hb.
  destruct (free_vars_ok p Hsrc Hty) as (m & p1 & Hfv & _ & Hty1 & Hok & Hself & Hd1).
  destruct (Hb _ _ _ _ Hfv (collect_assigns_eq p1)) as [Hbind HB].
  rewrite <- Hd1 in HB.
  destruct (box_program p1 Hok Hself Hty1 Hbind HB) as [Hty2 Hs].
  destruct (closure_convert_ok _ Hty2 Hs) as (p' & Hc & Hty' & _ & He).
  unfold box_assigns in He. rewrite declared_box, declared_annotate, Hd1 in He.
  exists p'. unfold convert_closures. rewrite Hfv. cbn. rewrite collect_assigns_eq. cbn.
  eauto using type_check_strict.
Qed.

Lemma closure_convert_correct_witness :
  ∃ p', closure_convert (box_assigns (annotate_stmt counter_fv) {[ Named "n" ]}) = Ok p' ∧ program_typed true p'.
Proof.
  assert (child_free_stmt counter_fv ∩ assigned_stmt counter_fv = {[ Named "n" ]}) as HB.
  { cbn. rewrite dom_singleton_L. clear. set_solver. }
  destruct counter_ok as (Hin & Hself & Hty).
  destruct (box_program counter_fv Hin Hself Hty) as [Ht Hs].
  - cbn. by repeat constructor.
  - rewrite HB. cbn. clear. set_solver.
  - rewrite HB in Ht, Hs. destruct (closure_convert_correct _ Ht Hs) as (p' & ? & ? & _). eauto.
Defined.
Lemma convert_closures_correct_witness :
  ∃ p', convert_closures counter = Ok p' ∧ type_check p' = Ok tt.
Proof.
  destruct (convert_closures_correct counter) as (p' & ? & ? & _); [cbn; tauto|exact counter_typed| |eauto].
  intros m p1 B p2 Hf Hc. rewrite counter_free_vars in Hf. simplify_eq.
  rewrite collect_assigns_eq in Hc. simplify_eq. split.
  - cbn. by repeat constructor.
  - cbn. rewrite dom_singleton_L. clear. set_solver.
Defined.

(** [var n : any = 1; var f : () -> any = function () { n; try { throw n; } catch (n) { return n; } };] *)
Definition catcher : Stmt :=
  let n := EId (Named "n") J.Any Unknown in
  SBlock
    [SVar (Named "n") J.Any (ECoercion (Tag J.Int) (ELit (LNum (NInt 1)) Unknown) Unknown) Unknown;
     SVar (Named "f") (J.Function [] J.Any)
       (func [] J.Any
          (SBlock [SCatch (SBlock [SThrow (ELit (LString "exn") Unknown) Unknown] Unknown) (Named "n")
                     (SBlock [SReturn n Unknown] Unknown) Unknown;
                   SReturn n Unknown] Unknown) Unknown) Unknown] Unknown.
(** The same program with the second [return]'s function converted. *)
Definition catcher_converted : Stmt :=
  let fv : IdMap := {[ Named "n" := J.Any ]} in
  let slot := EEnvGet 0 J.Any Unknown in
  SBlock
    [SVar (Named "n") J.Any (ECoercion (Tag J.Int) (ELit (LNum (NInt 1)) Unknown) Unknown) Unknown;
     SVar (Named "f") (J.Function [] J.Any)
       (EClosure
          (mkFunc J.Any []
             (SBlock [SCatch (SBlock [SThrow (ELit (LString "exn") Unknown) Unknown] Unknown) (Named "n")
                        (SBlock [SReturn slot Unknown] Unknown) Unknown;
                      SReturn slot Unknown] Unknown) fv ∅)
          [(EId (Named "n") J.Any Unknown, J.Any)] Unknown) Unknown] Unknown.

(** Free variables are known by name only: in a function that captures [n], the handler of
    [catch (n)] reads the captured variable instead of the exception.  Both type
    checks accept the program. *)
Theorem catch_variable_lost :
  type_check catcher = Ok tt ∧ convert_closures catcher = Ok catcher_converted ∧
  type_check catcher_converted = Ok tt.
Proof. split_and!; vm_compute; reflexivity. Qed.
