(* ===== verification/TypeInf.v ===== *)
(** Type inference for JankyScript ([jankyscript/typeinf.rs], with
    [typeinf_env.rs], [operators_z3.rs] and the macros of [z3ez.rs]): the
    constraints that are given to the solver, and the program that is read off
    its model.  The solver, Z3, is an argument. *)
From S2P Require Import Prelude Types Coercions Operators JankySyntax JankyTyping.
Import K.

(** ** Terms, formulas and models of the solver *)
Module Z3.
(** The datatypes [Z3Typ] and [Z3TypList]; lists of types are lists. *)
Inductive Typ : Type :=
  | any | int | float | bool_ | str | array | dynobject
  | fun_ (must_ground : bool) (args : list Typ) (ret : Typ).

(** Terms of sort [Z3Typ] and of sort [Bool]: [Dynamic] and [Bool] of the binding. *)
Inductive Term : Type :=
  | Const (n : nat)
  | make (c : Typ)
  | make_fun (must_ground : Bool) (args : list Term) (ret : Term)
with Bool : Type :=
  | BConst (n : nat)
  | BTrue
  | BNot (b : Bool)
  | BAnd (bs : list Bool)
  | BOr (bs : list Bool)
  | BEq (a b : Term)
  | BOpEq (a b : OpTerm)
  | BIsFun (a : Term)
  | BMustGround (a : Term)
(** Terms of the enumeration [Operators] of [Z3Operators]. *)
with OpTerm : Type :=
  | OConst (n : nat)
  | OCtor (op : NotwasmOp).

#[global] Instance Typ_eq_dec : EqDecision Typ.
Proof.
  refine (fix go (x y : Typ) {struct x} : Decision (x = y) :=
    match x, y with
    | any, any | int, int | float, float | bool_, bool_ | str, str | array, array
    | dynobject, dynobject => left _
    | fun_ g1 a1 r1, fun_ g2 a2 r2 =>
        cast_if_and3 (decide (g1 = g2)) (@list_eq_dec Typ go a1 a2) (go r1 r2)
    | _, _ => right _
    end); congruence.
Defined.

(** A model, with model completion: the values of all constants, and of the
    accessor [must_ground] where it does not apply. *)
Record Model := mkModel {
  typ_const : nat → Typ;
  bool_const : nat → bool;
  op_const : nat → NotwasmOp;
  must_ground_else : Typ → bool
}.

Section eval.
Variable m : Model.
Definition eval_op_term (a : OpTerm) : NotwasmOp :=
  match a with OConst n => op_const m n | OCtor op => op end.
Fixpoint eval (a : Term) : Typ :=
  match a with
  | Const n => typ_const m n
  | make c => c
  | make_fun g args ret => fun_ (eval_bool g) (map eval args) (eval ret)
  end
with eval_bool (b : Bool) : bool :=
  match b with
  | BConst n => bool_const m n
  | BTrue => true
  | BNot b => negb (eval_bool b)
  | BAnd bs => forallb eval_bool bs
  | BOr bs => existsb eval_bool bs
  | BEq a b => bool_decide (eval a = eval b)
  | BOpEq a b => bool_decide (eval_op_term a = eval_op_term b)
  | BIsFun a => match eval a with fun_ _ _ _ => true | _ => false end
  | BMustGround a => match eval a with fun_ g _ _ => g | v => must_ground_else m v end
  end.
End eval.

Inductive SatResult : Type := Sat (m : Model) | Unsat | Unknown.

(** [Optimize::check] and [get_model], for the assertions and the soft assertions
    with their weights. *)
Abbreviation Optimize := (list Bool → list (Bool * Z) → SatResult).

(** The documented behaviour of the solver: the model of a satisfiable problem
    satisfies the assertions. *)
Class Sound (check : Optimize) : Prop :=
  sat_assertions : ∀ hard soft m, check hard soft = Sat m → Forall (λ b, eval_bool m b = true) hard.
End Z3.
Abbreviation Term := Z3.Term.
Abbreviation ZBool := Z3.Bool.

(** ** The state of [Typeinf]

    [fresh] numbers the constants of the context. *)
Record Typeinf := mkTypeinf {
  vars : list Term;
  op_metavars : list Z3.OpTerm;
  fresh : nat;
  hard : list ZBool;
  soft : list (ZBool * Z);
  env : gmap Id J.typ;
  return_type : J.typ
}.

(** Functions that change the state, and that may panic. *)
Definition M (A : Type) : Type := Typeinf → comp never (Typeinf * A).
#[global] Instance M_ret : MRet M := λ A a s, Ok (s, a).
#[global] Instance M_bind : MBind M := λ A B f m s,
  match m s with Ok (s, a) => f a s | Err e => Err e | Panic msg => Panic msg end.
Definition lift {A} (m : comp never A) : M A := λ s,
  match m with Ok a => Ok (s, a) | Err e => Err e | Panic msg => Panic msg end.
Definition get : M Typeinf := λ s, Ok (s, s).
Definition modify (f : Typeinf → Typeinf) : M unit := λ s, Ok (f s, tt).

(** [fresh_const]. *)
Definition fresh_const : M nat := λ s,
  Ok (mkTypeinf (vars s) (op_metavars s) (S (fresh s)) (hard s) (soft s) (env s) (return_type s), fresh s).
(** [solver.assert], [solver.assert_soft]. *)
Definition assert_hard (b : ZBool) : M unit := modify (λ s,
  mkTypeinf (vars s) (op_metavars s) (fresh s) (hard s ++ [b]) (soft s) (env s) (return_type s)).
Definition assert_soft (b : ZBool) (weight : Z) : M unit := modify (λ s,
  mkTypeinf (vars s) (op_metavars s) (fresh s) (hard s) (soft s ++ [(b, weight)]) (env s) (return_type s)).
Definition set_env (Γ : gmap Id J.typ) : M unit := modify (λ s,
  mkTypeinf (vars s) (op_metavars s) (fresh s) (hard s) (soft s) Γ (return_type s)).
Definition set_return_type (ty : J.typ) : M unit := modify (λ s,
  mkTypeinf (vars s) (op_metavars s) (fresh s) (hard s) (soft s) (env s) ty).

(** [Env::new], [Env::update] and [Env::get] of [typeinf_env.rs]. *)
Definition env_new : gmap Id J.typ := foldl (λ Γ kt, <[Named kt.1 := kt.2]> Γ) ∅ get_global_object.
Definition env_update (x : Id) (ty : J.typ) : M unit := s ← get; set_env (<[x := ty]> (env s)).
Definition env_get (x : Id) : M J.typ := s ← get; lift (expect "Poorly scoped" (env s !! x)).

(** [Z3Operators::fresh_op_selector], [Z3Operators::z]. *)
Definition fresh_op_selector : M NotwasmOp :=
  n ← fresh_const;
  s ← get;
  modify (λ s, mkTypeinf (vars s) (op_metavars s ++ [Z3.OConst n]) (fresh s) (hard s) (soft s) (env s)
                 (return_type s));;
  mret (OpMetavar (length (op_metavars s))).
Definition ops_z (op : NotwasmOp) : M Z3.OpTerm :=
  match op with
  | OpMetavar n => s ← get; lift (expect "index out of bounds" (op_metavars s !! n))
  | _ =>
      if decide (op ∈ Overloads.all_ops Overloads.OVERLOADS) then mret (Z3.OCtor op)
      else lift (Panic "operator not in table")
  end.

Definition typ_lit (lit : Lit) : J.typ :=
  match lit with
  | LNum (NFloat _) => J.Float
  | LNum (NInt _) => J.Int
  | LString _ => J.String
  | LBool _ => J.Bool
  | LRegex _ _ => J.Any
  | LUndefined => J.Any
  | LNull => J.Any
  end.

(** The source of a coercion to [Any] with a value of type [Any] is merged. *)
Definition coerce (src dst : J.typ) (e : Expr) (p : Pos) : Expr :=
  match e, src with
  | ECoercion (Meta src1 J.Any) e1 p1, J.Any => coercion_ (meta src1 dst) e1 p1
  | _, _ => coercion_ (meta src dst) e p
  end.

(** [Typeinf::t].  The arguments are translated from the last to the first. *)
Fixpoint tid (ty : J.typ) : M Term :=
  match ty with
  | J.Int => mret (Z3.make Z3.int)
  | J.Float => mret (Z3.make Z3.float)
  | J.Any => mret (Z3.make Z3.any)
  | J.String => mret (Z3.make Z3.str)
  | J.Bool => mret (Z3.make Z3.bool_)
  | J.Array => mret (Z3.make Z3.array)
  | J.DynObject => mret (Z3.make Z3.dynobject)
  | J.Metavar n => s ← get; lift (expect "unbound type metavariable" (vars s !! n))
  | J.Function args r =>
      must_ground ← fresh_const;
      z_args ← (fix go args :=
                  match args with
                  | [] => mret []
                  | a :: args => z_args ← go args; z ← tid a; mret (z :: z_args)
                  end) args;
      z ← tid r;
      mret (Z3.make_fun (Z3.BConst must_ground) z_args z)
  | J.Missing | J.Ref _ => lift (Panic "not yet implemented")
  end.

(** [z3f!(self, (= (tid a) (tid b)))] and [(= (tid a) (tid b) (tid c))]. *)
Definition eq_ (a b : J.typ) : M ZBool := x ← tid a; y ← tid b; mret (Z3.BEq x y).
Definition eq3_ (a b c : J.typ) : M ZBool := x ← eq_ a b; y ← eq_ b c; mret (Z3.BAnd [x; y]).
(** [zand], [zor] on formulas still to be built, from the first to the last. *)
Definition and_ (phis : list (M ZBool)) : M ZBool := bs ← mapM id phis; mret (Z3.BAnd bs).
Definition or_ (phis : list (M ZBool)) : M ZBool := bs ← mapM id phis; mret (Z3.BOr bs).
Definition not_ (b : ZBool) : M ZBool := mret (Z3.BNot b).
(** The operator [&] of formulas. *)
Definition both (a b : ZBool) : ZBool := Z3.BAnd [a; b].

Definition zfun (must_ground : ZBool) (args : list J.typ) (r : J.typ) : M Term :=
  z_args ← (fix go args :=
              match args with
              | [] => mret []
              | a :: args =>
                  z_args ← go args;
                  z_arg ← tid a;
                  assert_hard (Z3.BOr [Z3.BNot must_ground; Z3.BEq z_arg (Z3.make Z3.any)]);;
                  mret (z_arg :: z_args)
              end) args;
  z_r ← tid r;
  assert_hard (Z3.BOr [Z3.BNot must_ground; Z3.BEq z_r (Z3.make Z3.any)]);;
  mret (Z3.make_fun must_ground z_args z_r).

Definition is_ground (ty : J.typ) : M ZBool :=
  t_z ← tid ty; mret (Z3.BOr [Z3.BNot (Z3.BIsFun t_z); Z3.BMustGround t_z]).

Definition fresh_weight : M ZBool :=
  n ← fresh_const; assert_soft (Z3.BConst n) 1;; mret (Z3.BConst n).

(** The prefix of the name of the constant is left out. *)
Definition fresh_metavar : M J.typ :=
  n ← fresh_const;
  s ← get;
  modify (λ s, mkTypeinf (vars s ++ [Z3.Const n]) (op_metavars s) (fresh s) (hard s) (soft s) (env s)
                 (return_type s));;
  mret (J.Metavar (length (vars s))).
Definition fresh_metavars {A} (l : list A) : M (list J.typ) := mapM (λ _, fresh_metavar) l.

(** ** Constraints of expressions

    A function that changes an expression in place returns it, before its result. *)
Abbreviation typed := (Expr * (ZBool * J.typ))%type.

Definition wobbly (p : Pos) (expr : Expr) (phis : option ZBool) (t : J.typ) : M typed :=
  w ← fresh_weight;
  alpha ← fresh_metavar;
  ground ← is_ground t;
  phi ← or_ [and_ [mret w; eq_ alpha t];
             and_ [not_ w; eq_ alpha J.Any; mret ground]];
  mret (coerce t alpha expr p, (match phis with Some phis => both phis phi | None => phi end, alpha)).

Section cgen_parts.
Variable cgen_expr : Expr → M typed.

Definition cgen_exprs (exprs : list Expr) : M (list Expr * (list ZBool * list J.typ)) :=
  l ← mapM cgen_expr exprs;
  mret (map fst l, (map (λ r, r.2.1) l, map (λ r, r.2.2) l)).

Definition cgen_dot (obj_e : Expr) (p : Pos) : M (Expr * ZBool) :=
  w ← fresh_weight;
  '(e, (phi_1, t)) ← cgen_expr obj_e;
  phi_2 ← or_ [and_ [eq_ t J.DynObject; mret w; mret w];
               and_ [eq_ t J.Any; not_ w]];
  mret (coerce t J.DynObject e p, both phi_1 phi_2).

(** The closure [known] of [cgen_bracket]. *)
Definition known (wcoerce wrt : ZBool) (a af s b bf t : J.typ) : M ZBool :=
  and_ [eq3_ a af s; eq_ bf t;
        or_ [and_ [eq_ b t; mret wcoerce]; and_ [eq_ b J.Any; not_ wcoerce]];
        mret wrt].

(** The object and the property, the final type of the object and the constraint. *)
Definition cgen_bracket (o f : Expr) (p : Pos) : M (Expr * Expr * J.typ * ZBool) :=
  '(o, (phi_1, ot)) ← cgen_expr o;
  '(f, (phi_2, ft)) ← cgen_expr f;
  otf ← fresh_metavar;
  ftf ← fresh_metavar;
  wcoerce ← fresh_weight;
  wrt ← fresh_weight;
  let known := known wcoerce wrt in
  phi_3 ← or_ [or_ [or_ [or_ [known ot otf J.DynObject ft ftf J.String;
                              known ft ftf J.String ot otf J.DynObject];
                         known ot otf J.Array ft ftf J.Int];
                    known ft ftf J.Int ot otf J.Array];
               and_ [eq3_ ot otf J.Any; eq3_ ft ftf J.Any; not_ wrt]];
  mret (coerce ot otf o p, coerce ft ftf f p, otf, both (both phi_1 phi_2) phi_3).

(** The coercions of the arguments to their final types. *)
Definition coerce_args (arg_typs final_typs : list J.typ) (args : list Expr) (s : Pos) : list Expr :=
  map (λ '((e, arg_typ), final_typ), coerce arg_typ final_typ e s) (zip (zip args arg_typs) final_typs).

(** The types that a method may have, with the type of the object, and the
    constraint of the object's coercion. *)
Definition possible_method_typs (method : string) (arity : nat) (original_obj_typ obj_typ : J.typ) (obj_w : ZBool) :
    M (list (J.typ * J.typ) * ZBool) :=
  let ground := J.Function (replicate arity J.Any) J.Any in
  match assoc (method, arity) METHODS_TABLE with
  | Some table_typs =>
      known ← lift (mapM (λ t, '(args, _) ← J.unwrap_fun t;
                               a ← expect "index out of bounds" (head args); Ok (a, t)) table_typs);
      phi ← eq_ original_obj_typ obj_typ;
      mret (known ++ [(J.DynObject, ground); (J.Any, ground)], phi)
  | None =>
      phi ← or_ [and_ [eq_ original_obj_typ obj_typ; mret obj_w];
                 and_ [eq_ original_obj_typ J.Any; not_ obj_w]];
      mret ([(J.DynObject, ground)], phi)
  end.

(** One conjunct of the arguments of a method call. *)
Definition arg_coerces (expect got actual : J.typ) (w : ZBool) : M ZBool :=
  and_ [eq_ expect actual;
        or_ [and_ [eq_ got J.Any; not_ w]; and_ [eq_ got expect; mret w]]].
(** The conjunct of one type that the method could have. *)
Definition method_has_typ (obj_typ typ ann_ret_ty : J.typ) (arg_typs ann_args_typs : list J.typ)
    (arg_ws : list ZBool) (possible : J.typ * J.typ) : M ZBool :=
  '(expect_args, expect_ret_ty) ← lift (J.unwrap_fun possible.2);
  obj_match ← eq3_ obj_typ possible.1 typ;
  args_coerce ← and_ (map (λ '(((expect, got), actual), w), arg_coerces expect got actual w)
                          (zip (zip (zip expect_args arg_typs) ann_args_typs) arg_ws));
  ret_ty ← eq_ expect_ret_ty ann_ret_ty;
  mret (Z3.BAnd [obj_match; args_coerce; ret_ty]).

Definition cgen_method_call (obj : Expr) (method : string) (args : list Expr) (s : Pos) : M typed :=
  '(obj, (obj_phi, original_obj_typ)) ← cgen_expr obj;
  '(args, (arg_phis, arg_typs)) ← cgen_exprs args;
  obj_typ ← fresh_metavar;
  obj_w ← fresh_weight;
  ann_args_typs ← fresh_metavars args;
  ann_ret_ty ← fresh_metavar;
  typ ← fresh_metavar;
  let obj := coerce original_obj_typ obj_typ obj s in
  let args := coerce_args arg_typs ann_args_typs args s in
  '(possible_typs, obj_coerce_phi) ←
    possible_method_typs method (length args) original_obj_typ obj_typ obj_w;
  arg_ws ← mapM (λ _, fresh_weight) args;
  possible_phis ← mapM (method_has_typ obj_typ typ ann_ret_ty arg_typs ann_args_typs arg_ws) possible_typs;
  mret (EMethodCall obj method args typ s,
        (Z3.BAnd [obj_phi; Z3.BAnd arg_phis; Z3.BOr possible_phis; obj_coerce_phi], ann_ret_ty)).

Definition length_typs : list (J.typ * J.typ) :=
  [(J.String, J.Int); (J.Array, J.Int); (J.DynObject, J.Any); (J.Any, J.Any)].
Definition cgen_length (obj : Expr) (s : Pos) : M typed :=
  '(obj, (obj_phi, obj_typ)) ← cgen_expr obj;
  expr_ty ← fresh_metavar;
  typ ← fresh_metavar;
  possible_phi ← or_ (map (λ '(possible_obj_typ, possible_typ),
                             and_ [eq3_ obj_typ possible_obj_typ typ; eq_ expr_ty possible_typ]) length_typs);
  mret (ELength obj typ s, (Z3.BAnd [obj_phi; possible_phi], expr_ty)).

(** The closure [one_possibility] of the case of operators. *)
Definition one_possibility (w : ZBool) (op_metavar : NotwasmOp) (alpha_t : J.typ) (args_t betas_t : list J.typ)
    (allow_coerce : bool) (overload : J.typ * NotwasmOp) : M ZBool :=
  '(op_arg_t, op_ret_t) ← lift (J.unwrap_fun overload.1);
  selected ← (a ← ops_z op_metavar; b ← ops_z overload.2; mret (Z3.BOpEq a b));
  conjuncts ← mapM (λ '((t1, t2), t3),
      a ← (if allow_coerce then or_ [and_ [not_ w; eq_ t1 J.Any]; eq_ t1 t2] else eq_ t1 t2);
      b ← eq_ t2 t3;
      mret [a; b]) (zip (zip args_t op_arg_t) betas_t);
  result ← eq_ alpha_t op_ret_t;
  mret (Z3.BAnd (selected :: concat conjuncts ++ [result])).

Definition cgen_js_op (op : JsOp) (args : list Expr) (p : Pos) : M typed :=
  w ← fresh_weight;
  op_metavar ← fresh_op_selector;
  alpha_t ← fresh_metavar;
  '(args, (args_phi, args_t)) ← cgen_exprs args;
  betas_t ← fresh_metavars args;
  let args := coerce_args args_t betas_t args Unknown in
  overloads ← lift (Overloads.overloads_of Overloads.OVERLOADS op);
  exact ← mapM (one_possibility w op_metavar alpha_t args_t betas_t false) overloads;
  coercible ← lift (Overloads.coercible_of Overloads.OVERLOADS op);
  coerced ← mapM (one_possibility w op_metavar alpha_t args_t betas_t true) (option_list coercible);
  wobbly p (EJsOp op args (mkJsOpTypeinf op_metavar) p)
    (Some (Z3.BAnd (args_phi ++ [Z3.BOr (exact ++ coerced)]))) alpha_t.

Definition cgen_assign (lval : LValue) (e : Expr) (p : Pos) : M typed :=
  match lval with
  | LId x _ =>
      t ← env_get x;
      '(e, (phi_1, e_t)) ← cgen_expr e;
      phi_2 ← eq_ t e_t;
      mret (EAssign (LId x t) e p, (both phi_1 phi_2, t))
  | LDot c f =>
      '(e, (phi_1, e_t)) ← cgen_expr e;
      '(c, phi_2) ← cgen_dot c p;
      phi_3 ← eq_ e_t J.Any;
      mret (EAssign (LDot c f) e p, (both (both phi_1 phi_2) phi_3, J.Any))
  | LBracket o f _ =>
      '(e, (phi_1, e_t)) ← cgen_expr e;
      '(o, f, t, phi_2) ← cgen_bracket o f p;
      phi_3 ← eq_ e_t J.Any;
      mret (EAssign (LBracket o f t) e p, (both (both phi_1 phi_2) phi_3, J.Any))
  end.

Definition cgen_call (f : Expr) (args : list Expr) (p : Pos) : M typed :=
  w_1 ← fresh_weight;
  w_2 ← fresh_weight;
  '(f, (phi_1, t_f)) ← cgen_expr f;
  '(args, (args_phi, args_t)) ← cgen_exprs args;
  let phi_2 := Z3.BAnd args_phi in
  beta ← fresh_metavar;
  gamma ← fresh_metavar;
  phi_31 ← and_ (map (λ x, eq_ x J.Any) args_t);
  phi_3 ← or_ [and_ [eq_ t_f (J.Function args_t beta); mret w_1];
               and_ [eq_ t_f J.Any; eq_ beta J.Any; mret phi_31; not_ w_1]];
  phi_4 ← or_ [and_ [eq_ beta gamma; mret w_2]; and_ [eq_ gamma J.Any; not_ w_2]];
  let f := coerce t_f (J.Function args_t beta) f p in
  mret (coerce beta gamma (ECall f args p) p, (Z3.BAnd [phi_1; phi_2; phi_3; phi_4], gamma)).

(** The formal parameters of a function. *)
Fixpoint cgen_params (args : list (Id * J.typ)) : M (list (Id * J.typ)) :=
  match args with
  | [] => mret []
  | (x, t) :: args =>
      lift (assert "assertion `left == right` failed" (bool_decide (t = J.Missing)));;
      t ← fresh_metavar;
      env_update x t;;
      args ← cgen_params args;
      mret ((x, t) :: args)
  end.

Variable cgen_stmt : Stmt → M Stmt.
Definition cgen_func (f : Func) (p : Pos) : M typed :=
  match f with
  | mkFunc _ args_with_typs body fv afc =>
      outer ← get;
      result_typ ← fresh_metavar;
      set_return_type result_typ;;
      args_with_typs ← cgen_params args_with_typs;
      body ← cgen_stmt body;
      inner ← get;
      let return_typ := return_type inner in
      set_return_type (return_type outer);;
      set_env (env outer);;
      let args := map snd args_with_typs in
      w ← fresh_weight;
      beta ← fresh_metavar;
      z_fun ← zfun (Z3.BNot w) args return_typ;
      phi ← or_ [and_ [mret w; (b ← tid beta; mret (Z3.BEq b z_fun))];
                 and_ [not_ w; eq_ beta J.Any]];
      mret (coerce (J.Function args return_typ) beta (EFunc (mkFunc result_typ args_with_typs body fv afc) p) p,
            (phi, beta))
  end.
End cgen_parts.

(** ** Constraints of programs *)
Definition unexpected {A} : M A := lift (Panic "unexpected").

Fixpoint cgen_expr (expr : Expr) {struct expr} : M typed :=
  match expr with
  | EBinary _ _ _ _ | EPrimCall _ _ _ | ENewRef _ _ _ | EDeref _ _ _ | EStore _ _ _ _
  | EEnvGet _ _ _ | ECoercion _ _ _ | EClosure _ _ _ | EUnary _ _ _ => unexpected
  | ELit l p => wobbly p expr None (typ_lit l)
  | EArray es p =>
      '(es, (phis, ts)) ← cgen_exprs cgen_expr es;
      anys ← mapM (λ t, eq_ t J.Any) ts;
      wobbly p (EArray es p) (Some (Z3.BAnd (phis ++ anys))) J.Array
  | EObject props p =>
      l ← mapM (λ kv, r ← cgen_expr kv.2; mret (kv.1, r)) props;
      anys ← mapM (λ t, eq_ t J.Any) (map (λ kr, kr.2.2.2) l);
      wobbly p (EObject (map (λ kr, (kr.1, kr.2.1)) l) p)
        (Some (Z3.BAnd (map (λ kr, kr.2.2.1) l ++ anys))) J.DynObject
  | EId x _ p => t ← env_get x; wobbly p (EId x t p) (Some Z3.BTrue) t
  | EDot obj_e x p => '(obj_e, phi) ← cgen_dot cgen_expr obj_e p; mret (EDot obj_e x p, (phi, J.Any))
  | EBracket o f _ p =>
      '(o, f, t, phi) ← cgen_bracket cgen_expr o f p; mret (EBracket o f t p, (phi, J.Any))
  | EJsOp op args _ p => cgen_js_op cgen_expr op args p
  | EMethodCall obj method args _ s =>
      '(e, (phi, ty)) ← cgen_method_call cgen_expr obj method args s; wobbly s e (Some phi) ty
  | ELength obj _ s => '(e, (phi, ty)) ← cgen_length cgen_expr obj s; wobbly s e (Some phi) ty
  | EAssign lval e p =>
      match lval with
      | LId x t => cgen_assign cgen_expr (LId x t) e p
      | LDot c f => cgen_assign cgen_expr (LDot c f) e p
      | LBracket o f t => cgen_assign cgen_expr (LBracket o f t) e p
      end
  | ECall f args p => cgen_call cgen_expr f args p
  | EFunc (mkFunc r args b fv afc) p => cgen_func cgen_stmt (mkFunc r args b fv afc) p
  end
with cgen_stmt (stmt : Stmt) {struct stmt} : M Stmt :=
  match stmt with
  | SVar x _ e p =>
      alpha ← fresh_metavar;
      env_update x alpha;;
      if is_undefined e then mret (SVar x alpha e p)
      else
        '(e, (phi, t)) ← cgen_expr e;
        assert_hard phi;;
        phi ← eq_ t alpha;
        assert_hard phi;;
        mret (SVar x alpha e p)
  | SExpr e p => '(e, (phi, _)) ← cgen_expr e; assert_hard phi;; mret (SExpr e p)
  | SEmpty => mret SEmpty
  | SLoop s p => s ← cgen_stmt s; mret (SLoop s p)
  | SLabel x s p => s ← cgen_stmt s; mret (SLabel x s p)
  | SBlock stmts p => stmts ← mapM cgen_stmt stmts; mret (SBlock stmts p)
  | SCatch body exn_name catch_body p =>
      body ← cgen_stmt body;
      outer ← get;
      env_update exn_name J.Any;;
      catch_body ← cgen_stmt catch_body;
      set_env (env outer);;
      mret (SCatch body exn_name catch_body p)
  | SReturn e p =>
      '(e, (phi, t)) ← cgen_expr e;
      w ← fresh_weight;
      assert_hard phi;;
      s ← get;
      let t_r := return_type s in
      t_is_ground ← is_ground t;
      phi ← or_ [and_ [mret w; eq_ t_r t]; and_ [not_ w; mret t_is_ground; eq_ t_r J.Any]];
      assert_hard phi;;
      mret (SReturn (coerce t t_r e p) p)
  | SIf test then_branch else_branch p =>
      w ← fresh_weight;
      '(test, (phi_1, t)) ← cgen_expr test;
      phi_2 ← or_ [and_ [mret w; eq_ t J.Bool]; and_ [not_ w; eq_ t J.Any]];
      assert_hard phi_1;;
      assert_hard phi_2;;
      then_branch ← cgen_stmt then_branch;
      else_branch ← cgen_stmt else_branch;
      mret (SIf (coerce t J.Bool test p) then_branch else_branch p)
  | SForIn x iter body p =>
      '(iter, (phi, t)) ← cgen_expr iter;
      assert_hard phi;;
      outer ← get;
      env_update x J.String;;
      body ← cgen_stmt body;
      set_env (env outer);;
      mret (SForIn x (coerce t J.String iter p) body p)
  | SBreak x p => mret (SBreak x p)
  | SThrow e p =>
      '(e, (phi, t)) ← cgen_expr e;
      assert_hard phi;;
      phi ← eq_ t J.Any;
      assert_hard phi;;
      mret (SThrow e p)
  | SFinally main_block finally_block p =>
      main_block ← cgen_stmt main_block;
      finally_block ← cgen_stmt finally_block;
      mret (SFinally main_block finally_block p)
  end.

(** ** Reading the model *)

(** [z3_to_typ] and [z3_to_typ_vec], on values. *)
Fixpoint z3_to_typ (e : Z3.Typ) : J.typ :=
  match e with
  | Z3.int => J.Int
  | Z3.float => J.Float
  | Z3.bool_ => J.Bool
  | Z3.any => J.Any
  | Z3.str => J.String
  | Z3.array => J.Array
  | Z3.dynobject => J.DynObject
  | Z3.fun_ _ args ret => J.Function (map z3_to_typ args) (z3_to_typ ret)
  end.
Definition solve_model (m : Z3.Model) (vars : list Term) : list J.typ :=
  map (λ x_ast, z3_to_typ (Z3.eval m x_ast)) vars.

(** [Z3Operators::eval_op]: the first operator whose predicate holds. *)
Definition eval_op (m : Z3.Model) (op_metavars : list Z3.OpTerm) (op : NotwasmOp) : comp never NotwasmOp :=
  match op with
  | OpMetavar n =>
      x ← expect "index out of bounds" (op_metavars !! n);
      expect "no value for metavar"
        (find (λ notwasm_op, bool_decide (notwasm_op = Z3.eval_op_term m x)) (Overloads.all_ops Overloads.OVERLOADS))
  | _ => Panic "not a metavar"
  end.

(** [NotwasmOp::make_app]: the arguments are taken from the end. *)
Definition make_app (op : NotwasmOp) (args : list Expr) (p : Pos) : comp never Expr :=
  match op with
  | BinOp notwasm_op =>
      match rev args with
      | e2 :: e1 :: args =>
          assert "assertion `left == right` failed" (length args =? 0)%nat;; Ok (EBinary notwasm_op e1 e2 p)
      | _ => Panic "called unwrap on a None value"
      end
  | UnOp notwasm_op =>
      match rev args with
      | e :: args =>
          assert "assertion `left == right` failed" (length args =? 0)%nat;; Ok (EUnary notwasm_op e p)
      | _ => Panic "called unwrap on a None value"
      end
  | RTSOp rts_fun => Ok (EPrimCall rts_fun args p)
  | OpMissing | OpMetavar _ => Panic "received"
  end.

(** *** The walk with a visitor that changes types on the way down and
    expressions on the way up ([jankyscript/walk.rs]) *)
Section walk.
Variables (enter_typ : J.typ → comp never J.typ) (exit_expr : Expr → comp never Expr).

(** The walk goes on inside of the type that [enter_typ] returns; [fuel] bounds the depth. *)
Fixpoint walk_type (fuel : nat) (t : J.typ) : comp never J.typ :=
  match fuel with
  | O => Panic "out of fuel"
  | S fuel =>
      t ← enter_typ t;
      match t with
      | J.Function args ret =>
          args ← mapM (walk_type fuel) args;
          ret ← walk_type fuel ret;
          Ok (J.Function args ret)
      | J.Ref t => t ← walk_type fuel t; Ok (J.Ref t)
      | _ => Ok t
      end
  end.
Variable fuel : J.typ → nat.
Definition walk_typ (t : J.typ) : comp never J.typ := walk_type (fuel t) t.

Definition walk_coercion (c : Coercion) : comp never Coercion :=
  match c with
  | Meta t1 t2 => t1 ← walk_typ t1; t2 ← walk_typ t2; Ok (Meta t1 t2)
  | _ => Ok c
  end.

Fixpoint walk_expr (e : Expr) : comp never Expr :=
  e ← match e with
      | ELit _ _ | EEnvGet _ _ _ => Ok e
      | EId x t p => t ← walk_typ t; Ok (EId x t p)
      | EFunc f p => f ← walk_func f; Ok (EFunc f p)
      | EJsOp op es i p => es ← mapM walk_expr es; Ok (EJsOp op es i p)
      | EArray es p => es ← mapM walk_expr es; Ok (EArray es p)
      | EPrimCall f es p => es ← mapM walk_expr es; Ok (EPrimCall f es p)
      | EObject kvs p => kvs ← mapM (λ kv, e ← walk_expr kv.2; Ok (kv.1, e)) kvs; Ok (EObject kvs p)
      | ECoercion c e p => c ← walk_coercion c; e ← walk_expr e; Ok (ECoercion c e p)
      | EDot e x p => e ← walk_expr e; Ok (EDot e x p)
      | EUnary op e p => e ← walk_expr e; Ok (EUnary op e p)
      | ENewRef e t p => e ← walk_expr e; Ok (ENewRef e t p)
      | EDeref e t p => e ← walk_expr e; Ok (EDeref e t p)
      | EAssign lv e p => lv ← walk_lval lv; e ← walk_expr e; Ok (EAssign lv e p)
      | ECall e es p => e ← walk_expr e; es ← mapM walk_expr es; Ok (ECall e es p)
      | EMethodCall e m es t p =>
          e ← walk_expr e; es ← mapM walk_expr es; t ← walk_typ t; Ok (EMethodCall e m es t p)
      | ELength e t p => e ← walk_expr e; t ← walk_typ t; Ok (ELength e t p)
      | EBracket e1 e2 t p =>
          e1 ← walk_expr e1; e2 ← walk_expr e2; t ← walk_typ t; Ok (EBracket e1 e2 t p)
      | EBinary op e1 e2 p => e1 ← walk_expr e1; e2 ← walk_expr e2; Ok (EBinary op e1 e2 p)
      | EStore e1 e2 t p => e1 ← walk_expr e1; e2 ← walk_expr e2; Ok (EStore e1 e2 t p)
      | EClosure f env p =>
          env ← mapM (λ et, e ← walk_expr et.1; Ok (e, et.2)) env; Ok (EClosure f env p)
      end;
  exit_expr e
with walk_lval (lv : LValue) : comp never LValue :=
  match lv with
  | LId x t => t ← walk_typ t; Ok (LId x t)
  | LDot e x => e ← walk_expr e; Ok (LDot e x)
  | LBracket e1 e2 t => e1 ← walk_expr e1; e2 ← walk_expr e2; t ← walk_typ t; Ok (LBracket e1 e2 t)
  end
with walk_func (f : Func) : comp never Func :=
  match f with
  | mkFunc r args b fv afc =>
      args ← mapM (λ xt, t ← walk_typ xt.2; Ok (xt.1, t)) args;
      r ← walk_typ r;
      b ← walk_stmt b;
      Ok (mkFunc r args b fv afc)
  end
with walk_stmt (st : Stmt) : comp never Stmt :=
  match st with
  | SEmpty | SBreak _ _ => Ok st
  | SLabel x b p => b ← walk_stmt b; Ok (SLabel x b p)
  | SLoop b p => b ← walk_stmt b; Ok (SLoop b p)
  | SFinally b f p => b ← walk_stmt b; f ← walk_stmt f; Ok (SFinally b f p)
  | SCatch b x c p => b ← walk_stmt b; c ← walk_stmt c; Ok (SCatch b x c p)
  | SBlock ss p => ss ← mapM walk_stmt ss; Ok (SBlock ss p)
  | SVar x t e p => t ← walk_typ t; e ← walk_expr e; Ok (SVar x t e p)
  | SThrow e p => e ← walk_expr e; Ok (SThrow e p)
  | SReturn e p => e ← walk_expr e; Ok (SReturn e p)
  | SExpr e p => e ← walk_expr e; Ok (SExpr e p)
  | SForIn x e b p => e ← walk_expr e; b ← walk_stmt b; Ok (SForIn x e b p)
  | SIf c s1 s2 p => c ← walk_expr c; s1 ← walk_stmt s1; s2 ← walk_stmt s2; Ok (SIf c s1 s2 p)
  end.
End walk.

(** *** [SubtMetavarVisitor] *)
Section subst.
Variables (vars : list J.typ) (m : Z3.Model) (op_metavars : list Z3.OpTerm).
Definition subt_enter_typ (t : J.typ) : comp never J.typ :=
  match t with
  | J.Metavar n => expect "unbound type metavariable" (vars !! n)
  | _ => Ok t
  end.
Definition subt_exit_expr (expr : Expr) : comp never Expr :=
  match expr with
  | ECoercion (Meta t1 t2) e _ => Ok (if decide (t1 = t2) then e else expr)
  | EJsOp _ arg_es ti p =>
      lower_op ← eval_op m op_metavars (op_metavar ti); make_app lower_op arg_es p
  | _ => Ok expr
  end.
(** The depth of a type, and a depth that the walk over a type does not reach. *)
Fixpoint depth (t : J.typ) : nat :=
  match t with
  | J.Function args ret => S (foldr (λ t n, Nat.max (depth t) n) (depth ret) args)
  | J.Ref t => S (depth t)
  | _ => 1
  end%nat.
Definition subt_fuel (t : J.typ) : nat := (depth t + foldr (λ t n, Nat.max (depth t) n) 0 vars)%nat.
Definition subt_walk (stmt : Stmt) : comp never Stmt :=
  walk_stmt subt_enter_typ subt_exit_expr subt_fuel stmt.
End subst.

(** ** [typeinf] *)
Definition initial : Typeinf := mkTypeinf [] [] 0 [] [] env_new J.Missing.
Definition typeinf (check : Z3.Optimize) (stmt : Stmt) : comp never Stmt :=
  '(state, stmt) ← cgen_stmt stmt initial;
  match check (hard state) (soft state) with
  | Z3.Unknown => Panic "Got an unknown from Z3"
  | Z3.Unsat => Panic "type inference failed (unsat)"
  | Z3.Sat model =>
      subt_walk (solve_model model (vars state)) model (op_metavars state) stmt
  end.
