(* ===== verification/TypeInfOk.v ===== *)
(** Type inference is sound: when the solver finds a model of the constraints,
    the program that is read off the model type checks. *)
From S2P Require Import Prelude Types Coercions Operators JankySyntax JankyTyping JankyWalk Selection.
From S2P Require Import TypeInf.
Import K.

(** ** Runs that do not panic *)
Definition wp {A} (m : M A) (s : Typeinf) (Q : Typeinf → A → Prop) : Prop :=
  ∃ s' a, m s = Ok (s', a) ∧ Q s' a.

Lemma wp_ret {A} (a : A) s (Q : Typeinf → A → Prop) : Q s a → wp (mret a) s Q.
Proof. intros H. by exists s, a. Qed.
Lemma wp_bind {A B} (m : M A) (f : A → M B) s Q :
  wp m s (λ s' a, wp (f a) s' Q) → wp (m ≫= f) s Q.
Proof.
  intros (s1 & a & H1 & s2 & b & H2 & HQ). exists s2, b. split; [|done].
  unfold mbind, M_bind. by rewrite H1.
Qed.
Lemma wp_mono {A} (m : M A) s (Q R : Typeinf → A → Prop) :
  wp m s Q → (∀ s' a, Q s' a → R s' a) → wp m s R.
Proof. intros (s' & a & H & HQ) HR. exists s', a. auto. Qed.
Lemma wp_lift {A} (c : comp never A) a s (Q : Typeinf → A → Prop) : c = Ok a → Q s a → wp (lift c) s Q.
Proof. intros -> H. by exists s, a. Qed.
Lemma wp_get s (Q : Typeinf → Typeinf → Prop) : Q s s → wp get s Q.
Proof. intros H. by exists s, s. Qed.

(** The state only grows. *)
Record grows (s s' : Typeinf) : Prop := {
  grows_vars : vars s `prefix_of` vars s';
  grows_ops : op_metavars s `prefix_of` op_metavars s';
  grows_hard : hard s `prefix_of` hard s'
}.
#[global] Instance grows_preorder : PreOrder grows.
Proof.
  split; [by split|]. intros s1 s2 s3 [] []. split; by etrans.
Qed.
(** A step that keeps the environment and the return type. *)
Record step (s s' : Typeinf) : Prop := {
  step_grows : grows s s';
  step_env : env s' = env s;
  step_ret : return_type s' = return_type s
}.
#[global] Instance step_preorder : PreOrder step.
Proof. split; [by split|]. intros s1 s2 s3 [] []. split; [by etrans|congruence|congruence]. Qed.

(** ** Types that the constraints can express *)
Fixpoint tok (n : nat) (ty : J.typ) : bool :=
  match ty with
  | J.Missing | J.Ref _ => false
  | J.Metavar i => (i <? n)%nat
  | J.Function args r => forallb (tok n) args && tok n r
  | _ => true
  end.
Lemma tok_le n n' ty : (n <= n')%nat → tok n ty = true → tok n' ty = true.
Proof.
  intros Hn. induction ty as [| | | | |args r IHa IHr| | | | |i] using J.typ_ind'; cbn; try done.
  - rewrite !andb_true_iff, !forallb_forall. intros [Ha Hr]. split; [|auto]. intros x Hx.
    rewrite Forall_forall in IHa. apply (IHa x); [by apply list_elem_of_In|auto].
  - intros H%Nat.ltb_lt. apply Nat.ltb_lt. lia.
Qed.
Definition tyok (s : Typeinf) (ty : J.typ) : Prop := tok (length (vars s)) ty = true.
Lemma tyok_grows s s' ty : grows s s' → tyok s ty → tyok s' ty.
Proof. intros [[k Hk] _ _]. apply tok_le. rewrite Hk, length_app. lia. Qed.

(** ** Programs whose inferred types the checker accepts

    Type inference never leaves the scope of a block, while the checker does: a
    variable is used where both see the same declaration ([D]).  A function
    hides what its body declares.  The operators are those whose overloads have the
    signature of the operator they select, and the variable of a [for..in] is a
    string for the inference but anything for the checker. *)
Definition op_agrees (op : JsOp) (arity : nat) : bool :=
  match assoc op Overloads.OVERLOADS with
  | Some o =>
      forallb (λ e : J.typ * NotwasmOp,
        bool_decide (op_signature e.2 = Some e.1) &&
        match e.1 with J.Function args _ => length args =? arity | _ => false end)%nat (Overloads.entries o)
  | None => false
  end.
(** The variables that are in scope after a statement for both. *)
Definition scope_after (D : gset Id) (st : Stmt) : gset Id :=
  match st with SVar x _ _ _ => {[ x ]} ∪ D | _ => D ∖ declared st end.

Fixpoint inferable (D : gset Id) (e : Expr) {struct e} : bool :=
  match e with
  | ELit _ _ => true
  | EArray es _ => forallb (inferable D) es
  | EObject kvs _ => forallb (λ kv, inferable D kv.2) kvs
  | EId x _ _ => bool_decide (x ∈ D)
  | EDot e _ _ => inferable D e
  | EBracket e1 e2 _ _ => inferable D e1 && inferable D e2
  | EJsOp op es _ _ => op_agrees op (length es) && forallb (inferable D) es
  | EAssign lv e _ =>
      match lv with
      | LId x _ => bool_decide (x ∈ D)
      | LDot e _ => inferable D e
      | LBracket e1 e2 _ => inferable D e1 && inferable D e2
      end && inferable D e
  | ECall e es _ => inferable D e && forallb (inferable D) es
  | EMethodCall e _ es _ _ => inferable D e && forallb (inferable D) es
  | ELength e _ _ => inferable D e
  | EFunc f _ => inferable_func D f
  | _ => false
  end
with inferable_func (D : gset Id) (f : Func) {struct f} : bool :=
  match f with
  | mkFunc _ args b fv _ =>
      forallb (λ a, bool_decide (a.2 = J.Missing)) args && bool_decide (NoDup (map fst args)) &&
      bool_decide (fv = ∅) && inferable_stmt (list_to_set (map fst args) ∪ D ∖ declared b) true b
  end
with inferable_stmt (D : gset Id) (in_function : bool) (st : Stmt) {struct st} : bool :=
  match st with
  | SVar x _ e _ => is_undefined e || inferable (D ∖ {[ x ]}) e
  | SBlock ss _ =>
      (fix go D ss :=
         match ss with
         | [] => true
         | st :: ss => inferable_stmt D in_function st && go (scope_after D st) ss
         end) D ss
  | SEmpty | SBreak _ _ => true
  | SExpr e _ | SThrow e _ => inferable D e
  | SIf c s1 s2 _ =>
      inferable D c && inferable_stmt D in_function s1 && inferable_stmt (D ∖ declared s1) in_function s2
  | SLoop b _ | SLabel _ b _ => inferable_stmt D in_function b
  | SForIn _ _ _ _ => false
  | SCatch b x c _ => inferable_stmt D in_function b && inferable_stmt ({[ x ]} ∪ D ∖ declared b) in_function c
  | SFinally b f _ => inferable_stmt D in_function b && inferable_stmt (D ∖ declared b) in_function f
  | SReturn e _ => in_function && inferable D e
  end.
Fixpoint inferable_stmts (in_function : bool) (D : gset Id) (ss : list Stmt) : bool :=
  match ss with
  | [] => true
  | st :: ss => inferable_stmt D in_function st && inferable_stmts in_function (scope_after D st) ss
  end.

Lemma inferable_block D in_function ss p :
  inferable_stmt D in_function (SBlock ss p) = inferable_stmts in_function D ss.
Proof. revert D. induction ss as [|st ss IH]; intros D; [done|]. simpl in *. by rewrite IH. Qed.

Section sound.
(** The final state of the constraint generation, and the model. *)
Variables (F : Typeinf) (m : Z3.Model).
Hypothesis sat : Forall (λ b, Z3.eval_bool m b = true) (hard F).
Definition holds (b : ZBool) : Prop := Z3.eval_bool m b = true.
Definition mapping : list J.typ := solve_model m (vars F).

(** The type that is found for a type. *)
Fixpoint solved (ty : J.typ) : J.typ :=
  match ty with
  | J.Metavar n => default J.Any (mapping !! n)
  | J.Function args r => J.Function (map solved args) (solved r)
  | J.Ref t => J.Ref (solved t)
  | _ => ty
  end.

Lemma step_below s s' : step s s' → grows s' F → grows s F.
Proof. intros [] ?. by etrans. Qed.

(** *** Terms and formulas *)
Lemma tid_ok ty s :
  tyok s ty → wp (tid ty) s (λ s' z, step s s' ∧ (grows s' F → z3_to_typ (Z3.eval m z) = solved ty)).
Proof.
  revert s. induction ty as [| | | | |args r IHa IHr| | | | |i] using J.typ_ind'; intros s; unfold tyok; cbn; try done;
    try (intros _; by apply wp_ret).
  - rewrite andb_true_iff. intros [Ha Hr]. apply wp_bind. eexists _, _. split; [done|]. set (s0 := mkTypeinf _ _ _ _ _ _ _).
    assert (step s s0) as H0 by by split. apply wp_bind.
    apply (wp_mono _ _ (λ s' zs, step s0 s' ∧
      (grows s' F → map z3_to_typ (map (Z3.eval m) zs) = map solved args))).
    + assert (length (vars s) = length (vars s0)) as E by done. rewrite E in Ha. clear E. clearbody s0. clear H0 Hr IHr.
      induction IHa as [|a args IH _ IHl]; cbn in *; [by apply wp_ret|].
      apply andb_true_iff in Ha as [Ha Hl]. apply wp_bind. eapply wp_mono; [by apply IHl|].
      intros s1 zs [H1 Hzs]. apply wp_bind. eapply wp_mono; [apply IH; eapply tyok_grows; [apply H1|done]|].
      intros s2 z [H2 Hz]. apply wp_ret. split; [by etrans|]. intros HF. cbn. f_equal; [by apply Hz|].
      apply Hzs. by eapply step_below.
    + intros s1 zs [H1 Hzs]. apply wp_bind. eapply wp_mono; [apply IHr; eapply tyok_grows; [apply H1|done]|].
      intros s2 z [H2 Hz]. apply wp_ret. split; [by repeat (etrans; [done|])|]. intros HF. cbn. f_equal; [|by apply Hz].
      apply Hzs. by eapply step_below.
  - intros Hi%Nat.ltb_lt. apply wp_bind, wp_get. destruct (vars s !! i) as [z|] eqn:Hz.
    2:{ apply lookup_ge_None in Hz. lia. }
    eapply wp_lift; [done|]. split; [done|]. intros [Hv _ _]. unfold mapping, solve_model.
    eapply prefix_lookup_Some in Hz; [|done]. by rewrite list_lookup_fmap, Hz.
Qed.

(** [means m s P]: [m] builds a formula, and [P] follows from it. *)
Definition means (m : M ZBool) (s : Typeinf) (P : Prop) : Prop :=
  wp m s (λ s' φ, step s s' ∧ (grows s' F → holds φ → P)).

Lemma means_ret φ s : means (mret φ) s (holds φ).
Proof. by apply wp_ret. Qed.
Lemma means_true φ s : means (mret φ) s True.
Proof. apply wp_ret. split; [done|]. auto. Qed.
Lemma means_not b s : means (not_ b) s True.
Proof. apply wp_ret. split; [done|]. auto. Qed.
Lemma means_eq a b s : tyok s a → tyok s b → means (eq_ a b) s (solved a = solved b).
Proof.
  intros Ha Hb. apply wp_bind. eapply wp_mono; [by apply tid_ok|]. intros s1 x [H1 Hx].
  apply wp_bind. eapply wp_mono; [apply tid_ok; eapply tyok_grows; [apply H1|done]|]. intros s2 y [H2 Hy].
  apply wp_ret. split; [by etrans|]. intros HF Hh. unfold holds in Hh. cbn in Hh. apply bool_decide_eq_true in Hh.
  rewrite <- Hy, <- Hx by eauto using step_below. by f_equal.
Qed.

Lemma mapM_means ms Ps s :
  Forall2 (λ m P, ∀ s', step s s' → means m s' P) ms Ps →
  wp (mapM id ms) s (λ s' φs, step s s' ∧ (grows s' F → Forall2 (λ φ (P : Prop), holds φ → P) φs Ps)).
Proof.
  intros H. assert (∀ s0, step s s0 → wp (mapM id ms) s0 (λ s' φs, step s0 s' ∧
    (grows s' F → Forall2 (λ φ (P : Prop), holds φ → P) φs Ps))) as Hw; [|by apply Hw].
  induction H as [|mm P ms Ps Hm _ IH]; intros s0 H0; cbn; [by apply wp_ret|].
  apply wp_bind. eapply wp_mono; [by apply Hm|]. intros s1 φ [H1 Hφ].
  apply wp_bind. eapply wp_mono; [apply IH; by etrans|]. intros s2 φs [H2 Hφs].
  apply wp_ret. split; [by etrans|]. intros HF. constructor; eauto using step_below.
Qed.
Lemma holds_and φs (Ps : list Prop) :
  Forall2 (λ φ (P : Prop), holds φ → P) φs Ps → holds (Z3.BAnd φs) → foldr and True Ps.
Proof.
  unfold holds. cbn. induction 1 as [|φ P φs Ps HP _ IH]; cbn; [done|]. rewrite andb_true_iff. intros []; auto.
Qed.
Lemma holds_or φs (Ps : list Prop) :
  Forall2 (λ φ (P : Prop), holds φ → P) φs Ps → holds (Z3.BOr φs) → foldr or False Ps.
Proof.
  unfold holds. cbn. induction 1 as [|φ P φs Ps HP _ IH]; cbn; [done|]. rewrite orb_true_iff. intros []; auto.
Qed.
Lemma means_and ms Ps s :
  Forall2 (λ m P, ∀ s', step s s' → means m s' P) ms Ps → means (and_ ms) s (foldr and True Ps).
Proof.
  intros H. apply wp_bind. eapply wp_mono; [by apply mapM_means|]. intros s1 φs [H1 Hφ].
  apply wp_ret. split; [done|]. intros HF. apply holds_and. auto.
Qed.
Lemma means_or ms Ps s :
  Forall2 (λ m P, ∀ s', step s s' → means m s' P) ms Ps → means (or_ ms) s (foldr or False Ps).
Proof.
  intros H. apply wp_bind. eapply wp_mono; [by apply mapM_means|]. intros s1 φs [H1 Hφ].
  apply wp_ret. split; [done|]. intros HF. apply holds_or. auto.
Qed.
Lemma means_weaken m1 s (P Q : Prop) : (P → Q) → means m1 s P → means m1 s Q.
Proof. intros HPQ H. eapply wp_mono; [apply H|]. naive_solver. Qed.
Lemma means_eq3 a b c s :
  tyok s a → tyok s b → tyok s c → means (eq3_ a b c) s (solved a = solved b ∧ solved b = solved c).
Proof.
  intros Ha Hb Hc. apply wp_bind. eapply wp_mono; [by apply means_eq|]. intros s1 x [H1 Hx].
  apply wp_bind. eapply wp_mono; [apply means_eq; eapply tyok_grows; try apply H1; done|]. intros s2 y [H2 Hy].
  apply wp_ret. split; [by etrans|]. intros HF Hh. unfold holds in *. cbn in Hh.
  rewrite !andb_true_iff in Hh. destruct Hh as (? & ? & _). eauto using step_below.
Qed.

(** *** Steps *)
Lemma fresh_metavar_ok s : wp fresh_metavar s (λ s' α, step s s' ∧ tyok s' α).
Proof.
  eexists _, _. split; [done|]. split.
  - split; [split; cbn|done|done]; try done. by eexists.
  - unfold tyok. cbn. rewrite length_app. apply Nat.ltb_lt. cbn. lia.
Qed.
Lemma fresh_metavars_ok {A} (l : list A) s :
  wp (fresh_metavars l) s (λ s' αs, step s s' ∧ Forall (tyok s') αs ∧ length αs = length l).
Proof.
  revert s. induction l as [|x l IH]; intros s; [by apply wp_ret|].
  apply wp_bind. eapply wp_mono; [apply fresh_metavar_ok|]. intros s1 α [H1 Hα].
  apply wp_bind. eapply wp_mono; [apply IH|]. intros s2 αs (H2 & Hαs & Hl).
  apply wp_ret. split; [by etrans|]. split; [|cbn; by f_equal]. constructor; [|done]. by eapply tyok_grows; [apply H2|].
Qed.
Lemma fresh_weight_ok s : wp fresh_weight s (λ s' _, step s s').
Proof. by eexists _, _. Qed.
Lemma fresh_weights_ok {A} (l : list A) s :
  wp (mapM (λ _, fresh_weight) l) s (λ s' ws, step s s' ∧ length ws = length l).
Proof.
  revert s. induction l as [|x l IH]; intros s; [by apply wp_ret|].
  apply wp_bind. eapply wp_mono; [apply fresh_weight_ok|]. intros s1 w; cbn beta; intros H1.
  apply wp_bind. eapply wp_mono; [apply IH|]. intros s2 ws [H2 Hl].
  apply wp_ret. split; [by etrans|]. cbn. by f_equal.
Qed.
Lemma assert_hard_ok b s : wp (assert_hard b) s (λ s' _, step s s' ∧ (grows s' F → holds b)).
Proof.
  eexists _, _. split; [done|]. split.
  - split; [split; cbn|done|done]; try done. by eexists.
  - intros [_ _ Hh]. rewrite Forall_forall in sat. apply sat.
    eapply elem_of_prefix; [|apply Hh]. cbn. apply elem_of_app. right. by apply list_elem_of_singleton.
Qed.
Lemma is_ground_ok ty s : tyok s ty → wp (is_ground ty) s (λ s' _, step s s').
Proof.
  intros Ht. apply wp_bind. eapply wp_mono; [by apply tid_ok|]. intros s1 z [H1 _]. by apply wp_ret.
Qed.
Lemma fresh_op_selector_ok s :
  wp fresh_op_selector s (λ s' op, step s s' ∧ ∃ n, op = OpMetavar n ∧ (n < length (op_metavars s'))%nat).
Proof.
  eexists _, _. split; [done|]. split.
  - split; [split; cbn|done|done]; try done. by eexists.
  - cbn. rewrite length_app. cbn. eexists. split; [done|lia].
Qed.
Lemma zfun_ok g args r s : Forall (tyok s) args → tyok s r → wp (zfun g args r) s (λ s' _, step s s').
Proof.
  intros Ha Hr. apply wp_bind. apply (wp_mono _ _ (λ s' _, step s s')).
  - clear Hr. induction Ha as [|a args Ha _ IH]; [by apply wp_ret|].
    apply wp_bind. eapply wp_mono; [apply IH|]. intros s1 zs; cbn beta; intros H1.
    apply wp_bind. eapply wp_mono; [apply tid_ok; eapply tyok_grows; [apply H1|done]|]. intros s2 z [H2 _].
    apply wp_bind. eapply wp_mono; [apply assert_hard_ok|]. intros s3 [] [H3 _]. apply wp_ret. by repeat (etrans; [done|]).
  - intros s1 zs; cbn beta; intros H1. apply wp_bind. eapply wp_mono; [apply tid_ok; eapply tyok_grows; [apply H1|done]|]. intros s2 z [H2 _].
    apply wp_bind. eapply wp_mono; [apply assert_hard_ok|]. intros s3 [] [H3 _]. apply wp_ret. by repeat (etrans; [done|]).
Qed.
Lemma ops_z_ok n s :
  (n < length (op_metavars s))%nat →
  wp (ops_z (OpMetavar n)) s (λ s' z, step s s' ∧ (grows s' F → op_metavars F !! n = Some z)).
Proof.
  intros Hn. destruct (lookup_lt_is_Some_2 _ _ Hn) as [z Hz].
  apply wp_bind, wp_get. eapply wp_lift; [by rewrite Hz|]. split; [done|].
  intros [_ Ho _]. by eapply prefix_lookup_Some.
Qed.
Lemma ops_z_ctor op s :
  op ∈ Overloads.all_ops Overloads.OVERLOADS → (∀ n, op ≠ OpMetavar n) →
  wp (ops_z op) s (λ s' z, step s s' ∧ z = Z3.OCtor op).
Proof.
  intros Hop Hn. unfold ops_z. destruct op; try congruence; rewrite decide_True by done; by apply wp_ret.
Qed.

(** *** The types of the program *)
Lemma z3_to_typ_tok v : tok 0 (z3_to_typ v) = true.
Proof.
  revert v. fix go 1. intros [| | | | | | |g args r]; [reflexivity..|]. cbn. rewrite go, andb_true_r.
  induction args as [|a args IH]; cbn; [reflexivity|]. rewrite go. exact IH.
Qed.
Lemma mapping_tok : Forall (λ t, tok 0 t = true) mapping.
Proof. apply Forall_forall. intros t (x & -> & _)%list_elem_of_fmap. apply z3_to_typ_tok. Qed.
Definition max_depth (ts : list J.typ) : nat := foldr (λ t n, Nat.max (depth t) n) 0%nat ts.
Lemma max_depth_elem t ts : t ∈ ts → (depth t <= max_depth ts)%nat.
Proof. induction 1 as [|t u ts _ IH]; cbn; unfold max_depth in *; lia. Qed.
Lemma depth_function args r n :
  (depth (J.Function args r) <= S n)%nat → Forall (λ a, (depth a <= n)%nat) args ∧ (depth r <= n)%nat.
Proof.
  cbn. intros H%le_S_n. induction args as [|a args IH]; cbn in *; [by split; [constructor|]|].
  destruct IH as [? ?]; [lia|]. split; [constructor; [lia|done]|done].
Qed.
Lemma inferred_depth_pos t : (0 < depth t)%nat.
Proof. destruct t; cbn; lia. Qed.

Abbreviation walk_ty := (walk_type (subt_enter_typ mapping)).
Lemma mapM_id_Ok {A} (f : A → comp never A) l : Forall (λ x, f x = Ok x) l → mapM f l = Ok l.
Proof. intros H. apply mapM_Ok. induction H; constructor; auto. Qed.
Lemma walk_type_closed n t : tok 0 t = true → (depth t <= n)%nat → walk_ty n t = Ok t.
Proof.
  revert n. induction t as [| | | | |args r IHa IHr| | | | |i] using J.typ_ind'; intros [|n] Ht Hd; try done; try (cbn in Hd; lia).
  apply depth_function in Hd as [Hda Hdr]. cbn in Ht. apply andb_true_iff in Ht as [Hta Htr].
  cbn. rewrite mapM_id_Ok; cbn; [by rewrite IHr|]. rewrite forallb_forall in Hta. rewrite Forall_forall in IHa, Hda.
  apply Forall_forall. intros a Ha. apply IHa; auto. apply Hta. by apply list_elem_of_In.
Qed.
Lemma walk_type_metavar n i t : mapping !! i = Some t → walk_ty (S n) (J.Metavar i) = walk_ty (S n) t.
Proof.
  intros Hi. cbn. rewrite Hi. cbn. pose proof mapping_tok as Hm. rewrite Forall_forall in Hm.
  pose proof (Hm t (list_elem_of_lookup_2 _ _ _ Hi)). by destruct t.
Qed.
Lemma walk_type_solved n t :
  tok (length mapping) t = true → (depth t + max_depth mapping <= n)%nat → walk_ty n t = Ok (solved t).
Proof.
  revert n. induction t as [| | | | |args r IHa IHr| | | | |i] using J.typ_ind'; intros [|n] Ht Hd; try done; try (cbn in Hd; lia).
  - assert (depth (J.Function args r) <= S (n - max_depth mapping))%nat as Hd' by (pose proof (inferred_depth_pos (J.Function args r)); lia).
    apply depth_function in Hd' as [Hda Hdr]. cbn in Ht. apply andb_true_iff in Ht as [Hta Htr].
    assert (max_depth mapping < n)%nat as Hn by (cbn in Hd; pose proof (inferred_depth_pos r); destruct args; cbn in Hd; lia).
    cbn. assert (mapM (walk_ty n) args = Ok (map solved args)) as ->.
    + apply mapM_Ok. rewrite forallb_forall in Hta. clear -IHa Hta Hda Hn.
      induction args as [|a args IH]; cbn; [constructor|]. apply Forall_cons in IHa as [IHa IHl], Hda as [Hda Hdl].
      constructor; [|apply IH; auto; intros; apply Hta; by right].
      apply IHa; [apply Hta; by left|lia].
    + cbn. rewrite IHr by (done || lia). done.
  - cbn in Ht. apply Nat.ltb_lt in Ht. destruct (lookup_lt_is_Some_2 _ _ Ht) as [t Hi].
    rewrite (walk_type_metavar _ _ _ Hi). cbn [solved]. rewrite Hi. cbn [default from_option id].
    pose proof mapping_tok as Hm. rewrite Forall_forall in Hm. pose proof (list_elem_of_lookup_2 _ _ _ Hi) as Hin.
    apply walk_type_closed; [by apply Hm|]. apply max_depth_elem in Hin.
    change (depth (J.Metavar i)) with 1%nat in Hd. lia.
Qed.
Lemma closed_solved t : tok 0 t = true → solved t = t.
Proof.
  induction t as [| | | | |args r IHa IHr| | | | |i] using J.typ_ind'; try done. cbn.
  intros [Ha Hr]%andb_true_iff. f_equal; [|auto]. rewrite forallb_forall in Ha.
  induction IHa as [|a args Hx _ IHl]; cbn; [done|]. f_equal; [apply Hx, Ha; by left|]. apply IHl. intros; apply Ha; by right.
Qed.
Lemma walk_type_partial n t t' : walk_ty n t = Ok t' → t' = solved t.
Proof.
  revert t t'. induction n as [|n IH]; intros t t' H; [done|].
  assert (∀ ts ts', mapM (walk_ty n) ts = Ok ts' → ts' = map solved ts) as IHl.
  { intros ts ts' Hts%mapM_Ok. induction Hts as [|? ? ? ? H1]; cbn; [done|]. apply IH in H1. by f_equal. }
  destruct t; try (cbn in H; comp_inv; cbn; naive_solver).
  cbn in H. cbn. destruct (mapping !! n0) as [t|] eqn:Hi; [|done]. cbn in *.
  pose proof mapping_tok as Hm. rewrite Forall_forall in Hm. pose proof (Hm t (list_elem_of_lookup_2 _ _ _ Hi)) as Ht.
  destruct t as [| | | | |args r| | | | |]; comp_inv; try done. apply IHl in Ha as ->. apply IH in Ha0 as ->.
  change (J.Function (map solved args) (solved r)) with (solved (J.Function args r)). by apply closed_solved.
Qed.
Definition walks (t : J.typ) : Prop := walk_typ (subt_enter_typ mapping) (subt_fuel mapping) t = Ok (solved t).
Lemma walk_typ_ok s t : tyok s t → grows s F → walks t.
Proof.
  intros Ht [[k Hv] _ _]. apply walk_type_solved; [|done].
  eapply tok_le; [|done]. unfold mapping, solve_model. rewrite length_map, Hv, length_app. lia.
Qed.

(** *** The program that is found

    [becomes e Γ t]: after the substitution of the types and the selection of the method
    calls, the expression has the type [t]. *)
Abbreviation subt := (TypeInf.walk_expr (subt_enter_typ mapping) (subt_exit_expr m (op_metavars F)) (subt_fuel mapping)).
Abbreviation subt_stmt := (TypeInf.walk_stmt (subt_enter_typ mapping) (subt_exit_expr m (op_metavars F)) (subt_fuel mapping)).
Abbreviation select := (JankyWalk.walk_expr MethodCallVisitor tt).
Abbreviation select_stmt := (JankyWalk.walk_stmt MethodCallVisitor tt).
Definition becomes (e : Expr) (Γ : Env) (t : J.typ) : Prop :=
  ∃ e2 e3, subt e = Ok e2 ∧ select e2 = Ok (tt, e3) ∧ expr_typed true e3 Γ t.
(** The same for statements, with what the types of declarations are. *)
Definition out_solved (Γ : Env) (st : Stmt) : Env :=
  match st with SVar x t _ _ => <[x := solved t]> Γ | _ => Γ end.
Definition becomes_stmt (st : Stmt) (ret : option J.typ) (Γ : Env) : Prop :=
  ∃ st2 st3, subt_stmt st = Ok st2 ∧ select_stmt st2 = Ok (tt, st3) ∧ stmt_typed true st3 ret Γ ∧
    declared st3 = declared st ∧
    out_env Γ st3 = out_solved Γ st.

Lemma becomes_list es Γ ts :
  Forall2 (λ e t, becomes e Γ t) es ts →
  ∃ es2 es3, mapM subt es = Ok es2 ∧ mapSM (JankyWalk.walk_expr MethodCallVisitor) tt es2 = Ok (tt, es3) ∧
    Forall2 (λ e t, expr_typed true e Γ t) es3 ts.
Proof.
  induction 1 as [|e t es ts (e2 & e3 & H1 & H2 & H3) _ (es2 & es3 & IH1 & IH2 & IH3)]; [by exists [], []|].
  exists (e2 :: es2), (e3 :: es3). simpl. rewrite H1, IH1. simpl. rewrite H2. simpl. rewrite IH2. simpl.
  split_and!; [done..|by constructor].
Qed.
Lemma some_types {A} (P : A → J.typ → Prop) l : Forall (λ x, ∃ t, P x t) l → ∃ ts, Forall2 P l ts.
Proof. induction 1 as [|x l [t Ht] _ [ts IH]]; [by exists []|]. exists (t :: ts). by constructor. Qed.
Lemma some_types_inv {A} (P : A → J.typ → Prop) l ts : Forall2 P l ts → Forall (λ x, ∃ t, P x t) l.
Proof. induction 1; constructor; eauto. Qed.

Lemma becomes_lit l p Γ : becomes (ELit l p) Γ (typ_lit l).
Proof. exists (ELit l p), (ELit l p). split_and!; [done..|]. by destruct l as [| | | |[]|]. Qed.
Lemma becomes_array es p Γ : Forall (λ e, ∃ t, becomes e Γ t) es → becomes (EArray es p) Γ J.Array.
Proof.
  intros [ts (es2 & es3 & H1 & H2 & H3%some_types_inv)%becomes_list]%some_types.
  exists (EArray es2 p), (EArray es3 p). simpl. rewrite H1, H2. split; [done|]. split; [done|]. split; [|done]. by apply all_Forall.
Qed.
Lemma becomes_object {A} (kvs : list (A * Expr)) (k : A → Key) p Γ :
  Forall (λ kv, ∃ t, becomes kv.2 Γ t) kvs → becomes (EObject (map (λ kv, (k kv.1, kv.2)) kvs) p) Γ J.DynObject.
Proof.
  intros H. assert (∃ kvs2 kvs3,
    mapM (λ kv, e ← subt kv.2; Ok (kv.1, e)) (map (λ kv, (k kv.1, kv.2)) kvs) = Ok kvs2 ∧
    mapSM (λ s kv, '(s, e) ← JankyWalk.walk_expr MethodCallVisitor s kv.2; Ok (s, (kv.1, e))) tt kvs2 = Ok (tt, kvs3) ∧
    Forall (λ kv : Key * Expr, ∃ t, expr_typed true kv.2 Γ t) kvs3) as (kvs2 & kvs3 & H1 & H2 & H3).
  { induction H as [|[a e] kvs (t & e2 & e3 & H1 & H2 & H3) _ (kvs2 & kvs3 & IH1 & IH2 & IH3)]; [by exists [], []|].
    simpl in *. exists ((k a, e2) :: kvs2), ((k a, e3) :: kvs3). rewrite H1. simpl. rewrite IH1. simpl. rewrite H2. simpl.
    rewrite IH2. split; [done|]. split; [done|]. constructor; [|done]. by exists t. }
  exists (EObject kvs2 p), (EObject kvs3 p). simpl. rewrite H1. simpl. rewrite H2. split; [done|]. split; [done|]. split; [|done].
  by apply all_Forall.
Qed.
Lemma becomes_id x t p Γ : walks t → Γ !! x = Some (solved t) → becomes (EId x t p) Γ (solved t).
Proof.
  intros Ht Hx. exists (EId x (solved t) p), (EId x (solved t) p). simpl. by rewrite Ht.
Qed.
Lemma becomes_dot e t x p Γ : becomes e Γ t → becomes (EDot e x p) Γ J.Any.
Proof.
  intros (e2 & e3 & H1 & H2 & H3). exists (EDot e2 x p), (EDot e3 x p). simpl. rewrite H1. simpl. rewrite H2.
  split; [done|]. split; [done|]. split; [|done]. by exists t.
Qed.
Lemma becomes_bracket e f t t2 p Γ :
  becomes e Γ (solved t) → becomes f Γ t2 → walks t → indexable (solved t) → indexer t2 →
  becomes (EBracket e f t p) Γ J.Any.
Proof.
  intros (e2 & e3 & H1 & H2 & H3) (f2 & f3 & G1 & G2 & G3) Ht Hi Hj.
  exists (EBracket e2 f2 (solved t) p), (EBracket e3 f3 (solved t) p). simpl. rewrite H1, G1, Ht. simpl. rewrite H2. simpl. rewrite G2.
  split; [done|]. split; [done|]. simpl. split_and!; eauto.
Qed.
Lemma becomes_assign_id x t e p Γ :
  walks t → Γ !! x = Some (solved t) → becomes e Γ (solved t) → becomes (EAssign (LId x t) e p) Γ (solved t).
Proof.
  intros Ht Hx (e2 & e3 & H1 & H2 & H3). exists (EAssign (LId x (solved t)) e2 p), (EAssign (LId x (solved t)) e3 p).
  simpl. rewrite Ht, H1. simpl. rewrite H2. split; [done|]. split; [done|]. by split.
Qed.
Lemma becomes_assign_dot c t f e te p Γ :
  becomes c Γ t → becomes e Γ te → becomes (EAssign (LDot c f) e p) Γ te.
Proof.
  intros (c2 & c3 & G1 & G2 & G3) (e2 & e3 & H1 & H2 & H3). exists (EAssign (LDot c2 f) e2 p), (EAssign (LDot c3 f) e3 p).
  simpl. rewrite G1. simpl. rewrite H1. simpl. rewrite G2. simpl. rewrite H2. split; [done|]. split; [done|]. split; [done|]. by exists t.
Qed.
Lemma becomes_assign_bracket o t f tf e te p Γ :
  walks t → becomes o Γ (solved t) → becomes f Γ tf → becomes e Γ te → becomes (EAssign (LBracket o f t) e p) Γ te.
Proof.
  intros Ht (o2 & o3 & K1 & K2 & K3) (f2 & f3 & G1 & G2 & G3) (e2 & e3 & H1 & H2 & H3).
  exists (EAssign (LBracket o2 f2 (solved t)) e2 p), (EAssign (LBracket o3 f3 (solved t)) e3 p).
  simpl. rewrite K1. simpl. rewrite G1. simpl. rewrite Ht. simpl. rewrite H1. simpl. rewrite K2. simpl. rewrite G2. simpl. rewrite H2.
  split; [done|]. split; [done|]. split; [done|]. split; eauto.
Qed.
Lemma becomes_call f es ts t p Γ :
  becomes f Γ (J.Function ts t) → Forall2 (λ e t, becomes e Γ t) es ts → becomes (ECall f es p) Γ t.
Proof.
  intros (f2 & f3 & G1 & G2 & G3) (es2 & es3 & H1 & H2 & H3)%becomes_list.
  exists (ECall f2 es2 p), (ECall f3 es3 p). simpl. rewrite G1, H1. simpl. rewrite G2. simpl. rewrite H2. split; [done|]. split; [done|].
  exists ts. split; [done|]. by apply args_typed_strict.
Qed.

Lemma becomes_coercion e a b p Γ :
  walks a → walks b → becomes e Γ (solved a) → becomes (ECoercion (Meta a b) e p) Γ (solved b).
Proof.
  intros Ha Hb (e2 & e3 & H1 & H2 & H3). unfold becomes. simpl. rewrite Ha, Hb, H1. simpl. case_decide as Hd.
  - exists e2, e3. rewrite <- Hd. done.
  - exists (ECoercion (Meta (solved a) (solved b)) e2 p), (ECoercion (Meta (solved a) (solved b)) e3 p).
    simpl. rewrite H2. split; [done|]. split; [done|]. by exists (solved a).
Qed.
Lemma becomes_coercion_inv e a b p Γ :
  becomes (ECoercion (Meta a b) e p) Γ (solved b) → walks a ∧ becomes e Γ (solved a).
Proof.
  intros (e2 & e3 & H1 & H2 & H3). simpl in H1. comp_inv.
  pose proof (walk_type_partial _ _ _ Ha) as ->. pose proof (walk_type_partial _ _ _ Ha2) as ->. split; [done|].
  simpl in H1. case_decide as Hd; simplify_eq; [rewrite Hd; by exists e2, e3|].
  simpl in H2. comp_inv. destruct a1 as [[] e4]. comp_inv. simpl in H2. simplify_eq.
  exists a2, e4. split; [done|]. split; [done|]. destruct H3 as (from & Hf & Hc). simpl in Hc. by injection Hc as ->.
Qed.
Lemma becomes_meta e a b p Γ :
  walks a → walks b → becomes e Γ (solved a) → becomes (coercion_ (meta a b) e p) Γ (solved b).
Proof.
  intros Ha Hb He. unfold meta. case_decide; [by subst|]. by apply becomes_coercion.
Qed.
Lemma becomes_coerce e a b p Γ :
  walks a → walks b → becomes e Γ (solved a) → becomes (coerce a b e p) Γ (solved b).
Proof.
  intros Ha Hb He. unfold coerce. repeat (case_match; try by apply becomes_meta). subst.
  apply (becomes_coercion_inv _ _ J.Any) in He as [? ?]. by apply becomes_meta.
Qed.

(** *** Operators, methods and functions *)
Lemma janky_typ_error {E E'} f t : @RTS.janky_typ E f = Ok t → @RTS.janky_typ E' f = Ok t.
Proof. by destruct f; cbn; intros [=<-]. Qed.
Lemma get_type_by_prefix_error {E E'} n a ty t :
  @get_type_by_prefix E n a ty = Ok t → @get_type_by_prefix E' n a ty = Ok t.
Proof.
  unfold get_type_by_prefix. destruct ty; try naive_solver.
  all: destruct (assoc _ _) as [l|]; [|done]; cbn; destruct (head _); cbn; naive_solver.
Qed.
Lemma becomes_js_op op es n op' ts t p Γ :
  eval_op m (op_metavars F) (OpMetavar n) = Ok op' → op_signature op' = Some (J.Function ts t) →
  Forall2 (λ e t, becomes e Γ t) es ts → becomes (EJsOp op es (mkJsOpTypeinf (OpMetavar n)) p) Γ t.
Proof.
  intros Hop Hs Hes. unfold becomes. simpl TypeInf.walk_expr. simpl in Hop. destruct op' as [b|u|f| |]; simpl in Hs; try done.
  - destruct (binop_janky_typ b) as [i o] eqn:Hb. injection Hs as <- <-.
    apply Forall2_cons_inv_r in Hes as (x & ? & (x2 & x3 & X1 & X2 & X3) & Hes & ->).
    apply Forall2_cons_inv_r in Hes as (y & ? & (y2 & y3 & Y1 & Y2 & Y3) & ->%Forall2_nil_inv_r & ->).
    exists (EBinary b x2 y2 p), (EBinary b x3 y3 p). simpl. rewrite X1, Y1. simpl. rewrite Hop, X2. simpl. rewrite Y2, Hb.
    by split_and!.
  - destruct (unop_janky_typ u) as [i o] eqn:Hb. injection Hs as <- <-.
    apply Forall2_cons_inv_r in Hes as (x & ? & (x2 & x3 & X1 & X2 & X3) & ->%Forall2_nil_inv_r & ->).
    exists (EUnary u x2 p), (EUnary u x3 p). simpl. rewrite X1. simpl. rewrite Hop, X2, Hb. by split_and!.
  - apply becomes_list in Hes as (es2 & es3 & H1 & H2 & H3).
    destruct (@RTS.janky_typ never f) as [t'| |] eqn:Hf; simplify_eq.
    exists (EPrimCall f es2 p), (EPrimCall f es3 p). rewrite H1. simpl. rewrite Hop, H2. split; [done|]. split; [done|].
    exists ts. split; [by eapply janky_typ_error|]. by apply args_typed_strict.
Qed.
Lemma becomes_method_call e n es ts t ty p Γ :
  becomes e Γ (solved ty) → walks ty → Forall2 (λ e t, becomes e Γ t) es ts →
  @get_type_by_prefix never n (length es) (solved ty) = Ok (J.Function ts t) →
  becomes (EMethodCall e n es ty p) Γ t.
Proof.
  intros (e2 & e3 & E1 & E2 & E3) Hty Hes Hn. pose proof (Forall2_length _ _ _ Hes) as Hl.
  apply becomes_list in Hes as (es2 & es3 & H1 & H2 & H3). pose proof (Forall2_length _ _ _ H3) as Hl3.
  rewrite <- Hl3 in Hl. rewrite Hl in Hn. unfold becomes. simpl TypeInf.walk_expr. rewrite E1, H1, Hty. simpl.
  exists (EMethodCall e2 n es2 (solved ty) p). simpl. rewrite E2. simpl. rewrite H2. simpl.
  pose proof (get_type_by_prefix_error (E' := TypeCheckingError) _ _ _ _ Hn) as Hn'.
  apply args_typed_strict in H3. destruct (solved ty) eqn:Hs; rewrite ?Hn; eexists; (split; [done|]); (split; [done|]);
    simpl; eauto 10.
Qed.
Lemma becomes_length e ty p Γ :
  becomes e Γ (solved ty) → walks ty → becomes (ELength e ty p) Γ (length_typ (solved ty)).
Proof.
  intros (e2 & e3 & E1 & E2 & E3) Hty. unfold becomes. simpl TypeInf.walk_expr. rewrite E1, Hty. simpl.
  exists (ELength e2 (solved ty) p). simpl. rewrite E2. simpl.
  destruct (solved ty) eqn:Hs; eexists; (split; [done|]); (split; [done|]); simpl;
    first [by eauto|eexists; split; [done|]; simpl; eauto].
Qed.
Lemma becomes_func r args b afc p Γ :
  let args' := map (λ a, (a.1, solved a.2)) args in
  becomes_stmt b (Some (solved r)) (insert_args (hide true Γ (declared b)) args') →
  walks r → Forall (λ a, walks a.2) args → NoDup (map fst args) →
  becomes (EFunc (mkFunc r args b ∅ afc) p) Γ (J.Function (map solved (map snd args)) (solved r)).
Proof.
  intros args' (b2 & b3 & B1 & B2 & B3 & B4 & _) Hr Ha Hn. unfold becomes. simpl TypeInf.walk_expr.
  assert (mapM (λ xt, t ← walk_typ (subt_enter_typ mapping) (subt_fuel mapping) xt.2; Ok (xt.1, t)) args = Ok args') as ->.
  { apply mapM_Ok. unfold args'. clear -Ha. induction Ha as [|a args Hw _ IH]; constructor; [|done]. by rewrite Hw. }
  rewrite Hr, B1. simpl. exists (EFunc (mkFunc (solved r) args' b2 ∅ afc) p), (EFunc (mkFunc (solved r) args' b3 ∅ afc) p).
  simpl. rewrite B2. split; [done|]. split; [done|]. rewrite B4. split; [done|]. split.
  - intros _. split; [|apply map_empty_subseteq]. unfold args'. by rewrite map_map.
  - unfold args'. by rewrite !map_map.
Qed.

(** *** Statements *)
Lemma becomes_var x t e p ret Γ :
  walks t → (is_undefined e = true ∨ becomes e Γ (solved t)) → becomes_stmt (SVar x t e p) ret Γ.
Proof.
  intros Ht [He|(e2 & e3 & E1 & E2 & E3)]; unfold becomes_stmt; simpl; rewrite Ht.
  - destruct e as [[]| | | | | | | | | | | | | | | | | | | |]; try done.
    eexists _, _. split_and!; done.
  - exists (SVar x (solved t) e2 p), (SVar x (solved t) e3 p). simpl. rewrite E1. simpl. rewrite E2. by split_and!.
Qed.
Fixpoint becomes_stmts (ss : list Stmt) (ret : option J.typ) (Γ : Env) : Prop :=
  match ss with [] => True | st :: ss => becomes_stmt st ret Γ ∧ becomes_stmts ss ret (out_solved Γ st) end.
Lemma becomes_block ss p ret Γ : becomes_stmts ss ret Γ → becomes_stmt (SBlock ss p) ret Γ.
Proof.
  intros H. assert (∃ ss2 ss3, mapM subt_stmt ss = Ok ss2 ∧
    mapSM (JankyWalk.walk_stmt MethodCallVisitor) tt ss2 = Ok (tt, ss3) ∧
    stmts_typed (λ st Γ, stmt_typed true st ret Γ) ss3 Γ ∧ declared (SBlock ss3 p) = declared (SBlock ss p)) as (ss2 & ss3 & H1 & H2 & H3 & H4).
  { revert Γ H. induction ss as [|st ss IH]; intros Γ; [by exists [], []|].
    intros [(st2 & st3 & S1 & S2 & S3 & S4 & S5) (ss2 & ss3 & IH1 & IH2 & IH3 & IH4)%IH].
    exists (st2 :: ss2), (st3 :: ss3). simpl in *. rewrite S1, IH1. simpl. rewrite S2. simpl. rewrite IH2, S4, S5, IH4.
    by split_and!. }
  exists (SBlock ss2 p), (SBlock ss3 p). simpl in *. rewrite H1. simpl. rewrite H2. by split_and!.
Qed.
Lemma becomes_expr_stmt e t p ret Γ : becomes e Γ t → becomes_stmt (SExpr e p) ret Γ.
Proof.
  intros (e2 & e3 & E1 & E2 & E3). exists (SExpr e2 p), (SExpr e3 p). simpl. rewrite E1. simpl. rewrite E2. split_and!; eauto.
Qed.
Lemma becomes_throw e t p ret Γ : becomes e Γ t → becomes_stmt (SThrow e p) ret Γ.
Proof.
  intros (e2 & e3 & E1 & E2 & E3). exists (SThrow e2 p), (SThrow e3 p). simpl. rewrite E1. simpl. rewrite E2. split_and!; eauto.
Qed.
Lemma becomes_return e t p Γ : becomes e Γ t → becomes_stmt (SReturn e p) (Some t) Γ.
Proof.
  intros (e2 & e3 & E1 & E2 & E3). exists (SReturn e2 p), (SReturn e3 p). simpl. rewrite E1. simpl. rewrite E2. split_and!; eauto.
Qed.
Lemma becomes_if c s1 s2 p ret Γ :
  becomes c Γ J.Bool → becomes_stmt s1 ret Γ → becomes_stmt s2 ret Γ → becomes_stmt (SIf c s1 s2 p) ret Γ.
Proof.
  intros (c2 & c3 & C1 & C2 & C3) (a2 & a3 & A1 & A2 & A3 & A4 & _) (b2 & b3 & B1 & B2 & B3 & B4 & _).
  exists (SIf c2 a2 b2 p), (SIf c3 a3 b3 p). simpl. rewrite C1, A1, B1. simpl. rewrite C2. simpl. rewrite A2. simpl. rewrite B2.
  rewrite A4, B4. by split_and!.
Qed.
Lemma becomes_loop b p ret Γ : becomes_stmt b ret Γ → becomes_stmt (SLoop b p) ret Γ.
Proof.
  intros (b2 & b3 & B1 & B2 & B3 & B4 & _). exists (SLoop b2 p), (SLoop b3 p). simpl. rewrite B1. simpl. rewrite B2. by split_and!.
Qed.
Lemma becomes_label x b p ret Γ : becomes_stmt b ret Γ → becomes_stmt (SLabel x b p) ret Γ.
Proof.
  intros (b2 & b3 & B1 & B2 & B3 & B4 & _). exists (SLabel x b2 p), (SLabel x b3 p). simpl. rewrite B1. simpl. rewrite B2. by split_and!.
Qed.
Lemma becomes_finally a b p ret Γ : becomes_stmt a ret Γ → becomes_stmt b ret Γ → becomes_stmt (SFinally a b p) ret Γ.
Proof.
  intros (a2 & a3 & A1 & A2 & A3 & A4 & _) (b2 & b3 & B1 & B2 & B3 & B4 & _).
  exists (SFinally a2 b2 p), (SFinally a3 b3 p). simpl. rewrite A1, B1. simpl. rewrite A2. simpl. rewrite B2, A4, B4. by split_and!.
Qed.
Lemma becomes_catch a x b p ret Γ :
  becomes_stmt a ret Γ → becomes_stmt b ret (<[x := J.Any]> Γ) → becomes_stmt (SCatch a x b p) ret Γ.
Proof.
  intros (a2 & a3 & A1 & A2 & A3 & A4 & _) (b2 & b3 & B1 & B2 & B3 & B4 & _).
  exists (SCatch a2 x b2 p), (SCatch a3 x b3 p). simpl. rewrite A1, B1. simpl. rewrite A2. simpl. rewrite B2, A4, B4. by split_and!.
Qed.
(** *** The constraints of expressions *)
Definition env_ok (s : Typeinf) (D : gset Id) (Γ : Env) : Prop :=
  ∀ x, x ∈ D → ∃ ty, env s !! x = Some ty ∧ tyok s ty ∧ Γ !! x = Some (solved ty).
Lemma env_ok_step s s' D Γ : step s s' → env_ok s D Γ → env_ok s' D Γ.
Proof.
  intros [Hg He _] H x (ty & ? & ? & ?)%H. exists ty. rewrite He. split_and!; [done|by eapply tyok_grows|done].
Qed.
Lemma env_ok_sub s D D' Γ : D' ⊆ D → env_ok s D Γ → env_ok s D' Γ.
Proof. intros HD H x Hx. by apply H, HD. Qed.

(** What has been shown of a state holds of the later ones. *)
Ltac forward :=
  repeat match goal with
  | H : step ?a ?b, T : tyok ?a ?t |- _ =>
      lazymatch goal with _ : tyok b t |- _ => fail | _ => let N := fresh "T" in pose proof (tyok_grows _ _ _ (step_grows _ _ H) T) as N end
  | H : step ?a ?b, T : Forall (tyok ?a) ?t |- _ =>
      lazymatch goal with _ : Forall (tyok b) t |- _ => fail
      | _ => let N := fresh "T" in pose proof (Forall_impl _ _ _ T (λ u, tyok_grows _ _ u (step_grows _ _ H))) as N end
  | H : step ?a ?b, T : env_ok ?a ?D ?Γ |- _ =>
      lazymatch goal with _ : env_ok b D Γ |- _ => fail | _ => let N := fresh "T" in pose proof (env_ok_step _ _ _ _ H T) as N end
  end.
(** What holds below the last state holds below the earlier ones. *)
Ltac below :=
  repeat match goal with
  | H : step ?a ?b, G : grows ?b F |- _ =>
      lazymatch goal with _ : grows a F |- _ => fail | _ => let N := fresh "B" in pose proof (step_below _ _ H G) as N end
  end.
Ltac chain := repeat (first [eassumption | etrans; [eassumption|]]); try reflexivity.
(** One call, with what is known of it. *)
Tactic Notation "call" uconstr(L) "as" simple_intropattern(p) :=
  apply wp_bind; eapply wp_mono; [apply L; forward; try done|]; cbn beta; intros p.

Lemma tyok_fun s args r : Forall (tyok s) args → tyok s r → tyok s (J.Function args r).
Proof.
  intros Ha Hr. unfold tyok. cbn. apply andb_true_iff. split; [|done].
  apply forallb_forall. intros a Hin%list_elem_of_In. by apply (proj1 (Forall_forall _ _) Ha).
Qed.
Lemma closed_ok s t : tok 0 t = true → tyok s t.
Proof. apply tok_le. lia. Qed.
Ltac tys := forward; first [assumption | reflexivity | by apply tyok_fun | by apply closed_ok].
(** [means m s ?P], for a formula [m] that is written out. *)
Ltac mean :=
  lazymatch goal with
  | |- means (mret _) _ _ => exact (means_true _ _)
  | |- means (not_ _) _ _ => exact (means_not _ _)
  | |- means (eq_ _ _) _ _ => apply means_eq; tys
  | |- means (eq3_ _ _ _) _ _ => apply means_eq3; tys
  | |- means (and_ _) _ _ => eapply means_and; mean_list
  | |- means (or_ _) _ _ => eapply means_or; mean_list
  | |- means (known _ _ _ _ _ _ _ _) _ _ => unfold known; mean
  | |- means (arg_coerces _ _ _ _) _ _ => unfold arg_coerces; mean
  end
with mean_list :=
  lazymatch goal with
  | |- Forall2 _ (_ :: _) _ => econstructor; [let s := fresh "s" in let H := fresh "Hs" in intros s H; mean|mean_list]
  | |- Forall2 _ [] _ => constructor
  end.
Lemma means_bind {A} mm s P (f : ZBool → M A) Q :
  means mm s P → (∀ s' φ, step s s' → (grows s' F → holds φ → P) → wp (f φ) s' Q) → wp (mm ≫= f) s Q.
Proof. intros H HQ. apply wp_bind. eapply wp_mono; [apply H|]. intros s' φ [? ?]. by apply HQ. Qed.
Lemma wobbly_ok p e phis t s :
  tyok s t →
  wp (wobbly p e phis t) s (λ s' r, step s s' ∧ tyok s' r.2.2 ∧
    (grows s' F → holds r.2.1 →
      match phis with Some φ => holds φ | None => True end ∧
      ∀ Γ, becomes e Γ (solved t) → becomes r.1 Γ (solved r.2.2))).
Proof.
  intros Ht. unfold wobbly.
  apply wp_bind. eapply wp_mono; [apply fresh_weight_ok|]. cbn beta. intros s1 w H1.
  apply wp_bind. eapply wp_mono; [apply fresh_metavar_ok|]. intros s2 α [H2 Hα]. forward.
  apply wp_bind. eapply wp_mono; [by apply is_ground_ok|]. cbn beta. intros s3 g H3. forward.
  eapply means_bind; [mean|]. intros s4 φ G4 _. forward.
  apply wp_ret. cbn. split; [chain|]. split; [done|]. intros HF Hh. split.
  - destruct phis as [φ'|]; [|done]. unfold holds in *. cbn in Hh. by apply andb_true_iff in Hh as [? _].
  - intros Γ He. apply becomes_coerce; eauto using walk_typ_ok.
Qed.
Lemma holds_BAnd φs : holds (Z3.BAnd φs) ↔ Forall holds φs.
Proof.
  unfold holds. cbn. induction φs as [|φ φs IH]; cbn; [by split; [constructor|]|].
  by rewrite andb_true_iff, Forall_cons, IH.
Qed.
Lemma holds_BOr φs : holds (Z3.BOr φs) ↔ Exists holds φs.
Proof.
  unfold holds. cbn. induction φs as [|φ φs IH]; cbn; [by rewrite Exists_nil|].
  by rewrite orb_true_iff, Exists_cons, IH.
Qed.
Lemma holds_both a b : holds (both a b) ↔ holds a ∧ holds b.
Proof. unfold both. rewrite holds_BAnd, !Forall_cons, Forall_nil. tauto. Qed.

(** What the constraints of an expression say of it. *)
Definition gen_ok (mm : M typed) (D : gset Id) (Γ : Env) : Prop := ∀ s, env_ok s D Γ →
  wp mm s (λ s' r, step s s' ∧ tyok s' r.2.2 ∧
    (grows s' F → holds r.2.1 → becomes r.1 Γ (solved r.2.2))).
Lemma gen_bind {A} mm D Γ s (f : typed → M A) Q :
  gen_ok mm D Γ → env_ok s D Γ →
  (∀ s' e φ t, step s s' → tyok s' t → (grows s' F → holds φ → becomes e Γ (solved t)) → wp (f (e, (φ, t))) s' Q) →
  wp (mm ≫= f) s Q.
Proof.
  intros H Hs HQ. apply wp_bind. eapply wp_mono; [by apply H|]. intros s' [e [φ t]] (? & ? & ?). by apply HQ.
Qed.
Lemma weight_bind {A} s (f : ZBool → M A) Q :
  (∀ s' w, step s s' → wp (f w) s' Q) → wp (fresh_weight ≫= f) s Q.
Proof. intros H. apply wp_bind. eapply wp_mono; [apply fresh_weight_ok|]. auto. Qed.
Lemma weights_bind {A B} (l : list B) s (f : list ZBool → M A) Q :
  (∀ s' ws, step s s' → length ws = length l → wp (f ws) s' Q) → wp (mapM (λ _, fresh_weight) l ≫= f) s Q.
Proof. intros H. apply wp_bind. eapply wp_mono; [apply fresh_weights_ok|]. intros ? ? [? ?]. auto. Qed.
Lemma metavar_bind {A} s (f : J.typ → M A) Q :
  (∀ s' α, step s s' → tyok s' α → wp (f α) s' Q) → wp (fresh_metavar ≫= f) s Q.
Proof. intros H. apply wp_bind. eapply wp_mono; [apply fresh_metavar_ok|]. intros ? ? [? ?]. auto. Qed.
Lemma metavars_bind {A B} (l : list B) s (f : list J.typ → M A) Q :
  (∀ s' αs, step s s' → Forall (tyok s') αs → length αs = length l → wp (f αs) s' Q) →
  wp (fresh_metavars l ≫= f) s Q.
Proof. intros H. apply wp_bind. eapply wp_mono; [apply fresh_metavars_ok|]. intros ? ? (? & ? & ?). auto. Qed.

(** The expression is wobbly: it has its type if the parts have theirs. *)
Lemma gen_wobbly p e φ t s s0 Γ :
  tyok s t → step s0 s → (grows s F → holds φ → becomes e Γ (solved t)) →
  wp (wobbly p e (Some φ) t) s (λ s' r, step s0 s' ∧ tyok s' r.2.2 ∧
    (grows s' F → holds r.2.1 → becomes r.1 Γ (solved r.2.2))).
Proof.
  intros Ht H0 He. eapply wp_mono; [by apply wobbly_ok|]. intros s' r (H1 & Hr & Hh).
  split; [by etrans|]. split; [done|]. intros HF Hφ. below. destruct (Hh HF Hφ) as [? Hb]. by apply Hb, He.
Qed.

Section parts.
Variables (rec : Expr → M typed) (D : gset Id) (Γ : Env).
Abbreviation rec_ok e := (gen_ok (rec e) D Γ).

Lemma exprs_bind {A} es s (f : _ → M A) Q :
  Forall (λ e, rec_ok e) es → env_ok s D Γ →
  (∀ s' es' φs ts, step s s' → Forall (tyok s') ts → length es' = length es →
    (grows s' F → Forall holds φs → Forall2 (λ e t, becomes e Γ (solved t)) es' ts) →
    length ts = length es → wp (f (es', (φs, ts))) s' Q) →
  wp (cgen_exprs rec es ≫= f) s Q.
Proof.
  intros He Hs HQ. unfold cgen_exprs. apply wp_bind, wp_bind.
  assert (wp (mapM rec es) s (λ s' l, step s s' ∧ length l = length es ∧ Forall (λ r, tyok s' r.2.2) l ∧
    (grows s' F → Forall (λ r, holds r.2.1 → becomes r.1 Γ (solved r.2.2)) l))) as H.
  { clear HQ. revert s Hs. induction He as [|e es He _ IH]; intros s Hs; [by apply wp_ret|].
    simpl. eapply gen_bind; [done..|]. intros s1 e' φ t H1 Ht Hb. forward.
    apply wp_bind. eapply wp_mono; [by apply IH|]. intros s2 l (H2 & Hl & Hts & Hbs). forward. apply wp_ret. simpl.
    split; [chain|]. split; [by f_equal|]. split; [by constructor|]. intros HF. below. constructor; auto. }
  eapply wp_mono; [apply H|]. intros s1 l (H1 & Hl & Hts & Hbs). apply wp_ret. apply HQ; rewrite ?length_map; try done.
  - clear -Hts. induction Hts; constructor; auto.
  - intros HF Hφ. specialize (Hbs HF). clear -Hbs Hφ. induction Hbs as [|r l Hr _ IH]; simpl in *; constructor.
    + apply Forall_cons in Hφ as [? _]. auto.
    + apply IH. by apply Forall_cons in Hφ as [_ ?].
Qed.

Lemma cgen_dot_ok e p s :
  rec_ok e → env_ok s D Γ →
  wp (cgen_dot rec e p) s (λ s' r, step s s' ∧ (grows s' F → holds r.2 → becomes r.1 Γ J.DynObject)).
Proof.
  intros He Hs. unfold cgen_dot. apply weight_bind. intros s1 w H1. forward.
  eapply gen_bind; [done..|]. intros s2 e' φ t H2 Ht Hb. forward.
  eapply means_bind; [mean|]. intros s3 φ' H3 _. forward. apply wp_ret. split; [chain|]. simpl.
  intros HF [Hφ _]%holds_both. below. apply (becomes_coerce _ _ J.DynObject); eauto using walk_typ_ok. done.
Qed.

Lemma cgen_bracket_ok o f p s :
  rec_ok o → rec_ok f → env_ok s D Γ →
  wp (cgen_bracket rec o f p) s (λ s' '(o', f', t, φ), step s s' ∧ tyok s' t ∧
    (grows s' F → holds φ → walks t ∧ becomes o' Γ (solved t) ∧ indexable (solved t) ∧
      ∃ tf, becomes f' Γ tf ∧ indexer tf)).
Proof.
  intros Ho Hf Hs. unfold cgen_bracket.
  eapply gen_bind; [done..|]. intros s1 o' φ1 ot H1 Hot Hbo. forward.
  eapply gen_bind; [done..|]. intros s2 f' φ2 ft H2 Hft Hbf. forward.
  apply metavar_bind. intros s3 otf H3 Hotf. forward. apply metavar_bind. intros s4 ftf H4 Hftf. forward.
  apply weight_bind. intros s5 wc H5. forward. apply weight_bind. intros s6 wr H6. forward.
  eapply means_bind; [mean|]. intros s7 φ3 H7 Hφ3. forward. apply wp_ret. split; [chain|]. split; [done|].
  intros HF [[Hφ1 Hφ2]%holds_both Hφ]%holds_both. specialize (Hφ3 HF Hφ). below.
  assert (walks ot ∧ walks otf ∧ walks ft ∧ walks ftf) as (? & ? & ? & ?) by (split_and!; by eapply walk_typ_ok).
  split; [done|]. split; [apply becomes_coerce; auto|]. simpl in Hφ3.
  assert (indexable (solved otf) ∧ indexer (solved ftf)) as [Hi Hj]; [|split; [done|]; exists (solved ftf); split; [apply becomes_coerce; auto|done]].
  unfold indexable, indexer. rewrite !elem_of_cons. clear -Hφ3. intuition congruence.
Qed.
Lemma coerce_args_length ts finals es p :
  length ts = length es → length finals = length es → length (coerce_args ts finals es p) = length es.
Proof. intros. unfold coerce_args. rewrite length_map, !length_zip_with. lia. Qed.
Lemma coerce_args_ok ts finals es p s :
  Forall2 (λ e t, becomes e Γ (solved t)) es ts → length finals = length es →
  Forall (tyok s) ts → Forall (tyok s) finals → grows s F →
  Forall2 (λ e t, becomes e Γ t) (coerce_args ts finals es p) (map solved finals).
Proof.
  intros H. revert finals. unfold coerce_args. induction H as [|e t es ts He _ IH]; intros [|f finals] Hl Ht Hf HF; simplify_eq/=; [constructor|].
  apply Forall_cons in Ht as [? ?], Hf as [? ?]. simpl. constructor; [|apply IH; auto].
  apply becomes_coerce; eauto using walk_typ_ok.
Qed.

Lemma mapM_list_means {B} (f : B → M ZBool) (g : B → Prop) l s :
  (∀ x s', x ∈ l → step s s' → means (f x) s' (g x)) →
  wp (mapM f l) s (λ s' φs, step s s' ∧ (grows s' F → Forall2 (λ φ x, holds φ → g x) φs l)).
Proof.
  intros H. assert (∀ s0, step s s0 → wp (mapM f l) s0 (λ s' φs, step s0 s' ∧
    (grows s' F → Forall2 (λ φ x, holds φ → g x) φs l))) as Hw; [|by apply Hw].
  induction l as [|x l IH]; intros s0 H0; simpl; [by apply wp_ret|].
  eapply means_bind; [apply H; [by left|done]|]. intros s1 φ H1 Hφ.
  apply wp_bind. eapply wp_mono; [apply IH; [intros; apply H; [by right|done]|by etrans]|]. intros s2 φs [H2 Hφs].
  apply wp_ret. split; [chain|]. intros HF. below. constructor; eauto.
Qed.
Lemma means_and_list {B} (f : B → M ZBool) (g : B → Prop) l s :
  (∀ x s', x ∈ l → step s s' → means (f x) s' (g x)) → means (and_ (map f l)) s (Forall g l).
Proof.
  intros H. unfold and_. apply wp_bind.
  assert (∀ l s, mapM id (map f l) s = mapM f l s) as E.
  { clear. intros l. induction l as [|x l IH]; intros s; [done|]. simpl. unfold mbind, M_bind. destruct (f x s) as [[s1 φ]| |]; [|done..].
    by rewrite IH. }
  unfold wp. rewrite E. apply (mapM_list_means f g) in H. eapply wp_mono; [exact H|]. intros s1 φs [H1 Hφs]. apply wp_ret. split; [done|].
  intros HF Hh%holds_BAnd. specialize (Hφs HF). clear -Hφs Hh. induction Hφs; constructor; apply Forall_cons in Hh as [? ?]; auto.
Qed.
Lemma mapM_anys ts s : Forall (tyok s) ts → wp (mapM (λ t, eq_ t J.Any) ts) s (λ s' _, step s s').
Proof.
  intros Ht. eapply wp_mono; [apply (mapM_list_means _ (λ t, solved t = solved J.Any))|by intros ? ? [? _]].
  intros t s' Hin Hs. apply means_eq; [|done]. eapply tyok_grows; [apply Hs|]. by apply (proj1 (Forall_forall _ _) Ht).
Qed.

Lemma zip_tyok s (l1 l2 l3 : list J.typ) :
  Forall (tyok s) l1 → Forall (tyok s) l2 → Forall (tyok s) l3 →
  Forall (λ z : J.typ * J.typ * J.typ, tyok s z.1.1 ∧ tyok s z.1.2 ∧ tyok s z.2) (zip (zip l1 l2) l3).
Proof.
  intros H1. revert l2 l3. induction H1 as [|a l1 ? _ IH]; intros [|b l2] [|c l3] H2 H3; try (constructor; fail); simpl.
  apply Forall_cons in H2 as [? ?], H3 as [? ?]. constructor; [done|auto].
Qed.
Lemma zip_solved (l1 l2 l3 : list J.typ) :
  length l1 = length l3 → length l2 = length l3 →
  Forall (λ z : J.typ * J.typ * J.typ, solved z.1.2 = solved z.2) (zip (zip l1 l2) l3) → map solved l2 = map solved l3.
Proof.
  revert l2 l3. induction l1 as [|a l1 IH]; intros [|b l2] [|c l3] E1 E2 H; simplify_eq/=; try done.
  apply Forall_cons in H as [? ?]. f_equal; [done|]. by apply IH.
Qed.
Lemma closed_map_solved ts : forallb (tok 0) ts = true → map solved ts = ts.
Proof.
  rewrite forallb_forall. induction ts as [|t ts IH]; intros H; [done|]. simpl.
  rewrite closed_solved by (apply H; by left). f_equal. apply IH. intros; apply H; by right.
Qed.
Lemma closed_list_ok s ts : forallb (tok 0) ts = true → Forall (tyok s) ts.
Proof. rewrite forallb_forall, Forall_forall. intros H t Ht. apply closed_ok, H. by apply list_elem_of_In. Qed.

(** The entries of the table of overloads. *)
Lemma overloads_closed op o e :
  assoc op Overloads.OVERLOADS = Some o → e ∈ Overloads.entries o →
  tok 0 e.1 = true ∧ e.2 ∈ Overloads.all_ops Overloads.OVERLOADS.
Proof.
  assert (forallb (λ oo : JsOp * Overloads.Overload, forallb (λ e : J.typ * NotwasmOp, tok 0 e.1) (Overloads.entries oo.2))
            Overloads.OVERLOADS = true) as Hc by (vm_compute; reflexivity).
  unfold Overloads.all_ops. revert Hc. generalize Overloads.OVERLOADS. intros tbl Hc Ho He.
  induction tbl as [|[op1 o1] tbl IH]; [done|]. simpl in *. apply andb_true_iff in Hc as [Hc1 Hc]. case_decide.
  - simplify_eq. split; [rewrite forallb_forall in Hc1; apply Hc1; by apply list_elem_of_In|].
    apply elem_of_app. left. apply list_elem_of_fmap. by exists e.
  - destruct IH as [? ?]; [done..|]. split; [done|]. apply elem_of_app. by right.
Qed.
Lemma eval_op_ok n z op :
  op_metavars F !! n = Some z → Z3.eval_op_term m z = op → op ∈ Overloads.all_ops Overloads.OVERLOADS →
  eval_op m (op_metavars F) (OpMetavar n) = Ok op.
Proof.
  intros Hn Hz Hop. unfold eval_op. rewrite Hn. cbn [expect mbind comp_bind]. rewrite Hz. generalize dependent (Overloads.all_ops Overloads.OVERLOADS).
  intros l Hop. induction Hop as [|op' ? l Hop' IH]; simpl; [by rewrite bool_decide_true|].
  case_bool_decide as Hd; [by rewrite Hd|auto].
Qed.

Definition selects (n : nat) (alpha_t : J.typ) (betas_t : list J.typ) (op : NotwasmOp) : Prop :=
  eval_op m (op_metavars F) (OpMetavar n) = Ok op ∧
  op_signature op = Some (J.Function (map solved betas_t) (solved alpha_t)).
Lemma one_possibility_ok w n alpha_t args_t betas_t b args ret op' s :
  op_signature op' = Some (J.Function args ret) → tok 0 (J.Function args ret) = true →
  op' ∈ Overloads.all_ops Overloads.OVERLOADS → length args = length betas_t → length args_t = length betas_t →
  (n < length (op_metavars s))%nat → tyok s alpha_t → Forall (tyok s) args_t → Forall (tyok s) betas_t →
  means (one_possibility w (OpMetavar n) alpha_t args_t betas_t b (J.Function args ret, op')) s
    (selects n alpha_t betas_t op').
Proof.
  intros Hs Hc Hop Hl1 Hl2 Hn Hα Hts Hβs. unfold means, one_possibility. cbn [fst snd].
  apply wp_bind. eapply wp_lift; [done|]. cbn beta iota. apply wp_bind, wp_bind.
  eapply wp_mono; [by apply ops_z_ok|]. intros s1 z [H1 Hz]. apply wp_bind.
  eapply wp_mono; [apply ops_z_ctor; [done|by intros ? ->]|]. intros s2 z2 [H2 ->]. apply wp_ret.
  cbn in Hc. apply andb_true_iff in Hc as [Hca Hcr]. forward. apply wp_bind.
  assert (wp (mapM (λ '((t1, t2), t3),
      a ← (if b then or_ [and_ [not_ w; eq_ t1 J.Any]; eq_ t1 t2] else eq_ t1 t2);
      b ← eq_ t2 t3;
      mret [a; b]) (zip (zip args_t args) betas_t)) s2 (λ s' cs, step s2 s' ∧ (grows s' F → Forall holds (concat cs) →
        Forall (λ z : J.typ * J.typ * J.typ, solved z.1.2 = solved z.2) (zip (zip args_t args) betas_t)))) as Hconj.
  { pose proof (zip_tyok s2 args_t args betas_t ltac:(done) (closed_list_ok _ _ Hca) ltac:(done)) as Hzip.
    revert Hzip. generalize (zip (zip args_t args) betas_t). intros zs. clear. revert s2.
    induction zs as [|[[t1 t2] t3] zs IH]; intros s Hzs; simpl; [by apply wp_ret|].
    apply Forall_cons in Hzs as [(Ht1 & Ht2 & Ht3) Hzs]. simpl in Ht1, Ht2, Ht3. apply wp_bind.
    apply (means_bind _ _ True). { destruct b; (eapply means_weaken; [|mean]); done. }
    intros s1 φ1 H1 _. forward. eapply means_bind; [mean|]. intros s2 φ2 H2 Hφ2. forward. apply wp_ret.
    apply wp_bind. eapply wp_mono; [apply IH|].
    { eapply Forall_impl; [done|]. intros u (? & ? & ?). forward. done. }
    intros s3 cs [H3 Hcs]. apply wp_ret. split; [chain|]. simpl. intros HF. below. intros Hh.
    apply Forall_cons in Hh as [_ Hh]. apply Forall_cons in Hh as [? Hh]. constructor; [by apply Hφ2|by apply Hcs]. }
  eapply wp_mono; [exact Hconj|]. intros s3 cs [H3 Hcs]. forward. eapply means_bind; [mean|].
  intros s4 φ H4 Hφ. apply wp_ret. split; [chain|]. intros HF. below. rewrite holds_BAnd, Forall_cons, Forall_app, Forall_singleton.
  intros (Hsel & Hconjs & Hres). specialize (Hcs ltac:(done) Hconjs). specialize (Hφ ltac:(done) Hres).
  apply zip_solved in Hcs; [|done..]. unfold holds in Hsel. simpl in Hsel. apply bool_decide_eq_true in Hsel.
  split; [eapply eval_op_ok; eauto|]. rewrite Hs, Hφ, <- Hcs, closed_map_solved, closed_solved by done. done.
Qed.

Abbreviation part_ok Q s := (λ s' (r : typed), step s s' ∧ tyok s' r.2.2 ∧ (grows s' F → holds r.2.1 → becomes r.1 Γ (solved r.2.2))).

Lemma cgen_js_op_ok op args p :
  op_agrees op (length args) = true → Forall (λ e, rec_ok e) args → gen_ok (cgen_js_op rec op args p) D Γ.
Proof.
  intros Hop Hargs s Hs. unfold op_agrees in Hop. destruct (assoc op Overloads.OVERLOADS) as [o|] eqn:Ho; [|done].
  assert (∀ e, e ∈ Overloads.entries o → ∃ ts r, e.1 = J.Function ts r ∧ op_signature e.2 = Some (J.Function ts r) ∧
    length ts = length args ∧ tok 0 (J.Function ts r) = true ∧ e.2 ∈ Overloads.all_ops Overloads.OVERLOADS) as Hent.
  { intros e He. rewrite forallb_forall in Hop. specialize (Hop e ltac:(by apply list_elem_of_In)).
    apply andb_true_iff in Hop as [Hsig%bool_decide_eq_true Hl]. destruct (overloads_closed _ _ _ Ho He) as [Hc Hin].
    destruct (e.1) as [| | | | |ts r| | | | |]; try done. apply Nat.eqb_eq in Hl. by exists ts, r. }
  clear Hop. unfold cgen_js_op. apply weight_bind. intros s1 w H1. apply wp_bind.
  eapply wp_mono; [apply fresh_op_selector_ok|]. intros s2 ? (H2 & n & -> & Hn).
  apply metavar_bind. intros s3 α H3 Hα. forward. eapply exprs_bind; [done..|].
  intros s4 es φs ts H4 Hts Hles Hes Hlts. forward. apply metavars_bind. intros s5 βs H5 Hβs Hlβ. forward.
  assert (n < length (op_metavars s5))%nat as Hn5.
  { destruct (step_grows _ _ H3) as [_ [? Ho3] _], (step_grows _ _ H4) as [_ [? Ho4] _], (step_grows _ _ H5) as [_ [? Ho5] _].
    rewrite Ho5, Ho4, Ho3, !length_app. lia. }
  apply wp_bind. eapply wp_lift; [unfold Overloads.overloads_of; by rewrite Ho|]. cbv beta.
  assert (∀ b l s', (∀ e, e ∈ l → e ∈ Overloads.entries o) → step s5 s' →
    wp (mapM (one_possibility w (OpMetavar n) α ts βs b) l) s' (λ s'' φs, step s' s'' ∧
      (grows s'' F → Forall2 (λ φ e, holds φ → selects n α βs e.2) φs l))) as Hposs.
  { intros b l s' Hl Hs'. apply (mapM_list_means _ (λ e, selects n α βs e.2)). intros [ty op'] s'' Hin Hs''.
    destruct (Hent _ (Hl _ Hin)) as (ats & r & E & ? & ? & ? & ?). simpl in E. subst ty.
    assert (step s5 s'') as H5'' by chain. forward. apply one_possibility_ok; try done; try congruence.
    destruct (step_grows _ _ H5'') as [_ [? Ho5''] _]. rewrite Ho5'', length_app. lia. }
  apply wp_bind. eapply wp_mono; [apply Hposs; [|done]|].
  { intros e He. unfold Overloads.entries. apply elem_of_app. by left. }
  intros s6 exact [H6 Hex]. forward. apply wp_bind. eapply wp_lift; [unfold Overloads.coercible_of; by rewrite Ho|]. cbv beta.
  apply wp_bind. eapply wp_mono; [apply Hposs; [|done]|].
  { intros e He. unfold Overloads.entries. apply elem_of_app. right. by destruct (Overloads.on_other_args o). }
  intros s7 coerced [H7 Hco]. forward. apply gen_wobbly; [done|chain|]. intros HF. below.
  rewrite holds_BAnd, Forall_app, Forall_singleton, holds_BOr. intros [Hφs Hcase].
  assert (∃ op', selects n α βs op') as (op' & Hev & Hsig).
  { apply Exists_app in Hcase as [Hc|Hc].
    - specialize (Hex ltac:(done)). clear -Hc Hex. induction Hex; [by apply Exists_nil in Hc|]. apply Exists_cons in Hc as [?|?]; eauto.
    - specialize (Hco ltac:(done)). clear -Hc Hco. induction Hco; [by apply Exists_nil in Hc|]. apply Exists_cons in Hc as [?|?]; eauto. }
  eapply becomes_js_op; [done..|]. eapply coerce_args_ok; [by apply Hes|congruence|done..].
Qed.

Lemma cgen_length_ok obj p : rec_ok obj → ∀ s, env_ok s D Γ → wp (cgen_length rec obj p) s (part_ok _ s).
Proof.
  intros Ho s Hs. unfold cgen_length. eapply gen_bind; [done..|]. intros s1 e φ ot H1 Hot He. forward.
  apply metavar_bind. intros s2 et H2 Het. forward. apply metavar_bind. intros s3 ty H3 Hty. forward.
  eapply means_bind; [unfold length_typs; cbn [map]; mean|]. intros s4 φ2 H4 Hφ2. forward. apply wp_ret. cbn [fst snd].
  split; [chain|]. split; [done|]. intros HF. below. rewrite holds_BAnd, !Forall_cons. intros (Hφ & Hh & _).
  specialize (Hφ2 HF Hh). simpl in Hφ2.
  assert (solved et = length_typ (solved ty) ∧ solved ot = solved ty) as [-> E].
  { destruct_or?; destruct_and?; try done; repeat match goal with H : _ = solved ty |- _ => rewrite <- H end; split; simpl; congruence. }
  apply becomes_length; [rewrite <- E; auto|by eapply walk_typ_ok].
Qed.

Lemma cgen_assign_ok lv e p :
  match lv with
  | LId x _ => x ∈ D
  | LDot c _ => rec_ok c
  | LBracket o f _ => rec_ok o ∧ rec_ok f
  end → rec_ok e → gen_ok (cgen_assign rec lv e p) D Γ.
Proof.
  intros Hlv He s Hs. destruct lv as [x ?|c f|o f ?]; simpl.
  - destruct (Hs x Hlv) as (ty & Hx & Hty & HΓ). apply wp_bind, wp_bind, wp_get. eapply wp_lift; [by rewrite Hx|].
    eapply gen_bind; [done..|]. intros s1 e1 φ te H1 Ht Hb. forward. eapply means_bind; [mean|]. intros s2 φ2 H2 Hφ2. forward.
    apply wp_ret. split; [chain|]. split; [done|]. intros HF [Hφ Hh]%holds_both. below. simpl.
    apply becomes_assign_id; [by eapply walk_typ_ok|done|]. rewrite Hφ2 by done. auto.
  - eapply gen_bind; [done..|]. intros s1 e1 φ te H1 Ht Hb. forward. apply wp_bind. eapply wp_mono; [by apply cgen_dot_ok|].
    intros s2 [c1 φ2] [H2 Hc]. forward. eapply means_bind; [mean|]. intros s3 φ3 H3 Hφ3. forward. apply wp_ret.
    split; [chain|]. split; [done|]. intros HF [[Hφ Hh2]%holds_both Hh3]%holds_both. below. simpl.
    eapply becomes_assign_dot; [by apply Hc|]. change J.Any with (solved J.Any). rewrite <- Hφ3 by done. auto.
  - destruct Hlv as [Ho Hf]. eapply gen_bind; [done..|]. intros s1 e1 φ te H1 Ht Hb. forward. apply wp_bind.
    eapply wp_mono; [by apply cgen_bracket_ok|]. intros s2 [[[o1 f1] t1] φ2] (H2 & Ht1 & Hc). forward.
    eapply means_bind; [mean|]. intros s3 φ3 H3 Hφ3. forward. apply wp_ret.
    split; [chain|]. split; [done|]. intros HF [[Hφ Hh2]%holds_both Hh3]%holds_both. below. simpl.
    destruct Hc as (Hw & Hbo & _ & tf & Hbf & _); [done..|]. eapply becomes_assign_bracket; [done..|].
    change J.Any with (solved J.Any). rewrite <- Hφ3 by done. auto.
Qed.

Lemma cgen_call_ok f args p : rec_ok f → Forall (λ e, rec_ok e) args → gen_ok (cgen_call rec f args p) D Γ.
Proof.
  intros Hf Ha s Hs. unfold cgen_call. apply weight_bind. intros s1 w1 H1. apply weight_bind. intros s2 w2 H2. forward.
  eapply gen_bind; [done..|]. intros s3 f1 φ1 tf H3 Htf Hbf. forward. eapply exprs_bind; [done..|].
  intros s4 es φs ts H4 Hts Hles Hes Hlts. forward.
  apply metavar_bind. intros s5 β H5 Hβ. forward. apply metavar_bind. intros s6 γ H6 Hγ. forward.
  eapply means_bind; [apply (means_and_list _ (λ t, solved t = J.Any))|].
  { intros t s' Hin Hs'. apply (means_eq _ J.Any); [|done]. eapply tyok_grows; [apply Hs'|].
    match goal with H : Forall (tyok s6) ts |- _ => by apply (proj1 (Forall_forall _ _) H) end. }
  intros s7 φ31 H7 _. forward. eapply means_bind; [mean|]. intros s8 φ3 H8 _. forward.
  eapply means_bind; [mean|]. intros s9 φ4 H9 _. forward. apply wp_ret. cbn [fst snd].
  split; [chain|]. split; [done|]. intros HF. below. rewrite holds_BAnd, !Forall_cons. intros (Hh1 & Hh2%holds_BAnd & _).
  apply becomes_coerce; [by eapply walk_typ_ok..|]. eapply becomes_call.
  - apply (becomes_coerce _ tf (J.Function ts β)); [by eapply walk_typ_ok| |by apply Hbf].
    eapply walk_typ_ok; [|exact HF]. by apply tyok_fun.
  - apply Forall2_fmap_r. by apply Hes.
Qed.

(** A type that a method may have, with the type of the object. *)
Definition method_valid (method : string) (arity : nat) (pt : J.typ * J.typ) : Prop :=
  ∃ ts r, pt.2 = J.Function ts r ∧ length ts = arity ∧ tok 0 pt.1 = true ∧ tok 0 pt.2 = true ∧
    @get_type_by_prefix never method arity pt.1 = Ok pt.2.
Lemma method_valid_ground method arity t :
  t = J.DynObject ∨ t = J.Any → method_valid method arity (t, J.Function (replicate arity J.Any) J.Any).
Proof.
  intros Ht. exists (replicate arity J.Any), J.Any. split_and!; [done|apply length_replicate|by destruct Ht; subst| |by destruct Ht; subst].
  cbn. rewrite andb_true_r. apply forallb_forall. by intros x [-> _]%list_elem_of_In%elem_of_replicate.
Qed.
Lemma methods_table_valid method arity l :
  assoc (method, arity) METHODS_TABLE = Some l →
  ∃ known, mapM (M := comp never) (λ t, '(args, _) ← J.unwrap_fun t; a ← expect "index out of bounds" (head args); Ok (a, t)) l = Ok known ∧
    Forall (method_valid method arity) known.
Proof.
  unfold METHODS_TABLE. simpl. repeat case_decide; intros; simplify_eq; (eexists; split; [reflexivity|]);
    repeat constructor; eexists _, _; by split_and!.
Qed.
Lemma possible_method_typs_ok method arity orig obj_typ w s :
  tyok s orig → tyok s obj_typ →
  wp (possible_method_typs method arity orig obj_typ w) s (λ s' r, step s s' ∧ Forall (method_valid method arity) r.1).
Proof.
  intros Ho Ht. unfold possible_method_typs. destruct (assoc _ _) as [l|] eqn:Hl.
  - apply methods_table_valid in Hl as (known & Hk & Hv). apply wp_bind. eapply wp_lift; [exact Hk|]. cbv beta.
    eapply means_bind; [mean|]. intros s1 φ H1 _. apply wp_ret. split; [done|]. cbn [fst]. apply Forall_app. split; [done|].
    repeat constructor; apply method_valid_ground; auto.
  - eapply means_bind; [mean|]. intros s1 φ H1 _. apply wp_ret. split; [done|]. repeat constructor. apply method_valid_ground; auto.
Qed.
Lemma method_has_typ_ok method obj_typ typ ann_ret arg_typs ann_args ws pt s :
  method_valid method (length ann_args) pt → tyok s obj_typ → tyok s typ → tyok s ann_ret →
  Forall (tyok s) arg_typs → Forall (tyok s) ann_args → length arg_typs = length ann_args → length ws = length ann_args →
  means (method_has_typ obj_typ typ ann_ret arg_typs ann_args ws pt) s
    (solved obj_typ = solved typ ∧
     @get_type_by_prefix never method (length ann_args) (solved typ) = Ok (J.Function (map solved ann_args) (solved ann_ret))).
Proof.
  intros (ts & r & Hpt & Hl & Hc1 & Hc2 & Hg) Ho Ht Hr Ha Haa Hl1 Hl2. unfold method_has_typ. rewrite Hpt.
  destruct pt as [recv ty]. simpl in *. subst ty. pose proof Hc2 as Hc. apply andb_true_iff in Hc as [Hca Hcr].
  apply wp_bind. eapply wp_lift; [done|]. cbv beta iota. eapply means_bind; [mean|]. intros s1 φ1 H1 Hφ1. forward.
  eapply means_bind; [apply (means_and_list _ (λ z : J.typ * J.typ * J.typ * ZBool, solved z.1.1.1 = solved z.1.2))|].
  { intros [[[e g] a] w] s' Hin Hs'. simpl.
    pose proof (elem_of_zip_l _ _ _ _ Hin) as Hin3. pose proof (elem_of_zip_l _ _ _ _ Hin3) as Hin2.
    assert (tyok s1 e) by (by apply (proj1 (Forall_forall _ _) (closed_list_ok s1 _ Hca)), (elem_of_zip_l _ _ _ _ Hin2)).
    assert (tyok s1 g) by (by eapply Forall_forall; [|eapply elem_of_zip_r, Hin2]).
    assert (tyok s1 a) by (by eapply Forall_forall; [|eapply elem_of_zip_r, Hin3]). forward.
    eapply means_weaken; [|mean]. intros [? _]. done. }
  intros s2 φ2 H2 Hφ2. forward. eapply means_bind; [mean|]. intros s3 φ3 H3 Hφ3. apply wp_ret. split; [chain|].
  intros HF. below. rewrite holds_BAnd, !Forall_cons. intros (Hh1 & Hh2 & Hh3 & _).
  destruct (Hφ1 ltac:(done) Hh1) as [E1 E2]. specialize (Hφ2 ltac:(done) Hh2). specialize (Hφ3 HF Hh3).
  split; [congruence|]. rewrite <- E2, (closed_solved recv), Hg by done. rewrite <- Hφ3, (closed_solved r) by done.
  repeat f_equal. rewrite <- (closed_map_solved ts) by done. clear -Hφ2 Hl Hl1 Hl2.
  revert arg_typs ann_args ws Hl Hl1 Hl2 Hφ2.
  induction ts as [|t ts IH]; intros [|g arg_typs] [|a ann_args] [|w ws] ? ? ? Hz; simplify_eq/=; try done.
  apply Forall_cons in Hz as [? ?]. f_equal; [done|]. eapply IH; [| | |done]; done.
Qed.

Lemma cgen_method_call_ok obj method args p :
  rec_ok obj → Forall (λ e, rec_ok e) args → ∀ s, env_ok s D Γ → wp (cgen_method_call rec obj method args p) s (part_ok _ s).
Proof.
  intros Ho Ha s Hs. unfold cgen_method_call. eapply gen_bind; [done..|]. intros s1 e φ ot H1 Hot He. forward.
  eapply exprs_bind; [done..|]. intros s2 es φs ts H2 Hts Hles Hes Hlts. forward.
  apply metavar_bind. intros s3 objt H3 Hobjt. forward. apply weight_bind. intros s4 ow H4. forward.
  apply metavars_bind. intros s5 anns H5 Hanns Hlanns. forward.
  apply metavar_bind. intros s6 ret H6 Hret. forward. apply metavar_bind. intros s7 ty H7 Hty. forward.
  set (args' := coerce_args ts anns es p). assert (length args' = length es) as Hl' by (apply coerce_args_length; congruence).
  apply wp_bind. eapply wp_mono; [by apply possible_method_typs_ok|]. intros s8 [typs φo] [H8 Hv]. forward. cbn [fst] in Hv.
  apply weights_bind. intros s9 ws H9 Hlws. forward. apply wp_bind. eapply wp_mono.
  { apply (mapM_list_means _ (λ _, solved objt = solved ty ∧
     @get_type_by_prefix never method (length anns) (solved ty) = Ok (J.Function (map solved anns) (solved ret)))).
    intros pt s' Hin Hs'. forward. apply method_has_typ_ok; try done; try congruence.
    replace (length anns) with (length args') by congruence. by eapply Forall_forall. }
  intros s10 φps [H10 Hφps]. forward. apply wp_ret. cbn [fst snd]. split; [chain|]. split; [done|]. intros HF. below.
  rewrite holds_BAnd, !Forall_cons, holds_BOr. intros (Hh1 & Hh2%holds_BAnd & Hh3 & _).
  assert (solved objt = solved ty ∧ @get_type_by_prefix never method (length anns) (solved ty) =
    Ok (J.Function (map solved anns) (solved ret))) as [E Hg].
  { specialize (Hφps HF). clear -Hφps Hh3. induction Hφps; [by apply Exists_nil in Hh3|]. apply Exists_cons in Hh3 as [?|?]; eauto. }
  eapply (becomes_method_call _ _ _ (map solved anns)).
  - rewrite <- E. apply becomes_coerce; [by eapply walk_typ_ok..|]. auto.
  - by eapply walk_typ_ok.
  - eapply coerce_args_ok; [by apply Hes|congruence|done..].
  - by replace (length args') with (length anns) by congruence.
Qed.

End parts.

(** *** The constraints of statements *)
Definition stmt_ok (mm : M Stmt) (D : gset Id) (Γ : Env) (in_function : bool) (st : Stmt) : Prop := ∀ s,
  env_ok s D Γ → (in_function = true → tyok s (return_type s)) →
  wp mm s (λ s' st1, grows s s' ∧ return_type s' = return_type s ∧
    (∀ y, y ∉ declared st → env s' !! y = env s !! y) ∧ declared st1 = declared st ∧
    env_ok s' (scope_after D st) (out_solved Γ st1) ∧
    (grows s' F → becomes_stmt st1 (if in_function then Some (solved (return_type s)) else None) Γ)).

Lemma env_ok_frame s s' D X Γ :
  env_ok s D Γ → grows s s' → (∀ y, y ∉ X → env s' !! y = env s !! y) → env_ok s' (D ∖ X) Γ.
Proof.
  intros H Hg He x [Hx HX]%elem_of_difference. destruct (H x Hx) as (ty & ? & ? & ?). exists ty.
  rewrite He by done. split_and!; [done|by eapply tyok_grows|done].
Qed.
Lemma env_update_ok x t s :
  wp (env_update x t) s (λ s' _, grows s s' ∧ return_type s' = return_type s ∧ env s' = <[x := t]> (env s)).
Proof. eexists _, _. split; [done|]. by split_and!. Qed.
Lemma set_env_ok Γ s :
  wp (set_env Γ) s (λ s' _, grows s s' ∧ return_type s' = return_type s ∧ env s' = Γ).
Proof. eexists _, _. split; [done|]. by split_and!. Qed.
Lemma set_return_type_ok t s :
  wp (set_return_type t) s (λ s' _, grows s s' ∧ return_type s' = t ∧ env s' = env s).
Proof. eexists _, _. split; [done|]. by split_and!. Qed.
Lemma env_ok_insert s s' D Γ x t :
  env_ok s D Γ → grows s s' → env s' = <[x := t]> (env s) → tyok s' t → env_ok s' ({[ x ]} ∪ D) (<[x := solved t]> Γ).
Proof.
  intros H Hg He Ht y Hy. rewrite He. destruct (decide (x = y)) as [<-|Hn].
  - exists t. by rewrite !lookup_insert_eq.
  - destruct (H y) as (ty & ? & ? & ?); [set_solver|]. exists ty. rewrite !lookup_insert_ne by done.
    split_and!; [done|by eapply tyok_grows|done].
Qed.

Lemma cgen_params_ok args D Γ s :
  forallb (λ a : Id * J.typ, bool_decide (a.2 = J.Missing)) args = true → env_ok s D Γ →
  wp (cgen_params args) s (λ s' args', grows s s' ∧ return_type s' = return_type s ∧ map fst args' = map fst args ∧
    Forall (λ a, tyok s' a.2) args' ∧
    env_ok s' (list_to_set (map fst args) ∪ D) (insert_args Γ (map (λ a, (a.1, solved a.2)) args'))).
Proof.
  revert s D Γ. induction args as [|[x t] args IH]; intros s D Γ Hm Hs; simpl in *.
  - apply wp_ret. split_and!; try done. by replace (∅ ∪ D) with D by set_solver.
  - apply andb_true_iff in Hm as [Ht Hm]. apply wp_bind. eapply wp_lift; [by rewrite Ht|]. cbv beta.
    apply metavar_bind. intros s1 α H1 Hα. forward. apply wp_bind. eapply wp_mono; [apply env_update_ok|].
    intros s2 [] (H2 & Hr2 & He2). apply wp_bind. eapply wp_mono; [apply IH; [done|]|].
    { eapply env_ok_insert; [by eapply env_ok_step|done|done|by eapply tyok_grows]. }
    intros s3 args' (H3 & Hr3 & Hn3 & Ht3 & Hs3). apply wp_ret. split; [etrans; [apply H1|by etrans]|].
    split; [rewrite Hr3, Hr2; apply H1|]. split; [simpl; by f_equal|]. split.
    + constructor; [|done]. by eapply tyok_grows; [|eapply tyok_grows].
    + simpl. eapply env_ok_sub; [|exact Hs3]. set_solver.
Qed.

Lemma hide_env_ok s D Γ X : env_ok s D Γ → env_ok s (D ∖ X) (hide true Γ X).
Proof.
  intros H x [Hx HX]%elem_of_difference. destruct (H x Hx) as (ty & ? & ? & ?). exists ty.
  split_and!; [done..|]. simpl. apply map_lookup_filter_Some. by split.
Qed.

Lemma cgen_func_ok cgen_stmt r args b fv afc p D Γ :
  inferable_func D (mkFunc r args b fv afc) = true →
  (∀ D Γ, inferable_stmt D true b = true → stmt_ok (cgen_stmt b) D Γ true b) →
  gen_ok (cgen_func cgen_stmt (mkFunc r args b fv afc) p) D Γ.
Proof.
  simpl. rewrite !andb_true_iff, !bool_decide_eq_true. intros [[[Hm Hn] ->] Hb] IH s Hs. unfold cgen_func.
  apply wp_bind, wp_get. apply metavar_bind. intros s1 rt H1 Hrt. forward.
  apply wp_bind. eapply wp_mono; [apply set_return_type_ok|]. intros s2 [] (H2 & Hr2 & He2).
  apply wp_bind. eapply wp_mono; [apply (cgen_params_ok _ (D ∖ declared b) (hide true Γ (declared b))); [done|]|].
  { apply hide_env_ok. intros x Hx. rewrite He2. destruct (T x Hx) as (ty & ? & ? & ?). exists ty. split_and!; [done|by eapply tyok_grows|done]. }
  intros s3 args' (H3 & Hr3 & Hn3 & Ht3 & Hs3). apply wp_bind. eapply wp_mono; [apply IH; [exact Hb|exact Hs3|]|].
  { intros _. rewrite Hr3, Hr2. eapply tyok_grows; [exact H3|]. by eapply tyok_grows. }
  intros s4 b1 (H4 & Hr4 & _ & Hd4 & _ & Hb4). rewrite Hr3, Hr2 in Hr4, Hb4.
  assert (grows s1 s4) as H14 by (by repeat (etrans; [eassumption|])).
  assert (tyok s4 rt) as Hrt4 by by eapply tyok_grows.
  assert (Forall (λ a, tyok s4 a.2) args') as Ht4.
  { eapply Forall_impl; [exact Ht3|]. intros a Ha. exact (tyok_grows _ _ _ H4 Ha). }
  apply wp_bind, wp_get. rewrite Hr4.
  apply wp_bind. eapply wp_mono; [apply set_return_type_ok|]. intros s5 [] (H5 & Hr5 & He5).
  apply wp_bind. eapply wp_mono; [apply set_env_ok|]. intros s6 [] (H6 & Hr6 & He6).
  assert (step s s6) as H06.
  { split; [|done|by rewrite Hr6]. etrans; [apply H1|]. etrans; [exact H14|by etrans]. }
  assert (grows s4 s6) as H46 by by etrans.
  assert (tyok s6 rt) as Hrt6 by by eapply tyok_grows.
  assert (Forall (tyok s6) (map snd args')) as Hargs6.
  { apply Forall_fmap. eapply Forall_impl; [exact Ht4|]. intros a Ha. exact (tyok_grows _ _ _ H46 Ha). }
  apply weight_bind. intros s7 w H7. forward. apply metavar_bind. intros s8 β H8 Hβ. forward.
  apply wp_bind. eapply wp_mono; [by apply zfun_ok|]. cbn beta. intros s9 zf H9. forward.
  apply (means_bind _ _ (foldr or False [foldr and True [True; True]; foldr and True [True; solved β = solved J.Any]])).
  { apply means_or. constructor; [|constructor; [|constructor]]; intros sa Hsa.
    - apply means_and. constructor; [intros; exact (means_true _ _)|]. constructor; [|constructor]. intros sb Hsb.
      apply wp_bind. eapply wp_mono; [apply tid_ok; forward; done|]. intros sc z [Hz _]. apply wp_ret. by split.
    - mean. }
  intros s10 φ G10 _. forward. apply wp_ret. split; [chain|]. split; [done|]. cbn [fst snd]. intros HF _. below.
  assert (grows s4 F) as B4 by (etrans; [exact H46|done]).
  apply (becomes_meta _ (J.Function (map snd args') rt)).
  - eapply walk_typ_ok; [|exact B4]. apply tyok_fun; [|done]. apply Forall_fmap. exact Ht4.
  - by eapply walk_typ_ok.
  - apply becomes_func; [|by eapply walk_typ_ok| |by rewrite Hn3].
    + rewrite Hd4. by apply Hb4.
    + eapply Forall_impl; [exact Ht4|]. intros a Ha. exact (walk_typ_ok _ _ Ha B4).
Qed.

Lemma objects_ok rec (kvs : list (Key * Expr)) D Γ s :
  Forall (λ kv, gen_ok (rec kv.2) D Γ) kvs → env_ok s D Γ →
  wp (mapM (λ kv, r ← rec kv.2; mret (kv.1, r)) kvs) s (λ s' (l : list (Key * typed)), step s s' ∧
    Forall (tyok s') (map (λ kr, kr.2.2.2) l) ∧
    (grows s' F → Forall holds (map (λ kr, kr.2.2.1) l) → Forall (λ kr, ∃ t, becomes kr.2.1 Γ t) l)).
Proof.
  intros H. revert s. induction H as [|kv kvs Hkv _ IH]; intros s Hs; [by apply wp_ret|].
  simpl. apply wp_bind. eapply gen_bind; [done..|]. intros s1 e φ t H1 Ht He. forward. apply wp_ret.
  apply wp_bind. eapply wp_mono; [by apply IH|]. intros s2 l (H2 & Hts & Hl). forward. apply wp_ret. simpl.
  split; [chain|]. split; [by constructor|]. intros HF. below. rewrite Forall_cons. intros [? ?]. constructor; [|by apply Hl].
  exists (solved t). auto.
Qed.

Lemma stmts_ok (cgen : Stmt → M Stmt) in_function ss D Γ s :
  Forall (λ st, ∀ D Γ, inferable_stmt D in_function st = true → stmt_ok (cgen st) D Γ in_function st) ss →
  inferable_stmts in_function D ss = true → env_ok s D Γ → (in_function = true → tyok s (return_type s)) →
  wp (mapM cgen ss) s (λ s' ss1, grows s s' ∧ return_type s' = return_type s ∧
    (∀ y, y ∉ declared (SBlock ss Unknown) → env s' !! y = env s !! y) ∧
    declared (SBlock ss1 Unknown) = declared (SBlock ss Unknown) ∧
    (grows s' F → becomes_stmts ss1 (if in_function then Some (solved (return_type s)) else None) Γ)).
Proof.
  intros H. revert D Γ s. induction H as [|st ss Hst _ IH]; intros D Γ s Hok Hs Hr; [by apply wp_ret|].
  simpl in Hok. apply andb_true_iff in Hok as [Hok1 Hok]. simpl mapM. apply wp_bind. eapply wp_mono; [by eapply Hst|].
  intros s1 st1 (H1 & Hr1 & He1 & Hd1 & Hs1 & Hb1). apply wp_bind. eapply wp_mono; [eapply IH; [done|exact Hs1|]|].
  { intros Hi. rewrite Hr1. eapply tyok_grows; [exact H1|auto]. }
  intros s2 ss1 (H2 & Hr2 & He2 & Hd2 & Hb2). apply wp_ret. rewrite Hr1 in Hb2. simpl in He2, Hd2 |- *. split_and!.
  - by etrans.
  - congruence.
  - intros y [Hy1 Hy2]%not_elem_of_union. by rewrite He2, He1.
  - by rewrite Hd1, Hd2.
  - intros HF. split; [|auto]. apply Hb1. by etrans.
Qed.

(** A statement that declares nothing itself leaves the scope as its parts do. *)
Lemma stmt_done s s' D Γ st st1 (P : Prop) :
  env_ok s D Γ → grows s s' → return_type s' = return_type s →
  (∀ y, y ∉ declared st → env s' !! y = env s !! y) → declared st1 = declared st →
  match st with SVar _ _ _ _ => False | _ => True end → match st1 with SVar _ _ _ _ => False | _ => True end →
  P →
  grows s s' ∧ return_type s' = return_type s ∧ (∀ y, y ∉ declared st → env s' !! y = env s !! y) ∧
    declared st1 = declared st ∧ env_ok s' (scope_after D st) (out_solved Γ st1) ∧ P.
Proof.
  intros Hs Hg Hr He Hd Hst Hst1 HP. split_and!; try done.
  assert (scope_after D st = D ∖ declared st) as -> by by destruct st.
  assert (out_solved Γ st1 = Γ) as -> by by destruct st1. by eapply env_ok_frame.
Qed.

Definition func_ok (f : Func) : Prop := match f with mkFunc r args b fv afc =>
  ∀ D Γ, inferable_stmt D true b = true → stmt_ok (cgen_stmt b) D Γ true b end.
Definition lval_ok (lv : LValue) : Prop := ∀ D Γ,
  match lv with
  | LId _ _ => True
  | LDot c _ => inferable D c = true → gen_ok (cgen_expr c) D Γ
  | LBracket o f _ => inferable D o && inferable D f = true → gen_ok (cgen_expr o) D Γ ∧ gen_ok (cgen_expr f) D Γ
  end.
Lemma all_gen_ok es D Γ :
  Forall (λ e, ∀ D Γ, inferable D e = true → gen_ok (cgen_expr e) D Γ) es →
  forallb (inferable D) es = true → Forall (λ e, gen_ok (cgen_expr e) D Γ) es.
Proof.
  intros H Hi. rewrite forallb_forall in Hi. rewrite Forall_forall in H. apply Forall_forall. intros e He.
  apply H; [done|]. by apply Hi, list_elem_of_In.
Qed.
Lemma var_ok x ty e p D Γ in_function :
  (∀ D Γ, inferable D e = true → gen_ok (cgen_expr e) D Γ) → inferable_stmt D in_function (SVar x ty e p) = true →
  stmt_ok (cgen_stmt (SVar x ty e p)) D Γ in_function (SVar x ty e p).
Proof.
  intros IH Hi s Hs Hret. simpl in Hi |- *. apply metavar_bind. intros s1 α H1 Hα. forward.
  apply wp_bind. eapply wp_mono; [apply env_update_ok|]. intros s2 [] (G2 & Hr2 & He2).
  assert (tyok s2 α) as Hα2 by exact (tyok_grows _ _ _ G2 Hα).
  assert (env_ok s2 ({[ x ]} ∪ D) (<[x := solved α]> Γ)) as Hs2 by by eapply env_ok_insert.
  assert (∀ s3 st1, step s2 s3 → out_solved Γ st1 = <[x := solved α]> Γ → declared st1 = {[ x ]} →
    (grows s3 F → becomes_stmt st1 (if in_function then Some (solved (return_type s)) else None) Γ) →
    grows s s3 ∧ return_type s3 = return_type s ∧ (∀ y, y ∉ ({[ x ]} : gset Id) → env s3 !! y = env s !! y) ∧ declared st1 = {[ x ]} ∧
    env_ok s3 ({[ x ]} ∪ D) (out_solved Γ st1) ∧
    (grows s3 F → becomes_stmt st1 (if in_function then Some (solved (return_type s)) else None) Γ)) as Hdone.
  { intros s3 st1 H3 Ho Hd Hb. rewrite Ho. split_and!; try done.
    - etrans; [apply H1|]. etrans; [exact G2|apply H3].
    - rewrite (step_ret _ _ H3), Hr2. apply H1.
    - intros y Hy%not_elem_of_singleton. rewrite (step_env _ _ H3), He2, lookup_insert_ne by done. by rewrite (step_env _ _ H1).
    - by eapply env_ok_step. }
  destruct (is_undefined e) eqn:Hu; simpl in Hi.
  - apply wp_ret. apply Hdone; try done. intros HF. apply becomes_var; [exact (walk_typ_ok _ _ Hα2 HF)|by left].
  - assert (env_ok s2 (D ∖ {[ x ]}) Γ) as Hs2'.
    { eapply env_ok_frame; [exact T|done|]. intros y Hy%not_elem_of_singleton. by rewrite He2, lookup_insert_ne. }
    eapply gen_bind; [by apply IH|done|]. intros s3 e1 φ t H3 Ht He. forward.
    apply wp_bind. eapply wp_mono; [apply assert_hard_ok|]. intros s4 [] [H4 Hh4]. forward.
    eapply means_bind; [mean|]. intros s5 φ5 H5 Hφ5. forward.
    apply wp_bind. eapply wp_mono; [apply assert_hard_ok|]. intros s6 [] [H6 Hh6]. forward. apply wp_ret.
    apply Hdone; try done; [chain|]. intros HF. below. apply becomes_var; [by eapply walk_typ_ok|]. right.
    rewrite <- Hφ5 by auto. auto.
Qed.

(** A wobbly expression made of parts without constraints of their own. *)
Lemma wobbly_gen p e t Γ s :
  tyok s t → becomes e Γ (solved t) →
  wp (wobbly p e None t) s (λ s' r, step s s' ∧ tyok s' r.2.2 ∧
    (grows s' F → holds r.2.1 → becomes r.1 Γ (solved r.2.2))).
Proof.
  intros Ht He. eapply wp_mono; [by apply wobbly_ok|]. intros s' r (H1 & Hr & Hh).
  split; [done|]. split; [done|]. intros HF Hφ. destruct (Hh HF Hφ) as [_ Hb]. by apply Hb.
Qed.
Ltac and_hyps := repeat match goal with H : _ && _ = true |- _ => apply andb_true_iff in H as [? ?] end.

Definition expr_gen (e : Expr) : Prop := ∀ D Γ, inferable D e = true → gen_ok (cgen_expr e) D Γ.
Definition stmt_gen (st : Stmt) : Prop := ∀ D Γ in_function,
  inferable_stmt D in_function st = true → stmt_ok (cgen_stmt st) D Γ in_function st.
Lemma object_gen kvs s : Forall (λ kv, expr_gen kv.2) kvs → expr_gen (EObject kvs s).
Proof.
  intros H D Γ H0.
  intros s0 Hs. simpl in H0 |- *. apply wp_bind. eapply wp_mono; [apply (objects_ok cgen_expr _ D Γ); [|done]|].
  { rewrite forallb_forall in H0. rewrite Forall_forall in H. apply Forall_forall. intros kv Hkv. apply H; [done|].
    by apply H0, list_elem_of_In. }
  intros s1 kvs' (H1 & Hts & Hes). forward. apply wp_bind. eapply wp_mono; [by apply mapM_anys|].
  cbn beta. intros s2 anys H2. forward. apply gen_wobbly; [done|chain|]. intros HF. below. rewrite holds_BAnd, Forall_app. intros [Hφs _].
  specialize (Hes ltac:(done) Hφs). change (solved J.DynObject) with J.DynObject.
  replace (map (λ kr : Key * typed, (kr.1, kr.2.1)) kvs') with (map (λ kv : Key * Expr, (kv.1, kv.2)) (map (λ kr : Key * typed, (kr.1, kr.2.1)) kvs')).
  + apply (becomes_object _ id). apply Forall_fmap. exact Hes.
  + rewrite map_map. apply map_ext. done.
Qed.
Lemma block_gen ss s : Forall stmt_gen ss → stmt_gen (SBlock ss s).
Proof.
  intros H D Γ in_function H0.
  intros s0 Hs Hr. simpl. apply wp_bind. eapply wp_mono; [apply (stmts_ok _ in_function _ D Γ); [|by rewrite <- inferable_block with (p := s)|done..]|].
  { eapply Forall_impl; [exact H|]. auto. }
  intros s1 ss1 (H1 & Hr1 & He1 & Hd1 & Hb1). apply wp_ret. eapply (stmt_done _ _ D Γ (SBlock ss s)); try done.
  intros HF. apply becomes_block. by apply Hb1.
Qed.
Lemma expr_stmt_gen e s : expr_gen e → stmt_gen (SExpr e s).
Proof.
  intros H D Γ in_function H0.
  intros s0 Hs Hr. simpl in *. eapply gen_bind; [by apply H|done|]. intros s1 e1 φ t H1 Ht He. forward.
  apply wp_bind. eapply wp_mono; [apply assert_hard_ok|]. intros s2 [] [H2 Hh2]. forward. apply wp_ret.
  assert (step s0 s2) as H02 by chain. eapply (stmt_done _ _ D Γ (SExpr e s)); try done; [apply H02..|by intros; rewrite (step_env _ _ H02)|].
  intros HF. below. eapply becomes_expr_stmt. auto.
Qed.
Lemma if_gen c st se s : expr_gen c → stmt_gen st → stmt_gen se → stmt_gen (SIf c st se s).
Proof.
  intros H H0 H1 D Γ in_function H2.
  intros s0 Hs Hr. simpl in *. and_hyps. apply weight_bind. intros s1 w H5. forward.
  eapply gen_bind; [by apply H|done|]. intros s2 e1 φ t H6 Ht He. forward.
  eapply means_bind; [mean|]. intros s3 φ2 H7 _. forward.
  apply wp_bind. eapply wp_mono; [apply assert_hard_ok|]. intros s4 [] [H8 Hh4]. forward.
  apply wp_bind. eapply wp_mono; [apply assert_hard_ok|]. intros s5 [] [H9 _]. forward.
  assert (step s0 s5) as H05 by chain. pose proof (step_ret _ _ H05) as Hr5.
  assert (in_function = true → tyok s5 (return_type s5)) as Hrt5.
  { intros Hf. rewrite Hr5. eapply tyok_grows; [apply H05|auto]. }
  apply wp_bind. eapply wp_mono; [by apply (H0 D Γ)|]. intros s6 a1 (H6' & Hr6 & He6 & Hd6 & Hs6 & Hb6).
  apply wp_bind. eapply wp_mono; [apply (H1 (D ∖ declared st) Γ in_function); [done| |]|].
  { eapply env_ok_frame; [|done..]. done. }
  { intros Hf. rewrite Hr6. eapply tyok_grows; [exact H6'|auto]. }
  intros s7 b1 (H7' & Hr7 & He7 & Hd7 & Hs7 & Hb7). apply wp_ret. eapply (stmt_done _ _ D Γ (SIf c st se s)); try done.
  + etrans; [apply H05|]. by etrans.
  + congruence.
  + intros y [Hy1 Hy2]%not_elem_of_union. rewrite He7, He6 by done. by rewrite (step_env _ _ H05).
  + simpl. by rewrite Hd6, Hd7.
  + intros HF. assert (grows s6 F) as B6 by (by etrans). assert (grows s5 F) as B5 by (by etrans). below.
    rewrite Hr6, Hr5 in Hb7. rewrite Hr5 in Hb6. apply becomes_if; [|by apply Hb6|by apply Hb7].
    apply (becomes_coerce _ _ J.Bool); [by eapply walk_typ_ok|done|auto].
Qed.
Lemma catch_gen b x c s : stmt_gen b → stmt_gen c → stmt_gen (SCatch b x c s).
Proof.
  intros H H0 D Γ in_function H1.
  intros s0 Hs Hr. simpl in *. and_hyps. apply wp_bind. eapply wp_mono; [by apply (H D Γ)|].
  intros s1 a1 (G1 & Hr1 & He1 & Hd1 & Hs1 & Hb1). apply wp_bind, wp_get.
  assert (env_ok s1 (D ∖ declared b) Γ) as Hs1' by by eapply env_ok_frame.
  apply wp_bind. eapply wp_mono; [apply env_update_ok|]. intros s2 [] (G2 & Hr2 & He2).
  apply wp_bind. eapply wp_mono; [apply (H0 ({[ x ]} ∪ D ∖ declared b) (<[x := J.Any]> Γ) in_function); [done| |]|].
  { by apply (env_ok_insert s1 s2 _ _ x J.Any). }
  { intros Hf. rewrite Hr2, Hr1. eapply tyok_grows; [etrans; [exact G1|exact G2]|auto]. }
  intros s3 c1 (G3 & Hr3 & He3 & Hd3 & Hs3 & Hb3).
  apply wp_bind. eapply wp_mono; [apply set_env_ok|]. intros s4 [] (G4 & Hr4 & He4). apply wp_ret. eapply (stmt_done _ _ D Γ (SCatch b x c s)); try done.
  + etrans; [exact G1|]. etrans; [exact G2|]. by etrans.
  + congruence.
  + intros y [Hy1 Hy2]%not_elem_of_union. rewrite He4. auto.
  + simpl. by rewrite Hd1, Hd3.
  + intros HF. assert (grows s3 F) as B3 by (by etrans). assert (grows s2 F) as B2 by (by etrans).
    assert (grows s1 F) as B1 by (by etrans). rewrite Hr2, Hr1 in Hb3. apply becomes_catch; auto.
Qed.
Lemma finally_gen b f s : stmt_gen b → stmt_gen f → stmt_gen (SFinally b f s).
Proof.
  intros H H0 D Γ in_function H1.
  intros s0 Hs Hr. simpl in *. and_hyps. apply wp_bind. eapply wp_mono; [by apply (H D Γ)|].
  intros s1 a1 (G1 & Hr1 & He1 & Hd1 & Hs1 & Hb1).
  apply wp_bind. eapply wp_mono; [apply (H0 (D ∖ declared b) Γ in_function); [done| |]|].
  { by eapply env_ok_frame. }
  { intros Hf. rewrite Hr1. eapply tyok_grows; [exact G1|auto]. }
  intros s2 c1 (G2 & Hr2 & He2 & Hd2 & Hs2 & Hb2). apply wp_ret. eapply (stmt_done _ _ D Γ (SFinally b f s)); try done.
  + by etrans.
  + congruence.
  + intros y [Hy1 Hy2]%not_elem_of_union. rewrite He2; auto.
  + simpl. by rewrite Hd1, Hd2.
  + intros HF. assert (grows s1 F) as B1 by (by etrans). rewrite Hr1 in Hb2. apply becomes_finally; auto.
Qed.
Lemma throw_gen e s : expr_gen e → stmt_gen (SThrow e s).
Proof.
  intros H D Γ in_function H0.
  intros s0 Hs Hr. simpl in *. eapply gen_bind; [by apply H|done|]. intros s1 e1 φ t H1 Ht He. forward.
  apply wp_bind. eapply wp_mono; [apply assert_hard_ok|]. intros s2 [] [H2 Hh2]. forward.
  eapply means_bind; [mean|]. intros s3 φ3 H3 _. forward.
  apply wp_bind. eapply wp_mono; [apply assert_hard_ok|]. intros s4 [] [H4 _]. forward. apply wp_ret.
  assert (step s0 s4) as H04 by chain. eapply (stmt_done _ _ D Γ (SThrow e s)); try done; [apply H04..|by intros; rewrite (step_env _ _ H04)|].
  intros HF. below. eapply becomes_throw. auto.
Qed.
Lemma return_gen e s : expr_gen e → stmt_gen (SReturn e s).
Proof.
  intros H D Γ in_function H0.
  intros s0 Hs Hr. simpl in *. and_hyps. subst in_function. eapply gen_bind; [by apply H|done|].
  intros s1 e1 φ t H1' Ht He. forward. apply weight_bind. intros s2 w H2. forward.
  apply wp_bind. eapply wp_mono; [apply assert_hard_ok|]. intros s3 [] [H3 Hh3]. forward. apply wp_bind, wp_get.
  assert (step s0 s3) as H03 by chain. pose proof (step_ret _ _ H03) as Hr3.
  assert (tyok s3 (return_type s3)) as Hrt by (rewrite Hr3; eapply tyok_grows; [apply H03|auto]). rewrite Hr3 in *.
  apply wp_bind. eapply wp_mono; [by apply is_ground_ok|]. cbn beta. intros s4 g H4. forward.
  eapply means_bind; [mean|]. intros s5 φ5 H5 _. forward.
  apply wp_bind. eapply wp_mono; [apply assert_hard_ok|]. intros s6 [] [H6 _]. forward. apply wp_ret.
  assert (step s3 s6) as H36 by chain. assert (step s0 s6) as H06 by by etrans.
  eapply (stmt_done _ _ D Γ (SReturn e s)); try done; [apply H06..|by intros; rewrite (step_env _ _ H06)|].
  intros HF. assert (grows s3 F) as B3 by (etrans; [apply H36|done]). below. apply becomes_return.
  apply becomes_coerce; [by eapply walk_typ_ok..|]. auto.
Qed.

Lemma cgen_ok :
  (∀ e, expr_gen e) ∧ (∀ lv, lval_ok lv) ∧ (∀ f, func_ok f) ∧
  (∀ st, stmt_gen st).
Proof.
  apply syntax_ind. constructor; intros; try (intros D Γ Hi; discriminate Hi); try (intros D Γ b Hi; discriminate Hi).
  - intros D Γ ?. intros s0 Hs. simpl. apply wobbly_gen; [by destruct l as [| | | |[]|]|].
    replace (solved (typ_lit l)) with (typ_lit l) by (by destruct l as [| | | |[]|]). apply becomes_lit.
  - intros D Γ ?. intros s0 Hs. simpl in H0 |- *. eapply exprs_bind; [by apply all_gen_ok|done|].
    intros s1 es' φs ts H1 Hts Hl Hes Hlts. forward. apply wp_bind. eapply wp_mono; [by apply mapM_anys|].
    cbn beta. intros s2 anys H2. forward. apply gen_wobbly; [done|chain|]. intros HF. below. rewrite holds_BAnd, Forall_app. intros [Hφs _].
    apply becomes_array. specialize (Hes ltac:(done) Hφs). clear -Hes. induction Hes; constructor; eauto.
  - by apply object_gen.
  - intros D Γ ?. intros s0 Hs. simpl in H |- *. apply bool_decide_eq_true in H. destruct (Hs x H) as (ty & Hx & Hty & HΓ).
    apply wp_bind, wp_bind, wp_get. eapply wp_lift; [by rewrite Hx|]. apply gen_wobbly; [done|done|]. intros HF _.
    apply becomes_id; [by eapply walk_typ_ok|done].
  - intros D Γ ?. intros s0 Hs. simpl in *. apply wp_bind. eapply wp_mono; [apply (cgen_dot_ok _ D Γ); [by apply H|done]|].
    intros s1 [e1 φ] [H1 He]. apply wp_ret. split; [done|]. split; [done|]. intros HF Hφ. eapply becomes_dot. by apply He.
  - intros D Γ ?. intros s0 Hs. simpl in *. and_hyps. apply wp_bind. eapply wp_mono; [apply (cgen_bracket_ok _ D Γ); [by apply H|by apply H0|done]|].
    intros s1 [[[o f] t'] φ] (H4 & Ht & Hb). apply wp_ret. split; [done|]. split; [done|]. intros HF Hφ.
    destruct Hb as (? & ? & ? & tf & ? & ?); [done..|]. by eapply becomes_bracket.
  - intros D Γ ?. simpl in *. and_hyps. apply cgen_js_op_ok; [done|by apply all_gen_ok].
  - intros D Γ ?. simpl in H1. apply andb_true_iff in H1 as [Hlv He].
    destruct lv as [x t|c f|o f t]; [apply (cgen_assign_ok _ _ _ (LId x t))|apply (cgen_assign_ok _ _ _ (LDot c f))
      |apply (cgen_assign_ok _ _ _ (LBracket o f t))]; auto; simpl in *; [by apply bool_decide_eq_true in Hlv|by apply H..].
  - intros D Γ ?. simpl in *. and_hyps. apply cgen_call_ok; [by apply H|by apply all_gen_ok].
  - intros D Γ ?. intros s0 Hs. simpl in *. and_hyps. apply wp_bind.
    eapply wp_mono; [apply (cgen_method_call_ok _ D Γ); [by apply H|by apply all_gen_ok|done]|].
    intros s1 [e1 [φ t1]] (H4 & Ht & Hb). apply gen_wobbly; done.
  - intros D Γ ?. intros s0 Hs. simpl in *. apply wp_bind. eapply wp_mono; [apply (cgen_length_ok _ D Γ); [by apply H|done]|].
    intros s1 [e1 [φ t1]] (H4 & Ht & Hb). apply gen_wobbly; done.
  - intros D Γ ?. destruct f as [r args b fv afc]. apply cgen_func_ok; [exact H0|]. intros D' Γ'. apply H.
  - intros D Γ. done.
  - intros D Γ. apply H.
  - intros D Γ [? ?]%andb_true_iff. auto.
  - intros D Γ Hb. by apply H.
  - intros D Γ in_function ?. by apply var_ok.
  - by apply block_gen.
  - intros D Γ in_function ?. intros s0 Hs Hr. apply wp_ret. eapply (stmt_done _ _ D Γ (SEmpty)); try done. intros HF. eexists _, _. by split_and!.
  - by apply expr_stmt_gen.
  - by apply if_gen.
  - intros D Γ in_function ?. intros s0 Hs Hr. simpl in *. apply wp_bind. eapply wp_mono; [by apply (H D Γ)|].
    intros s1 b1 (G1 & Hr1 & He1 & Hd1 & Hs1 & Hb1). apply wp_ret. eapply (stmt_done _ _ D Γ (SLoop b s)); try done.
    intros HF. apply becomes_loop. auto.
  - done.
  - intros D Γ in_function ?. intros s0 Hs Hr. simpl in *. apply wp_bind. eapply wp_mono; [by apply (H D Γ)|].
    intros s1 b1 (G1 & Hr1 & He1 & Hd1 & Hs1 & Hb1). apply wp_ret. eapply (stmt_done _ _ D Γ (SLabel x b s)); try done.
    intros HF. apply becomes_label. auto.
  - intros D Γ in_function ?. intros s0 Hs Hr. apply wp_ret. eapply (stmt_done _ _ D Γ (SBreak x s)); try done. intros HF. eexists _, _. by split_and!.
  - by apply catch_gen.
  - by apply finally_gen.
  - by apply throw_gen.
  - by apply return_gen.
Qed.

End sound.

(** ** Whole programs *)
Definition inferable_program (st : Stmt) : bool := inferable_stmt (dom global_env ∖ declared st) false st.

Lemma env_new_global : env_new = global_env.
Proof.
  unfold env_new, global_env. induction get_global_object as [|kt l IH] using rev_ind; [done|].
  by rewrite foldl_app, map_app, rev_app_distr; simpl; rewrite IH.
Qed.
Lemma global_closed x t : global_env !! x = Some t → tok 0 t = true.
Proof.
  assert (map_Forall (λ _ t, tok 0 t = true) global_env) as H by (apply (bool_decide_unpack _); vm_compute; exact I).
  apply H.
Qed.
Lemma initial_env F m D :
  D ⊆ dom global_env → env_ok F m initial D global_env.
Proof.
  intros HD x [t Hx]%HD%elem_of_dom. exists t. pose proof (global_closed _ _ Hx) as Ht. cbn [env initial].
  rewrite env_new_global, closed_solved by done. split_and!; [done|by apply closed_ok|done].
Qed.

Lemma program_ok F m st :
  Forall (λ b, Z3.eval_bool m b = true) (hard F) → inferable_program st = true →
  ∃ s st1, cgen_stmt st initial = Ok (s, st1) ∧ declared st1 = declared st ∧
    (grows s F → becomes_stmt F m st1 None (hide true global_env (declared st))).
Proof.
  intros Hsat Hok. pose proof (proj2 (proj2 (proj2 (cgen_ok F m Hsat))) st _ (hide true global_env (declared st)) _ Hok initial) as H.
  destruct H as (s & st1 & Hc & _ & _ & _ & Hd & _ & Hb).
  - apply hide_env_ok, initial_env. reflexivity.
  - intros H. discriminate H.
  - exists s, st1. split; [exact Hc|]. split; [exact Hd|exact Hb].
Qed.

(** C40: Type inference is sound.  For a program in which the inference and the checker
    agree on the scope of the variables ([inferable_program]), and a solver whose
    models satisfy the assertions, [typeinf] builds its constraints without a
    panic.  When the solver has no model, it panics as the code says.  When it has
    one, the metavariables and the overloaded operators are all resolved, and
    the program, after the selection of its method calls, is strictly well typed
    and passes the type checker. *)
Theorem typeinf_correct check st :
  Z3.Sound check → inferable_program st = true →
  ∃ s st1, cgen_stmt st initial = Ok (s, st1) ∧
    match check (hard s) (soft s) with
    | Z3.Sat _ => ∃ st2 st3, typeinf check st = Ok st2 ∧ select_method_call st2 = Ok st3 ∧
        program_typed true st3 ∧ type_check st3 = Ok tt
    | Z3.Unsat => typeinf check st = Panic "type inference failed (unsat)"
    | Z3.Unknown => typeinf check st = Panic "Got an unknown from Z3"
    end.
Proof.
  intros Hsound Hok.
  destruct (program_ok initial (Z3.mkModel (λ _, Z3.any) (λ _, true) (λ _, OpMissing) (λ _, true)) st (Forall_nil_2 _) Hok)
    as (s & st1 & Hc & _ & _).
  exists s, st1. split; [exact Hc|]. unfold typeinf. rewrite Hc. cbn [mbind comp_bind].
  destruct (check (hard s) (soft s)) as [m| |] eqn:Hm; [|reflexivity..].
  destruct (program_ok s m st (Hsound _ _ _ Hm) Hok) as (s' & st1' & Hc' & Hd & Hb).
  rewrite Hc in Hc'. injection Hc' as <- <-. destruct (Hb ltac:(reflexivity)) as (st2 & st3 & H2 & H3 & Ht & Hd3 & _).
  assert (program_typed true st3) as Hty by (unfold program_typed; rewrite Hd3, Hd; exact Ht).
  exists st2, st3. split; [exact H2|]. split; [unfold select_method_call, walk; rewrite H3; reflexivity|]. split; [exact Hty|].
  unfold type_check. erewrite (proj2 (proj2 (proj2 typing_complete))); [done|exact Hty|apply hide_subseteq].
Qed.

(** A solver that knows one model. *)
Definition try_model (m : Z3.Model) : Z3.Optimize := λ hard _,
  if forallb (Z3.eval_bool m) hard then Z3.Sat m else Z3.Unknown.
#[export] Instance try_model_sound m : Z3.Sound (try_model m).
Proof.
  intros hard soft m'. unfold try_model. destruct (forallb _ _) eqn:H; [|done]. intros [= <-].
  rewrite forallb_forall in H. apply Forall_forall. intros b Hb. by apply H, list_elem_of_In.
Qed.

(** [var x; x = 1; var f = function(a) { return a + 2; }; f(x);] *)
Definition sample : Stmt :=
  let id x := EId (Named x) J.Missing Unknown in
  let num i := ELit (LNum (NInt i)) Unknown in
  SBlock [
    SVar (Named "x") J.Missing (ELit LUndefined Unknown) Unknown;
    SExpr (EAssign (LId (Named "x") J.Missing) (num 1) Unknown) Unknown;
    SVar (Named "f") J.Missing
      (EFunc (func_new [(Named "a", J.Missing)] J.Missing
        (SBlock [SReturn (EJsOp (JBinary Js.BPlus) [id "a"; num 2] (mkJsOpTypeinf OpMissing) Unknown) Unknown]
           Unknown)) Unknown) Unknown;
    SExpr (ECall (id "f") [id "x"] Unknown) Unknown] Unknown.
(** Every type is [Any], every weight is false, and 17 is the constant that says
    that the function is ground. *)
Definition sample_model : Z3.Model :=
  Z3.mkModel (λ _, Z3.any) (λ n, n =? 17)%nat (λ _, RTSOp RTS.Plus) (λ _, false).
Lemma typeinf_correct_witness :
  ∃ st2 st3, typeinf (try_model sample_model) sample = Ok st2 ∧ select_method_call st2 = Ok st3 ∧
    program_typed true st3 ∧ type_check st3 = Ok tt.
Proof.
  destruct (typeinf_correct (try_model sample_model) sample (try_model_sound _)) as (s & st1 & Hc & H).
  - vm_compute. reflexivity.
  - assert (match cgen_stmt sample initial with
            | Ok (s, _) => try_model sample_model (hard s) (soft s) = Z3.Sat sample_model
            | _ => False end) as Hs by (vm_compute; reflexivity).
    rewrite Hc in Hs. rewrite Hs in H. exact H.
Defined.
