(* ===== verification/Rope.v ===== *)
(** Ropes ([rope.rs]): lists of statements with an append in constant time. *)
From S2P Require Import Prelude.

Module Rope.
Section rope.
Context {A : Type}.

(** [R<T>], and [Rope<T>], which wraps it. *)
Inductive R : Type :=
  | Nil
  | Singleton (x : A)
  | Append (l r : R).

Definition nil : R := Nil.
Definition singleton (x : A) : R := Singleton x.
Definition append (self other : R) : R :=
  match self, other with
  | Nil, _ => other
  | _, Nil => self
  | _, _ => Append self other
  end.

(** [RopeIntoIter::next] pops the stack until it finds an element.  The head of
    the list is the top of the stack; [fuel] bounds the rounds of the loop. *)
Fixpoint next (fuel : nat) (stack : list R) : comp never (option A * list R) :=
  match stack with
  | [] => Ok (None, [])
  | Nil :: _ => Panic "unexpected R::Nil in interior of Rope"
  | Singleton x :: stack => Ok (Some x, stack)
  | Append lhs rhs :: stack =>
      match fuel with
      | O => Panic "out of fuel"
      | S fuel => next fuel (lhs :: rhs :: stack)
      end
  end.
(** A loop that consumes the iterator. *)
Fixpoint drain (fuel : nat) (stack : list R) : comp never (list A) :=
  match fuel with
  | O => Panic "out of fuel"
  | S n =>
      '(item, stack) ← next fuel stack;
      match item with
      | None => Ok []
      | Some x => l ← drain n stack; Ok (x :: l)
      end
  end.

(** Every round of either loop takes a node off the stack. *)
Fixpoint size (r : R) : nat :=
  match r with Nil => 1 | Singleton _ => 1 | Append l r => S (size l + size r) end%nat.
Definition weight (stack : list R) : nat := sum_list_with size stack.

(** [Rope::into_iter] and [collect]. *)
Definition into_iter (self : R) : list R := match self with Nil => [] | r => [r] end.
Definition collect (self : R) : comp never (list A) :=
  drain (S (weight (into_iter self))) (into_iter self).

(** ** The elements of a rope *)
Fixpoint elements (r : R) : list A :=
  match r with Nil => [] | Singleton x => [x] | Append l r => elements l ++ elements r end.
(** No [Nil] below an [Append]. *)
Fixpoint full (r : R) : Prop :=
  match r with Nil => False | Singleton _ => True | Append l r => full l ∧ full r end.
Definition wf (r : R) : Prop := r = Nil ∨ full r.

Lemma wf_nil : wf nil.
Proof. by left. Qed.
Lemma wf_singleton x : wf (singleton x).
Proof. by right. Qed.
Lemma wf_append l r : wf l → wf r → wf (append l r).
Proof.
  intros [->|Hl] [->|Hr]; unfold append.
  - by left.
  - by right.
  - destruct l; by right.
  - destruct l, r; try done; right; cbn in *; tauto.
Qed.
Lemma elements_append l r : elements (append l r) = elements l ++ elements r.
Proof. destruct l, r; cbn; try done; by rewrite ?app_nil_r. Qed.

Definition all_elements (stack : list R) : list A := flat_map elements stack.

Lemma next_ok fuel stack :
  Forall full stack → (weight stack <= fuel)%nat →
  ∃ item stack', next fuel stack = Ok (item, stack') ∧ Forall full stack' ∧
    match item with
    | None => all_elements stack = []
    | Some x => all_elements stack = x :: all_elements stack' ∧ (weight stack' < weight stack)%nat
    end.
Proof.
  revert stack. induction fuel as [|fuel IH]; intros [|r stack] Hf Hw; cbn in *;
    [eauto|exfalso; unfold weight in Hw; destruct r; cbn in Hw; lia|eauto|].
  apply Forall_cons in Hf as [Hr Hf]. destruct r as [|x|lhs rhs]; cbn in *; [done|..].
  - exists (Some x), stack. split_and!; [done..|unfold weight; cbn; lia].
  - destruct Hr as [Hl Hr]. destruct (IH (lhs :: rhs :: stack)) as (item & stack' & -> & Hf' & Hi).
    + by repeat constructor.
    + unfold weight in *. cbn. lia.
    + exists item, stack'. split; [done|]. split; [done|].
      destruct item as [x|]; unfold weight, all_elements in *; cbn in *; rewrite <- app_assoc; [|done].
      destruct Hi as [-> ?]. split; [done|lia].
Qed.

Lemma drain_ok fuel stack :
  Forall full stack → (weight stack < fuel)%nat → drain fuel stack = Ok (all_elements stack).
Proof.
  revert stack. induction fuel as [|fuel IH]; intros stack Hf Hw; [lia|]. cbn [drain].
  destruct (next_ok (S fuel) stack Hf) as (item & stack' & -> & Hf' & Hi); [lia|]. cbn.
  destruct item as [x|]; [|by rewrite Hi]. destruct Hi as [-> ?].
  rewrite IH by (try done; lia). done.
Qed.

Lemma into_iter_full r : wf r → Forall full (into_iter r).
Proof. intros [->|Hr]; [constructor|]. destruct r; cbn; [constructor|constructor; [exact Hr|constructor]..]. Qed.
Lemma collect_ok r : wf r → collect r = Ok (elements r).
Proof.
  intros Hr. unfold collect. rewrite drain_ok; [|by apply into_iter_full|lia].
  f_equal. destruct r; cbn; by rewrite ?app_nil_r.
Qed.

(** ** A rope is a list

    The programs over the interface of ropes, as ropes and as lists. *)
Inductive builder : Type :=
  | BNil
  | BSingleton (x : A)
  | BAppend (b1 b2 : builder).
Fixpoint rope_of (b : builder) : R :=
  match b with BNil => nil | BSingleton x => singleton x | BAppend b1 b2 => append (rope_of b1) (rope_of b2) end.
Fixpoint list_of (b : builder) : list A :=
  match b with BNil => [] | BSingleton x => [x] | BAppend b1 b2 => list_of b1 ++ list_of b2 end.

Lemma rope_of_ok b : wf (rope_of b) ∧ elements (rope_of b) = list_of b.
Proof.
  induction b as [|x|b1 [IHw1 IH1] b2 [IHw2 IH2]]; cbn; [by split; [apply wf_nil|]|by split; [apply wf_singleton|]|].
  split; [by apply wf_append|]. by rewrite elements_append, IH1, IH2.
Qed.

(** C32: ropes implement lists: however a rope has been built with the functions of
    its interface, the loop over its iterator ends (after at most as many
    rounds as the rope has nodes, with any more fuel), does not meet the [Nil] that panics, and
    produces the elements of the corresponding list in order. *)
Theorem rope_refines_list b n :
  drain (S (weight (into_iter (rope_of b))) + n) (into_iter (rope_of b)) = Ok (list_of b).
Proof.
  destruct (rope_of_ok b) as [Hw <-]. rewrite drain_ok; [|by apply into_iter_full|lia].
  f_equal. destruct (rope_of b); cbn; by rewrite ?app_nil_r.
Qed.
End rope.
Arguments R : clear implicits.
#[global] Arguments append : simpl never.
#[global] Arguments collect : simpl never.
End Rope.
