(* ===== verification/Anf.v ===== *)
(** From JankyScript to NotWasm by A-normalisation
    ([notwasm/from_jankyscript.rs]). *)
From stdpp Require Import pretty.
From S2P Require Import Prelude Types Coercions Operators JankySyntax NotWasm Rope.
Import K.

Definition compile_lit (l : Lit) : comp never W.Lit :=
  match l with
  | LString s => Ok (W.LString s)
  | LRegex _ _ => Panic "regex not supported anywhere in toolchain"
  | LBool b => Ok (W.LBool b)
  | LNull => Ok W.LNull
  | LUndefined => Ok W.LUndefined
  | LNum (NInt n) => Ok (W.LI32 n)
  | LNum (NFloat x) => Ok (W.LF64 x)
  end.

(** The state: the fresh names and the functions compiled so far. *)
Record S := mkS { namegen : NameGen.t; functions : gmap Id W.Function }.
Definition fresh (s : S) : Id * S :=
  let '(x, g) := NameGen.fresh "anf" (namegen s) in (x, mkS g (functions s)).
Definition new_function (x : Id) (f : W.Function) (s : S) : S :=
  mkS (namegen s) (<[x := f]> (functions s)).

(** ** Contexts

    A context is a closure that is called at most once.  [X] is the type of
    the local variable of the enclosing Rust function that it captures and changes; the
    variable is threaded with the state. *)
Abbreviation rope := (Rope.R W.Stmt).
Abbreviation out X := (comp never (S * X * rope)).
Inductive C (X : Type) : Type :=
  | CxtId (f : S → X → Id → out X)
  | CxtAtom (f : S → X → W.Atom → out X)
  | CxtExpr (f : S → X → W.Expr → out X).
Arguments CxtId {X}.
Arguments CxtAtom {X}.
Arguments CxtExpr {X}.

(** Declare a fresh variable and go on with its name. *)
Definition name_it {X} (s : S) (x : X) (e : W.Expr) (f : S → X → Id → out X) : out X :=
  let '(y, s) := fresh s in
  '(s, x, r) ← f s x y;
  Ok (s, x, Rope.append (Rope.singleton (W.Var (W.var_new y e) Unknown)) r).

Definition recv_a {X} (self : C X) (s : S) (x : X) (a : W.Atom) : out X :=
  match self with
  | CxtAtom f => f s x a
  | CxtId f =>
      match a with
      | W.AId y _ => f s x y
      | _ => name_it s x (W.EAtom a Unknown) f
      end
  | CxtExpr f => f s x (W.EAtom a Unknown)
  end.
Definition recv_e {X} (self : C X) (s : S) (x : X) (e : W.Expr) : out X :=
  match self with
  | CxtId f => name_it s x e f
  | CxtAtom f => name_it s x e (λ s x y, f s x (W.AId y Unknown))
  | CxtExpr f => f s x e
  end.

(** ** Expressions *)
Fixpoint coercion_to_expr (c : Coercion) (a : W.Atom) (p : Pos) : comp never W.Atom :=
  match c with
  | FloatToInt => Ok (W.FloatToInt a p)
  | IntToFloat => Ok (W.IntToFloat a p)
  | Tag _ => Ok (W.to_any_new a p)
  | Untag ty => ty ← notwasm_typ ty true; Ok (W.FromAny a ty p)
  | Fun _ _ => Panic "not yet implemented"
  | CId _ => Ok a
  | Seq c1 c2 => a ← coercion_to_expr c1 a p; coercion_to_expr c2 a p
  | Meta _ _ => Panic "Meta coerce remains"
  end.

(** [Display] of identifiers, which [to_pretty] prints. *)
Definition id_to_string (x : Id) : string :=
  match x with
  | Named s => s
  | Generated b i => "$jnks_" +:+ b +:+ "_" +:+ pretty i
  | Bogus s => "bogus_" +:+ s
  end.

Definition prim_call (name : string) (args : list Id) (p : Pos) : W.Expr :=
  W.PrimCall (RTS.Import name) args p.
Definition str_ (s : string) (p : Pos) : W.Atom := W.ALit (W.LString s) p.

(** Compile the expressions in order; [each] collects what the contexts receive. *)
Section compile_each.
Context {A B : Type} (compile : A → S → list B → out (list B)).
Fixpoint compile_each (es : list A) (s : S) (ids : list B) (stmts : rope) : out (list B) :=
  match es with
  | [] => Ok (s, ids, stmts)
  | e :: es =>
      '(s, ids, r) ← compile e s ids;
      compile_each es s ids (Rope.append stmts r)
  end.
End compile_each.

(** [compile_exprs]: name the values and pass on the names. *)
Definition compile_exprs {A X} (compile : A → S → list Id → C (list Id) → out (list Id))
    (s : S) (x : X) (es : list A) (cxt : S → X → list Id → out X) : out X :=
  '(s, ids, stmts) ←
    compile_each (λ e s ids, compile e s ids (CxtId (λ s ids x, Ok (s, ids ++ [x], Rope.nil)))) es s [] Rope.nil;
  '(s, x, r) ← cxt s x ids;
  Ok (s, x, Rope.append stmts r).

(** The loops that fill a new array and a new object. *)
Definition push_members (array_name : Id) (ids : list Id) (p : Pos) (rv : rope) : rope :=
  foldl (λ rv x, Rope.append rv
    (Rope.singleton (W.Expression (prim_call "array_push" [array_name; x] p) p))) rv ids.
Definition set_fields (obj_name : Id) (fields : list (Key * Id)) (p : Pos) (rv : rope) : comp never rope :=
  foldM (λ rv kx,
    key_str ← match kx.1 with KStr s => Ok s | KInt _ => Panic "not yet implemented" end;
    Ok (Rope.append rv (Rope.singleton
      (W.Expression (W.ObjectSet (W.AId obj_name p) (str_ key_str p) (W.AId kx.2 p) p) p)))) rv fields.

Definition rope_to_block (r : rope) (p : Pos) : comp never W.Stmt :=
  ss ← Rope.collect r; Ok (W.Block ss p).

(** The statements of a block: [map], [flatten] and [collect]. *)
Section compile_block.
Context {A : Type} (compile : S → A → comp never (S * rope)).
Fixpoint compile_block (s : S) (ss : list A) : comp never (S * list W.Stmt) :=
  match ss with
  | [] => Ok (s, [])
  | st :: ss =>
      '(s, r) ← compile s st;
      l ← Rope.collect r;
      '(s, l') ← compile_block s ss;
      Ok (s, l ++ l')
  end.
End compile_block.

Fixpoint compile_expr (e : Expr) (X : Type) (s : S) (x : X) (cxt : C X) {struct e} : out X :=
  match e with
  | EJsOp _ _ _ _ => Panic "impossible case: cannot compile JsOp to WebAssembly"
  | ELit lit p => l ← compile_lit lit; recv_a cxt s x (W.ALit l p)
  | EArray members p =>
      compile_exprs (λ e, compile_expr e (list Id)) s x members (λ s x member_ids,
        let '(array_name, s) := fresh s in
        let rv := Rope.singleton (W.Var (W.var_new array_name (prim_call "array_new" [] p)) p) in
        let rv := push_members array_name member_ids p rv in
        '(s, x, r) ← recv_a cxt s x (W.AId array_name p);
        Ok (s, x, Rope.append rv r))
  | EObject keys_exprs p =>
      compile_exprs (λ kv, compile_expr kv.2 (list Id)) s x keys_exprs (λ s x ids,
        let '(obj_name, s) := fresh s in
        let rv := Rope.singleton (W.Var (W.var_new obj_name W.ObjectEmpty) p) in
        rv ← set_fields obj_name (zip (map fst keys_exprs) ids) p rv;
        '(s, x, r) ← recv_a cxt s x (W.AId obj_name p);
        Ok (s, x, Rope.append rv r))
  | EDot obj field p =>
      compile_expr obj X s x (CxtAtom (λ s x obj,
        name ← into_name field;
        recv_a cxt s x (W.ObjectGet obj (str_ name p) p)))
  | EUnary op e p => compile_expr e X s x (CxtAtom (λ s x a, recv_a cxt s x (W.Unary op a p)))
  | EBracket c f t p =>
      compile_expr c X s x (CxtAtom (λ s x c,
        compile_expr f X s x (CxtAtom (λ s x f,
          match t with
          | J.Array => recv_a cxt s x (W.PrimApp (Named "array_index") [c; f] p)
          | J.DynObject => recv_a cxt s x (W.ObjectGet c f p)
          | J.String => Panic "string index???"
          | _ => Panic "non-array non-object index"
          end))))
  | ECoercion coercion e p =>
      compile_expr e X s x (CxtAtom (λ s x a,
        a ← coercion_to_expr coercion a p; recv_a cxt s x a))
  | EId y _ p => recv_a cxt s x (W.AId y p)
  | EFunc f p =>
      let '(name, s) := fresh s in
      '(s, f) ← compile_function s f p;
      recv_a cxt (new_function name f s) x (W.AId name p)
  | EClosure f env p =>
      let '(name, s) := fresh s in
      '(s, f) ← compile_function s f p;
      let s := new_function name f s in
      '(s, env_items, stmts) ←
        compile_each (λ et s items,
          compile_expr et.1 (list (W.Atom * N.typ)) s items (CxtAtom (λ s items a,
            ty ← notwasm_typ et.2 true; Ok (s, items ++ [(a, ty)], Rope.nil)))) env s [] Rope.nil;
      '(s, x, r) ← recv_e cxt s x (W.Closure name env_items p);
      Ok (s, x, Rope.append stmts r)
  | EBinary op e1 e2 p =>
      compile_expr e1 X s x (CxtAtom (λ s x a1,
        compile_expr e2 X s x (CxtAtom (λ s x a2, recv_a cxt s x (W.Binary op a1 a2 p)))))
  | EAssign lv e p =>
      compile_expr e X s x (CxtAtom (λ s x a,
        match lv with
        | LId y _ =>
            '(s, x, r) ← recv_a cxt s x a;
            Ok (s, x, Rope.append (Rope.singleton (W.Assign y (W.EAtom a p) p)) r)
        | LDot container field =>
            compile_expr container X s x (CxtAtom (λ s x cont,
              recv_e cxt s x (W.ObjectSet cont (str_ (id_to_string field) p) a p)))
        | LBracket container field typ =>
            compile_expr container X s x (CxtAtom (λ s x cont,
              compile_expr field X s x (CxtAtom (λ s x f,
                match typ with
                | J.Array => recv_e cxt s x (W.ArraySet cont f a p)
                | J.DynObject => recv_e cxt s x (W.ObjectSet cont f a p)
                | _ => Panic "bad bracket lvalue type"
                end))))
        end))
  | EPrimCall prim_name args p =>
      compile_exprs (λ e, compile_expr e (list Id)) s x args (λ s x arg_ids,
        recv_e cxt s x (W.PrimCall prim_name arg_ids p))
  | ECall fn args p =>
      compile_expr fn X s x (CxtId (λ s x fun_id,
        compile_exprs (λ e, compile_expr e (list Id)) s x args (λ s x arg_ids,
          recv_e cxt s x (W.ClosureCall fun_id arg_ids p))))
  | EMethodCall obj method args _ p =>
      compile_expr obj X s x (CxtId (λ s x obj_id,
        compile_exprs (λ e, compile_expr e (list Id)) s x args (λ s x arg_ids,
          typs ← expect "called unwrap on a None value" (assoc (method, length args) METHODS_TABLE);
          possible_typs ← mapM (λ t, notwasm_typ t false) typs;
          recv_e cxt s x (W.AnyMethodCall obj_id (W.LString method) arg_ids possible_typs p))))
  | ELength obj _ p =>
      compile_expr obj X s x (CxtId (λ s x obj_id,
        recv_a cxt s x (W.AnyLength obj_id (W.LString "length") p)))
  | ENewRef e ty p =>
      compile_expr e X s x (CxtAtom (λ s x a,
        ty ← notwasm_typ ty true; recv_e cxt s x (W.NewRef a ty p)))
  | EDeref e ty p =>
      compile_expr e X s x (CxtAtom (λ s x a,
        ty ← notwasm_typ ty true; recv_a cxt s x (W.Deref a ty p)))
  | EStore into e _ p =>
      compile_expr into X s x (CxtId (λ s x into,
        compile_expr e X s x (CxtExpr (λ s x what,
          Ok (s, x, Rope.singleton (W.Store into what p))))))
  | EEnvGet i ty p => ty ← notwasm_typ ty true; recv_a cxt s x (W.EnvGet i ty p)
  end
with compile_function (s : S) (f : Func) (p : Pos) {struct f} : comp never (S * W.Function) :=
  match f with
  | mkFunc result_typ args_with_typs body _ _ =>
      param_tys ← mapM (λ a, notwasm_typ a.2 true) args_with_typs;
      '(s, r) ← compile_stmt s body;
      body ← rope_to_block r p;
      result ← notwasm_typ result_typ true;
      Ok (s, W.mkFunction body (N.mkFnType (N.Env :: param_tys) (Some result))
               (Bogus "env" :: map fst args_with_typs) Unknown)
  end
with compile_stmt (s : S) (st : Stmt) {struct st} : comp never (S * rope) :=
  match st with
  | SVar x t e p =>
      '(s, _, r) ← compile_expr e unit s tt (CxtExpr (λ s u e_notwasm,
        t ← notwasm_typ t true;
        Ok (s, u, Rope.singleton (W.Var (W.mkVarStmt x e_notwasm (Some t)) p))));
      Ok (s, r)
  | SBlock stmts p =>
      '(s, ss) ← compile_block compile_stmt s stmts;
      Ok (s, Rope.singleton (W.Block ss p))
  | SEmpty => Ok (s, Rope.singleton W.Empty)
  | SExpr e _ =>
      '(s, _, r) ← compile_expr e unit s tt (CxtAtom (λ s u _, Ok (s, u, Rope.nil)));
      Ok (s, r)
  | SIf cond then_branch else_branch p =>
      '(s, _, r) ← compile_expr cond unit s tt (CxtAtom (λ s u a,
        '(s, t) ← compile_stmt s then_branch;
        t ← rope_to_block t p;
        '(s, e) ← compile_stmt s else_branch;
        e ← rope_to_block e p;
        Ok (s, u, Rope.singleton (W.If a t e p))));
      Ok (s, r)
  | SLoop body p =>
      '(s, r) ← compile_stmt s body;
      b ← rope_to_block r p;
      Ok (s, Rope.singleton (W.Loop b p))
  | SForIn _ _ _ _ => Panic "for..in in notwasm"
  | SLabel x body p =>
      '(s, r) ← compile_stmt s body;
      b ← rope_to_block r p;
      Ok (s, Rope.singleton (W.Lbl (W.Named (id_to_string x)) b p))
  | SBreak x p => Ok (s, Rope.singleton (W.Break (W.Named (id_to_string x)) p))
  | SCatch try_stmt _ _ _ => compile_stmt s try_stmt
  | SFinally _ _ _ => Panic "NotWasm needs to support exceptions"
  | SThrow _ _ => Ok (s, Rope.nil)
  | SReturn e p =>
      '(s, _, r) ← compile_expr e unit s tt (CxtAtom (λ s u a, Ok (s, u, Rope.singleton (W.Return a p))));
      Ok (s, r)
  end.

Definition from_jankyscript (janky_program : Stmt) : comp never W.Program :=
  '(s, r) ← compile_stmt (mkS ∅ ∅) janky_program;
  main_body ← rope_to_block r Unknown;
  let s := new_function (Named "main") (W.mkFunction main_body (N.mkFnType [] None) [] Unknown) s in
  Ok (W.mkProgram [] (map_to_list (functions s)) [] []).
#[global] Arguments fresh : simpl never.
#[global] Arguments name_it : simpl never.
#[global] Arguments recv_a : simpl never.
#[global] Arguments recv_e : simpl never.
#[global] Arguments new_function : simpl never.
#[global] Arguments compile_exprs : simpl never.
#[global] Arguments rope_to_block : simpl never.
