(* ===== verification/AnfTyping.v ===== *)
(** A-normalisation produces well-typed NotWasm: what can be compiled, and the proof
    that the NotWasm type checker accepts the result. *)
From S2P Require Import Prelude Types Coercions Operators JankySyntax JankyTyping NotWasm NotWasmTyping Linking Rope Anf.
Import K.

(** ** Programs that NotWasm can express

    After closure conversion.  Compared to the JankyScript checker: the values of
    arrays and objects are [Any]; objects are indexed with strings and arrays with integers; the
    method calls left are on [Any], with a method of the table; function
    coercions, functions that are not closures, [for..in] and [finally] are not
    supported; a store to a box is only a statement of its own; every type
    is known. *)
Definition anf_name (x : Id) : Prop := ∃ i, x = Generated "anf" i.
Definition user_name (x : Id) : Prop := ¬ anf_name x ∧ x ≠ Named "array_index" ∧ x ≠ Named "_".
Definition first_order (t : J.typ) : bool :=
  match t with J.Function _ _ | J.Ref _ | J.Missing | J.Metavar _ => false | _ => true end.
Definition taggable (t : J.typ) : bool :=
  resolved t && match t with J.Any | J.Ref _ => false | _ => true end.

Fixpoint coercion_lowered (c : Coercion) (from to : J.typ) : Prop :=
  match c with
  | FloatToInt => from = J.Float ∧ to = J.Int
  | IntToFloat => from = J.Int ∧ to = J.Float
  | Tag t => from = t ∧ to = J.Any ∧ taggable t = true
  | Untag t => from = J.Any ∧ to = t ∧ resolved t = true
  | CId t => from = t ∧ to = t
  | Seq c1 c2 => ∃ mid, coercion_lowered c1 from mid ∧ coercion_lowered c2 mid to
  | Fun _ _ | Meta _ _ => False
  end.

Fixpoint expr_lowered (e : Expr) (Δ : gmap Id J.typ) (t : J.typ) {struct e} : Prop :=
  match e with
  | ELit l _ => match l with LRegex _ _ => False | _ => t = type_check_lit l end
  | EArray es _ => all (λ e, expr_lowered e Δ J.Any) es ∧ t = J.Array
  | EObject kvs _ =>
      all (λ kv, (∃ k, kv.1 = KStr k) ∧ expr_lowered kv.2 Δ J.Any) kvs ∧ t = J.DynObject
  | EId x ty _ => Δ !! x = Some ty ∧ t = ty
  | EDot e x _ => expr_lowered e Δ J.DynObject ∧ (∃ n, x = Named n) ∧ t = J.Any
  | EBracket e1 e2 ty _ =>
      expr_lowered e1 Δ ty ∧
      (ty = J.Array ∧ expr_lowered e2 Δ J.Int ∨ ty = J.DynObject ∧ expr_lowered e2 Δ J.String) ∧
      t = J.Any
  | EUnary op e _ => expr_lowered e Δ (unop_janky_typ op).1 ∧ t = (unop_janky_typ op).2
  | EBinary op e1 e2 _ =>
      expr_lowered e1 Δ (binop_janky_typ op).1 ∧ expr_lowered e2 Δ (binop_janky_typ op).1 ∧
      t = (binop_janky_typ op).2
  | EAssign lv e _ =>
      expr_lowered e Δ t ∧
      match lv with
      | LId x ty => t = ty ∧ Δ !! x = Some ty
      | LDot c _ => expr_lowered c Δ J.DynObject ∧ t = J.Any
      | LBracket c f ty =>
          expr_lowered c Δ ty ∧ t = J.Any ∧
          (ty = J.Array ∧ expr_lowered f Δ J.Int ∨ ty = J.DynObject ∧ expr_lowered f Δ J.String)
      end
  | ECall f es _ =>
      ∃ args, expr_lowered f Δ (J.Function args t) ∧ args_typed true (λ e t, expr_lowered e Δ t) es args
  | EMethodCall e m es ty _ =>
      expr_lowered e Δ J.Any ∧ is_Some (assoc (m, length es) METHODS_TABLE) ∧
      all (λ e, expr_lowered e Δ J.Any) es ∧ t = J.Any
  | EPrimCall f es _ =>
      ∃ args, @RTS.janky_typ never f = Ok (J.Function args t) ∧
        forallb first_order (t :: args) = true ∧ args_typed true (λ e t, expr_lowered e Δ t) es args
  | ELength e _ _ => expr_lowered e Δ J.Any ∧ t = J.Any
  | EClosure f env _ =>
      all (λ et, expr_lowered et.1 Δ et.2) env ∧ func_lowered f ∧ t = func_typ f
  | ECoercion c e _ => ∃ from, expr_lowered e Δ from ∧ coercion_lowered c from t
  | ENewRef e ty _ => expr_lowered e Δ ty ∧ t = J.Ref ty
  | EDeref e ty _ => expr_lowered e Δ (J.Ref ty) ∧ t = ty
  | EEnvGet _ ty _ => resolved ty = true ∧ t = ty
  | EJsOp _ _ _ _ | EFunc _ _ | EStore _ _ _ _ => False
  end
with func_lowered (f : Func) {struct f} : Prop :=
  match f with
  | mkFunc r args b _ _ =>
      stmt_lowered b (insert_args ∅ args) (Some r) ∧
      resolved r = true ∧ Forall (λ a, user_name a.1 ∧ resolved a.2 = true) args
  end
with stmt_lowered (st : Stmt) (Δ : gmap Id J.typ) (ret : option J.typ) {struct st} : Prop :=
  match st with
  | SVar x t e _ =>
      user_name x ∧ resolved t = true ∧ (is_undefined e = true ∨ expr_lowered e Δ t)
  | SBlock ss _ => JankyTyping.stmts_typed (λ st Δ, stmt_lowered st Δ ret) ss Δ
  | SEmpty | SBreak _ _ | SThrow _ _ => True
  | SExpr e _ =>
      match e with
      | EStore e1 e2 ty _ => expr_lowered e1 Δ (J.Ref ty) ∧ expr_lowered e2 Δ ty
      | _ => ∃ t, expr_lowered e Δ t
      end
  | SIf c s1 s2 _ => expr_lowered c Δ J.Bool ∧ stmt_lowered s1 Δ ret ∧ stmt_lowered s2 Δ ret
  | SLoop b _ | SLabel _ b _ => stmt_lowered b Δ ret
  | SCatch b _ _ _ => (∃ ss p, b = SBlock ss p) ∧ stmt_lowered b Δ ret
  | SReturn e _ => ∃ t, ret = Some t ∧ expr_lowered e Δ t
  | SForIn _ _ _ _ | SFinally _ _ _ => False
  end.

(** ** Environments of the two languages *)
Abbreviation jtyp_to t n := (notwasm_typ (E := never) t true = Ok n).
Definition env_lowered (Δ : gmap Id J.typ) : Prop :=
  map_Forall (λ x t, user_name x ∧ resolved t = true) Δ.
Definition sim (Δ : gmap Id J.typ) (G : Env) : Prop :=
  ∀ x t n, Δ !! x = Some t → jtyp_to t n → env_get G x = Some n.

(** What the compiled code uses of the runtime. *)
Definition rt_ok (G : Env) : Prop :=
  imports G !! Named "array_new" = Some (N.Fn [] (Some N.Array)) ∧
  imports G !! Named "array_push" = Some (N.Fn [N.Array; N.Any] (Some N.I32)) ∧
  env_get G (Named "array_index") = Some (N.Fn [N.Array; N.I32] (Some N.Any)).
Definition base (Δ : gmap Id J.typ) (G : Env) : Prop := sim Δ G ∧ rt_ok G.

Definition checks_atom (G : Env) (a : W.Atom) (n : N.typ) : Prop :=
  ∃ a', a = strip_atom a' ∧ atom_typed G a' n.
Definition checks_expr (G : Env) (e : W.Expr) (n : N.typ) : Prop :=
  ∃ e', e = strip_expr e' ∧ expr_typed false G e' n.

(** ** States *)
Definition tops (s : S) (G : Env) : Prop :=
  ∀ x f, functions s !! x = Some f → env_get G x = Some (N.to_type (W.fn_type f)).
Definition checks_function (G : Env) (f : W.Function) : Prop :=
  ∃ f', function_typed false G f' ∧ annotates_function f f'.

(** [s'] is a later state: a name that was issued earlier and is no function then
    does not become one, and the new functions have generated names. *)
Definition ext (s s' : S) : Prop :=
  (∀ x, NameGen.issued (namegen s) x → NameGen.issued (namegen s') x) ∧
  functions s ⊆ functions s' ∧
  (∀ x, NameGen.issued (namegen s) x → functions s' !! x = functions s !! x) ∧
  (∀ x f, functions s' !! x = Some f → functions s !! x = Some f ∨ anf_name x).
Definition good (s : S) : Prop :=
  ∀ x f, functions s !! x = Some f →
    anf_name x ∧ NameGen.issued (namegen s) x ∧
    ∀ s' G, ext s s' → tops s' G → rt_ok G → checks_function G f.

(** Facts on the environment that new variables do not change. *)
Definition stable (s : S) (pre : Env → Prop) : Prop :=
  ∀ G x t, anf_name x → ¬ NameGen.issued (namegen s) x → pre G → pre (env_insert G x t).

(** The statements are well typed after any compilation that follows. *)
Definition code (ret : option N.typ) (s : S) (pre : Env → Prop) (ss : list W.Stmt) (post : Env → Prop) : Prop :=
  ∀ s' G, ext s s' → tops s' G → pre G →
  ∃ ss' G', Forall2 annotates ss ss' ∧ stmts_typed false ret G ss' G' ∧ post G' ∧ tops s' G'.

Definition sound {X} (ret : option N.typ) (m : out X) (s : S) (pre : Env → Prop) (Q : X → Env → Prop) : Prop :=
  ∃ s2 x2 r post, m = Ok (s2, x2, r) ∧ ext s s2 ∧ good s2 ∧ stable s2 post ∧
    (∀ G, post G → Q x2 G) ∧ Rope.wf r ∧ code ret s2 pre (Rope.elements r) post.

Definition ctx_ok {X} (ret : option N.typ) (n : N.typ) (s : S) (pre : Env → Prop) (x : X) (k : C X)
    (Q : X → Env → Prop) : Prop :=
  ∀ s1 (pre1 : Env → Prop), ext s s1 → good s1 → stable s1 pre1 → (∀ G, pre1 G → pre G) →
  match k with
  | CxtId f => ∀ y, (∀ G, pre1 G → env_get G y = Some n) → sound ret (f s1 x y) s1 pre1 Q
  | CxtAtom f => ∀ a, (∀ G, pre1 G → checks_atom G a n) → sound ret (f s1 x a) s1 pre1 Q
  | CxtExpr f =>
      ∀ e, (∀ s' G, ext s1 s' → tops s' G → pre1 G → checks_expr G e n) → sound ret (f s1 x e) s1 pre1 Q
  end.

(** ** Later states *)
#[global] Instance ext_preorder : PreOrder ext.
Proof.
  split.
  - intros s. split_and!; auto.
  - intros s1 s2 s3 (I1 & F1 & N1 & A1) (I2 & F2 & N2 & A2). split_and!; [auto|by etrans| |].
    + intros x Hx. rewrite (N2 x (I1 x Hx)). auto.
    + intros x f [Hx|Hx]%A2; auto.
Qed.
Lemma stable_ext s s' pre : ext s s' → stable s pre → stable s' pre.
Proof. intros (I & _) H G x t Hx Hn. apply H; auto. Qed.
Lemma code_ext ret s s' pre ss post : ext s s' → code ret s pre ss post → code ret s' pre ss post.
Proof. intros He H s2 G Hs2. apply H. by etrans. Qed.
Lemma code_nil ret s (pre post : Env → Prop) : (∀ G, pre G → post G) → code ret s pre [] post.
Proof. intros H s' G _ Ht Hp. exists [], G. split_and!; auto; constructor. Qed.
Lemma stmts_typed_app strict ret G ss1 G1 ss2 G2 :
  stmts_typed strict ret G ss1 G1 → stmts_typed strict ret G1 ss2 G2 → stmts_typed strict ret G (ss1 ++ ss2) G2.
Proof.
  revert G. induction ss1 as [|st ss1 IH]; intros G H1 H2; inversion H1; subst; cbn; [done|].
  econstructor; eauto.
Qed.
Lemma code_app ret s pre ss1 (mid : Env → Prop) ss2 post :
  code ret s pre ss1 mid → code ret s mid ss2 post → code ret s pre (ss1 ++ ss2) post.
Proof.
  intros H1 H2 s' G He Ht Hp. destruct (H1 s' G He Ht Hp) as (ss1' & G1 & A1 & T1 & P1 & Ht1).
  destruct (H2 s' G1 He Ht1 P1) as (ss2' & G2 & A2 & T2 & P2 & Ht2).
  exists (ss1' ++ ss2'), G2. split_and!; [by apply Forall2_app|by eapply stmts_typed_app|done|done].
Qed.
Lemma code_weaken ret s (pre pre' : Env → Prop) ss (post post' : Env → Prop) :
  (∀ G, pre' G → pre G) → (∀ G, post G → post' G) → code ret s pre ss post → code ret s pre' ss post'.
Proof. intros Hpre Hpost H s' G He Ht Hp. destruct (H s' G He Ht (Hpre G Hp)) as (ss' & G' & ? & ? & ? & ?). eauto 10. Qed.
(** One statement that declares nothing. *)
Lemma code_stmt ret s (pre : Env → Prop) st :
  (∀ s' G, ext s s' → tops s' G → pre G → ∃ st', annotates st st' ∧ stmt_typed false ret G st' G) →
  code ret s pre [st] pre.
Proof.
  intros H s' G He Ht Hp. destruct (H s' G He Ht Hp) as (st' & Ha & Hty).
  exists [st'], G. split_and!; [by repeat constructor|econstructor; [done|constructor]|done|done].
Qed.

(** ** Fresh variables *)
Lemma fresh_ok s :
  good s →
  let y := (fresh s).1 in let s1 := (fresh s).2 in
  anf_name y ∧ ¬ NameGen.issued (namegen s) y ∧ NameGen.issued (namegen s1) y ∧
  ext s s1 ∧ good s1 ∧ functions s1 !! y = None.
Proof.
  intros Hg. unfold fresh. pose proof (NameGen.fresh_not_issued "anf" (namegen s)) as Hn.
  pose proof (λ x, NameGen.fresh_issued "anf" (namegen s) x) as Hi.
  assert (anf_name (NameGen.fresh "anf" (namegen s)).1) as Ha by (cbn; eexists; done).
  destruct (NameGen.fresh "anf" (namegen s)) as [y g]. cbn in *.
  assert (ext s (mkS g (functions s))) as He by (split_and!; cbn; [intros; by apply Hi; left|done|done|auto]).
  split_and!; [done|done|by apply Hi; right|done| |].
  - intros x f Hx. destruct (Hg x f Hx) as (? & ? & Hf). split_and!; [done|by apply (proj1 He)|].
    intros s' G Hs'. apply Hf. by etrans.
  - destruct (functions s !! y) as [f|] eqn:Hy; [|done]. by destruct (Hg y f Hy) as (_ & ? & _).
Qed.
Lemma tops_insert s s' G y t :
  ext s s' → NameGen.issued (namegen s) y → functions s !! y = None → tops s' G → tops s' (env_insert G y t).
Proof.
  intros (_ & _ & N & _) Hi Hy Ht x f Hx. rewrite env_get_insert. case_decide as Hxy; [|auto].
  subst x. rewrite N in Hx by done. congruence.
Qed.
Lemma tops_insert_user s s' G y t :
  good s → ext s s' → ¬ anf_name y → tops s' G → tops s' (env_insert G y t).
Proof.
  intros Hg (_ & _ & _ & A) Hy Ht x f Hx. rewrite env_get_insert. case_decide as Hxy; [|auto].
  subst x. exfalso. apply Hy. destruct (A y f Hx) as [Hs|?]; [|done]. by apply (Hg y f).
Qed.

Lemma annotates_fresh_var ret y e p n G :
  y ≠ Named "_" → expr_typed false G e n →
  annotates (W.Var (W.var_new y (strip_expr e)) p) (W.Var (W.mkVarStmt y e (Some n)) p) ∧
  stmt_typed false ret G (W.Var (W.mkVarStmt y e (Some n)) p) (env_insert G y n).
Proof.
  intros Hy He. split.
  - constructor. split_and!; cbn; [done|done|]. right. split; [done|].
    intros Hu. f_equal. by eapply undefined_typed.
  - constructor. exists n, n. cbn. split_and!; try done. by rewrite decide_False.
Qed.

(** The declaration of a fresh variable, and what follows it. *)
Lemma code_fresh ret s pre e n p :
  good s → stable s pre →
  (∀ s' G, ext s s' → tops s' G → pre G → checks_expr G e n) →
  let y := (fresh s).1 in let s1 := (fresh s).2 in
  let pre1 := λ G, pre G ∧ env_get G y = Some n in
  stable s1 pre1 ∧ code ret s1 pre [W.Var (W.var_new y e) p] pre1.
Proof.
  intros Hg Hs He. pose proof (fresh_ok s Hg) as H. cbv zeta in *. revert H.
  generalize (fresh s).1 (fresh s).2. intros y s1 (Ha & Hn & Hi & Hext & _ & Hf).
  split.
  - intros G x t Hx Hnx [Hp Hy]. split.
    + apply Hs; [done| |done]. intros ?. by apply Hnx, Hext.
    + rewrite env_get_insert, decide_False; [done|]. by intros ->.
  - intros s' G Hs' Ht Hp. destruct (He s' G ltac:(by etrans) Ht Hp) as (e' & -> & He').
    destruct (annotates_fresh_var ret y e' p n G) as [A T]; [by destruct Ha as [? ->]|done|].
    eexists [_], _. split; [apply Forall2_cons; split; [exact A|apply Forall2_nil_2]|].
    split; [econstructor; [exact T|constructor]|]. split.
    + split; [by apply Hs|]. rewrite env_get_insert. by rewrite decide_True.
    + by eapply tops_insert.
Qed.

Lemma ctx_ok_mono {X} ret n s s1 (pre pre1 : Env → Prop) (x : X) k Q :
  ext s s1 → (∀ G, pre1 G → pre G) → ctx_ok ret n s pre x k Q → ctx_ok ret n s1 pre1 x k Q.
Proof. intros He Hp H s2 pre2 He2 Hg Hs Hp2. apply (H s2 pre2); [by etrans|done|done|auto]. Qed.

Lemma name_it_ok {X} ret n s pre (x : X) e f Q :
  good s → stable s pre →
  (∀ s' G, ext s s' → tops s' G → pre G → checks_expr G e n) →
  (∀ s1 (pre1 : Env → Prop) y, ext s s1 → good s1 → stable s1 pre1 → (∀ G, pre1 G → pre G) →
     (∀ G, pre1 G → env_get G y = Some n) → sound ret (f s1 x y) s1 pre1 Q) →
  sound ret (name_it s x e f) s pre Q.
Proof.
  intros Hg Hs He Hf. destruct (fresh_ok s Hg) as (Ha & Hn & Hi & Hext & Hg1 & _).
  destruct (code_fresh ret s pre e n Unknown Hg Hs He) as [Hs1 Hc].
  destruct (Hf (fresh s).2 _ (fresh s).1 Hext Hg1 Hs1) as (s2 & x2 & r & post & Hm & He2 & Hg2 & Hs2 & HQ & Hw & Hc2);
    [tauto|tauto|].
  unfold name_it. destruct (fresh s) as [y s1]. cbn in *. rewrite Hm. cbn.
  eexists s2, x2, _, post. split; [done|]. split_and!; [by etrans|done|done|done| |].
  - by apply Rope.wf_append; [apply Rope.wf_singleton|].
  - rewrite Rope.elements_append. eapply code_app; [by eapply code_ext|done].
Qed.

Lemma checks_AId G y p n : checks_atom G (W.AId y p) n ↔ env_get G y = Some n.
Proof.
  split.
  - intros ([] & Ha & Ht); try done. cbn in Ha. injection Ha as <- <-. by inversion Ht.
  - intros H. exists (W.AId y p). split; [done|by constructor].
Qed.
Lemma checks_EAtom G a p n : checks_atom G a n → checks_expr G (W.EAtom a p) n.
Proof. intros (a' & -> & Ht). exists (W.EAtom a' p). split; [done|by constructor]. Qed.

Lemma recv_a_ok {X} ret n s pre (x : X) k a Q :
  ctx_ok ret n s pre x k Q → good s → stable s pre → (∀ G, pre G → checks_atom G a n) →
  sound ret (recv_a k s x a) s pre Q.
Proof.
  intros Hk Hg Hs Ha. unfold ctx_ok in Hk. unfold recv_a, recv_e. destruct k as [f|f|f].
  - assert (sound ret (name_it s x (W.EAtom a Unknown) f) s pre Q) as Hname.
    { eapply name_it_ok; [done|done|intros ? ? _ _ ?; by apply checks_EAtom, Ha|].
      intros s1 pre1 y ? ? ? ? ?. by apply Hk. }
    destruct a; try done. apply Hk; [done..|]. intros G HG. by eapply checks_AId, Ha.
  - by apply Hk.
  - apply Hk; [done..|]. intros. by apply checks_EAtom, Ha.
Qed.
Lemma recv_e_ok {X} ret n s pre (x : X) k e Q :
  ctx_ok ret n s pre x k Q → good s → stable s pre →
  (∀ s' G, ext s s' → tops s' G → pre G → checks_expr G e n) →
  sound ret (recv_e k s x e) s pre Q.
Proof.
  intros Hk Hg Hs He. unfold ctx_ok in Hk. unfold recv_a, recv_e. destruct k as [f|f|f].
  - eapply name_it_ok; [done..|]. intros s1 pre1 y ? ? ? ? ?. by apply Hk.
  - eapply name_it_ok; [done..|]. intros s1 pre1 y ? ? ? ? Hy. apply Hk; [done..|]. intros G HG.
    by apply checks_AId, Hy.
  - by apply Hk.
Qed.


(** ** Lists of expressions *)
Lemma compile_each_ok {A B P} ret (compile : A → S → list B → out (list B)) (R : P → B → Env → Prop)
    es ps s bs stmts (pre : Env → Prop) :
  good s → stable s pre → Rope.wf stmts →
  Forall2 (λ e p, ∀ s1 bs1 (pre1 : Env → Prop),
    ext s s1 → good s1 → stable s1 pre1 → (∀ G, pre1 G → pre G) →
    sound ret (compile e s1 bs1) s1 pre1 (λ bs2 G, pre1 G ∧ ∃ b, bs2 = bs1 ++ [b] ∧ R p b G)) es ps →
  ∃ s2 bs2 r ss post,
    compile_each compile es s bs stmts = Ok (s2, bs2, r) ∧ ext s s2 ∧ good s2 ∧ stable s2 post ∧
    Rope.wf r ∧ Rope.elements r = Rope.elements stmts ++ ss ∧ code ret s2 pre ss post ∧
    (∀ G, post G → pre G ∧ ∃ l, bs2 = bs ++ l ∧ Forall2 (λ p b, R p b G) ps l).
Proof.
  intros Hg Hs Hw H. revert ps s bs stmts pre Hg Hs Hw H.
  induction es as [|e es IH]; intros ps s bs stmts pre Hg Hs Hw H; inversion H as [|? p ? ps' He Hes]; subst; cbn.
  - exists s, bs, stmts, [], pre. rewrite app_nil_r. split_and!; try done; [by apply code_nil|].
    intros G HG. split; [done|]. exists []. rewrite app_nil_r. by split; [|constructor].
  - destruct (He s bs pre) as (s1 & bs1 & r & post1 & -> & He1 & Hg1 & Hs1 & HQ & Hr & Hc); [done..|]. cbn.
    destruct (IH ps' s1 bs1 (Rope.append stmts r) post1 Hg1 Hs1) as
      (s2 & bs2 & r2 & ss & post & -> & He2 & Hg2 & Hs2 & Hr2 & Hel & Hc2 & HQ2);
      [by apply Rope.wf_append| |].
    { eapply Forall2_impl; [exact Hes|]. intros e' p' H' s3 bs3 pre3 ? ? ? Hpre3.
      apply H'; [by etrans|done|done|]. intros G HG. by apply HQ, Hpre3. }
    exists s2, bs2, r2, (Rope.elements r ++ ss), post. rewrite Hel, Rope.elements_append, app_assoc.
    split_and!; try done; [by etrans|eapply code_app; [by eapply code_ext|done]|].
    intros G HG. destruct (HQ2 G HG) as (HG1 & l & -> & Hl). destruct (HQ G HG1) as (HG0 & b & -> & Hb).
    split; [done|]. exists (b :: l). rewrite <- app_assoc. split; [done|by constructor].
Qed.

(** The result of running [k] after code that has been compiled. *)
Lemma sound_prefix {X} ret (m : out X) s s1 (pre mid : Env → Prop) Q stmts :
  ext s s1 → Rope.wf stmts → code ret s1 pre (Rope.elements stmts) mid → sound ret m s1 mid Q →
  sound ret ('(s, x, r) ← m; Ok (s, x, Rope.append stmts r)) s pre Q.
Proof.
  intros He Hw Hc (s2 & x2 & r & post & -> & He2 & Hg2 & Hs2 & HQ & Hw2 & Hc2). cbn.
  exists s2, x2, (Rope.append stmts r), post. split_and!; try done; [by etrans|by apply Rope.wf_append|].
  rewrite Rope.elements_append. eapply code_app; [by eapply code_ext|done].
Qed.

Definition ids_ok (G : Env) (ids : list Id) (ns : list N.typ) : Prop :=
  Forall2 (λ y n, env_get G y = Some n) ids ns.
Lemma compile_exprs_ok {A X} ret (compile : A → S → list Id → C (list Id) → out (list Id))
    es ns s (x : X) cxt (pre : Env → Prop) Q :
  good s → stable s pre →
  Forall2 (λ e n, ∀ s1 ids k (pre1 : Env → Prop) Q1,
    ext s s1 → good s1 → stable s1 pre1 → (∀ G, pre1 G → pre G) → ctx_ok ret n s1 pre1 ids k Q1 →
    sound ret (compile e s1 ids k) s1 pre1 Q1) es ns →
  (∀ s1 ids (pre1 : Env → Prop), ext s s1 → good s1 → stable s1 pre1 → (∀ G, pre1 G → pre G) →
     (∀ G, pre1 G → ids_ok G ids ns) → sound ret (cxt s1 x ids) s1 pre1 Q) →
  sound ret (compile_exprs compile s x es cxt) s pre Q.
Proof.
  intros Hg Hs Hes Hcxt. unfold compile_exprs.
  edestruct (compile_each_ok ret
    (λ e s ids, compile e s ids (CxtId (λ s ids y, Ok (s, ids ++ [y], Rope.nil))))
    (λ n y G, env_get G y = Some n) es ns s [] Rope.nil pre) as
    (s1 & ids & r & ss & post & -> & He & Hg1 & Hs1 & Hw & Hel & Hc & HQ); [done|done|apply Rope.wf_nil| |].
  - eapply Forall2_impl; [exact Hes|]. intros e n H s1 ids pre1 He Hg1 Hs1 Hpre1. cbn.
    apply H; [done..|]. intros s2 pre2 He2 Hg2 Hs2 Hpre2 y Hy.
    exists s2, (ids ++ [y]), Rope.nil, pre2. split_and!; try done; [|apply Rope.wf_nil|by apply code_nil].
    intros G HG. split; [auto|]. eauto.
  - cbn in *. eapply sound_prefix; [exact He|exact Hw|rewrite Hel; exact Hc|].
    apply Hcxt; [done..| |].
    + intros G HG. by apply HQ.
    + intros G HG. destruct (HQ G HG) as (_ & l & -> & Hl). cbn. unfold ids_ok.
      by apply Forall2_flip in Hl.
Qed.

(** ** Types *)
Lemma resolved_to t : resolved t = true → ∃ n, jtyp_to t n.
Proof. apply notwasm_typ_total. Qed.
Lemma resolved_to_all ts : forallb resolved ts = true → ∃ ns, Forall2 (λ t n, jtyp_to t n) ts ns.
Proof.
  induction ts as [|t ts IH]; cbn; [eauto|]. intros [[n Hn]%resolved_to [ns Hns]%IH]%andb_prop.
  exists (n :: ns). by constructor.
Qed.
Lemma jtyp_to_Function args r n :
  jtyp_to (J.Function args r) n →
  ∃ ns nr, n = N.Closure (N.Env :: ns) (Some nr) ∧ Forall2 (λ t n, jtyp_to t n) args ns ∧ jtyp_to r nr.
Proof. intros H. cbn in H. comp_inv. apply mapM_Ok in Ha0. simplify_eq. eauto. Qed.
Lemma jtyp_to_fun t n n' : jtyp_to t n → jtyp_to t n' → n = n'.
Proof. congruence. Qed.

Lemma taggable_variant t n : taggable t = true → jtyp_to t n → variant_of_any n = true.
Proof.
  unfold taggable. intros [Hr Ht]%andb_prop Hn. destruct t; cbn in Hn; try done; comp_inv; by simplify_eq.
Qed.
Lemma first_order_to t : first_order t = true → ∃ n, jtyp_to t n ∧ notwasm_typ (E := TypeCheckingError) t false = Ok n.
Proof. destruct t; cbn; try done; eauto. Qed.
Lemma first_order_to_all ts :
  forallb first_order ts = true →
  ∃ ns, Forall2 (λ t n, jtyp_to t n) ts ns ∧ mapM (λ t, notwasm_typ (E := TypeCheckingError) t false) ts = Ok ns.
Proof.
  induction ts as [|t ts IH]; cbn; [exists []; by split|].
  intros [(n & Hn & Hn')%first_order_to (ns & Hns & Hns')%IH]%andb_prop.
  exists (n :: ns). rewrite Hn'. cbn. rewrite Hns'. by split; [constructor|].
Qed.

Lemma coercion_resolved c from to : coercion_lowered c from to → resolved from = true → resolved to = true.
Proof.
  revert from to. induction c as [ | | | | | | |]; intros from to; cbn; try naive_solver.
Qed.
Lemma coercion_ok c p : ∀ from to n1 n2 a,
  coercion_lowered c from to → jtyp_to from n1 → jtyp_to to n2 →
  ∃ a2, coercion_to_expr c a p = Ok a2 ∧ ∀ G, checks_atom G a n1 → checks_atom G a2 n2.
Proof.
  induction c as [t|t| | |args ret _ _|t|c1 c2 IH1 IH2|t1 t2] using Coercion_ind';
    intros from to n1 n2 a Hc Hn1 Hn2; cbn in Hc; try done.
  - destruct Hc as (-> & -> & Ht). cbn in Hn2. simplify_eq. cbn. eexists. split; [done|].
    intros G (a' & -> & Ha). exists (W.ToAny a' (Some n1) p). split; [done|].
    constructor; [done|]. by eapply taggable_variant.
  - destruct Hc as (-> & -> & Ht). cbn. rewrite Hn2. cbn. cbn in Hn1. simplify_eq. eexists. split; [done|].
    intros G (a' & -> & Ha). exists (W.FromAny a' n2 p). split; [done|by constructor].
  - destruct Hc as [-> ->]. cbn in *. simplify_eq. eexists. split; [done|].
    intros G (a' & -> & Ha). exists (W.IntToFloat a' p). split; [done|by constructor].
  - destruct Hc as [-> ->]. cbn in *. simplify_eq. eexists. split; [done|].
    intros G (a' & -> & Ha). exists (W.FloatToInt a' p). split; [done|by constructor].
  - destruct Hc as [-> ->]. cbn. assert (n1 = n2) as -> by congruence. eauto.
  - destruct Hc as (mid & Hc1 & Hc2).
    assert (∃ n, jtyp_to mid n) as [n Hn].
    { apply resolved_to. eapply coercion_resolved; [exact Hc1|]. apply (notwasm_typ_total (E := never) from true). eauto. }
    destruct (IH1 _ _ _ _ a Hc1 Hn1 Hn) as (a1 & Ha1 & H1). destruct (IH2 _ _ _ _ a1 Hc2 Hn Hn2) as (a2 & Ha2 & H2).
    exists a2. cbn. rewrite Ha1. cbn. rewrite Ha2. eauto.
Qed.

Lemma expr_resolved e : ∀ Δ t, env_lowered Δ → expr_lowered e Δ t → resolved t = true.
Proof.
  revert e. apply (Expr_ind' (λ e, ∀ Δ t, env_lowered Δ → expr_lowered e Δ t → resolved t = true)
    (λ _, True) (λ _, True) (λ _, True)).
  constructor; try done; intros; cbn in *; destruct_ex; subst; try done.
  - destruct l as [| | | |[]|]; try done; by subst.
  - match goal with H : _ !! _ = Some _, HΔ : env_lowered _ |- _ => by destruct (HΔ _ _ H) end.
  - by destruct op.
  - by destruct op.
  - eauto.
  - match goal with IH : ∀ Δ t, _ → _ → _, H1 : expr_lowered _ _ _ |- _ => apply IH in H1; [|done] end.
    cbn in *. by match goal with H : _ && _ = true |- _ => apply andb_prop in H as [_ ?] end.
  - match goal with H : _ && _ = true |- _ => apply andb_prop in H as [Hf _] end. by destruct t.
  - destruct f as [r args b fv afc]. cbn in *. destruct_ex. apply andb_true_iff. split; [|done].
    unfold arg_typs. cbn. apply forallb_forall. intros u (a & <- & Ha)%in_map_iff.
    match goal with H : Forall _ args |- _ => rewrite Forall_forall in H; apply (H a); by apply list_elem_of_In end.
  - eapply coercion_resolved; eauto.
  - cbn. eauto.
  - match goal with IH : ∀ Δ t, _ → _ → _, H1 : expr_lowered _ _ _ |- _ => by apply IH in H1 end.
Qed.

Lemma expr_to e Δ t : env_lowered Δ → expr_lowered e Δ t → ∃ n, jtyp_to t n.
Proof. intros HΔ H. apply resolved_to. by eapply expr_resolved. Qed.
Lemma binop_to op n :
  jtyp_to (binop_janky_typ op).1 n →
  ∃ n', jtyp_to (binop_janky_typ op).2 n' ∧ binop_notwasm_typ (E := TypeCheckingError) op true = Ok (n, n').
Proof. destruct op; cbn; intros [= <-]; eauto. Qed.
Lemma unop_to op n :
  jtyp_to (unop_janky_typ op).1 n →
  ∃ n', jtyp_to (unop_janky_typ op).2 n' ∧ unop_notwasm_typ (E := TypeCheckingError) op true = Ok (n, n').
Proof. destruct op; cbn; intros [= <-]; eauto. Qed.

(** ** Atoms *)
Section atoms.
Context (G : Env).
Lemma checks_Unary op a n n' p :
  checks_atom G a n → unop_notwasm_typ (E := TypeCheckingError) op true = Ok (n, n') →
  checks_atom G (W.Unary op a p) n'.
Proof. intros (a' & -> & Ha) H. exists (W.Unary op a' p). split; [done|by econstructor]. Qed.
Lemma checks_Binary op a1 a2 n n' p :
  checks_atom G a1 n → checks_atom G a2 n → binop_notwasm_typ (E := TypeCheckingError) op true = Ok (n, n') →
  checks_atom G (W.Binary op a1 a2 p) n'.
Proof.
  intros (a1' & -> & H1) (a2' & -> & H2) H. exists (W.Binary op a1' a2' p). split; [done|].
  destruct (decide (op = PtrEq)) as [->|Hop]; [|by econstructor]. cbn in H. simplify_eq. by econstructor.
Qed.
Lemma checks_ObjectGet o f p :
  checks_atom G o N.DynObject → checks_atom G f N.String → checks_atom G (W.ObjectGet o f p) N.Any.
Proof. intros (o' & -> & ?) (f' & -> & ?). exists (W.ObjectGet o' f' p). split; [done|by constructor]. Qed.
Lemma checks_index c f p :
  rt_ok G → checks_atom G c N.Array → checks_atom G f N.I32 →
  checks_atom G (W.PrimApp (Named "array_index") [c; f] p) N.Any.
Proof.
  intros (_ & _ & Hi) (c' & -> & ?) (f' & -> & ?). exists (W.PrimApp (Named "array_index") [c'; f'] p).
  split; [done|]. econstructor; [exact Hi|]. repeat constructor; done.
Qed.
Lemma checks_lit l p : checks_atom G (W.ALit l p) (W.lit_typ l).
Proof. exists (W.ALit l p). split; [done|constructor]. Qed.
Lemma checks_Deref a n p : checks_atom G a (N.Ref n) → checks_atom G (W.Deref a n p) n.
Proof. intros (a' & -> & ?). exists (W.Deref a' n p). split; [done|by constructor]. Qed.
Lemma checks_ObjectSet o f v p :
  checks_atom G o N.DynObject → checks_atom G f N.String → checks_atom G v N.Any →
  checks_expr G (W.ObjectSet o f v p) N.Any.
Proof.
  intros (o' & -> & ?) (f' & -> & ?) (v' & -> & ?). exists (W.ObjectSet o' f' v' p). split; [done|by constructor].
Qed.
Lemma checks_ArraySet c f v p :
  checks_atom G c N.Array → checks_atom G f N.I32 → checks_atom G v N.Any →
  checks_expr G (W.ArraySet c f v p) N.Any.
Proof.
  intros (o' & -> & ?) (f' & -> & ?) (v' & -> & ?). exists (W.ArraySet o' f' v' p). split; [done|by econstructor].
Qed.
Lemma checks_push x y p :
  rt_ok G → env_get G x = Some N.Array → env_get G y = Some N.Any →
  checks_expr G (prim_call "array_push" [x; y] p) N.I32.
Proof.
  intros (_ & Hp & _) ? ?. exists (prim_call "array_push" [x; y] p). split; [done|].
  econstructor; [exact Hp|]. by repeat constructor.
Qed.
Lemma checks_array_new p : rt_ok G → checks_expr G (prim_call "array_new" [] p) N.Array.
Proof.
  intros (Hn & _). exists (prim_call "array_new" [] p). split; [done|]. econstructor; [exact Hn|]. constructor.
Qed.
End atoms.

(** ** Statements that declare nothing *)
Lemma expressions_ok ret s (pre : Env → Prop) ss :
  Forall (λ st, ∃ e p n, st = W.Expression e p ∧ ∀ G, pre G → checks_expr G e n) ss →
  code ret s pre ss pre.
Proof.
  induction 1 as [|st ss (e & p & n & -> & He) _ IH]; [by apply code_nil|].
  change (code ret s pre ([W.Expression e p] ++ ss) pre). eapply code_app; [|exact IH].
  apply code_stmt. intros s' G _ _ HG. destruct (He G HG) as (e' & -> & Ht).
  exists (W.Expression e' p). split; [constructor|by econstructor].
Qed.

Lemma push_members_ok x ids p rv :
  Rope.wf rv → Rope.wf (push_members x ids p rv) ∧
  Rope.elements (push_members x ids p rv) =
    Rope.elements rv ++ map (λ y, W.Expression (prim_call "array_push" [x; y] p) p) ids.
Proof.
  unfold push_members. revert rv. induction ids as [|y ids IH]; intros rv Hw; cbn [foldl map]; [by rewrite app_nil_r|].
  destruct (IH (Rope.append rv (Rope.singleton (W.Expression (prim_call "array_push" [x; y] p) p)))) as [Hw' ->];
    [by apply Rope.wf_append; [|apply Rope.wf_singleton]|].
  split; [done|]. rewrite Rope.elements_append, <- app_assoc. done.
Qed.
Lemma set_fields_ok x fields p rv :
  Rope.wf rv → Forall (λ kx, ∃ k, kx.1 = KStr k) fields →
  ∃ r, set_fields x fields p rv = Ok r ∧ Rope.wf r ∧
    ∃ ss, Rope.elements r = Rope.elements rv ++ ss ∧
      Forall (λ st, ∃ k y, y ∈ map snd fields ∧
        st = W.Expression (W.ObjectSet (W.AId x p) (str_ k p) (W.AId y p) p) p) ss.
Proof.
  unfold set_fields. revert rv. induction fields as [|[k y] fields IH]; intros rv Hw Hk; cbn [foldM].
  - exists rv. split_and!; [done..|]. exists []. by rewrite app_nil_r.
  - apply Forall_cons in Hk as [[k' Hk'] Hk]. cbn in Hk'. subst k. cbn.
    edestruct (IH (Rope.append rv (Rope.singleton (W.Expression (W.ObjectSet (W.AId x p) (str_ k' p) (W.AId y p) p) p))))
      as (r & Hr & Hwr & ss & Hel & Hss); [by apply Rope.wf_append; [|apply Rope.wf_singleton]|done|].
    exists r. split_and!; [done..|]. rewrite Hel, Rope.elements_append, <- app_assoc.
    eexists. split; [reflexivity|]. constructor; [eexists k', y; split; [by left|done]|].
    eapply Forall_impl; [exact Hss|]. intros st (k1 & y1 & ? & ->). exists k1, y1. split; [by right|done].
Qed.

(** ** What compiling each syntactic category establishes *)
Definition expr_comp (e : Expr) : Prop := ∀ ret Δ t n X s (x : X) (pre : Env → Prop) k Q,
  env_lowered Δ → expr_lowered e Δ t → jtyp_to t n → good s → stable s pre → (∀ G, pre G → base Δ G) →
  ctx_ok ret n s pre x k Q → sound ret (compile_expr e X s x k) s pre Q.
Definition func_comp (f : Func) : Prop := ∀ s p,
  func_lowered f → good s →
  ∃ s2 F, compile_function s f p = Ok (s2, F) ∧ ext s s2 ∧ good s2 ∧
    jtyp_to (func_typ f) (N.Closure (N.args (W.fn_type F)) (N.result (W.fn_type F))) ∧
    ∀ s' G, ext s2 s' → tops s' G → rt_ok G → checks_function G F.
Definition returns_to (jret : option J.typ) (ret : option N.typ) : Prop :=
  ∀ t, jret = Some t → ∃ n, ret = Some n ∧ jtyp_to t n.
Definition stmt_comp (st : Stmt) : Prop := ∀ Δ jret ret s,
  env_lowered Δ → stmt_lowered st Δ jret → returns_to jret ret → good s →
  ∃ s2 r, compile_stmt s st = Ok (s2, r) ∧ ext s s2 ∧ good s2 ∧ Rope.wf r ∧
    code ret s2 (base Δ) (Rope.elements r) (base (out_env Δ st)).

Lemma rt_ok_insert G x t : x ≠ Named "array_index" → rt_ok G → rt_ok (env_insert G x t).
Proof. intros Hx (? & ? & ?). split_and!; [done|done|]. rewrite env_get_insert. by rewrite decide_False. Qed.
Lemma stable_base Δ s : env_lowered Δ → stable s (base Δ).
Proof.
  intros HΔ G x t Hx _ [Hsim Hrt]. split; [|apply rt_ok_insert; [|done]; by destruct Hx as [? ->]].
  intros y u n Hy Hn. rewrite env_get_insert. rewrite decide_False; [by eapply Hsim|].
  intros ->. by destruct (HΔ _ _ Hy) as [[? _] _].
Qed.
Lemma base_insert Δ G x t n :
  user_name x → jtyp_to t n → base Δ G → base (<[x := t]> Δ) (env_insert G x n).
Proof.
  intros (? & ? & ?) Hn [Hsim Hrt]. split; [|by apply rt_ok_insert].
  intros y u m. rewrite lookup_insert, env_get_insert. case_decide; [|apply Hsim].
  intros [= <-] Hm. f_equal. congruence.
Qed.
Lemma out_env_lowered Δ st jret : env_lowered Δ → stmt_lowered st Δ jret → env_lowered (out_env Δ st).
Proof.
  intros HΔ Hst. destruct st; cbn in *; try done. destruct Hst as (? & ? & _).
  by apply map_Forall_insert_2.
Qed.

(** Pass an atom or an expression on to the context, from inside a context. *)
Section inside.
Context {X : Type} (ret : option N.typ) (n : N.typ) (s s1 : S) (pre pre1 : Env → Prop) (x : X) (k : C X) (Q : X → Env → Prop).
Hypotheses (Hk : ctx_ok ret n s pre x k Q) (He : ext s s1) (Hg : good s1) (Hs : stable s1 pre1)
  (Hpre : ∀ G, pre1 G → pre G).
Lemma recv_a_in a : (∀ G, pre1 G → checks_atom G a n) → sound ret (recv_a k s1 x a) s1 pre1 Q.
Proof. intros. eapply recv_a_ok; [by eapply ctx_ok_mono|done..]. Qed.
Lemma recv_e_in e :
  (∀ s' G, ext s1 s' → tops s' G → pre1 G → checks_expr G e n) → sound ret (recv_e k s1 x e) s1 pre1 Q.
Proof. intros. eapply recv_e_ok; [by eapply ctx_ok_mono|done..]. Qed.
End inside.

(** Expressions for arguments. *)
Lemma compile_args_ok {A X} (π : A → Expr) ret Δ es ts ns s (x : X) cxt (pre : Env → Prop) Q :
  Forall (λ x, expr_comp (π x)) es → env_lowered Δ → Forall2 (λ x t, expr_lowered (π x) Δ t) es ts →
  Forall2 (λ t n, jtyp_to t n) ts ns →
  good s → stable s pre → (∀ G, pre G → base Δ G) →
  (∀ s1 ids (pre1 : Env → Prop), ext s s1 → good s1 → stable s1 pre1 → (∀ G, pre1 G → pre G) →
     (∀ G, pre1 G → ids_ok G ids ns) → sound ret (cxt s1 x ids) s1 pre1 Q) →
  sound ret (compile_exprs (λ x, compile_expr (π x) (list Id)) s x es cxt) s pre Q.
Proof.
  intros H HΔ Ha Hns Hg Hs Hpre Hcxt. eapply compile_exprs_ok; [done|done| |exact Hcxt].
  clear Hcxt. revert ns Hns. induction Ha as [|e t es ts He _ IH]; intros ns Hns; inversion Hns; subst; constructor.
  - apply Forall_cons in H as [H _]. intros s1 ids k pre1 Q1 He1 Hg1 Hs1 Hp1 Hk.
    eapply H; [exact HΔ|exact He|done|done|done| |exact Hk]. auto.
  - apply Forall_cons in H as [_ H]. eauto.
Qed.
(** Expressions of type [Any]. *)
Lemma all_any {A} Δ (π : A → Expr) (es : list A) :
  all (λ x, expr_lowered (π x) Δ J.Any) es →
  Forall2 (λ x t, expr_lowered (π x) Δ t) es (replicate (length es) J.Any).
Proof. induction es as [|e es IH]; cbn; [constructor|]. intros [? ?]. constructor; auto. Qed.
Lemma any_to k : Forall2 (λ t n, jtyp_to t n) (replicate k J.Any) (replicate k N.Any).
Proof. induction k; by constructor. Qed.
Lemma ids_ok_any G ids k : ids_ok G ids (replicate k N.Any) → Forall (λ y, env_get G y = Some N.Any) ids.
Proof.
  unfold ids_ok. revert k. induction ids as [|y ids IH]; intros [|k] H; inversion H; subst; constructor; eauto.
Qed.

Definition arg_ok (a : Id * J.typ) : Prop := user_name a.1 ∧ resolved a.2 = true.
Lemma insert_args_lowered Δ args : Forall arg_ok args → env_lowered Δ → env_lowered (insert_args Δ args).
Proof.
  intros H. revert Δ. unfold insert_args. induction H as [|a args [? ?] _ IH]; intros Δ HΔ; cbn; [done|].
  apply IH. by apply map_Forall_insert_2.
Qed.
Lemma insert_params_base args ns s s' Δ G :
  Forall arg_ok args → Forall2 (λ t n, jtyp_to t n) (map snd args) ns → good s → ext s s' →
  base Δ G → tops s' G →
  base (insert_args Δ args) (insert_params G (zip (map fst args) ns)) ∧
  tops s' (insert_params G (zip (map fst args) ns)).
Proof.
  intros Ha Hns Hg He. revert ns Δ G Hns. unfold insert_args, insert_params.
  induction Ha as [|[x t] args [Hx _] _ IH]; intros ns Δ G Hns; inversion Hns; subst; [done|].
  intros HG Ht. cbn. apply IH; [done|by apply base_insert|]. eapply tops_insert_user; [exact Hg|done|apply Hx|done].
Qed.

Lemma compile_function_ok r args b fv afc : stmt_comp b → func_comp (mkFunc r args b fv afc).
Proof.
  intros IH s p (Hb & Hr & Hargs) Hg.
  assert (∃ ns, Forall2 (λ t n, jtyp_to t n) (map snd args) ns) as [ns Hns].
  { apply resolved_to_all, forallb_forall. intros t (a & <- & Ha)%in_map_iff.
    rewrite Forall_forall in Hargs. apply Hargs. by apply list_elem_of_In. }
  destruct (resolved_to r Hr) as [nr Hnr].
  assert (mapM (λ a : Id * J.typ, notwasm_typ (E := never) a.2 true) args = Ok ns) as Hm.
  { apply mapM_Ok. clear -Hns. revert ns Hns. induction args as [|a args IH']; intros ns Hn; inversion Hn; subst; constructor; auto. }
  assert (env_lowered (insert_args ∅ args)) as HΔ.
  { by apply insert_args_lowered. }
  destruct (IH _ _ (Some nr) s HΔ Hb) as (s2 & rp & Hc & He & Hg2 & Hw & Hcode); [|done|].
  { intros t [= <-]. eauto. }
  cbn. rewrite Hm. cbn. rewrite Hc. cbn. unfold rope_to_block. rewrite (Rope.collect_ok _ Hw). cbn. rewrite Hnr. cbn.
  eexists s2, _. split; [done|]. split_and!; [done|done| |].
  - unfold func_typ, arg_typs. cbn. rewrite ?Hnr. cbn.
    assert (mapM (λ t, notwasm_typ (E := never) t true) (map snd args) = Ok ns) as -> by by apply mapM_Ok. done.
  - intros s' G Hs' Ht Hrt.
    set (G0 := insert_params G (zip (Bogus "env" :: map fst args) (N.Env :: ns))).
    assert (base (insert_args ∅ args) G0 ∧ tops s' G0) as [HG0 Ht0].
    { assert (base ∅ G) as HG by by split; [intros ? ? ? Hx; by rewrite lookup_empty in Hx|].
      apply (insert_params_base args ns s2 s'); [done..| |].
      - destruct HG as [_ HG]. split; [intros ? ? ? Hx; by rewrite lookup_empty in Hx|]. by apply rt_ok_insert.
      - eapply tops_insert_user; [exact Hg2|done| |done]. by intros [? ?]. }
    destruct (Hcode s' G0 Hs' Ht0 HG0) as (ss' & G' & Ha & Hty & _).
    exists (W.mkFunction (W.Block ss' p) (N.mkFnType (N.Env :: ns) (Some nr)) (Bogus "env" :: map fst args) Unknown). split.
    + split; [cbn|exists G0; by econstructor]. rewrite length_map. f_equal.
      rewrite <- (length_map snd args). symmetry. by eapply Forall2_length.
    + by split_and!; cbn; [constructor|..].
Qed.

(** ** Arrays, objects and closures *)
Section composite.
Context {X : Type} (ret : option N.typ) (Δ : gmap Id J.typ) (s : S) (pre : Env → Prop) (x : X) (Q : X → Env → Prop).
Hypotheses (HΔ : env_lowered Δ) (Hg : good s) (Hs : stable s pre) (Hpre : ∀ G, pre G → base Δ G).

Lemma compile_array_ok es p k :
  Forall expr_comp es → all (λ e, expr_lowered e Δ J.Any) es → ctx_ok ret N.Array s pre x k Q →
  sound ret (compile_expr (EArray es p) X s x k) s pre Q.
Proof.
  intros Hes Ha Hk. cbn [compile_expr].
  eapply (compile_args_ok (λ e, e)); [exact Hes|exact HΔ|by apply all_any|apply any_to|done|done|done|].
  intros s1 ids pre1 He1 Hg1 Hs1 Hp1 Hids.
  destruct (fresh_ok s1 Hg1) as (Hn & _ & _ & He2 & Hg2 & _).
  destruct (code_fresh ret s1 pre1 (prim_call "array_new" [] p) N.Array p Hg1 Hs1) as [Hs2 Hc2].
  { intros s' G _ _ HG. by apply checks_array_new, Hpre, Hp1. }
  destruct (fresh s1) as [y s2]. cbn [fst snd] in *.
  destruct (push_members_ok y ids p (Rope.singleton (W.Var (W.var_new y (prim_call "array_new" [] p)) p))) as [Hw Hel];
    [apply Rope.wf_singleton|].
  eapply sound_prefix; [exact He2|exact Hw| |].
  - rewrite Hel. eapply code_app; [exact Hc2|]. apply expressions_ok.
    apply Forall_forall. intros st (z & -> & Hz)%list_elem_of_fmap. eexists _, _, _. split; [done|].
    intros G [HG Hy]. apply checks_push; [by apply Hpre, Hp1|done|].
    pose proof (ids_ok_any _ _ _ (Hids G HG)) as H. rewrite Forall_forall in H. auto.
  - eapply recv_a_in; [exact Hk|by etrans|done|done| |].
    + intros G [HG _]. auto.
    + intros G [_ Hy]. by apply checks_AId.
Qed.

Lemma compile_object_ok kvs p k :
  Forall (λ kv, expr_comp kv.2) kvs →
  all (λ kv, (∃ k, kv.1 = KStr k) ∧ expr_lowered kv.2 Δ J.Any) kvs → ctx_ok ret N.DynObject s pre x k Q →
  sound ret (compile_expr (EObject kvs p) X s x k) s pre Q.
Proof.
  intros Hes Ha Hk. cbn [compile_expr].
  eapply (compile_args_ok snd); [exact Hes|exact HΔ|apply all_any|apply any_to|done|done|done|].
  { apply all_Forall. rewrite all_Forall in Ha. eapply Forall_impl; [exact Ha|]. by intros ? [_ ?]. }
  intros s1 ids pre1 He1 Hg1 Hs1 Hp1 Hids.
  destruct (fresh_ok s1 Hg1) as (Hn & _ & _ & He2 & Hg2 & _).
  destruct (code_fresh ret s1 pre1 W.ObjectEmpty N.DynObject p Hg1 Hs1) as [Hs2 Hc2].
  { intros s' G _ _ HG. exists W.ObjectEmpty. split; [done|constructor]. }
  destruct (fresh s1) as [y s2]. cbn [fst snd] in *.
  destruct (set_fields_ok y (zip (map fst kvs) ids) p (Rope.singleton (W.Var (W.var_new y W.ObjectEmpty) p)))
    as (r & Hr & Hw & ss & Hel & Hss); [apply Rope.wf_singleton| |].
  { rewrite all_Forall in Ha. apply Forall_forall. intros [ky z] Hin%elem_of_zip_l. cbn in Hin.
    apply list_elem_of_fmap in Hin as (kv & -> & Hin). rewrite Forall_forall in Ha. by apply Ha. }
  rewrite Hr. cbn [mbind comp_bind].
  eapply sound_prefix; [exact He2|exact Hw| |].
  - rewrite Hel. eapply code_app; [exact Hc2|]. apply expressions_ok.
    eapply Forall_impl; [exact Hss|]. intros st (ky & z & Hz & ->). eexists _, _, _. split; [done|].
    intros G [HG Hy]. apply checks_ObjectSet; [by apply checks_AId|apply checks_lit|]. apply checks_AId.
    pose proof (ids_ok_any _ _ _ (Hids G HG)) as H. rewrite Forall_forall in H. apply H.
    apply list_elem_of_fmap in Hz as ([ky' z'] & -> & Hz). by apply elem_of_zip_r in Hz.
  - eapply recv_a_in; [exact Hk|by etrans|done|done| |].
    + intros G [HG _]. auto.
    + intros G [_ Hy]. by apply checks_AId.
Qed.
End composite.

(** Compiling the function of a closure: its name is issued first. *)
Lemma closure_function_ok f s p :
  func_comp f → func_lowered f → good s →
  ∃ s2 F, compile_function (fresh s).2 f p = Ok (s2, F) ∧
    let s3 := new_function (fresh s).1 F s2 in
    ext s s3 ∧ good s3 ∧ functions s3 !! (fresh s).1 = Some F ∧
    jtyp_to (func_typ f) (N.Closure (N.args (W.fn_type F)) (N.result (W.fn_type F))).
Proof.
  intros Hf Hl Hg. destruct (fresh_ok s Hg) as (Hn & Hni & Hi & He1 & Hg1 & Hnone).
  revert Hn Hni Hi He1 Hg1 Hnone. generalize (fresh s).1 (fresh s).2. intros y s1 Hn Hni Hi He1 Hg1 Hnone.
  destruct (Hf s1 p Hl Hg1) as (s2 & F & Hc & He2 & Hg2 & Ht & HF). exists s2, F. split; [done|].
  change (new_function y F s2) with (mkS (namegen s2) (<[y := F]> (functions s2))).
  set (s3 := mkS _ _). cbv zeta.
  assert (functions s2 !! y = None) as Hnone2 by (destruct He2 as (_ & _ & N & _); by rewrite N).
  (* a later state, with the new function left out *)
  assert (∀ s' G, ext s3 s' → tops s' G →
    ∃ s'', ext s2 s'' ∧ tops s'' G) as Hdrop.
  { intros s' G (I & Fs & N & A) HG. exists (mkS (namegen s') (delete y (functions s'))). split.
    - split_and!; cbn; [done| | |].
      + apply map_subseteq_spec. intros z f' Hz. assert (y ≠ z) as Hyz by by intros ->; congruence.
        rewrite lookup_delete_ne by done. apply (lookup_weaken (functions s3)); [|done].
        cbn. by rewrite lookup_insert_ne.
      + intros z Hz. destruct (decide (y = z)) as [<-|Hyz]; [by rewrite lookup_delete_eq|].
        rewrite lookup_delete_ne, N by done. cbn. by rewrite lookup_insert_ne.
      + intros z f' [Hyz Hz]%lookup_delete_Some. apply A in Hz as [Hz|?]; [|by right]. left.
        cbn in Hz. by rewrite lookup_insert_ne in Hz.
    - intros z f' Hz. cbn in Hz. apply lookup_delete_Some in Hz as [_ Hz]. auto. }
  split_and!.
  - destruct He1 as (I1 & F1 & N1 & A1), He2 as (I2 & F2 & N2 & A2). split_and!; cbn.
    + auto.
    + etrans; [exact F1|]. etrans; [exact F2|]. by apply insert_subseteq.
    + intros z Hz. rewrite lookup_insert_ne by (by intros ->). rewrite N2 by auto. auto.
    + intros z f' Hz. apply lookup_insert_Some in Hz as [[<- _]|[_ Hz]]; [by right|].
      apply A2 in Hz as [Hz|?]; [apply A1 in Hz|]; auto.
  - intros z f' Hz. cbn in Hz. apply lookup_insert_Some in Hz as [[<- <-]|[_ Hz]].
    + split_and!; [done|by apply He2|]. intros s' G Hs' HG Hrt.
      destruct (Hdrop s' G Hs' HG) as (s'' & ? & ?). by eapply HF.
    + destruct (Hg2 z f' Hz) as (? & ? & Hchk). split_and!; [done|done|]. intros s' G Hs' HG Hrt.
      destruct (Hdrop s' G Hs' HG) as (s'' & ? & ?). by eapply Hchk.
  - cbn. apply lookup_insert_eq.
  - done.
Qed.

Lemma compile_closure_ok {X} ret Δ f env p n s (x : X) (pre : Env → Prop) k Q :
  func_comp f → Forall (λ et, expr_comp et.1) env →
  env_lowered Δ → all (λ et, expr_lowered et.1 Δ et.2) env → func_lowered f → jtyp_to (func_typ f) n →
  good s → stable s pre → (∀ G, pre G → base Δ G) → ctx_ok ret n s pre x k Q →
  sound ret (compile_expr (EClosure f env p) X s x k) s pre Q.
Proof.
  intros Hf Henv HΔ Ha Hl Hn Hg Hs Hpre Hk. cbn [compile_expr].
  destruct (closure_function_ok f s p Hf Hl Hg) as (s2 & F & Hc & He3 & Hg3 & Hname & Ht).
  destruct (fresh s) as [y s1]. cbn [fst snd] in *. rewrite Hc. cbn [mbind comp_bind]. set (s3 := new_function y F s2) in *.
  edestruct (compile_each_ok ret
    (λ et s items, compile_expr et.1 (list (W.Atom * N.typ)) s items (CxtAtom (λ s items a,
       ty ← notwasm_typ et.2 true; Ok (s, items ++ [(a, ty)], Rope.nil))))
    (λ (_ : unit) _ _, True) env (map (λ _, tt) env) s3 [] Rope.nil pre)
    as (s4 & items & r & ss & post & -> & He4 & Hg4 & Hs4 & Hw & Hel & Hcode & HQ);
    [done|by eapply stable_ext|apply Rope.wf_nil| |].
  { clear -Henv Ha HΔ Hpre He3 Hg3 Hs. induction Henv as [|[e t] env He _ IH]; cbn in *; [constructor|].
    destruct Ha as [Ht Ha]. constructor; [|by apply IH]. intros s5 bs pre1 He5 Hg5 Hs5 Hp1.
    destruct (expr_to e Δ t HΔ Ht) as [n Hn]. cbn.
    eapply (He ret Δ t n); [done..|by intros; apply Hpre, Hp1|].
    intros s6 pre2 He6 Hg6 Hs6 Hp2 a Haa. rewrite Hn. cbn.
    exists s6, (bs ++ [(a, n)]), Rope.nil, pre2. split_and!; try done; [|apply Rope.wf_nil|by apply code_nil].
    intros G HG. split; [auto|]. eauto. }
  cbn [mbind comp_bind]. eapply sound_prefix; [|exact Hw|rewrite Hel; exact Hcode|]; [by etrans|].
  eapply recv_e_in; [exact Hk|by etrans|done|done|by intros; apply HQ|].
  intros s' G He' HG _. exists (W.Closure y items p). split; [done|].
  assert (n = N.Closure (N.args (W.fn_type F)) (N.result (W.fn_type F))) as -> by congruence.
  constructor. apply HG. destruct He' as (_ & Hsub' & _), He4 as (_ & Hsub4 & _).
  eapply lookup_weaken; [exact Hname|]. by etrans.
Qed.

