(* ===== verification/AnfProgram.v ===== *)
(** A-normalisation of whole programs: every expression and statement that NotWasm
    can express is compiled to code that the NotWasm type checker accepts. *)
From S2P Require Import Prelude Types Coercions Operators JankySyntax JankyTyping NotWasm NotWasmTyping Linking Rope Anf.
From S2P Require Import AnfTyping.
Import K.

(** Enter a context from compiled code; pass an atom or an expression on. *)
Ltac enter H :=
  eapply H; [eassumption|eassumption|first [eassumption|reflexivity]|eassumption|eassumption|by auto|];
  let s1 := fresh "s1" in let pre1 := fresh "pre1" in
  intros s1 pre1 ? ? ? ?; intros.
Ltac later :=
  first [eassumption
        | match goal with H : ext ?s1 ?s2 |- ext _ ?s2 => transitivity s1; [later|exact H] end].
Ltac done_a Hk := eapply recv_a_in; [exact Hk|later|eassumption|eassumption|by auto|intros].
Ltac done_e Hk := eapply recv_e_in; [exact Hk|later|eassumption|eassumption|by auto|intros].
Ltac typ_of e n := 
  match goal with
  | HΔ : env_lowered _, H : expr_lowered e _ ?t |- _ =>
      let Hn := fresh "Hn" in destruct (expr_to e _ t HΔ H) as [n Hn]
  end.

Lemma methods_to m k :
  is_Some (assoc (m, k) METHODS_TABLE) →
  ∃ tys ns, assoc (m, k) METHODS_TABLE = Some tys ∧ mapM (λ t, notwasm_typ (E := never) t false) tys = Ok ns.
Proof. cbn. repeat case_decide; intros [tys [=]]; subst; eauto. Qed.

Section expressions.
Context {X : Type} (ret : option N.typ) (Δ : gmap Id J.typ) (s : S) (pre : Env → Prop) (x : X) (Q : X → Env → Prop).
Context (n : N.typ) (k : C X).
Hypotheses (HΔ : env_lowered Δ) (Hg : good s) (Hs : stable s pre) (Hpre : ∀ G, pre G → base Δ G).
Hypothesis Hk : ctx_ok ret n s pre x k Q.

Lemma compile_lit_ok l p t : expr_lowered (ELit l p) Δ t → jtyp_to t n → sound ret (compile_expr (ELit l p) X s x k) s pre Q.
Proof.
  intros Hl Hn. assert (∃ l', compile_lit l = Ok l' ∧ W.lit_typ l' = n) as (l' & Hl' & <-).
  { cbn in Hl. destruct l as [| | | |[]|]; try done; subst t; cbn in *; simplify_eq; eauto. }
  cbn [compile_expr]. rewrite Hl'. cbn [mbind comp_bind]. eapply recv_a_ok; [exact Hk|done|done|].
  intros G _. apply checks_lit.
Qed.

(** The index and the types of the elements that arrays and objects support. *)
Lemma compile_bracket_ok e1 e2 ty p t :
  expr_comp e1 → expr_comp e2 → expr_lowered (EBracket e1 e2 ty p) Δ t → jtyp_to t n →
  sound ret (compile_expr (EBracket e1 e2 ty p) X s x k) s pre Q.
Proof.
  intros H1 H2 (Hl1 & Hl2 & ->) Hn. cbn in Hn. simplify_eq. cbn [compile_expr].
  destruct Hl2 as [[-> Hl2]|[-> Hl2]]; typ_of e1 n1; typ_of e2 n2; cbn in Hn, Hn0; simplify_eq; enter H1; enter H2;
    done_a Hk.
  - apply checks_index; [by apply Hpre; auto|auto..].
  - apply checks_ObjectGet; auto.
Qed.

Lemma compile_dot_ok e y p t :
  expr_comp e → expr_lowered (EDot e y p) Δ t → jtyp_to t n → sound ret (compile_expr (EDot e y p) X s x k) s pre Q.
Proof.
  intros H (Hl & [name ->] & ->) Hn. cbn in Hn. simplify_eq. cbn [compile_expr]. typ_of e n1. cbn in Hn. simplify_eq.
  enter H. cbn [into_name mbind comp_bind]. done_a Hk. apply checks_ObjectGet; [auto|apply checks_lit].
Qed.

Lemma compile_unary_ok op e p t :
  expr_comp e → expr_lowered (EUnary op e p) Δ t → jtyp_to t n →
  sound ret (compile_expr (EUnary op e p) X s x k) s pre Q.
Proof.
  intros H (Hl & ->) Hn. cbn [compile_expr]. typ_of e n1. destruct (unop_to op n1 Hn0) as (n' & Hn' & Hop).
  assert (n' = n) as -> by congruence. enter H. done_a Hk. eapply checks_Unary; eauto.
Qed.
Lemma compile_binary_ok op e1 e2 p t :
  expr_comp e1 → expr_comp e2 → expr_lowered (EBinary op e1 e2 p) Δ t → jtyp_to t n →
  sound ret (compile_expr (EBinary op e1 e2 p) X s x k) s pre Q.
Proof.
  intros H1 H2 (Hl1 & Hl2 & ->) Hn. cbn [compile_expr]. typ_of e1 n1. destruct (binop_to op n1 Hn0) as (n' & Hn' & Hop).
  assert (n' = n) as -> by congruence. enter H1. enter H2. done_a Hk. eapply checks_Binary; eauto.
Qed.

(** An assignment to a variable: the statement comes before what follows. *)
Lemma assign_first y e p t (s1 : S) (pre1 : Env → Prop) m a :
  user_name y → stable s1 pre1 → (∀ G, pre1 G → env_get G y = Some t) → (∀ G, pre1 G → checks_atom G a t) →
  e = W.EAtom a p → sound ret m s1 pre1 Q →
  sound ret ('(s, x, r) ← m; Ok (s, x, Rope.append (Rope.singleton (W.Assign y e p)) r)) s1 pre1 Q.
Proof.
  intros Hu Hs1 Hy Ha -> Hm. eapply sound_prefix; [reflexivity|apply Rope.wf_singleton| |exact Hm].
  apply code_stmt. intros s' G _ _ HG. destruct (checks_EAtom G a p t (Ha G HG)) as (e' & -> & He').
  exists (W.Assign y e' p). split; [constructor|]. econstructor; [by apply Hy|done].
Qed.
Lemma compile_assign_ok lv e p t :
  lvalue_parts expr_comp lv → expr_comp e → expr_lowered (EAssign lv e p) Δ t → jtyp_to t n →
  sound ret (compile_expr (EAssign lv e p) X s x k) s pre Q.
Proof.
  intros Hlv H [Hl Hlvl] Hn. cbn [compile_expr]. enter H. destruct lv as [y ty|c y|c f ty].
  - destruct Hlvl as [-> Hy]. eapply assign_first; [by apply (HΔ _ _ Hy)|done| |eassumption|done|].
    + intros G HG. by eapply Hpre; auto.
    + done_a Hk. auto.
  - destruct Hlvl as [Hc ->]. cbn in Hn. simplify_eq. typ_of c nc. cbn in Hn. simplify_eq. cbn in Hlv.
    enter Hlv. done_e Hk. apply checks_ObjectSet; [auto|apply checks_lit|auto].
  - destruct Hlvl as (Hc & -> & Hf). cbn in Hn. simplify_eq. destruct Hlv as [Hlc Hlf].
    destruct Hf as [[-> Hf]|[-> Hf]]; typ_of c nc; typ_of f n_f; cbn in Hn, Hn0; simplify_eq; enter Hlc; enter Hlf; done_e Hk.
    + apply checks_ArraySet; auto.
    + apply checks_ObjectSet; auto.
Qed.

Lemma compile_call_ok e es p t :
  expr_comp e → Forall expr_comp es → expr_lowered (ECall e es p) Δ t → jtyp_to t n →
  sound ret (compile_expr (ECall e es p) X s x k) s pre Q.
Proof.
  intros H Hes (args & Hl & Ha) Hn. cbn [compile_expr]. apply args_typed_strict in Ha. typ_of e n_f.
  destruct (jtyp_to_Function _ _ _ Hn0) as (ns & nr & -> & Hns & Hnr). assert (nr = n) as -> by congruence.
  enter H. eapply (compile_args_ok (λ e, e)); [exact Hes|exact HΔ|exact Ha|exact Hns|done|done|by auto|].
  intros s2 ids pre2 ? ? ? ? Hids. done_e Hk. eexists (W.ClosureCall _ ids p). split; [done|].
  change n with (default N.Any (Some n)). econstructor; [eauto|]. by apply Hids.
Qed.

Lemma compile_method_ok e m es ty p t :
  expr_comp e → Forall expr_comp es → expr_lowered (EMethodCall e m es ty p) Δ t → jtyp_to t n →
  sound ret (compile_expr (EMethodCall e m es ty p) X s x k) s pre Q.
Proof.
  intros H Hes (Hl & Hm & Ha & ->) Hn. cbn in Hn. simplify_eq. cbn [compile_expr]. typ_of e n1. cbn in Hn. simplify_eq.
  destruct (methods_to m (length es) Hm) as (tys & ns & Htys & Hns).
  enter H. eapply (compile_args_ok (λ e, e)); [exact Hes|exact HΔ|by apply all_any|apply any_to|done|done|by auto|].
  intros s2 ids pre2 ? ? ? ? Hids. rewrite Htys. cbn [expect mbind comp_bind]. rewrite Hns. cbn [mbind comp_bind].
  done_e Hk. eexists (W.AnyMethodCall _ _ ids _ p). split; [done|]. constructor; [auto|].
  eapply ids_ok_any. by apply Hids.
Qed.

Lemma compile_prim_call_ok f es p t :
  Forall expr_comp es → expr_lowered (EPrimCall f es p) Δ t → jtyp_to t n →
  sound ret (compile_expr (EPrimCall f es p) X s x k) s pre Q.
Proof.
  intros Hes (args & Hf & Hfo & Ha) Hn. cbn [compile_expr]. apply args_typed_strict in Ha.
  cbn in Hfo. apply andb_prop in Hfo as [(nr & Hnr & Hnr')%first_order_to (ns & Hns & Hns')%first_order_to_all].
  assert (nr = n) as -> by congruence.
  eapply (compile_args_ok (λ e, e)); [exact Hes|exact HΔ|exact Ha|exact Hns|done|done|done|].
  intros s2 ids pre2 ? ? ? ? Hids. done_e Hk. exists (W.PrimCall f ids p). split; [done|].
  change n with (default N.Any (Some n)). eapply (T_PrimCall _ _ f ids p (J.Function args t)).
  - intros name ->. done.
  - by destruct f; cbn in *; simplify_eq.
  - cbn. rewrite Hnr'. cbn. by rewrite Hns'.
  - by apply Hids.
Qed.
End expressions.

(** ** Statements *)
Lemma code_block ret s pre r p post :
  Rope.wf r → code ret s pre (Rope.elements r) post →
  rope_to_block r p = Ok (W.Block (Rope.elements r) p) ∧
  ∀ s' G, ext s s' → tops s' G → pre G →
    ∃ b G', annotates (W.Block (Rope.elements r) p) b ∧ stmt_typed false ret G b G'.
Proof.
  intros Hw Hc. unfold rope_to_block. rewrite (Rope.collect_ok _ Hw). split; [done|].
  intros s' G He Ht HG. destruct (Hc s' G He Ht HG) as (ss' & G' & Ha & Hty & _).
  exists (W.Block ss' p), G. split; [by constructor|by econstructor].
Qed.

Definition stmt_sound (m : comp never (S * rope)) (ret : option N.typ) (s : S) (Δ Δ' : gmap Id J.typ) : Prop :=
  ∃ s2 r, m = Ok (s2, r) ∧ ext s s2 ∧ good s2 ∧ Rope.wf r ∧ code ret s2 (base Δ) (Rope.elements r) (base Δ').

(** A statement that compiles an expression and puts [k] after it. *)
Lemma stmt_of_expr e ret Δ Δ' t s k :
  expr_comp e → env_lowered Δ → expr_lowered e Δ t → good s →
  (∀ n, jtyp_to t n → ctx_ok ret n s (base Δ) tt k (λ _, base Δ')) →
  stmt_sound ('(s, _, r) ← compile_expr e unit s tt k; Ok (s, r)) ret s Δ Δ'.
Proof.
  intros H HΔ He Hg Hk. destruct (expr_to e Δ t HΔ He) as [n Hn].
  destruct (H ret Δ t n unit s tt (base Δ) k (λ _, base Δ')) as (s2 & [] & r & post & -> & ? & ? & _ & HQ & ? & Hc);
    [done..|by apply stable_base|done|by apply Hk|].
  exists s2, r. split_and!; try done. by eapply code_weaken; [|exact HQ|exact Hc].
Qed.

(** A context that ends with one statement that declares nothing. *)
Lemma sound_stmt ret s (pre : Env → Prop) (Δ : gmap Id J.typ) st :
  good s → stable s pre → (∀ G, pre G → base Δ G) →
  (∀ s' G, ext s s' → tops s' G → pre G → ∃ st', annotates st st' ∧ stmt_typed false ret G st' G) →
  sound ret (Ok (s, tt, Rope.singleton st)) s pre (λ _, base Δ).
Proof.
  intros Hg Hs Hpre Hst. exists s, tt, (Rope.singleton st), pre.
  split_and!; try done; [apply Rope.wf_singleton|by apply code_stmt].
Qed.
Lemma sound_ext {Y} ret (m : out Y) s s1 pre Q : ext s s1 → sound ret m s1 pre Q → sound ret m s pre Q.
Proof. intros He (s2 & y & r & post & -> & ? & ?). exists s2, y, r, post. split; [done|]. split; [by etrans|done]. Qed.
Lemma stmt_sound_one ret s s2 Δ st :
  ext s s2 → good s2 →
  (∀ s' G, ext s2 s' → tops s' G → base Δ G → ∃ st', annotates st st' ∧ stmt_typed false ret G st' G) →
  stmt_sound (Ok (s2, Rope.singleton st)) ret s Δ Δ.
Proof.
  intros He Hg Hst. exists s2, (Rope.singleton st). split_and!; [done..|apply Rope.wf_singleton|by apply code_stmt].
Qed.

Lemma compile_var_ok y t e p : expr_comp e → stmt_comp (SVar y t e p).
Proof.
  intros H Δ jret ret s HΔ (Hy & Ht & He) Hret Hg. cbn [compile_stmt out_env]. destruct (resolved_to t Ht) as [n Hn].
  assert (∀ s1 (pre : Env → Prop) (v : W.Expr) m, ext s s1 → good s1 → stable s1 pre → (∀ G, pre G → base Δ G) →
    (∀ s' G, ext s1 s' → tops s' G → pre G → checks_expr G v m) → (NotWasmTyping.is_undefined v = false → m = n) →
    code ret s1 pre [W.Var (W.mkVarStmt y v (Some n)) p] (base (<[y := t]> Δ))) as Hcode.
  { intros s1 pre v m He1 Hg1 Hs1 Hpre Hv Hu s' G He' HG HpG. destruct (Hv s' G He' HG HpG) as (v' & -> & Hv').
    eexists [_], (env_insert G y n).
    split; [apply Forall2_cons; split; [apply (A_Var _ (W.mkVarStmt y v' (Some n))); by split_and!; cbn; [..|left]|constructor]|].
    split.
    - econstructor; [|constructor]. constructor. exists m, n. cbn. split_and!; try done.
      + intros Hu'. symmetry. apply Hu. by destruct v' as [| | | | | | | |[]|].
      + rewrite decide_False; [done|]. apply Hy.
    - split; [by apply base_insert; auto|]. by eapply tops_insert_user; [exact Hg1|done|apply Hy|]. }
  destruct (is_undefined e) eqn:Hu.
  - destruct e as [[]| | | | | | | | | | | | | | | | | | | |]; try done.
    cbn [compile_expr compile_lit mbind comp_bind]. unfold recv_a. rewrite Hn. cbn [mbind comp_bind].
    eexists _, _. split; [done|]. split_and!; [done..|apply Rope.wf_singleton|].
    eapply (Hcode _ _ _ N.Any); [done|done|by apply stable_base|done| |done]. intros s' G _ _ _.
    apply checks_EAtom, (checks_lit G W.LUndefined).
  - destruct He as [He|He]; [done|]. eapply stmt_of_expr; [exact H|done|exact He|done|].
    intros m Hm. assert (m = n) as -> by congruence. intros s1 pre1 ? ? ? ? v Hv. rewrite Hn. cbn [mbind comp_bind].
    eexists s1, tt, _, (base (<[y := t]> Δ)).
    split_and!; [done..|apply stable_base; by apply map_Forall_insert_2|done|apply Rope.wf_singleton|].
    by eapply Hcode.
Qed.

Lemma compile_block_ok ss ret jret Δ s :
  Forall stmt_comp ss → env_lowered Δ → JankyTyping.stmts_typed (λ st Δ, stmt_lowered st Δ jret) ss Δ →
  returns_to jret ret → good s →
  ∃ s2 l post, compile_block compile_stmt s ss = Ok (s2, l) ∧ ext s s2 ∧ good s2 ∧ code ret s2 (base Δ) l post.
Proof.
  intros Hss. revert Δ s. induction Hss as [|st ss Hst _ IH]; intros Δ s HΔ Hl Hret Hg; cbn.
  - exists s, [], (base Δ). split_and!; try done. by apply code_nil.
  - destruct Hl as [Hl1 Hl2].
    destruct (Hst Δ jret ret s HΔ Hl1 Hret Hg) as (s1 & r & -> & He1 & Hg1 & Hw & Hc). cbn.
    rewrite (Rope.collect_ok _ Hw). cbn.
    destruct (IH (out_env Δ st) s1) as (s2 & l & post & -> & He2 & Hg2 & Hc2);
      [by eapply out_env_lowered|done..|]. cbn.
    exists s2, (Rope.elements r ++ l), post. split_and!; [done|by etrans|done|].
    eapply code_app; [by eapply code_ext|done].
Qed.

Lemma compile_if_ok c st1 st2 p : expr_comp c → stmt_comp st1 → stmt_comp st2 → stmt_comp (SIf c st1 st2 p).
Proof.
  intros Hc H1 H2 Δ jret ret s HΔ (Hlc & Hl1 & Hl2) Hret Hg. cbn [compile_stmt out_env].
  eapply stmt_of_expr; [exact Hc|done|exact Hlc|done|]. intros n Hn. cbn in Hn. simplify_eq.
  intros s1 pre1 He1 Hg1 Hs1 Hpre1 a Ha.
  destruct (H1 Δ jret ret s1 HΔ Hl1 Hret Hg1) as (s2 & r2 & -> & He2 & Hg2 & Hw2 & Hc2). cbn.
  destruct (code_block _ _ _ _ p _ Hw2 Hc2) as [-> Hb2]. cbn.
  destruct (H2 Δ jret ret s2 HΔ Hl2 Hret Hg2) as (s3 & r3 & -> & He3 & Hg3 & Hw3 & Hc3). cbn.
  destruct (code_block _ _ _ _ p _ Hw3 Hc3) as [-> Hb3]. cbn.
  apply (sound_ext ret _ s1 s3); [by etrans|]. apply sound_stmt; [done|by apply (stable_ext s1); [etrans|]|done|].
  intros s' G He' HG HpG. destruct (Ha G HpG) as (a' & -> & Hty).
  destruct (Hb2 s' G) as (b2 & G2 & Hb2a & Hb2t); [by etrans|done|by apply Hpre1|].
  destruct (Hb3 s' G) as (b3 & G3 & Hb3a & Hb3t); [done|done|by apply Hpre1|].
  exists (W.If a' b2 b3 p). split; [by constructor|by econstructor].
Qed.

(** The statement has a body that is compiled to a block. *)
Lemma compile_body_ok (f : W.Stmt → W.Stmt) (b : Stmt) p Δ jret ret s :
  stmt_comp b → env_lowered Δ → stmt_lowered b Δ jret → returns_to jret ret → good s →
  (∀ b b', annotates b b' → annotates (f b) (f b')) →
  (∀ G b G', stmt_typed false ret G b G' → stmt_typed false ret G (f b) G) →
  stmt_sound ('(s, r) ← compile_stmt s b; b ← rope_to_block r p; Ok (s, Rope.singleton (f b))) ret s Δ Δ.
Proof.
  intros H HΔ Hl Hret Hg Hfa Hft.
  destruct (H Δ jret ret s HΔ Hl Hret Hg) as (s2 & r & -> & He & Hg2 & Hw & Hc). cbn.
  destruct (code_block _ _ _ _ p _ Hw Hc) as [-> Hb]. cbn. apply stmt_sound_one; [done..|].
  intros s' G He' HG HpG. destruct (Hb s' G He' HG HpG) as (b' & G' & ? & ?). eauto.
Qed.

Lemma compile_expr_stmt_ok e p :
  expr_comp e → (match e with EStore e1 e2 _ _ => expr_comp e1 ∧ expr_comp e2 | _ => True end) → stmt_comp (SExpr e p).
Proof.
  intros H Hst Δ jret ret s HΔ Hl Hret Hg. cbn [out_env].
  assert ((∃ e1 e2 ty q, e = EStore e1 e2 ty q) ∨ ∃ t, expr_lowered e Δ t) as [(e1 & e2 & ty & q & ->)|[t Ht]]
    by (destruct e; cbn in Hl; eauto 6).
  - destruct Hst as [H1 H2]. cbn in Hl. destruct Hl as [Hl1 Hl2]. cbn [compile_stmt compile_expr].
    eapply stmt_of_expr; [exact H1|done|exact Hl1|done|]. intros n Hn s1 pre1 He1 Hg1 Hs1 Hp1 y Hy.
    destruct (expr_to e2 Δ ty HΔ Hl2) as [n2 Hn2]. cbn in Hn. rewrite Hn2 in Hn. cbn in Hn. simplify_eq.
    eapply (H2 ret Δ ty n2); [done..|]. intros s2 pre2 He2 Hg2 Hs2 Hp2 v Hv.
    apply sound_stmt; [done..|by auto|]. intros s' G He' HG HpG. destruct (Hv s' G He' HG HpG) as (v' & -> & Hv').
    exists (W.Store y v' q). split; [constructor|]. econstructor; [by auto|done].
  - cbn [compile_stmt]. eapply stmt_of_expr; [exact H|done|exact Ht|done|]. intros n Hn s1 pre1 He1 Hg1 Hs1 Hp1 a Ha.
    exists s1, tt, Rope.nil, pre1. split_and!; try done; [apply Rope.wf_nil|by apply code_nil].
Qed.

Lemma compile_return_ok e p : expr_comp e → stmt_comp (SReturn e p).
Proof.
  intros H Δ jret ret s HΔ (t & -> & Hl) Hret Hg. cbn [compile_stmt out_env].
  destruct (Hret t eq_refl) as (nr & -> & Hnr).
  eapply stmt_of_expr; [exact H|done|exact Hl|done|]. intros n Hn s1 pre1 He1 Hg1 Hs1 Hp1 a Ha.
  assert (n = nr) as -> by congruence. apply sound_stmt; [done..|]. intros s' G He' HG HpG.
  destruct (Ha G HpG) as (a' & -> & Ha'). exists (W.Return a' p). split; [constructor|by econstructor].
Qed.

(** ** The induction *)
Definition store_parts (e : Expr) : Prop :=
  match e with EStore e1 e2 _ _ => expr_comp e1 ∧ expr_comp e2 | _ => True end.
Definition expr_ok (e : Expr) : Prop := expr_comp e ∧ store_parts e.

Lemma expr_walk :
  (∀ e, expr_ok e) ∧ (∀ lv, lvalue_parts expr_comp lv) ∧ (∀ f, func_comp f) ∧ (∀ st, stmt_comp st).
Proof.
  assert (∀ A (π : A → Expr) l, Forall (λ x, expr_ok (π x)) l → Forall (λ x, expr_comp (π x)) l) as Hall.
  { intros A π l H. eapply Forall_impl; [exact H|]. by intros ? []. }
  apply syntax_ind. constructor; intros; repeat match goal with H : expr_ok _ |- _ => destruct H end;
    try match goal with H : Forall (λ x, expr_ok (@?π x)) _ |- _ => apply (Hall _ π) in H end;
    try match goal with H : Forall expr_ok _ |- _ => apply (Hall _ id) in H end;
    try match goal with |- expr_ok _ => split; [|done];
      intros ret Δ ty n X st0 v pre k Q HΔ He Hn Hg Hs Hpre Hk end; try done.
  - by eapply compile_lit_ok.
  - destruct He as [Ha ->]. cbn in Hn. simplify_eq. by eapply compile_array_ok.
  - destruct He as [Ha ->]. cbn in Hn. simplify_eq. by eapply compile_object_ok.
  - destruct He as [Hx ->]. eapply recv_a_ok; [exact Hk|done..|]. intros G HG. apply checks_AId.
    by eapply Hpre.
  - by eapply compile_dot_ok.
  - by eapply compile_bracket_ok.
  - by eapply compile_unary_ok.
  - by eapply compile_binary_ok.
  - by eapply compile_assign_ok.
  - by eapply compile_call_ok.
  - by eapply compile_method_ok.
  - by eapply compile_prim_call_ok.
  - destruct He as [Hl ->]. cbn in Hn. simplify_eq. cbn [compile_expr]. typ_of e n1. cbn in Hn. simplify_eq.
    enter H. done_a Hk. eexists (W.AnyLength _ _ s). split; [done|]. constructor. auto.
  - destruct He as (Ha & Hl & ->). by eapply compile_closure_ok.
  - destruct He as (from & Hl & Hc). cbn [compile_expr]. typ_of e n1. enter H.
    destruct (coercion_ok c s from ty n1 n a Hc Hn0 Hn) as (a2 & -> & Ha2). cbn [mbind comp_bind]. done_a Hk. auto.
  - destruct He as [Hl ->]. cbn [compile_expr]. typ_of e n1. cbn in Hn. rewrite Hn0 in Hn. cbn in Hn. simplify_eq.
    enter H. rewrite Hn0. cbn [mbind comp_bind]. done_e Hk.
    match goal with Ha : ∀ G, _ → checks_atom G ?a _, HG : _ ?G |- checks_expr ?G (W.NewRef ?a _ _) _ =>
      destruct (Ha G HG) as (a' & -> & ?) end.
    exists (W.NewRef a' n1 s). split; [done|by constructor].
  - destruct He as [Hl ->]. cbn [compile_expr]. typ_of e n1. cbn in Hn0. rewrite Hn in Hn0. cbn in Hn0. simplify_eq.
    eapply H; [exact HΔ|exact Hl|by cbn; rewrite Hn|done..|]. intros s1 pre1 He1 Hg1 Hs1 Hp1 a Ha.
    rewrite Hn. cbn [mbind comp_bind]. done_a Hk. apply checks_Deref. auto.
  - destruct He as [Hr ->]. cbn [compile_expr]. rewrite Hn. cbn [mbind comp_bind].
    eapply recv_a_ok; [exact Hk|done..|]. intros G _. exists (W.EnvGet i n s). split; [done|constructor].
  - by apply compile_function_ok.
  - by apply compile_var_ok.
  - intros Δ jret ret st HΔ Hl Hret Hg. cbn [compile_stmt out_env].
    destruct (compile_block_ok ss ret jret Δ st) as (s2 & l & post & -> & He & Hg2 & Hc); [done..|]. cbn.
    apply stmt_sound_one; [done..|]. intros s' G He' HG HpG. destruct (Hc s' G He' HG HpG) as (ss' & G' & ? & ? & _).
    exists (W.Block ss' s). split; [by constructor|by econstructor].
  - intros Δ jret ret st HΔ _ Hret Hg. apply stmt_sound_one; [done..|]. intros s' G _ _ _.
    exists W.Empty. split; constructor.
  - by apply compile_expr_stmt_ok.
  - by apply compile_if_ok.
  - intros Δ jret ret st HΔ Hl Hret Hg. cbn [compile_stmt out_env].
    eapply (compile_body_ok (λ b, W.Loop b s)); [done..| |]; intros; econstructor; eauto.
  - intros Δ jret ret st HΔ Hl Hret Hg. done.
  - intros Δ jret ret st HΔ Hl Hret Hg. cbn [compile_stmt out_env].
    eapply (compile_body_ok (λ b, W.Lbl _ b s)); [done..| |]; intros; econstructor; eauto.
  - intros Δ jret ret st HΔ _ Hret Hg. apply stmt_sound_one; [done..|]. intros s' G _ _ _.
    eexists. split; constructor.
  - intros Δ jret ret st HΔ [(ss & p & ->) Hl] Hret Hg. exact (H Δ jret ret st HΔ Hl Hret Hg).
  - intros Δ jret ret st HΔ Hl Hret Hg. done.
  - intros Δ jret ret st HΔ _ Hret Hg. exists st, Rope.nil.
    split_and!; try done; [apply Rope.wf_nil|by apply code_nil].
  - by apply compile_return_ok.
Qed.

(** ** Programs *)
Lemma empty_good : good (mkS ∅ ∅).
Proof. intros x f H. cbn in H. by rewrite lookup_empty in H. Qed.

(** What is compiled is a table of functions with generated names and [main]; they
    are well typed wherever the variables of the program and the functions are declared. *)
Lemma from_jankyscript_ok st Δ :
  env_lowered Δ → stmt_lowered st Δ None →
  ∃ fs main, from_jankyscript st = Ok (W.mkProgram [] (map_to_list (<[Named "main" := main]> fs)) [] []) ∧
    (∀ x f, fs !! x = Some f → anf_name x) ∧ W.fn_type main = N.mkFnType [] None ∧
    ∀ G, base Δ G → (∀ x f, <[Named "main" := main]> fs !! x = Some f → env_get G x = Some (fn_ty f)) →
      map_Forall (λ _, checks_function G) (<[Named "main" := main]> fs).
Proof.
  intros HΔ Hst. destruct expr_walk as (_ & _ & _ & Hwalk).
  destruct (Hwalk st Δ None None (mkS ∅ ∅) HΔ Hst) as (s2 & r & Hc & He & Hg & Hw & Hcode); [done|apply empty_good|].
  destruct (code_block None s2 _ r Unknown _ Hw Hcode) as [Hb Hbody].
  exists (functions s2). eexists. split; [unfold from_jankyscript; rewrite Hc; cbn; rewrite Hb; cbn; reflexivity|].
  split; [by intros x f [? _]%Hg|]. split; [done|]. intros G HG Hall.
  assert (functions s2 !! Named "main" = None) as Hmain.
  { destruct (functions s2 !! Named "main") as [f|] eqn:Hf; [|done]. by destruct (Hg _ _ Hf) as [[? [=]] _]. }
  assert (tops s2 G) as Ht.
  { intros x f Hf. apply Hall. rewrite lookup_insert_ne; [done|]. intros <-. congruence. }
  apply map_Forall_insert_2.
  - destruct (Hbody s2 G) as (b & G' & Ha & Hty); [done|done|done|].
    exists (W.mkFunction b (N.mkFnType [] None) [] Unknown). split; [|by split_and!].
    split; [done|]. by exists G'.
  - intros x f Hf. eapply Hg; [done|reflexivity|done|apply HG].
Qed.

(** A library declares the variables of the program and what array literals and
    array accesses use; it declares neither [main] nor a generated name. *)
Record library (Δ : gmap Id J.typ) (L : W.Program) : Prop := {
  lib_data : W.prog_data L = [];
  lib_base : base Δ (scope L);
  lib_names : map_Forall (λ x _, ¬ anf_name x ∧ x ≠ Named "main") (env (scope L))
}.

(** C27: A-normalisation preserves types: a program that NotWasm can express is
    compiled (without a panic), and its code, merged with a library that the
    NotWasm checker accepts, is accepted again.  So the annotations that
    JankyScript type checking has computed are enough for NotWasm. *)
Theorem from_jankyscript_checked st Δ L L' :
  env_lowered Δ → stmt_lowered st Δ None → library Δ L → type_check L = Ok L' →
  ∃ P M M', from_jankyscript st = Ok P ∧ W.merge_in (E := TypeCheckingError) P L = Ok M ∧ type_check M = Ok M'.
Proof.
  intros HΔ Hst [Hd Hbase Hnames] HL. destruct (from_jankyscript_ok st Δ HΔ Hst) as (fs & main & -> & Hfs & Hmain & Hok).
  set (all := <[Named "main" := main]> fs) in *. eexists.
  assert (∀ x f, all !! x = Some f → env_get (scope L) x = None) as Hnew.
  { intros x f Hx. destruct (env_get (scope L) x) as [t|] eqn:Ht; [|done]. destruct (Hnames x t Ht) as [Hn1 Hn2].
    apply lookup_insert_Some in Hx as [[<- _]|[_ Hx]]; [done|]. by apply Hfs in Hx. }
  assert (∀ x, x ∈ (map_to_list all).*1 → env_get (scope L) x = None) as Hnew'.
  { intros x ([y f] & -> & Hx)%list_elem_of_fmap. apply elem_of_map_to_list in Hx. by eapply Hnew. }
  set (G := inserts fn_ty (scope L) (map_to_list all)).
  assert (extends (scope L) G) as [He Hi] by by apply inserts_new.
  assert (map_Forall (λ _, checks_function G) all) as Hall.
  { apply Hok.
    - destruct Hbase as [Hsim (H1 & H2 & H3)]. split; [|split_and!; rewrite <- ?Hi; auto].
      intros x t n Hx Hn. apply He. by eapply Hsim.
    - intros x f Hx. apply inserts_in; [apply NoDup_fst_map_to_list|by apply elem_of_map_to_list]. }
  assert (∃ fs', Forall2 (annotates_named annotates_function) (map_to_list all) fs' ∧
    Forall (λ f, function_typed false G f.2) fs') as (fs' & Ha & Ht).
  { clearbody G. apply map_Forall_to_list in Hall. clear -Hall. induction Hall as [|[x f] l (f' & ? & ?) _ (fs' & ? & ?)]; [by exists []|].
    exists ((x, f') :: fs'). by split; constructor. }
  destruct (link_checked (W.mkProgram [] (map_to_list all) [] []) L L' HL Hd eq_refl eq_refl
    (NoDup_fst_map_to_list _) Hnew' fs' Ha Ht) as (M & M' & HM & HM'). eauto.
Qed.

(** A program that compiles a closure, an array, an object, a box and a loop. *)
Definition sample : Stmt :=
  let p := Unknown in
  let any t e := ECoercion (Tag t) e p in
  let x := Named "x" in let o := Named "o" in let f := Named "f" in let b := Named "b" in
  SBlock
    [ SVar x J.Array (EArray [any J.Int (ELit (LNum (NInt 1)) p)] p) p;
      SVar o J.DynObject (EObject [(KStr "k", EBracket (EId x J.Array p) (ELit (LNum (NInt 0)) p) J.Array p)] p) p;
      SVar b (J.Ref J.Any) (ENewRef (EDot (EId o J.DynObject p) (Named "k") p) J.Any p) p;
      SVar f (J.Function [J.Int] J.Int)
        (EClosure (mkFunc J.Int [(x, J.Int)]
           (SBlock [SExpr (EStore (EEnvGet 0 (J.Ref J.Any) p) (any J.Int (EId x J.Int p)) J.Any p) p;
                    SReturn (EBinary I32Add (EId x J.Int p) (ELit (LNum (NInt 1)) p) p) p] p) ∅ ∅)
           [(EId b (J.Ref J.Any) p, J.Ref J.Any)] p) p;
      SLabel (Named "l") (SLoop (SBlock
        [ SIf (EBinary I32Eq (ECall (EId f (J.Function [J.Int] J.Int) p) [ELit (LNum (NInt 1)) p] p) (ELit (LNum (NInt 2)) p) p)
            (SBreak (Named "l") p) SEmpty p;
          SExpr (EAssign (LDot (EId (Named "Math") J.DynObject p) (Named "v")) (EDeref (EId b (J.Ref J.Any) p) J.Any p) p) p] p) p) p] p.
Definition sample_lib : W.Program :=
  W.mkProgram [("array_new", N.Fn [] (Some N.Array)); ("array_index", N.Fn [N.Array; N.I32] (Some N.Any))] []
    [(Named "Math", W.mkGlobal true N.DynObject None)] [].
Definition sample_env : gmap Id J.typ := {[ Named "Math" := J.DynObject ]}.

Lemma user_named s : s ≠ "array_index" → s ≠ "_" → user_name (Named s).
Proof. intros H1 H2. split; [by intros []|]. by split; intros [=]. Qed.
Ltac lowered :=
  repeat match goal with
  | |- _ ∧ _ => split
  | |- ∃ _, _ => eexists
  | |- false = true ∨ _ => right
  | |- J.Array = J.Array ∧ _ ∨ _ => left
  | |- user_name _ => apply user_named; done
  | |- Forall _ _ => constructor
  | |- _ => reflexivity
  | |- True => exact I
  | |- _ => progress cbn
  end.
Lemma sample_lowered : stmt_lowered sample sample_env None.
Proof. cbn. lowered. Qed.
Lemma sample_env_lowered : env_lowered sample_env.
Proof. unfold sample_env. intros x t [<- <-]%lookup_singleton_Some. by split; [apply user_named|]. Qed.
Lemma sample_library : library sample_env sample_lib.
Proof.
  split; [done| |].
  - split; [|by vm_compute]. unfold sample_env. intros x t n [<- <-]%lookup_singleton_Some [= <-]. by vm_compute.
  - intros x t Hx.
    assert (map_Forall (λ x _, Is_true (match x with Named s => bool_decide (s ≠ "main") | _ => false end))
      (env (scope sample_lib))) as H by (refine (bool_decide_unpack _ _); by vm_compute).
    specialize (H x t Hx). clear Hx. destruct x as [s|b i|s]; [|done..]. apply bool_decide_unpack in H.
    split; [by intros [? [=]]|by intros [= ->]].
Qed.

Lemma from_jankyscript_checked_witness :
  ∃ P M M', from_jankyscript sample = Ok P ∧ W.merge_in (E := TypeCheckingError) P sample_lib = Ok M ∧ type_check M = Ok M'.
Proof.
  eapply (from_jankyscript_checked sample sample_env sample_lib);
    [apply sample_env_lowered|apply sample_lowered|apply sample_library|vm_compute; reflexivity].
Defined.

(** ** What is lost *)

