(* ===== verification/Wasm.v ===== *)
(** The WebAssembly instructions that the code generator emits (constructors of
    [parity_wasm::elements]), and the validation of function bodies. *)
From S2P Require Import Prelude.

Module V.
Inductive ValueType : Type := I32 | I64 | F32 | F64.
#[global] Instance ValueType_eq_dec : EqDecision ValueType.
Proof. solve_decision. Defined.
#[global] Instance ValueType_countable : Countable ValueType.
Proof.
  refine (inj_countable' (λ t, match t with I32 => 0%nat | I64 => 1%nat | F32 => 2%nat | F64 => 3%nat end)
    (λ n, match n with 0%nat => I32 | 1%nat => I64 | 2%nat => F32 | _ => F64 end) _). by intros [].
Defined.
End V.
(** The types of parameters and result. *)
Abbreviation sig := (list V.ValueType * option V.ValueType)%type.

Module I.
Inductive BlockType : Type := NoResult | Value (t : V.ValueType).

(** Loads and stores carry the alignment and the offset; a float constant is
    given by its value. *)
Inductive Instruction : Type :=
  | Unreachable
  | Block (bt : BlockType) | Loop (bt : BlockType) | If (bt : BlockType) | Else | End
  | Br (l : nat) | BrTable (table : list nat) (default : nat) | Return
  | Call (f : nat) | CallIndirect (ty : nat) (table : nat)
  | Drop
  | GetLocal (x : nat) | SetLocal (x : nat) | TeeLocal (x : nat)
  | GetGlobal (x : nat) | SetGlobal (x : nat)
  | I32Load (align offset : Z) | I64Load (align offset : Z) | F32Load (align offset : Z) | F64Load (align offset : Z)
  | I32Load8U (align offset : Z)
  | I32Store (align offset : Z) | I64Store (align offset : Z) | F32Store (align offset : Z) | F64Store (align offset : Z)
  | I32Const (i : Z) | I64Const (i : Z) | F32Const (x : f64) | F64Const (x : f64)
  | I32Eqz | I32Eq | I32Ne | I32LtS | I32GtS | I32LeS | I32GeS
  | I32Add | I32Sub | I32Mul | I32DivS | I32RemS | I32And | I32Or | I32Xor | I32Shl | I32ShrS | I32ShrU
  | I64ShrU | I32WrapI64
  | F64Eq | F64Ne | F64Lt | F64Gt | F64Le | F64Ge
  | F64Add | F64Sub | F64Mul | F64Div | F64Sqrt | F64Neg
  | I32TruncSF64 | F64ConvertSI32.
End I.

(** ** Validation

    The algorithm of the WebAssembly specification, with one operand stack for
    each open block.  An operand is [None] when its type is not known, in
    code that cannot be reached. *)
Module Valid.
Import V.

(** The index spaces of a module and the function that is validated. *)
Record Ctx := mkCtx {
  types : list sig;
  funcs : list sig;
  globals : list (ValueType * bool);
  locals : list ValueType;
  ret : option ValueType
}.

Record Frame := mkFrame {
  is_if : bool;
  label : option ValueType; (* what a branch to the block takes *)
  ends : option ValueType;  (* what the block leaves *)
  unreachable : bool;
  stack : list (option ValueType)
}.
Abbreviation ctrls := (list Frame).

Definition with_stack (f : Frame) (s : list (option ValueType)) : Frame :=
  mkFrame (is_if f) (label f) (ends f) (unreachable f) s.
Definition set_unreachable (f : Frame) : Frame := mkFrame (is_if f) (label f) (ends f) true [].

Definition push (t : ValueType) (f : Frame) : Frame := with_stack f (Some t :: stack f).
Definition pop (t : ValueType) (f : Frame) : option Frame :=
  match stack f with
  | Some t' :: s => if decide (t = t') then Some (with_stack f s) else None
  | None :: s => Some (with_stack f s)
  | [] => if unreachable f then Some f else None
  end.
Definition pop_any (f : Frame) : option Frame :=
  match stack f with
  | _ :: s => Some (with_stack f s)
  | [] => if unreachable f then Some f else None
  end.
(** The last operand is on top. *)
Definition pops (ts : list ValueType) (f : Frame) : option Frame :=
  foldr (λ t m, m ≫= pop t) (Some f) ts.
Definition pop_opt (t : option ValueType) (f : Frame) : option Frame :=
  match t with Some t => pop t f | None => Some f end.
Definition push_opt (t : option ValueType) (f : Frame) : Frame :=
  match t with Some t => push t f | None => f end.

(** Operands and result of the instructions without control flow. *)
Definition op_type (c : Ctx) (i : I.Instruction) : option sig :=
  match i with
  | I.Call f => funcs c !! f
  | I.CallIndirect ty _ => '(ts, r) ← types c !! ty; Some (ts ++ [I32], r)
  | I.GetLocal x => t ← locals c !! x; Some ([], Some t)
  | I.SetLocal x => t ← locals c !! x; Some ([t], None)
  | I.TeeLocal x => t ← locals c !! x; Some ([t], Some t)
  | I.GetGlobal x => '(t, _) ← globals c !! x; Some ([], Some t)
  | I.SetGlobal x => '(t, is_mut) ← globals c !! x; if (is_mut : bool) then Some ([t], None) else None
  | I.I32Load _ _ | I.I32Load8U _ _ => Some ([I32], Some I32)
  | I.I64Load _ _ => Some ([I32], Some I64)
  | I.F32Load _ _ => Some ([I32], Some F32)
  | I.F64Load _ _ => Some ([I32], Some F64)
  | I.I32Store _ _ => Some ([I32; I32], None)
  | I.I64Store _ _ => Some ([I32; I64], None)
  | I.F32Store _ _ => Some ([I32; F32], None)
  | I.F64Store _ _ => Some ([I32; F64], None)
  | I.I32Const _ => Some ([], Some I32)
  | I.I64Const _ => Some ([], Some I64)
  | I.F32Const _ => Some ([], Some F32)
  | I.F64Const _ => Some ([], Some F64)
  | I.I32Eqz => Some ([I32], Some I32)
  | I.I32Eq | I.I32Ne | I.I32LtS | I.I32GtS | I.I32LeS | I.I32GeS
  | I.I32Add | I.I32Sub | I.I32Mul | I.I32DivS | I.I32RemS | I.I32And | I.I32Or | I.I32Xor
  | I.I32Shl | I.I32ShrS | I.I32ShrU => Some ([I32; I32], Some I32)
  | I.I64ShrU => Some ([I64; I64], Some I64)
  | I.I32WrapI64 => Some ([I64], Some I32)
  | I.F64Eq | I.F64Ne | I.F64Lt | I.F64Gt | I.F64Le | I.F64Ge => Some ([F64; F64], Some I32)
  | I.F64Add | I.F64Sub | I.F64Mul | I.F64Div => Some ([F64; F64], Some F64)
  | I.F64Sqrt | I.F64Neg => Some ([F64], Some F64)
  | I.I32TruncSF64 => Some ([F64], Some I32)
  | I.F64ConvertSI32 => Some ([I32], Some F64)
  | _ => None
  end.

Definition block_type (bt : I.BlockType) : option ValueType :=
  match bt with I.NoResult => None | I.Value t => Some t end.
Definition enter (is_if : bool) (lbl ends : option ValueType) (fs : ctrls) : ctrls :=
  mkFrame is_if lbl ends false [] :: fs.
(** Leave the innermost block: its results and nothing else are on its stack. *)
Definition leave (f : Frame) : option (option ValueType) :=
  f' ← pop_opt (ends f) f;
  match stack f' with [] => Some (ends f) | _ => None end.

Definition step (c : Ctx) (fs : ctrls) (i : I.Instruction) : option ctrls :=
  match fs with
  | [] => None
  | f :: rest =>
      match i with
      | I.Unreachable => Some (set_unreachable f :: rest)
      | I.Block bt => Some (enter false (block_type bt) (block_type bt) fs)
      | I.Loop bt => Some (enter false None (block_type bt) fs)
      | I.If bt => f ← pop I32 f; Some (enter true (block_type bt) (block_type bt) (f :: rest))
      | I.Else =>
          r ← leave f;
          if is_if f then Some (enter false r r rest) else None
      | I.End =>
          r ← leave f;
          match rest with
          | g :: rest =>
              (* an [if] without [else] leaves nothing *)
              if is_if f && bool_decide (is_Some r) then None else Some (push_opt r g :: rest)
          | [] => None
          end
      | I.Br l => g ← fs !! l; f ← pop_opt (label g) f; Some (set_unreachable f :: rest)
      | I.BrTable table default =>
          f ← pop I32 f;
          g ← fs !! default;
          if forallb (λ l, match fs !! l with Some h => bool_decide (label h = label g) | None => false end) table
          then f ← pop_opt (label g) f; Some (set_unreachable f :: rest)
          else None
      | I.Return => f ← pop_opt (ret c) f; Some (set_unreachable f :: rest)
      | I.Drop => f ← pop_any f; Some (f :: rest)
      | _ =>
          '(ts, r) ← op_type c i;
          f ← pops ts f;
          Some (push_opt r f :: rest)
      end
  end.

Fixpoint run (c : Ctx) (fs : ctrls) (code : list I.Instruction) : option ctrls :=
  match code with [] => Some fs | i :: code => fs ← step c fs i; run c fs code end.

(** The type of an initializer of a global, a constant. *)
Definition const_type (i : I.Instruction) : option ValueType :=
  match i with
  | I.I32Const _ => Some I32 | I.I64Const _ => Some I64 | I.F32Const _ => Some F32 | I.F64Const _ => Some F64
  | _ => None
  end.

(** The body of a function, up to the [End] that closes it. *)
Definition validate (c : Ctx) (code : list I.Instruction) : bool :=
  match last code with
  | Some I.End =>
      match run c (enter false (ret c) (ret c) []) (removelast code) with
      | Some [f] => bool_decide (is_Some (leave f))
      | _ => false
      end
  | _ => false
  end.
End Valid.
