(* ===== verification/Translation.v ===== *)
(** The translation of NotWasm to WebAssembly ([notwasm/translation.rs]). *)
From S2P Require Import Prelude Types Operators NotWasm Wasm.
Import V(ValueType).

Definition JNKS_STRINGS_IDX : nat := 0.
(** In bytes. *)
Definition ANY_SIZE : Z := 8.
Definition TAG_SIZE : Z := 4.
Definition LENGTH_SIZE : Z := 4.
Definition FN_OBJ_SIZE : Z := 4.

Abbreviation FuncTypeMap := (gmap sig nat).
Definition opt_valuetype_to_blocktype (t : option ValueType) : I.BlockType :=
  match t with None => I.NoResult | Some t => I.Value t end.

(** [Type::as_wasm]. *)
Definition as_wasm (t : N.typ) : ValueType :=
  match t with
  | N.F64 => V.F64
  | N.Any => V.I64
  | N.I32 | N.Bool | N.String | N.HT | N.Array | N.DynObject | N.Fn _ _ => V.I32
  | N.Closure _ _ => V.I64
  | N.Ref _ | N.Env | N.Ptr => V.I32
  end.
Definition types_as_wasm (types : list N.typ) : list ValueType := map as_wasm types.
Definition option_as_wasm (ty : option N.typ) : option ValueType := as_wasm <$> ty.

(** ** State *)
Inductive TranslateLabel : Type :=
  | Unused
  | Label (l : W.Label).
#[global] Instance TranslateLabel_eq_dec : EqDecision TranslateLabel.
Proof. solve_decision. Defined.
Record Env := mkEnv { labels : list TranslateLabel; result_type : option ValueType }.
Definition env_default : Env := mkEnv [] None.
Definition push_front (l : TranslateLabel) (env : Env) : Env := mkEnv (l :: labels env) (result_type env).

Inductive IdIndex : Type :=
  | Local (n : nat) (t : N.typ)
  | Global (n : nat) (t : N.typ)
  | RTGlobal (n : nat) (t : N.typ)
  | IFun (n : nat).
Abbreviation IdEnv := (gmap Id IdIndex).

(** The fields of [Translate] that change; [next_id] is a [u32]. *)
Record Translate := mkTranslate {
  out : list I.Instruction;
  data : list Z;
  locals : list ValueType;
  next_id : nat;
  id_env : IdEnv
}.
Definition translate_new (id_env : IdEnv) (data : list Z) : Translate := mkTranslate [] data [] 0 id_env.
Abbreviation tr := (comp never Translate).

Definition emit (i : I.Instruction) (t : Translate) : Translate :=
  mkTranslate (out t ++ [i]) (data t) (locals t) (next_id t) (id_env t).
Definition emits (l : list I.Instruction) (t : Translate) : Translate := foldl (λ t i, emit i t) t l.
(** [let index = self.next_id; self.next_id += 1; self.locals.push(ty)]. *)
Definition new_local (ty : ValueType) (t : Translate) : Translate :=
  mkTranslate (out t) (data t) (locals t ++ [ty]) (S (next_id t)) (id_env t).
Definition bind_id (x : Id) (i : IdIndex) (t : Translate) : Translate :=
  mkTranslate (out t) (data t) (locals t) (next_id t) (<[x := i]> (id_env t)).

(** [n.try_into().unwrap()] from [u32] or [usize] to [i32]. *)
Definition i32_try_from {E} (n : nat) : comp E Z :=
  if bool_decide (Z.of_nat n < 2 ^ 31) then Ok (Z.of_nat n)
  else Panic "called unwrap on an Err value: TryFromIntError".
(** [n as i32]. *)
Definition as_i32 (n : nat) : Z := Int.wrap_s 32 (Z.of_nat n).

Section Translate.
Context (disable_gc : bool) (rt_indexes : gmap string nat) (type_indexes : FuncTypeMap).

(** ** Calls to the runtime *)
Definition rt_call (name : string) (t : Translate) : tr :=
  match rt_indexes !! name with Some i => Ok (emit (I.Call i) t) | None => Panic ("cannot find rt " +:+ name) end.
Definition get_notwasm_rt_fn (name : string) (t : Translate) : option nat :=
  match id_env t !! Named name with Some (IFun func) => Some (func + size rt_indexes)%nat | _ => None end.
Definition notwasm_rt_call (name : string) (t : Translate) : tr :=
  match get_notwasm_rt_fn name t with
  | Some index => Ok (emit (I.Call index) t)
  | None => Panic ("cannot find notwasm runtime function " +:+ name)
  end.

Definition shadow_frame_fn (ty : N.typ) : string :=
  match ty with
  | N.Any => "set_any_in_current_shadow_frame_slot"
  | N.Closure _ _ => "set_closure_in_current_shadow_frame_slot"
  | _ => "set_in_current_shadow_frame_slot"
  end.
Definition set_in_current_shadow_frame_slot (ty : N.typ) (t : Translate) : tr := rt_call (shadow_frame_fn ty) t.
Definition get_set_in_globals_frame (ty : N.typ) : comp never I.Instruction :=
  let func := match ty with
    | N.Closure _ _ => "set_closure_in_globals_frame"
    | N.Any => "set_any_in_globals_frame"
    | _ => "set_in_globals_frame"
    end%string in
  match rt_indexes !! func with Some i => Ok (I.Call i) | None => Panic ("cannot find rt " +:+ func) end.

Definition to_any (ty : N.typ) (t : Translate) : tr :=
  match ty with
  | N.I32 => rt_call "any_from_i32" t
  | N.Bool => rt_call "any_from_bool" t
  | N.F64 => rt_call "f64_to_any" t
  | N.Fn _ _ => rt_call "any_from_fn" t
  | N.Closure _ _ => rt_call "any_from_closure" t
  | N.Any => Ok t
  | _ => rt_call "any_from_ptr" t
  end.
Definition from_any (ty : N.typ) (t : Translate) : tr :=
  match ty with
  | N.I32 => rt_call "any_to_i32" t
  | N.Bool => rt_call "any_to_bool" t
  | N.F64 => rt_call "any_to_f64" t
  | N.Fn _ _ => Panic "cannot attain function from any"
  | N.Closure _ _ => rt_call "any_to_closure" t
  | N.Any => Ok t
  | _ => rt_call "any_to_ptr" t
  end.

Definition load (ty : N.typ) (offset : Z) (t : Translate) : Translate :=
  emit (match as_wasm ty with
        | V.I32 => I.I32Load 2 offset | V.I64 => I.I64Load 2 offset
        | V.F32 => I.F32Load 2 offset | V.F64 => I.F64Load 2 offset
        end) t.
Definition store (ty : N.typ) (offset : Z) (t : Translate) : Translate :=
  emit (match as_wasm ty with
        | V.I32 => I.I32Store 2 offset | V.I64 => I.I64Store 2 offset
        | V.F32 => I.F32Store 2 offset | V.F64 => I.F64Store 2 offset
        end) t.

(** Push the value of a variable; its type if it is not a function. *)
Definition get_id (x : Id) (t : Translate) : comp never (option N.typ * Translate) :=
  match id_env t !! x with
  | None => Panic "unbound identifier"
  | Some (Local n ty) => Ok (Some ty, emit (I.GetLocal n) t)
  | Some (Global n ty) => Ok (Some ty, emit (I.GetGlobal n) t)
  | Some (RTGlobal n ty) => Ok (Some ty, load ty 0 (emit (I.GetGlobal n) t))
  | Some (IFun n) => Ok (None, emit (I.I32Const (Int.wrap_s 32 (as_i32 n + as_i32 (size rt_indexes)))) t)
  end.
Definition get_ids (xs : list Id) (t : Translate) : tr :=
  foldM (λ t x, '(_, t) ← get_id x t; Ok t) t xs.

(** The inline cache of a property access: four bytes of data, [-1]. *)
Definition data_cache (t : Translate) : Translate :=
  let t := emits [I.GetGlobal JNKS_STRINGS_IDX; I.I32Const (as_i32 (length (data t))); I.I32Add] t in
  mkTranslate (out t) (data t ++ [255; 255; 255; 255]) (locals t) (next_id t) (id_env t).

(** ** Operators *)
Definition binop_instruction (op : BinaryOp) : I.Instruction :=
  match op with
  | PtrEq => I.I32Eq
  | I32Eq => I.I32Eq | I32Ne => I.I32Ne | I32Add => I.I32Add | I32Sub => I.I32Sub
  | I32GT => I.I32GtS | I32LT => I.I32LtS | I32Ge => I.I32GeS | I32Le => I.I32LeS
  | I32Mul => I.I32Mul | I32Div => I.I32DivS | I32Rem => I.I32RemS | I32And => I.I32And
  | I32Or => I.I32Or | I32Xor => I.I32Xor | I32Shl => I.I32Shl | I32Shr => I.I32ShrS | I32ShrU => I.I32ShrU
  | F64Add => I.F64Add | F64Sub => I.F64Sub | F64Mul => I.F64Mul | F64Div => I.F64Div
  | F64LT => I.F64Lt | F64GT => I.F64Gt | F64Le => I.F64Le | F64Ge => I.F64Ge | F64Eq => I.F64Eq | F64Ne => I.F64Ne
  end.
Definition translate_binop (op : BinaryOp) (t : Translate) : Translate := emit (binop_instruction op) t.
Definition translate_unop (op : UnaryOp) (t : Translate) : Translate :=
  match op with
  | Sqrt => emit I.F64Sqrt t
  | F64Neg => emit I.F64Neg t
  | I32Neg => emit I.I32Sub t
  | I32Not => emits [I.I32Const (-1); I.I32Xor] t
  | Eqz => emit I.I32Eqz t
  | Nop => t
  end.

(** ** Method calls on [Any]

    [translate_atom] and the translation of objects call each other: an object
    access is translated by translating atoms made for it.  [atom] is the
    translation of those. *)
Fixpoint find_receiver (typ : N.typ) (typs : list N.typ) : comp never (option N.typ) :=
  match typs with
  | [] => Ok None
  | ty :: typs =>
      '(args, _) ← N.unwrap_fun ty;
      arg ← expect "index out of bounds" (head args);
      if decide (arg = typ) then Ok (Some ty) else find_receiver typ typs
  end.
(** Closures passed to [translate_pointer_method]. *)
Definition typed_call (args : list Id) (typs : list N.typ) (method : string) (index : nat) (typ : N.typ) (t : Translate) : tr :=
  ty ← find_receiver typ typs;
  match ty with
  | None => Ok t
  | Some ty =>
      '(arg_typs, result_typ) ← N.unwrap_fun ty;
      t ← foldM (λ t p, '(_, t) ← get_id p.1 t; from_any p.2 t) t (zip args arg_typs);
      t ← rt_call (N.display typ +:+ "_" +:+ method) t;
      match result_typ with
      | Some result_typ => t ← to_any result_typ t; Ok (emit (I.SetLocal index) t)
      | None => Ok t
      end
  end.

(** [Stmt::Assign], given the translation of the expression. *)
Definition translate_assign (x : Id) (expr : Translate → tr) (t : Translate) : tr :=
  match id_env t !! x with
  | None => Panic "unbound identifier"
  | Some (Local n ty) =>
      t ← expr t;
      if disable_gc || negb (N.is_gc_root ty) then Ok (emit (I.SetLocal n) t)
      else
        let t := emit (I.TeeLocal n) t in
        slot ← i32_try_from n;
        set_in_current_shadow_frame_slot ty (emit (I.I32Const slot) t)
  | Some (Global n ty) =>
      t ← expr t;
      let t := emit (I.SetGlobal n) t in
      if negb disable_gc && N.is_gc_root ty then
        let t := emit (I.GetGlobal n) t in
        slot ← i32_try_from n;
        let t := emit (I.I32Const slot) t in
        call ← get_set_in_globals_frame ty;
        Ok (emit call t)
      else Ok t
  | Some (RTGlobal n ty) =>
      t ← expr (emit (I.GetGlobal n) t);
      Ok (store ty 0 t)
  | Some (IFun _) => Panic "cannot set function"
  end.

(** [Expr::ClosureCall]. *)
Definition translate_closure_call (f : Id) (args : list Id) (t : Translate) : tr :=
  '(ty, t) ← get_id f t;
  ty ← expect "called unwrap on a None value" ty;
  t ← rt_call "closure_env" t;
  typs ← match ty with
    | N.Closure args result => Ok (types_as_wasm args, option_as_wasm result)
    | _ => Panic "identifier is not function-typed"
    end;
  ty_index ← expect "function type was not indexed" (type_indexes !! typs);
  t ← get_ids args t;
  '(_, t) ← get_id f t;
  t ← rt_call "closure_func" t;
  Ok (emit (I.CallIndirect ty_index 0) t).

Section object_method.
Context (atom : W.Atom → Translate → tr).
Definition translate_object_method (any : Id) (method_lit : W.Lit) (args : list Id) (s : Pos) (do_call : bool) (t : Translate) : tr :=
  let closure_type := N.Closure (N.Env :: replicate (length args) N.Any) (Some N.Any) in
  let t :=
    if do_call then
      let cl_call_idx := next_id t in
      bind_id (Named "%mfn") (Local cl_call_idx closure_type) (new_local V.I64 t)
    else t in
  let dot_atom := W.ObjectGet (W.FromAny (W.AId any s) N.DynObject s) (W.ALit method_lit s) s in
  if do_call then
    let typed_dot := W.FromAny dot_atom closure_type s in
    t ← translate_assign (Named "%mfn") (atom typed_dot) t;
    translate_closure_call (Named "%mfn") args t
  else atom dot_atom t.

Definition translate_pointer_method (any : Id) (method_lit : W.Lit) (args : list Id) (s : Pos) (index : nat)
    (typed_call : N.typ → Translate → tr) (do_call : bool) (t : Translate) : tr :=
  let block := I.Block I.NoResult in
  let t := emits [block; block; block; block] t in
  '(_, t) ← get_id any t;
  let t := emits [I.I64Const (4 * 8); I.I64ShrU; I.I32WrapI64; I.I32Load8U 0 1; I.BrTable [0; 1; 2; 3]%nat 0; I.End] t in
  t ← typed_call N.Array t;
  let t := emits [I.Br 4; I.End] t in
  t ← typed_call N.String t;
  let t := emits [I.Br 3; I.End; I.Br 2; I.End] t in
  t ← translate_object_method any method_lit args s do_call t;
  Ok (emits [I.SetLocal index; I.Br 1] t).

Definition translate_any_method (any : Id) (method_lit : W.Lit) (args : list Id) (typs : list N.typ) (s : Pos)
    (do_call : bool) (t : Translate) : tr :=
  method ← match method_lit with
    | W.LInterned m _ => Ok m
    | _ => Panic "method field should be interned string"
    end;
  let index := next_id t in
  let t := new_local V.I64 t in
  let block := I.Block I.NoResult in
  let t := emits [block; block; block; block; block; block] t in
  '(_, t) ← get_id any t;
  let t := emits [I.I32WrapI64; I.I32Const 255; I.I32And; I.BrTable [0; 1; 2; 3; 4]%nat 0; I.End;
                  I.I64Const 0; I.SetLocal index; I.Br 4; I.End;
                  I.I64Const 1; I.SetLocal index; I.Br 3; I.End;
                  I.I64Const 2; I.SetLocal index; I.Br 2; I.End] t in
  t ← translate_pointer_method any method_lit args s index (typed_call args typs method index) do_call t;
  Ok (emits [I.End; I.I64Const 4; I.SetLocal index; I.End; I.GetLocal index] t).
End object_method.

(** ** Atoms *)
Definition translate_lit (l : W.Lit) (t : Translate) : tr :=
  match l with
  | W.LI32 i => Ok (emit (I.I32Const i) t)
  | W.LF64 f => Ok (emit (I.F64Const f) t)
  | W.LInterned _ addr => Ok (emits [I.GetGlobal JNKS_STRINGS_IDX; I.I32Const (Int.wrap_s 32 addr); I.I32Add] t)
  | W.LString _ => Panic "uninterned string"
  | W.LBool b => Ok (emit (I.I32Const (if b then 1 else 0)) t)
  | W.LUndefined => rt_call "get_undefined" t
  | W.LNull => rt_call "get_null" t
  end.

Section atoms.
Context (any_length : Id → W.Lit → Pos → Translate → tr).
Fixpoint translate_atom_with (a : W.Atom) (t : Translate) {struct a} : tr :=
  match a with
  | W.Deref a ty _ => t ← translate_atom_with a t; Ok (load ty TAG_SIZE t)
  | W.ALit lit _ => translate_lit lit t
  | W.AId x _ => '(_, t) ← get_id x t; Ok t
  | W.PrimApp x args _ =>
      t ← foldM (λ t a, translate_atom_with a t) t args;
      name ← into_name x;
      rt_call name t
  | W.GetPrimFunc x _ =>
      name ← into_name x;
      match rt_indexes !! name with
      | Some i => Ok (emit (I.I32Const (as_i32 i)) t)
      | None => Panic "cannot find rt"
      end
  | W.ToAny a ty _ => t ← translate_atom_with a t; ty ← expect "type not set for ToAny" ty; to_any ty t
  | W.FromAny a ty _ => t ← translate_atom_with a t; from_any ty t
  | W.FloatToInt a _ => t ← translate_atom_with a t; Ok (emit I.I32TruncSF64 t)
  | W.IntToFloat a _ => t ← translate_atom_with a t; Ok (emit I.F64ConvertSI32 t)
  | W.ObjectGet obj field _ =>
      t ← translate_atom_with obj t;
      t ← translate_atom_with field t;
      rt_call "object_get" (data_cache t)
  | W.AnyLength any method_lit s => any_length any method_lit s t
  | W.Binary op a b _ =>
      t ← translate_atom_with a t;
      t ← translate_atom_with b t;
      Ok (translate_binop op t)
  | W.Unary op a _ =>
      let t := if decide (op = I32Neg) then emit (I.I32Const 0) t else t in
      t ← translate_atom_with a t;
      Ok (translate_unop op t)
  | W.EnvGet index ty _ =>
      let t := emit (I.GetLocal 0) t in
      let offset := Int.wrap_u 32 (TAG_SIZE + LENGTH_SIZE + FN_OBJ_SIZE + index * ANY_SIZE) in
      Ok (match ty with
          | N.Closure _ _ => emits [I.I64Load 2 offset; I.I64Const 16; I.I64ShrU] t
          | _ =>
              if decide (as_wasm ty = V.I64) then emit (I.I64Load 2 offset) t
              else emit (I.I32Load 2 (Int.wrap_u 32 (offset + 4))) t
          end)
  end.
End atoms.

(** No length is among the atoms that [translate_object_method] makes. *)
Definition translate_simple : W.Atom → Translate → tr :=
  translate_atom_with (λ _ _ _ _, Panic "unreachable").
Definition translate_length (any : Id) (method_lit : W.Lit) (s : Pos) (t : Translate) : tr :=
  translate_any_method translate_simple any method_lit [any]
    [N.Fn [N.String] (Some N.I32); N.Fn [N.Array] (Some N.I32)] s false t.
Definition translate_atom : W.Atom → Translate → tr := translate_atom_with translate_length.

(** ** Expressions *)
Definition ref_new (ty : N.typ) : comp never string :=
  match ty with
  | N.I32 | N.Bool | N.Fn _ _ => Ok "ref_new_non_ptr_32"
  | N.F64 => Ok "ref_new_f64"
  | N.Ref _ => Panic "while recursive refs can be made, they shouldn't"
  | N.Any => Ok "ref_new_any"
  | _ => Ok "ref_new_ptr"
  end%string.

(** The loop that initializes an environment, from slot [i]. *)
Fixpoint translate_env (i : nat) (env : list (W.Atom * N.typ)) (t : Translate) : tr :=
  match env with
  | [] => Ok t
  | (a, ty) :: env =>
      let t := emit (I.I32Const (as_i32 i)) t in
      t ← translate_atom a t;
      t ← to_any ty t;
      t ← rt_call "env_init_at" t;
      translate_env (S i) env t
  end.

Definition translate_expr (e : W.Expr) (t : Translate) : tr :=
  match e with
  | W.EAtom a _ => translate_atom a t
  | W.ArraySet arr index value _ =>
      t ← translate_atom arr t;
      t ← translate_atom index t;
      t ← translate_atom value t;
      rt_call "array_set" t
  | W.ObjectSet obj field val _ =>
      t ← translate_atom obj t;
      t ← translate_atom field t;
      t ← translate_atom val t;
      rt_call "object_set" (data_cache t)
  | W.ObjectEmpty => notwasm_rt_call "jnks_new_object" t
  | W.PrimCall rts_func args _ =>
      t ← get_ids args t;
      name ← RTS.name rts_func;
      match name with
      | RTS.Rust name => rt_call name t
      | RTS.NotWasm name => notwasm_rt_call name t
      end
  | W.Call f args _ =>
      t ← get_ids args t;
      match id_env t !! f with
      | Some (IFun i) => Ok (emit (I.Call (i + size rt_indexes)%nat) t)
      | Some (Local i ty) =>
          let t := emit (I.GetLocal i) t in
          typs ← match ty with
            | N.Fn args result => Ok (types_as_wasm args, option_as_wasm result)
            | _ => Panic "identifier is not function-typed"
            end;
          ty_index ← expect "function type was not indexed" (type_indexes !! typs);
          Ok (emit (I.CallIndirect ty_index 0) t)
      | Some _ => Panic "can't translate Func ID for function"
      | None => Panic "expected Func ID"
      end
  | W.AnyMethodCall any method_lit args typs s => translate_any_method translate_simple any method_lit args typs s true t
  | W.ClosureCall f args _ => translate_closure_call f args t
  | W.NewRef a ty _ =>
      t ← translate_atom a t;
      name ← ref_new ty;
      rt_call name t
  | W.Closure x env _ =>
      let t := emit (I.I32Const (as_i32 (length env))) t in
      t ← notwasm_rt_call "jnks_new_fn_obj" t;
      t ← rt_call "env_alloc" t;
      t ← translate_env 0 env t;
      '(_, t) ← get_id x t;
      rt_call "closure_new" t
  end.

(** ** Statements *)
Definition is_undefined (e : W.Expr) : bool :=
  match e with W.EAtom (W.ALit W.LUndefined _) _ => true | _ => false end.

Definition translate_var (v : W.VarStmt) (t : Translate) : tr :=
  let is_init := negb (bool_decide (W.var_ty v = Some N.Any)) && is_undefined (W.var_named v) in
  t ← (if is_init then Ok t else translate_expr (W.var_named v) t);
  let index := next_id t in
  ty ← expect "type not set for VarStmt" (W.var_ty v);
  let t := bind_id (W.var_id v) (Local index ty) (new_local (as_wasm ty) t) in
  if is_init then Ok t
  else if disable_gc || negb (N.is_gc_root ty) then Ok (emit (I.SetLocal index) t)
  else
    let t := emit (I.TeeLocal index) t in
    slot ← i32_try_from index;
    set_in_current_shadow_frame_slot ty (emit (I.I32Const slot) t).

Definition index_of (l : TranslateLabel) (ls : list TranslateLabel) : option nat :=
  fst <$> list_find (λ l', l = l') ls.

Fixpoint translate_rec (env : Env) (tail_position : bool) (st : W.Stmt) (t : Translate) {struct st} : tr :=
  match st with
  | W.Store x expr _ =>
      '(ty, t) ← get_id x t;
      ty ← expect "called unwrap on a None value" ty;
      ty ← match ty with N.Ref b_ty => Ok b_ty | _ => Panic "tried to store into non-ref" end;
      t ← translate_expr expr t;
      Ok (store ty TAG_SIZE t)
  | W.Empty => Ok t
  | W.Block ss _ =>
      (fix go ss t :=
        match ss with
        | [] => Ok t
        | [st] => translate_rec env tail_position st t
        | st :: ss => t ← translate_rec env false st t; go ss t
        end) ss t
  | W.Var v _ => translate_var v t
  | W.Expression expr _ => t ← translate_expr expr t; Ok (emit I.Drop t)
  | W.Assign x expr _ => translate_assign x (translate_expr expr) t
  | W.If cond conseq alt _ =>
      t ← translate_atom cond t;
      let block_type := if tail_position then opt_valuetype_to_blocktype (result_type env) else I.NoResult in
      let env1 := push_front Unused env in
      t ← translate_rec env1 tail_position conseq (emit (I.If block_type) t);
      t ← translate_rec env1 tail_position alt (emit I.Else t);
      Ok (emit I.End t)
  | W.Loop body _ =>
      t ← translate_rec (push_front Unused env) false body (emit (I.Loop I.NoResult) t);
      Ok (emits [I.Br 0; I.End] t)
  | W.Lbl x st _ =>
      match x with
      | W.App _ => Panic "Label::App was not elimineted by elim_gotos"
      | _ =>
          t ← translate_rec (push_front (Label x) env) tail_position st (emit (I.Block I.NoResult) t);
          Ok (emit I.End t)
      end
  | W.Break label _ =>
      i ← expect "unbound label" (index_of (Label label) (labels env));
      Ok (emit (I.Br i) t)
  | W.Return atom _ =>
      t ← (if disable_gc then Ok t else rt_call "gc_exit_fn" t);
      t ← translate_atom atom t;
      Ok (emit I.Return t)
  | W.Trap => Ok (emit I.Unreachable t)
  | W.Goto _ _ => Panic "this should be NotWasm, not GotoWasm. did you run elim_gotos? did it work?"
  end.

(** ** Functions *)
Record FunctionDefinition := mkFunctionDefinition {
  signature : sig; body : list I.Instruction; body_locals : list ValueType }.

(** Indices for parameters. *)
Definition bind_params (params : list (Id * N.typ)) (t : Translate) : Translate :=
  foldl (λ t p,
    mkTranslate (out t) (data t) (locals t) (S (next_id t)) (<[p.1 := Local (next_id t) p.2]> (id_env t))) t params.

(** The names of the locals for debuggers are left out. *)
Definition translate_func (func : W.Function) (id_env : IdEnv) (data_ : list Z) : comp never (FunctionDefinition * list Z) :=
  let ty := W.fn_type func in
  let t := bind_params (zip (W.fn_params func) (N.args ty)) (translate_new id_env data_) in
  let env := mkEnv [] (option_as_wasm (N.result ty)) in
  t ← translate_rec env true (W.fn_body func) t;
  insts ← (if disable_gc then Ok [] else
    let num_slots := (length (locals t) + length (W.fn_params func))%nat in
    n ← i32_try_from num_slots;
    enter ← expect "no enter" (rt_indexes !! "gc_enter_fn");
    Ok [I.I32Const n; I.Call enter]);
  t ← (if disable_gc then Ok t else rt_call "gc_exit_fn" t);
  Ok (mkFunctionDefinition (types_as_wasm (N.args ty), option_as_wasm (N.result ty))
        (insts ++ out t ++ [I.End]) (locals t), data t).
End Translate.

(** ** Modules

    [push_signature] is the function of the module builder (a library) that
    adds a signature to the type section and returns its index.  The other calls of the
    builder append to the sections of the module. *)
Record Module_ := mkModule {
  types : list sig;
  imports : list (string * sig);
  module_globals : list (ValueType * bool * I.Instruction);
  table : list nat;
  functions : list FunctionDefinition;
  main : FunctionDefinition;
  module_data : list Z;
  main_index : nat
}.

Section parity.
Context (disable_gc : bool) (push_signature : list sig → sig → list sig * nat).

Definition rt_globals : list (string * N.typ) := [("__JNKS_STRINGS", N.I32)]%string.

(** The environment of the functions, the runtime globals and the globals. *)
Definition make_global_env (program : W.Program) : IdEnv :=
  let fs := imap (λ index f, (f.1, IFun index)) (W.functions program) in
  let rts := imap (λ index g, (Named g.1, RTGlobal index g.2)) rt_globals in
  let gs := imap (λ index g, (g.1, Global (length rt_globals + index) (W.global_ty g.2))) (W.globals program) in
  foldl (λ m xi, <[xi.1 := xi.2]> m) ∅ (fs ++ rts ++ gs).

(** [type_indexes.entry(ty).or_insert(i)]. *)
Definition or_insert (m : FuncTypeMap) (ty : sig) (i : nat) : FuncTypeMap * nat :=
  match m !! ty with Some j => (m, j) | None => (<[ty := i]> m, i) end.

Record Indexes := mkIndexes {
  ix_types : list sig; type_indexes : FuncTypeMap; rt_indexes : gmap string nat; ix_imports : list (string * sig) }.
(** The runtime functions, in order: their signatures, indices and imports. *)
Definition index_rt (s : Indexes) (b : string * N.typ) : comp never Indexes :=
  match b.2 with
  | N.Fn args result =>
      let wasm_ty := (types_as_wasm args, option_as_wasm result) in
      let '(types, i_check) := push_signature (ix_types s) wasm_ty in
      let '(m, i) := or_insert (type_indexes s) wasm_ty i_check in
      assert "assertion failed" (bool_decide (i = i_check));;
      Ok (mkIndexes types m (<[b.1 := length (ix_imports s)]> (rt_indexes s)) (ix_imports s ++ [(b.1, wasm_ty)]))
  | _ => Panic "expected all elements in the runtime to have function type"
  end.
(** The signatures of the functions: their indices are predicted. *)
Definition index_function (m : FuncTypeMap) (f : W.Function) : FuncTypeMap :=
  (or_insert m (types_as_wasm (N.args (W.fn_type f)), option_as_wasm (N.result (W.fn_type f))) (size m)).1.

Definition zero (ty : ValueType) : I.Instruction :=
  match ty with V.I32 => I.I32Const 0 | V.I64 => I.I64Const 0 | V.F32 => I.F32Const (SpecFloat.S754_zero false) | V.F64 => I.F64Const (SpecFloat.S754_zero false) end.
(** The initial value of a global is one instruction. *)
Definition translate_global (s : Indexes) (env : IdEnv) (data_ : list Z) (g : W.Global) :
    comp never ((ValueType * bool * I.Instruction) * list Z) :=
  let ty := as_wasm (W.global_ty g) in
  t ← match W.global_atom g with
      | Some a => translate_atom disable_gc (rt_indexes s) (type_indexes s) a (translate_new env data_)
      | None => Ok (emit (zero ty) (translate_new env data_))
      end;
  match out t with
  | [i] => Ok ((ty, W.is_mut g, i), data t)
  | _ => Panic "parity_wasm unneccessarily restricts init_expr to len=1"
  end.

(** The entry point. *)
Definition insert_generated_main (globals : list (Id * W.Global)) (env : IdEnv) (rt_indexes : gmap string nat) :
    comp never FunctionDefinition :=
  init ← expect "no enter" (rt_indexes !! "init");
  let insts := [I.Call init] in
  insts ← (if disable_gc then Ok insts else
    n ← i32_try_from (length rt_globals + length globals)%nat;
    enter ← expect "no gc_enter_fn" (rt_indexes !! "gc_enter_fn");
    Ok (insts ++ [I.I32Const n; I.Call enter]));
  insts ← foldM (λ insts '(index, g),
      if negb disable_gc && N.is_gc_root (W.global_ty g) && bool_decide (is_Some (W.global_atom g)) then
        call ← get_set_in_globals_frame rt_indexes (W.global_ty g);
        Ok (insts ++ [I.GetGlobal (length rt_globals + index); I.I32Const (as_i32 (length rt_globals + index)); call])
      else Ok insts) insts (imap pair (map snd globals));
  insts ← match env !! Named "jnks_init" with
    | Some (IFun func) => Ok (insts ++ [I.Call (func + size rt_indexes)%nat])
    | _ => Panic "cannot find notwasm runtime function jnks_init"
    end;
  insts ← match env !! Named "main" with
    | Some (IFun func) => Ok (insts ++ [I.Call (func + size rt_indexes)%nat])
    | _ => Panic "cannot find notwasm main"
    end;
  insts ← (if disable_gc then Ok insts else
    exit ← expect "no gc_exit_fn" (rt_indexes !! "gc_exit_fn"); Ok (insts ++ [I.Call exit]));
  Ok (mkFunctionDefinition ([], None) (insts ++ [I.End]) []).

(** The indices of the types and of the runtime functions; [rt_types] are the
    entries of [get_rt_bindings] in their order of iteration. *)
Definition module_indexes (rt_types : list (string * N.typ)) (program : W.Program) : comp never Indexes :=
  s ← foldM index_rt (mkIndexes [] ∅ ∅ []) (rt_types ++ W.rts_fn_imports program);
  Ok (mkIndexes (ix_types s) (foldl (λ m f, index_function m f.2) (type_indexes s) (W.functions program))
        (rt_indexes s) (ix_imports s)).

Definition translate_parity (rt_types : list (string * N.typ)) (program : W.Program) : comp never Module_ :=
  let env := make_global_env program in
  s ← module_indexes rt_types program;
  '(globals, data) ← foldM (λ '(gs, data) g, '(g, data) ← translate_global s env data g.2; Ok (gs ++ [g], data))
     ([], W.prog_data program) (W.globals program);
  let num_functions := (size (rt_indexes s) + length (W.functions program))%nat in
  '(fs, data) ← foldM (λ '(fs, data) f,
      '(d, data) ← translate_func disable_gc (rt_indexes s) (type_indexes s) f.2 env data; Ok (fs ++ [d], data))
     ([], data) (W.functions program);
  main ← insert_generated_main (W.globals program) env (rt_indexes s);
  (* the builder adds the signatures of the functions that it is given *)
  let types := foldl (λ tys f, (push_signature tys (signature f)).1) (ix_types s) (fs ++ [main]) in
  Ok (mkModule types (ix_imports s) globals (seq 0 num_functions) fs main data num_functions).
End parity.
