(* ===== verification/WasmConditions.v ===== *)
(** The conditions under which NotWasm code is translated to valid WebAssembly:
    the WebAssembly types of atoms and expressions, and how control leaves
    statements. *)
From S2P Require Import Prelude Types Operators NotWasm Wasm Translation.
Import V(ValueType).

(** What a name stands for in the code that is generated. *)
Inductive kind : Type :=
  | KLocal (ty : N.typ)
  | KGlobal (is_mut : bool) (ty : N.typ)
  | KFun (sg : sig).
Definition kind_wasm (k : kind) : ValueType :=
  match k with KLocal ty | KGlobal _ ty => as_wasm ty | KFun _ => V.I32 end.
Abbreviation kenv := (gmap Id kind).

(** How control leaves a statement: at its end, not at its end, or at its end
    with the result of the function on the stack. *)
Inductive eff : Type := Fall | Dead | Val.
#[global] Instance eff_eq_dec : EqDecision eff.
Proof. solve_decision. Defined.
Definition seq_eff (e1 e2 : eff) : eff :=
  match e1, e2 with Dead, Val => Val | Dead, _ => Dead | _, e2 => e2 end.

Section check.
Context (disable_gc : bool) (rt_indexes : gmap string nat) (type_indexes : FuncTypeMap).
(** The types and the functions of the module, and the parameters of the function. *)
Context (types : list sig) (funcs : list sig) (params : list ValueType).

(** ** What can be translated

    The WebAssembly types of atoms and expressions. *)
Definition rt_sig (name : string) : option sig := i ← rt_indexes !! name; funcs !! i.
Definition call_rt (name : string) (ws : list ValueType) : option (option ValueType) :=
  '(ts, r) ← rt_sig name; if decide (ts = ws) then Some r else None.
Definition value_rt (name : string) (ws : list ValueType) : option ValueType := r ← call_rt name ws; r.

Definition to_any_name (ty : N.typ) : option string :=
  match ty with
  | N.I32 => Some "any_from_i32" | N.Bool => Some "any_from_bool" | N.F64 => Some "f64_to_any"
  | N.Fn _ _ => Some "any_from_fn" | N.Closure _ _ => Some "any_from_closure" | N.Any => None
  | _ => Some "any_from_ptr"
  end%string.
Definition from_any_name (ty : N.typ) : option (option string) :=
  match ty with
  | N.I32 => Some (Some "any_to_i32") | N.Bool => Some (Some "any_to_bool") | N.F64 => Some (Some "any_to_f64")
  | N.Fn _ _ => None | N.Closure _ _ => Some (Some "any_to_closure") | N.Any => Some None
  | _ => Some (Some "any_to_ptr")
  end%string.
Definition convert (name : option string) (w : ValueType) : option ValueType :=
  match name with None => Some w | Some name => value_rt name [w] end.
Definition to_any_wasm (ty : N.typ) (w : ValueType) : option ValueType := convert (to_any_name ty) w.
Definition from_any_wasm (ty : N.typ) (w : ValueType) : option ValueType := name ← from_any_name ty; convert name w.

(** An indirect call. *)
Definition indirect (ty : N.typ) : option sig :=
  match ty with
  | N.Fn args r | N.Closure args r =>
      let typs := (types_as_wasm args, option_as_wasm r) in
      i ← type_indexes !! typs;
      if decide (types !! i = Some typs) then Some typs else None
  | _ => None
  end.
Definition is_true (b : bool) : option unit := if b then Some tt else None.

Section scope.
Context (T : kenv).
Definition id_wasm (x : Id) : option ValueType := kind_wasm <$> T !! x.
Definition notwasm_sig (name : string) : option sig :=
  match T !! Named name with Some (KFun sg) => Some sg | _ => None end.

Definition closure_call_wasm (ty : N.typ) (args : list ValueType) : option ValueType :=
  _ ← is_true (match ty with N.Closure _ _ => true | _ => false end);
  env ← value_rt "closure_env" [as_wasm ty];
  f ← value_rt "closure_func" [as_wasm ty];
  '(ts, r) ← indirect ty;
  _ ← is_true (bool_decide (ts = env :: args) && bool_decide (f = V.I32));
  r.

Definition shadow_ok (ty : N.typ) : bool :=
  disable_gc || negb (N.is_gc_root ty) || bool_decide (call_rt (shadow_frame_fn ty) [as_wasm ty; V.I32] = Some None).

(** The branch for one type of receiver. *)
Definition typed_call_wasm (args : list ValueType) (typs : list N.typ) (method : string) (typ : N.typ) : option unit :=
  match find_receiver typ typs with
  | Ok None => Some tt
  | Ok (Some (N.Fn arg_typs result_typ)) =>
      ws ← mapM (λ p, from_any_wasm p.2 p.1) (zip args arg_typs);
      r ← call_rt (N.display typ +:+ "_" +:+ method) ws;
      match result_typ, r with
      | Some ty, Some w => w ← to_any_wasm ty w; is_true (bool_decide (w = V.I64))
      | None, None => Some tt
      | _, _ => None
      end
  | _ => None
  end.
Definition object_method_wasm (args : list ValueType) (do_call : bool) : option ValueType :=
  o ← from_any_wasm N.DynObject V.I64;
  v ← value_rt "object_get" [o; V.I32; V.I32];
  if do_call then
    let ty := N.Closure (N.Env :: replicate (length args) N.Any) (Some N.Any) in
    f ← from_any_wasm ty v;
    _ ← is_true (bool_decide (f = V.I64) && shadow_ok ty);
    closure_call_wasm ty args
  else Some v.
Definition any_method_wasm (any : ValueType) (method_lit : W.Lit) (args : list ValueType) (typs : list N.typ)
    (do_call : bool) : option ValueType :=
  match method_lit with
  | W.LInterned m _ =>
      _ ← is_true (bool_decide (any = V.I64));
      _ ← typed_call_wasm args typs m N.Array;
      _ ← typed_call_wasm args typs m N.String;
      w ← object_method_wasm args do_call;
      _ ← is_true (bool_decide (w = V.I64));
      Some V.I64
  | _ => None
  end.

Definition lit_wasm (l : W.Lit) : option ValueType :=
  match l with
  | W.LI32 _ | W.LBool _ | W.LInterned _ _ => Some V.I32
  | W.LF64 _ => Some V.F64
  | W.LString _ => None
  | W.LUndefined => value_rt "get_undefined" []
  | W.LNull => value_rt "get_null" []
  end.
Definition unop_wasm (op : UnaryOp) (w : ValueType) : option ValueType :=
  match op with
  | Sqrt | F64Neg => if decide (w = V.F64) then Some V.F64 else None
  | I32Neg | I32Not | Eqz => if decide (w = V.I32) then Some V.I32 else None
  | Nop => Some w
  end.
Definition binop_wasm (op : BinaryOp) (w1 w2 : ValueType) : option ValueType :=
  '(ts, r) ← Valid.op_type (Valid.mkCtx [] [] [] [] None) (binop_instruction op);
  if decide (ts = [w1; w2]) then r else None.
Definition prim_name (x : Id) : option string := match x with Named s => Some s | _ => None end.

Fixpoint atom_wasm (a : W.Atom) : option ValueType :=
  match a with
  | W.Deref a ty _ => w ← atom_wasm a; if decide (w = V.I32) then Some (as_wasm ty) else None
  | W.ALit l _ => lit_wasm l
  | W.AId x _ => id_wasm x
  | W.PrimApp x args _ => ws ← mapM atom_wasm args; name ← prim_name x; value_rt name ws
  | W.GetPrimFunc x _ => name ← prim_name x; _ ← rt_indexes !! name; Some V.I32
  | W.ToAny a ty _ => w ← atom_wasm a; ty ← ty; to_any_wasm ty w
  | W.FromAny a ty _ => w ← atom_wasm a; from_any_wasm ty w
  | W.FloatToInt a _ => w ← atom_wasm a; if decide (w = V.F64) then Some V.I32 else None
  | W.IntToFloat a _ => w ← atom_wasm a; if decide (w = V.I32) then Some V.F64 else None
  | W.ObjectGet o f _ => o ← atom_wasm o; f ← atom_wasm f; value_rt "object_get" [o; f; V.I32]
  | W.AnyLength any l _ =>
      w ← id_wasm any;
      any_method_wasm w l [w] [N.Fn [N.String] (Some N.I32); N.Fn [N.Array] (Some N.I32)] false
  | W.Binary op a b _ => w1 ← atom_wasm a; w2 ← atom_wasm b; binop_wasm op w1 w2
  | W.Unary op a _ => w ← atom_wasm a; unop_wasm op w
  | W.EnvGet _ ty _ =>
      if decide (params !! 0%nat = Some V.I32) then
        Some (if decide (as_wasm ty = V.I64) then V.I64 else V.I32)
      else None
  end.

(** Stores the values [env] in the environment of type [e]. *)
Fixpoint env_wasm (e : ValueType) (env : list (W.Atom * N.typ)) : option unit :=
  match env with
  | [] => Some tt
  | (a, ty) :: env =>
      w ← atom_wasm a;
      w ← to_any_wasm ty w;
      e' ← value_rt "env_init_at" [e; V.I32; w];
      _ ← is_true (bool_decide (e' = e));
      env_wasm e env
  end.
Definition ref_new_wasm (ty : N.typ) (w : ValueType) : option ValueType :=
  match ref_new ty with Ok name => value_rt name [w] | _ => None end.
Definition expr_wasm (e : W.Expr) : option ValueType :=
  match e with
  | W.EAtom a _ => atom_wasm a
  | W.ArraySet a i v _ => wa ← atom_wasm a; wi ← atom_wasm i; wv ← atom_wasm v; value_rt "array_set" [wa; wi; wv]
  | W.ObjectSet o f v _ => wo ← atom_wasm o; wf ← atom_wasm f; wv ← atom_wasm v; value_rt "object_set" [wo; wf; wv; V.I32]
  | W.ObjectEmpty => '(ts, r) ← notwasm_sig "jnks_new_object"; if decide (ts = []) then r else None
  | W.PrimCall f args _ =>
      ws ← mapM id_wasm args;
      match @RTS.name never f with
      | Ok (RTS.Rust name) => value_rt name ws
      | Ok (RTS.NotWasm name) => '(ts, r) ← notwasm_sig name; if decide (ts = ws) then r else None
      | _ => None
      end
  | W.Call f args _ =>
      ws ← mapM id_wasm args;
      match T !! f with
      | Some (KFun (ts, r)) => if decide (ts = ws) then r else None
      | Some (KLocal (N.Fn _ _ as ty)) => '(ts, r) ← indirect ty; if decide (ts = ws) then r else None
      | _ => None
      end
  | W.AnyMethodCall any l args typs _ =>
      w ← id_wasm any; ws ← mapM id_wasm args; any_method_wasm w l ws typs true
  | W.ClosureCall f args _ =>
      ws ← mapM id_wasm args;
      match T !! f with
      | Some (KLocal ty | KGlobal _ ty) => closure_call_wasm ty ws
      | _ => None
      end
  | W.NewRef a ty _ => w ← atom_wasm a; ref_new_wasm ty w
  | W.Closure x env _ =>
      '(ts, r) ← notwasm_sig "jnks_new_fn_obj"; o ← r; _ ← is_true (bool_decide (ts = []));
      e ← value_rt "env_alloc" [V.I32; o];
      _ ← env_wasm e env;
      f ← id_wasm x;
      value_rt "closure_new" [e; f]
  end.
End scope.

(** Statements; declarations stay in scope to the end of the function, as they
    do in the translator. *)
Definition globals_frame_ok (ty : N.typ) : bool :=
  disable_gc || negb (N.is_gc_root ty) ||
  match get_set_in_globals_frame rt_indexes ty with
  | Ok (I.Call i) => bool_decide (funcs !! i = Some ([as_wasm ty; V.I32], None))
  | _ => false
  end.
Definition assign_wasm (T : kenv) (x : Id) (w : ValueType) : option unit :=
  match T !! x with
  | Some (KLocal ty) => is_true (bool_decide (w = as_wasm ty) && shadow_ok ty)
  | Some (KGlobal is_mut ty) =>
      is_true (bool_decide (w = as_wasm ty) && is_mut && globals_frame_ok ty)
  | _ => None
  end.
Definition var_wasm (T : kenv) (v : W.VarStmt) : option kenv :=
  ty ← W.var_ty v;
  _ ← is_true (bool_decide (W.var_id v ≠ Named "%mfn"));
  _ ← (if negb (bool_decide (W.var_ty v = Some N.Any)) && is_undefined (W.var_named v) then Some tt
       else w ← expr_wasm T (W.var_named v); is_true (bool_decide (w = as_wasm ty) && shadow_ok ty));
  Some (<[W.var_id v := KLocal ty]> T).

Fixpoint stmt_wasm (T : kenv) (env : Env) (tail : bool) (st : W.Stmt) {struct st} : option (kenv * eff) :=
  match st with
  | W.Store x e _ =>
      match T !! x with
      | Some (KLocal (N.Ref b) | KGlobal _ (N.Ref b)) =>
          w ← expr_wasm T e; if decide (w = as_wasm b) then Some (T, Fall) else None
      | _ => None
      end
  | W.Empty => Some (T, Fall)
  | W.Block ss _ =>
      (fix go T ss :=
        match ss with
        | [] => Some (T, Fall)
        | [st] => stmt_wasm T env tail st
        | st :: ss =>
            '(T, e1) ← stmt_wasm T env false st;
            '(T, e2) ← go T ss;
            Some (T, seq_eff e1 e2)
        end) T ss
  | W.Var v _ => T ← var_wasm T v; Some (T, Fall)
  | W.Expression e _ => _ ← expr_wasm T e; Some (T, Fall)
  | W.Assign x e _ => w ← expr_wasm T e; _ ← assign_wasm T x w; Some (T, Fall)
  | W.If c s1 s2 _ =>
      w ← atom_wasm T c;
      _ ← is_true (bool_decide (w = V.I32));
      let env1 := push_front Unused env in
      '(T, e1) ← stmt_wasm T env1 tail s1;
      '(T, e2) ← stmt_wasm T env1 tail s2;
      if tail && bool_decide (is_Some (result_type env)) then
        if decide (e1 = Fall ∨ e2 = Fall) then None else Some (T, Val)
      else Some (T, Fall)
  | W.Loop b _ => '(T, _) ← stmt_wasm T (push_front Unused env) false b; Some (T, Fall)
  | W.Lbl (W.Named _ as l) b _ =>
      '(T, e) ← stmt_wasm T (push_front (Label l) env) tail b;
      if decide (e = Val) then None else Some (T, Fall)
  | W.Break l _ => _ ← index_of (Label l) (labels env); Some (T, Dead)
  | W.Return a _ =>
      _ ← is_true (disable_gc || bool_decide (call_rt "gc_exit_fn" [] = Some None));
      w ← atom_wasm T a;
      if decide (result_type env = None ∨ result_type env = Some w) then Some (T, Dead) else None
  | W.Trap => Some (T, Dead)
  | W.Lbl (W.App _) _ _ | W.Goto _ _ => None
  end.
End check.

(** A function, in the scope [T] of the functions and globals. *)
Definition bind_kinds (params : list (Id * N.typ)) (T : kenv) : kenv :=
  foldl (λ T p, <[p.1 := KLocal p.2]> T) T params.
Definition func_wasm (disable_gc : bool) (rt_indexes : gmap string nat) (type_indexes : FuncTypeMap)
    (types funcs : list sig) (T : kenv) (f : W.Function) : bool :=
  let args := N.args (W.fn_type f) in
  let ret := option_as_wasm (N.result (W.fn_type f)) in
  let T := bind_kinds (zip (W.fn_params f) args) T in
  bool_decide (length (W.fn_params f) = length args) &&
  (disable_gc || bool_decide (call_rt rt_indexes funcs "gc_enter_fn" [V.I32] = Some None) &&
                 bool_decide (call_rt rt_indexes funcs "gc_exit_fn" [] = Some None)) &&
  bool_decide (T !! Named "%mfn" = None) &&
  match stmt_wasm disable_gc rt_indexes type_indexes types funcs (types_as_wasm args) T (mkEnv [] ret) true (W.fn_body f) with
  | Some (_, e) => match ret with None => true | Some _ => bool_decide (e ≠ Fall) end
  | None => false
  end.

