(* ===== verification/TranslationTyping.v ===== *)
(** The code generator produces valid WebAssembly: the translation of code that
    meets the conditions of [WasmConditions] is accepted by validation. *)
From S2P Require Import Prelude Types Operators NotWasm Wasm Translation WasmConditions.
Import V(ValueType).

(** ** Validation of straight-line code *)
Import Valid(Ctx, mkCtx, Frame, mkFrame, push, pop, pops, pop_any, pop_opt, push_opt, step, run, op_type, label, ends, is_if, unreachable, with_stack, set_unreachable, stack, enter, leave).
Definition pushes (ts : list ValueType) (f : Frame) : Frame := foldl (λ f t, push t f) f ts.
Lemma pushes_app ts1 ts2 f : pushes (ts1 ++ ts2) f = pushes ts2 (pushes ts1 f).
Proof. apply foldl_app. Qed.
Lemma pushes_flags ts f :
  is_if (pushes ts f) = is_if f ∧ label (pushes ts f) = label f ∧ ends (pushes ts f) = ends f ∧
  unreachable (pushes ts f) = unreachable f.
Proof. unfold pushes. revert f. induction ts as [|t ts IH]; intros f; cbn; [done|]. destruct (IH (push t f)) as (-> & -> & -> & ->). done. Qed.
Lemma pop_push t f : pop t (push t f) = Some f.
Proof. unfold pop, push, with_stack. cbn. rewrite decide_True by done. by destruct f. Qed.
Lemma pop_any_push t f : pop_any (push t f) = Some f.
Proof. by destruct f. Qed.
Lemma pops_pushes ts f : pops ts (pushes ts f) = Some f.
Proof.
  unfold pops, pushes. revert f. induction ts as [|t ts IH]; intros f; cbn; [done|].
  rewrite IH. cbn. apply pop_push.
Qed.
Lemma push_opt_list r f : push_opt r f = pushes (option_list r) f.
Proof. by destruct r. Qed.

Lemma run_app c fs code1 code2 : run c fs (code1 ++ code2) = run c fs code1 ≫= λ fs, run c fs code2.
Proof.
  revert fs. induction code1 as [|i code1 IH]; intros fs; cbn; [done|]. destruct (step c fs i); cbn; [apply IH|done].
Qed.

Definition effect (c : Ctx) (code : list I.Instruction) (ins outs : list ValueType) : Prop :=
  ∀ f rest, run c (pushes ins f :: rest) code = Some (pushes outs f :: rest).
Lemma effect_nil c ts : effect c [] ts ts.
Proof. by intros f rest. Qed.
Lemma effect_app c code1 code2 ins mid outs :
  effect c code1 ins mid → effect c code2 mid outs → effect c (code1 ++ code2) ins outs.
Proof. intros H1 H2 f rest. rewrite run_app, H1. apply H2. Qed.
Lemma effect_frame c code pre ins outs : effect c code ins outs → effect c code (pre ++ ins) (pre ++ outs).
Proof. intros H f rest. rewrite !pushes_app. apply H. Qed.
Lemma step_op c i ts r f rest :
  op_type c i = Some (ts, r) → step c (f :: rest) i = f ← pops ts f; Some (push_opt r f :: rest).
Proof. intros H. destruct i; cbn in *; try done; rewrite ?H; try (simplify_eq; done). Qed.
Lemma effect_op c i ts r : op_type c i = Some (ts, r) → effect c [i] ts (option_list r).
Proof.
  intros H f rest. cbn [run]. rewrite (step_op _ _ _ _ _ _ H), pops_pushes. cbn. by rewrite push_opt_list.
Qed.
Lemma effect_drop c t : effect c [I.Drop] [t] [].
Proof. intros f rest. by destruct f. Qed.

(** ** The state of the translator *)
Section valid.
Context (disable_gc : bool) (rt_indexes : gmap string nat) (type_indexes : FuncTypeMap).
Context (types_ funcs_ : list sig) (gs : list (ValueType * bool)) (params : list ValueType) (ret_ : option ValueType).
(** The first global is the address of the data segment. *)
Hypothesis Hstrings : ∃ m, gs !! JNKS_STRINGS_IDX = Some (V.I32, m).
(** The context in which the function is validated, with all its locals. *)
Definition ctx (L : list ValueType) : Ctx := mkCtx types_ funcs_ gs L ret_.
Definition all_locals (t : Translate) : list ValueType := params ++ locals t.

Definition mfn : Id := Named "%mfn".
(** [t] knows the names of [T]. *)
Definition binds (t : Translate) (x : Id) (k : kind) : Prop :=
  match k with
  | KLocal ty => ∃ n, id_env t !! x = Some (Local n ty) ∧ all_locals t !! n = Some (as_wasm ty)
  | KGlobal is_mut ty => ∃ n, id_env t !! x = Some (Global n ty) ∧ gs !! n = Some (as_wasm ty, is_mut) ∧ Z.of_nat n < 2 ^ 31
  | KFun sg => ∃ n, id_env t !! x = Some (IFun n) ∧ funcs_ !! (n + size rt_indexes)%nat = Some sg
  end.
Definition agree (T : kenv) (t : Translate) : Prop :=
  next_id t = length (all_locals t) ∧ map_Forall (binds t) T.

(** [t'] comes after [t], with the same variables of [T]. *)
Definition grows (T : kenv) (t t' : Translate) : Prop :=
  locals t `prefix_of` locals t' ∧ ∀ x, is_Some (T !! x) → id_env t' !! x = id_env t !! x.
#[local] Instance grows_preorder T : PreOrder (grows T).
Proof.
  split; [by split|]. intros t1 t2 t3 [L1 E1] [L2 E2]. split; [by etrans|]. intros x Hx. by rewrite E2, E1.
Qed.
Lemma binds_grows T t t' x k : grows T t t' → is_Some (T !! x) → binds t x k → binds t' x k.
Proof.
  intros [Hl He] Hx. unfold binds, all_locals. rewrite He by done. destruct k; [|done|done].
  intros (n & Hn & Ht). exists n. split; [done|]. eapply prefix_lookup_Some; [done|]. by apply prefix_app.
Qed.
Lemma agree_grows T t t' : grows T t t' → next_id t' = length (all_locals t') → agree T t → agree T t'.
Proof.
  intros Hg Hn (_ & Hb). split; [done|]. intros x k Hx. eapply binds_grows; [done|by eexists|by apply Hb].
Qed.

(** The step from [t] to [m] emits code with the given effect on the operands
    and takes at most [n] locals. *)
Definition does (T : kenv) (n : nat) (t : Translate) (m : tr) (ins outs : list ValueType) : Prop :=
  agree T t → Z.of_nat (next_id t + n) <= 2 ^ 31 →
  ∃ t' code, m = Ok t' ∧ out t' = out t ++ code ∧ grows T t t' ∧ agree T t' ∧ (next_id t' <= next_id t + n)%nat ∧
    ∀ L, all_locals t' `prefix_of` L → effect (ctx L) code ins outs.

Lemma does_ret T t ts : does T 0 t (Ok t) ts ts.
Proof. intros Ha Hr. exists t, []. rewrite app_nil_r.
  split_and!; [done..|reflexivity|done|lia|]. intros. apply effect_nil. Qed.
Lemma does_bind T n1 n2 t m k ins mid outs :
  does T n1 t m ins mid → (∀ t', grows T t t' → agree T t' → does T n2 t' (k t') mid outs) →
  does T (n1 + n2) t (m ≫= k) ins outs.
Proof.
  intros H1 H2 Ha Hr. destruct H1 as (t1 & code1 & -> & Ho1 & Hg1 & Ha1 & Hn1 & He1); [done|lia|]. cbn.
  destruct (H2 t1 Hg1 Ha1) as (t2 & code2 & -> & Ho2 & Hg2 & Ha2 & Hn2 & He2); [done|lia|].
  exists t2, (code1 ++ code2). rewrite Ho2, Ho1, app_assoc. split_and!; try done; [by etrans|lia|].
  intros L HL. eapply effect_app; [apply He1|by apply He2].
  etrans; [|exact HL]. destruct Hg2 as [Hl _]. by apply prefix_app.
Qed.
Lemma does_frame T n t m pre ins outs : does T n t m ins outs → does T n t m (pre ++ ins) (pre ++ outs).
Proof.
  intros H Ha Hr. destruct (H Ha Hr) as (t' & code & ? & ? & ? & ? & ? & He). exists t', code.
  split_and!; try done. intros L HL. by apply effect_frame, He.
Qed.
Lemma does_more T n1 n2 t m ins outs : (n1 <= n2)%nat → does T n1 t m ins outs → does T n2 t m ins outs.
Proof.
  intros Hn H Ha Hr. destruct H as (t' & code & ? & ? & ? & ? & ? & He); [done|lia|]. exists t', code.
  split_and!; try done. lia.
Qed.

Lemma grows_emit T t i : grows T t (emit i t).
Proof. by split. Qed.
Lemma agree_emit T t i : agree T t → agree T (emit i t).
Proof. by intros (? & ?). Qed.
(** One instruction. *)
Lemma does_emit T t i ins outs :
  (∀ L, all_locals t `prefix_of` L → effect (ctx L) [i] ins outs) → does T 0 t (Ok (emit i t)) ins outs.
Proof. intros H Ha Hr. exists (emit i t), [i]. split_and!; try done; cbn; lia. Qed.
Lemma does_op T t i ts r :
  (∀ L, all_locals t `prefix_of` L → op_type (ctx L) i = Some (ts, r)) → does T 0 t (Ok (emit i t)) ts (option_list r).
Proof. intros H. apply does_emit. intros L HL. by apply effect_op, H. Qed.

Lemma emits_app l1 l2 t : emits (l1 ++ l2) t = emits l2 (emits l1 t).
Proof. apply foldl_app. Qed.
Lemma emits_fields l t :
  out (emits l t) = out t ++ l ∧ data (emits l t) = data t ∧ locals (emits l t) = locals t ∧
  next_id (emits l t) = next_id t ∧ id_env (emits l t) = id_env t.
Proof.
  unfold emits. revert t. induction l as [|i l IH]; intros t; cbn; [by rewrite app_nil_r|].
  destruct (IH (emit i t)) as (-> & -> & -> & -> & ->). cbn. by rewrite <- app_assoc.
Qed.
Lemma does_emits T t l ins outs :
  (∀ L, all_locals t `prefix_of` L → effect (ctx L) l ins outs) → does T 0 t (Ok (emits l t)) ins outs.
Proof.
  intros H (Hn & Hb) Hr. destruct (emits_fields l t) as (Ho & _ & Hl & Hi & He).
  exists (emits l t), l. unfold agree, grows, binds, all_locals in *. rewrite Ho, Hl, Hi, He.
  split_and!; try done; lia.
Qed.

(** Push a value and go on. *)
Lemma does_push T n1 n2 t m k ts w outs :
  does T n1 t m [] [w] → (∀ t', grows T t t' → agree T t' → does T n2 t' (k t') (ts ++ [w]) outs) →
  does T (n1 + n2) t (m ≫= k) ts outs.
Proof.
  intros H1 H2. eapply does_bind; [|exact H2]. rewrite <- (app_nil_r ts) at 1. by apply does_frame.
Qed.

(** ** Calls to the runtime *)
Lemma rt_call_does T t name ws r :
  call_rt rt_indexes funcs_ name ws = Some r → does T 0 t (rt_call rt_indexes name t) ws (option_list r).
Proof.
  unfold call_rt, rt_sig, rt_call. destruct (rt_indexes !! name) as [i|]; cbn; [|done].
  destruct (funcs_ !! i) as [[ts r']|] eqn:Hi; cbn; [|done]. case_decide; [|done]. intros [= ->]. subst.
  by apply does_op.
Qed.
Lemma value_rt_does T t name ws w :
  value_rt rt_indexes funcs_ name ws = Some w → does T 0 t (rt_call rt_indexes name t) ws [w].
Proof. unfold value_rt. intros (r & Hr & ->)%bind_Some. by apply (rt_call_does T t name ws (Some w)). Qed.
Lemma to_any_does T t ty w w' :
  to_any_wasm rt_indexes funcs_ ty w = Some w' → does T 0 t (to_any rt_indexes ty t) [w] [w'].
Proof.
  unfold to_any_wasm. destruct ty; cbn; intros H; simplify_eq; try (by apply value_rt_does); apply does_ret.
Qed.
Lemma from_any_does T t ty w w' :
  from_any_wasm rt_indexes funcs_ ty w = Some w' → does T 0 t (from_any rt_indexes ty t) [w] [w'].
Proof.
  unfold from_any_wasm. destruct ty; cbn; intros H; simplify_eq; try (by apply value_rt_does); apply does_ret.
Qed.

(** ** Variables *)
Definition kind_ty (k : kind) : option N.typ :=
  match k with KLocal ty | KGlobal _ ty => Some ty | KFun _ => None end.
Lemma get_id_ok t x k :
  binds t x k →
  ∃ i, get_id rt_indexes x t = Ok (kind_ty k, emit i t) ∧
    ∀ L, all_locals t `prefix_of` L → op_type (ctx L) i = Some ([], Some (kind_wasm k)).
Proof.
  unfold get_id. destruct k as [ty|m ty|sg]; cbn.
  - intros (n & -> & Hn). eexists. split; [done|]. intros L HL. cbn.
    by rewrite (prefix_lookup_Some _ _ _ _ Hn HL).
  - intros (n & -> & Hn & _). eexists. split; [done|]. intros L HL. cbn. by rewrite Hn.
  - intros (n & -> & _). eexists. by split.
Qed.
Lemma does_get_id T n t x k K ts outs :
  T !! x = Some k →
  (∀ t', grows T t t' → agree T t' → does T n t' (K (kind_ty k, t')) (ts ++ [kind_wasm k]) outs) →
  does T n t (get_id rt_indexes x t ≫= K) ts outs.
Proof.
  intros Hx HK Ha. destruct (get_id_ok t x k (proj2 Ha x k Hx)) as (i & -> & Hi). cbn. revert Ha.
  change (does T (0 + n) t (K (kind_ty k, emit i t)) ts outs).
  change (K (kind_ty k, emit i t)) with ((Ok (emit i t) : tr) ≫= λ t, K (kind_ty k, t)).
  eapply does_push; [by eapply (does_op T t i [] (Some (kind_wasm k)))|done].
Qed.
Lemma get_ids_does T xs t ws : mapM (id_wasm T) xs = Some ws → does T 0 t (get_ids rt_indexes xs t) [] ws.
Proof.
  intros H%mapM_Some. revert t. induction H as [|x w xs ws Hw _ IH]; intros t; unfold get_ids; cbn [foldM].
  - apply does_ret.
  - apply fmap_Some in Hw as (k & Hx & ->). change (0%nat) with (0 + 0)%nat.
    eapply (does_bind T 0 0 t _ _ [] [kind_wasm k] _).
    + eapply (does_get_id T 0 t x k _ []); [done|]. intros t' _ _. apply does_ret.
    + intros t' _ _. apply (does_frame T 0 t' _ [kind_wasm k] [] ws). apply IH.
Qed.
Lemma get_id_value T t x w :
  id_wasm T x = Some w → does T 0 t ('(_, t) ← get_id rt_indexes x t; Ok t) [] [w].
Proof.
  intros (k & Hx & ->)%fmap_Some. eapply (does_get_id T 0 t x k _ []); [done|]. intros t' _ _. apply does_ret.
Qed.

Lemma load_does T ty offset t : does T 0 t (Ok (load ty offset t)) [V.I32] [as_wasm ty].
Proof. unfold load. destruct ty; by apply (does_op T t _ [V.I32] (Some _)). Qed.
Lemma store_does T ty offset t : does T 0 t (Ok (store ty offset t)) [V.I32; as_wasm ty] [].
Proof. unfold store. destruct ty; by apply (does_op T t _ [V.I32; _] None). Qed.
Lemma const_effect c i : effect c [I.I32Const i] [] [V.I32].
Proof. by eapply (effect_op c _ [] (Some V.I32)). Qed.
(** The address of a constant in the data segment. *)
Lemma address_effect L a : effect (ctx L) [I.GetGlobal JNKS_STRINGS_IDX; I.I32Const a; I.I32Add] [] [V.I32].
Proof.
  destruct Hstrings as [m Hm].
  apply (effect_app _ [I.GetGlobal JNKS_STRINGS_IDX] [I.I32Const a; I.I32Add] [] [V.I32] _).
  - eapply (effect_op _ _ [] (Some V.I32)). cbn. by rewrite Hm.
  - apply (effect_app _ [I.I32Const a] [I.I32Add] [V.I32] [V.I32; V.I32] _).
    + apply (effect_frame _ _ [V.I32] [] [V.I32]), const_effect.
    + by eapply (effect_op _ _ [V.I32; V.I32] (Some V.I32)).
Qed.
Lemma data_cache_does T t : does T 0 t (Ok (data_cache t)) [] [V.I32].
Proof.
  intros Ha Hr. destruct (does_emits T t [I.GetGlobal JNKS_STRINGS_IDX; I.I32Const (as_i32 (length (data t))); I.I32Add] [] [V.I32])
    as (t' & code & [= <-] & Ho & Hg & Ha' & Hn & He); [intros; apply address_effect|done|done|].
  exists (data_cache t), code. by split_and!.
Qed.

(** ** Assignments *)
Lemma i32_try_from_ok n : Z.of_nat n < 2 ^ 31 → i32_try_from (E := never) n = Ok (Z.of_nat n).
Proof. intros H. unfold i32_try_from. by rewrite bool_decide_true. Qed.

(** Set a local and its slot in the shadow frame. *)
Lemma set_local_does T t n ty :
  all_locals t !! n = Some (as_wasm ty) → shadow_ok disable_gc rt_indexes funcs_ ty = true → Z.of_nat n < 2 ^ 31 →
  does T 0 t (if disable_gc || negb (N.is_gc_root ty) then Ok (emit (I.SetLocal n) t)
              else slot ← i32_try_from n;
                   set_in_current_shadow_frame_slot rt_indexes ty (emit (I.I32Const slot) (emit (I.TeeLocal n) t)))
    [as_wasm ty] [].
Proof.
  intros Hl Hs Hn. unfold shadow_ok in Hs. destruct (disable_gc || negb (N.is_gc_root ty)) eqn:Hgc; cbn in Hs.
  - apply (does_op T t _ [as_wasm ty] None). intros L HL. cbn. by rewrite (prefix_lookup_Some _ _ _ _ Hl HL).
  - rewrite i32_try_from_ok by done. cbn [mbind comp_bind]. apply bool_decide_eq_true in Hs.
    change (0%nat) with (0 + (0 + 0))%nat.
    change (set_in_current_shadow_frame_slot rt_indexes ty (emit (I.I32Const (Z.of_nat n)) (emit (I.TeeLocal n) t))) with
      ((Ok (emit (I.TeeLocal n) t) : tr) ≫= λ t, (Ok (emit (I.I32Const (Z.of_nat n)) t) : tr) ≫=
        λ t, rt_call rt_indexes (shadow_frame_fn ty) t).
    eapply (does_bind T 0 (0 + 0) t _ _ [as_wasm ty] [as_wasm ty] []).
    + apply (does_op T t _ [as_wasm ty] (Some (as_wasm ty))). intros L HL. cbn.
      by rewrite (prefix_lookup_Some _ _ _ _ Hl HL).
    + intros t' _ _. eapply (does_push T 0 0 t' _ _ [as_wasm ty]).
      * apply does_emit. intros. apply const_effect.
      * intros t'' _ _. by apply (rt_call_does T t'' _ [as_wasm ty; V.I32] None).
Qed.

Lemma all_locals_grows T t t' n ty : grows T t t' → all_locals t !! n = Some ty → all_locals t' !! n = Some ty.
Proof. intros [Hl _] Hn. eapply prefix_lookup_Some; [done|]. by apply prefix_app. Qed.

(** The value [w] may be assigned to the variable. *)
Definition assignable (k : kind) (w : ValueType) : Prop :=
  match k with
  | KLocal ty => w = as_wasm ty ∧ shadow_ok disable_gc rt_indexes funcs_ ty = true
  | KGlobal m ty =>
      w = as_wasm ty ∧ m = true ∧
      globals_frame_ok disable_gc rt_indexes funcs_ ty = true
  | KFun _ => False
  end.
Lemma globals_frame_call ty :
  globals_frame_ok disable_gc rt_indexes funcs_ ty = true →
  disable_gc || negb (N.is_gc_root ty) = true ∨
  ∃ i, get_set_in_globals_frame rt_indexes ty = Ok (I.Call i) ∧ funcs_ !! i = Some ([as_wasm ty; V.I32], None).
Proof.
  unfold globals_frame_ok. intros Hg. destruct (disable_gc || negb (N.is_gc_root ty)); [by left|]. cbn in Hg. right.
  destruct (get_set_in_globals_frame rt_indexes ty) as [[]| |]; try done. case_bool_decide; [|done]. eauto.
Qed.
Lemma assign_wasm_ok T x w :
  assign_wasm disable_gc rt_indexes funcs_ T x w = Some tt → ∃ k, T !! x = Some k ∧ assignable k w.
Proof.
  unfold assign_wasm. destruct (T !! x) as [[ty|m ty|sg]|]; cbn; [| |done..].
  - case_bool_decide; cbn; [|done]. destruct (shadow_ok _ _ _ ty) eqn:Hs; [|done]. intros _. eexists. by split.
  - case_bool_decide; cbn; [|done]. destruct m; cbn; [|done]. destruct (globals_frame_ok _ _ _ ty) eqn:Hg; [|done].
    intros _. eexists. by split.
Qed.

Lemma set_global_does T t l m ty :
  gs !! l = Some (as_wasm ty, m) → Z.of_nat l < 2 ^ 31 → assignable (KGlobal m ty) (as_wasm ty) →
  does T 0 t (let t := emit (I.SetGlobal l) t in
      if negb disable_gc && N.is_gc_root ty then
        let t := emit (I.GetGlobal l) t in
        slot ← i32_try_from l;
        let t := emit (I.I32Const slot) t in
        call ← get_set_in_globals_frame rt_indexes ty;
        Ok (emit call t)
      else Ok t) [as_wasm ty] [].
Proof.
  intros Hl Hb (_ & -> & Hg). cbv zeta.
  assert (does T 0 t (Ok (emit (I.SetGlobal l) t)) [as_wasm ty] []) as Hset.
  { apply (does_op T t _ [as_wasm ty] None). intros L _. cbn. by rewrite Hl. }
  destruct (negb disable_gc && N.is_gc_root ty) eqn:Hgc; [|exact Hset].
  destruct (globals_frame_call ty Hg) as [Hg'|(i & -> & Hi)]; [by destruct disable_gc, (N.is_gc_root ty)|].
  rewrite i32_try_from_ok by done. cbn [mbind comp_bind].
  change (0%nat) with (0 + (0 + (0 + 0)))%nat.
  change (Ok (emit (I.Call i) (emit (I.I32Const (Z.of_nat l)) (emit (I.GetGlobal l) (emit (I.SetGlobal l) t)))) : tr) with
    ((Ok (emit (I.SetGlobal l) t) : tr) ≫= λ t, (Ok (emit (I.GetGlobal l) t) : tr) ≫= λ t,
       (Ok (emit (I.I32Const (Z.of_nat l)) t) : tr) ≫= λ t, (Ok (emit (I.Call i) t) : tr)).
  eapply does_bind; [exact Hset|]. intros t1 _ _. eapply (does_push T 0 _ t1 _ _ []).
  { apply (does_op T t1 _ [] (Some _)). intros L _. cbn. by rewrite Hl. }
  intros t2 _ _. eapply (does_push T 0 _ t2 _ _ [as_wasm ty]).
  { apply does_emit. intros. apply const_effect. }
  intros t3 _ _. apply (does_op T t3 _ [as_wasm ty; V.I32] None). intros L _. exact Hi.
Qed.

Lemma assign_does T n t x k expr w :
  T !! x = Some k → does T n t (expr t) [] [w] → assignable k w →
  does T n t (translate_assign disable_gc rt_indexes x expr t) [] [].
Proof.
  intros Hx He Hk Ha Hr. pose proof (proj2 Ha x k Hx) as Hb. revert Ha Hr. unfold translate_assign. rewrite <- (Nat.add_0_r n).
  destruct k as [ty|m ty|sg]; cbn in Hb; [| |done].
  - destruct Hb as (l & -> & Hl), Hk as [-> Hs].
    eapply (does_bind T n 0 t _ _ [] [as_wasm ty] []); [exact He|].
    intros t' Hg _ Ha' Hr'. pose proof (all_locals_grows _ _ _ _ _ Hg Hl) as Hl'.
    apply set_local_does; [done|done| |done|done]. apply lookup_lt_Some in Hl'. destruct Ha' as [Hn _]. lia.
  - destruct Hb as (l & -> & Hl & Hl31). assert (w = as_wasm ty) as -> by apply Hk.
    eapply (does_bind T n 0 t _ _ [] [as_wasm ty] []); [exact He|].
    intros t' _ _. by apply (set_global_does T t' l m ty).
Qed.

(** ** Closures and methods *)
Lemma get_ids_under T t xs ws pre : mapM (id_wasm T) xs = Some ws → does T 0 t (get_ids rt_indexes xs t) pre (pre ++ ws).
Proof. intros H. rewrite <- (app_nil_r pre) at 1. by apply does_frame, get_ids_does. Qed.

(** An indirect call takes its arguments and the index of the function. *)
Lemma call_indirect_does T t i sg r :
  types_ !! i = Some sg → sg.2 = Some r → does T 0 t (Ok (emit (I.CallIndirect i 0) t)) (sg.1 ++ [V.I32]) [r].
Proof.
  intros Hi Hr. destruct sg as [ts r']. cbn in *. subst r'.
  apply (does_op T t _ (ts ++ [V.I32]) (Some r)). intros L _. cbn. by rewrite Hi.
Qed.
Lemma indirect_ok args r sg ty :
  ty = N.Fn args r ∨ ty = N.Closure args r → indirect type_indexes types_ ty = Some sg →
  sg = (types_as_wasm args, option_as_wasm r) ∧ ∃ i, type_indexes !! sg = Some i ∧ types_ !! i = Some sg.
Proof.
  intros Hty H. assert (indirect type_indexes types_ (N.Fn args r) = Some sg) as Hi by (destruct Hty as [-> | ->]; done).
  cbn in Hi. apply bind_Some in Hi as (i & Hi & Ht). case_decide; [|done]. simplify_eq. split; [done|]. by exists i.
Qed.
Lemma closure_call_does T t f k args ws w :
  T !! f = Some k → mapM (id_wasm T) args = Some ws →
  (ty ← kind_ty k; closure_call_wasm rt_indexes type_indexes types_ funcs_ ty ws) = Some w →
  does T 0 t (translate_closure_call rt_indexes type_indexes f args t) [] [w].
Proof.
  intros Hf Hws (ty & Hty & H)%bind_Some. unfold closure_call_wasm in H.
  apply bind_Some in H as ([] & Hc & H). destruct ty as [| | | | | | | | |cargs cres| | |]; try done. clear Hc.
  apply bind_Some in H as (env & Henv & H). apply bind_Some in H as (fn & Hfn & H).
  apply bind_Some in H as ([ts r] & Hsg & H). apply bind_Some in H as ([] & Hcond & ->).
  unfold is_true in Hcond. case_bool_decide; [|done]. case_bool_decide; [|done]. subst.
  destruct (indirect_ok cargs cres _ _ (or_intror eq_refl) Hsg) as (Heq & i & Hi & Hti).
  assert (kind_wasm k = as_wasm (N.Closure cargs cres)) as Hkw by (destruct k; by simplify_eq/=).
  unfold translate_closure_call. change 0%nat with (0 + (0 + (0 + (0 + 0))))%nat.
  eapply (does_get_id T _ t f k _ []); [done|]. intros t1 _ _. rewrite Hty. cbn [expect mbind comp_bind app].
  rewrite Hkw. eapply does_bind; [by apply value_rt_does|]. intros t2 _ _.
  rewrite <- Heq, Hi. cbn [expect mbind comp_bind].
  eapply does_bind; [by apply (get_ids_under T t2 args ws [env])|]. intros t3 _ _.
  eapply (does_get_id T _ t3 f k _ ([env] ++ ws)); [done|]. intros t4 _ _. rewrite Hkw.
  eapply does_bind; [apply does_frame; by apply value_rt_does|]. intros t5 _ _.
  by apply (call_indirect_does T t5 i (env :: ws, Some w)).
Qed.

Lemma typed_args_does T t args ws arg_typs cs :
  mapM (id_wasm T) args = Some ws →
  mapM (λ p, from_any_wasm rt_indexes funcs_ p.2 p.1) (zip ws arg_typs) = Some cs →
  does T 0 t (foldM (λ t p, '(_, t) ← get_id rt_indexes p.1 t; from_any rt_indexes p.2 t) t (zip args arg_typs)) [] cs.
Proof.
  intros Hws%mapM_Some. revert t arg_typs cs.
  induction Hws as [|x w args ws Hx _ IH]; intros t arg_typs cs H%mapM_Some; [inversion H; subst; apply does_ret|].
  destruct arg_typs as [|ty arg_typs]; cbn in H; inversion H as [|? c ? cs' Hc Hcs]; subst; [apply does_ret|].
  cbn [zip zip_with foldM fst snd] in *. change 0%nat with (0 + 0)%nat. apply fmap_Some in Hx as (k & Hk & ->).
  eapply (does_bind T 0 0 t _ _ [] [c] _).
  - eapply (does_get_id T 0 t x k _ []); [done|]. intros t' _ _. by apply from_any_does.
  - intros t' _ _. apply (does_frame T 0 t' _ [c] [] cs'). apply IH. by apply mapM_Some.
Qed.
Lemma typed_call_does T t args ws typs method index typ :
  mapM (id_wasm T) args = Some ws → all_locals t !! index = Some V.I64 →
  typed_call_wasm rt_indexes funcs_ ws typs method typ = Some tt →
  does T 0 t (typed_call rt_indexes args typs method index typ t) [] [].
Proof.
  intros Hws Hi H. unfold typed_call_wasm in H. unfold typed_call.
  destruct (find_receiver typ typs) as [[ty|]| |]; [|apply does_ret|done|done]. cbn [mbind comp_bind].
  destruct ty as [| | | | | | |arg_typs result_typ| | | | |]; try done. cbn [N.unwrap_fun mbind comp_bind].
  apply bind_Some in H as (cs & Hcs & H). apply bind_Some in H as (r & Hr & H).
  change 0%nat with (0 + (0 + (0 + 0)))%nat.
  eapply (does_bind T 0 _ t _ _ [] cs); [by eapply typed_args_does|]. intros t1 Hg1 _.
  eapply (does_bind T 0 _ t1 _ _ cs (option_list r)); [by apply rt_call_does|]. intros t2 Hg2 _.
  destruct result_typ as [ty|], r as [w|]; try done; [|apply does_ret].
  apply bind_Some in H as (w' & Hw' & H). unfold is_true in H. case_bool_decide; [|done]. subst w'.
  eapply (does_bind T 0 0 t2 _ _ [w] [V.I64]); [by apply to_any_does|]. intros t3 Hg3 _.
  apply (does_op T t3 _ [V.I64] None). intros L HL. cbn.
  assert (all_locals t3 !! index = Some V.I64) as Hi3 by
    (eapply all_locals_grows; [etrans; [exact Hg1|etrans; [exact Hg2|exact Hg3]]|done]).
  by rewrite (prefix_lookup_Some _ _ _ _ Hi3 HL).
Qed.

(** The access that [translate_object_method] makes. *)
Lemma dot_does T t any l s o v :
  id_wasm T any = Some V.I64 → (∃ m a, l = W.LInterned m a) →
  from_any_wasm rt_indexes funcs_ N.DynObject V.I64 = Some o →
  value_rt rt_indexes funcs_ "object_get" [o; V.I32; V.I32] = Some v →
  does T 0 t (translate_simple rt_indexes (W.ObjectGet (W.FromAny (W.AId any s) N.DynObject s) (W.ALit l s) s) t) [] [v].
Proof.
  intros Ha (m & a & ->) Ho Hv. unfold translate_simple. cbn [translate_atom_with translate_lit].
  change 0%nat with (0 + (0 + (0 + 0)))%nat.
  eapply (does_bind T _ _ t _ _ [] [o]).
  { change 0%nat with (0 + 0)%nat. eapply (does_bind T _ _ t _ _ [] [V.I64]); [by apply get_id_value|].
    intros t1 _ _. by apply from_any_does. }
  intros t1 _ _. eapply (does_push T _ _ t1 _ _ [o]).
  { apply does_emits. intros. apply address_effect. }
  intros t2 _ _. change (rt_call rt_indexes "object_get" (data_cache t2)) with
    ((Ok (data_cache t2) : tr) ≫= rt_call rt_indexes "object_get").
  eapply (does_push T 0 0 t2 _ _ [o; V.I32]); [apply data_cache_does|]. intros t3 _ _. by apply value_rt_does.
Qed.
Lemma ids_wasm_mono T T' xs ws : T ⊆ T' → mapM (id_wasm T) xs = Some ws → mapM (id_wasm T') xs = Some ws.
Proof.
  intros Hs H%mapM_Some. apply mapM_Some. eapply Forall2_impl; [exact H|]. intros x w (k & Hk & ->)%fmap_Some.
  unfold id_wasm. by rewrite (lookup_weaken _ _ _ _ Hk Hs).
Qed.
(** A name of the translator's own, declared for the code that follows. *)
Lemma does_scoped T n t m ins outs x ty :
  T !! x = None →
  (let t1 := bind_id x (Local (next_id t) ty) (new_local (as_wasm ty) t) in
   does (<[x := KLocal ty]> T) n t1 m ins outs) →
  does T (S n) t m ins outs.
Proof.
  cbv zeta. intros Hx H [Hn Hb] Hr. set (T' := <[x := KLocal ty]> T) in *.
  set (t1 := bind_id x (Local (next_id t) ty) (new_local (as_wasm ty) t)) in *.
  assert (grows T t t1) as Hg.
  { split; [by apply prefix_app_r|]. intros y [k Hk]. cbn. rewrite lookup_insert_ne; [done|]. intros <-. congruence. }
  assert (T ⊆ T') as Hsub by by apply insert_subseteq.
  assert (next_id t1 = length (all_locals t1)) as Hn1.
  { cbn. unfold all_locals in *. cbn. rewrite Hn, !length_app. cbn. lia. }
  destruct H as (t2 & code & -> & Ho & Hg2 & [Hn2 Hb2] & Hle & He); [|cbn; lia|].
  - split; [done|]. intros y k [[<- <-]|[Hne Hy]]%lookup_insert_Some.
    + exists (next_id t). cbn. rewrite lookup_insert_eq. split; [done|]. unfold all_locals. cbn.
      rewrite Hn. unfold all_locals. rewrite app_assoc. by rewrite list_lookup_middle.
    + eapply binds_grows; [exact Hg|by eexists|by apply Hb].
  - exists t2, code. split; [done|]. split; [done|]. destruct Hg as [Hg He1], Hg2 as [Hg2 He2]. split_and!; try done.
    + split; [by etrans|]. intros y [k Hk]. rewrite He2 by (eexists; by eapply lookup_weaken). apply He1. by eexists.
    + split; [done|]. intros y k Hk. apply Hb2. by eapply lookup_weaken.
    + cbn in Hle. lia.
Qed.
Lemma object_method_does T t any l args ws s do_call w :
  T !! mfn = None → id_wasm T any = Some V.I64 → (∃ m a, l = W.LInterned m a) → mapM (id_wasm T) args = Some ws →
  object_method_wasm disable_gc rt_indexes type_indexes types_ funcs_ ws do_call = Some w →
  does T (if do_call then 1 else 0) t
    (translate_object_method disable_gc rt_indexes type_indexes (translate_simple rt_indexes) any l args s do_call t) [] [w].
Proof.
  intros Hm Ha Hl Hws H. unfold object_method_wasm in H. apply bind_Some in H as (o & Ho & H).
  apply bind_Some in H as (v & Hv & H). unfold translate_object_method. destruct do_call; [|simplify_eq; by eapply dot_does].
  apply bind_Some in H as (f & Hf & H). apply bind_Some in H as ([] & Hc & H).
  unfold is_true in Hc. case_bool_decide; [|done]. cbn in Hc. subst f.
  assert (length ws = length args) as Hlen by (apply mapM_Some in Hws; symmetry; by eapply Forall2_length).
  rewrite Hlen in *. set (ty := N.Closure (N.Env :: replicate (length args) N.Any) (Some N.Any)) in *.
  destruct (shadow_ok disable_gc rt_indexes funcs_ ty) eqn:Hs; [|done].
  eapply (does_scoped T 0 t _ [] [w] mfn ty); [done|]. cbv zeta.
  change (Named "%mfn") with mfn. change (new_local V.I64 t) with (new_local (as_wasm ty) t).
  generalize (bind_id mfn (Local (next_id t) ty) (new_local (as_wasm ty) t)). intros t1.
  set (T' := <[mfn := KLocal ty]> T). assert (T ⊆ T') as Hsub by by apply insert_subseteq.
  assert (T' !! mfn = Some (KLocal ty)) as Hmfn by apply lookup_insert_eq.
  change 0%nat with (0 + 0)%nat. eapply (does_bind T' _ _ t1 _ _ [] []).
  - eapply assign_does; [exact Hmfn| |by split].
    unfold translate_simple. cbn [translate_atom_with]. change 0%nat with (0 + 0)%nat.
    eapply (does_bind T' _ _ t1 _ _ [] [v]); [eapply (dot_does T' t1 any l s); [|done..]|].
    + apply fmap_Some in Ha as (k & Hk & Hw). unfold id_wasm. rewrite (lookup_weaken _ _ _ _ Hk Hsub). cbn. by rewrite <- Hw.
    + intros t2 _ _. by apply from_any_does.
  - intros t2 _ _. eapply closure_call_does; [exact Hmfn|by eapply ids_wasm_mono|done].
Qed.

(** ** Code with branches *)

(** The step emits code with a given property, which may depend on the locals. *)
Definition makes (T : kenv) (n : nat) (t : Translate) (m : tr) (P : list ValueType → list I.Instruction → Prop) : Prop :=
  agree T t → Z.of_nat (next_id t + n) <= 2 ^ 31 →
  ∃ t' code, m = Ok t' ∧ out t' = out t ++ code ∧ grows T t t' ∧ agree T t' ∧ (next_id t' <= next_id t + n)%nat ∧
    ∀ L, all_locals t' `prefix_of` L → P L code.
Lemma makes_does T n t m ins outs : makes T n t m (λ L code, effect (ctx L) code ins outs) ↔ does T n t m ins outs.
Proof. done. Qed.
Lemma makes_weaken T n1 n2 t m (P Q : list ValueType → list I.Instruction → Prop) :
  (n1 <= n2)%nat → makes T n1 t m P → (∀ L code, all_locals t `prefix_of` L → P L code → Q L code) → makes T n2 t m Q.
Proof.
  intros Hn H HQ Ha Hr. destruct H as (t' & code & ? & ? & Hg & ? & ? & He); [done|lia|]. exists t', code.
  split_and!; try done; [lia|]. intros L HL. apply HQ; [|by apply He]. etrans; [|exact HL]. by apply prefix_app, Hg.
Qed.
Lemma makes_bind T n1 n2 t m k (P1 P2 : list ValueType → list I.Instruction → Prop) :
  makes T n1 t m P1 → (∀ t', grows T t t' → agree T t' → makes T n2 t' (k t') P2) →
  makes T (n1 + n2) t (m ≫= k) (λ L code, ∃ c1 c2, code = c1 ++ c2 ∧ P1 L c1 ∧ P2 L c2).
Proof.
  intros H1 H2 Ha Hr. destruct H1 as (t1 & code1 & -> & Ho1 & Hg1 & Ha1 & Hn1 & He1); [done|lia|]. cbn.
  destruct (H2 t1 Hg1 Ha1) as (t2 & code2 & -> & Ho2 & Hg2 & Ha2 & Hn2 & He2); [done|lia|].
  exists t2, (code1 ++ code2). rewrite Ho2, Ho1, app_assoc. split_and!; try done; [by etrans|lia|].
  intros L HL. exists code1, code2. split_and!; [done| |by apply He2].
  apply He1. etrans; [|exact HL]. by apply prefix_app, Hg2.
Qed.
Lemma makes_emits T t l : makes T 0 t (Ok (emits l t)) (λ _ code, code = l).
Proof.
  intros (Hn & Hb) Hr. destruct (emits_fields l t) as (Ho & _ & Hl & Hi & He).
  exists (emits l t), l. unfold agree, grows, binds, all_locals in *. rewrite Ho, Hl, Hi, He.
  split_and!; try done; lia.
Qed.
Lemma makes_local T n t m P ty :
  (all_locals (new_local ty t) !! next_id t = Some ty → makes T n (new_local ty t) m P) → makes T (S n) t m P.
Proof.
  intros H [Hn Hb] Hr. destruct H as (t' & code & ? & ? & [Hl He] & ? & Hle & ?).
  - unfold all_locals in *. cbn. rewrite Hn, app_assoc. by rewrite list_lookup_middle.
  - split; [unfold all_locals in *; cbn; rewrite Hn, !length_app; cbn; lia|].
    intros x k Hx. eapply (binds_grows T t); [|by eexists|by apply Hb]. split; [by apply prefix_app_r|done].
  - cbn. lia.
  - exists t', code. split_and!; try done; [|cbn in Hle; lia]. split; [|done]. cbn in Hl. etrans; [|exact Hl]. by apply prefix_app_r.
Qed.

Lemma makes_then T n t l m P :
  makes T n (emits l t) m P → makes T n t m (λ L code, ∃ c, code = l ++ c ∧ P L c).
Proof.
  intros H [Hn Hb] Hr. destruct (emits_fields l t) as (Ho & _ & Hl & Hi & He).
  unfold makes, agree, grows, binds, all_locals in *. rewrite Ho, Hl, Hi, He in H.
  destruct H as (t' & code & -> & Ho' & ? & ? & ? & HP); [done|done|]. exists t', (l ++ code).
  rewrite Ho', <- app_assoc. do 5 (split; [done|]). intros L HL. exists code. split; [done|]. by apply HP.
Qed.
Lemma makes_get_id T n t x w K P :
  id_wasm T x = Some w →
  (∀ o t', grows T t t' → agree T t' → makes T n t' (K (o, t')) P) →
  makes T n t (get_id rt_indexes x t ≫= K) (λ L code, ∃ c1 c2, code = c1 ++ c2 ∧ effect (ctx L) c1 [] [w] ∧ P L c2).
Proof.
  intros (k & Hx & ->)%fmap_Some HK Ha. destruct (get_id_ok t x k (proj2 Ha x k Hx)) as (i & -> & Hi).
  intros Hr. destruct (HK (kind_ty k) (emit i t)) as (t' & code & Hm & Ho & Hg & Ha' & Hle & HP); [done..|].
  exists t', (i :: code). cbn [mbind comp_bind]. rewrite Hm, Ho. cbn. rewrite <- app_assoc. split_and!; try done.
  intros L HL. exists [i], code. split_and!; [done| |by apply HP].
  eapply (effect_op _ _ [] (Some (kind_wasm k))), Hi. etrans; [|exact HL]. by apply prefix_app, Hg.
Qed.

Lemma run_effect L code f rest outs code' :
  effect (ctx L) code [] outs → run (ctx L) (f :: rest) (code ++ code') = run (ctx L) (pushes outs f :: rest) code'.
Proof. intros H. rewrite run_app. pose proof (H f rest) as H'. cbn in H'. by rewrite H'. Qed.

Lemma run_step c fs i fs' code : step c fs i = Some fs' → run c fs (i :: code) = run c fs' code.
Proof. intros H. cbn. by rewrite H. Qed.
(** Validate one instruction. *)
Ltac vstep H := erewrite run_step; [|cbn; unfold enter, set_unreachable; rewrite ?H; cbn; reflexivity].

(** The blocks of [translate_any_method] and of [translate_pointer_method]. *)
Lemma dispatch_effect L index c_any c_any2 c_arr c_str c_obj :
  L !! index = Some V.I64 →
  effect (ctx L) c_any [] [V.I64] → effect (ctx L) c_any2 [] [V.I64] → effect (ctx L) c_arr [] [] →
  effect (ctx L) c_str [] [] → effect (ctx L) c_obj [] [V.I64] →
  let block := I.Block I.NoResult in
  effect (ctx L)
    ([block; block; block; block; block; block] ++ c_any ++
     [I.I32WrapI64; I.I32Const 255; I.I32And; I.BrTable [0; 1; 2; 3; 4]%nat 0; I.End;
      I.I64Const 0; I.SetLocal index; I.Br 4; I.End;
      I.I64Const 1; I.SetLocal index; I.Br 3; I.End;
      I.I64Const 2; I.SetLocal index; I.Br 2; I.End] ++
     [block; block; block; block] ++ c_any2 ++
     [I.I64Const (4 * 8); I.I64ShrU; I.I32WrapI64; I.I32Load8U 0 1; I.BrTable [0; 1; 2; 3]%nat 0; I.End] ++ c_arr ++
     [I.Br 4; I.End] ++ c_str ++ [I.Br 3; I.End; I.Br 2; I.End] ++ c_obj ++ [I.SetLocal index; I.Br 1] ++
     [I.End; I.I64Const 4; I.SetLocal index; I.End; I.GetLocal index]) [] [V.I64].
Proof.
  intros Hi Hany Hany2 Harr Hstr Hobj block f rest. unfold block. cbn [app pushes foldl].
  do 6 vstep Hi. rewrite (run_effect L c_any _ _ [V.I64]) by done. do 21 vstep Hi.
  rewrite (run_effect L c_any2 _ _ [V.I64]) by done. do 6 vstep Hi.
  rewrite (run_effect L c_arr _ _ []) by done. do 2 vstep Hi.
  rewrite (run_effect L c_str _ _ []) by done. do 4 vstep Hi.
  rewrite (run_effect L c_obj _ _ [V.I64]) by done. do 7 vstep Hi. done.
Qed.

Lemma pointer_method_makes T t any l args ws typs method index s do_call wo :
  T !! mfn = None → id_wasm T any = Some V.I64 → (∃ m a, l = W.LInterned m a) → mapM (id_wasm T) args = Some ws →
  all_locals t !! index = Some V.I64 →
  typed_call_wasm rt_indexes funcs_ ws typs method N.Array = Some tt →
  typed_call_wasm rt_indexes funcs_ ws typs method N.String = Some tt →
  object_method_wasm disable_gc rt_indexes type_indexes types_ funcs_ ws do_call = Some wo →
  makes T (if do_call then 1 else 0) t
    (translate_pointer_method disable_gc rt_indexes type_indexes (translate_simple rt_indexes) any l args s index
       (typed_call rt_indexes args typs method index) do_call t)
    (λ L code, ∃ c_any c_arr c_str c_obj,
       code = [I.Block I.NoResult; I.Block I.NoResult; I.Block I.NoResult; I.Block I.NoResult] ++ c_any ++
         [I.I64Const (4 * 8); I.I64ShrU; I.I32WrapI64; I.I32Load8U 0 1; I.BrTable [0; 1; 2; 3]%nat 0; I.End] ++ c_arr ++
         [I.Br 4; I.End] ++ c_str ++ [I.Br 3; I.End; I.Br 2; I.End] ++ c_obj ++ [I.SetLocal index; I.Br 1] ∧
       effect (ctx L) c_any [] [V.I64] ∧ effect (ctx L) c_arr [] [] ∧ effect (ctx L) c_str [] [] ∧
       effect (ctx L) c_obj [] [wo]).
Proof.
  intros Hm Ha Hl Hws Hi Harr Hstr Hobj. unfold translate_pointer_method.
  set (n := if do_call then 1%nat else 0%nat).
  eapply (makes_weaken T (0 + (0 + (n + 0)))%nat); [lia| |].
  - eapply makes_then, makes_get_id; [exact Ha|]. intros o t1 Hg1 _. cbn beta iota.
    eapply makes_then, makes_bind; [apply makes_does|].
    { eapply typed_call_does; [exact Hws| |exact Harr]. by eapply all_locals_grows. }
    intros t2 Hg2 _. eapply makes_then, makes_bind; [apply makes_does|].
    { eapply typed_call_does; [exact Hws| |exact Hstr]. by do 2 (eapply all_locals_grows; [eassumption|]). }
    intros t3 Hg3 _. eapply makes_then, makes_bind; [apply makes_does; eapply object_method_does; [exact Hm|exact Ha|exact Hl|exact Hws|exact Hobj]|].
    intros t4 _ _. apply makes_emits.
  - intros L code _ (? & -> & c_any & ? & -> & Hany & ? & -> & c_arr & ? & -> & Har & ? & -> & c_str & ? & -> & Hst &
      ? & -> & c_obj & ? & -> & Hob & ->).
    by exists c_any, c_arr, c_str, c_obj.
Qed.

Lemma any_method_does T t any l args ws typs s do_call w w' :
  T !! mfn = None → id_wasm T any = Some w → mapM (id_wasm T) args = Some ws →
  any_method_wasm disable_gc rt_indexes type_indexes types_ funcs_ w l ws typs do_call = Some w' →
  does T (if do_call then 2 else 1) t
    (translate_any_method disable_gc rt_indexes type_indexes (translate_simple rt_indexes) any l args typs s do_call t) [] [w'].
Proof.
  intros Hm Ha Hws H. unfold any_method_wasm in H. destruct l as [| | | |m a| |]; try done.
  apply bind_Some in H as ([] & Hw & H). apply bind_Some in H as ([] & Harr & H).
  apply bind_Some in H as ([] & Hstr & H). apply bind_Some in H as (wo & Hobj & H).
  apply bind_Some in H as ([] & Hwo & [= <-]). unfold is_true in Hw, Hwo.
  case_bool_decide; [|done]. case_bool_decide; [|done]. subst.
  unfold translate_any_method. cbn [mbind comp_bind].
  apply makes_does, (makes_weaken T (S ((if do_call then 1 else 0) + 0)) _ t _
    (λ L code, L !! next_id t = Some V.I64 ∧ effect (ctx L) code [] [V.I64])); [by destruct do_call| |by intros ?? _ []].
  apply (makes_local T _ t _ _ V.I64). intros Hi. set (index := next_id t) in *.
  set (t1 := new_local V.I64 t) in *. clearbody t1 index.
  eapply makes_weaken; [reflexivity| |].
  - eapply makes_then, makes_get_id; [exact Ha|]. intros o t2 Hg2 _. cbn beta iota.
    eapply makes_then, makes_bind.
    { eapply (pointer_method_makes T _ any _ args ws typs m index); try done; [by do 2 eexists|]. by eapply all_locals_grows. }
    intros t3 _ _. apply makes_emits.
  - intros L code HL (? & -> & c_any & ? & -> & Hany & ? & -> & ? & ? & -> & (c_any2 & c_arr & c_str & c_obj & -> & ?) & ->).
    pose proof (prefix_lookup_Some _ _ _ _ Hi HL) as Hi'. split; [done|].
    pose proof (dispatch_effect L index c_any c_any2 c_arr c_str c_obj Hi' Hany) as Hd. cbv zeta in Hd.
    rewrite <- !app_assoc in *. destruct H as (H1 & H2 & H3 & H4). exact (Hd H1 H2 H3 H4).
Qed.

(** ** Atoms and expressions

    The number of locals that the translator takes. *)
Fixpoint atom_locals (a : W.Atom) : nat :=
  match a with
  | W.AnyLength _ _ _ => 1
  | W.PrimApp _ args _ => list_sum (map atom_locals args)
  | W.ToAny a _ _ | W.FromAny a _ _ | W.FloatToInt a _ | W.IntToFloat a _ | W.Unary _ a _ | W.Deref a _ _ => atom_locals a
  | W.ObjectGet a b _ | W.Binary _ a b _ => atom_locals a + atom_locals b
  | _ => 0
  end.
Lemma translate_lit_does T t l w :
  lit_wasm rt_indexes funcs_ l = Some w → does T 0 t (translate_lit rt_indexes l t) [] [w].
Proof.
  intros H; destruct l; cbn in H; simplify_eq; try (by apply value_rt_does); try (by apply (does_op T t _ [] (Some _))).
  apply does_emits. intros. apply address_effect.
Qed.
Lemma translate_binop_does T t op w1 w2 w :
  binop_wasm op w1 w2 = Some w → does T 0 t (Ok (translate_binop op t)) [w1; w2] [w].
Proof.
  unfold binop_wasm. intros ([ts r] & Hop & H)%bind_Some. case_decide; [|done]. subst.
  apply (does_op T t _ [w1; w2] (Some w)). intros L _. rewrite <- Hop. by destruct op.
Qed.
Lemma translate_unop_does T t op w w' pre :
  unop_wasm op w = Some w' → pre = (if decide (op = I32Neg) then [V.I32] else []) →
  does T 0 t (Ok (translate_unop op t)) (pre ++ [w]) [w'].
Proof.
  intros H ->. unfold unop_wasm in H.
  destruct op; cbn; try (case_decide; [|done]); simplify_eq;
    try (by apply (does_op T t _ [_] (Some _))); try (by apply (does_op T t _ [_; _] (Some _))); [|apply does_ret].
  apply (does_emits T t [I.I32Const (-1); I.I32Xor]). intros L _.
  apply (effect_app _ [I.I32Const (-1)] [I.I32Xor] [V.I32] [V.I32; V.I32]).
  - apply (effect_frame _ _ [V.I32] [] [V.I32]), const_effect.
  - by apply (effect_op _ _ [V.I32; V.I32] (Some V.I32)).
Qed.
Lemma foldM_does T {A} (f : A → Translate → tr) (cost : A → nat) l ws t :
  Forall2 (λ a w, ∀ t, does T (cost a) t (f a t) [] [w]) l ws →
  does T (list_sum (map cost l)) t (foldM (λ t a, f a t) t l) [] ws.
Proof.
  intros H. revert t. induction H as [|a w l ws Ha _ IH]; intros t; [apply does_ret|].
  cbn [foldM map list_sum fold_right]. eapply (does_bind T _ _ t _ _ [] [w]); [apply Ha|].
  intros t' _ _. apply (does_frame T _ t' _ [w] [] ws), IH.
Qed.

(** The same, with an instruction first. *)
Lemma does_emit_then T n t i K ts w outs :
  (∀ L, all_locals t `prefix_of` L → effect (ctx L) [i] [] [w]) →
  (∀ t', grows T t t' → agree T t' → does T n t' (K t') (ts ++ [w]) outs) →
  does T n t (K (emit i t)) ts outs.
Proof.
  intros Hi HK. change (does T (0 + n) t ((Ok (emit i t) : tr) ≫= K) ts outs).
  eapply does_push; [|exact HK]. by apply does_emit.
Qed.
Lemma env_get_does T t index ty s :
  params !! 0%nat = Some V.I32 →
  does T 0 t (translate_atom disable_gc rt_indexes type_indexes (W.EnvGet index ty s) t) []
    [if decide (as_wasm ty = V.I64) then V.I64 else V.I32].
Proof.
  intros Hp. unfold translate_atom. cbn [translate_atom_with]. cbv zeta. set (offset := Int.wrap_u 32 _).
  assert (∀ l w, (∀ L, effect (ctx L) l [V.I32] [w]) → does T 0 t (Ok (emits l (emit (I.GetLocal 0) t))) [] [w]) as Hl.
  { intros l w Hl. apply (does_emit_then T 0 t (I.GetLocal 0) (λ t, Ok (emits l t)) [] V.I32).
    - intros L HL. apply (effect_op _ _ [] (Some V.I32)). cbn.
      assert (all_locals t !! 0%nat = Some V.I32) as H0 by by apply lookup_app_l_Some.
      by rewrite (prefix_lookup_Some _ _ _ _ H0 HL).
    - intros t' _ _. by apply does_emits. }
  destruct ty; case_decide; try done;
    try (by eapply (Hl [_]); intros; apply (effect_op _ _ [V.I32] (Some _))).
  apply Hl. intros L. apply (effect_app _ [I.I64Load 2 offset] _ _ [V.I64]); [by apply (effect_op _ _ [V.I32] (Some V.I64))|].
  apply (effect_app _ [I.I64Const 16] _ _ [V.I64; V.I64]); [|by apply (effect_op _ _ [V.I64; V.I64] (Some V.I64))].
  apply (effect_frame _ _ [V.I64] [] [V.I64]). by apply (effect_op _ _ [] (Some V.I64)).
Qed.
Lemma translate_atom_does T a w t :
  T !! mfn = None → atom_wasm disable_gc rt_indexes type_indexes types_ funcs_ params T a = Some w →
  does T (atom_locals a) t (translate_atom disable_gc rt_indexes type_indexes a t) [] [w].
Proof.
  intros Hm. revert w t. unfold translate_atom.
  induction a as [l s|p args s IH|a ty s IH|a ty s IH|a s IH|a s IH|o f s IHo IHf|o l s|x s|x s|op a s IH|op a b s IHa IHb|a ty s IH|i ty s]
    using W.Atom_ind'; intros w t H; cbn in H; cbn [translate_atom_with atom_locals];
    try (apply bind_Some in H as (w1 & Hw1 & H)); try rewrite <- (Nat.add_0_r (atom_locals a)).
  - by apply translate_lit_does.
  - apply bind_Some in H as (name & Hn & H). rewrite <- (Nat.add_0_r (list_sum _)).
    eapply (does_bind T _ 0 t _ _ [] w1).
    + apply (foldM_does T (translate_atom_with rt_indexes _) atom_locals). apply mapM_Some in Hw1.
      clear -Hw1 IH. induction Hw1; inversion_clear IH; constructor; auto.
    + intros t' _ _. destruct p as [s'| |]; simplify_eq/=. by apply value_rt_does.
  - apply bind_Some in H as (ty' & -> & H). eapply does_bind; [by apply IH|]. intros. by apply to_any_does.
  - eapply does_bind; [by apply IH|]. intros. by apply from_any_does.
  - case_decide; simplify_eq. eapply does_bind; [by apply IH|]. intros. by apply (does_op T _ _ [_] (Some _)).
  - case_decide; simplify_eq. eapply does_bind; [by apply IH|]. intros. by apply (does_op T _ _ [_] (Some _)).
  - apply bind_Some in H as (w2 & Hw2 & H). rewrite <- (Nat.add_0_r (_ + _)), <- Nat.add_assoc.
    eapply does_bind; [by apply IHo|]. intros t1 _ _. eapply (does_push T _ _ t1 _ _ [w1]); [by apply IHf|].
    intros t2 _ _. change (rt_call rt_indexes "object_get" (data_cache t2)) with
      ((Ok (data_cache t2) : tr) ≫= rt_call rt_indexes "object_get").
    eapply (does_push T 0 0 t2 _ _ [w1; w2]); [apply data_cache_does|]. intros t3 _ _. by apply value_rt_does.
  - eapply (any_method_does T t o l [o] [w1] _ s false); [done|done| |exact H]. cbn. by rewrite Hw1.
  - apply get_id_value. unfold id_wasm. by rewrite Hw1.
  - apply bind_Some in H as (n & Hn & [= <-]). destruct x; simplify_eq/=. rewrite Hn. by apply (does_op T t _ [] (Some _)).
  - destruct (decide (op = I32Neg)) as [Heq|Hne].
    + subst op. apply (does_emit_then T _ t (I.I32Const 0) (λ t,
        t ← translate_atom_with rt_indexes (translate_length disable_gc rt_indexes type_indexes) a t;
        Ok (translate_unop I32Neg t)) [] V.I32); [intros; apply const_effect|]. intros t1 _ _.
      eapply (does_push T _ 0 t1 _ _ [V.I32]); [by apply IH|]. intros t2 _ _.
      by apply (translate_unop_does T t2 I32Neg w1 w [V.I32]).
    + eapply does_bind; [by apply IH|]. intros. apply (translate_unop_does T _ op w1 w []); [done|]. by rewrite decide_False.
  - apply bind_Some in H as (w2 & Hw2 & H). rewrite Nat.add_0_r. rewrite <- (Nat.add_0_r (_ + _)), <- Nat.add_assoc.
    eapply does_bind; [by apply IHa|]. intros t1 _ _. eapply (does_push T _ _ t1 _ _ [w1]); [by apply IHb|].
    intros t2 _ _. by apply translate_binop_does.
  - case_decide; simplify_eq. eapply does_bind; [by apply IH|]. intros. apply load_does.
  - case_decide; simplify_eq. by apply (env_get_does T t i ty s).
Qed.

Definition expr_locals (e : W.Expr) : nat :=
  match e with
  | W.EAtom a _ | W.NewRef a _ _ => atom_locals a
  | W.ArraySet a b c _ | W.ObjectSet a b c _ => atom_locals a + (atom_locals b + atom_locals c)
  | W.AnyMethodCall _ _ _ _ _ => 2
  | W.Closure _ env _ => list_sum (map (λ p, atom_locals p.1) env)
  | _ => 0
  end.
Lemma notwasm_rt_call_does T t name ts r :
  notwasm_sig T name = Some (ts, r) → does T 0 t (notwasm_rt_call rt_indexes name t) ts (option_list r).
Proof.
  unfold notwasm_sig. destruct (T !! Named name) as [[| |sg]|] eqn:Hx; intros H; simplify_eq. intros Ha.
  destruct (proj2 Ha _ _ Hx) as (n & Hn & Hf). revert Ha. unfold notwasm_rt_call, get_notwasm_rt_fn. rewrite Hn.
  by apply (does_op T t _ ts r).
Qed.
Lemma call_does T t f args ws w s :
  mapM (id_wasm T) args = Some ws →
  expr_wasm disable_gc rt_indexes type_indexes types_ funcs_ params T (W.Call f args s) = Some w →
  does T 0 t (translate_expr disable_gc rt_indexes type_indexes (W.Call f args s) t) [] [w].
Proof.
  intros Hws H. cbn [expr_wasm] in H. rewrite Hws in H. cbn [mbind option_bind translate_expr] in *.
  rewrite <- (Nat.add_0_r 0). eapply (does_bind T 0 0 t _ _ [] ws); [by apply get_ids_does|]. intros t1 _ Ha1.
  destruct (T !! f) as [[ty|m ty|[ts r]]|] eqn:Hf; try done.
  - destruct (proj2 Ha1 _ _ Hf) as (n & Hn & Hl). rewrite Hn. destruct ty as [| | | | | | |fargs res| | | | |]; try done.
    apply bind_Some in H as ([ts r] & Hsg & H). case_decide; [|done]. subst.
    destruct (indirect_ok _ _ _ _ (or_introl eq_refl) Hsg) as (Heq & i & Hi & Hti).
    change (does T 0 t1 ((λ t, ty_index ← expect "function type was not indexed" (type_indexes !! (types_as_wasm fargs, option_as_wasm res));
      Ok (emit (I.CallIndirect ty_index 0) t)) (emit (I.GetLocal n) t1)) ws [w]).
    apply (does_emit_then T 0 t1 _ _ ws V.I32).
    + intros L HL. apply (effect_op _ _ [] (Some V.I32)). cbn. by rewrite (prefix_lookup_Some _ _ _ _ Hl HL).
    + intros t2 _ _. rewrite <- Heq, Hi. by apply (call_indirect_does T t2 i (ws, Some w)).
  - destruct (proj2 Ha1 _ _ Hf) as (n & Hn & Hl). rewrite Hn. case_decide; [|done]. subst.
    by apply (does_op T t1 _ ws (Some w)).
Qed.
Lemma translate_env_does T e env i t :
  T !! mfn = None → env_wasm disable_gc rt_indexes type_indexes types_ funcs_ params T e env = Some tt →
  does T (list_sum (map (λ p, atom_locals p.1) env)) t (translate_env disable_gc rt_indexes type_indexes i env t) [e] [e].
Proof.
  intros Hm. revert i t. induction env as [|[a ty] env IH]; intros i t H; [apply does_ret|].
  cbn in H. apply bind_Some in H as (w & Hw & H). apply bind_Some in H as (w' & Hw' & H).
  apply bind_Some in H as (e' & He' & H). unfold is_true in H. case_bool_decide; [|done]. cbn in H. subst e'.
  cbn [translate_env map list_sum fold_right fst].
  apply (does_emit_then T _ t (I.I32Const (as_i32 i)) (λ t,
    t ← translate_atom disable_gc rt_indexes type_indexes a t; t ← to_any rt_indexes ty t;
    t ← rt_call rt_indexes "env_init_at" t; translate_env disable_gc rt_indexes type_indexes (S i) env t) [e] V.I32);
    [intros; apply const_effect|]. intros t1 _ _.
  eapply (does_push T _ _ t1 _ _ [e; V.I32]); [by apply translate_atom_does|]. intros t2 _ _.
  change (list_sum (map (λ p, atom_locals p.1) env)) with (0 + (0 + list_sum (map (λ p, atom_locals p.1) env)))%nat.
  eapply (does_bind T 0 _ t2 _ _ _ [e; V.I32; w']); [apply (does_frame T 0 t2 _ [e; V.I32] [w] [w']); by apply to_any_does|].
  intros t3 _ _. eapply (does_bind T 0 _ t3 _ _ _ [e]); [by apply value_rt_does|]. intros t4 _ _. by apply IH.
Qed.
Lemma closure_does T t x env s w :
  T !! mfn = None → expr_wasm disable_gc rt_indexes type_indexes types_ funcs_ params T (W.Closure x env s) = Some w →
  does T (expr_locals (W.Closure x env s)) t (translate_expr disable_gc rt_indexes type_indexes (W.Closure x env s) t) [] [w].
Proof.
  intros Hm H. cbn [expr_wasm] in H. apply bind_Some in H as ([ts r] & Hsg & H). apply bind_Some in H as (o & -> & H).
  apply bind_Some in H as ([] & Hts & H). unfold is_true in Hts. case_bool_decide; [|done]. subst ts.
  apply bind_Some in H as (e & He & H). apply bind_Some in H as ([] & Henv & H).
  apply bind_Some in H as (f & (k & Hf & ->)%fmap_Some & H). cbn [translate_expr expr_locals].
  apply (does_emit_then T _ t (I.I32Const (as_i32 (length env))) (λ t,
      t ← notwasm_rt_call rt_indexes "jnks_new_fn_obj" t; t ← rt_call rt_indexes "env_alloc" t;
      t ← translate_env disable_gc rt_indexes type_indexes 0 env t;
      '(_, t) ← get_id rt_indexes x t; rt_call rt_indexes "closure_new" t) [] V.I32); [intros; apply const_effect|].
  intros t1 _ _. set (n := list_sum _). rewrite <- (Nat.add_0_l n).
  eapply (does_push T _ _ t1 _ _ [V.I32] o); [by apply (notwasm_rt_call_does T t1 _ [] (Some o))|]. intros t2 _ _.
  rewrite <- (Nat.add_0_l n). eapply (does_bind T 0 _ t2 _ _ _ [e]); [by apply value_rt_does|]. intros t3 _ _.
  rewrite <- (Nat.add_0_r n). eapply (does_bind T _ 0 t3 _ _ _ [e]); [by apply translate_env_does|]. intros t4 _ _.
  eapply (does_get_id T 0 t4 x k _ [e]); [done|]. intros t5 _ _. by apply value_rt_does.
Qed.
(** Three atoms. *)
Lemma atoms_does T t a b c w1 w2 w3 (K : Translate → tr) ts w :
  T !! mfn = None →
  atom_wasm disable_gc rt_indexes type_indexes types_ funcs_ params T a = Some w1 →
  atom_wasm disable_gc rt_indexes type_indexes types_ funcs_ params T b = Some w2 →
  atom_wasm disable_gc rt_indexes type_indexes types_ funcs_ params T c = Some w3 →
  (∀ t', does T 0 t' (K t') (w1 :: w2 :: w3 :: ts) [w]) → ts = [] →
  does T (atom_locals a + (atom_locals b + atom_locals c)) t
    (t ← translate_atom disable_gc rt_indexes type_indexes a t;
     t ← translate_atom disable_gc rt_indexes type_indexes b t;
     t ← translate_atom disable_gc rt_indexes type_indexes c t; K t) [] [w].
Proof.
  intros Hm H1 H2 H3 HK ->. eapply does_bind; [by apply translate_atom_does|]. intros t1 _ _.
  eapply (does_push T _ _ t1 _ _ [w1]); [by apply translate_atom_does|]. intros t2 _ _.
  rewrite <- (Nat.add_0_r (atom_locals c)).
  eapply (does_push T _ _ t2 _ _ [w1; w2]); [by apply translate_atom_does|]. intros t3 _ _. apply HK.
Qed.

Lemma translate_expr_does T e w t :
  T !! mfn = None → expr_wasm disable_gc rt_indexes type_indexes types_ funcs_ params T e = Some w →
  does T (expr_locals e) t (translate_expr disable_gc rt_indexes type_indexes e t) [] [w].
Proof.
  intros Hm H. destruct e as [a i v s|f args s|f args s|x l args tys s|f args s| |o f v s|a ty s|a s|x env s].
  - cbn in H. apply bind_Some in H as (w1 & H1 & H). apply bind_Some in H as (w2 & H2 & H).
    apply bind_Some in H as (w3 & H3 & H). eapply (atoms_does T t a i v w1 w2 w3 _ []); try done.
    intros t'. by apply value_rt_does.
  - assert (H' := H). cbn in H'. apply bind_Some in H' as (ws & Hws & _). by eapply call_does.
  - cbn in H. apply bind_Some in H as (ws & Hws & H). cbn [translate_expr expr_locals].
    destruct (T !! f) as [k|] eqn:Hf; [|done]. eapply closure_call_does; [done|done|]. by destruct k.
  - cbn in H. apply bind_Some in H as (w1 & H1 & H). apply bind_Some in H as (ws & Hws & H).
    by eapply (any_method_does T t x l args ws tys s true).
  - cbn in H. apply bind_Some in H as (ws & Hws & H). cbn [translate_expr expr_locals].
    rewrite <- (Nat.add_0_r 0). eapply (does_bind T 0 0 t _ _ [] ws); [by apply get_ids_does|]. intros t1 _ _.
    destruct (RTS.name f) as [[name|name]| |]; try done; cbn [mbind comp_bind].
    + by apply value_rt_does.
    + apply bind_Some in H as ([ts r] & Hsg & H). case_decide; [|done]. subst.
      by apply (notwasm_rt_call_does T t1 name ws (Some w)).
  - cbn in H. apply bind_Some in H as ([ts r] & Hsg & H). case_decide; [|done]. subst.
    by apply (notwasm_rt_call_does T t _ [] (Some w)).
  - cbn in H. apply bind_Some in H as (w1 & H1 & H). apply bind_Some in H as (w2 & H2 & H).
    apply bind_Some in H as (w3 & H3 & H). eapply (atoms_does T t o f v w1 w2 w3 _ []); try done.
    intros t'. change (rt_call rt_indexes "object_set" (data_cache t')) with
      ((Ok (data_cache t') : tr) ≫= rt_call rt_indexes "object_set"). rewrite <- (Nat.add_0_r 0).
    eapply (does_push T 0 0 t' _ _ [w1; w2; w3]); [apply data_cache_does|]. intros t3 _ _. by apply value_rt_does.
  - cbn in H. apply bind_Some in H as (w1 & H1 & H). unfold ref_new_wasm in H.
    destruct (ref_new ty) as [name| |] eqn:Hr; try done. cbn [translate_expr expr_locals].
    rewrite <- (Nat.add_0_r (atom_locals a)). eapply does_bind; [by apply translate_atom_does|]. intros t1 _ _.
    rewrite Hr. by apply value_rt_does.
  - by apply translate_atom_does.
  - by apply closure_does.
Qed.

(** ** Statements *)
Fixpoint stmt_locals (st : W.Stmt) : nat :=
  match st with
  | W.Var v _ => S (expr_locals (W.var_named v))
  | W.Store _ e _ | W.Expression e _ | W.Assign _ e _ => expr_locals e
  | W.Block ss _ => list_sum (map stmt_locals ss)
  | W.If c s1 s2 _ => atom_locals c + (stmt_locals s1 + stmt_locals s2)
  | W.Loop b _ | W.Lbl _ b _ => stmt_locals b
  | W.Return a _ => atom_locals a
  | _ => 0
  end.

(** Only a statement in tail position of a function with a result leaves it. *)
Lemma stmt_wasm_val T env tail st T' :
  stmt_wasm disable_gc rt_indexes type_indexes types_ funcs_ params T env tail st = Some (T', Val) →
  tail = true ∧ is_Some (result_type env).
Proof.
  revert T env tail T'.
  induction st as [|v s|e s|x e s|x e s|c t e s IHt IHe|b s IH|l b s IH|l s|a s|ss s IH| |l s] using W.Stmt_ind';
    intros T env tail T' H; cbn [stmt_wasm] in H; try done.
  - by apply bind_Some in H as (? & _ & H).
  - by apply bind_Some in H as (? & _ & H).
  - apply bind_Some in H as (? & _ & H). by apply bind_Some in H as (? & _ & H).
  - destruct (T !! x) as [[[] | |]|]; try done; try (destruct ty; try done);
      apply bind_Some in H as (? & _ & H); by case_decide.
  - apply bind_Some in H as (? & _ & H). apply bind_Some in H as (? & _ & H).
    apply bind_Some in H as ([T1 e1] & _ & H). apply bind_Some in H as ([T2 e2] & _ & H).
    destruct tail; cbn in H; [|done]. case_bool_decide; [done|done].
  - by apply bind_Some in H as ([T1 e1] & _ & H).
  - destruct l; [|done]. apply bind_Some in H as ([T1 e1] & _ & H). by case_decide.
  - by apply bind_Some in H as (? & _ & H).
  - apply bind_Some in H as (? & _ & H). apply bind_Some in H as (? & _ & H). by case_decide.
  - revert T T' H. induction IH as [|st ss Hst _ IH]; intros T T' H; [done|]. destruct ss as [|st' ss]; [by eapply Hst|].
    apply bind_Some in H as ([T1 e1] & _ & H). apply bind_Some in H as ([T2 e2] & H2 & [= <- He]).
    eapply IH. rewrite H2. by destruct e1, e2.
Qed.

(** The blocks that breaks name take no operands. *)
Definition frames_ok (env : Env) (fs : list Frame) : Prop :=
  ∀ i l, labels env !! i = Some (Label l) → ∃ g, fs !! i = Some g ∧ label g = None.
Lemma frames_ok_same env f g rest : label f = label g → frames_ok env (f :: rest) → frames_ok env (g :: rest).
Proof. intros Hl H [|i] l Hi; destruct (H _ _ Hi) as (h & Hh & ?); [|by exists h]. simplify_eq/=. exists g. by rewrite <- Hl. Qed.
Lemma frames_ok_unused env g fs : frames_ok env fs → frames_ok (push_front Unused env) (g :: fs).
Proof. intros H [|i] l Hi; [done|]. by apply (H i l). Qed.
Lemma frames_ok_label env l g fs : label g = None → frames_ok env fs → frames_ok (push_front (Label l) env) (g :: fs).
Proof. intros Hg H [|i] l' Hi; [by exists g|]. by apply (H i l'). Qed.

(** The innermost block after the statement. *)
Definition outcome (env : Env) (e : eff) (f f' : Frame) : Prop :=
  match e with
  | Fall => f' = f
  | Dead => f' = set_unreachable f
  | Val => ∃ r, result_type env = Some r ∧ (f' = push r f ∨ f' = push r (set_unreachable f))
  end.
Definition runs (T T' : kenv) (n : nat) (t : Translate) (m : tr) (env : Env) (e : eff) : Prop :=
  agree T t → Z.of_nat (next_id t + n) <= 2 ^ 31 →
  ∃ t' code, m = Ok t' ∧ out t' = out t ++ code ∧ locals t `prefix_of` locals t' ∧ agree T' t' ∧
    (next_id t' <= next_id t + n)%nat ∧
    ∀ L f rest, all_locals t' `prefix_of` L → stack f = [] → frames_ok env (f :: rest) →
      ∃ f', run (ctx L) (f :: rest) code = Some (f' :: rest) ∧ outcome env e f f'.

Lemma does_runs T n t m env : does T n t m [] [] → runs T T n t m env Fall.
Proof.
  intros H Ha Hr. destruct (H Ha Hr) as (t' & code & ? & ? & [? _] & ? & ? & He). exists t', code. split_and!; try done.
  intros L f rest HL _ _. exists f. split; [by apply (He L HL f rest)|done].
Qed.
Lemma outcome_seq env e1 e2 f f1 f2 :
  e1 ≠ Val → outcome env e1 f f1 → outcome env e2 f1 f2 → outcome env (seq_eff e1 e2) f f2.
Proof. intros He1 H1 H2. destruct e1, e2; cbn in *; subst; try done. destruct H2 as (r & ? & [-> | ->]); exists r; auto. Qed.
Lemma outcome_stack env e f f' : e ≠ Val → outcome env e f f' → stack f = [] → stack f' = [] ∧ label f' = label f.
Proof. destruct e; cbn; intros ? ? H; subst; try done. Qed.
Lemma runs_seq T T1 T2 n1 n2 t m K env e1 e2 :
  e1 ≠ Val → runs T T1 n1 t m env e1 → (∀ t', runs T1 T2 n2 t' (K t') env e2) →
  runs T T2 (n1 + n2) t (m ≫= K) env (seq_eff e1 e2).
Proof.
  intros He1 H1 H2 Ha Hr. destruct H1 as (t1 & code1 & -> & Ho1 & Hl1 & Ha1 & Hn1 & Hc1); [done|lia|]. cbn.
  destruct (H2 t1 Ha1) as (t2 & code2 & -> & Ho2 & Hl2 & Ha2 & Hn2 & Hc2); [lia|].
  exists t2, (code1 ++ code2). rewrite Ho2, Ho1, app_assoc. split_and!; [done|done|by etrans|apply Ha2..|lia|].
  intros L f rest HL Hs Hf. destruct (Hc1 L f rest) as (f1 & Hr1 & Hf1); [|done..|].
  { etrans; [|exact HL]. by apply prefix_app. }
  destruct (outcome_stack env e1 f f1) as [Hs1 Hlb]; [done..|].
  destruct (Hc2 L f1 rest) as (f2 & Hr2 & Hf2); [done|done|by eapply frames_ok_same|].
  exists f2. split; [|by eapply outcome_seq]. rewrite run_app, Hr1. apply Hr2.
Qed.
(** Leaving a block. *)
Lemma outcome_leave env e f f' :
  outcome env e f f' → stack f = [] → (e = Fall → ends f = None) → (e = Val → ends f = result_type env) →
  Valid.leave f' = Some (ends f) ∧ is_if f' = is_if f.
Proof.
  unfold Valid.leave. destruct e; cbn; intros H Hs Hfall Hval.
  - subst. rewrite Hfall by done. cbn. by rewrite Hs.
  - subst. cbn. by destruct (ends f).
  - destruct H as (r & Hres & [-> | ->]); cbn; rewrite Hval, Hres by done; cbn; rewrite decide_True by done; cbn; by rewrite ?Hs.
Qed.
Lemma enter_frames env l f g rest :
  label g = None ∨ l = Unused → frames_ok env (f :: rest) → frames_ok (push_front l env) (g :: f :: rest).
Proof. intros Hg H. destruct l; [by apply frames_ok_unused|]. apply frames_ok_label; [by destruct Hg|done]. Qed.

(** A block or a loop around a statement. *)
Lemma runs_block T T' n t body env l e (i : I.Instruction) last :
  (∀ f rest c, step c (f :: rest) i = Some (enter false None None (f :: rest))) →
  (∀ L g f rest, label g = None → ends g = None → is_if g = false → Valid.leave g = Some None →
    run (ctx L) (g :: f :: rest) last = Some (f :: rest)) →
  e ≠ Val → runs T T' n (emit i t) (body (emit i t)) (push_front l env) e →
  runs T T' n t (t ← body (emit i t); Ok (emits last t)) env Fall.
Proof.
  intros Hi Hlast He H Ha Hr. destruct H as (t1 & code & -> & Ho & Hl & Ha1 & Hn & Hc); [done|done|].
  destruct (emits_fields last t1) as (Ho' & _ & Hl' & Hi' & He').
  exists (emits last t1), (i :: code ++ last). split; [done|].
  rewrite Ho', Ho. cbn [emit out]. rewrite <- !app_assoc. split; [done|]. rewrite Hl', Hi'. split; [done|].
  split; [|split; [done|]].
  { unfold agree, binds, all_locals in *. by rewrite Hl', Hi', He'. }
  intros L f rest HL Hs Hf. exists f. split; [|done].
  destruct (Hc L (mkFrame false None None false []) (f :: rest)) as (g & Hg & Hout); [|done|by apply enter_frames; [left|]|].
  { unfold all_locals in *. by rewrite Hl' in HL. }
  cbn [run]. rewrite Hi. cbn [mbind option_bind]. rewrite run_app. unfold enter. rewrite Hg. cbn [mbind option_bind].
  destruct (outcome_leave _ e _ _ Hout eq_refl) as [Hleave Hif]; [done|done|].
  destruct (outcome_stack _ e _ _ He Hout eq_refl) as [Hst Hlab].
  apply Hlast; [done| |done|by rewrite Hleave]. by destruct e; simplify_eq/=.
Qed.
Lemma end_block L g f rest :
  ends g = None → is_if g = false → Valid.leave g = Some None → run (ctx L) (g :: f :: rest) [I.End] = Some (f :: rest).
Proof. intros He Hi Hl. cbn. rewrite Hl. cbn. by rewrite Hi. Qed.

(** Both branches of an [if]. *)
Lemma runs_if T T1 T2 n1 n2 t m1 m2 env bt e1 e2 e :
  let r := Valid.block_type bt in
  (r = None → e1 ≠ Val ∧ e2 ≠ Val ∧ e = Fall) →
  (is_Some r → result_type env = r ∧ e1 ≠ Fall ∧ e2 ≠ Fall ∧ e = Val) →
  runs T T1 n1 (emit (I.If bt) t) (m1 (emit (I.If bt) t)) (push_front Unused env) e1 →
  (∀ t', runs T1 T2 n2 (emit I.Else t') (m2 (emit I.Else t')) (push_front Unused env) e2) →
  agree T t → Z.of_nat (next_id t + (n1 + n2)) <= 2 ^ 31 →
  ∃ t' code, (t ← m1 (emit (I.If bt) t); t ← m2 (emit I.Else t); Ok (emit I.End t)) = Ok t' ∧
    out t' = out t ++ code ∧ locals t `prefix_of` locals t' ∧ agree T2 t' ∧ (next_id t' <= next_id t + (n1 + n2))%nat ∧
    ∀ L f rest, all_locals t' `prefix_of` L → stack f = [] → frames_ok env (f :: rest) →
      ∃ f', run (ctx L) (push V.I32 f :: rest) code = Some (f' :: rest) ∧ outcome env e f f'.
Proof.
  intros r Hnone Hsome H1 H2 Ha Hr. destruct H1 as (t1 & code1 & -> & Ho1 & Hl1 & Ha1 & Hn1 & Hc1); [done|cbn in *; lia|].
  cbn [mbind comp_bind]. cbn [next_id emit] in Hn1.
  destruct (H2 t1) as (t2 & code2 & -> & Ho2 & Hl2 & Ha2 & Hn2 & Hc2); [done|cbn in *; lia|].
  cbn [mbind comp_bind]. cbn [next_id emit] in Hn2.
  exists (emit I.End t2), (I.If bt :: code1 ++ I.Else :: code2 ++ [I.End]). split; [done|].
  cbn [emit out] in *. rewrite Ho2, Ho1. split; [by rewrite <- !app_assoc|].
  split; [by etrans|]. split; [done|]. split; [cbn; lia|]. intros L f rest HL Hs Hf.
  assert (∀ e', (e' = e1 ∨ e' = e2) → (e' = Fall → r = None) ∧ (e' = Val → r = result_type (push_front Unused env))) as He'.
  { intros e' He'. destruct r as [w|] eqn:Hrr.
    - destruct Hsome as (Hres & ? & ? & _); [by eexists|]. split; [|done]. intros ->. by destruct He'.
    - destruct Hnone as (? & ? & _); [done|]. split; [done|]. intros ->. by destruct He'. }
  destruct (Hc1 L (mkFrame true r r false []) (f :: rest)) as (g1 & Hg1 & Hout1); [|done|by apply frames_ok_unused|].
  { etrans; [|exact HL]. by apply prefix_app. }
  destruct (Hc2 L (mkFrame false r r false []) (f :: rest)) as (g2 & Hg2 & Hout2); [done|done|by apply frames_ok_unused|].
  destruct (outcome_leave _ e1 _ _ Hout1 eq_refl) as [Hlv1 Hif1]; [by apply He'; left|by apply He'; left|].
  destruct (outcome_leave _ e2 _ _ Hout2 eq_refl) as [Hlv2 Hif2]; [by apply He'; right|by apply He'; right|].
  exists (push_opt r f). split.
  - cbn [run step]. rewrite pop_push. cbn [mbind option_bind]. unfold enter. fold r. rewrite run_app, Hg1.
    cbn [mbind option_bind run step]. rewrite Hlv1. cbn [mbind option_bind]. rewrite Hif1. cbn [is_if ends mbind option_bind]. unfold enter.
    rewrite run_app, Hg2. cbn [mbind option_bind run step]. rewrite Hlv2. cbn [mbind option_bind]. by rewrite Hif2.
  - destruct r as [w|] eqn:Hrr.
    + destruct Hsome as (Hres & ? & ? & ->); [by eexists|]. exists w. by split; [|left].
    + destruct Hnone as (? & ? & ->); done.
Qed.

(** Declarations. *)
Lemma declare_agree T t x ty :
  agree T t → agree (<[x := KLocal ty]> T) (bind_id x (Local (next_id t) ty) (new_local (as_wasm ty) t)).
Proof.
  intros [Hn Hb]. split; [unfold all_locals in *; cbn; rewrite Hn, !length_app; cbn; lia|].
  intros y k [[<- <-]|[Hne Hy]]%lookup_insert_Some.
  - exists (next_id t). cbn. rewrite lookup_insert_eq. split; [done|]. unfold all_locals in *. cbn.
    rewrite Hn, app_assoc. by rewrite list_lookup_middle.
  - specialize (Hb y k Hy). unfold binds, all_locals in *. cbn. rewrite lookup_insert_ne by done.
    destruct k; [|done|done]. destruct Hb as (n & ? & ?). exists n. split; [done|]. rewrite app_assoc. by apply lookup_app_l_Some.
Qed.
Lemma runs_var T n t m K ws x ty env :
  let T' := <[x := KLocal ty]> T in
  does T n t m [] ws →
  (∀ t', agree T t' → does T' 0 (bind_id x (Local (next_id t') ty) (new_local (as_wasm ty) t')) (K t') ws []) →
  runs T T' (S n) t (m ≫= K) env Fall.
Proof.
  intros T' H1 H2 Ha Hr. destruct H1 as (t1 & code1 & -> & Ho1 & [Hl1 _] & Ha1 & Hn1 & He1); [done|lia|]. cbn [mbind comp_bind].
  destruct (H2 t1) as (t2 & code2 & -> & Ho2 & [Hl2 _] & Ha2 & Hn2 & He2); [done|by apply declare_agree|cbn; lia|].
  exists t2, (code1 ++ code2). cbn in Ho2, Hl2, Hn2. rewrite Ho2, Ho1, app_assoc.
  assert (locals t1 `prefix_of` locals t2) as Hl by (etrans; [|exact Hl2]; by apply prefix_app_r).
  split_and!; [done|done|by etrans|apply Ha2..|lia|].
  intros L f rest HL _ _. exists f. split; [|done]. apply (effect_app _ code1 code2 [] ws []); [apply He1|by apply He2].
  etrans; [|exact HL]. by apply prefix_app.
Qed.
Lemma translate_var_runs T T' t v env :
  T !! mfn = None → var_wasm disable_gc rt_indexes type_indexes types_ funcs_ params T v = Some T' →
  T' !! mfn = None ∧
  runs T T' (S (expr_locals (W.var_named v))) t (translate_var disable_gc rt_indexes type_indexes v t) env Fall.
Proof.
  intros Hm H. unfold var_wasm in H. apply bind_Some in H as (ty & Hty & H). apply bind_Some in H as ([] & Hx & H).
  apply bind_Some in H as ([] & Hinit & [= <-]). unfold is_true in Hx.
  destruct (bool_decide (W.var_id v ≠ Named "%mfn")) eqn:Hne; [apply bool_decide_eq_true in Hne|done].
  split; [by rewrite lookup_insert_ne|]. unfold translate_var. cbv zeta. rewrite Hty in *. cbn [expect mbind comp_bind].
  destruct (negb _ && is_undefined _).
  - apply (runs_var T _ t (Ok t) _ []); [apply (does_more _ 0); [lia|apply does_ret]|]. intros t' _. apply does_ret.
  - apply bind_Some in Hinit as (w & Hw & Hok). unfold is_true in Hok. case_bool_decide; [|done]. cbn in Hok. subst w.
    destruct (shadow_ok disable_gc rt_indexes funcs_ ty) eqn:Hs; [|done].
    apply (runs_var T _ t _ _ [as_wasm ty]); [by apply translate_expr_does|]. intros t' Ha' Ha'' Hr''. pose proof Hr'' as Hb.
    revert Ha'' Hr''. apply set_local_does; [|done|].
    + destruct (proj2 (declare_agree T t' (W.var_id v) ty Ha') (W.var_id v) (KLocal ty)) as (n & Hn & Hl); [by apply lookup_insert_eq|].
      cbn [id_env bind_id] in Hn. rewrite lookup_insert_eq in Hn. by simplify_eq.
    + cbn in Hb. lia.
Qed.

Lemma is_true_ok b : is_true b = Some tt → b = true.
Proof. by destruct b. Qed.
Lemma translate_store_runs T t x e b k s env :
  T !! mfn = None → T !! x = Some k → kind_ty k = Some (N.Ref b) →
  expr_wasm disable_gc rt_indexes type_indexes types_ funcs_ params T e = Some (as_wasm b) → ∀ tail,
  runs T T (expr_locals e) t (translate_rec disable_gc rt_indexes type_indexes env tail (W.Store x e s) t) env Fall.
Proof.
  intros Hm Hx Hk He tail. apply does_runs. cbn [translate_rec].
  eapply (does_get_id T _ t x k _ []); [done|]. intros t1 _ _. rewrite Hk. cbn [expect mbind comp_bind].
  assert (kind_wasm k = V.I32) as -> by (destruct k; by simplify_eq/=). rewrite <- (Nat.add_0_r (expr_locals e)).
  eapply (does_push T _ _ t1 _ _ [V.I32]); [by apply translate_expr_does|]. intros t2 _ _. apply store_does.
Qed.
Lemma translate_return_runs T t a w s env :
  T !! mfn = None → result_type env = ret_ → ∀ tail,
  disable_gc || bool_decide (call_rt rt_indexes funcs_ "gc_exit_fn" [] = Some None) = true →
  atom_wasm disable_gc rt_indexes type_indexes types_ funcs_ params T a = Some w →
  result_type env = None ∨ result_type env = Some w →
  runs T T (atom_locals a) t (translate_rec disable_gc rt_indexes type_indexes env tail (W.Return a s) t) env Dead.
Proof.
  intros Hm Hret tail Hgc Hw Hres Ha Hr. cbn [translate_rec].
  assert (does T (atom_locals a) t (t ← (if disable_gc then Ok t else rt_call rt_indexes "gc_exit_fn" t);
    translate_atom disable_gc rt_indexes type_indexes a t) [] [w]) as Hd.
  { rewrite <- (Nat.add_0_l (atom_locals a)). eapply (does_bind T 0 _ t _ _ [] []); [|intros; by apply translate_atom_does].
    destruct disable_gc; [apply does_ret|]. apply bool_decide_eq_true in Hgc. by apply (rt_call_does T t _ [] None). }
  destruct (Hd Ha Hr) as (t' & code & Hok & Ho & [Hl _] & Ha' & Hn & He). clear Hd.
  exists (emit I.Return t'), (code ++ [I.Return]). rewrite app_assoc, <- Ho.
  split. { revert Hok. destruct (if disable_gc then _ else _) as [t1| |]; cbn; try done. by intros ->. }
  split_and!; [done|done|apply Ha'..|done|]. intros L f rest HL Hs _. exists (set_unreachable f). split; [|done].
  rewrite run_app. pose proof (He L HL f rest) as He'. cbn [pushes foldl] in He'. rewrite He'.
  cbn [mbind option_bind run step Valid.ret ctx].
  rewrite <- Hret. destruct Hres as [-> | ->]; cbn [pop_opt]; [done|]. by rewrite pop_push.
Qed.
Lemma translate_break_runs T t l i env s tail :
  index_of (Label l) (labels env) = Some i →
  runs T T 0 t (translate_rec disable_gc rt_indexes type_indexes env tail (W.Break l s) t) env Dead.
Proof.
  intros Hi Ha Hr. cbn [translate_rec]. rewrite Hi. cbn. exists (emit (I.Br i) t), [I.Br i].
  split_and!; [done|done|done|apply Ha..|cbn; lia|]. intros L f rest _ Hs Hf. exists (set_unreachable f). split; [|done].
  unfold index_of in Hi. destruct (list_find _ _) as [[i' l']|] eqn:Hfind; simplify_eq/=.
  apply list_find_Some in Hfind as (Hl & <- & _). destruct (Hf i l Hl) as (g & Hg & Hlab).
  cbn [run step]. rewrite Hg. cbn. by rewrite Hlab.
Qed.
Lemma translate_trap_runs T t env : runs T T 0 t (Ok (emit I.Unreachable t)) env Dead.
Proof.
  intros Ha Hr. exists (emit I.Unreachable t), [I.Unreachable]. split_and!; [done|done|done|apply Ha..|cbn; lia|].
  intros L f rest _ _ _. by exists (set_unreachable f).
Qed.
Lemma end_loop L g f rest :
  label g = None → ends g = None → is_if g = false → run (ctx L) (g :: f :: rest) [I.Br 0; I.End] = Some (f :: rest).
Proof. intros Hl He Hi. cbn. rewrite Hl. cbn. unfold Valid.leave. cbn. rewrite He. cbn. by rewrite Hi. Qed.
(** The conditional of [stmt_wasm]. *)
Lemma runs_atom_if T T1 T2 n1 n2 t c tail s1 s2 env e1 e2 e s :
  T !! mfn = None → atom_wasm disable_gc rt_indexes type_indexes types_ funcs_ params T c = Some V.I32 →
  (tail = true ∧ is_Some (result_type env) ∧ e1 ≠ Fall ∧ e2 ≠ Fall ∧ e = Val) ∨
  ((tail = false ∨ result_type env = None) ∧ e1 ≠ Val ∧ e2 ≠ Val ∧ e = Fall) →
  (∀ t, runs T T1 n1 t (translate_rec disable_gc rt_indexes type_indexes (push_front Unused env) tail s1 t) (push_front Unused env) e1) →
  (∀ t, runs T1 T2 n2 t (translate_rec disable_gc rt_indexes type_indexes (push_front Unused env) tail s2 t) (push_front Unused env) e2) →
  runs T T2 (atom_locals c + (n1 + n2)) t
    (translate_rec disable_gc rt_indexes type_indexes env tail (W.If c s1 s2 s) t) env e.
Proof.
  intros Hm Hc Hcase H1 H2 Ha Hr. cbn [translate_rec].
  destruct (translate_atom_does T c _ t Hm Hc) as (t1 & code1 & -> & Ho1 & [Hl1 _] & Ha1 & Hn1 & He1); [done|lia|].
  cbn [mbind comp_bind]. set (bt := if tail then _ else _).
  destruct (runs_if T T1 T2 n1 n2 t1 (translate_rec disable_gc rt_indexes type_indexes (push_front Unused env) tail s1)
    (translate_rec disable_gc rt_indexes type_indexes (push_front Unused env) tail s2) env bt e1 e2 e)
    as (t2 & code2 & Hok & Ho2 & Hl2 & Ha2 & Hn2 & Hrun); [..|apply H1|intros; apply H2|done|lia|].
  - intros Hbt. destruct Hcase as [(-> & [w Hw] & _)|(_ & ?)]; [|done]. unfold bt in Hbt. by rewrite Hw in Hbt.
  - intros [w Hw]. destruct Hcase as [(-> & [w' Hw'] & ?)|([-> | Hn] & _)].
    + split; [|done]. unfold bt. by rewrite Hw'.
    + done.
    + unfold bt in Hw. rewrite Hn in Hw. by destruct tail.
  - exists t2, (code1 ++ code2). rewrite Ho2, Ho1, app_assoc. split_and!; [done|done|by etrans|apply Ha2..|lia|].
    intros L f rest HL Hs Hf. destruct (Hrun L f rest HL Hs Hf) as (f' & Hf' & Hout). exists f'. split; [|done].
    assert (all_locals t1 `prefix_of` L) as HL1 by (etrans; [|exact HL]; by apply prefix_app).
    pose proof (He1 L HL1 f rest) as Hc1. cbn [pushes foldl] in Hc1. by rewrite run_app, Hc1.
Qed.

Lemma translate_rec_runs st T T' env tail e t :
  T !! mfn = None → result_type env = ret_ →
  stmt_wasm disable_gc rt_indexes type_indexes types_ funcs_ params T env tail st = Some (T', e) →
  T' !! mfn = None ∧ runs T T' (stmt_locals st) t (translate_rec disable_gc rt_indexes type_indexes env tail st t) env e.
Proof.
  revert T T' env tail e t.
  induction st as [|v s|ex s|x ex s|x ex s|c s1 s2 s IH1 IH2|b s IH|l b s IH|l s|a s|ss s IH| |l s] using W.Stmt_ind';
    intros T T' env tail e t Hm Hret H; cbn [stmt_wasm] in H.
  - simplify_eq. split; [done|]. apply does_runs, does_ret.
  - apply bind_Some in H as (T1 & Hv & [= <- <-]). by apply translate_var_runs.
  - apply bind_Some in H as (w & Hw & [= <- <-]). split; [done|]. apply does_runs. cbn [translate_rec stmt_locals].
    rewrite <- (Nat.add_0_r (expr_locals ex)). eapply does_bind; [by apply translate_expr_does|]. intros t1 _ _.
    apply does_emit. intros. apply effect_drop.
  - apply bind_Some in H as (w & Hw & H). apply bind_Some in H as ([] & Hx & [= <- <-]). split; [done|].
    apply assign_wasm_ok in Hx as (k & Hk & Hok). apply does_runs. cbn [translate_rec stmt_locals].
    eapply assign_does; [done|by apply translate_expr_does|done].
  - destruct (T !! x) as [k|] eqn:Hx; [|done].
    assert (∃ b, kind_ty k = Some (N.Ref b) ∧ (w ← expr_wasm disable_gc rt_indexes type_indexes types_ funcs_ params T ex;
      if decide (w = as_wasm b) then Some (T, Fall) else None) = Some (T', e)) as (b & Hk & H').
    { destruct k as [ty|m ty|sg]; [destruct ty|destruct ty|]; try done; by eexists. }
    apply bind_Some in H' as (w & Hw & H'). case_decide; simplify_eq. split; [done|]. by eapply translate_store_runs.
  - apply bind_Some in H as (w & Hw & H). apply bind_Some in H as ([] & Hwc & H).
    apply is_true_ok, bool_decide_eq_true in Hwc. subst w.
    apply bind_Some in H as ([T1 e1] & H1 & H). apply bind_Some in H as ([T2 e2] & H2 & H).
    destruct (IH1 T T1 (push_front Unused env) tail e1 t Hm Hret H1) as [Hm1 _].
    assert (T2 = T' ∧ T2 !! mfn = None) as [-> Hm2].
    { split; [|by apply (IH2 T1 T2 (push_front Unused env) tail e2 t)].
      destruct (tail && _); [case_decide|]; by simplify_eq. }
    assert (e1 = Val → tail = true ∧ is_Some (result_type env)) as V1 by (intros ->; by apply stmt_wasm_val in H1).
    assert (e2 = Val → tail = true ∧ is_Some (result_type env)) as V2 by (intros ->; by apply stmt_wasm_val in H2).
    split; [done|]. apply (runs_atom_if T T1 T' _ _ t c tail s1 s2 env e1 e2 e); [done|done| |intros; by apply IH1|intros; by apply IH2].
    clear -H V1 V2. destruct tail; cbn [andb] in H; [case_bool_decide|].
    + case_decide; simplify_eq. left. naive_solver.
    + simplify_eq. right. split; [right; by apply eq_None_not_Some|]. naive_solver.
    + simplify_eq. right. naive_solver.
  - apply bind_Some in H as ([T1 e1] & H1 & [= <- <-]). destruct (IH T T1 (push_front Unused env) false e1 (emit (I.Loop I.NoResult) t) Hm Hret H1) as [Hm1 Hb].
    split; [done|]. cbn [translate_rec stmt_locals].
    apply (runs_block T T1 _ t (translate_rec disable_gc rt_indexes type_indexes (push_front Unused env) false b) env Unused e1
      (I.Loop I.NoResult) [I.Br 0; I.End]); [done| | |done].
    + intros L g f rest Hl He Hi Hlv. by apply end_loop.
    + intros ->. by apply stmt_wasm_val in H1 as [].
  - destruct l as [l|]; [|done]. apply bind_Some in H as ([T1 e1] & H1 & H). case_decide; simplify_eq.
    destruct (IH T T' (push_front (Label (W.Named l)) env) tail e1 (emit (I.Block I.NoResult) t) Hm Hret H1) as [Hm1 Hb].
    split; [done|]. cbn [translate_rec stmt_locals].
    apply (runs_block T T' _ t (translate_rec disable_gc rt_indexes type_indexes (push_front (Label (W.Named l)) env) tail b)
      env (Label (W.Named l)) e1 (I.Block I.NoResult) [I.End]); [done|intros; by apply end_block|done|done].
  - apply bind_Some in H as (i & Hi & [= <- <-]). split; [done|]. by apply (translate_break_runs T t l i).
  - apply bind_Some in H as ([] & Hgc & H). apply bind_Some in H as (w & Hw & H). case_decide; simplify_eq.
    split; [done|]. apply is_true_ok in Hgc. by eapply translate_return_runs.
  - cbn [translate_rec stmt_locals].
    revert T T' e t Hm H. induction IH as [|st ss Hst HF IH]; intros T T' e t Hm H.
    + simplify_eq. split; [done|]. apply does_runs, does_ret.
    + destruct ss as [|st' ss].
      * cbn. rewrite Nat.add_0_r. by apply Hst.
      * apply bind_Some in H as ([T1 e1] & H1 & H). apply bind_Some in H as ([T2 e2] & H2 & [= <- <-]).
        destruct (Hst T T1 env false e1 t Hm Hret H1) as [Hm1 Hr1]. split; [by eapply (IH T1 T2 e2 t)|].
        apply (runs_seq T T1 T2 (stmt_locals st) (list_sum (map stmt_locals (st' :: ss))) t); [|done|].
        -- intros ->. by apply stmt_wasm_val in H1 as [].
        -- intros t'. by apply (IH T1 T2 e2 t').
  - simplify_eq. split; [done|]. apply translate_trap_runs.
  - done.
Qed.

(** ** Functions *)
Lemma bind_params_agree ps : ∀ T t pre,
  params = pre ++ map (λ p, as_wasm p.2) ps → locals t = [] → next_id t = length pre → map_Forall (binds t) T →
  let t' := bind_params ps t in
  out t' = out t ∧ data t' = data t ∧ locals t' = [] ∧ agree (bind_kinds ps T) t'.
Proof.
  induction ps as [|[x ty] ps IH]; intros T t pre Hp Hl Hn Hb.
  - cbn. split_and!; try done. split; [|done]. unfold all_locals. by rewrite Hl, Hp, !app_nil_r.
  - cbn in Hp. unfold bind_params, bind_kinds. cbn [foldl fst snd]. set (t1 := mkTranslate _ _ _ _ _).
    apply (IH (<[x := KLocal ty]> T) t1 (pre ++ [as_wasm ty])).
    + by rewrite <- app_assoc.
    + done.
    + cbn. rewrite length_app, Hn. cbn. lia.
    + intros y k [[<- <-]|[Hne Hy]]%lookup_insert_Some.
      * exists (next_id t). cbn. rewrite lookup_insert_eq. split; [done|]. unfold all_locals.
        rewrite Hp, Hn. apply lookup_app_l_Some. by rewrite list_lookup_middle.
      * specialize (Hb y k Hy). unfold binds, all_locals in *. cbn. by rewrite lookup_insert_ne.
Qed.
(** A body, between code that leaves the stack as it is. *)
Lemma body_valid L enter_ code exit_ e :
  effect (ctx L) enter_ [] [] → effect (ctx L) exit_ [] [] →
  match ret_ with None => true | Some _ => bool_decide (e ≠ Fall) end = true →
  (∀ f rest, stack f = [] → frames_ok (mkEnv [] ret_) (f :: rest) →
     ∃ f', run (ctx L) (f :: rest) code = Some (f' :: rest) ∧ outcome (mkEnv [] ret_) e f f') →
  Valid.validate (ctx L) (enter_ ++ (code ++ exit_) ++ [I.End]) = true.
Proof.
  intros Hin Hex He Hc. unfold Valid.validate. rewrite app_assoc, last_snoc, removelast_last.
  unfold enter. cbn [Valid.ret ctx]. set (f := mkFrame false ret_ ret_ false []).
  destruct (Hc f []) as (f' & Hf' & Hout); [done|by intros i l|].
  pose proof (Hin f []) as Hin'. pose proof (Hex f' []) as Hex'. cbn [pushes foldl] in Hin', Hex'.
  rewrite run_app, Hin'. cbn [mbind option_bind]. rewrite run_app, Hf'. cbn [mbind option_bind]. rewrite Hex'.
  destruct (outcome_leave _ e f f' Hout eq_refl) as [-> _].
  - intros ->. by destruct ret_.
  - done.
  - done.
Qed.
(** The calls at the entry and at the exit of a function. *)
Lemma gc_exit_does T t :
  disable_gc || bool_decide (call_rt rt_indexes funcs_ "gc_exit_fn" [] = Some None) = true →
  does T 0 t (if disable_gc then Ok t else rt_call rt_indexes "gc_exit_fn" t) [] [].
Proof.
  intros H. destruct disable_gc; [apply does_ret|]. apply bool_decide_eq_true in H. by apply (rt_call_does T t _ [] None).
Qed.
Lemma gc_enter_ok n :
  disable_gc || bool_decide (call_rt rt_indexes funcs_ "gc_enter_fn" [V.I32] = Some None) = true → Z.of_nat n < 2 ^ 31 →
  ∃ insts, (if disable_gc then Ok [] else
      n ← i32_try_from n; enter ← expect "no enter" (rt_indexes !! "gc_enter_fn"); Ok [I.I32Const n; I.Call enter]) =
    (Ok insts : comp never _) ∧ ∀ L, effect (ctx L) insts [] [].
Proof.
  intros H Hn. destruct disable_gc; [exists []; split; [done|intros; apply effect_nil]|]. apply bool_decide_eq_true in H.
  rewrite i32_try_from_ok by done. unfold call_rt, rt_sig in H. destruct (rt_indexes !! _) as [i|]; [|done]. cbn in H.
  destruct (funcs_ !! i) as [[ts r]|] eqn:Hi; [|done]. cbn in H. case_decide; [|done]. simplify_eq.
  eexists. split; [done|]. intros L. apply (effect_app _ [_] [_] [] [V.I32] []); [apply const_effect|].
  by apply (effect_op _ _ [V.I32] None).
Qed.
End valid.

(** What the environment of a module promises: [T] is known to [id_env]. *)
Definition scope_ok (rt_indexes : gmap string nat) (funcs : list sig) (gs : list (ValueType * bool))
    (T : kenv) (id_env : IdEnv) : Prop :=
  map_Forall (λ x k, match k with
    | KLocal _ => False
    | KGlobal is_mut ty => ∃ n, id_env !! x = Some (Global n ty) ∧ gs !! n = Some (as_wasm ty, is_mut) ∧ Z.of_nat n < 2 ^ 31
    | KFun sg => ∃ n, id_env !! x = Some (IFun n) ∧ funcs !! (n + size rt_indexes)%nat = Some sg
    end) T.
Definition func_locals (f : W.Function) : nat := length (W.fn_params f) + stmt_locals (W.fn_body f).

Lemma translate_func_ok disable_gc rt_indexes type_indexes types funcs gs T id_env f data :
  (∃ m, gs !! JNKS_STRINGS_IDX = Some (V.I32, m)) → scope_ok rt_indexes funcs gs T id_env →
  func_wasm disable_gc rt_indexes type_indexes types funcs T f = true →
  Z.of_nat (func_locals f) < 2 ^ 31 →
  let args := types_as_wasm (N.args (W.fn_type f)) in
  let ret := option_as_wasm (N.result (W.fn_type f)) in
  ∃ d data', translate_func disable_gc rt_indexes type_indexes f id_env data = Ok (d, data') ∧
    signature d = (args, ret) ∧
    Valid.validate (mkCtx types funcs gs (args ++ body_locals d) ret) (body d) = true.
Proof.
  intros Hs Hscope H Hb args ret. unfold func_wasm in H.
  apply andb_true_iff in H as [H Hbody]. apply andb_true_iff in H as [H Hmfn]. apply andb_true_iff in H as [Hlen Hgc].
  apply bool_decide_eq_true in Hlen, Hmfn. fold ret in Hbody. change (types_as_wasm (N.args (W.fn_type f))) with args in Hbody.
  set (ps := zip (W.fn_params f) (N.args (W.fn_type f))) in *.
  destruct (stmt_wasm _ _ _ _ _ _ _ _ _ _) as [[T' e]|] eqn:Hst; [|done].
  destruct (bind_params_agree rt_indexes funcs gs args ps T (translate_new id_env data) []) as (Ho & Hd & Hl & Ha); [|done|done| |].
  { unfold args, types_as_wasm, ps. cbn. rewrite <- (map_map snd as_wasm). f_equal. symmetry. apply snd_zip. lia. }
  { intros x k Hx. specialize (Hscope x k Hx). destruct k; cbn in *; done. }
  destruct (translate_rec_runs disable_gc rt_indexes type_indexes types funcs gs args ret Hs (W.fn_body f)
    (bind_kinds ps T) T' (mkEnv [] ret) true e (bind_params ps (translate_new id_env data)) Hmfn eq_refl Hst) as [_ Hrun].
  assert (next_id (bind_params ps (translate_new id_env data)) = length (W.fn_params f)) as Hnext.
  { destruct Ha as [-> _]. unfold all_locals. rewrite Hl, app_nil_r. unfold args, types_as_wasm. by rewrite length_map. }
  destruct Hrun as (t & code & Ht & Hout & _ & Hat & Hle & Hcode); [done|rewrite Hnext; unfold func_locals in Hb; lia|].
  pose proof (proj1 Hat) as Hn.
  assert (length (locals t) + length (W.fn_params f) = length (all_locals args t))%nat as Hslots.
  { unfold all_locals, args, types_as_wasm. rewrite length_app, length_map. lia. }
  assert (disable_gc || bool_decide (call_rt rt_indexes funcs "gc_enter_fn" [V.I32] = Some None) = true ∧
    disable_gc || bool_decide (call_rt rt_indexes funcs "gc_exit_fn" [] = Some None) = true) as [Hgc1 Hgc2].
  { destruct disable_gc; [done|]. by apply andb_true_iff in Hgc. }
  destruct (gc_enter_ok disable_gc rt_indexes types funcs gs ret (length (all_locals args t)) Hgc1)
    as (insts & Hin & Heff); [unfold func_locals in Hb; lia|].
  destruct (gc_exit_does disable_gc rt_indexes types funcs gs args ret T' t Hgc2 Hat)
    as (t' & exit & Ht' & Hout' & [Hl' _] & _ & _ & He'); [unfold func_locals in Hb; lia|].
  unfold translate_func. fold ps. cbv zeta. fold ret. rewrite Ht. cbn [mbind comp_bind]. rewrite Hslots, Hin. cbn [mbind comp_bind].
  rewrite Ht'. cbn [mbind comp_bind]. eexists _, _. split; [done|]. split; [done|]. cbn [body body_locals].
  rewrite Hout', Hout, Ho. cbn [out translate_new app].
  apply (body_valid types funcs gs ret (args ++ locals t') insts code exit e); [apply Heff|by apply He'|done|].
  intros fr rest. apply Hcode. by apply prefix_app.
Qed.
