(* ===== verification/TranslationProgram.v ===== *)
(** The code generator on whole programs: the indices of types and functions
    are right, and the modules that are generated are valid. *)
From S2P Require Import Prelude Types Operators NotWasm Wasm Translation WasmConditions TranslationTyping.
Import V(ValueType).

(** ** The builder's table of signatures

    What the code relies on: a signature is added once. *)
Class SignatureTable (push_signature : list sig → sig → list sig * nat) : Prop := {
  push_known tys sg : NoDup tys → sg ∈ tys → ∃ i, push_signature tys sg = (tys, i) ∧ tys !! i = Some sg;
  push_new tys sg : sg ∉ tys → push_signature tys sg = (tys ++ [sg], length tys)
}.
(** A table that finds signatures by comparing them in order. *)
Definition find_or_add (tys : list sig) (sg : sig) : list sig * nat :=
  match list_find (λ sg', sg = sg') tys with Some (i, _) => (tys, i) | None => (tys ++ [sg], length tys) end.
#[global] Instance find_or_add_table : SignatureTable find_or_add.
Proof.
  split.
  - intros tys sg _ Hin. unfold find_or_add. destruct (list_find _ tys) as [[i sg']|] eqn:Hf.
    + apply list_find_Some in Hf as (Hi & <- & _). by exists i.
    + apply list_find_None in Hf. rewrite Forall_forall in Hf. by destruct (Hf sg Hin).
  - intros tys sg Hin. unfold find_or_add. destruct (list_find _ tys) as [[i sg']|] eqn:Hf; [|done].
    apply list_find_Some in Hf as (Hi & <- & _). destruct Hin. by eapply list_elem_of_lookup_2.
Qed.

(** The map gives the positions of the elements of the list. *)
Definition positions {A} `{Countable A} (l : list A) (m : gmap A nat) : Prop :=
  NoDup l ∧ ∀ x i, m !! x = Some i ↔ l !! i = Some x.
Section positions.
Context {A} `{Countable A}.
Implicit Types (l : list A) (m : gmap A nat).
Lemma positions_nil : positions [] (∅ : gmap A nat).
Proof. split; [constructor|]. intros x i. by rewrite lookup_empty, lookup_nil. Qed.
Lemma positions_size l m : positions l m → size m = length l.
Proof.
  intros [Hn Hm]. rewrite <- size_dom, <- (size_list_to_set (C := gset A) l) by done. f_equal.
  apply leibniz_equiv. intros x. rewrite elem_of_dom, elem_of_list_to_set, list_elem_of_lookup.
  split; intros [i Hi]; exists i; by apply Hm.
Qed.
Lemma positions_snoc l m x : positions l m → x ∉ l → positions (l ++ [x]) (<[x := length l]> m).
Proof.
  intros [Hn Hm] Hx. split; [apply NoDup_app; split_and!; [done|set_solver|apply NoDup_singleton]|].
  intros y i. rewrite lookup_insert_Some, lookup_app_Some, Hm. split.
  - intros [[<- <-]|[Hne Hi]]; [right; split; [lia|]; by rewrite Nat.sub_diag|by left].
  - intros [Hi|[Hle Hi]]; [right; split; [|done]; intros ->; by destruct Hx; eapply list_elem_of_lookup_2|].
    apply list_lookup_singleton_Some in Hi as [Hi ->]. left. split; [done|lia].
Qed.
Lemma positions_known l m x : positions l m → x ∈ l → is_Some (m !! x).
Proof. intros [_ Hm] [i Hi]%list_elem_of_lookup. exists i. by apply Hm. Qed.
Lemma positions_fresh l m x : positions l m → x ∉ l → m !! x = None.
Proof.
  intros [_ Hm] Hx. destruct (m !! x) as [i|] eqn:Hi; [|done]. destruct Hx. apply Hm in Hi. by eapply list_elem_of_lookup_2.
Qed.
End positions.

(** ** Indices *)
Definition fn_sig (f : W.Function) : sig := (types_as_wasm (N.args (W.fn_type f)), option_as_wasm (N.result (W.fn_type f))).
Definition rt_sig_of (b : string * N.typ) : option (string * sig) :=
  match b.2 with N.Fn args r => Some (b.1, (types_as_wasm args, option_as_wasm r)) | _ => None end.

Section indexes.
Context (push_signature : list sig → sig → list sig * nat) `{!SignatureTable push_signature}.
Notation push tys sg := (push_signature tys sg).1.

(** A signature has the index that the table gives it. *)
Lemma push_positions tys m sg :
  positions tys m →
  positions (push tys sg) (or_insert m sg (size m)).1 ∧ tys `prefix_of` push tys sg ∧
  or_insert m sg (push_signature tys sg).2 = ((or_insert m sg (size m)).1, (push_signature tys sg).2).
Proof.
  intros Hp. pose proof (positions_size _ _ Hp) as Hs. unfold or_insert. destruct (decide (sg ∈ tys)) as [Hin|Hin].
  - destruct (push_known tys sg (proj1 Hp) Hin) as (i & -> & Hi). apply (proj2 Hp) in Hi. rewrite Hi. by split_and!.
  - rewrite (push_new tys sg Hin), (positions_fresh _ _ _ Hp Hin). cbn. rewrite Hs. split_and!; [|by apply prefix_app_r|done].
    by apply positions_snoc.
Qed.
Lemma index_functions_positions fs : ∀ tys m,
  positions tys m →
  positions (foldl (λ tys sg, push tys sg) tys (map (λ f, fn_sig f.2) fs)) (foldl (λ m (f : Id * W.Function), index_function m f.2) m fs) ∧
  tys `prefix_of` foldl (λ tys sg, push tys sg) tys (map (λ f, fn_sig f.2) fs).
Proof.
  induction fs as [|f fs IH]; intros tys m Hp; [by split|]. cbn.
  destruct (push_positions tys m (fn_sig f.2) Hp) as (Hp' & Hpre & _). destruct (IH _ _ Hp') as [H1 H2].
  split; [exact H1|]. by etrans.
Qed.

(** The imports so far: [positions] of their names, and their signatures. *)
Definition indexed (s : Indexes) : Prop :=
  positions (ix_types s) (type_indexes s) ∧ positions (ix_imports s).*1 (rt_indexes s).
Lemma index_rt_ok s b e :
  indexed s → rt_sig_of b = Some e → b.1 ∉ (ix_imports s).*1 →
  ∃ s', index_rt push_signature s b = Ok s' ∧ indexed s' ∧ ix_types s' = push (ix_types s) e.2 ∧
    ix_imports s' = ix_imports s ++ [e].
Proof.
  intros [Ht Hr] He Hb. unfold rt_sig_of in He. unfold index_rt. destruct b as [name ty]. cbn in *.
  destruct ty as [| | | | | | |args r| | | | |]; try done. simplify_eq.
  destruct (push_positions _ _ (types_as_wasm args, option_as_wasm r) Ht) as (Hp & _ & Ho).
  destruct (push_signature _ _) as [tys i]. cbn in *. rewrite Ho. cbn. rewrite bool_decide_true by done. cbn.
  eexists. split; [done|]. split; [|done]. split; [done|]. cbn. rewrite fmap_app. cbn.
  rewrite <- (length_fmap fst (ix_imports s)). by apply positions_snoc.
Qed.
Lemma index_rts_ok bs es : ∀ s,
  indexed s → mapM rt_sig_of bs = Some es → NoDup ((ix_imports s).*1 ++ bs.*1) →
  ∃ s', foldM (index_rt push_signature) s bs = Ok s' ∧ indexed s' ∧
    ix_types s' = foldl (λ tys sg, push tys sg) (ix_types s) es.*2 ∧ ix_imports s' = ix_imports s ++ es.
Proof.
  revert es. induction bs as [|b bs IH]; intros es s Hi Hm Hn; cbn in Hm.
  - injection Hm as <-. exists s. cbn. by rewrite app_nil_r.
  - apply bind_Some in Hm as (e & He & Hm). apply bind_Some in Hm as (es' & Hes & [= <-]).
    assert (b.1 = e.1) as Hbe by (unfold rt_sig_of in He; destruct (b.2); by simplify_eq).
    cbn in Hn. assert (b.1 ∉ (ix_imports s).*1) as Hb.
    { apply NoDup_app in Hn as (_ & Hd & _). intros Hin. apply (Hd _ Hin). by left. }
    destruct (index_rt_ok s b e Hi He Hb) as (s1 & Hs1 & Hi1 & Ht1 & Him1).
    destruct (IH es' s1 Hi1 Hes) as (s2 & Hs2 & Hi2 & Ht2 & Him2).
    { rewrite Him1, fmap_app, <- app_assoc. cbn. by rewrite <- Hbe. }
    exists s2. cbn. rewrite Hs1. cbn. split_and!; [done|done|by rewrite Ht2, Ht1|by rewrite Him2, Him1, <- app_assoc].
Qed.
End indexes.

(** ** Modules *)
Definition main_sig : sig := ([], None).
(** The signatures of the functions, in the order of their indices. *)
Definition module_funcs (es : list (string * sig)) (program : W.Program) : list sig :=
  es.*2 ++ map (λ f, fn_sig f.2) (W.functions program) ++ [main_sig].
Definition rt_global_types : list (ValueType * bool) := map (λ _, (V.I32, false)) rt_globals.
Definition global_types (program : W.Program) : list (ValueType * bool) :=
  rt_global_types ++ map (λ g, (as_wasm (W.global_ty g.2), W.is_mut g.2)) (W.globals program).
(** What the names of a program stand for; the name of the runtime's global is
    not for programs. *)
Definition module_scope (program : W.Program) : kenv :=
  let T := foldl (λ T f, <[f.1 := KFun (fn_sig f.2)]> T) ∅ (W.functions program) in
  let T := foldl (λ T (g : string * N.typ), delete (Named g.1) T) T rt_globals in
  foldl (λ T g, <[g.1 := KGlobal (W.is_mut g.2) (W.global_ty g.2)]> T) T (W.globals program).

Section scope.
Context (rt_indexes : gmap string nat) (funcs : list sig) (gs : list (ValueType * bool)).
Notation scope_ok := (scope_ok rt_indexes funcs gs).

Lemma scope_ok_insert T env x k i :
  scope_ok T env → scope_ok {[ x := k ]} {[ x := i ]} → scope_ok (<[x := k]> T) (<[x := i]> env).
Proof.
  intros Hs Hx y k' [[<- <-]|[Hne Hy]]%lookup_insert_Some.
  - specialize (Hx x k (lookup_singleton_eq x k)). cbv beta in Hx. rewrite lookup_singleton_eq in Hx. by rewrite lookup_insert_eq.
  - specialize (Hs y k' Hy). cbv beta in Hs. by rewrite lookup_insert_ne.
Qed.
Lemma scope_ok_delete T env x i : scope_ok T env → scope_ok (delete x T) (<[x := i]> env).
Proof. intros Hs y k [Hne Hy]%lookup_delete_Some. specialize (Hs y k Hy). cbv beta in Hs. by rewrite lookup_insert_ne. Qed.

Lemma scope_functions fs : ∀ T env n,
  (∀ i f, fs !! i = Some f → funcs !! (n + i + size rt_indexes)%nat = Some (fn_sig f.2)) → scope_ok T env →
  scope_ok (foldl (λ T (f : Id * W.Function), <[f.1 := KFun (fn_sig f.2)]> T) T fs)
    (foldl (λ m xi, <[xi.1 := xi.2]> m) env (imap (λ i f, (f.1, IFun (n + i))) fs)).
Proof.
  induction fs as [|f fs IH]; intros T env n Hf Hs; [done|]. cbn.
  rewrite (imap_ext _ (λ i f, (f.1, IFun (S n + i)))) by (intros; cbn; by rewrite Nat.add_succ_r).
  apply IH.
  - intros i g Hg. specialize (Hf (S i) g Hg). by rewrite Nat.add_succ_r in Hf.
  - apply scope_ok_insert; [done|]. intros y k [<- <-]%lookup_singleton_Some. exists (n + 0)%nat.
    rewrite lookup_singleton_eq. split; [done|]. by apply (Hf 0%nat).
Qed.
Lemma scope_globals xs : ∀ T env n,
  (∀ i g, xs !! i = Some g → gs !! (n + i)%nat = Some (as_wasm (W.global_ty g.2), W.is_mut g.2)) →
  Z.of_nat (n + length xs) <= 2 ^ 31 → scope_ok T env →
  scope_ok (foldl (λ T (g : Id * W.Global), <[g.1 := KGlobal (W.is_mut g.2) (W.global_ty g.2)]> T) T xs)
    (foldl (λ m xi, <[xi.1 := xi.2]> m) env (imap (λ i g, (g.1, Global (n + i) (W.global_ty g.2))) xs)).
Proof.
  induction xs as [|g xs IH]; intros T env n Hf Hb Hs; [done|]. cbn in *.
  rewrite (imap_ext _ (λ i g, (g.1, Global (S n + i) (W.global_ty g.2)))) by (intros; cbn; by rewrite Nat.add_succ_r).
  apply IH.
  - intros i h Hh. specialize (Hf (S i) h Hh). by rewrite Nat.add_succ_r in Hf.
  - lia.
  - apply scope_ok_insert; [done|]. intros y k [<- <-]%lookup_singleton_Some. exists (n + 0)%nat.
    rewrite lookup_singleton_eq. split; [done|]. split; [by apply (Hf 0%nat)|lia].
Qed.
End scope.

Lemma module_scope_ok program rt_indexes es :
  size rt_indexes = length es → Z.of_nat (length (global_types program)) <= 2 ^ 31 →
  scope_ok rt_indexes (module_funcs es program) (global_types program) (module_scope program) (make_global_env program).
Proof.
  intros Hsize Hb. unfold module_scope, make_global_env. cbv zeta. rewrite !foldl_app.
  apply (scope_globals _ _ _ _ _ _ (length rt_globals)).
  - intros i g Hg. unfold global_types. rewrite lookup_app_r by (cbn; lia). cbn. by rewrite list_lookup_fmap, Nat.sub_0_r, Hg.
  - unfold global_types, rt_global_types in Hb. rewrite length_app, !length_map in Hb. lia.
  - cbn. apply scope_ok_delete. apply (scope_functions _ _ _ _ ∅ ∅ 0).
    + intros i f Hf. unfold module_funcs. rewrite lookup_app_r by (rewrite length_fmap; lia).
      rewrite length_fmap, Hsize. replace (0 + i + length es - length es)%nat with i by lia.
      apply lookup_app_l_Some. by rewrite list_lookup_fmap, Hf.
    + intros x k Hx. by rewrite lookup_empty in Hx.
Qed.

(** ** What programs are translated *)
Definition lit_const (l : W.Lit) : option ValueType :=
  match l with W.LI32 _ | W.LBool _ => Some V.I32 | W.LF64 _ => Some V.F64 | _ => None end.
Definition global_wasm (g : W.Global) : bool :=
  match W.global_atom g with
  | None => true
  | Some (W.ALit l _) => bool_decide (lit_const l = Some (as_wasm (W.global_ty g)))
  | Some _ => false
  end.
Definition main_wasm (disable_gc : bool) (rt_indexes : gmap string nat) (funcs : list sig) (T : kenv) (program : W.Program) : bool :=
  bool_decide (call_rt rt_indexes funcs "init" [] = Some None) &&
  (disable_gc || bool_decide (call_rt rt_indexes funcs "gc_enter_fn" [V.I32] = Some None) &&
                 bool_decide (call_rt rt_indexes funcs "gc_exit_fn" [] = Some None)) &&
  forallb (λ g, bool_decide (W.global_atom g.2 = None) || globals_frame_ok disable_gc rt_indexes funcs (W.global_ty g.2))
    (W.globals program) &&
  bool_decide (notwasm_sig T "jnks_init" = Some main_sig) && bool_decide (notwasm_sig T "main" = Some main_sig).
Definition program_wasm (disable_gc : bool) (push_signature : list sig → sig → list sig * nat)
    (rt_types : list (string * N.typ)) (program : W.Program) : bool :=
  match mapM rt_sig_of (rt_types ++ W.rts_fn_imports program), module_indexes push_signature rt_types program with
  | Some es, Ok s =>
      let funcs := module_funcs es program in
      let types := foldl (λ tys sg, (push_signature tys sg).1) [] funcs in
      let T := module_scope program in
      bool_decide (NoDup (rt_types ++ W.rts_fn_imports program).*1) &&
      bool_decide (Z.of_nat (length (global_types program)) < 2 ^ 31) &&
      forallb (λ f, func_wasm disable_gc (rt_indexes s) (type_indexes s) types funcs T f.2 &&
                    bool_decide (Z.of_nat (func_locals f.2) < 2 ^ 31)) (W.functions program) &&
      forallb (λ g, global_wasm g.2) (W.globals program) &&
      main_wasm disable_gc (rt_indexes s) funcs T program
  | _, _ => false
  end.

(** ** Valid modules *)
Definition all_functions (m : Module_) : list FunctionDefinition := functions m ++ [main m].
Definition function_valid (types funcs : list sig) (gs : list (ValueType * bool)) (d : FunctionDefinition) : bool :=
  Valid.validate (Valid.mkCtx types funcs gs ((signature d).1 ++ body_locals d) (signature d).2) (body d).
Definition module_valid (m : Module_) : bool :=
  let funcs := (imports m).*2 ++ map signature (all_functions m) in
  let gs := rt_global_types ++ map fst (module_globals m) in
  forallb (function_valid (types m) funcs gs) (all_functions m) &&
  forallb (λ g, bool_decide (Valid.const_type g.2 = Some g.1.1)) (module_globals m) &&
  forallb (λ i, bool_decide (i < length funcs)%nat) (table m) &&
  bool_decide (funcs !! main_index m = Some main_sig).

Section program.
Context (disable_gc : bool) (push_signature : list sig → sig → list sig * nat).

Lemma translate_funcs_ok rt_indexes type_indexes types funcs gs T env fs : ∀ acc data,
  (∃ m, gs !! JNKS_STRINGS_IDX = Some (V.I32, m)) → scope_ok rt_indexes funcs gs T env →
  forallb (λ f : Id * W.Function, func_wasm disable_gc rt_indexes type_indexes types funcs T f.2 &&
    bool_decide (Z.of_nat (func_locals f.2) < 2 ^ 31)) fs = true →
  ∃ ds data', foldM (λ '(fs, data) (f : Id * W.Function),
      '(d, data) ← translate_func disable_gc rt_indexes type_indexes f.2 env data; Ok (fs ++ [d], data)) (acc, data) fs =
    (Ok (acc ++ ds, data') : comp never _) ∧
    map signature ds = map (λ f, fn_sig f.2) fs ∧ forallb (function_valid types funcs gs) ds = true.
Proof.
  intros acc data Hs HT. revert acc data. induction fs as [|f fs IH]; intros acc data H.
  - exists [], data. by rewrite app_nil_r.
  - cbn in H. apply andb_true_iff in H as [Hf H]. apply andb_true_iff in Hf as [Hf Hb]. apply bool_decide_eq_true in Hb.
    destruct (translate_func_ok disable_gc rt_indexes type_indexes types funcs gs T env f.2 data Hs HT Hf Hb)
      as (d & data1 & Hd & Hsig & Hv).
    destruct (IH (acc ++ [d]) data1 H) as (ds & data2 & Hds & Hsigs & Hvs).
    exists (d :: ds), data2. cbn. rewrite Hd. cbn. rewrite Hds, <- app_assoc. split; [done|].
    split; [by rewrite Hsig, Hsigs|]. apply andb_true_iff. split; [|done]. unfold function_valid. by rewrite Hsig.
Qed.
Lemma translate_global_ok s env data g :
  global_wasm g = true →
  ∃ i, translate_global disable_gc s env data g = Ok ((as_wasm (W.global_ty g), W.is_mut g, i), data) ∧
    Valid.const_type i = Some (as_wasm (W.global_ty g)).
Proof.
  unfold global_wasm, translate_global. destruct (W.global_atom g) as [[l p| | | | | | | | | | | | |]|]; try done.
  - intros H%bool_decide_eq_true. destruct l; cbn in *; try done; (eexists; split; [reflexivity|exact H]).
  - intros _. cbn. eexists. split; [done|]. by destruct (as_wasm _).
Qed.
Lemma translate_globals_ok s env gs : ∀ acc data,
  forallb (λ g : Id * W.Global, global_wasm g.2) gs = true →
  ∃ mgs, foldM (λ '(gs, data) (g : Id * W.Global),
      '(g, data) ← translate_global disable_gc s env data g.2; Ok (gs ++ [g], data)) (acc, data) gs = (Ok (acc ++ mgs, data) : comp never _) ∧
    map fst mgs = map (λ g, (as_wasm (W.global_ty g.2), W.is_mut g.2)) gs ∧
    forallb (λ g : ValueType * bool * I.Instruction, bool_decide (Valid.const_type g.2 = Some g.1.1)) mgs = true.
Proof.
  induction gs as [|g gs IH]; intros acc data H; [exists []; by rewrite app_nil_r|].
  cbn in H. apply andb_true_iff in H as [Hg H]. destruct (translate_global_ok s env data g.2 Hg) as (i & Hi & Hc).
  destruct (IH (acc ++ [(as_wasm (W.global_ty g.2), W.is_mut g.2, i)]) data H) as (mgs & Hm & Hty & Hcs).
  exists ((as_wasm (W.global_ty g.2), W.is_mut g.2, i) :: mgs). cbn. rewrite Hi. cbn. rewrite Hm, <- app_assoc.
  split; [done|]. split; [by rewrite Hty|]. by rewrite bool_decide_true.
Qed.

(** *** The entry point *)
Section main.
Context (rt_indexes : gmap string nat) (types funcs : list sig) (gs : list (ValueType * bool)).
Notation c := (ctx types funcs gs None []).
Lemma call_rt_effect name ws r :
  call_rt rt_indexes funcs name ws = Some r → ∃ i, rt_indexes !! name = Some i ∧ effect c [I.Call i] ws (option_list r).
Proof.
  unfold call_rt, rt_sig. destruct (rt_indexes !! name) as [i|]; cbn; [|done].
  destruct (funcs !! i) as [[ts r']|] eqn:Hi; cbn; [|done]. case_decide; [|done]. intros [= ->]. subst.
  exists i. split; [done|]. by apply effect_op.
Qed.
(** The loop that puts the globals in the first frame. *)
Lemma init_globals_ok l : ∀ insts,
  effect c insts [] [] →
  Forall (λ ig : nat * W.Global, gs !! (length rt_globals + ig.1)%nat = Some (as_wasm (W.global_ty ig.2), W.is_mut ig.2) ∧
    bool_decide (W.global_atom ig.2 = None) || globals_frame_ok disable_gc rt_indexes funcs (W.global_ty ig.2) = true) l →
  ∃ insts', foldM (λ insts '(index, g),
      if negb disable_gc && N.is_gc_root (W.global_ty g) && bool_decide (is_Some (W.global_atom g)) then
        call ← get_set_in_globals_frame rt_indexes (W.global_ty g);
        Ok (insts ++ [I.GetGlobal (length rt_globals + index); I.I32Const (as_i32 (length rt_globals + index)); call])
      else Ok insts) insts l = (Ok insts' : comp never _) ∧ effect c insts' [] [].
Proof.
  induction l as [|[index g] l IH]; intros insts He H; [by exists insts|].
  inversion H as [|? ? [Hg Hf] Hl]; subst. cbn [fst snd] in *. cbn [foldM].
  destruct (negb disable_gc && _ && _) eqn:Hc; [|by apply IH].
  apply andb_true_iff in Hc as [Hc Ha]. apply bool_decide_eq_true in Ha. apply andb_true_iff in Hc as [Hgc Hroot].
  rewrite bool_decide_false in Hf by (intros Hn; rewrite Hn in Ha; by destruct Ha). cbn in Hf.
  destruct (globals_frame_call disable_gc rt_indexes funcs _ Hf) as [Hn|(i & Hi & Hfi)].
  { by destruct disable_gc, (N.is_gc_root (W.global_ty g)). }
  rewrite Hi. cbn [mbind comp_bind]. apply IH; [|done]. eapply effect_app; [exact He|].
  apply (effect_app _ [_] [_; _] [] [as_wasm (W.global_ty g)]).
  - apply (effect_op _ _ [] (Some _)). cbn. cbn in Hg. by rewrite Hg.
  - apply (effect_app _ [_] [_] [_] [as_wasm (W.global_ty g); V.I32]).
    + apply (effect_frame _ _ [_] [] [_]), const_effect.
    + by apply (effect_op _ _ [_; _] None).
Qed.
Lemma notwasm_sig_effect T env name :
  scope_ok rt_indexes funcs gs T env → notwasm_sig T name = Some main_sig →
  ∃ f, env !! Named name = Some (IFun f) ∧ effect c [I.Call (f + size rt_indexes)%nat] [] [].
Proof.
  unfold notwasm_sig. intros Hs. destruct (T !! Named name) as [[| |sg]|] eqn:Hx; intros H; simplify_eq.
  destruct (Hs _ _ Hx) as (n & Hn & Hf). exists n. split; [done|]. by apply (effect_op _ _ [] None).
Qed.

Lemma generated_main_ok T env program :
  scope_ok rt_indexes funcs gs T env → gs = global_types program → Z.of_nat (length gs) < 2 ^ 31 →
  main_wasm disable_gc rt_indexes funcs T program = true →
  ∃ d, insert_generated_main disable_gc (W.globals program) env rt_indexes = Ok d ∧
    signature d = main_sig ∧ function_valid types funcs gs d = true.
Proof.
  intros Hs Hgs Hb H. unfold main_wasm in H. rewrite !andb_true_iff in H. destruct H as [[[[Hinit Hgc] Hg] Hj] Hm].
  apply bool_decide_eq_true in Hinit, Hj, Hm.
  destruct (call_rt_effect _ _ _ Hinit) as (i & Hi & Hie). unfold insert_generated_main. rewrite Hi. cbn [expect mbind comp_bind].
  assert (∃ insts, (if disable_gc then Ok [I.Call i] else
      n ← i32_try_from (length rt_globals + length (W.globals program))%nat;
      enter ← expect "no gc_enter_fn" (rt_indexes !! "gc_enter_fn"%string);
      Ok ([I.Call i] ++ [I.I32Const n; I.Call enter])) = (Ok insts : comp never _) ∧ effect c insts [] []) as (insts & -> & He).
  { destruct disable_gc; [by eexists|]. cbn in Hgc. apply andb_true_iff in Hgc as [Henter%bool_decide_eq_true _].
    rewrite i32_try_from_ok by (rewrite Hgs in Hb; unfold global_types, rt_global_types in Hb; rewrite length_app, !length_map in Hb; lia).
    destruct (call_rt_effect _ _ _ Henter) as (e & -> & Hee). eexists. split; [done|]. eapply effect_app; [exact Hie|].
    apply (effect_app _ [_] [_] [] [V.I32] []); [apply const_effect|done]. }
  cbn [mbind comp_bind].
  destruct (init_globals_ok (imap pair (map snd (W.globals program))) insts He) as (insts1 & -> & He1).
  { apply Forall_forall. intros [k g] Hin. apply elem_of_lookup_imap in Hin as (k' & g' & [= -> ->] & Hk).
    rewrite list_lookup_fmap in Hk. apply fmap_Some in Hk as ([x g''] & Hx & ->). cbn [fst snd]. split.
    - rewrite Hgs. unfold global_types. rewrite lookup_app_r by (cbn; lia). cbn. by rewrite list_lookup_fmap, Nat.sub_0_r, Hx.
    - rewrite forallb_forall in Hg. by apply (Hg (x, g'')), list_elem_of_In, (list_elem_of_lookup_2 _ k'). }
  cbn [mbind comp_bind].
  destruct (notwasm_sig_effect T env _ Hs Hj) as (j & -> & Hje). destruct (notwasm_sig_effect T env _ Hs Hm) as (m & -> & Hme).
  cbn [mbind comp_bind].
  assert (effect c ((insts1 ++ [I.Call (j + size rt_indexes)%nat]) ++ [I.Call (m + size rt_indexes)%nat]) [] []) as He2.
  { eapply effect_app; [|exact Hme]. by eapply effect_app. }
  assert (∃ insts', (if disable_gc then Ok ((insts1 ++ [I.Call (j + size rt_indexes)%nat]) ++ [I.Call (m + size rt_indexes)%nat]) else
      exit ← expect "no gc_exit_fn" (rt_indexes !! "gc_exit_fn"%string);
      Ok (((insts1 ++ [I.Call (j + size rt_indexes)%nat]) ++ [I.Call (m + size rt_indexes)%nat]) ++ [I.Call exit])) =
      (Ok insts' : comp never _) ∧ effect c insts' [] []) as (insts' & -> & He').
  { destruct disable_gc; [by eexists|]. cbn in Hgc. apply andb_true_iff in Hgc as [_ Hexit%bool_decide_eq_true].
    destruct (call_rt_effect _ _ _ Hexit) as (e & -> & Hee). eexists. split; [done|]. by eapply effect_app. }
  cbn [mbind comp_bind]. eexists. split; [done|]. split; [done|]. unfold function_valid. cbn [signature body body_locals fst snd app].
  pose proof (body_valid types funcs gs None [] insts' [] [] Fall He' (effect_nil _ _) eq_refl) as Hv. cbn [app] in Hv.
  apply Hv. intros f rest _ _. by exists f.
Qed.
End main.
End program.

(** ** Programs *)
Lemma foldl_map {A B C} (f : C → B → C) (g : A → B) l c : foldl f c (map g l) = foldl (λ c x, f c (g x)) c l.
Proof. revert c. induction l as [|x l IH]; intros c; [done|]. apply IH. Qed.
Section modules.
Context (push_signature : list sig → sig → list sig * nat) `{!SignatureTable push_signature}.

Lemma indexed_nil : indexed (mkIndexes [] ∅ ∅ []).
Proof. split; apply positions_nil. Qed.
Lemma module_indexes_ok rt_types program es :
  mapM rt_sig_of (rt_types ++ W.rts_fn_imports program) = Some es →
  NoDup (rt_types ++ W.rts_fn_imports program).*1 →
  let types := foldl (λ tys sg, (push_signature tys sg).1) [] (module_funcs es program) in
  ∃ s, module_indexes push_signature rt_types program = Ok s ∧ ix_imports s = es ∧ positions es.*1 (rt_indexes s) ∧
    (∀ sg i, type_indexes s !! sg = Some i → types !! i = Some sg) ∧
    foldl (λ tys sg, (push_signature tys sg).1) (ix_types s) (map (λ f, fn_sig f.2) (W.functions program) ++ [main_sig]) = types.
Proof.
  intros Hes Hn types.
  destruct (index_rts_ok push_signature _ es (mkIndexes [] ∅ ∅ []) indexed_nil Hes Hn) as (s & Hs & [Ht Hr] & Hty & Him).
  cbn in Hty, Him. unfold module_indexes. rewrite Hs. cbn. eexists. split; [done|]. cbn. split; [done|].
  split; [by rewrite <- Him|].
  destruct (index_functions_positions push_signature (W.functions program) _ _ Ht) as [Hp _].
  assert (types = foldl (λ tys sg, (push_signature tys sg).1) (ix_types s) (map (λ f, fn_sig f.2) (W.functions program) ++ [main_sig])) as Heq.
  { unfold types, module_funcs. by rewrite foldl_app, <- Hty. }
  split; [|done]. intros sg i Hi. rewrite Heq, foldl_app. cbn. apply (proj2 Hp) in Hi.
  eapply prefix_lookup_Some; [exact Hi|]. by destruct (push_positions push_signature _ _ main_sig Hp) as (_ & Hpre & _).
Qed.
End modules.

(** C29: Code generation is safe.  A NotWasm program that meets the conditions of
    the translation ([program_wasm]: the runtime has the functions that the code
    calls, with the WebAssembly types of the operands; every path to the end of
    a function with a result returns; breaks stay inside the function) is
    translated without a panic, and every function of the module - the blocks
    and branch tables of method calls, inline caches, shadow stack calls and the
    generated entry point included - passes WebAssembly validation, with the
    types, function indices and globals that the builder gives the module. *)
Theorem translate_parity_valid disable_gc push_signature rt_types program :
  SignatureTable push_signature → program_wasm disable_gc push_signature rt_types program = true →
  ∃ m, translate_parity disable_gc push_signature rt_types program = Ok m ∧ module_valid m = true ∧
    map signature (functions m) = map (λ f, fn_sig f.2) (W.functions program).
Proof.
  intros Htable H. unfold program_wasm in H. destruct (mapM rt_sig_of _) as [es|] eqn:Hes; [|done].
  destruct (module_indexes push_signature rt_types program) as [s| |] eqn:Hs; try done.
  set (funcs := module_funcs es program) in *. set (types := foldl _ [] funcs) in *.
  rewrite !andb_true_iff in H. destruct H as [[[[Hn Hb] Hf] Hg] Hm]. apply bool_decide_eq_true in Hn, Hb.
  destruct (module_indexes_ok push_signature rt_types program es Hes Hn) as (s' & Hs' & Him & Hr & Hti & Hty).
  rewrite Hs in Hs'. injection Hs' as <-.
  assert (size (rt_indexes s) = length es) as Hsize by (by rewrite (positions_size _ _ Hr), length_fmap).
  pose proof (module_scope_ok program (rt_indexes s) es Hsize ltac:(lia)) as Hscope.
  unfold translate_parity. rewrite Hs. cbn [mbind comp_bind]. cbv zeta.
  destruct (translate_globals_ok disable_gc s (make_global_env program) _ [] (W.prog_data program) Hg) as (mgs & -> & Hmg & Hmc).
  cbn [mbind comp_bind app].
  destruct (translate_funcs_ok disable_gc (rt_indexes s) (type_indexes s) types funcs (global_types program) (module_scope program)
    (make_global_env program) (W.functions program) [] (W.prog_data program)) as (ds & data & -> & Hsigs & Hds); [by exists false|done|exact Hf|].
  cbn [mbind comp_bind app].
  destruct (generated_main_ok disable_gc (rt_indexes s) types funcs (global_types program) (module_scope program)
    (make_global_env program) program Hscope eq_refl Hb Hm) as (d & -> & Hsig & Hd).
  cbn [mbind comp_bind]. eexists. split; [done|]. split; [|done]. unfold module_valid, all_functions. cbn [functions main imports Translation.types module_globals table main_index].
  assert (es.*2 ++ map signature (ds ++ [d]) = funcs) as Hfuncs.
  { unfold funcs, module_funcs. rewrite map_app, Hsigs. cbn. by rewrite Hsig. }
  assert (foldl (λ tys f, (push_signature tys (signature f)).1) (ix_types s) (ds ++ [d]) = types) as Htypes.
  { unfold types, funcs. rewrite <- Hty, <- Hsigs, <- Hsig. change [signature d] with (map signature [d]).
    by rewrite <- map_app, foldl_map. }
  rewrite Him, Hfuncs, Htypes, Hmg.
  change (rt_global_types ++ map (λ g, (as_wasm (W.global_ty g.2), W.is_mut g.2)) (W.globals program)) with (global_types program).
  assert (funcs !! (size (rt_indexes s) + length (W.functions program))%nat = Some main_sig) as Hmain.
  { unfold funcs, module_funcs. rewrite lookup_app_r by (rewrite length_fmap; lia). rewrite length_fmap, Hsize.
    replace (length es + length (W.functions program) - length es)%nat with (length (W.functions program)) by lia.
    by rewrite list_lookup_middle by by rewrite length_map. }
  rewrite !andb_true_iff. split_and!; [|done| |by rewrite bool_decide_true].
  - rewrite forallb_app, Hds. cbn [forallb]. by rewrite Hd.
  - apply forallb_forall. intros i Hi%in_seq. apply bool_decide_eq_true. apply lookup_lt_Some in Hmain. lia.
Qed.
