(* ===== verification/Compile.v ===== *)
(** The back end of the compiler: [jankyscript/compile.rs] and
    [notwasm/compile.rs], and the way from JankyScript to WebAssembly. *)
From S2P Require Import Prelude Types Coercions Operators JankySyntax ClosureConvert NotWasm NotWasmTyping Intern Linking Anf AnfProgram.
From S2P Require Import Wasm Translation WasmConditions TranslationProgram.
Import V(ValueType).

Section compile.
Context (disable_gc : bool) (push_signature : list sig → sig → list sig * nat) (rt_types : list (string * N.typ)).

(** [notwasm::compile], without parsing the library and without the encoding
    of the module in bytes; the table of the interned strings is its second
    result. *)
Definition notwasm_compile (program std_lib : W.Program) : comp TypeCheckingError (Module_ * gmap string Z) :=
  program ← W.merge_in program std_lib;
  program ← type_check program;
  let '(program, inverted_interned_strings) := intern program in
  wasm ← no_error (translate_parity disable_gc push_signature rt_types program);
  Ok (wasm, inverted_interned_strings).
End compile.

(** ** A runtime

    The functions of the runtime that the library of NotWasm code imports, and
    the part of the library that the translation calls. *)
Definition runtime_imports : list (string * N.typ) :=
  let f args r := N.Fn args r in
  [("array_new", f [] (Some N.Array)); ("array_index", f [N.Array; N.I32] (Some N.Any)); ("array_set", f [N.Array; N.I32; N.Any] (Some N.Any));
   ("array_length", f [N.Array] (Some N.I32)); ("string_length", f [N.String] (Some N.I32));
   ("any_from_ptr", f [N.I32] (Some N.Any)); ("any_to_ptr", f [N.Any] (Some N.I32));
   ("get_undefined", f [] (Some N.Any)); ("get_null", f [] (Some N.Any));
   ("object_set", f [N.DynObject; N.String; N.Any; N.Ptr] (Some N.Any)); ("object_get", f [N.DynObject; N.String; N.Ptr] (Some N.Any));
   ("ref_new_non_ptr_32", f [N.I32] (Some (N.Ref N.I32))); ("ref_new_f64", f [N.F64] (Some (N.Ref N.F64)));
   ("ref_new_any", f [N.Any] (Some (N.Ref N.Any))); ("ref_new_ptr", f [N.Ptr] (Some (N.Ref N.Ptr)));
   ("init", f [] None); ("gc_enter_fn", f [N.I32] None); ("gc_exit_fn", f [] None);
   ("set_in_current_shadow_frame_slot", f [N.I32; N.I32] None); ("set_any_in_current_shadow_frame_slot", f [N.Any; N.I32] None);
   ("set_closure_in_current_shadow_frame_slot", f [N.Closure [] None; N.I32] None);
   ("set_in_globals_frame", f [N.I32; N.I32] None); ("set_any_in_globals_frame", f [N.Any; N.I32] None);
   ("set_closure_in_globals_frame", f [N.Closure [] None; N.I32] None);
   ("any_to_f64", f [N.Any] (Some N.F64)); ("f64_to_any", f [N.F64] (Some N.Any));
   ("env_alloc", f [N.I32; N.DynObject] (Some N.I32)); ("env_init_at", f [N.I32; N.I32; N.Any] (Some N.I32));
   ("closure_new", f [N.I32; N.I32] (Some (N.Closure [] None))); ("closure_env", f [N.Closure [] None] (Some N.I32));
   ("closure_func", f [N.Closure [] None] (Some (N.Fn [] None)))]%string.
Definition lib_fn (s : string) (r : option N.typ) (b : list W.Stmt) : Id * W.Function :=
  (Named s, W.mkFunction (W.Block b Unknown) (N.mkFnType [] r) [] Unknown).
Definition new_object (s : string) : Id * W.Function :=
  let o := Named "o" in
  lib_fn s (Some N.DynObject)
    [W.Var (W.mkVarStmt o (W.EAtom (W.ALit W.LUndefined Unknown) Unknown) (Some N.DynObject)) Unknown;
     W.Return (W.AId o Unknown) Unknown].
Definition std_lib : W.Program :=
  W.mkProgram runtime_imports
    [lib_fn "jnks_init" None []; new_object "jnks_new_object"; new_object "jnks_new_fn_obj"]
    [(Named "Math", W.mkGlobal true N.DynObject None)] [].
Definition rt_bindings : list (string * N.typ) := map_to_list RtBindings.bindings.

(** The program of [AnfProgram] after the type check and interning. *)
Definition checked (program : W.Program) : comp TypeCheckingError W.Program :=
  program ← W.merge_in program std_lib; program ← type_check program; Ok (intern program).1.
Definition sample_checked : W.Program :=
  match no_error (from_jankyscript sample) ≫= checked with Ok p => p | _ => std_lib end.

Lemma translate_parity_valid_witness :
  is_ok (no_error (from_jankyscript sample) ≫= checked) = true ∧
  ∃ m, translate_parity false find_or_add rt_bindings sample_checked = Ok m ∧ module_valid m = true ∧
    map signature (functions m) = map (λ f, fn_sig f.2) (W.functions sample_checked).
Proof.
  split; [vm_compute; reflexivity|].
  apply (translate_parity_valid false find_or_add rt_bindings sample_checked); [apply _|vm_compute; reflexivity].
Defined.

(** ** From JankyScript to a module

    [jankyscript::compile], A-normalisation and [notwasm::compile]; the types
    are inferred before. *)
Definition janky_to_module (program : K.Stmt) : comp TypeCheckingError Module_ :=
  match compile Ok program with
  | Ok program =>
      program ← no_error (from_jankyscript program);
      '(m, _) ← notwasm_compile false find_or_add rt_bindings program std_lib;
      Ok m
  | Err _ => Panic "called unwrap on an Err value"
  | Panic s => Panic s
  end.
Definition janky_valid (program : K.Stmt) : comp TypeCheckingError bool :=
  m ← janky_to_module program; Ok (module_valid m).

Definition j_func (r : J.typ) (ps : list (Id * J.typ)) (b : list K.Stmt) : K.Expr :=
  K.EFunc (K.func_new ps r (K.SBlock b Unknown)) Unknown.
(** A program that declares the function [f]. *)
Definition declares (r : J.typ) (ps : list (Id * J.typ)) (b : list K.Stmt) : K.Stmt :=
  K.SBlock [K.SVar (Named "f") (J.Function (map snd ps) r) (j_func r ps b) Unknown] Unknown.
Definition one : K.Stmt := K.SReturn (K.ELit (K.LNum (K.NInt 1)) Unknown) Unknown.

(** The parameter of type [Float] is captured. *)
Definition captured_float : K.Stmt :=
  let x := Named "x" in
  declares (J.Function [] J.Float) [(x, J.Float)]
    [K.SReturn (j_func J.Float [] [K.SReturn (K.EId x J.Float Unknown) Unknown]) Unknown].
(** A variable that holds a function is captured and assigned. *)
Definition boxed_closure : K.Stmt :=
  let g := Named "g" in let h := Named "h" in let t := J.Function [] J.Int in
  declares J.Int []
    [K.SVar g t (j_func J.Int [] [one]) Unknown;
     K.SVar h t (j_func J.Int [] [K.SExpr (K.EAssign (K.LId g t) (K.EId g t Unknown) Unknown) Unknown; one]) Unknown;
     one].
(** Two values of type [Any] are compared. *)
Definition any_equality : K.Stmt :=
  let x := Named "x" in
  declares J.Bool [(x, J.Any)] [K.SReturn (K.EBinary PtrEq (K.EId x J.Any Unknown) (K.EId x J.Any Unknown) Unknown) Unknown].

(** NotWasm functions with a result that end in a labelled statement, in a loop,
    or that declare a variable again, at another type, in a block. *)
Definition result_function (b : list W.Stmt) : W.Program :=
  W.mkProgram [] [lib_fn "main" None []; lib_fn "f" (Some N.I32) b] [] [].
Definition return_one : W.Stmt := W.Return (W.ALit (W.LI32 1) Unknown) Unknown.
Definition declare (l : W.Lit) : W.Stmt := W.Var (W.var_new (Named "x") (W.EAtom (W.ALit l Unknown) Unknown)) Unknown.
Definition labelled_result : W.Program := result_function [W.Lbl (W.Named "l") (W.Block [return_one] Unknown) Unknown].
Definition endless_result : W.Program := result_function [W.Loop return_one Unknown].
Definition hidden_variable : W.Program :=
  result_function [declare (W.LI32 1); W.Block [declare (W.LF64 (SpecFloat.S754_zero false))] Unknown; W.Return (W.AId (Named "x") Unknown) Unknown].
Definition notwasm_valid (program : W.Program) : comp TypeCheckingError bool :=
  '(m, _) ← notwasm_compile false find_or_add rt_bindings program std_lib; Ok (module_valid m).

