(* ===== verification/JsSyntax.v ===== *)
(** The syntax of JavaScript ([javascript/syntax.rs]) and its constructors
    ([javascript/constructors.rs]). *)
From S2P Require Import Prelude Types Operators JankySyntax.

Module JS.
Inductive LogicalOp : Type := LOr | LAnd.
Inductive BinOp : Type :=
  | OBinary (op : Js.BinaryOp)
  | OLogical (op : LogicalOp).
Inductive AssignOp : Type :=
  | Equal | PlusEqual | MinusEqual | TimesEqual | DivEqual | ModEqual | LeftShiftEqual | RightShiftEqual
  | UnsignedRightShiftEqual | OrEqual | XOrEqual | AndEqual | PowerOfEqual.
#[global] Instance AssignOp_eq_dec : EqDecision AssignOp.
Proof. solve_decision. Defined.
Inductive UnaryAssignOp : Type := PreInc | PreDec | PostInc | PostDec.

Inductive Expr : Type :=
  | ELit (l : K.Lit) (s : Pos)
  | EArray (es : list Expr) (s : Pos)
  | EObject (kvs : list (K.Key * Expr)) (s : Pos)
  | EThis
  | EId (x : Id) (s : Pos)
  | EDot (e : Expr) (x : Id) (s : Pos)
  | EBracket (e1 e2 : Expr) (s : Pos)
  | ENew (f : Expr) (args : list Expr) (s : Pos)
  | EUnary (op : Js.UnaryOp) (e : Expr) (s : Pos)
  | EBinary (op : BinOp) (e1 e2 : Expr) (s : Pos)
  | EUnaryAssign (op : UnaryAssignOp) (lv : LValue) (s : Pos)
  | EIf (c e1 e2 : Expr) (s : Pos)
  | EAssign (op : AssignOp) (lv : LValue) (e : Expr) (s : Pos)
  | ECall (f : Expr) (args : list Expr) (s : Pos)
  | EMethodCall (x : Id) (name : string) (args : list Expr) (s : Pos)
  | ELength (e : Expr) (s : Pos)
  | EFunc (f : option Id) (params : list Id) (body : Stmt) (s : Pos)
  | ESeq (es : list Expr) (s : Pos)
with LValue : Type :=
  | LId (x : Id)
  | LDot (e : Expr) (x : Id)
  | LBracket (e1 e2 : Expr)
with ForInit : Type :=
  | InitExpr (e : Expr)
  | InitDecl (ds : list (Id * Expr))
with Stmt : Type :=
  | SBlock (ss : list Stmt) (s : Pos)
  | SEmpty
  | SExpr (e : Expr) (s : Pos)
  | SIf (c : Expr) (st se : Stmt) (s : Pos)
  | SSwitch (e : Expr) (cases : list (Expr * Stmt)) (default : Stmt) (s : Pos)
  | SWhile (c : Expr) (body : Stmt) (s : Pos)
  | SDoWhile (body : Stmt) (c : Expr) (s : Pos)
  | SFor (init : ForInit) (c advance : Expr) (body : Stmt) (s : Pos)
  | SForIn (is_var : bool) (bind : Id) (container : Expr) (body : Stmt) (s : Pos)
  | SLabel (x : Id) (body : Stmt) (s : Pos)
  | SBreak (x : option Id) (s : Pos)
  | SContinue (x : option Id) (s : Pos)
  | SCatch (body : Stmt) (x : Id) (catch_body : Stmt) (s : Pos)
  | SFinally (body finally_body : Stmt) (s : Pos)
  | SThrow (e : Expr) (s : Pos)
  | SVarDecl (ds : list (Id * Expr)) (s : Pos)
  | SFunc (f : Id) (params : list Id) (body : Stmt) (s : Pos)
  | SReturn (e : Expr) (s : Pos).

(** [Expr::is_essentially_atom], [LValue::take], [Expr::take], [Stmt::take]:
    what is left behind is given by [taken]. *)
Fixpoint is_essentially_atom (e : Expr) : bool :=
  match e with
  | ELit _ _ | EThis | EId _ _ => true
  | EDot e _ _ => is_essentially_atom e
  | EBracket e1 e2 _ => is_essentially_atom e1 && is_essentially_atom e2
  | _ => false
  end.
Definition taken_expr : Expr := ELit K.LUndefined Unknown.

(** [UnaryAssignOp::is_prefix], [binop], [other_binop]. *)
Definition is_prefix (op : UnaryAssignOp) : bool :=
  match op with PreInc | PreDec => true | PostInc | PostDec => false end.
Definition binop (op : UnaryAssignOp) : BinOp :=
  match op with PostInc | PreInc => OBinary Js.BPlus | PostDec | PreDec => OBinary Js.BMinus end.
Definition other_binop (op : UnaryAssignOp) : BinOp :=
  match op with PostInc | PreInc => OBinary Js.BMinus | PostDec | PreDec => OBinary Js.BPlus end.

(** Constructors that are more than a name. *)
Definition vardecl1_ (x : Id) (e : Expr) (s : Pos) : Stmt := SVarDecl [(x, e)] s.
Definition TRUE_ : Expr := ELit (K.LBool true) Unknown.
Definition FALSE_ : Expr := ELit (K.LBool false) Unknown.
Definition UNDEFINED_ : Expr := ELit K.LUndefined Unknown.
Definition str_ (st : string) (s : Pos) : Expr := ELit (K.LString st) s.
Definition int_ (i : Z) (s : Pos) : Expr := ELit (K.LNum (K.NInt i)) s.
Definition id_ (x : Id) (s : Pos) : Expr := EId x s.
Definition assign_ (lv : LValue) (e : Expr) (s : Pos) : Expr := EAssign Equal lv e s.

(** ** Height

    A bound on the depth of a walk.  A [for] loop counts as the statements that
    it is replaced with. *)
Definition maxs (l : list nat) : nat := foldr Nat.max 0%nat l.
Fixpoint height_expr (e : Expr) : nat :=
  S (match e with
     | ELit _ _ | EThis | EId _ _ => 0
     | EArray es _ | ESeq es _ | EMethodCall _ _ es _ => maxs (map height_expr es)
     | EObject kvs _ => maxs (map (λ kv, height_expr kv.2) kvs)
     | EDot e _ _ | EUnary _ e _ | ELength e _ => height_expr e
     | EBracket e1 e2 _ | EBinary _ e1 e2 _ => Nat.max (height_expr e1) (height_expr e2)
     | ENew e es _ | ECall e es _ => Nat.max (height_expr e) (maxs (map height_expr es))
     | EUnaryAssign _ lv _ => height_lval lv
     | EIf e1 e2 e3 _ => Nat.max (height_expr e1) (Nat.max (height_expr e2) (height_expr e3))
     | EAssign _ lv e _ => Nat.max (height_lval lv) (height_expr e)
     | EFunc _ _ b _ => height_stmt b
     end)
with height_lval (lv : LValue) : nat :=
  S (match lv with
     | LId _ => 0
     | LDot e _ => height_expr e
     | LBracket e1 e2 => Nat.max (height_expr e1) (height_expr e2)
     end)
with height_init (i : ForInit) : nat :=
  S (match i with
     | InitExpr e => height_expr e
     | InitDecl ds => maxs (map (λ d, height_expr d.2) ds)
     end)
with height_stmt (st : Stmt) : nat :=
  S (match st with
     | SBlock ss _ => maxs (map height_stmt ss)
     | SEmpty | SBreak _ _ | SContinue _ _ => 0
     | SExpr e _ | SThrow e _ | SReturn e _ => height_expr e
     | SIf e s1 s2 _ => Nat.max (height_expr e) (Nat.max (height_stmt s1) (height_stmt s2))
     | SSwitch e cases d _ =>
         Nat.max (height_expr e)
           (Nat.max (maxs (map (λ c, Nat.max (height_expr c.1) (height_stmt c.2)) cases)) (height_stmt d))
     | SWhile e b _ | SDoWhile b e _ | SForIn _ _ e b _ => Nat.max (height_expr e) (height_stmt b)
     | SFor i e1 e2 b _ =>
         3 + Nat.max (height_init i) (Nat.max (height_expr e1) (Nat.max (height_expr e2) (height_stmt b)))
     | SLabel _ b _ | SFunc _ _ b _ => height_stmt b
     | SCatch s1 _ s2 _ | SFinally s1 s2 _ => Nat.max (height_stmt s1) (height_stmt s2)
     | SVarDecl ds _ => maxs (map (λ d, height_expr d.2) ds)
     end).
Lemma maxs_le l n : (maxs l <= n)%nat ↔ Forall (λ m, (m <= n)%nat) l.
Proof. induction l as [|m l IH]; cbn; [split; [constructor|lia]|]. rewrite Forall_cons, <- IH. fold (maxs l). lia. Qed.
Lemma maxs_map_le {A} (f : A → nat) l n : (maxs (map f l) <= n)%nat ↔ Forall (λ x, (f x <= n)%nat) l.
Proof. by rewrite maxs_le, Forall_map. Qed.
End JS.
