(* ===== verification/JsWalk.v ===== *)
(** The visitor of JavaScript programs ([javascript/walk.rs]): contexts, the
    statements that visitors insert into blocks, and the walk. *)
From S2P Require Import Prelude Types Operators JankySyntax JsSyntax JankyWalk.
Import JS.

(** ** Contexts *)
Inductive Context : Type :=
  | CBlock (index len : nat)
  | CVarDeclRhs | CSwitch | CLoop | CStmt
  | CAssignRhs (op : AssignOp)
  | CExpr | CLValue | CFunctionBody.
(** [Loc]: [Top] is the empty list. *)
Abbreviation Loc := (list Context).
(** A block of the context: how many blocks are inside it, and its [index] and [len]. *)
Record BlockContext := mkBlockContext { depth : nat; index : nat; len : nat }.

Fixpoint in_switch_block (loc : Loc) : bool :=
  match loc with
  | [] => false
  | CSwitch :: _ => true
  | CLoop :: _ => false
  | CFunctionBody :: _ => false
  | _ :: rest => in_switch_block rest
  end.
Fixpoint enclosing_block (loc : Loc) : option BlockContext :=
  match loc with
  | [] => None
  | CBlock i n :: _ => Some (mkBlockContext 0 i n)
  | _ :: rest => enclosing_block rest
  end.
Fixpoint body_from (d : nat) (loc : Loc) : comp never BlockContext :=
  match loc with
  | [] => Panic "the top-level program is not a block"
  | CBlock i n :: rest =>
      match rest with
      | [] | CFunctionBody :: _ => Ok (mkBlockContext d i n)
      | _ => body_from (S d) rest
      end
  | _ :: rest => body_from d rest
  end.
Definition body_of_enclosing_function_or_program (loc : Loc) : comp never BlockContext := body_from 0 loc.

(** ** Patches *)
Abbreviation Patches := (list (nat * Stmt)).
(** The state of the visitor and the patches of the open blocks, the innermost first. *)
Record World (S : Type) := mkWorld { vstate : S; patches : list Patches }.
Arguments mkWorld {S}.
Arguments vstate {S}.
Arguments patches {S}.
Definition set_vstate {S} (s : S) (w : World S) : World S := mkWorld s (patches w).

(** [BlockContext::insert]. *)
Definition insert {S} (cxt : BlockContext) (i : nat) (st : Stmt) (w : World S) : comp never (World S) :=
  assert "assertion failed: index <= self.len" (i <=? len cxt)%nat;;
  Ok (mkWorld (vstate w) (alter (λ ps, ps ++ [(i, st)]) (depth cxt) (patches w))).
(** [cxt.insert(cxt.index, stmt)]. *)
Definition insert_here {S} (cxt : BlockContext) (st : Stmt) (w : World S) : comp never (World S) :=
  insert cxt (index cxt) st w.

(** [Vec::insert] and [Vec::sort_by] on the indices, which is stable. *)
Definition vec_insert {A} (i : nat) (x : A) (l : list A) : comp never (list A) :=
  if (i <=? length l)%nat then Ok (take i l ++ x :: drop i l) else Panic "insertion index should be <= len".
Fixpoint sorted_insert (p : nat * Stmt) (l : Patches) : Patches :=
  match l with
  | [] => [p]
  | q :: l => if (p.1 <? q.1)%nat then p :: q :: l else q :: sorted_insert p l
  end.
Definition sort_patches (l : Patches) : Patches := foldl (λ l p, sorted_insert p l) [] l.
Definition apply_patches (ps : Patches) (block : list Stmt) : comp never (list Stmt) :=
  foldM (λ block p, vec_insert p.1 p.2 block) block (rev (sort_patches ps)).

(** ** Visitors

    No visitor of the compiler overrides [enter_expr], and no [enter_stmt]
    inserts statements. *)
Record Visitor (S : Type) := mkVisitor {
  enter_stmt : S → Stmt → Loc → comp never (S * Stmt);
  exit_stmt : World S → Stmt → Loc → comp never (World S * Stmt);
  exit_expr : World S → Expr → Loc → comp never (World S * Expr)
}.
Arguments mkVisitor {S}.
Arguments enter_stmt {S}.
Arguments exit_stmt {S}.
Arguments exit_expr {S}.
Definition enter_nothing {S} (s : S) (st : Stmt) (loc : Loc) : comp never (S * Stmt) := Ok (s, st).
Definition exit_nothing {S A} (w : World S) (x : A) (loc : Loc) : comp never (World S * A) := Ok (w, x).

(** ** The walk

    [n] bounds the depth. *)
Section walk.
Context {S : Type} (v : Visitor S).

(** The statements of a block, from index [i]. *)
Fixpoint walk_block (walk : World S → Stmt → Loc → comp never (World S * Stmt)) (loc : Loc) (i len : nat)
    (w : World S) (ss : list Stmt) : comp never (World S * list Stmt) :=
  match ss with
  | [] => Ok (w, [])
  | st :: ss =>
      '(w, st) ← walk w st (CBlock i len :: loc);
      '(w, ss) ← walk_block walk loc (i + 1)%nat len w ss;
      Ok (w, st :: ss)
  end.

(** The children of a node, given the walks of statements, expressions and l-values. *)
Section children.
Context (walk_stmt : World S → Stmt → Loc → comp never (World S * Stmt)).
Context (walk_expr : World S → Expr → Loc → comp never (World S * Expr)).
Context (walk_lval : World S → LValue → Loc → comp never (World S * LValue)).
Definition stmt_children (w : World S) (st : Stmt) (loc : Loc) : comp never (World S * Stmt) :=
  match st with
  | SEmpty | SBreak _ _ | SContinue _ _ => Ok (w, st)
  | SLabel x a p => '(w, a) ← walk_stmt w a (CStmt :: loc); Ok (w, SLabel x a p)
  | SFunc f ps a p => '(w, a) ← walk_stmt w a (CFunctionBody :: loc); Ok (w, SFunc f ps a p)
  | SFinally a b p =>
      '(w, a) ← walk_stmt w a (CStmt :: loc);
      '(w, b) ← walk_stmt w b (CStmt :: loc);
      Ok (w, SFinally a b p)
  | SCatch a x b p =>
      '(w, a) ← walk_stmt w a (CStmt :: loc);
      '(w, b) ← walk_stmt w b (CStmt :: loc);
      Ok (w, SCatch a x b p)
  | SBlock ss p =>
      let w := mkWorld (vstate w) ([] :: patches w) in
      '(w, ss) ← walk_block walk_stmt loc 0 (length ss) w ss;
      ss ← apply_patches (default [] (head (patches w))) ss;
      Ok (mkWorld (vstate w) (tail (patches w)), SBlock ss p)
  | SVarDecl ds p =>
      '(w, ds) ← mapSM (λ w d, '(w, e) ← walk_expr w d.2 (CVarDeclRhs :: loc); Ok (w, (d.1, e))) w ds;
      Ok (w, SVarDecl ds p)
  | SThrow e p => '(w, e) ← walk_expr w e (CStmt :: loc); Ok (w, SThrow e p)
  | SReturn e p => '(w, e) ← walk_expr w e (CStmt :: loc); Ok (w, SReturn e p)
  | SExpr e p => '(w, e) ← walk_expr w e (CStmt :: loc); Ok (w, SExpr e p)
  | SDoWhile a e p =>
      '(w, e) ← walk_expr w e (CLoop :: loc);
      '(w, a) ← walk_stmt w a (CLoop :: loc);
      Ok (w, SDoWhile a e p)
  | SForIn is_var x e a p =>
      '(w, e) ← walk_expr w e (CLoop :: loc);
      '(w, a) ← walk_stmt w a (CLoop :: loc);
      Ok (w, SForIn is_var x e a p)
  | SWhile e a p =>
      '(w, e) ← walk_expr w e (CLoop :: loc);
      '(w, a) ← walk_stmt w a (CLoop :: loc);
      Ok (w, SWhile e a p)
  | SIf e a b p =>
      '(w, e) ← walk_expr w e (CStmt :: loc);
      '(w, a) ← walk_stmt w a (CStmt :: loc);
      '(w, b) ← walk_stmt w b (CStmt :: loc);
      Ok (w, SIf e a b p)
  | SSwitch e cases d p =>
      '(w, e) ← walk_expr w e (CSwitch :: loc);
      '(w, cases) ← mapSM (λ w c,
          '(w, e) ← walk_expr w c.1 (CSwitch :: loc);
          '(w, a) ← walk_stmt w c.2 (CSwitch :: loc);
          Ok (w, (e, a))) w cases;
      '(w, d) ← walk_stmt w d (CSwitch :: loc);
      Ok (w, SSwitch e cases d p)
  | SFor init e1 e2 a p =>
      '(w, e1) ← walk_expr w e1 (CLoop :: loc);
      '(w, e2) ← walk_expr w e2 (CLoop :: loc);
      '(w, a) ← walk_stmt w a (CLoop :: loc);
      Ok (w, SFor init e1 e2 a p)
  end.
Definition expr_children (w : World S) (e : Expr) (loc : Loc) : comp never (World S * Expr) :=
  let walk_list := mapSM (λ w e, walk_expr w e (CExpr :: loc)) in
  match e with
  | ELit _ _ | EThis | EId _ _ => Ok (w, e)
  | EUnaryAssign op lv p => '(w, lv) ← walk_lval w lv (CExpr :: loc); Ok (w, EUnaryAssign op lv p)
  | EFunc f ps st p => '(w, st) ← walk_stmt w st (CFunctionBody :: loc); Ok (w, EFunc f ps st p)
  | EArray es p => '(w, es) ← walk_list w es; Ok (w, EArray es p)
  | ESeq es p => '(w, es) ← walk_list w es; Ok (w, ESeq es p)
  | EObject kvs p =>
      '(w, kvs) ← mapSM (λ w kv, '(w, e) ← walk_expr w kv.2 (CExpr :: loc); Ok (w, (kv.1, e))) w kvs;
      Ok (w, EObject kvs p)
  | EDot e x p => '(w, e) ← walk_expr w e (CExpr :: loc); Ok (w, EDot e x p)
  | EUnary op e p => '(w, e) ← walk_expr w e (CExpr :: loc); Ok (w, EUnary op e p)
  | ELength e p => '(w, e) ← walk_expr w e (CExpr :: loc); Ok (w, ELength e p)
  | EAssign op lv e p =>
      '(w, lv) ← walk_lval w lv (CLValue :: loc);
      '(w, e) ← walk_expr w e (CAssignRhs op :: loc);
      Ok (w, EAssign op lv e p)
  | ENew e es p =>
      '(w, e) ← walk_expr w e (CExpr :: loc);
      '(w, es) ← walk_list w es;
      Ok (w, ENew e es p)
  | ECall e es p =>
      '(w, e) ← walk_expr w e (CExpr :: loc);
      '(w, es) ← walk_list w es;
      Ok (w, ECall e es p)
  | EBracket e1 e2 p =>
      '(w, e1) ← walk_expr w e1 (CExpr :: loc);
      '(w, e2) ← walk_expr w e2 (CExpr :: loc);
      Ok (w, EBracket e1 e2 p)
  | EBinary op e1 e2 p =>
      '(w, e1) ← walk_expr w e1 (CExpr :: loc);
      '(w, e2) ← walk_expr w e2 (CExpr :: loc);
      Ok (w, EBinary op e1 e2 p)
  | EIf e1 e2 e3 p =>
      '(w, e1) ← walk_expr w e1 (CExpr :: loc);
      '(w, e2) ← walk_expr w e2 (CExpr :: loc);
      '(w, e3) ← walk_expr w e3 (CExpr :: loc);
      Ok (w, EIf e1 e2 e3 p)
  | EMethodCall _ _ _ _ => Panic "not implemented"
  end.
Definition lval_children (w : World S) (lv : LValue) (loc : Loc) : comp never (World S * LValue) :=
  match lv with
  | LId _ => Ok (w, lv)
  | LDot e x => '(w, e) ← walk_expr w e (CLValue :: loc); Ok (w, LDot e x)
  | LBracket e1 e2 =>
      '(w, e1) ← walk_expr w e1 (CLValue :: loc);
      '(w, e2) ← walk_expr w e2 (CLValue :: loc);
      Ok (w, LBracket e1 e2)
  end.
End children.

Fixpoint walk_stmt (n : nat) (w : World S) (st : Stmt) (loc : Loc) : comp never (World S * Stmt) :=
  match n with
  | O => Panic "out of fuel"
  | Datatypes.S n =>
      '(s, st) ← enter_stmt v (vstate w) st loc;
      '(w, st) ← stmt_children (walk_stmt n) (walk_expr n) (set_vstate s w) st loc;
      exit_stmt v w st loc
  end
with walk_expr (n : nat) (w : World S) (e : Expr) (loc : Loc) : comp never (World S * Expr) :=
  match n with
  | O => Panic "out of fuel"
  | Datatypes.S n =>
      '(w, e) ← expr_children (walk_stmt n) (walk_expr n) (walk_lval n) w e loc;
      exit_expr v w e loc
  end
with walk_lval (n : nat) (w : World S) (lv : LValue) (loc : Loc) : comp never (World S * LValue) :=
  match n with
  | O => Panic "out of fuel"
  | Datatypes.S n => lval_children (walk_expr n) w lv loc
  end.

Lemma walk_stmt_S n w st loc :
  walk_stmt (Datatypes.S n) w st loc =
    ('(s, st) ← enter_stmt v (vstate w) st loc;
     '(w, st) ← stmt_children (walk_stmt n) (walk_expr n) (set_vstate s w) st loc;
     exit_stmt v w st loc).
Proof. done. Qed.
Lemma walk_expr_S n w e loc :
  walk_expr (Datatypes.S n) w e loc =
    ('(w, e) ← expr_children (walk_stmt n) (walk_expr n) (walk_lval n) w e loc; exit_expr v w e loc).
Proof. done. Qed.
Lemma walk_lval_S n w lv loc : walk_lval (Datatypes.S n) w lv loc = lval_children (walk_expr n) w lv loc.
Proof. done. Qed.

(** [Stmt::walk]: a statement is walked as deep as it is high. *)
Definition walk (s : S) (program : Stmt) : comp never (S * Stmt) :=
  '(w, program) ← walk_stmt (height_stmt program) (mkWorld s []) program []; Ok (vstate w, program).
End walk.

(** ** Patched blocks

    What [insert] promises: the patches at index [i] stand before statement [i],
    in the order in which they were added. *)
Definition at_index (i : nat) (ps : Patches) : list Stmt := map snd (base.filter (λ p, p.1 = i) ps).
#[local] Arguments at_index : simpl never.
#[local] Arguments Nat.ltb : simpl never.
Fixpoint weave (i : nat) (ps : Patches) (block : list Stmt) : list Stmt :=
  match block with
  | [] => at_index i ps
  | st :: block => at_index i ps ++ st :: weave (S i) ps block
  end.

Lemma at_index_cons i p ps : at_index i (p :: ps) = if decide (p.1 = i) then p.2 :: at_index i ps else at_index i ps.
Proof. unfold at_index. rewrite filter_cons. by case_decide. Qed.
Lemma at_index_above i ps : Forall (λ p, (i < p.1)%nat) ps → at_index i ps = [].
Proof.
  induction 1 as [|p ps Hp _ IH]; [done|]. rewrite at_index_cons, IH. by case_decide; [lia|].
Qed.
Lemma weave_below i ps p block : (p.1 < i)%nat → weave i (p :: ps) block = weave i ps block.
Proof.
  revert i. induction block as [|st block IH]; intros i Hi; cbn; rewrite at_index_cons, decide_False by lia; [done|].
  by rewrite IH by lia.
Qed.
Lemma vec_insert_S {A} i (x y : A) l l' : vec_insert i x l = Ok l' → vec_insert (S i) x (y :: l) = Ok (y :: l').
Proof. unfold vec_insert. cbn. destruct (_ <=? _)%nat; [|done]. by intros [= <-]. Qed.
(** Inserting before all other patches. *)
Lemma vec_insert_weave i k x ps block :
  (i <= k <= i + length block)%nat → Forall (λ p, (k <= p.1)%nat) ps →
  vec_insert (k - i) x (weave i ps block) = Ok (weave i ((k, x) :: ps) block).
Proof.
  revert i. induction block as [|st block IH]; intros i Hk Hps; cbn.
  - replace k with i by (cbn in *; lia). rewrite at_index_cons. cbn. rewrite decide_True by done. by rewrite Nat.sub_diag.
  - rewrite at_index_cons. cbn [fst snd]. case_decide as Hi.
    + subst k. rewrite Nat.sub_diag. rewrite (weave_below (S i) ps (i, x)) by (cbn; lia). done.
    + rewrite at_index_above by (eapply Forall_impl; [exact Hps|]; cbn; lia). cbn [app].
      replace (k - i)%nat with (S (k - S i)) by lia. apply vec_insert_S, IH; [cbn in Hk; lia|done].
Qed.
(** Patches in ascending order. *)
Fixpoint ascending (ps : Patches) : Prop :=
  match ps with [] => True | p :: ps => Forall (λ q, (p.1 <= q.1)%nat) ps ∧ ascending ps end.
Lemma sorted_insert_forall (P : nat * Stmt → Prop) p ps : Forall P (sorted_insert p ps) ↔ P p ∧ Forall P ps.
Proof.
  induction ps as [|q ps IH]; cbn; [rewrite Forall_singleton, Forall_nil; tauto|].
  destruct (Nat.ltb p.1 q.1); rewrite !Forall_cons, ?IH; tauto.
Qed.
Lemma sorted_insert_ascending p ps : ascending ps → ascending (sorted_insert p ps).
Proof.
  induction ps as [|q ps IH]; cbn; [by repeat constructor|]. intros [Hq Hps].
  destruct (Nat.ltb_spec p.1 q.1); cbn.
  - split; [|done]. constructor; [lia|]. eapply Forall_impl; [exact Hq|]. cbn. lia.
  - rewrite sorted_insert_forall. split; [by split|by apply IH].
Qed.
Lemma at_index_sorted_insert i p ps : ascending ps → at_index i (sorted_insert p ps) = at_index i ps ++ at_index i [p].
Proof.
  induction ps as [|q ps IH]; cbn; [done|]. intros [Hq Hps]. destruct (Nat.ltb_spec p.1 q.1) as [Hlt|Hge].
  - rewrite !at_index_cons. case_decide as Hp; [|by rewrite app_nil_r].
    rewrite decide_False by lia. rewrite at_index_above; [done|]. eapply Forall_impl; [exact Hq|]. cbn. lia.
  - rewrite !at_index_cons, IH, !at_index_cons by done. by repeat case_decide.
Qed.
Lemma sort_patches_spec ps :
  ascending (sort_patches ps) ∧ (∀ i, at_index i (sort_patches ps) = at_index i ps) ∧
  ∀ P, Forall P ps → Forall P (sort_patches ps).
Proof.
  induction ps as [|p ps IH] using rev_ind; [done|]. unfold sort_patches in *. rewrite foldl_app. cbn.
  destruct IH as (H1 & H2 & H3). split_and!; [by apply sorted_insert_ascending| |].
  - intros i. rewrite at_index_sorted_insert, H2 by done. unfold at_index. by rewrite filter_app, map_app.
  - intros P [HP Hp]%Forall_app. apply sorted_insert_forall. split; [by inversion Hp|auto].
Qed.
Lemma weave_ext i ps qs block : (∀ i, at_index i ps = at_index i qs) → weave i ps block = weave i qs block.
Proof. intros H. revert i. induction block as [|st block IH]; intros i; cbn; by rewrite H, ?IH. Qed.
Lemma apply_patches_weave ps block :
  Forall (λ p, (p.1 <= length block)%nat) ps → apply_patches ps block = Ok (weave 0 ps block).
Proof.
  intros Hb. unfold apply_patches. destruct (sort_patches_spec ps) as (Ha & Hi & Hf).
  rewrite <- (weave_ext 0 (sort_patches ps) ps block Hi). apply Hf in Hb. clear Hf Hi.
  induction (sort_patches ps) as [|p l IH]; cbn.
  - clear. f_equal. assert (∀ i, weave i [] block = block) as ->; [|done].
    induction block as [|st block IH]; intros i; cbn; [done|]. by rewrite IH.
  - destruct Ha as [Hp Ha]. inversion Hb as [|? ? Hpb Hb']; subst. rewrite foldM_app, IH by done. cbn.
    rewrite <- (Nat.sub_0_r p.1). rewrite vec_insert_weave by (try done; lia). by destruct p.
Qed.
Lemma sort_patches_forall (P : nat * Stmt → Prop) ps : Forall P (sort_patches ps) ↔ Forall P ps.
Proof.
  induction ps as [|p ps IH] using rev_ind; [done|]. unfold sort_patches in *. rewrite foldl_app, Forall_app, Forall_singleton. cbn.
  rewrite sorted_insert_forall, IH. tauto.
Qed.
Lemma ascending_last ps p : ascending (ps ++ [p]) → Forall (λ q, (q.1 <= p.1)%nat) ps.
Proof.
  induction ps as [|q ps IH]; [constructor|]. cbn. intros [Hq Hps]. apply Forall_app in Hq as [_ Hq].
  rewrite Forall_singleton in Hq. constructor; auto.
Qed.
(** The block after the visitor has the patches for index i before
    statement i, in the order in which they were inserted; the indices beyond the
    end of the block, which [insert] rejects, are the only ones that panic. *)
Theorem apply_patches_correct ps block :
  apply_patches ps block =
    if decide (Forall (λ p, (p.1 <= length block)%nat) ps) then Ok (weave 0 ps block)
    else Panic "insertion index should be <= len".
Proof.
  case_decide as Hb; [by apply apply_patches_weave|]. unfold apply_patches. destruct (sort_patches_spec ps) as (Ha & _).
  rewrite <- sort_patches_forall in Hb. induction (sort_patches ps) as [|p l _] using rev_ind; [by destruct Hb|].
  rewrite rev_unit. cbn. unfold vec_insert. apply ascending_last in Ha. destruct (Nat.leb_spec p.1 (length block)) as [Hp|]; [|done].
  destruct Hb. apply Forall_app. split; [|by constructor]. eapply Forall_impl; [exact Ha|]. cbn. lia.
Qed.
(** Every statement of the block, and every patch. *)
Lemma weave_forall (P : Stmt → Prop) ps block i :
  Forall (λ p, P p.2) ps → Forall P block → Forall P (weave i ps block).
Proof.
  intros Hp Hb. assert (∀ i, Forall P (at_index i ps)) as Hat.
  { intros j. induction Hp as [|p ps Hp _ IH]; [constructor|]. rewrite at_index_cons. case_decide; [by constructor|done]. }
  revert i. induction Hb; intros i; cbn; [done|]. apply Forall_app. split; [done|]. by constructor.
Qed.
