(* ===== verification/JsDesugar.v ===== *)
(** Desugaring of JavaScript ([javascript/desugar.rs] and its passes), and the
    conversion to JankyScript ([jankyscript/from_js.rs]). *)
From S2P Require Import Prelude Types Operators JankySyntax JsSyntax JsWalk.
Import JS.

Abbreviation wres A := (comp never (A * Stmt)).

(** [loc.enclosing_block().expect(msg)]. *)
Definition block_context (msg : string) (loc : Loc) : comp never BlockContext := expect msg (enclosing_block loc).
(** A fresh name from the generator in the visitor's state. *)
Definition fresh_in (name : string) (w : World NameGen.t) : Id * World NameGen.t :=
  let '(x, ng) := NameGen.fresh name (vstate w) in (x, set_vstate ng w).

(** ** Function statements ([desugar_function_stmts.rs]) *)
Definition function_exit_stmt (w : World unit) (st : Stmt) (loc : Loc) : comp never (World unit * Stmt) :=
  match st with
  | SFunc name args body s =>
      cxt ← body_of_enclosing_function_or_program loc;
      w ← insert cxt 0 (SVarDecl [(name, EFunc None args body s)] s) w;
      Ok (w, SEmpty)
  | _ => Ok (w, st)
  end.
Definition DesugarFunctionStmts : Visitor unit := mkVisitor enter_nothing function_exit_stmt exit_nothing.

(** ** Calls of the standard library ([normalize_std_lib_calls.rs]) *)
Definition std_lib_args (f : Expr) (args : list Expr) (s : Pos) : comp never (list Expr) :=
  match f with
  | EId (Named id) _ =>
      if bool_decide (id = "parseInt"%string) then
        match length args with
        | 1%nat => Ok (args ++ [int_ 10 s])
        | 2%nat => Ok args
        | _ => Panic "why was parseInt given these arguments"
        end
      else if bool_decide (id = "Error"%string) then
        match length args with
        | 0%nat => Ok (args ++ [str_ "" s])
        | 1%nat => Ok args
        | _ => Panic "why was Error given these arguments"
        end
      else Ok args
  | _ => Ok args
  end.
Definition normalize_exit_expr (w : World unit) (e : Expr) (loc : Loc) : comp never (World unit * Expr) :=
  match e with
  | ECall f args s => args ← std_lib_args f args s; Ok (w, ECall f args s)
  | ENew f args s => args ← std_lib_args f args s; Ok (w, ENew f args s)
  | _ => Ok (w, e)
  end.
Definition NormalizeStdLibCalls : Visitor unit := mkVisitor enter_nothing exit_nothing normalize_exit_expr.

(** ** Switch statements ([desugar_switch.rs]) *)
Record SwitchToIf := mkSwitchToIf { sw_ng : NameGen.t; name_stack : list Id }.
Definition switch_enter_stmt (s : SwitchToIf) (st : Stmt) (loc : Loc) : comp never (SwitchToIf * Stmt) :=
  match st with
  | SSwitch _ _ _ _ =>
      let '(name, ng) := NameGen.fresh "sw" (sw_ng s) in
      Ok (mkSwitchToIf ng (name :: name_stack s), st)
  | _ => Ok (s, st)
  end.
Definition switch_case (test_id fallthrough : Id) (s : Pos) (c : Expr * Stmt) : Stmt :=
  SIf (EBinary (OLogical LOr) (EBinary (OBinary Js.StrictEqual) (id_ test_id s) c.1 s) (id_ fallthrough s) s)
    (SBlock [c.2; SExpr (assign_ (LId fallthrough) TRUE_ s) s] s) SEmpty s.
Definition switch_exit_stmt (w : World SwitchToIf) (st : Stmt) (loc : Loc) : comp never (World SwitchToIf * Stmt) :=
  match st with
  | SBreak None s =>
      if in_switch_block loc then
        name ← expect "called unwrap on a None value" (head (name_stack (vstate w)));
        Ok (w, SBreak (Some name) s)
      else Ok (w, st)
  | SSwitch e cases d s =>
      name ← expect "no name to pop" (head (name_stack (vstate w)));
      let '(test_id, ng) := NameGen.fresh "test" (sw_ng (vstate w)) in
      let '(fallthrough, ng) := NameGen.fresh "fallthrough" ng in
      let w := set_vstate (mkSwitchToIf ng (tail (name_stack (vstate w)))) w in
      dv ← match d with SBlock dv _ => Ok dv | SEmpty => Ok [] | _ => Panic "Block or Empty expected" end;
      Ok (w, SLabel name (SBlock ([vardecl1_ fallthrough FALSE_ s; vardecl1_ test_id e s] ++
                                   map (switch_case test_id fallthrough s) cases ++ dv) s) s)
  | _ => Ok (w, st)
  end.
Definition SwitchVisitor : Visitor SwitchToIf := mkVisitor switch_enter_stmt switch_exit_stmt exit_nothing.
Definition desugar_switch (ng : NameGen.t) (program : Stmt) : wres NameGen.t :=
  '(s, program) ← walk SwitchVisitor (mkSwitchToIf ng []) program; Ok (sw_ng s, program).

(** ** Loops ([desugar_loops.rs]) *)
Definition breaks_exit_stmt (w : World unit) (st : Stmt) (loc : Loc) : comp never (World unit * Stmt) :=
  match st with
  | SWhile cond body s => Ok (w, SWhile TRUE_ (SBlock [SIf cond body (SBreak None s) s] s) s)
  | SFor init cond advance body s => Ok (w, SFor init TRUE_ advance (SBlock [SIf cond body (SBreak None s) s] s) s)
  | SDoWhile body cond s => Ok (w, SWhile TRUE_ (SBlock [body; SIf cond SEmpty (SBreak None s) s] s) s)
  | _ => Ok (w, st)
  end.
Definition ExplicitBreaks : Visitor unit := mkVisitor enter_nothing breaks_exit_stmt exit_nothing.

(** [if_loop_then_body]: the body of a loop, its position, and the loop with another body. *)
Definition if_loop_then_body (st : Stmt) : option (Stmt * Pos * (Stmt → Stmt)) :=
  match st with
  | SFor i c a body s => Some (body, s, λ b, SFor i c a b s)
  | SDoWhile body c s => Some (body, s, λ b, SDoWhile b c s)
  | SForIn v x e body s => Some (body, s, λ b, SForIn v x e b s)
  | SWhile c body s => Some (body, s, λ b, SWhile c b s)
  | _ => None
  end.
Record LabelLoops := mkLabelLoops { ll_ng : NameGen.t; breaks_stack : list Id; breaks_for_conts : gmap Id Id }.
Definition label_loop_state (break_name : Id) (s : LabelLoops) : LabelLoops :=
  let '(cont_name, ng) := NameGen.fresh "cont" (ll_ng s) in
  mkLabelLoops ng (break_name :: breaks_stack s) (<[break_name := cont_name]> (breaks_for_conts s)).
Definition label_enter_stmt (s : LabelLoops) (st : Stmt) (loc : Loc) : comp never (LabelLoops * Stmt) :=
  match st with
  | SLabel break_name labeled _ =>
      match if_loop_then_body labeled with
      | Some _ => Ok (label_loop_state break_name s, labeled)
      | None => Ok (s, st)
      end
  | _ =>
      match if_loop_then_body st with
      | Some _ =>
          let '(break_name, ng) := NameGen.fresh "break" (ll_ng s) in
          Ok (label_loop_state break_name (mkLabelLoops ng (breaks_stack s) (breaks_for_conts s)), st)
      | None => Ok (s, st)
      end
  end.
Definition label_exit_stmt (w : World LabelLoops) (st : Stmt) (loc : Loc) : comp never (World LabelLoops * Stmt) :=
  let v := vstate w in
  st ← match st with
       | SBreak None s => x ← expect "no close break" (head (breaks_stack v)); Ok (SBreak (Some x) s)
       | SContinue None s =>
           x ← expect "no break label" (head (breaks_stack v));
           y ← expect "no cont map" (breaks_for_conts v !! x);
           Ok (SBreak (Some y) s)
       | SContinue (Some other) s =>
           y ← expect "cont has no break" (breaks_for_conts v !! other);
           Ok (SBreak (Some y) s)
       | _ => Ok st
       end;
  match if_loop_then_body st with
  | Some (body, s, with_body) =>
      break_name ← expect "no generated label for loop" (head (breaks_stack v));
      cont_name ← expect "no cont for break" (breaks_for_conts v !! break_name);
      Ok (set_vstate (mkLabelLoops (ll_ng v) (tail (breaks_stack v)) (delete break_name (breaks_for_conts v))) w,
          SLabel break_name (with_body (SLabel cont_name body s)) s)
  | None => Ok (w, st)
  end.
Definition LabelVisitor : Visitor LabelLoops := mkVisitor label_enter_stmt label_exit_stmt exit_nothing.

Definition while_enter_stmt (u : unit) (st : Stmt) (loc : Loc) : comp never (unit * Stmt) :=
  match st with
  | SFor init cond advance body s =>
      let init := match init with InitExpr e => SExpr e s | InitDecl ds => SVarDecl ds s end in
      Ok (u, SBlock [init; SWhile cond (SBlock [body; SExpr advance s] s) s] s)
  | _ => Ok (u, st)
  end.
Definition ForToWhile : Visitor unit := mkVisitor while_enter_stmt exit_nothing exit_nothing.

Definition desugar_loops (ng : NameGen.t) (script : Stmt) : wres NameGen.t :=
  '(_, script) ← walk ExplicitBreaks tt script;
  '(s, script) ← walk LabelVisitor (mkLabelLoops ng [] ∅) script;
  '(_, script) ← walk ForToWhile tt script;
  Ok (ll_ng s, script).

(** ** Blocks ([add_blocks.rs]) *)
Definition ensure_block (st : Stmt) (s : Pos) : Stmt := match st with SBlock _ _ => st | _ => SBlock [st] s end.
Definition blocks_exit_stmt (w : World unit) (st : Stmt) (loc : Loc) : comp never (World unit * Stmt) :=
  Ok (w, match st with
    | SIf e a b s => SIf e (ensure_block a s) (ensure_block b s) s
    | SCatch a x b s => SCatch (ensure_block a s) x (ensure_block b s) s
    | SFinally a b s => SFinally (ensure_block a s) (ensure_block b s) s
    | SForIn v x e a s => SForIn v x e (ensure_block a s) s
    | SWhile e a s => SWhile e (ensure_block a s) s
    | SLabel x a s => SLabel x (ensure_block a s) s
    | _ => st
    end).
Definition AddBlocks : Visitor unit := mkVisitor enter_nothing blocks_exit_stmt exit_nothing.

(** ** Declarations ([desugar_vardecls.rs], [lift_vars.rs]) *)
Definition vardecls_exit_stmt (w : World unit) (st : Stmt) (loc : Loc) : comp never (World unit * Stmt) :=
  match st with
  | SVarDecl decls s =>
      if (1 <? length decls)%nat then
        cxt ← block_context "Block context expected" loc;
        last_decl ← expect "removal index should be < len" (last decls);
        w ← foldM (λ w d, insert_here cxt (vardecl1_ d.1 d.2 s) w) w (removelast decls);
        Ok (w, vardecl1_ last_decl.1 last_decl.2 s)
      else Ok (w, st)
  | _ => Ok (w, st)
  end.
Definition SeparateVarDecls : Visitor unit := mkVisitor enter_nothing vardecls_exit_stmt exit_nothing.

Definition lift_exit_stmt (w : World unit) (st : Stmt) (loc : Loc) : comp never (World unit * Stmt) :=
  match st with
  | SVarDecl decl s =>
      decl1 ← expect "no decls in vardecl" (last decl);
      assert "vardecls not desugared" (bool_decide (removelast decl = []));;
      cxt ← body_of_enclosing_function_or_program loc;
      w ← insert cxt 0 (vardecl1_ decl1.1 UNDEFINED_ s) w;
      Ok (w, SExpr (assign_ (LId decl1.1) decl1.2 s) s)
  | SForIn true bind container body s =>
      cxt ← body_of_enclosing_function_or_program loc;
      w ← insert_here cxt (vardecl1_ bind container s) w;
      Ok (w, SForIn false bind taken_expr body s)
  | _ => Ok (w, st)
  end.
Definition LiftVars : Visitor unit := mkVisitor enter_nothing lift_exit_stmt exit_nothing.

(** ** The parameter for [this] ([desugar_this.rs]) *)
Section this.
Context (this_name : Id).
Definition this_exit_expr (w : World NameGen.t) (e : Expr) (loc : Loc) : comp never (World NameGen.t * Expr) :=
  (* the object of a method call gets a name *)
  let name_object (obj : Expr) (s : Pos) :=
    cxt ← block_context "called unwrap on a None value" loc;
    let '(obj_name, w) := fresh_in "obj4this" w in
    w ← insert_here cxt (vardecl1_ obj_name obj s) w;
    Ok (w, id_ obj_name s) in
  match e with
  | ECall f args p =>
      match f with
      | EBracket obj field s => '(w, obj) ← name_object obj s; Ok (w, ECall (EBracket obj field s) (obj :: args) p)
      | EDot obj x s => '(w, obj) ← name_object obj s; Ok (w, ECall (EDot obj x s) (obj :: args) p)
      | _ => Ok (w, ECall f (UNDEFINED_ :: args) p)
      end
  | ENew f args s =>
      cxt ← block_context "called unwrap on a None value" loc;
      let '(func_name, w) := fresh_in "new_constructor" w in
      w ← insert_here cxt (vardecl1_ func_name f s) w;
      let '(obj_name, w) := fresh_in "new_obj" w in
      let object := id_ (Named "Object") s in
      let new_obj := ECall (EDot object (Named "create") s) [object; EDot (EId func_name s) (Named "prototype") s] s in
      w ← insert_here cxt (vardecl1_ obj_name new_obj s) w;
      w ← insert_here cxt (SExpr (ECall (EId func_name s) (id_ obj_name s :: args) s) s) w;
      Ok (w, id_ obj_name s)
  | EFunc f params body s => Ok (w, EFunc f (this_name :: params) body s)
  | EThis => Ok (w, id_ this_name Unknown)
  | _ => Ok (w, e)
  end.
Definition ThisParameter : Visitor NameGen.t := mkVisitor enter_nothing exit_nothing this_exit_expr.
End this.
Definition desugar_this (ng : NameGen.t) (program : Stmt) : wres NameGen.t :=
  let '(this_name, ng) := NameGen.fresh "this" ng in walk (ThisParameter this_name) ng program.

(** ** Calls ([desugar_function_applications.rs]) *)
Definition calls_exit_expr (w : World NameGen.t) (e : Expr) (loc : Loc) : comp never (World NameGen.t * Expr) :=
  match e with
  | ECall _ _ s =>
      match loc with
      | CVarDeclRhs :: _ | CAssignRhs Equal :: _ => Ok (w, e)
      | _ =>
          cxt ← block_context "Block context expected" loc;
          let '(name, w) := fresh_in "f_call" w in
          w ← insert_here cxt (vardecl1_ name e s) w;
          Ok (w, id_ name s)
      end
  | _ => Ok (w, e)
  end.
Definition NameFunctionCalls : Visitor NameGen.t := mkVisitor enter_nothing exit_nothing calls_exit_expr.

(** ** [&&], [||], [?:] and sequences ([desugar_logical.rs]) *)
Definition logical_exit_expr (w : World NameGen.t) (e : Expr) (loc : Loc) : comp never (World NameGen.t * Expr) :=
  cxt ← block_context "expected block context" loc;
  let set (x : Id) (e : Expr) (s : Pos) := SExpr (assign_ (LId x) e s) s in
  match e with
  | EBinary (OLogical op) e1 e2 s =>
      let '(left_name, w) := fresh_in "left" w in
      let left_id := id_ left_name s in
      let '(cons_, alt, op_name) :=
        match op with LAnd => (e2, left_id, "and") | LOr => (left_id, e2, "or") end%string in
      let '(result, w) := fresh_in op_name w in
      let if_stmt := SIf left_id (set result cons_ s) (set result alt s) s in
      w ← insert_here cxt (vardecl1_ result UNDEFINED_ s) w;
      w ← insert_here cxt (vardecl1_ left_name e1 s) w;
      w ← insert_here cxt if_stmt w;
      Ok (w, id_ result s)
  | EIf cond cons_ alt s =>
      let '(result, w) := fresh_in "if_expr" w in
      w ← insert_here cxt (vardecl1_ result UNDEFINED_ s) w;
      w ← insert_here cxt (SIf cond (set result cons_ s) (set result alt s) s) w;
      Ok (w, id_ result s)
  | ESeq es s =>
      last_ ← expect "sequence with no exprs" (last es);
      w ← foldM (λ w e, insert_here cxt (SExpr e s) w) w (removelast es);
      Ok (w, last_)
  | _ => Ok (w, e)
  end.
Definition DesugarLogical : Visitor NameGen.t := mkVisitor enter_nothing exit_nothing logical_exit_expr.

(** ** Assignments with operators ([desugar_updates.rs]) *)
Definition assign_binop (op : AssignOp) : option Js.BinaryOp :=
  match op with
  | Equal => None
  | PlusEqual => Some Js.BPlus
  | MinusEqual => Some Js.BMinus
  | TimesEqual => Some Js.Times
  | DivEqual => Some Js.Over
  | ModEqual => Some Js.Mod
  | LeftShiftEqual => Some Js.LeftShift
  | RightShiftEqual => Some Js.RightShift
  | UnsignedRightShiftEqual => Some Js.UnsignedRightShift
  | OrEqual => Some Js.Or
  | XOrEqual => Some Js.XOr
  | AndEqual => Some Js.And
  | PowerOfEqual => Some Js.PowerOf
  end.
Definition lift_to_id (cxt : BlockContext) (e : Expr) (s : Pos) (w : World NameGen.t) : comp never (World NameGen.t * Expr) :=
  if is_essentially_atom e then Ok (w, e)
  else
    let '(e_name, w) := fresh_in "update_assign" w in
    w ← insert_here cxt (vardecl1_ e_name e s) w;
    Ok (w, id_ e_name s).
(** The l-value with its parts in variables, and the expression that reads it. *)
Definition lval_to_expr (lv : LValue) (loc : Loc) (s : Pos) (w : World NameGen.t) :
    comp never (World NameGen.t * LValue * Expr) :=
  match lv with
  | LId x => Ok (w, lv, id_ x s)
  | LDot e x =>
      cxt ← block_context "called unwrap on a None value" loc;
      '(w, e) ← lift_to_id cxt e s w;
      Ok (w, LDot e x, EDot e x s)
  | LBracket e1 e2 =>
      cxt ← block_context "called unwrap on a None value" loc;
      '(w, e1) ← lift_to_id cxt e1 s w;
      '(w, e2) ← lift_to_id cxt e2 s w;
      Ok (w, LBracket e1 e2, EBracket e1 e2 s)
  end.
Definition updates_exit_expr (w : World NameGen.t) (e : Expr) (loc : Loc) : comp never (World NameGen.t * Expr) :=
  match e with
  | EAssign op lv rhs s =>
      match assign_binop op with
      | None => Ok (w, e)
      | Some bin_op =>
          '(w, lv, e) ← lval_to_expr lv loc s w;
          Ok (w, assign_ lv (EBinary (OBinary bin_op) e rhs s) s)
      end
  | EUnaryAssign op lv s =>
      cxt ← block_context "called unwrap on a None value" loc;
      '(w, lv, e) ← lval_to_expr lv loc s w;
      w ← insert_here cxt (SExpr (assign_ lv (EBinary (binop op) e (int_ 1 s) s) s) s) w;
      Ok (w, if is_prefix op then e else EBinary (other_binop op) e (int_ 1 s) s)
  | _ => Ok (w, e)
  end.
Definition DesugarFancyUpdates : Visitor NameGen.t := mkVisitor enter_nothing exit_nothing updates_exit_expr.

(** ** Member accesses ([desugar_bracket_str.rs], [resugar_method_call.rs]) *)
Definition bracket_exit_expr (w : World unit) (e : Expr) (loc : Loc) : comp never (World unit * Expr) :=
  Ok (w, match e with
    | EBracket container (ELit (K.LString name) _) s => EDot container (Named name) s
    | EAssign op (LBracket container (ELit (K.LString name) _)) rhs s => EAssign op (LDot container (Named name)) rhs s
    | _ => e
    end).
Definition BracketToDot : Visitor unit := mkVisitor enter_nothing exit_nothing bracket_exit_expr.

Definition resugar_exit_expr (w : World unit) (e : Expr) (loc : Loc) : comp never (World unit * Expr) :=
  match e with
  | ECall (EDot obj name s) args _ =>
      id ← match obj with EId obj_name _ => Ok obj_name | _ => Panic "Desugar should have named method objects" end;
      name ← match name with Named field => Ok field | _ => Panic "Dot should't access special ids" end;
      Ok (w, EMethodCall id name args s)
  | EDot obj (Named field) s => Ok (w, if bool_decide (field = "length"%string) then ELength obj s else e)
  | _ => Ok (w, e)
  end.
Definition ResugarMethodCall : Visitor unit := mkVisitor enter_nothing exit_nothing resugar_exit_expr.

(** ** All passes ([desugar.rs]) *)
Definition desugar (stmt : Stmt) (ng : NameGen.t) : wres NameGen.t :=
  '(_, stmt) ← walk DesugarFunctionStmts tt stmt;
  '(_, stmt) ← walk NormalizeStdLibCalls tt stmt;
  '(ng, stmt) ← desugar_switch ng stmt;
  '(ng, stmt) ← desugar_loops ng stmt;
  '(_, stmt) ← walk AddBlocks tt stmt;
  '(_, stmt) ← walk SeparateVarDecls tt stmt;
  '(_, stmt) ← walk LiftVars tt stmt;
  '(ng, stmt) ← desugar_this ng stmt;
  '(ng, stmt) ← walk NameFunctionCalls ng stmt;
  '(ng, stmt) ← walk DesugarLogical ng stmt;
  '(ng, stmt) ← walk DesugarFancyUpdates ng stmt;
  '(_, stmt) ← walk BracketToDot tt stmt;
  '(_, stmt) ← walk ResugarMethodCall tt stmt;
  Ok (ng, stmt).

(** ** From JavaScript to JankyScript ([from_js.rs]) *)
Definition unexpected {A} : comp never A := Panic "JavaScript is not desugared correctly".
Definition default_typeinf : K.JsOpTypeinf := K.mkJsOpTypeinf OpMissing.
Fixpoint from_lvalue (lv : LValue) : comp never K.LValue :=
  match lv with
  | LId x => Ok (K.LId x J.Missing)
  | LDot e x => e ← from_expr e; Ok (K.LDot e x)
  | LBracket e1 e2 => e1 ← from_expr e1; e2 ← from_expr e2; Ok (K.LBracket e1 e2 J.Missing)
  end
with from_expr (e : Expr) : comp never K.Expr :=
  match e with
  | ELit lit s => Ok (K.ELit lit s)
  | EArray es s => es ← mapM from_expr es; Ok (K.EArray es s)
  | EObject kvs s => kvs ← mapM (λ kv, e ← from_expr kv.2; Ok (kv.1, e)) kvs; Ok (K.EObject kvs s)
  | EThis => unexpected
  | EId x s => Ok (K.EId x J.Missing s)
  | EDot e x s => e ← from_expr e; Ok (K.EDot e x s)
  | EBracket e1 e2 s => e1 ← from_expr e1; e2 ← from_expr e2; Ok (K.EBracket e1 e2 J.Missing s)
  | ENew _ _ _ => unexpected
  | EUnary op e s => e ← from_expr e; Ok (K.EJsOp (JUnary op) [e] default_typeinf s)
  | EBinary (OBinary op) e1 e2 s =>
      e1 ← from_expr e1; e2 ← from_expr e2; Ok (K.EJsOp (JBinary op) [e1; e2] default_typeinf s)
  | EBinary (OLogical _) _ _ _ => unexpected
  | EUnaryAssign _ _ _ => unexpected
  | EIf _ _ _ _ => unexpected
  | EAssign _ lv e s => lv ← from_lvalue lv; e ← from_expr e; Ok (K.EAssign lv e s)
  | ECall e es s => e ← from_expr e; es ← mapM from_expr es; Ok (K.ECall e es s)
  | EMethodCall x name es s => es ← mapM from_expr es; Ok (K.EMethodCall (K.EId x J.Missing s) name es J.Missing s)
  | ELength obj s => obj ← from_expr obj; Ok (K.ELength obj J.Missing s)
  | EFunc _ args body s =>
      body ← from_stmt body; Ok (K.func (map (λ x, (x, J.Missing)) args) J.Missing body s)
  | ESeq _ _ => unexpected
  end
with from_stmt (st : Stmt) : comp never K.Stmt :=
  match st with
  | SBlock ss s => ss ← mapM from_stmt ss; Ok (K.SBlock ss s)
  | SEmpty => Ok K.SEmpty
  | SExpr e s => e ← from_expr e; Ok (K.SExpr e s)
  | SIf c t e s => c ← from_expr c; t ← from_stmt t; e ← from_stmt e; Ok (K.SIf c t e s)
  | SForIn is_var bind container body s =>
      assert "for..in was not desugared to not use var" (negb is_var);;
      container ← from_expr container; body ← from_stmt body; Ok (K.SForIn bind container body s)
  | SLabel x st s => st ← from_stmt st; Ok (K.SLabel x st s)
  | SBreak x s => x ← expect "called unwrap on a None value" x; Ok (K.SBreak x s)
  | SContinue _ _ => unexpected
  | SSwitch _ _ _ _ => unexpected
  | SWhile c body s =>
      match c with
      | ELit (K.LBool true) _ => body ← from_stmt body; Ok (K.SLoop body s)
      | _ => Panic "desugaring should have removed while loops"
      end
  | SDoWhile _ _ _ => unexpected
  | SFor _ _ _ _ _ => unexpected
  | SCatch try_body x catch_body s =>
      try_body ← from_stmt try_body; catch_body ← from_stmt catch_body; Ok (K.SCatch try_body x catch_body s)
  | SFinally try_body finally_body s =>
      try_body ← from_stmt try_body; finally_body ← from_stmt finally_body; Ok (K.SFinally try_body finally_body s)
  | SThrow e s => e ← from_expr e; Ok (K.SThrow e s)
  | SVarDecl decls s =>
      match decls with
      | [(x, e)] => e ← from_expr e; Ok (K.SVar x J.Missing e s)
      | _ => unexpected
      end
  | SFunc _ _ _ _ => unexpected
  | SReturn e s => e ← from_expr e; Ok (K.SReturn e s)
  end.
Definition from_javascript (js_prog : Stmt) : comp never K.Stmt := from_stmt js_prog.
