(* ===== verification/JsScope.v ===== *)
(** The subsets of JavaScript between the passes of desugaring, and where
    breaks may jump to. *)
From S2P Require Import Prelude Types Operators JankySyntax JsSyntax JsWalk JsDesugar.
Import JS.

(** ** What a program may contain *)
Record Caps := mkCaps {
  functions : bool;  (* function statements *)
  switches : bool;
  conditions : bool; (* loops with a condition, do-while loops *)
  fors : bool;
  jumps : bool;      (* continue, and break without a label *)
  multiple : bool;   (* declarations of several variables *)
  forvars : bool;    (* for (var x in e) *)
  thises : bool;     (* this, new, and calls of any member *)
  logicals : bool;   (* &&, ||, ?: and sequences *)
  updates : bool;    (* assignments with an operator *)
  methods : bool;    (* method calls and lengths *)
  loose : bool;      (* any number of arguments for the functions of the library *)
  funexprs : bool    (* function expressions *)
}.
(** Where a statement may jump to: the nearest loop or switch, the nearest loop,
    labels, and labels of loops.  [kused] are the labels of the loops around the
    statement, those outside of its function too: no other loop has them. *)
Record Scope := mkScope { kbreak : bool; kcontinue : bool; klabels : list Id; kloops : list Id; kused : list Id }.
Definition in_program : Scope := mkScope false false [] [] [].
Definition in_function (k : Scope) : Scope := mkScope false false [] [] (kused k).
Definition enter_loop (k : Scope) : Scope := mkScope true true (klabels k) (kloops k) (kused k).
Definition enter_switch (k : Scope) : Scope := mkScope true (kcontinue k) (klabels k) (kloops k) (kused k).
Definition add_label (x : Id) (k : Scope) : Scope :=
  mkScope (kbreak k) (kcontinue k) (x :: klabels k) (kloops k) (kused k).
Definition add_loop (x : Id) (k : Scope) : Scope :=
  mkScope (kbreak k) (kcontinue k) (x :: klabels k) (x :: kloops k) (x :: kused k).

Definition is_loop (st : Stmt) : bool := bool_decide (is_Some (if_loop_then_body st)).
Definition is_block (st : Stmt) : bool := match st with SBlock _ _ => true | _ => false end.
Definition block_or_empty (st : Stmt) : bool := match st with SBlock _ _ | SEmpty => true | _ => false end.
Definition is_true (e : Expr) : bool := match e with ELit (K.LBool true) _ => true | _ => false end.
Definition is_id (e : Expr) : bool := match e with EId _ _ => true | _ => false end.
Definition named (x : Id) : bool := match x with Named _ => true | _ => false end.
(** Expressions that are not replaced with a member access. *)
Definition plain (e : Expr) : bool := match e with ESeq _ _ | EUnaryAssign _ _ _ => false | _ => true end.
(** The callees of a call after its receiver has a name. *)
Definition good (e : Expr) : bool :=
  match e with EDot e _ _ | EBracket e _ _ => is_id e | _ => plain e end.
Definition std_ok (f : Expr) (args : list Expr) : bool := is_ok (std_lib_args f args Unknown).

Definition child_scope (st : Stmt) (k : Scope) : Scope :=
  match st with
  | SWhile _ _ _ | SDoWhile _ _ _ | SFor _ _ _ _ _ | SForIn _ _ _ _ _ => enter_loop k
  | SSwitch _ _ _ _ => enter_switch k
  | SLabel x b _ => if is_loop b then add_loop x k else add_label x k
  | SFunc _ _ _ _ => in_function k
  | _ => k
  end.
Definition shape_stmt (c : Caps) (k : Scope) (st : Stmt) : bool :=
  match st with
  | SFunc _ _ _ _ => functions c
  | SSwitch _ _ d _ => switches c && block_or_empty d
  | SWhile e _ _ => conditions c || is_true e
  | SDoWhile _ _ _ => conditions c
  | SFor _ e _ _ _ => fors c && (conditions c || is_true e)
  | SForIn is_var _ _ _ _ => forvars c || negb is_var
  | SBreak None _ => jumps c && kbreak k
  | SBreak (Some l) _ => bool_decide (l ∈ klabels k)
  | SContinue None _ => jumps c && kcontinue k
  | SContinue (Some l) _ => jumps c && bool_decide (l ∈ kloops k)
  | SVarDecl ds _ => match ds with [] => false | [_] => true | _ => multiple c end
  | SLabel x b _ => negb (jumps c) || negb (is_loop b) || (named x && negb (bool_decide (x ∈ kused k)))
  | _ => true
  end.
Definition shape_expr (c : Caps) (e : Expr) : bool :=
  match e with
  | EThis => thises c
  | ENew f args _ => thises c && (loose c || std_ok f args)
  | EBinary (OLogical _) _ _ _ | EIf _ _ _ _ => logicals c
  | ESeq es _ => logicals c && negb (bool_decide (es = []))
  | EAssign op _ _ _ => updates c || bool_decide (op = Equal)
  | EUnaryAssign _ _ _ => updates c
  | ECall f args _ => plain f && (thises c || good f) && (loose c || std_ok f args)
  | EMethodCall _ _ _ _ | ELength _ _ => methods c
  | EDot _ x _ => named x
  | EFunc _ _ _ _ => funexprs c
  | _ => true
  end.
Definition no_functions (c : Caps) : Caps :=
  mkCaps (functions c) (switches c) (conditions c) (fors c) (jumps c) (multiple c) (forvars c)
    (thises c) (logicals c) (updates c) (methods c) (loose c) false.

(** The first clause of a [for] loop is not visited before the loop is replaced:
    it has no function expressions. *)
Fixpoint ok_expr (c : Caps) (k : Scope) (e : Expr) {struct e} : bool :=
  shape_expr c e &&
  match e with
  | ELit _ _ | EThis | EId _ _ => true
  | EArray es _ | ESeq es _ | EMethodCall _ _ es _ => forallb (ok_expr c k) es
  | EObject kvs _ => forallb (λ kv, ok_expr c k kv.2) kvs
  | EDot e _ _ | EUnary _ e _ | ELength e _ => ok_expr c k e
  | EBracket e1 e2 _ | EBinary _ e1 e2 _ => ok_expr c k e1 && ok_expr c k e2
  | ENew e es _ | ECall e es _ => ok_expr c k e && forallb (ok_expr c k) es
  | EUnaryAssign _ lv _ => ok_lval c k lv
  | EIf e1 e2 e3 _ => ok_expr c k e1 && ok_expr c k e2 && ok_expr c k e3
  | EAssign _ lv e _ => ok_lval c k lv && ok_expr c k e
  | EFunc _ _ b _ => ok_stmt c (in_function k) b
  end
with ok_lval (c : Caps) (k : Scope) (lv : LValue) {struct lv} : bool :=
  match lv with
  | LId _ => true
  | LDot e x => named x && ok_expr c k e
  | LBracket e1 e2 => ok_expr c k e1 && ok_expr c k e2
  end
with ok_init (c : Caps) (k : Scope) (i : ForInit) {struct i} : bool :=
  match i with
  | InitExpr e => ok_expr (no_functions c) k e
  | InitDecl ds => match ds with [] => false | _ => forallb (λ d, ok_expr (no_functions c) k d.2) ds end
  end
with ok_stmt (c : Caps) (k : Scope) (st : Stmt) {struct st} : bool :=
  shape_stmt c k st &&
  let k := child_scope st k in
  let ok := ok_stmt c k in
  match st with
  | SEmpty | SBreak _ _ | SContinue _ _ => true
  | SBlock ss _ => forallb ok ss
  | SExpr e _ | SThrow e _ | SReturn e _ => ok_expr c k e
  | SIf e s1 s2 _ => ok_expr c k e && ok s1 && ok s2
  | SSwitch e cases d _ => ok_expr c k e && forallb (λ a, ok_expr c k a.1 && ok a.2) cases && ok d
  | SWhile e b _ | SDoWhile b e _ | SForIn _ _ e b _ => ok_expr c k e && ok b
  | SFor i e1 e2 b _ => ok_init c k i && ok_expr c k e1 && ok_expr c k e2 && ok b
  | SLabel _ b _ | SFunc _ _ b _ => ok b
  | SCatch s1 _ s2 _ | SFinally s1 s2 _ => ok s1 && ok s2
  | SVarDecl ds _ => forallb (λ d, ok_expr c k d.2) ds
  end.

(** One level of these predicates: the node and its children, whose scope is [k]. *)
Definition sub_expr (c : Caps) (k : Scope) (e : Expr) : Prop :=
  match e with
  | ELit _ _ | EThis | EId _ _ => True
  | EArray es _ | ESeq es _ | EMethodCall _ _ es _ => Forall (λ e, ok_expr c k e) es
  | EObject kvs _ => Forall (λ kv, ok_expr c k kv.2) kvs
  | EDot e _ _ | EUnary _ e _ | ELength e _ => ok_expr c k e
  | EBracket e1 e2 _ | EBinary _ e1 e2 _ => ok_expr c k e1 ∧ ok_expr c k e2
  | ENew e es _ | ECall e es _ => ok_expr c k e ∧ Forall (λ e, ok_expr c k e) es
  | EUnaryAssign _ lv _ => ok_lval c k lv
  | EIf e1 e2 e3 _ => ok_expr c k e1 ∧ ok_expr c k e2 ∧ ok_expr c k e3
  | EAssign _ lv e _ => ok_lval c k lv ∧ ok_expr c k e
  | EFunc _ _ b _ => ok_stmt c (in_function k) b
  end.
Definition sub_stmt (c : Caps) (k : Scope) (st : Stmt) : Prop :=
  match st with
  | SEmpty | SBreak _ _ | SContinue _ _ => True
  | SBlock ss _ => Forall (λ st, ok_stmt c k st) ss
  | SExpr e _ | SThrow e _ | SReturn e _ => ok_expr c k e
  | SIf e s1 s2 _ => ok_expr c k e ∧ ok_stmt c k s1 ∧ ok_stmt c k s2
  | SSwitch e cases d _ => ok_expr c k e ∧ Forall (λ a, ok_expr c k a.1 ∧ ok_stmt c k a.2) cases ∧ ok_stmt c k d
  | SWhile e b _ | SDoWhile b e _ | SForIn _ _ e b _ => ok_expr c k e ∧ ok_stmt c k b
  | SFor i e1 e2 b _ => ok_init c k i ∧ ok_expr c k e1 ∧ ok_expr c k e2 ∧ ok_stmt c k b
  | SLabel _ b _ | SFunc _ _ b _ => ok_stmt c k b
  | SCatch s1 _ s2 _ | SFinally s1 s2 _ => ok_stmt c k s1 ∧ ok_stmt c k s2
  | SVarDecl ds _ => Forall (λ d, ok_expr c k d.2) ds
  end.
Lemma ok_expr_unfold c k e : ok_expr c k e ↔ shape_expr c e ∧ sub_expr c k e.
Proof. destruct e; cbn [ok_expr]; rewrite andb_True; cbn [sub_expr]; rewrite ?andb_True, ?forallb_True; tauto. Qed.
Lemma ok_stmt_unfold c k st : ok_stmt c k st ↔ shape_stmt c k st ∧ sub_stmt c (child_scope st k) st.
Proof.
  destruct st; cbn [ok_stmt]; rewrite andb_True; cbn [sub_stmt]; rewrite ?andb_True, ?forallb_True; try tauto.
  assert (∀ k', Forall (λ a : Expr * Stmt, ok_expr c k' a.1 && ok_stmt c k' a.2) cases ↔
    Forall (λ a : Expr * Stmt, ok_expr c k' a.1 ∧ ok_stmt c k' a.2) cases) as ->; [|tauto].
  intros k'. apply Forall_proper; [|done]. intros a. by rewrite andb_True.
Qed.
Lemma ok_init_spec c k i :
  ok_init c k i ↔ match i with InitExpr e => ok_expr (no_functions c) k e
    | InitDecl ds => ds ≠ [] ∧ Forall (λ d, ok_expr (no_functions c) k d.2) ds end.
Proof. destruct i as [e|[|d ds]]; cbn [ok_init]; [done|naive_solver|]. rewrite forallb_True. naive_solver. Qed.

(** ** More may be allowed *)
Record caps_le (c c' : Caps) : Prop := {
  le_thises : thises c → thises c';
  le_logicals : logicals c → logicals c';
  le_updates : updates c → updates c';
  le_methods : methods c → methods c';
  le_loose : loose c → loose c';
  le_funexprs : funexprs c → funexprs c';
  le_statements : funexprs c →
    (functions c → functions c') ∧ (switches c → switches c') ∧ (conditions c → conditions c') ∧ (fors c → fors c') ∧
    (jumps c → jumps c') ∧ (jumps c' → jumps c) ∧ (multiple c → multiple c') ∧ (forvars c → forvars c')
}.
(** The targets of [continue] and of [break] without a label matter when there are any. *)
Record scope_le (c : Caps) (k k' : Scope) : Prop := {
  le_labels : klabels k ⊆ klabels k';
  le_break : jumps c → kbreak k → kbreak k';
  le_continue : jumps c → kcontinue k → kcontinue k';
  le_loops : jumps c → kloops k ⊆ kloops k';
  le_used : jumps c → kused k' ⊆ kused k
}.
Definition used_le (c : Caps) (k k' : Scope) : Prop := jumps c → kused k' ⊆ kused k.
Lemma scope_le_refl c k : scope_le c k k.
Proof. by split. Qed.
Lemma child_scope_le c st k k' : scope_le c k k' → scope_le c (child_scope st k) (child_scope st k').
Proof. intros [H1 H2 H3 H4 H5]. destruct st; cbn; try case_match; split; cbn; set_solver. Qed.

Lemma in_function_le c k k' : used_le c k k' → scope_le c (in_function k) (in_function k').
Proof. by split. Qed.
Lemma caps_le_no_functions c c' : caps_le c c' → caps_le (no_functions c) (no_functions c').
Proof. intros []. by split. Qed.
Lemma shape_expr_le c c' e : caps_le c c' → shape_expr c e → shape_expr c' e.
Proof. intros []. destruct e; cbn; try (destruct op); rewrite ?andb_True, ?orb_True; naive_solver. Qed.
Lemma shape_stmt_le c c' k k' st :
  caps_le c c' → funexprs c → scope_le c k k' → shape_stmt c k st → shape_stmt c' k' st.
Proof.
  intros [? ? ? ? ? ? Hst] Hf [Hl Hb Hc Hk Hu] H. destruct (Hst Hf) as (? & ? & ? & ? & ? & ? & ? & ?). clear Hst Hf.
  destruct st as [| | | | | | | | |x b s|[]|[]| | | |[|d [|d' ds]]| |]; cbn in *;
    rewrite ?andb_True, ?orb_True, ?negb_True, ?bool_decide_spec in *; try (clear Hl Hk Hu Hb Hc; tauto); try (clear Hk Hu; tauto).
  - destruct H as [[H|H]|[H1' H2']%andb_True]; [by left; left; auto|by left; right|].
    destruct (decide (jumps c')) as [Hj|]; [|by left; left]. right. rewrite andb_True, negb_True, bool_decide_spec in *.
    split; [done|]. specialize (Hu (H5 Hj)). set_solver.
  - auto.
  - destruct H as [Hj H]. split; [auto|]. by apply Hk.
Qed.

(** The children of a node are lower. *)
Definition below_expr (n : nat) (e : Expr) : Prop :=
  match e with
  | ELit _ _ | EThis | EId _ _ => True
  | EArray es _ | ESeq es _ | EMethodCall _ _ es _ => Forall (λ e, (height_expr e <= n)%nat) es
  | EObject kvs _ => Forall (λ kv, (height_expr kv.2 <= n)%nat) kvs
  | EDot e _ _ | EUnary _ e _ | ELength e _ => (height_expr e <= n)%nat
  | EBracket e1 e2 _ | EBinary _ e1 e2 _ => (height_expr e1 <= n)%nat ∧ (height_expr e2 <= n)%nat
  | ENew e es _ | ECall e es _ => (height_expr e <= n)%nat ∧ Forall (λ e, (height_expr e <= n)%nat) es
  | EUnaryAssign _ lv _ => (height_lval lv <= n)%nat
  | EIf e1 e2 e3 _ => (height_expr e1 <= n)%nat ∧ (height_expr e2 <= n)%nat ∧ (height_expr e3 <= n)%nat
  | EAssign _ lv e _ => (height_lval lv <= n)%nat ∧ (height_expr e <= n)%nat
  | EFunc _ _ b _ => (height_stmt b <= n)%nat
  end.
Definition below_stmt (n : nat) (st : Stmt) : Prop :=
  match st with
  | SEmpty | SBreak _ _ | SContinue _ _ => True
  | SBlock ss _ => Forall (λ st, (height_stmt st <= n)%nat) ss
  | SExpr e _ | SThrow e _ | SReturn e _ => (height_expr e <= n)%nat
  | SIf e s1 s2 _ => (height_expr e <= n)%nat ∧ (height_stmt s1 <= n)%nat ∧ (height_stmt s2 <= n)%nat
  | SSwitch e cases d _ =>
      (height_expr e <= n)%nat ∧ Forall (λ a, (height_expr a.1 <= n)%nat ∧ (height_stmt a.2 <= n)%nat) cases ∧ (height_stmt d <= n)%nat
  | SWhile e b _ | SDoWhile b e _ | SForIn _ _ e b _ => (height_expr e <= n)%nat ∧ (height_stmt b <= n)%nat
  | SFor i e1 e2 b _ =>
      match i with
      | InitExpr e => (height_expr e <= n)%nat
      | InitDecl ds => Forall (λ d, (height_expr d.2 <= n)%nat) ds
      end ∧ (height_expr e1 <= n)%nat ∧ (height_expr e2 <= n)%nat ∧ (height_stmt b <= n)%nat
  | SLabel _ b _ | SFunc _ _ b _ => (height_stmt b <= n)%nat
  | SCatch s1 _ s2 _ | SFinally s1 s2 _ => (height_stmt s1 <= n)%nat ∧ (height_stmt s2 <= n)%nat
  | SVarDecl ds _ => Forall (λ d, (height_expr d.2 <= n)%nat) ds
  end.
Lemma height_below_expr n e : (height_expr e <= S n)%nat → below_expr n e.
Proof.
  destruct e; cbn [height_expr below_expr]; intros H; try exact I; try lia; try (apply maxs_map_le; lia);
    repeat split; try lia; try (apply maxs_map_le; lia).
Qed.
Lemma height_below_lval n lv :
  (height_lval lv <= S n)%nat →
  match lv with LId _ => True | LDot e _ => (height_expr e <= n)%nat
    | LBracket e1 e2 => (height_expr e1 <= n)%nat ∧ (height_expr e2 <= n)%nat end.
Proof. destruct lv; cbn [height_lval]; intros H; [done|lia|split; lia]. Qed.
Lemma height_below_stmt n st : (height_stmt st <= S n)%nat → below_stmt n st.
Proof.
  destruct st; cbn [height_stmt below_stmt]; intros H; try exact I; try lia; try (apply maxs_map_le; lia).
  - split_and!; [lia| |lia].
    assert (maxs (map (λ c, Nat.max (height_expr c.1) (height_stmt c.2)) cases) <= n)%nat as Hc by lia.
    apply maxs_map_le in Hc. eapply Forall_impl; [exact Hc|]. cbn. lia.
  - split_and!; [|lia..]. destruct init as [e|ds]; cbn [height_init] in H; [lia|]. apply maxs_map_le. lia.
Qed.

Lemma Forall_mp2 {A} (P Q R : A → Prop) l : Forall P l → Forall Q l → (∀ x, P x → Q x → R x) → Forall R l.
Proof. intros HP HQ H. induction HP; inversion HQ; subst; constructor; auto. Qed.
Ltac forall_mp :=
  match goal with
  | H1 : Forall ?P ?l, H2 : Forall ?Q ?l |- Forall _ ?l =>
      apply (Forall_mp2 P Q _ l H1 H2); cbn; intros; destruct_and?
  end.
Lemma ok_le n :
  (∀ c c' k k' e, (height_expr e <= n)%nat → caps_le c c' → used_le c k k' → ok_expr c k e → ok_expr c' k' e) ∧
  (∀ c c' k k' lv, (height_lval lv <= n)%nat → caps_le c c' → used_le c k k' → ok_lval c k lv → ok_lval c' k' lv) ∧
  (∀ c c' k k' st, (height_stmt st <= n)%nat → caps_le c c' → funexprs c → scope_le c k k' → ok_stmt c k st → ok_stmt c' k' st).
Proof.
  induction n as [|n (IHe & IHl & IHs)];
    [split; [|split]; intros c c' k k' x H; exfalso; revert H; destruct x; cbn; lia|].
  assert (∀ c c' k k' l, Forall (λ e, (height_expr e <= n)%nat) l → caps_le c c' → used_le c k k' →
    Forall (λ e, ok_expr c k e) l → Forall (λ e, ok_expr c' k' e) l) as IHes.
  { intros c c' k k' l Hh Hc Hk Ho. forall_mp. eauto. }
  split_and!.
  - intros c c' k k' e Hh%height_below_expr Hc Hk. rewrite !ok_expr_unfold. intros [Hs Ho]. split; [by eapply shape_expr_le|].
    destruct e; cbn in *; try exact I; try (by eapply IHes); try (by eapply IHe); try (by eapply IHl);
      try (destruct_and?; split_and?; eauto; fail).
    + forall_mp. eauto.
    + eapply (IHs c c' (in_function k)); [..|exact Ho]; done || by apply in_function_le.
  - intros c c' k k' lv Hh%height_below_lval Hc Hk. destruct lv; cbn in *; rewrite ?andb_True; naive_solver.
  - intros c c' k k' st Hh Hc Hf Hk. rewrite !ok_stmt_unfold. intros [Hs Ho]. split; [by eapply shape_stmt_le|].
    apply (child_scope_le c st) in Hk. revert Hk Ho. generalize (child_scope st k), (child_scope st k').
    intros k1 k1' Hk Ho. apply height_below_stmt in Hh. pose proof (le_used _ _ _ Hk) as Hu. fold (used_le c k1 k1') in Hu.
    destruct st; cbn in *; try exact I; try (destruct_and?; split_and?; eauto; fail).
    + forall_mp. eauto.
    + destruct_and!. split_and!; eauto. forall_mp. split; eauto.
    + destruct_and!. split_and!; eauto. rewrite !ok_init_spec in *. pose proof (caps_le_no_functions _ _ Hc) as Hc'.
      destruct init as [e|ds]; [by eapply IHe|]. destruct_and!. split; [done|]. forall_mp. by eapply IHe.
    + forall_mp. eauto.
Qed.
Lemma ok_expr_le c c' k k' e : caps_le c c' → used_le c k k' → ok_expr c k e → ok_expr c' k' e.
Proof. by apply (ok_le (height_expr e)). Qed.
Lemma ok_stmt_le c c' k k' st :
  caps_le c c' → funexprs c → scope_le c k k' → ok_stmt c k st → ok_stmt c' k' st.
Proof. by apply (ok_le (height_stmt st)). Qed.
