(* ===== verification/JsPreserve.v ===== *)
(** What a visitor of JavaScript preserves: if it preserves the subset of
    JavaScript at each node, then so does a walk, which does not panic. *)
From S2P Require Import Prelude Types Operators JankySyntax JankyWalk JsSyntax JsWalk JsDesugar JsScope.
Import JS.

(** ** Locations *)
Fixpoint lens (loc : Loc) : list nat :=
  match loc with
  | [] => []
  | CBlock _ n :: loc => n :: lens loc
  | _ :: loc => lens loc
  end.
Definition in_bounds (ctx : Context) : Prop := match ctx with CBlock i n => (i <= n)%nat | _ => True end.
Definition not_block (ctx : Context) : Prop := match ctx with CBlock _ _ => False | _ => True end.
(** The open blocks [bs]: their lengths, and the labels of loops around each. *)
Record inside (loc : Loc) (bs : list (nat * list Id)) (k' : Scope) : Prop := {
  inside_lens : bs.*1 = lens loc;
  inside_bounds : Forall in_bounds loc;
  inside_block : ∃ i n, last loc = Some (CBlock i n);
  inside_used : Forall (λ b, b.2 ⊆ kused k') bs
}.
(** The program itself is not in a block. *)
Definition placed (loc : Loc) (bs : list (nat * list Id)) (k' : Scope) (st : Stmt) : Prop :=
  inside loc bs k' ∨ loc = [] ∧ bs = [] ∧ is_block st.

Lemma last_cons_some {A} (x : A) l y : last l = Some y → last (x :: l) = Some y.
Proof. by destruct l. Qed.
Lemma inside_cons ctx loc bs k k' : not_block ctx → kused k ⊆ kused k' → inside loc bs k → inside (ctx :: loc) bs k'.
Proof.
  intros Hctx Hk [Hl Hb (i & n & Hi) Hu]. split.
  - by destruct ctx.
  - constructor; [by destruct ctx|done].
  - exists i, n. by apply last_cons_some.
  - eapply Forall_impl; [exact Hu|]. set_solver.
Qed.
Lemma placed_inside loc bs k st : ¬ is_block st → placed loc bs k st → inside loc bs k.
Proof. intros Hb [?|(_ & _ & ?)]; [done|tauto]. Qed.
Lemma placed_block loc bs k k' st i n :
  (i <= n)%nat → kused k ⊆ kused k' → placed loc bs k st → inside (CBlock i n :: loc) ((n, kused k') :: bs) k'.
Proof.
  intros Hi Hk [[Hl Hb (i' & n' & Hl') Hu]|(-> & -> & _)]; split; cbn.
  - by rewrite Hl.
  - by constructor.
  - exists i', n'. by apply last_cons_some.
  - constructor; [done|]. eapply Forall_impl; [exact Hu|]. set_solver.
  - done.
  - by constructor.
  - eauto.
  - by constructor.
Qed.

Lemma inside_not_nil loc bs k : inside loc bs k → lens loc ≠ [].
Proof.
  intros [_ _ (i & n & Hl) _]. induction loc as [|ctx loc IH]; [done|].
  destruct ctx; cbn; try done; apply IH; by destruct loc.
Qed.
Lemma enclosing_block_inside loc bs k :
  inside loc bs k → ∃ i n u bs', bs = (n, u) :: bs' ∧ (i <= n)%nat ∧ u ⊆ kused k ∧ enclosing_block loc = Some (mkBlockContext 0 i n).
Proof.
  intros Hin. pose proof (inside_not_nil _ _ _ Hin) as Hn. destruct Hin as [Hl Hb _ Hu]. revert Hl Hn Hb.
  induction loc as [|ctx loc IH]; cbn; [done|]. intros Hl Hn [Hc Hb]%Forall_cons.
  destruct ctx as [i n| | | | | | | |]; cbn; eauto. destruct bs as [|[n' u] bs]; [done|]. cbn in Hl.
  injection Hl as -> Hl. exists i, n, u, bs. split_and!; try done. by apply Forall_cons in Hu as [? _].
Qed.
Lemma body_from_inside loc d :
  Forall in_bounds loc → (∃ i n, last loc = Some (CBlock i n)) →
  ∃ j i n, body_from d loc = Ok (mkBlockContext (d + j) i n) ∧ lens loc !! j = Some n ∧ (i <= n)%nat.
Proof.
  revert d. induction loc as [|ctx loc IH]; intros d Hb (i & n & Hl); [done|].
  apply Forall_cons in Hb as [Hc Hb]. destruct loc as [|ctx' loc].
  - cbn in Hl. injection Hl as ->. exists 0%nat, i, n. rewrite Nat.add_0_r. done.
  - assert (∃ i n, last (ctx' :: loc) = Some (CBlock i n)) as Hl' by eauto. specialize (λ d, IH d Hb Hl') as IH0; clear IH; rename IH0 into IH.
    destruct ctx as [i' n'| | | | | | | |]; try (exact (IH d)).
    destruct (IH (S d)) as (j & i2 & n2 & He & Hj & Hi2).
    assert (body_from d (CBlock i' n' :: ctx' :: loc) = body_from (S d) (ctx' :: loc) ∨
      body_from d (CBlock i' n' :: ctx' :: loc) = Ok (mkBlockContext d i' n')) as [->| ->] by (destruct ctx'; cbn; auto).
    + exists (S j), i2, n2. rewrite He. split_and!; [|done..]. do 2 f_equal. lia.
    + exists 0%nat, i', n'. rewrite Nat.add_0_r. done.
Qed.

(** ** Patches *)
Section patched.
Context {T : Type} (c' : Caps).
Definition patch_ok (b : nat * list Id) (p : nat * Stmt) : Prop :=
  (p.1 <= b.1)%nat ∧ ∀ k, kused k ⊆ b.2 → ok_stmt c' k p.2.
Definition patched (bs : list (nat * list Id)) (w : World T) : Prop :=
  Forall2 (λ b ps, Forall (patch_ok b) ps) bs (patches w).
(** A computation from a state related to [s]: it returns a result that satisfies [Q]. *)
Context (eqv : T → T → Prop).
Definition runs {A} (bs : list (nat * list Id)) (s : T) (Q : A → Prop) (r : comp never (World T * A)) : Prop :=
  ∃ w x, r = Ok (w, x) ∧ eqv s (vstate w) ∧ patched bs w ∧ Q x.

Lemma runs_ret {A} bs s (Q : A → Prop) w x : eqv s (vstate w) → patched bs w → Q x → runs bs s Q (Ok (w, x)).
Proof. by exists w, x. Qed.
Lemma runs_bind {A B} bs s (Q : A → Prop) (Q' : B → Prop) r (f : World T * A → comp never (World T * B)) :
  runs bs s Q r → (∀ w x, eqv s (vstate w) → patched bs w → Q x → runs bs s Q' (f (w, x))) → runs bs s Q' (r ≫= f).
Proof. intros (w & x & -> & Hs & Hw & Hx) Hf. by apply Hf. Qed.
Lemma runs_mono {A} bs s (Q Q' : A → Prop) r : runs bs s Q r → (∀ x, Q x → Q' x) → runs bs s Q' r.
Proof. intros (w & x & -> & Hs & Hw & Hx) HQ. exists w, x. auto. Qed.
Lemma runs_mapSM {A B} (P : A → Prop) (Q : A → B → Prop) (f : World T → A → comp never (World T * B)) bs s w l :
  (∀ w x, eqv s (vstate w) → patched bs w → P x → runs bs s (Q x) (f w x)) →
  eqv s (vstate w) → patched bs w → Forall P l → runs bs s (Forall2 Q l) (mapSM f w l).
Proof.
  intros Hf Hs Hw Hl. revert w Hs Hw. induction Hl as [|x l Hx _ IH]; intros w Hs Hw; cbn.
  - apply runs_ret; [done..|constructor].
  - eapply runs_bind; [by apply Hf|]. intros w1 y Hs1 Hw1 Hy. eapply runs_bind; [by apply IH|].
    intros w2 l' Hs2 Hw2 Hl'. apply runs_ret; [done..|by constructor].
Qed.
Lemma runs_walk_block (P : Stmt → Prop) (Q : Stmt → Stmt → Prop) f loc bs s w i n l :
  (∀ w st j, eqv s (vstate w) → patched bs w → P st → (j <= n)%nat → runs bs s (Q st) (f w st (CBlock j n :: loc))) →
  eqv s (vstate w) → patched bs w → Forall P l → (i + length l <= n)%nat →
  runs bs s (Forall2 Q l) (walk_block f loc i n w l).
Proof.
  intros Hf Hs Hw Hl. revert i w Hs Hw. induction Hl as [|st l Hx _ IH]; intros i w Hs Hw Hi; cbn.
  - apply runs_ret; [done..|constructor].
  - cbn in Hi. eapply runs_bind; [by apply Hf; [..|lia]|]. intros w1 y Hs1 Hw1 Hy.
    eapply runs_bind; [apply IH; [done..|lia]|].
    intros w2 l' Hs2 Hw2 Hl'. apply runs_ret; [done..|by constructor].
Qed.

(** Insertion of a statement that is allowed in every block around it. *)
Lemma insert_patched bs (w : World T) cxt i st n u :
  patched bs w → bs !! depth cxt = Some (n, u) → len cxt = n → (i <= n)%nat → (∀ k, kused k ⊆ u → ok_stmt c' k st) →
  ∃ w', insert cxt i st w = Ok w' ∧ vstate w' = vstate w ∧ patched bs w'.
Proof.
  intros Hw Hd <- Hi Hst. unfold insert. destruct (Nat.leb_spec i (len cxt)); [|lia]. cbn.
  eexists. split_and!; [done..|]. unfold patched in *. cbn. generalize dependent (depth cxt). intros d Hd.
  revert d Hd. induction Hw as [|b ps bs pss Hb Hw IH]; intros d Hd; [done|].
  destruct d as [|d]; cbn in *; [|constructor; [done|by apply IH]]. injection Hd as ->.
  constructor; [|done]. apply Forall_app. split; [done|]. by constructor.
Qed.
Lemma insert_here_inside loc bs k (w : World T) st cxt :
  inside loc bs k → patched bs w → enclosing_block loc = Some cxt → (∀ k1, kused k1 ⊆ kused k → ok_stmt c' k1 st) →
  ∃ w', insert_here cxt st w = Ok w' ∧ vstate w' = vstate w ∧ patched bs w'.
Proof.
  intros Hin Hw Hc Hst. destruct (enclosing_block_inside _ _ _ Hin) as (i & n & u & bs' & -> & Hi & Hu & He).
  rewrite He in Hc. injection Hc as <-. eapply insert_patched; [done|done|done|done|]. intros k1 Hk1. apply Hst. set_solver.
Qed.
Lemma body_inside loc bs k :
  inside loc bs k → ∃ cxt n u, body_of_enclosing_function_or_program loc = Ok cxt ∧
    bs !! depth cxt = Some (n, u) ∧ len cxt = n ∧ (index cxt <= n)%nat ∧ u ⊆ kused k.
Proof.
  intros [Hl Hb Hi Hu]. destruct (body_from_inside loc 0 Hb Hi) as (j & i & n & He & Hj & Hin).
  rewrite <- Hl, list_lookup_fmap in Hj. destruct (bs !! j) as [[n' u]|] eqn:Hbs; [|done]. injection Hj as ->.
  exists (mkBlockContext j i n), n, u. split_and!; [done..|]. by eapply (Forall_lookup_1 _ _ _ _ Hu) in Hbs.
Qed.
Lemma patched_nil bs (w : World T) n u :
  patched bs w → patched ((n, u) :: bs) (mkWorld (vstate w) ([] :: patches w)).
Proof. by constructor. Qed.
Lemma patched_inv bs (w : World T) n u :
  patched ((n, u) :: bs) w → ∃ ps, head (patches w) = Some ps ∧ Forall (patch_ok (n, u)) ps ∧
    patched bs (mkWorld (vstate w) (tail (patches w))).
Proof. unfold patched. destruct w as [s ps]. intros H. inversion H; subst. cbn. eauto. Qed.
End patched.

(** ** What a walk keeps of a node *)
Definition keep (strict : bool) (e e' : Expr) : Prop :=
  (is_id e → e' = e) ∧ (plain e → plain e') ∧ (good e → good e') ∧ (is_true e → is_true e') ∧
  (strict → is_id e' → e' = e).
Definition keep_stmt (c c' : Caps) (st st' : Stmt) : Prop :=
  (jumps c → is_loop st' → is_loop st) ∧ (jumps c' → is_loop st → is_loop st') ∧
  (is_block st → is_block st') ∧ (block_or_empty st → block_or_empty st').
Lemma keep_refl strict e : keep strict e e.
Proof. by repeat split. Qed.
Lemma keep_trans strict e1 e2 e3 : keep strict e1 e2 → keep strict e2 e3 → keep strict e1 e3.
Proof.
  intros (A1 & A2 & A3 & A4 & A5) (B1 & B2 & B3 & B4 & B5). split_and!; auto.
  - intros H. specialize (A1 H). subst. auto.
  - intros H1 H2. specialize (B5 H1 H2). subst. auto.
Qed.
Lemma keep_stmt_refl c c' st : keep_stmt c c' st st.
Proof. by repeat split. Qed.
Lemma keep_stmt_trans c c' st1 st2 st3 : keep_stmt c c' st1 st2 → keep_stmt c c' st2 st3 → keep_stmt c c' st1 st3.
Proof. intros (A1 & A2 & A3 & A4) (B1 & B2 & B3 & B4). split_and!; auto. Qed.

Ltac ex_inv :=
  repeat match goal with
  | H : ∃ _, _ |- _ => destruct H as [? H]
  | H : _ ∧ _ |- _ => destruct H
  | H : False |- _ => destruct H
  end; subst.

(** The node with its children walked. *)
Section rebuilt.
Context (strict : bool) (c c' : Caps).
Definition rebuilt_expr (e1 e2 : Expr) : Prop :=
  match e1 with
  | ELit _ _ | EThis | EId _ _ => e2 = e1
  | EArray _ s => ∃ es', e2 = EArray es' s
  | EObject _ s => ∃ kvs', e2 = EObject kvs' s
  | EDot e x s => ∃ e', e2 = EDot e' x s ∧ keep strict e e'
  | EBracket e i s => ∃ e' i', e2 = EBracket e' i' s ∧ keep strict e e'
  | ENew f es s => ∃ f' es', e2 = ENew f' es' s ∧ keep strict f f' ∧ length es' = length es
  | EUnary op _ s => ∃ e', e2 = EUnary op e' s
  | EBinary op _ _ s => ∃ e1' e2', e2 = EBinary op e1' e2' s
  | EUnaryAssign op _ s => ∃ lv', e2 = EUnaryAssign op lv' s
  | EIf _ _ _ s => ∃ e1' e2' e3', e2 = EIf e1' e2' e3' s
  | EAssign op _ _ s => ∃ lv' e', e2 = EAssign op lv' e' s
  | ECall f es s => ∃ f' es', e2 = ECall f' es' s ∧ keep strict f f' ∧ length es' = length es
  | EMethodCall _ _ _ _ => False
  | ELength _ s => ∃ e', e2 = ELength e' s
  | EFunc f ps _ s => ∃ b', e2 = EFunc f ps b' s
  | ESeq es s => ∃ es', e2 = ESeq es' s ∧ length es' = length es
  end.
Definition rebuilt_stmt (st1 st2 : Stmt) : Prop :=
  match st1 with
  | SEmpty | SBreak _ _ | SContinue _ _ => st2 = st1
  | SBlock _ s => ∃ ss', st2 = SBlock ss' s
  | SExpr _ s => ∃ e', st2 = SExpr e' s
  | SThrow _ s => ∃ e', st2 = SThrow e' s
  | SReturn _ s => ∃ e', st2 = SReturn e' s
  | SIf _ _ _ s => ∃ e' a' b', st2 = SIf e' a' b' s
  | SSwitch _ _ d s => ∃ e' cases' d', st2 = SSwitch e' cases' d' s ∧ keep_stmt c c' d d'
  | SWhile e _ s => ∃ e' b', st2 = SWhile e' b' s ∧ keep strict e e'
  | SDoWhile _ _ s => ∃ b' e', st2 = SDoWhile b' e' s
  | SFor i e _ _ s => ∃ e' a' b', st2 = SFor i e' a' b' s ∧ keep strict e e'
  | SForIn v x _ _ s => ∃ e' b', st2 = SForIn v x e' b' s
  | SLabel x b s => ∃ b', st2 = SLabel x b' s ∧ keep_stmt c c' b b'
  | SCatch _ x _ s => ∃ a' b', st2 = SCatch a' x b' s
  | SFinally _ _ s => ∃ a' b', st2 = SFinally a' b' s
  | SVarDecl ds s => ∃ ds', st2 = SVarDecl ds' s ∧ length ds' = length ds
  | SFunc f ps _ s => ∃ b', st2 = SFunc f ps b' s
  end.

Lemma is_id_spec e : is_id e → ∃ x s, e = EId x s.
Proof. destruct e; try done. eauto. Qed.
Lemma rebuilt_keep e1 e2 : rebuilt_expr e1 e2 → keep strict e1 e2.
Proof.
  destruct e1; cbn [rebuilt_expr]; intros H; ex_inv; try (by repeat split).
  all: match goal with H : keep _ _ _ |- _ => destruct H as (Hk & _) end; repeat split; cbn; try done;
    intros He; by rewrite Hk.
Qed.
Lemma std_args_rebuilt f f' es es' :
  strict → keep strict f f' → length es' = length es → std_ok f es → std_ok f' es'.
Proof.
  intros Hs (K1 & _ & _ & _ & K5) Hl. destruct (decide (is_id f)) as [Hf|Hf].
  - rewrite (K1 Hf). unfold std_ok, std_lib_args. destruct f; try done. destruct x; try done.
    rewrite Hl. repeat case_match; done.
  - intros _. destruct (decide (is_id f')) as [Hf'|Hf']; [specialize (K5 Hs Hf'); subst; tauto|].
    by destruct f'.
Qed.
Lemma shape_rebuilt_expr e1 e2 : loose c ∨ strict → rebuilt_expr e1 e2 → shape_expr c e1 → shape_expr c e2.
Proof.
  intros Hst. destruct e1; cbn [rebuilt_expr]; intros H; ex_inv; try done; cbn.
  - rewrite !andb_True, !orb_True. intros [Ht [Hl|Ho]]; (split; [done|]); [by left|].
    destruct Hst as [?|Hst]; [by left|]. right. by eapply std_args_rebuilt.
  - pose proof H0 as (_ & K2 & K3 & _ & _). rewrite !andb_True, !orb_True. intros [[Hp Hg] Ho].
    split_and!; [auto|destruct Hg; auto|].
    destruct Hst as [?|Hst]; [by left|]. destruct Ho as [?|Ho]; [by left|]. right. by eapply std_args_rebuilt.
  - rewrite !andb_True, !negb_True, !bool_decide_spec. intros [? Hn]. split; [done|]. by destruct es, x.
Qed.
Lemma shape_rebuilt_stmt st1 st2 k : rebuilt_stmt st1 st2 → shape_stmt c k st1 → shape_stmt c k st2.
Proof.
  destruct st1; cbn [rebuilt_stmt]; intros H; ex_inv; try done; cbn;
    try match goal with
    | H : keep _ _ _ |- _ => destruct H as (_ & _ & _ & Hk & _)
    | H : keep_stmt _ _ _ _ |- _ => destruct H as (Hk & _ & _ & Hk')
    end; rewrite ?andb_True, ?orb_True, ?negb_True; try (intuition auto; fail).
  - destruct (decide (jumps c)), (decide (is_loop x0)); intuition auto.
  - by destruct ds as [|? [|]], x as [|? [|]].
Qed.
End rebuilt.

(** ** Walks *)
Section walk_ok.
Context {T : Type} (v : Visitor T) (strict : bool) (c c' : Caps).
Context (R : T → Loc → Scope → Scope → Prop) (eqv : T → T → Prop).
Notation runs := (runs c' eqv).
Notation patched := (patched c').

(** The locations of the children of a statement. *)
Definition child_ctx (st : Stmt) (ctx : Context) : Prop :=
  match st with
  | SBlock _ _ => ∃ i n, ctx = CBlock i n
  | SVarDecl _ _ => ctx = CVarDeclRhs
  | SWhile _ _ _ | SDoWhile _ _ _ | SFor _ _ _ _ _ | SForIn _ _ _ _ _ => ctx = CLoop
  | SSwitch _ _ _ _ => ctx = CSwitch
  | SFunc _ _ _ _ => ctx = CFunctionBody
  | _ => ctx = CStmt
  end.
Definition neutral (ctx : Context) : Prop :=
  match ctx with CAssignRhs _ | CExpr | CLValue => True | _ => False end.
Definition entered (st : Stmt) (bs : list (nat * list Id)) (loc : Loc) (k' : Scope) (s s1 : T) (st1 : Stmt) (k1 k1' : Scope) : Prop :=
  (height_stmt st1 <= height_stmt st)%nat ∧ (is_block st → is_block st1) ∧ sub_stmt c k1 st1 ∧ kused k' ⊆ kused k1' ∧
  (∀ ctx, child_ctx st1 ctx → R s1 (ctx :: loc) k1 k1') ∧
  match st1 with SFor i _ _ _ _ => ok_init c' k1' i | _ => True end ∧
  ∀ w2 st2, eqv s1 (vstate w2) → patched bs w2 → rebuilt_stmt strict c c' st1 st2 → sub_stmt c' k1' st2 →
    runs bs s (λ st3, ok_stmt c' k' st3 ∧ keep_stmt c c' st st3) (exit_stmt v w2 st2 loc).
(** What is to be shown of a pass. *)
Record Pass : Prop := {
  pass_methods : ¬ methods c;
  pass_loose : loose c ∨ strict;
  pass_refl s : eqv s s;
  pass_trans s1 s2 s3 : eqv s1 s2 → eqv s2 s3 → eqv s1 s3;
  pass_eqv s s' loc k k' : eqv s s' → R s loc k k' → R s' loc k k';
  pass_neutral s ctx loc k k' : neutral ctx → R s loc k k' → R s (ctx :: loc) k k';
  pass_function s loc k k' : R s loc k k' → R s (CFunctionBody :: loc) (in_function k) (in_function k');
  pass_expr w e loc bs k k' :
    R (vstate w) loc k k' → inside loc bs k' → patched bs w → shape_expr c e → sub_expr c' k' e →
    runs bs (vstate w) (λ e', ok_expr c' k' e' ∧ keep strict e e') (exit_expr v w e loc);
  pass_stmt s st loc bs k k' :
    R s loc k k' → placed loc bs k' st → shape_stmt c k st → sub_stmt c (child_scope st k) st →
    ∃ s1 st1 k1 k1', enter_stmt v s st loc = Ok (s1, st1) ∧ entered st bs loc k' s s1 st1 k1 k1'
}.

Hypothesis HP : Pass.
Lemma runs_trans {A} bs s s' (Q : A → Prop) r : eqv s s' → runs bs s' Q r → runs bs s Q r.
Proof. intros He (w & x & -> & Hs & Hw & Hx). exists w, x. split_and!; try done. by eapply (pass_trans HP). Qed.
#[local] Arguments apply_patches : simpl never.
(** A walk of the nodes that are at most [n] high. *)
Section children.
Context (n : nat).
Context (ws : World T → Stmt → Loc → comp never (World T * Stmt)).
Context (we : World T → Expr → Loc → comp never (World T * Expr)).
Context (wl : World T → LValue → Loc → comp never (World T * LValue)).
Definition stmt_runs : Prop := ∀ s w st loc bs k k',
  (height_stmt st <= n)%nat → eqv s (vstate w) → R s loc k k' → placed loc bs k' st → patched bs w → ok_stmt c k st →
  runs bs s (λ st', ok_stmt c' k' st' ∧ keep_stmt c c' st st') (ws w st loc).
Definition expr_runs : Prop := ∀ s w e loc bs k k',
  (height_expr e <= n)%nat → eqv s (vstate w) → R s loc k k' → inside loc bs k' → patched bs w → ok_expr c k e →
  runs bs s (λ e', ok_expr c' k' e' ∧ keep strict e e') (we w e loc).
Definition lval_runs : Prop := ∀ s w lv loc bs k k',
  (height_lval lv <= n)%nat → eqv s (vstate w) → R s loc k k' → inside loc bs k' → patched bs w → ok_lval c k lv →
  runs bs s (λ lv', ok_lval c' k' lv') (wl w lv loc).
Context (IHs : stmt_runs) (IHe : expr_runs) (IHl : lval_runs).

Ltac side := first [eassumption | match goal with H : ∀ ctx, neutral ctx → _ |- _ => apply H; exact I | H : _ |- _ => by apply H end].
Tactic Notation "step" tactic3(tac) :=
  eapply runs_bind; [tac; side|]; intros ?w ?x ?Hs ?Hw ?Hx; cbv beta iota in *; ex_inv.
Lemma lval_children_runs s w lv loc bs k k' :
  (height_lval lv <= S n)%nat → eqv s (vstate w) → R s loc k k' → inside loc bs k' → patched bs w → ok_lval c k lv →
  runs bs s (λ lv', ok_lval c' k' lv') (lval_children we w lv loc).
Proof.
  intros Hh Hs HR Hin Hw Hok. apply height_below_lval in Hh.
  assert (R s (CLValue :: loc) k k') as HR' by by apply (pass_neutral HP).
  assert (inside (CLValue :: loc) bs k') as Hin' by by eapply inside_cons.
  destruct lv as [x|e x|e1 e2]; cbn [ok_lval lval_children] in *.
  - by apply runs_ret.
  - apply andb_True in Hok as [Hx He]. step (eapply IHe). apply runs_ret; [done..|]. cbn. rewrite andb_True. naive_solver.
  - apply andb_True in Hok as [He1 He2]. destruct Hh. step (eapply IHe). step (eapply IHe).
    apply runs_ret; [done..|]. cbn. rewrite andb_True. naive_solver.
Qed.
Lemma list_runs {A B} (f : A → Expr) (g : A → Expr → B) (h : B → Expr) s w loc bs k k' (l : list A) :
  (∀ a e, h (g a e) = e) →
  Forall (λ a, (height_expr (f a) <= n)%nat) l → Forall (λ a, ok_expr c k (f a)) l →
  eqv s (vstate w) → R s loc k k' → inside loc bs k' → patched bs w →
  runs bs s (λ l', Forall (λ b, ok_expr c' k' (h b)) l' ∧ length l' = length l)
    (mapSM (λ w a, '(w, e) ← we w (f a) loc; Ok (w, g a e)) w l).
Proof.
  intros Hg Hh Ho Hs HR Hin Hw. eapply runs_mono.
  - apply (runs_mapSM c' eqv (λ a, (height_expr (f a) <= n)%nat ∧ ok_expr c k (f a)) (λ _ b, ok_expr c' k' (h b)));
      [|done..|by forall_mp].
    intros w1 a Hs1 Hw1 [Ha Hb]. step (eapply IHe). apply runs_ret; [done..|]. rewrite Hg. naive_solver.
  - cbn. intros l' Hl'. split; [|symmetry; by eapply Forall2_length]. eapply Forall2_Forall_r; [exact Hl'|]. by apply Forall_true.
Qed.
Lemma exprs_runs s w loc bs k k' (l : list Expr) :
  Forall (λ e, (height_expr e <= n)%nat) l → Forall (λ e, ok_expr c k e) l →
  eqv s (vstate w) → R s loc k k' → inside loc bs k' → patched bs w →
  runs bs s (λ l', Forall (λ e, ok_expr c' k' e) l' ∧ length l' = length l) (mapSM (λ w e, we w e loc) w l).
Proof.
  intros Hh Ho Hs HR Hin Hw. eapply runs_mono.
  - apply (runs_mapSM c' eqv (λ e, (height_expr e <= n)%nat ∧ ok_expr c k e) (λ _ e', ok_expr c' k' e')); [|done..|by forall_mp].
    intros w1 a Hs1 Hw1 [Ha Hb]. eapply runs_mono; [by eapply IHe|]. by intros ? [? ?].
  - cbn. intros l' Hl'. split; [|symmetry; by eapply Forall2_length]. eapply Forall2_Forall_r; [exact Hl'|]. by apply Forall_true.
Qed.
Lemma expr_children_runs s w e loc bs k k' :
  (height_expr e <= S n)%nat → eqv s (vstate w) → R s loc k k' → inside loc bs k' → patched bs w → ok_expr c k e →
  runs bs s (λ e2, rebuilt_expr strict e e2 ∧ sub_expr c' k' e2) (expr_children ws we wl w e loc).
Proof.
  intros Hh Hs HR Hin Hw [Hsh Hsub]%ok_expr_unfold. apply height_below_expr in Hh.
  assert (∀ ctx, neutral ctx → R s (ctx :: loc) k k') as HR' by (intros; by apply (pass_neutral HP)).
  assert (∀ ctx, neutral ctx → inside (ctx :: loc) bs k') as Hin' by (intros [] ?; by eapply inside_cons).
  destruct e; cbn [below_expr sub_expr rebuilt_expr expr_children] in *; ex_inv.
  all: try (by apply runs_ret).
  all: repeat step (first [eapply IHe | eapply IHl | eapply exprs_runs]).
  all: try (apply runs_ret; [done..|split; [eauto 8|cbn; tauto]]; fail).
  - step (eapply (list_runs snd (λ kv e, (kv.1, e)) snd); [done|..]). apply runs_ret; eauto.
  - by destruct (pass_methods HP).
  - assert (placed (CFunctionBody :: loc) bs (in_function k') body) as Hb by (left; by apply (inside_cons _ _ _ k')).
    apply (pass_function HP) in HR. step (eapply IHs). apply runs_ret; eauto.
Qed.

Lemma block_children_runs s w ss p loc bs k' k1 k1' :
  Forall (λ st, (height_stmt st <= n)%nat) ss → eqv s (vstate w) →
  (∀ i m, R s (CBlock i m :: loc) k1 k1') → placed loc bs k' (SBlock ss p) → kused k' ⊆ kused k1' → patched bs w →
  Forall (λ st, ok_stmt c k1 st) ss →
  runs bs s (λ st2, ∃ ss', st2 = SBlock ss' p ∧ Forall (λ st, ok_stmt c' k1' st) ss') (stmt_children ws we w (SBlock ss p) loc).
Proof.
  intros Hh Hs HR Hin Hk Hw Ho. cbn [stmt_children]. set (bs' := (length ss, kused k1') :: bs).
  assert (runs bs' s (Forall2 (λ _ st, ok_stmt c' k1' st) ss)
    (walk_block ws loc 0 (length ss) (mkWorld (vstate w) ([] :: patches w)) ss)) as (w1 & ss1 & -> & Hs1 & Hw1 & Hss).
  { apply (runs_walk_block c' eqv (λ st, (height_stmt st <= n)%nat ∧ ok_stmt c k1 st)); [|done|by apply patched_nil|by forall_mp|done].
    intros w1 st j Hs1 Hw1 [Hh1 Ho1] Hj. eapply runs_mono; [eapply (IHs s w1 st _ bs' k1 k1'); try done|by intros ? [? ?]].
    left. by eapply placed_block. }
  apply patched_inv in Hw1 as (ps & Hps & Hok & Hw1). cbn. rewrite Hps. cbn.
  rewrite apply_patches_weave; cbn.
  - apply runs_ret; [done..|]. eexists. split; [done|]. apply weave_forall.
    + eapply Forall_impl; [exact Hok|]. intros q [_ Hq]. by apply Hq.
    + eapply Forall2_Forall_r; [exact Hss|]. by apply Forall_true.
  - eapply Forall_impl; [exact Hok|]. intros q [Hq _]. cbn in Hq. apply Forall2_length in Hss. lia.
Qed.
Lemma stmt_children_runs s w st loc bs k' k1 k1' :
  (height_stmt st <= S n)%nat → eqv s (vstate w) →
  (∀ ctx, child_ctx st ctx → R s (ctx :: loc) k1 k1') → placed loc bs k' st → kused k' ⊆ kused k1' → patched bs w →
  sub_stmt c k1 st → match st with SFor i _ _ _ _ => ok_init c' k1' i | _ => True end →
  runs bs s (λ st2, rebuilt_stmt strict c c' st st2 ∧ sub_stmt c' k1' st2) (stmt_children ws we w st loc).
Proof.
  intros Hh Hs HR Hin Hk Hw Hsub Hi. apply height_below_stmt in Hh.
  destruct (decide (is_block st)) as [Hb|Hb].
  { destruct st as [ss p| | | | | | | | | | | | | | | | |]; try done. eapply runs_mono; [eapply block_children_runs; try done|].
    - intros. apply HR. cbn. eauto.
    - intros st2 (ss' & -> & ?). split; [by eexists|done]. }
  apply placed_inside in Hin; [|done].
  assert (∀ ctx, child_ctx st ctx → inside (ctx :: loc) bs k1') as Hin'.
  { intros ctx Hc. apply (inside_cons _ _ _ k'); [|done..]. destruct st; cbn in Hc; by subst. }
  assert (∀ ctx a, child_ctx st ctx → placed (ctx :: loc) bs k1' a) as Hp by (intros; left; auto). clear Hin Hk.
  destruct st; cbn [below_stmt sub_stmt rebuilt_stmt stmt_children child_ctx] in *; ex_inv.
  all: try (by apply runs_ret).
  all: repeat step (first [eapply IHe | eapply IHs]).
  all: try (apply runs_ret; [done..|split; [eauto 8|cbn; tauto]]; fail).
  - by destruct Hb.
  - eapply (runs_bind _ _ _ _ (Forall (λ a, ok_expr c' k1' a.1 ∧ ok_stmt c' k1' a.2))).
    + eapply (runs_mono _ _ _ _ (Forall2 (λ _ a, ok_expr c' k1' a.1 ∧ ok_stmt c' k1' a.2) cases));
        [|intros l' Hl'; eapply Forall2_Forall_r; [exact Hl'|by apply Forall_true]].
      apply (runs_mapSM c' eqv (λ a, ((height_expr a.1 <= n)%nat ∧ (height_stmt a.2 <= n)%nat) ∧ ok_expr c k1 a.1 ∧ ok_stmt c k1 a.2)
        (λ _ a, ok_expr c' k1' a.1 ∧ ok_stmt c' k1' a.2)); [|done..|by forall_mp].
      intros w1 a Hs1 Hw1 Ha. ex_inv. step (eapply IHe). step (eapply IHs). by apply runs_ret.
    + intros w1 cases' Hs1 Hw1 Hc. cbv beta iota. step (eapply IHs).
      apply runs_ret; [done..|]. split; [do 3 eexists; by split|done].
  - step (eapply (list_runs snd (λ d e, (d.1, e)) snd); [done|..]). apply runs_ret; eauto.
Qed.
End children.

Lemma walk_runs n : stmt_runs n (walk_stmt v n) ∧ expr_runs n (walk_expr v n) ∧ lval_runs n (walk_lval v n).
Proof.
  induction n as [|n (IHs & IHe & IHl)].
  { split_and!; intros s w x loc bs k k' Hh; exfalso; revert Hh; destruct x; cbn; lia. }
  split_and!.
  - intros s w st loc bs k k' Hh Hs HR Hin Hw Hok. apply ok_stmt_unfold in Hok as [Hsh Hsub].
    apply (pass_eqv HP) with (s' := vstate w) in HR; [|done].
    destruct (pass_stmt HP (vstate w) st loc bs k k') as (s1 & st1 & k1 & k1' & He & Hh1 & Hb1 & Hsub1 & Hk1 & HR1 & Hi & Hexit); [done..|].
    rewrite walk_stmt_S, He. cbn [mbind comp_bind]. cbv beta iota. eapply runs_trans; [exact Hs|].
    assert (placed loc bs k' st1) as Hin1 by (destruct Hin as [?|(? & ? & ?)]; [by left|by right; auto]).
    destruct (stmt_children_runs n _ _ IHs IHe s1 (set_vstate s1 w) st1 loc bs k' k1 k1')
      as (w2 & st2 & -> & Hs2 & Hw2 & Hr & Hsub2); try done; [lia|by apply (pass_refl HP)|].
    by apply Hexit.
  - intros s w e loc bs k k' Hh Hs HR Hin Hw Hok. rewrite walk_expr_S.
    eapply runs_bind; [by eapply expr_children_runs|]. intros w2 e2 Hs2 Hw2 [Hr Hsub2]. cbv beta iota.
    eapply runs_mono; [eapply runs_trans; [exact Hs2|]; eapply (pass_expr HP); try done|].
    + by eapply (pass_eqv HP).
    + eapply shape_rebuilt_expr; [by apply (pass_loose HP)|done|]. by apply ok_expr_unfold in Hok as [? _].
    + intros e3 [? Hk]. split; [done|]. eapply keep_trans; [|exact Hk]. by apply rebuilt_keep.
  - intros s w lv loc bs k k' Hh Hs HR Hin Hw Hok. rewrite walk_lval_S. by eapply lval_children_runs.
Qed.
End walk_ok.

(** A pass over a program. *)
Definition program_ok (c : Caps) (program : Stmt) : Prop := is_block program ∧ ok_stmt c in_program program.
Lemma walk_program {T} (v : Visitor T) strict c c' R eqv s program :
  Pass v strict c c' R eqv → R s [] in_program in_program → program_ok c program →
  ∃ s' program', walk v s program = Ok (s', program') ∧ eqv s s' ∧ program_ok c' program'.
Proof.
  intros HP HR [Hb Hok].
  destruct (walk_runs v strict c c' R eqv HP (height_stmt program)) as (H & _ & _).
  destruct (H s (mkWorld s []) program [] [] in_program in_program) as (w' & p' & Hw & Hs & _ & Hok' & (_ & _ & Hb' & _));
    [done|by apply (pass_refl _ _ _ _ _ _ HP)|done|by right|by constructor|done|].
  exists (vstate w'), p'. unfold walk. rewrite Hw. cbn. split_and!; [done..|]. split; auto.
Qed.
