(* ===== verification/JsDesugarOk.v ===== *)
(** Desugaring does not panic: each pass takes one subset of JavaScript to the
    next, and the last subset is converted to JankyScript. *)
From S2P Require Import Prelude Types Operators JankySyntax JankyWalk JsSyntax JsWalk JsDesugar JsScope JsPreserve.
Import JS.

(** ** The subsets between the passes *)
Definition source_caps : Caps :=
  mkCaps true true true true true true true true true true false false true.
Definition without_functions : Caps :=
  mkCaps false true true true true true true true true true false false true.
Definition after_std_lib : Caps :=
  mkCaps false true true true true true true true true true false true true.
Definition without_switches : Caps :=
  mkCaps false false true true true true true true true true false true true.
Definition without_conditions : Caps :=
  mkCaps false false false true true true true true true true false true true.
Definition without_jumps : Caps :=
  mkCaps false false false true false true true true true true false true true.
Definition without_fors : Caps :=
  mkCaps false false false false false true true true true true false true true.
Definition without_multiple : Caps :=
  mkCaps false false false false false false true true true true false true true.
Definition without_forvars : Caps :=
  mkCaps false false false false false false false true true true false true true.
Definition without_this : Caps :=
  mkCaps false false false false false false false false true true false true true.
Definition without_logicals : Caps :=
  mkCaps false false false false false false false false false true false true true.
Definition without_updates : Caps :=
  mkCaps false false false false false false false false false false false true true.
Definition with_methods : Caps :=
  mkCaps false false false false false false false false false false true true true.

(** ** Passes that enter statements without changing them *)
Definition any_state {T} (_ _ : T) : Prop := True.
Definition same_scope {T} (_ : T) (_ : Loc) (k k' : Scope) : Prop := k = k'.
Lemma child_used st k : kused k ⊆ kused (child_scope st k).
Proof. destruct st; cbn; try done. case_match; cbn; set_solver. Qed.
Lemma rebuilt_keep_stmt strict c c' st st2 : rebuilt_stmt strict c c' st st2 → keep_stmt c c' st st2.
Proof. destruct st; cbn [rebuilt_stmt]; intros; ex_inv; by repeat split. Qed.
Lemma scope_le_nojumps c k k' : ¬ jumps c → klabels k ⊆ klabels k' → scope_le c k k'.
Proof. by split. Qed.
Lemma caps_le_refl c : caps_le c c.
Proof. split; tauto. Qed.
Lemma ok_stmt_scope c k k' st : funexprs c → scope_le c k k' → ok_stmt c k st → ok_stmt c k' st.
Proof. intros. by eapply ok_stmt_le; [apply caps_le_refl|..]. Qed.
Lemma ok_expr_scope c k k' e : used_le c k k' → ok_expr c k e → ok_expr c k' e.
Proof. intros. by eapply ok_expr_le; [apply caps_le_refl|..]. Qed.
Lemma child_rebuilt strict c c' st st2 k :
  funexprs c' → (jumps c' → jumps c) → rebuilt_stmt strict c c' st st2 →
  sub_stmt c' (child_scope st k) st2 → sub_stmt c' (child_scope st2 k) st2.
Proof.
  intros Hf Hj. destruct st; cbn [rebuilt_stmt]; intros; ex_inv; try done. cbn in *.
  match goal with H : keep_stmt _ _ _ _ |- _ => destruct H as (K1 & K2 & _) end.
  destruct (decide (jumps c')) as [Hj'|Hj'].
  - destruct (is_loop st), (is_loop x0); try done; [by destruct (K2 Hj' I)|by destruct (K1 (Hj Hj') I)].
  - eapply ok_stmt_scope; [done| |done]. apply scope_le_nojumps; [done|]. by repeat case_match.
Qed.

(** A statement that is entered as it is. *)
Lemma entered_same {T} (v : Visitor T) (strict : bool) c c' s st loc bs k :
  funexprs c' → (jumps c' → jumps c) → placed loc bs k st → shape_stmt c k st → sub_stmt c (child_scope st k) st →
  match st with SFor i _ _ _ _ => ok_init c (child_scope st k) i → ok_init c' (child_scope st k) i | _ => True end →
  (∀ (w : World T) st2, rebuilt_stmt strict c c' st st2 → placed loc bs k st2 → patched c' bs w → shape_stmt c k st2 → sub_stmt c' (child_scope st2 k) st2 →
    runs c' any_state bs (vstate w) (λ st', ok_stmt c' k st' ∧ keep_stmt c c' st2 st') (exit_stmt v w st2 loc)) →
  entered v strict c c' same_scope any_state st bs loc k s s st (child_scope st k) (child_scope st k).
Proof.
  intros Hf Hj Hin Hsh Hsub Hi Hst. split_and!; try done; [apply child_used| |].
  - destruct st; try done. by apply Hi, Hsub.
  - intros w2 st2 _ Hw Hr Hsub2. pose proof (rebuilt_keep_stmt _ _ _ _ _ Hr) as Hk.
    destruct (Hst w2 st2) as (w3 & st3 & -> & _ & Hw3 & Hok & Hk3); [done| |done| |by eapply child_rebuilt|].
    + destruct Hin as [?|(? & ? & ?)]; [by left|right]. split_and!; try done. by apply Hk.
    + by eapply shape_rebuilt_stmt.
    + exists w3, st3. split_and!; try done. by eapply keep_stmt_trans.
Qed.
Lemma simple_pass {T} (v : Visitor T) (strict : bool) c c' :
  (∀ s st loc, enter_stmt v s st loc = Ok (s, st)) → ¬ methods c → loose c ∨ strict → funexprs c' → (jumps c' → jumps c) →
  (∀ k i, fors c → ok_init c k i → ok_init c' k i) →
  (∀ (w : World T) e loc bs k, inside loc bs k → patched c' bs w → shape_expr c e → sub_expr c' k e →
    runs c' any_state bs (vstate w) (λ e', ok_expr c' k e' ∧ keep strict e e') (exit_expr v w e loc)) →
  (∀ (w : World T) st loc bs k, placed loc bs k st → patched c' bs w → shape_stmt c k st → sub_stmt c' (child_scope st k) st →
    runs c' any_state bs (vstate w) (λ st', ok_stmt c' k st' ∧ keep_stmt c c' st st') (exit_stmt v w st loc)) →
  Pass v strict c c' same_scope any_state.
Proof.
  intros Henter Hm Hl Hf Hj Hi He Hst. split; try done.
  - intros s loc k k'. unfold same_scope. by intros <-.
  - intros w e loc bs k k' Hk. unfold same_scope in Hk. subst k'. apply He.
  - intros s st loc bs k k' Hk Hin Hsh Hsub. unfold same_scope in Hk. subst k'.
    exists s, st, (child_scope st k), (child_scope st k). split; [apply Henter|]. apply entered_same; try done; [|intros w st2 _; apply Hst].
    destruct st; try done. cbn in *. apply andb_True in Hsh as [? _]. by apply Hi.
Qed.
(** A visitor that leaves statements as they are. *)
Lemma runs_same_stmt {T} c c' (eqv : T → T → Prop) bs (w : World T) st k s :
  (shape_stmt c k st → shape_stmt c' k st) → eqv s (vstate w) → patched c' bs w → shape_stmt c k st →
  sub_stmt c' (child_scope st k) st →
  runs c' eqv bs s (λ st', ok_stmt c' k st' ∧ keep_stmt c c' st st') (Ok (w, st)).
Proof. intros H Hs Hw Hsh Hsub. apply runs_ret; [done..|]. split; [apply ok_stmt_unfold; auto|apply keep_stmt_refl]. Qed.
Lemma runs_same_expr {T} strict c c' (eqv : T → T → Prop) bs (w : World T) e k s :
  (shape_expr c e → shape_expr c' e) → eqv s (vstate w) → patched c' bs w → shape_expr c e → sub_expr c' k e →
  runs c' eqv bs s (λ e', ok_expr c' k e' ∧ keep strict e e') (Ok (w, e)).
Proof. intros H Hs Hw Hsh Hsub. apply runs_ret; [done..|]. split; [apply ok_expr_unfold; auto|apply keep_refl]. Qed.
(** An insertion into the enclosing block. *)
Lemma runs_insert {T A} c' (cxt : BlockContext) st (w : World T) loc bs k s (Q : A → Prop) (f : World T → comp never (World T * A)) :
  inside loc bs k → patched c' bs w → enclosing_block loc = Some cxt → (∀ k1, kused k1 ⊆ kused k → ok_stmt c' k1 st) →
  (∀ w', patched c' bs w' → runs c' any_state bs s Q (f w')) →
  runs c' any_state bs s Q (insert_here cxt st w ≫= f).
Proof.
  intros Hin Hw Hc Hst Hf. destruct (insert_here_inside c' loc bs k w st cxt) as (w' & -> & _ & Hw'); [done..|]. by apply Hf.
Qed.
Lemma block_context_inside msg loc bs k : inside loc bs k → ∃ cxt, block_context msg loc = Ok cxt ∧ enclosing_block loc = Some cxt.
Proof. intros H. apply enclosing_block_inside in H as (i & n & u & bs' & -> & _ & _ & He). unfold block_context. rewrite He. eauto. Qed.
Lemma ok_init_caps c c' k k' i :
  caps_le (no_functions c) (no_functions c') → used_le c k k' → ok_init c k i → ok_init c' k' i.
Proof.
  intros Hc Hk. rewrite !ok_init_spec. assert (used_le (no_functions c) k k') by done.
  destruct i as [e|ds]; [by eapply ok_expr_le|].
  intros [? Hds]. split; [done|]. eapply Forall_impl; [exact Hds|]. intros d. by eapply ok_expr_le.
Qed.

(** ** Each pass *)
Ltac same_stmt := eapply runs_same_stmt; [|done|done|match goal with H : Is_true (shape_stmt _ _ _) |- _ => exact H end|done]; cbn; rewrite ?andb_True, ?orb_True; tauto.
Ltac same_expr := eapply runs_same_expr; [|done|done|match goal with H : Is_true (shape_expr _ _) |- _ => exact H end|done]; cbn; rewrite ?andb_True, ?orb_True; tauto.
Ltac init_caps := intros; eapply ok_init_caps; [| |eassumption]; [split; cbn; tauto|by intros _].
Ltac simple := apply simple_pass; [done|cbn; tauto|cbn; tauto|done|done|try init_caps| |].

Lemma function_statements_pass :
  Pass DesugarFunctionStmts true source_caps without_functions same_scope any_state.
Proof.
  simple; [intros w []; intros; same_expr|]. intros w st loc bs k Hin Hw Hsh Hsub.
  destruct st; cbn [exit_stmt DesugarFunctionStmts function_exit_stmt]; try same_stmt.
  apply placed_inside in Hin; [|tauto].
  destruct (body_inside loc bs k Hin) as (cxt & n & u & -> & Hd & Hl & Hi & Hu). cbn [mbind comp_bind].
  destruct (insert_patched without_functions bs w cxt 0 (SVarDecl [(f, EFunc None params st s)] s) n u)
    as (w' & -> & _ & Hp); [done|done|done|lia| |by apply runs_ret].
  intros k1 Hk1. cbn [ok_stmt ok_expr shape_stmt shape_expr forallb child_scope snd]. rewrite !andb_True. split_and!; try done.
  eapply ok_stmt_scope; [done| |done]. cbn. apply in_function_le. intros _. set_solver.
Qed.
Ltac stmts := intros w []; intros; same_stmt.
Ltac exprs := intros w []; intros; same_expr.

Lemma std_lib_args_ok c k f args s :
  std_ok f args → Forall (λ e, ok_expr c k e) args →
  ∃ args', std_lib_args f args s = Ok args' ∧ Forall (λ e, ok_expr c k e) args'.
Proof.
  intros Hok Ha. unfold std_ok, std_lib_args in *. destruct f; eauto. destruct x; eauto.
  repeat case_match; try done; eexists; (split; [done|]); try done; apply Forall_app; (split; [done|]); repeat constructor.
Qed.
Lemma std_lib_pass : Pass NormalizeStdLibCalls true without_functions after_std_lib same_scope any_state.
Proof.
  simple; [|stmts]. intros w [] loc bs k Hin Hw Hsh Hsub; cbn [exit_expr NormalizeStdLibCalls normalize_exit_expr]; try same_expr.
  all: destruct Hsub as [Hf Ha]; assert (std_ok f args) as Hstd by (cbn in Hsh; rewrite ?andb_True in Hsh; tauto).
  all: destruct (std_lib_args_ok after_std_lib k _ _ s Hstd Ha) as (args' & -> & Ha').
  all: apply runs_ret; [done..|]; rewrite ok_expr_unfold; (split; [split; [try done|by split]|by repeat split]).
  cbn in *. rewrite !andb_True in *. tauto.
Qed.

Lemma explicit_breaks_pass : Pass ExplicitBreaks false without_switches without_conditions same_scope any_state.
Proof.
  simple; [exprs|]. intros w st loc bs k Hin Hw Hsh Hsub.
  destruct st; cbn [exit_stmt ExplicitBreaks breaks_exit_stmt]; try same_stmt; cbn in Hsub; ex_inv.
  all: apply runs_ret; [done..|]; split; [|by repeat split].
  all: rewrite ok_stmt_unfold; split; [done|]; cbn; rewrite ?andb_True; eauto 10.
Qed.

Lemma ok_ensure_block c k st s : ok_stmt c k st → ok_stmt c k (ensure_block st s).
Proof. intros H. destruct st; cbn [ensure_block]; try done; rewrite ok_stmt_unfold; (split; [done|]); by constructor. Qed.
Lemma add_blocks_pass : Pass AddBlocks false without_fors without_fors same_scope any_state.
Proof.
  simple; [exprs|]. intros w st loc bs k Hin Hw Hsh Hsub.
  destruct st; cbn [exit_stmt AddBlocks blocks_exit_stmt]; try same_stmt; cbn in Hsub; ex_inv.
  all: apply runs_ret; [done..|]; split; [|by repeat split].
  all: rewrite ok_stmt_unfold; split; [done|]; cbn [sub_stmt child_scope]; split_and?; try apply ok_ensure_block; try done.
  eapply ok_stmt_scope; [done| |done]. apply scope_le_nojumps; [tauto|]. by repeat case_match.
Qed.

Lemma ok_vardecl c k k1 x e s : ok_expr c k e → used_le c k k1 → ok_stmt c k1 (vardecl1_ x e s).
Proof. intros He Hk. rewrite ok_stmt_unfold. split; [done|]. constructor; [|done]. by eapply ok_expr_scope. Qed.
Lemma ok_sexpr c k k1 e s : ok_expr c k e → used_le c k k1 → ok_stmt c k1 (SExpr e s).
Proof. intros He Hk. rewrite ok_stmt_unfold. split; [done|]. by eapply ok_expr_scope. Qed.
Lemma ok_assign c k lv e s : ok_lval c k lv → ok_expr c k e → ok_expr c k (assign_ lv e s).
Proof. intros. rewrite ok_expr_unfold. split; [cbn; by rewrite orb_True; right|done]. Qed.
Lemma used_nojumps c k k' : ¬ jumps c → used_le c k k'.
Proof. by intros ??. Qed.

Ltac vardecl := cbv beta in *; eapply ok_vardecl; [eassumption|apply used_nojumps; cbn; tauto].
Ltac sexpr := eapply ok_sexpr; [eassumption|apply used_nojumps; cbn; tauto].
Lemma runs_inserts {T A B} c' (cxt : BlockContext) (g : B → Stmt) l (w : World T) loc bs k s (Q : A → Prop) (f : World T → comp never (World T * A)) :
  inside loc bs k → patched c' bs w → enclosing_block loc = Some cxt →
  Forall (λ d, ∀ k1, kused k1 ⊆ kused k → ok_stmt c' k1 (g d)) l →
  (∀ w', patched c' bs w' → runs c' any_state bs s Q (f w')) →
  runs c' any_state bs s Q (foldM (λ w d, insert_here cxt (g d) w) w l ≫= f).
Proof.
  intros Hin Hw Hc Hl Hf. revert w Hw. induction Hl as [|d l Hd _ IH]; intros w Hw; cbn [foldM].
  - by apply Hf.
  - destruct (insert_here_inside c' loc bs k w (g d) cxt) as (w' & -> & _ & Hw'); [done..|]. cbn [mbind comp_bind]. by apply IH.
Qed.
Lemma Forall_removelast {A} (P : A → Prop) l x : last l = Some x → Forall P l → Forall P (removelast l) ∧ P x.
Proof.
  intros Hl HP. destruct l as [|y l _] using rev_ind; [done|]. rewrite last_snoc in Hl. injection Hl as ->.
  rewrite removelast_last. apply Forall_app in HP as [? HP]. by inversion HP.
Qed.
Lemma last_length {A} (l : list A) : (0 < length l)%nat → ∃ x, last l = Some x.
Proof. destruct l as [|y l _] using rev_ind; cbn; [lia|]. rewrite last_snoc. eauto. Qed.

Lemma separate_pass : Pass SeparateVarDecls false without_fors without_multiple same_scope any_state.
Proof.
  simple; [exprs|]. intros w st loc bs k Hin Hw Hsh Hsub.
  destruct st; cbn [exit_stmt SeparateVarDecls vardecls_exit_stmt]; try same_stmt.
  destruct (Nat.ltb_spec 1 (length ds)) as [Hlen|Hlen].
  - apply placed_inside in Hin; [|tauto]. destruct (block_context_inside "Block context expected" _ _ _ Hin) as (cxt & -> & Hc).
    destruct (last_length ds) as [d Hd]; [lia|]. rewrite Hd. cbn in Hsub. cbn [mbind comp_bind expect].
    destruct (Forall_removelast _ _ _ Hd Hsub) as [Hds Hd'].
    eapply runs_inserts; [done..| |].
    + eapply Forall_impl; [exact Hds|]. intros d' Hd1 k1 _. vardecl.
    + intros w' Hw'. apply runs_ret; [done..|]. split; [vardecl|done].
  - apply runs_ret; [done..|]. split; [|done]. rewrite ok_stmt_unfold. split; [|done].
    destruct ds as [|? [|]]; cbn in *; try done. lia.
Qed.
Lemma lift_pass : Pass LiftVars false without_multiple without_forvars same_scope any_state.
Proof.
  simple; [exprs|]. intros w st loc bs k Hin Hw Hsh Hsub.
  destruct st; cbn [exit_stmt LiftVars lift_exit_stmt]; try same_stmt; apply placed_inside in Hin; try (by destruct 1).
  - destruct is_var.
    + destruct (body_inside loc bs k Hin) as (cxt & n & u & -> & Hd & Hl & Hi & Hu). cbn [mbind comp_bind].
      destruct Hsub as [He Hb]. unfold insert_here.
      destruct (insert_patched without_forvars bs w cxt (index cxt) (vardecl1_ bind container s) n u)
        as (w' & -> & _ & Hp); [done..| |apply runs_ret; [done..|]].
      * intros k1 _. vardecl.
      * split; [|done]. rewrite ok_stmt_unfold. by repeat split.
    + same_stmt.
  - destruct ds as [|d [|d' ds]]; try done. cbn [sub_stmt] in Hsub. rewrite Forall_singleton in Hsub. cbn [last removelast expect mbind comp_bind].
    rewrite bool_decide_eq_true_2 by done. cbn [assert mbind comp_bind].
    destruct (body_inside loc bs k Hin) as (cxt & n & u & -> & Hd & Hl & Hi & Hu). cbn [mbind comp_bind].
    destruct (insert_patched without_forvars bs w cxt 0 (vardecl1_ d.1 UNDEFINED_ s) n u)
      as (w' & -> & _ & Hp); [done|done|done|lia|done|]. apply runs_ret; [done..|]. split; [|done].
    rewrite ok_stmt_unfold. split; [done|]. by apply ok_assign.
Qed.

(** ** Passes over expressions *)
Lemma fresh_patched c' bs name (w : World NameGen.t) x w' :
  fresh_in name w = (x, w') → patched c' bs w → patched c' bs w'.
Proof. unfold fresh_in. destruct (NameGen.fresh name (vstate w)). by intros [= <- <-]. Qed.
Lemma ok_id c k x s : ok_expr c k (id_ x s).
Proof. done. Qed.
Lemma ok_cons_args c k e es : ok_expr c k e → Forall (λ e, ok_expr c k e) es → Forall (λ e, ok_expr c k e) (e :: es).
Proof. by constructor. Qed.
(** An insertion of a declaration, for the passes after the one on loops. *)
Lemma runs_vardecl {T A} c' cxt x e p (w : World T) loc bs k s (Q : A → Prop) (f : World T → comp never (World T * A)) :
  inside loc bs k → patched c' bs w → enclosing_block loc = Some cxt → ¬ jumps c' → ok_expr c' k e →
  (∀ w', patched c' bs w' → runs c' any_state bs s Q (f w')) →
  runs c' any_state bs s Q (insert_here cxt (vardecl1_ x e p) w ≫= f).
Proof. intros Hin Hw Hc Hj He Hf. eapply runs_insert; [done..| |done]. intros k1 _. eapply ok_vardecl; [done|]. by apply used_nojumps. Qed.
Lemma runs_sexpr {T A} c' cxt e p (w : World T) loc bs k s (Q : A → Prop) (f : World T → comp never (World T * A)) :
  inside loc bs k → patched c' bs w → enclosing_block loc = Some cxt → ¬ jumps c' → ok_expr c' k e →
  (∀ w', patched c' bs w' → runs c' any_state bs s Q (f w')) →
  runs c' any_state bs s Q (insert_here cxt (SExpr e p) w ≫= f).
Proof. intros Hin Hw Hc Hj He Hf. eapply runs_insert; [done..| |done]. intros k1 _. eapply ok_sexpr; [done|]. by apply used_nojumps. Qed.

Ltac enclosing msg Hin cxt Hc :=
  let H := fresh in pose proof (block_context_inside msg _ _ _ Hin) as H; destruct H as (cxt & -> & Hc); cbn [mbind comp_bind].

Lemma comp_bind_assoc {E A B C} (m : comp E A) (f : A → comp E B) (g : B → comp E C) :
  ((m ≫= f) ≫= g) = (m ≫= λ x, f x ≫= g).
Proof. by destruct m. Qed.
Ltac name_fresh x w Hw :=
  match goal with
  | |- context [fresh_in ?n ?w0] =>
      let E := fresh in destruct (fresh_in n w0) as [x w] eqn:E;
      eapply fresh_patched in E; [rename E into Hw|eassumption]
  end; cbn [mbind comp_bind]; cbv beta iota.
Ltac insert_vardecl w Hw := eapply runs_vardecl; [eassumption|eassumption|eassumption|cbn; tauto| |intros w Hw].
Ltac ok_node := rewrite ?ok_expr_unfold; repeat split; cbn; rewrite ?andb_True, ?orb_True; try tauto; try done.

Lemma this_pass x : Pass (ThisParameter x) false without_forvars without_this same_scope any_state.
Proof.
  simple; [|stmts]. intros w e loc bs k Hin Hw Hsh Hsub. destruct e; cbn [exit_expr ThisParameter this_exit_expr]; try same_expr.
  - by apply runs_ret.
  - destruct Hsub as [Hf Ha]. enclosing "called unwrap on a None value"%string Hin cxt Hc. name_fresh y w1 Hw1.
    insert_vardecl w2 Hw2; [done|]. name_fresh z w3 Hw3. insert_vardecl w4 Hw4; [done|].
    eapply runs_sexpr; [done..|cbn; tauto| |intros w5 Hw5; by apply runs_ret].
    rewrite ok_expr_unfold. split; [done|]. split; [done|]. by constructor.
  - destruct Hsub as [Hf Ha]. destruct e; try (apply runs_ret; [done..|]; split; [|by repeat split]; rewrite ok_expr_unfold;
      split; [cbn in *; rewrite ?andb_True in *; tauto|split; [done|by constructor]]).
    all: cbn [mbind comp_bind]; enclosing "called unwrap on a None value"%string Hin cxt Hc; name_fresh y w1 Hw1.
    all: rewrite ok_expr_unfold in Hf; cbn [sub_expr] in Hf; destruct Hf as [Hx Hf].
    all: rewrite comp_bind_assoc; insert_vardecl w2 Hw2; [tauto|]; cbn [mbind comp_bind]; cbv beta iota.
    all: apply runs_ret; [done..|]; split; [|by repeat split]; rewrite ok_expr_unfold;
      (split; [done|split; [rewrite ok_expr_unfold; split; [exact Hx|cbn; tauto]|by constructor]]).
  - apply runs_ret; [done..|]. split; [|by repeat split]. by rewrite ok_expr_unfold.
Qed.

Lemma calls_pass : Pass NameFunctionCalls false without_this without_this same_scope any_state.
Proof.
  simple; [|stmts]. intros w [] loc bs k Hin Hw Hsh Hsub; cbn [exit_expr NameFunctionCalls calls_exit_expr]; try same_expr.
  assert (ok_expr without_this k (ECall f args s)) as Hok by by rewrite ok_expr_unfold.
  assert (runs without_this any_state bs (vstate w) (λ e', ok_expr without_this k e' ∧ keep false (ECall f args s) e')
    (cxt ← block_context "Block context expected" loc;
     let '(name, w) := fresh_in "f_call" w in
     w ← insert_here cxt (vardecl1_ name (ECall f args s) s) w; Ok (w, id_ name s))) as Hcall.
  { enclosing "Block context expected"%string Hin cxt Hc. name_fresh y w1 Hw1. insert_vardecl w2 Hw2; [done|]. by apply runs_ret. }
  destruct loc as [|[] loc]; try exact Hcall; [same_expr|]. destruct op; first [same_expr|exact Hcall].
Qed.

(** An insertion of a choice between two assignments. *)
Lemma runs_choice {T A} c' cxt x e e1 e2 p1 p2 p (w : World T) loc bs k s (Q : A → Prop) (f : World T → comp never (World T * A)) :
  inside loc bs k → patched c' bs w → enclosing_block loc = Some cxt → ¬ jumps c' → ok_expr c' k e → ok_expr c' k e1 → ok_expr c' k e2 →
  (∀ w', patched c' bs w' → runs c' any_state bs s Q (f w')) →
  runs c' any_state bs s Q
    (insert_here cxt (SIf e (SExpr (assign_ (LId x) e1 p1) p1) (SExpr (assign_ (LId x) e2 p2) p2) p) w ≫= f).
Proof.
  intros Hin Hw Hc Hj He He1 He2 Hf. eapply runs_insert; [done..| |done]. intros k1 _.
  rewrite ok_stmt_unfold. split; [done|]. split_and!; [|eapply (ok_sexpr _ k)..]; try by apply used_nojumps.
  - eapply ok_expr_scope; [|exact He]. by apply used_nojumps.
  - by apply ok_assign.
  - by apply ok_assign.
Qed.
Ltac insert_choice w Hw := eapply runs_choice; [eassumption|eassumption|eassumption|cbn; tauto|try done..|intros w Hw].
Lemma logical_pass : Pass DesugarLogical false without_this without_logicals same_scope any_state.
Proof.
  simple; [|stmts]. intros w e loc bs k Hin Hw Hsh Hsub.
  change (exit_expr DesugarLogical w e loc) with (logical_exit_expr w e loc). unfold logical_exit_expr.
  enclosing "expected block context"%string Hin cxt Hc. destruct e; try same_expr.
  - destruct op as [op|op]; [same_expr|]. destruct Hsub as [H1 H2]. name_fresh y w1 Hw1.
    destruct op; name_fresh z w2 Hw2; (insert_vardecl w3 Hw3; [done|]); (insert_vardecl w4 Hw4; [done|]);
      insert_choice w5 Hw5; by apply runs_ret.
  - destruct Hsub as (H1 & H2 & H3). name_fresh y w1 Hw1. insert_vardecl w2 Hw2; [done|].
    insert_choice w3 Hw3; by apply runs_ret.
  - cbn in Hsub. assert (0 < length es)%nat as Hl by (destruct es; cbn in *; [done|lia]).
    destruct (last_length es Hl) as [x Hx]. rewrite Hx. destruct (Forall_removelast _ _ _ Hx Hsub) as [Hes Hx'].
    cbn [mbind comp_bind expect]. eapply runs_inserts; [done..| |].
    + eapply Forall_impl; [exact Hes|]. intros e He k1 _. eapply ok_sexpr; [exact He|]. apply used_nojumps. tauto.
    + intros w1 Hw1. by apply runs_ret.
Qed.

Lemma lift_to_id_runs c cxt e s w loc bs k (Q : Expr → Prop) (f : World NameGen.t * Expr → comp never (World NameGen.t * Expr)) s0 :
  inside loc bs k → patched c bs w → enclosing_block loc = Some cxt → ¬ jumps c → ok_expr c k e →
  (∀ w' e', patched c bs w' → ok_expr c k e' → runs c any_state bs s0 Q (f (w', e'))) →
  runs c any_state bs s0 Q (lift_to_id cxt e s w ≫= f).
Proof.
  intros Hin Hw Hc Hj He Hf. unfold lift_to_id. destruct (is_essentially_atom e); [by apply Hf|].
  name_fresh y w1 Hw1. rewrite comp_bind_assoc. eapply runs_vardecl; [done..|]. intros w2 Hw2. by apply Hf.
Qed.
Lemma lval_to_expr_runs c lv s w loc bs k (Q : Expr → Prop) (f : World NameGen.t * LValue * Expr → comp never (World NameGen.t * Expr)) s0 :
  inside loc bs k → patched c bs w → ¬ jumps c → ok_lval c k lv →
  (∀ w' lv' e', patched c bs w' → ok_lval c k lv' → ok_expr c k e' → plain e' → runs c any_state bs s0 Q (f (w', lv', e'))) →
  runs c any_state bs s0 Q (lval_to_expr lv loc s w ≫= f).
Proof.
  intros Hin Hw Hj Hl Hf. destruct lv as [x|e x|e1 e2]; cbn [lval_to_expr].
  - by apply Hf.
  - cbn in Hl. apply andb_True in Hl as [Hx He]. enclosing "called unwrap on a None value"%string Hin cxt Hc.
    rewrite !comp_bind_assoc. eapply lift_to_id_runs; [done..|]. intros w' e' Hw' He'. cbn [mbind comp_bind].
    apply Hf; [done|cbn; by rewrite andb_True|rewrite ok_expr_unfold; by split|done].
  - cbn in Hl. apply andb_True in Hl as [He1 He2]. enclosing "called unwrap on a None value"%string Hin cxt Hc.
    rewrite !comp_bind_assoc. eapply lift_to_id_runs; [done..|]. intros w1 e1' Hw1 He1'. cbv beta iota.
    rewrite !comp_bind_assoc. eapply lift_to_id_runs; [done..|]. intros w2 e2' Hw2 He2'. cbn [mbind comp_bind].
    apply Hf; [done|cbn; by rewrite andb_True|rewrite ok_expr_unfold; by split|done].
Qed.
Lemma ok_binop c k op b e s : op = OBinary b → ok_expr c k e → ok_expr c k (EBinary op e (int_ 1 s) s).
Proof. intros -> He. rewrite ok_expr_unfold. by split. Qed.
Lemma updates_pass : Pass DesugarFancyUpdates false without_logicals without_updates same_scope any_state.
Proof.
  simple; [|stmts]. intros w [] loc bs k Hin Hw Hsh Hsub; cbn [exit_expr DesugarFancyUpdates updates_exit_expr]; try same_expr.
  - enclosing "called unwrap on a None value"%string Hin cxt Hc. cbn in Hsub. eapply lval_to_expr_runs; [done|done|cbn; tauto|done|].
    intros w1 lv' e' Hw1 Hlv He _. cbv beta iota. assert (∃ b, binop op = OBinary b) as [b Hb] by (destruct op; cbn; eauto).
    assert (∃ b, other_binop op = OBinary b) as [b' Hb'] by (destruct op; cbn; eauto).
    eapply runs_sexpr; [done..|cbn; tauto|apply ok_assign; [done|by eapply ok_binop]|].
    intros w2 Hw2. apply runs_ret; [done..|]. split; [|by repeat split]. destruct (is_prefix op); [done|by eapply ok_binop].
  - destruct Hsub as [Hlv He]. destruct (assign_binop op) as [op'|] eqn:Hop.
    + eapply lval_to_expr_runs; [done|done|cbn; tauto|done|]. intros w1 lv' e' Hw1 Hlv' He' _. cbv beta iota.
      apply runs_ret; [done..|]. split; [|by repeat split]. apply ok_assign; [done|]. rewrite ok_expr_unfold. by split.
    + apply runs_ret; [done..|]. split; [|by repeat split]. destruct op; try done. by apply ok_assign.
Qed.

Lemma bracket_pass : Pass BracketToDot false without_updates without_updates same_scope any_state.
Proof.
  simple; [|stmts]. intros w e loc bs k Hin Hw Hsh Hsub.
  change (exit_expr BracketToDot w e loc) with (bracket_exit_expr w e loc). unfold bracket_exit_expr. destruct e; try same_expr.
  - destruct e2; try same_expr. destruct l; try same_expr. destruct Hsub as [H1 H2]. apply runs_ret; [done..|].
    split; [rewrite ok_expr_unfold; by split|by repeat split].
  - destruct lv as [| |c i]; try same_expr. destruct i; try same_expr. destruct l; try same_expr.
    destruct Hsub as [H1 H2]. cbn in H1. apply andb_True in H1 as [H1 _]. apply runs_ret; [done..|].
    split; [rewrite ok_expr_unfold; split; [done|split; [done|done]]|by repeat split].
Qed.
Lemma resugar_pass : Pass ResugarMethodCall false without_updates with_methods same_scope any_state.
Proof.
  simple; [|stmts]. intros w [] loc bs k Hin Hw Hsh Hsub; cbn [exit_expr ResugarMethodCall resugar_exit_expr]; try same_expr.
  - destruct x as [field| |]; try same_expr. case_bool_decide; [|same_expr]. apply runs_ret; [done..|].
    split; [by rewrite ok_expr_unfold|by repeat split].
  - destruct f; try same_expr. cbn in Hsh. rewrite ?andb_True in Hsh. destruct Hsh as [Hg _].
    apply is_id_spec in Hg as (y & p & ->). destruct Hsub as [Hf Ha]. rewrite ok_expr_unfold in Hf. destruct Hf as [Hn _].
    destruct x as [field| |]; try done. apply runs_ret; [done..|]. split; [by rewrite ok_expr_unfold|by repeat split].
Qed.

Lemma ok_init_expr c k k' e : kused k' ⊆ kused k → ok_init c k (InitExpr e) → ok_expr c k' e.
Proof. intros Hk. rewrite ok_init_spec. apply ok_expr_le; [by split|by intros _]. Qed.
Lemma ok_init_decl c k k' ds s : kused k' ⊆ kused k → ok_init c k (InitDecl ds) → multiple c → ok_stmt c k' (SVarDecl ds s).
Proof.
  intros Hk. rewrite ok_init_spec. intros [Hd Hds] Hm. rewrite ok_stmt_unfold. split; [by destruct ds as [|? [|]]|].
  eapply Forall_impl; [exact Hds|]. cbn. intros d. apply ok_expr_le; [by split|by intros _].
Qed.
(** The [while] loop of a [for] loop. *)
Lemma for_as_while_ok k init e advance body p :
  shape_stmt without_jumps k (SFor init e advance body p) →
  sub_stmt without_jumps (enter_loop k) (SFor init e advance body p) →
  Forall (λ st, ok_stmt without_jumps k st)
    [match init with InitExpr e => SExpr e p | InitDecl ds => SVarDecl ds p end;
     SWhile e (SBlock [body; SExpr advance p] p) p].
Proof.
  intros Hsh (Hi & He & Ha & Hb). constructor; [|constructor; [|done]].
  - destruct init as [e1|ds]; [rewrite ok_stmt_unfold; split; [done|]; by eapply (ok_init_expr _ (enter_loop k))|by eapply (ok_init_decl _ (enter_loop k))].
  - rewrite ok_stmt_unfold. split; [exact Hsh|]. split; [done|]. rewrite ok_stmt_unfold. split; [done|].
    constructor; [done|]. constructor; [|done]. by rewrite ok_stmt_unfold.
Qed.
Lemma for_as_while_height init e advance body p :
  (height_stmt (SBlock [match init with InitExpr e => SExpr e p | InitDecl ds => SVarDecl ds p end;
     SWhile e (SBlock [body; SExpr advance p] p) p] p) <= height_stmt (SFor init e advance body p))%nat.
Proof. destruct init; cbn; lia. Qed.
Lemma for_to_while_pass : Pass ForToWhile false without_jumps without_fors same_scope any_state.
Proof.
  split; try done.
  - cbn. tauto.
  - by left.
  - intros s loc k k'. unfold same_scope. by intros <-.
  - intros w [] loc bs k k' Hk Hin Hw Hsh Hsub; unfold same_scope in Hk; subst k'; same_expr.
  - intros s st loc bs k k' Hk Hin Hsh Hsub. unfold same_scope in Hk. subst k'.
    destruct st; try (eexists _, _, _, _; split; [done|]; apply entered_same; try done;
      intros w st' Hr; cbn [rebuilt_stmt] in Hr; ex_inv; intros; same_stmt).
    eexists _, _, k, k. split; [done|]. split_and!; try done.
    + apply for_as_while_height.
    + by apply for_as_while_ok.
    + intros w st' _ Hw (ss & ->) Hss. apply runs_ret; [done..|]. split; [by rewrite ok_stmt_unfold|by repeat split].
Qed.

(** ** Switch statements *)
Definition same_switches (s s' : SwitchToIf) : Prop := name_stack s = name_stack s'.
Definition switch_scope (s : SwitchToIf) (loc : Loc) (k k' : Scope) : Prop :=
  klabels k ⊆ klabels k' ∧ (kcontinue k → kcontinue k') ∧ kloops k ⊆ kloops k' ∧ kused k' = kused k ∧
  if in_switch_block loc then ∃ name, head (name_stack s) = Some name ∧ name ∈ klabels k' else kbreak k → kbreak k'.
Definition is_switch (st : Stmt) : bool := match st with SSwitch _ _ _ _ => true | _ => false end.
Lemma switch_scope_child s loc k k' st ctx :
  ¬ is_switch st → child_ctx st ctx → switch_scope s loc k k' →
  switch_scope s (ctx :: loc) (child_scope st k) (child_scope st k').
Proof.
  unfold switch_scope. intros Hst Hc (H1 & H2 & H3 & H4 & H5). destruct st; cbn in Hst, Hc; try tauto; ex_inv; cbn; try done.
  destruct (is_loop st); cbn; rewrite ?H4; split_and!; try done; try set_solver;
    destruct (in_switch_block loc); try done; destruct H5 as (name & ? & ?); exists name; split; [done|set_solver|done|set_solver].
Qed.
Lemma switch_exit_other s loc k k' st bs (w : World SwitchToIf) :
  ¬ is_switch st → switch_scope s loc k k' → same_switches s (vstate w) → patched without_switches bs w →
  shape_stmt after_std_lib k st → sub_stmt without_switches (child_scope st k') st →
  runs without_switches same_switches bs s
    (λ st', ok_stmt without_switches k' st' ∧ keep_stmt after_std_lib without_switches st st') (switch_exit_stmt w st loc).
Proof.
  intros Hst (H1 & H2 & H3 & H4 & H5) Hs Hw Hsh Hsub.
  assert (∀ b, st = SBreak None b → in_switch_block loc = false → kbreak k') as Hb.
  { intros b -> Hin. rewrite Hin in H5. cbn in Hsh. auto. }
  assert ((∀ b, st ≠ SBreak None b) ∨ in_switch_block loc = false → shape_stmt without_switches k' st) as Hsame.
  { destruct st as [| | | | | | | | | |[]|[]| | | | | |]; cbn in *; rewrite ?orb_True, ?bool_decide_spec in *; auto.
    - by rewrite H4.
    - intros [Hn|Hn]; [by destruct (Hn s0)|by apply (Hb s0)]. }
  destruct st as [| | | | | | | | | |[l|] b| | | | | | |];
    try (apply runs_ret; [done..|]; split; [rewrite ok_stmt_unfold; split; [apply Hsame; by left|done]|apply keep_stmt_refl]; fail).
  - done.
  - cbn [switch_exit_stmt]. destruct (in_switch_block loc).
    + destruct H5 as (name & Hn & Hl). unfold same_switches in Hs. rewrite <- Hs, Hn. cbn. apply runs_ret; [done..|].
      split; [rewrite ok_stmt_unfold; cbn; by rewrite bool_decide_spec|by repeat split].
    + apply runs_ret; [done..|]. split; [rewrite ok_stmt_unfold; split; [apply Hsame; by right|done]|apply keep_stmt_refl].
Qed.
Lemma switch_case_ok k test_id fallthrough p (a : Expr * Stmt) :
  ok_expr without_switches k a.1 → ok_stmt without_switches k a.2 →
  ok_stmt without_switches k (switch_case test_id fallthrough p a).
Proof.
  intros He Ha. unfold switch_case. rewrite ok_stmt_unfold. split; [done|]. split_and!; [| |done].
  - rewrite ok_expr_unfold. split; [done|]. split; [|done]. rewrite ok_expr_unfold. by split.
  - rewrite ok_stmt_unfold. split; [done|]. by repeat constructor.
Qed.
Lemma switch_exit_switch s name ng bs (w : World SwitchToIf) k k' loc e cases d p :
  same_switches (mkSwitchToIf ng (name :: name_stack s)) (vstate w) → patched without_switches bs w →
  shape_stmt after_std_lib k (SSwitch e cases d p) → sub_stmt without_switches (add_label name k') (SSwitch e cases d p) →
  runs without_switches same_switches bs s
    (λ st', ok_stmt without_switches k' st' ∧ keep_stmt after_std_lib without_switches (SSwitch e cases d p) st')
    (switch_exit_stmt w (SSwitch e cases d p) loc).
Proof.
  intros Hs Hw Hsh (He & Hc & Hd). unfold same_switches in Hs. cbn in Hs. cbn [switch_exit_stmt]. rewrite <- Hs. cbn [head tail expect mbind comp_bind].
  destruct (NameGen.fresh "test" (sw_ng (vstate w))) as [test_id ng1]. destruct (NameGen.fresh "fallthrough" ng1) as [ft ng2].
  assert (∃ dv, match d with SBlock dv _ => Ok dv | SEmpty => Ok [] | _ => Panic "Block or Empty expected" end = Ok (E := never) dv ∧
    Forall (λ st, ok_stmt without_switches (add_label name k') st) dv) as (dv & -> & Hdv).
  { destruct d; try done; [|by exists []]. eexists. split; [done|]. by rewrite ok_stmt_unfold in Hd; destruct Hd. }
  cbn [mbind comp_bind]. apply runs_ret; [done..|]. split; [|by repeat split].
  rewrite ok_stmt_unfold. split; [done|]. cbn [sub_stmt child_scope is_loop if_loop_then_body].
  rewrite ok_stmt_unfold. split; [done|]. change (Forall (λ st, ok_stmt without_switches (add_label name k') st)
    ([vardecl1_ ft FALSE_ p; vardecl1_ test_id e p] ++ map (switch_case test_id ft p) cases ++ dv)). apply Forall_app. split.
  - constructor; [done|]. constructor; [|done]. eapply ok_vardecl; [exact He|intros _; set_solver].
  - apply Forall_app. split; [|done]. apply Forall_map. eapply Forall_impl; [exact Hc|]. intros a [? ?]. by apply switch_case_ok.
Qed.
Lemma switch_pass : Pass SwitchVisitor false after_std_lib without_switches switch_scope same_switches.
Proof.
  split; try done.
  - cbn. tauto.
  - by left.
  - unfold same_switches. by intros s1 s2 s3 -> ->.
  - unfold same_switches, switch_scope. by intros s s' loc k k' ->.
  - intros s ctx loc k k' Hc. unfold switch_scope. by destruct ctx.
  - intros s loc k k' (H1 & H2 & H3 & H4 & H5). unfold switch_scope. cbn. by rewrite H4.
  - intros w [] loc bs k k' Hk Hin Hw Hsh Hsub; same_expr.
  - intros s st loc bs k k' Hk Hin Hsh Hsub. destruct (decide (is_switch st)) as [Hsw|Hsw].
    + destruct st; try done. cbn [enter_stmt SwitchVisitor switch_enter_stmt].
      destruct (NameGen.fresh "sw" (sw_ng s)) as [name ng]. eexists _, _, (enter_switch k), (add_label name k').
      split; [done|]. destruct Hk as (H1 & H2 & H3 & H4 & H5). split_and!; try done.
      * intros ctx ->. unfold switch_scope. cbn. split_and!; try done; [set_solver|]. exists name. split; [done|set_solver].
      * intros w2 st2 Hs Hw2 (e' & cases' & d' & -> & Hd) Hsub2.
        apply (switch_exit_switch s name ng bs w2 k k' loc) in Hsub2 as (w3 & st3 & Hx & Hs3 & Hw3 & Hok & Hks); try done.
        { by exists w3, st3. }
        cbn in *. destruct Hd as (_ & _ & _ & Hd). auto.
    + exists s, st, (child_scope st k), (child_scope st k'). split; [by destruct st|]. split_and!; try done.
      * apply child_used.
      * intros ctx Hc. by apply switch_scope_child.
      * destruct st; try done. destruct Hsub as [Hi _]. destruct Hk as (_ & _ & _ & Hu & _).
        apply (ok_init_caps after_std_lib _ (enter_loop k)); [split; cbn; tauto|intros _; cbn; by rewrite Hu|exact Hi].
      * intros w2 st2 Hs Hw2 Hr Hsub2. pose proof (rebuilt_keep_stmt _ _ _ _ _ Hr) as Hks.
        destruct (switch_exit_other s loc k k' st2 bs w2) as (w3 & st3 & Hx & Hs3 & Hw3 & Hok & Hk3); try done.
        -- by destruct st; cbn [rebuilt_stmt] in Hr; ex_inv.
        -- by eapply shape_rebuilt_stmt.
        -- by eapply child_rebuilt.
        -- exists w3, st3. split_and!; try done. by eapply keep_stmt_trans.
Qed.

(** ** Labels of loops *)
Definition same_labels (s s' : LabelLoops) : Prop :=
  breaks_stack s = breaks_stack s' ∧ breaks_for_conts s = breaks_for_conts s' ∧
  ∀ x, NameGen.issued (ll_ng s) x → NameGen.issued (ll_ng s') x.
(** The labels in the state are in scope after the pass. *)
Definition label_scope (s : LabelLoops) (loc : Loc) (k k' : Scope) : Prop :=
  klabels k ⊆ klabels k' ∧ kused k' ⊆ kused k ∧
  (kbreak k ∨ kcontinue k → ∃ x y, head (breaks_stack s) = Some x ∧ x ∈ klabels k' ∧
    breaks_for_conts s !! x = Some y ∧ y ∈ klabels k') ∧
  (∀ x, x ∈ kloops k → ∃ y, breaks_for_conts s !! x = Some y ∧ y ∈ klabels k') ∧
  (∀ x, is_Some (breaks_for_conts s !! x) → (named x ∧ x ∈ kused k) ∨ NameGen.issued (ll_ng s) x).
Lemma label_scope_child s loc loc' k k' st :
  ¬ is_loop st → ¬ is_switch st → (∀ x b p, st = SLabel x b p → ¬ is_loop b) → label_scope s loc k k' →
  label_scope s loc' (child_scope st k) (child_scope st k').
Proof.
  intros Hl Hsw Hlab (H1 & H2 & H3 & H4 & H5). unfold label_scope.
  destruct st; cbn [child_scope] in *; try done; try (by destruct Hl); try (by destruct Hsw).
  - specialize (Hlab _ _ _ eq_refl). destruct (is_loop st); [by destruct Hlab|]. cbn. split_and!; [set_solver|done| | |done].
    + intros Hb. destruct (H3 Hb) as (y & z & ? & ? & ? & ?). exists y, z. split_and!; set_solver.
    + intros y Hy. destruct (H4 y Hy) as (z & ? & ?). exists z. split; set_solver.
  - cbn. split_and!; [done|done|naive_solver|set_solver|done].
Qed.
Definition loop_scope (x cont : Id) (k' : Scope) : Scope := mkScope true true (x :: cont :: klabels k') [] (kused k').
Lemma label_loop_scope s s0 x loc k k0 k' :
  label_scope s loc k k' → same_labels s s0 → kused k ⊆ kused k0 → kloops k0 ⊆ x :: kloops k → klabels k0 ⊆ x :: klabels k →
  (named x ∧ x ∈ kused k0) ∨ NameGen.issued (ll_ng s0) x →
  ∃ cont ng, label_loop_state x s0 = mkLabelLoops ng (x :: breaks_stack s) (<[x := cont]> (breaks_for_conts s)) ∧
    (∀ y, NameGen.issued (ll_ng s) y → NameGen.issued ng y) ∧
    ∀ loc', label_scope (mkLabelLoops ng (x :: breaks_stack s) (<[x := cont]> (breaks_for_conts s))) loc'
      (enter_loop k0) (loop_scope x cont k').
Proof.
  intros (H1 & H2 & H3 & H4 & H5) (S1 & S2 & S3) Hu Hl Hk Hx. unfold label_loop_state.
  pose proof (NameGen.fresh_issued "cont" (ll_ng s0)) as Hi. destruct (NameGen.fresh "cont" (ll_ng s0)) as [cont ng].
  cbn [fst snd] in Hi. exists cont, ng. rewrite <- S1, <- S2. split; [done|]. split; [intros y Hy; apply Hi; auto|].
  intros loc'. split_and!; cbn.
  - set_solver.
  - set_solver.
  - intros _. exists x, cont. rewrite lookup_insert_eq. split_and!; set_solver.
  - intros y Hy. destruct (decide (y = x)) as [->|Hne]; [exists cont; rewrite lookup_insert_eq; split; set_solver|].
    destruct (H4 y) as (z & Hz & ?); [set_solver|]. exists z. rewrite lookup_insert_ne by done. split; [done|set_solver].
  - intros y. destruct (decide (y = x)) as [->|Hne].
    + intros _. destruct Hx as [?|?]; [by left|right]. apply Hi. auto.
    + rewrite lookup_insert_ne by done. intros Hy. destruct (H5 y Hy) as [[? ?]|?]; [left; split; [done|set_solver]|right; apply Hi; auto].
Qed.
Lemma label_exit_other s loc k k' st bs (w : World LabelLoops) :
  ¬ is_loop st → label_scope s loc k k' → same_labels s (vstate w) → patched without_jumps bs w →
  shape_stmt without_conditions k st → sub_stmt without_jumps (child_scope st k') st →
  runs without_jumps same_labels bs s
    (λ st', ok_stmt without_jumps k' st' ∧ keep_stmt without_conditions without_jumps st st') (label_exit_stmt w st loc).
Proof.
  intros Hl (H1 & H2 & H3 & H4 & H5) Hs Hw Hsh Hsub. pose proof Hs as (S1 & S2 & S3).
  assert (∀ y p, y ∈ klabels k' → ok_stmt without_jumps k' (SBreak (Some y) p)) as Hbreak.
  { intros y p Hy. rewrite ok_stmt_unfold. cbn. by rewrite bool_decide_spec. }
  unfold label_exit_stmt. destruct st as [| | | | | | | | | |[l|] p|[l|] p| | | | | |]; try (by destruct Hl);
    cbn [if_loop_then_body mbind comp_bind]; rewrite <- ?S1, <- ?S2.
  all: try (apply runs_ret; [done..|]; split; [rewrite ok_stmt_unfold; by split|apply keep_stmt_refl]; fail).
  - apply runs_ret; [done..|]. split; [|apply keep_stmt_refl]. apply Hbreak. cbn in Hsh. rewrite bool_decide_spec in Hsh. set_solver.
  - destruct H3 as (x & y & Hx & Hxl & Hy & Hyl); [by left|]. rewrite Hx. cbn. apply runs_ret; [done..|]. split; [by apply Hbreak|by repeat split].
  - cbn in Hsh. rewrite bool_decide_spec in Hsh. destruct (H4 l Hsh) as (y & Hy & Hyl). rewrite Hy. cbn.
    apply runs_ret; [done..|]. split; [by apply Hbreak|by repeat split].
  - destruct H3 as (x & y & Hx & Hxl & Hy & Hyl); [by right|]. rewrite Hx. cbn. rewrite Hy. cbn.
    apply runs_ret; [done..|]. split; [by apply Hbreak|by repeat split].
Qed.
Lemma same_labels_refl s : same_labels s s.
Proof. by repeat split. Qed.
Lemma loop_body_ok k' x cont b p l :
  ok_stmt without_jumps (loop_scope x cont k') b → klabels l = x :: klabels k' → ok_stmt without_jumps l (SLabel cont b p).
Proof.
  intros Hb Hl. rewrite ok_stmt_unfold. split; [done|]. cbn [sub_stmt child_scope].
  eapply ok_stmt_scope; [done| |exact Hb]. apply scope_le_nojumps; [cbn; tauto|]. destruct (is_loop b); cbn; rewrite Hl; set_solver.
Qed.
Lemma label_exit_loop s ng x cont loc k k' k1 st bs (w : World LabelLoops) :
  is_loop st → breaks_for_conts s !! x = None → (∀ y, NameGen.issued (ll_ng s) y → NameGen.issued ng y) →
  same_labels (mkLabelLoops ng (x :: breaks_stack s) (<[x := cont]> (breaks_for_conts s))) (vstate w) → patched without_jumps bs w →
  shape_stmt without_conditions k1 st → sub_stmt without_jumps (loop_scope x cont k') st →
  label_scope s loc k k' →
  runs without_jumps same_labels bs s
    (λ st', ok_stmt without_jumps k' st' ∧ ¬ is_loop st') (label_exit_stmt w st loc).
Proof.
  intros Hl Hx Hng (S1 & S2 & S3) Hw Hsh Hsub Hk. cbn in S1, S2, S3.
  assert (∀ l e, ok_expr without_jumps (loop_scope x cont k') e → ok_expr without_jumps l e) as He.
  { intros l e. apply ok_expr_scope, used_nojumps. cbn. tauto. }
  assert (∀ w', vstate w' = mkLabelLoops (ll_ng (vstate w)) (breaks_stack s) (delete x (<[x := cont]> (breaks_for_conts s))) →
    same_labels s (vstate w')) as Hs'.
  { intros w' ->. split_and!; cbn; [done|by rewrite delete_insert_id|auto]. }
  destruct st; try done; unfold label_exit_stmt; cbn [if_loop_then_body mbind comp_bind].
  all: rewrite <- S1, <- S2; cbn [head tail expect mbind comp_bind]; rewrite lookup_insert_eq; cbn [expect mbind comp_bind].
  all: apply runs_ret; [by apply Hs'|done|]; split; [|by intros []].
  all: rewrite ok_stmt_unfold; split; [done|]; cbn [sub_stmt child_scope]; change (is_loop _) with true.
  all: cbn [sub_stmt] in Hsub; rewrite ok_stmt_unfold; split; [exact Hsh|]; cbn [sub_stmt child_scope].
  - destruct Hsub as [? Hb]. split; [by apply He|]. by eapply loop_body_ok.
  - destruct Hsub as (Hi & ? & ? & Hb). split_and!; [|by apply He|by apply He|by eapply loop_body_ok].
    eapply ok_init_caps; [apply caps_le_refl| |exact Hi]. apply used_nojumps. cbn. tauto.
  - destruct Hsub as [? Hb]. split; [by apply He|]. by eapply loop_body_ok.
Qed.
Lemma is_loop_enter s x st p loc :
  is_loop st → label_enter_stmt s (SLabel x st p) loc = Ok (label_loop_state x s, st) ∧
  (∃ break ng, NameGen.fresh "break" (ll_ng s) = (break, ng) ∧
    label_enter_stmt s st loc = Ok (label_loop_state break (mkLabelLoops ng (breaks_stack s) (breaks_for_conts s)), st)).
Proof.
  intros Hl. destruct st; try done; (split; [done|]); cbn [label_enter_stmt if_loop_then_body];
    destruct (NameGen.fresh "break" (ll_ng s)) as [break ng]; eauto.
Qed.
(** Entering a loop whose label is [x]. *)
Lemma entered_loop st0 st s s0 x bs loc k k0 k' :
  is_loop st → (st0 = st ∨ ∃ p, st0 = SLabel x st p) → label_scope s loc k k' → same_labels s s0 → breaks_for_conts s !! x = None →
  kused k ⊆ kused k0 → kloops k0 ⊆ x :: kloops k → klabels k0 ⊆ x :: klabels k →
  (named x ∧ x ∈ kused k0) ∨ NameGen.issued (ll_ng s0) x →
  shape_stmt without_conditions k0 st → sub_stmt without_conditions (enter_loop k0) st →
  ∃ k1', entered LabelVisitor false without_conditions without_jumps label_scope same_labels st0 bs loc k' s
    (label_loop_state x s0) st (enter_loop k0) k1'.
Proof.
  intros Hl Hst0 Hk Hs0 Hx Hu Hlo Hla Hname Hsh Hsub. pose proof Hk as (_ & Hku & _).
  destruct (label_loop_scope s s0 x loc k k0 k') as (cont & ng & Heq & Hng & Hsc); [done..|].
  exists (loop_scope x cont k'). rewrite Heq. split_and!.
  - destruct Hst0 as [->|(p & ->)]; cbn; lia.
  - by destruct Hst0 as [->|(p & ->)]; destruct st.
  - done.
  - done.
  - intros ctx _. apply Hsc.
  - destruct st; try done. destruct Hsub as [Hi _]. eapply ok_init_caps; [| |exact Hi]; [split; cbn; tauto|intros _; cbn; set_solver].
  - intros w2 st2 Hs2 Hw2 Hr Hsub2. pose proof (rebuilt_keep_stmt _ _ _ _ _ Hr) as Hks.
    destruct (label_exit_loop s ng x cont loc k k' k0 st2 bs w2) as (w3 & st3 & Hex & Hs3 & Hw3 & Hok & Hk3); try done.
    + by destruct st; cbn [rebuilt_stmt] in Hr; ex_inv.
    + by eapply shape_rebuilt_stmt.
    + exists w3, st3. split_and!; try done. split_and!; try done.
      * destruct Hst0 as [->|(p & ->)]; by destruct st.
      * destruct Hst0 as [->|(p & ->)]; by destruct st.
Qed.
Definition labelled_loop (st : Stmt) : bool := match st with SLabel _ b _ => is_loop b | _ => false end.
Lemma label_pass : Pass LabelVisitor false without_conditions without_jumps label_scope same_labels.
Proof.
  split; try done.
  - cbn. tauto.
  - by left.
  - intros s1 s2 s3 (E1 & E2 & H) (F1 & F2 & H'). split_and!; [congruence|congruence|auto].
  - intros s s' loc k k' (E1 & E2 & E3) (H1 & H2 & H3 & H4 & H5). unfold label_scope. rewrite <- E1, <- E2.
    split_and!; try done. intros x Hx. destruct (H5 x Hx); auto.
  - intros s loc k k' (H1 & H2 & H3 & H4 & H5). split_and!; cbn; try done; [naive_solver|set_solver].
  - intros w [] loc bs k k' Hk Hin Hw Hsh Hsub;
      (apply (runs_same_expr false without_conditions); [cbn; tauto|apply same_labels_refl|done|done|done]).
  - intros s st loc bs k k' Hk Hin Hsh Hsub. destruct (decide (is_loop st)) as [Hl|Hl].
    { destruct (is_loop_enter s (Named "") st Unknown loc Hl) as [_ (x & ng & Hf & He)]. cbn [enter_stmt LabelVisitor]. rewrite He.
      pose proof (NameGen.fresh_issued "break" (ll_ng s)) as Hi. pose proof (NameGen.fresh_not_issued "break" (ll_ng s)) as Hn.
      rewrite Hf in Hi, Hn. cbn in Hi, Hn.
      destruct (entered_loop st st s (mkLabelLoops ng (breaks_stack s) (breaks_for_conts s)) x bs loc k k k') as [k1' Hent]; try done.
      - by left.
      - split_and!; cbn; [done|done|]. intros y Hy. apply Hi. auto.
      - pose proof Hk as (_ & _ & _ & _ & H5). destruct (breaks_for_conts s !! x) eqn:Hx; [|done].
        destruct (H5 x) as [[Hnm _]|?]; [by eauto| |done].
        unfold NameGen.fresh in Hf. by injection Hf as <- _.
      - set_solver.
      - set_solver.
      - right. apply Hi. by right.
      - by destruct st.
      - by eexists _, _, _, _. }
    destruct (decide (labelled_loop st)) as [Hb|Hlab].
    { destruct st as [| | | | | | | | |x b p| | | | | | | |]; try done. cbn in Hb. destruct (is_loop_enter s x b p loc Hb) as [He _]. cbn [enter_stmt LabelVisitor]. rewrite He.
      cbn [sub_stmt child_scope] in Hsub. destruct (is_loop b) eqn:Hbl; [|done]. rewrite ok_stmt_unfold in Hsub. destruct Hsub as [Hsb Hsub].
      cbn [shape_stmt] in Hsh. rewrite Hbl in Hsh. cbn in Hsh. rewrite andb_True, negb_True, bool_decide_spec in Hsh. destruct Hsh as [Hn Hu].
      destruct (entered_loop (SLabel x b p) b s s x bs loc k (add_loop x k) k') as [k1' Hent]; try done.
      - by rewrite Hbl.
      - right. by exists p.
      - pose proof Hk as (_ & _ & _ & _ & H5). destruct (breaks_for_conts s !! x) eqn:Hx; [|done].
        destruct (H5 x) as [[_ ?]|?]; [by eauto|done|by destruct x].
      - cbn. set_solver.
      - left. split; [done|cbn; set_solver].
      - by destruct b.
      - by eexists _, _, _, _. }
    assert (¬ is_switch st) as Hsw by (destruct st; try done; by destruct Hsh).
    assert (label_enter_stmt s st loc = Ok (s, st)) as He.
    { destruct st; try done; try (by destruct Hl). cbn. destruct (if_loop_then_body st) eqn:Hb; [|done].
      destruct Hlab. cbn. unfold is_loop. rewrite Hb. by apply bool_decide_spec. }
    exists s, st, (child_scope st k), (child_scope st k'). split; [exact He|]. split_and!; try done.
    + apply child_used.
    + intros ctx _. apply (label_scope_child s loc); try done. by intros x b p ->.
    + destruct st; try done; by destruct Hl.
    + intros w2 st2 Hs Hw2 Hr Hsub2. pose proof (rebuilt_keep_stmt _ _ _ _ _ Hr) as Hks.
      destruct (label_exit_other s loc k k' st2 bs w2) as (w3 & st3 & Hx & Hs3 & Hw3 & Hok & Hk3); try done.
      * by destruct st; cbn [rebuilt_stmt] in Hr; ex_inv.
      * by eapply shape_rebuilt_stmt.
      * eapply child_rebuilt; [done| |exact Hr|exact Hsub2]. by intros [].
      * exists w3, st3. split_and!; try done. by eapply keep_stmt_trans.
Qed.

(** ** All passes *)
Ltac run_pass lemma HR H :=
  match type of H with
  | program_ok ?c ?p =>
      match goal with
      | |- context [walk ?v ?s p] =>
          let Hw := fresh in
          pose proof (walk_program v _ c _ _ _ s p lemma HR H) as Hw; clear H;
          let s' := fresh "s" in let p' := fresh "p" in destruct Hw as (s' & p' & -> & _ & H);
          cbn [mbind comp_bind]; cbv beta iota
      end
  end.
Lemma label_scope_program ng : label_scope (mkLabelLoops ng [] ∅) [] in_program in_program.
Proof. split_and!; cbn; [done|done|intros [[]|[]]|set_solver|]. intros x [? Hx]. by rewrite lookup_empty in Hx. Qed.
Lemma switch_scope_program ng : switch_scope (mkSwitchToIf ng []) [] in_program in_program.
Proof. split_and!; cbn; done. Qed.
Lemma desugar_ok p ng :
  program_ok source_caps p → ∃ ng' q, desugar p ng = Ok (ng', q) ∧ program_ok with_methods q.
Proof.
  intros H. unfold desugar.
  assert (∀ T (s : T), same_scope s [] in_program in_program) as Hs by done.
  run_pass function_statements_pass (Hs _ tt) H. run_pass std_lib_pass (Hs _ tt) H.
  unfold desugar_switch. run_pass switch_pass (switch_scope_program ng) H.
  unfold desugar_loops. run_pass explicit_breaks_pass (Hs _ tt) H.
  match goal with |- context [mkLabelLoops ?g [] ∅] => run_pass label_pass (label_scope_program g) H end.
  run_pass for_to_while_pass (Hs _ tt) H. run_pass add_blocks_pass (Hs _ tt) H. run_pass separate_pass (Hs _ tt) H.
  run_pass lift_pass (Hs _ tt) H. unfold desugar_this.
  match goal with |- context [NameGen.fresh "this" ?g] => destruct (NameGen.fresh "this" g) as [x ng1] end.
  run_pass (this_pass x) (Hs _ ng1) H.
  match goal with |- context [walk NameFunctionCalls ?g _] => run_pass calls_pass (Hs _ g) H end.
  match goal with |- context [walk DesugarLogical ?g _] => run_pass logical_pass (Hs _ g) H end.
  match goal with |- context [walk DesugarFancyUpdates ?g _] => run_pass updates_pass (Hs _ g) H end.
  run_pass bracket_pass (Hs _ tt) H. run_pass resugar_pass (Hs _ tt) H. eauto.
Qed.

(** ** The conversion to JankyScript *)
Lemma forall_total {A B} (P Q : A → Prop) (f : A → comp never B) l :
  Forall P l → Forall Q l → (∀ x, P x → Q x → ∃ y, f x = Ok y) → ∃ k, mapM f l = Ok k.
Proof. intros HP HQ H. apply mapM_total. forall_mp. eauto. Qed.
Lemma bind_total {A B} (m : comp never A) (f : A → comp never B) :
  (∃ x, m = Ok x) → (∀ x, ∃ y, f x = Ok y) → ∃ y, (m ≫= f) = Ok y.
Proof. intros [x ->] Hf. apply Hf. Qed.
Lemma from_total n :
  (∀ k e, (height_expr e <= n)%nat → ok_expr with_methods k e → ∃ e', from_expr e = Ok e') ∧
  (∀ k lv, (height_lval lv <= n)%nat → ok_lval with_methods k lv → ∃ lv', from_lvalue lv = Ok lv') ∧
  (∀ k st, (height_stmt st <= n)%nat → ok_stmt with_methods k st → ∃ st', from_stmt st = Ok st').
Proof.
  induction n as [|n (IHe & IHl & IHs)].
  { split_and!; intros k x Hh; exfalso; revert Hh; destruct x; cbn; lia. }
  assert (∀ k es, Forall (λ e, (height_expr e <= n)%nat) es → Forall (λ e, ok_expr with_methods k e) es →
    ∃ es', mapM from_expr es = Ok es') as IHes.
  { intros k es Hh Ho. eapply (forall_total _ _ _ _ Hh Ho). cbn. eauto. }
  split_and!.
  - intros k e Hh [Hsh Hsub]%ok_expr_unfold. apply height_below_expr in Hh.
    destruct e; cbn [below_expr sub_expr from_expr] in *; try done; try (destruct op; [|done]);
      ex_inv; repeat (apply bind_total; [by eauto|intros]); eauto.
    apply bind_total; [|eauto]. eapply forall_total; [exact Hh|exact Hsub|]. cbn. intros kv ??. apply bind_total; eauto.
  - intros k lv Hh Hok. apply height_below_lval in Hh.
    destruct lv; cbn [ok_lval from_lvalue] in *; rewrite ?andb_True in Hok; ex_inv;
      repeat (apply bind_total; [by eauto|intros]); eauto.
  - intros k st Hh [Hsh Hsub]%ok_stmt_unfold. apply height_below_stmt in Hh.
    destruct st; cbn [below_stmt sub_stmt from_stmt] in *; try done; ex_inv;
      repeat (apply bind_total; [by eauto|intros]); eauto.
    + apply bind_total; [|eauto]. eapply (forall_total _ _ _ _ Hh Hsub). cbn. eauto.
    + cbn in Hsh. destruct c as [[| |[]| | |] ?| | | | | | | | | | | | | | | | |]; try done. apply bind_total; eauto.
    + destruct is_var; [done|]. cbn [assert negb mbind comp_bind]. repeat (apply bind_total; [by eauto|intros]). eauto.
    + destruct x; [|done]. cbn. eauto.
    + by destruct x.
    + destruct ds as [|[x e] [|]]; try done. rewrite Forall_singleton in Hsub, Hh. apply bind_total; eauto.
Qed.
Lemma from_javascript_ok p : program_ok with_methods p → ∃ q, from_javascript p = Ok q.
Proof. intros [_ H]. by apply (from_total (height_stmt p)) in H. Qed.

(** C37: desugaring terminates without a panic on the programs of the subset
    [source_caps] (no repeated labels of loops, no functions in the first clause
    of a [for] loop, the right number of arguments for parseInt and Error, no
    sequences or updates as callees); the result is in the subset [with_methods],
    where every break has a label around it in the same function and there is no
    continue, switch, this, new, logical operator or update; and from_javascript
    converts it. *)
Theorem desugar_total p ng :
  program_ok source_caps p →
  ∃ ng' q r, desugar p ng = Ok (ng', q) ∧ program_ok with_methods q ∧ from_javascript q = Ok r.
Proof.
  intros H. destruct (desugar_ok p ng H) as (ng' & q & Hd & Hq). destruct (from_javascript_ok q Hq) as [r Hr]. eauto 6.
Qed.

(** ** Examples *)
Module Example.
Definition var (x : string) : Expr := EId (Named x) Unknown.
Definition call (f : Expr) (args : list Expr) : Expr := ECall f args Unknown.
Definition dot (e : Expr) (x : string) : Expr := EDot e (Named x) Unknown.
Definition line (e : Expr) : Stmt := SExpr e Unknown.
Definition block (ss : list Stmt) : Stmt := SBlock ss Unknown.
Definition func (params : list string) (ss : list Stmt) : Expr := EFunc None (map Named params) (block ss) Unknown.
Definition gen (x : string) (i : nat) : Id := Generated x i.
Definition desugared (ss : list Stmt) : comp never Stmt := snd <$> desugar (block ss) ∅.
(** Every construct of the source subset. *)
Definition program : Stmt :=
  block [
    SFunc (Named "g") [Named "n"] (block [
      SSwitch (var "n") [(int_ 1 Unknown, SBreak None Unknown)] (block [line (EAssign PlusEqual (LId (Named "n")) (int_ 2 Unknown) Unknown)]) Unknown;
      SReturn (EBinary (OLogical LAnd) EThis (ENew (var "g") [var "n"] Unknown) Unknown) Unknown]) Unknown;
    SFor (InitDecl [(Named "i", int_ 0 Unknown); (Named "j", int_ 1 Unknown)]) (var "i") (EUnaryAssign PostInc (LDot (var "o") (Named "i")) Unknown)
      (SIf (var "i") (SContinue None Unknown) SEmpty Unknown) Unknown;
    SLabel (Named "a") (SDoWhile (block [SContinue (Some (Named "a")) Unknown; SBreak None Unknown]) TRUE_ Unknown) Unknown;
    SForIn true (Named "y") (var "o") (line (call (var "parseInt") [str_ "1" Unknown])) Unknown;
    SCatch (SThrow (EIf (var "y") (EArray [] Unknown) (ESeq [call (dot (var "o") "m") []; dot (var "o") "length"] Unknown) Unknown) Unknown)
      (Named "e") (line (func [] [])) Unknown].
End Example.
Lemma desugar_total_witness :
  program_ok source_caps Example.program ∧
  ∃ ng' q r, desugar Example.program ∅ = Ok (ng', q) ∧ program_ok with_methods q ∧ from_javascript q = Ok r.
Proof. split; [by vm_compute|]. apply desugar_total. by vm_compute. Defined.


